(* ===== verification/_CoqProject ===== *)
-Q . S2P
Prelude.v
StdString.v
StdMap.v
NatsuBase.v
HttpRequest.v
HttpParser.v
HttpParserFacts.v
HttpResponse.v
HttpRouter.v
NatsuApp.v
SnowFlake.v
Json.v
JsonParser.v
JsonGrammar.v
JsonExact.v
RpcPacket.v
Rpc.v
RpcServer.v
Redis.v
SpinLock.v
RefCount.v
TSQueue.v
TSSkipQueue.v
SyncBlock.v
RWMutex.v
Channel.v
VoidChannel.v
ThreadPool.v
Await.v
Timer.v
SleepWait.v
Scheduler.v
TaskInfo.v
Context.v
FiberContext.v
IoWait.v
FdContext.v
GlibcHook.v
HookInit.v
PollFacts.v
PollMany.v
ConnHooks.v
WinHook.v
SchedulerRun.v
RunUntil.v
Debugger.v
