(* ===== verification/Prelude.v ===== *)
(** * natsu: a verification library

    natsu is an HTTP and RPC server framework in C++ on top of libgo, a library
    of coroutines.  This library models its own logic, as executable
    definitions translated from the sources, and proves what makes it correct.

    ** The program

    - [src/natsu], [src/inc]: the framework.  A connection's coroutine
      ([NatsuApp::handle]) feeds received bytes to an incremental parser
      ([HttpParser]), gives the finished [HttpRequest] to the router
      ([HttpRouter], rules compiled by libpcre) and writes the text of the
      [HttpResponse].  [natsu_rpc.cpp] sends protobuf messages in packets, finds
      servers through etcd's JSON answers ([gci-json]), and matches replies with
      calls by identifiers of [SnowFlake].  [natsu_redis.cpp] wraps hiredis and
      keeps pools of clients in channels.
    - [src/libgo]: coroutines.  Processers run the tasks of their queues
      ([TSQueue]), the scheduler dispatches runnable tasks, block objects,
      mutexes, read-write mutexes and channels suspend and wake them, timers
      end timed waits and sleeps.  The system calls that could block a thread
      are replaced ([linux_glibc_hook.cpp]): they store a sentry of the waiting
      task with the descriptor's context ([fd_context.cpp]), which keeps epoll
      informed, and yield until epoll, a timer or a close triggers the sentry
      ([io_wait.cpp]).  A pass of [Scheduler::Run] runs coroutines, timers,
      sleepers and the epoll loop in turn.

    ** The files

    - [Prelude.v]: byte strings, machine integers, the outcomes of C++ code
      ([Ret], [Throw], [Undef], [Fuel]) with their monad, the automation and the
      lemmas shared by the components.
    - [StdString.v], [StdMap.v]: what the sources use of [std::string],
      [<cstring>], [<cstdlib>], [std::map], [std::multimap].
    - [NatsuBase.v]: [natsu_string.cpp], [natsu_error.cpp], [natsu_config.cpp],
      [tribool.h].
    - [HttpRequest.v], [HttpParser.v], [HttpResponse.v], [HttpRouter.v]: the
      classes of the same names; one definition per method, the object's fields
      as a record.  [HttpParserFacts.v]: incremental parsing and round trip.
    - [NatsuApp.v]: [natsu_app.cpp].  The results of [read], [write] and
      [accept] are an input list, the calls made an output trace.
    - [SnowFlake.v]: [natsu_snowflake.h], the clock's readings as input.
    - [Json.v], [JsonParser.v], [JsonGrammar.v], [JsonExact.v]: [gci-json.cc],
      [gci-json.h]: values, the parser on its character buffer, the language of
      texts, and that the parser accepts that language.
    - [RpcPacket.v], [Rpc.v], [RpcServer.v]: [natsu_rpc.cpp]: the packet codec,
      then registry, connections and calls, then the coroutines around them:
      the search for a port, registration and refresh, reading and retrying.
    - [Redis.v]: [natsu_redis.cpp].
    - [SpinLock.v]: [spinlock.h], sections as small steps between lock and unlock.
      [RefCount.v]: the reference counts of [util.h].
    - [TSQueue.v], [TSSkipQueue.v]: [ts_queue.h] on a heap of hooks.
    - [SyncBlock.v], [RWMutex.v], [Channel.v], [VoidChannel.v], [ThreadPool.v]:
      [block_object.{h,cpp}], [co_mutex.cpp], [co_rwmutex.cpp], [channel.h],
      [thread_pool.cpp] as step relations whose steps are the sections the code
      makes atomic.  [Await.v]: [co_await] of [coroutine.h], a coroutine and a
      thread of the pool around a channel.
    - [Timer.v], [SleepWait.v], [Scheduler.v]: [timer.cpp], [sleep_wait.cpp],
      [processer.cpp], [scheduler.cpp] and the end of a task in [task.cpp].
      [TaskInfo.v]: [error.cpp], task objects, their states and statistics.
      [Context.v]: [context.h] and [ctx_ucontext/context.h]: a task's stack with
      its guard pages, and the switch between a task and its thread;
      [FiberContext.v]: [ctx_win_fiber/context.h], the same on Windows fibers.
    - [IoWait.v]: [io_wait.cpp], a step relation of switches and triggers.
      [FdContext.v]: [fd_context.cpp] and the epoll loop.  [GlibcHook.v]: the
      hooked calls of [linux_glibc_hook.cpp]; [HookInit.v]: how they are
      installed; [PollFacts.v], [PollMany.v]: a poll of one descriptor and of any
      list of them, from the call to the return, through all three;
      [ConnHooks.v]: [NatsuApp::handle] over the hooked calls.
      [WinHook.v]: the hooks of the Windows port, [win_vc_hook.cpp].
    - [SchedulerRun.v]: a whole pass of [Scheduler::Run]; [RunUntil.v]:
      [RunUntilNoTask].
    - [Debugger.v]: [debugger.h], [debugger.cpp]: the counters of objects and the
      report on the components above.

    Code outside of the repository is a parameter: libpcre and [std::sort]
    ([HttpRouter.v]), libcurl's [curl_unescape] ([HttpRequest.v]), floating-point
    numbers ([Json.v], class [Double]), protobuf and zlib's [adler32]
    ([RpcPacket.v]), hiredis ([Redis.v]), the kernel's descriptors and epoll
    (class [Kernel] in [FdContext.v] and [KernelCalls] in [GlibcHook.v], with
    the laws [KernelLaws] and [HookLaws]; [PollFacts.v] has a small kernel that
    satisfies them), Winsock (classes [WinSock] and [WinLaws] in [WinHook.v]), and
    where the C library's functions are found ([HookInit.v]).  Where a theorem relies on its
    documented behaviour, the behaviour is a class of laws with a concrete
    instance that satisfies them.

    ** The theorems

    - HTTP: the parser's verdict does not depend on how the input is split
      ([parse_incremental]); request texts are parsed to the request
      ([request_roundtrip], [chunked_body]) and paths to their parts
      ([uri_parts_roundtrip]); the longest
      matching rule is called ([dispatch_longest]); the whole response is sent,
      exceptions included ([request_served], [exception_answered]), also over the
      hooked calls with their waits ([connection_served]), and can be read back
      ([response_framing]).
    - JSON: the parser decides the grammar: it ends on every input, with the value
      the text denotes, which is unique, or with the documented exception when it
      denotes none ([parse_exact]); printed values are parsed to themselves
      ([tostring_parse]); operations keep the tag and the data consistent
      ([json_ops_wf], [property_roundtrip]).
    - RPC: packets are delivered ([decode_delivers], [decode_terminates]); a call
      gets the answer to its own request ([rpc_end_to_end], [calls_correlated])
      or times out in a known window ([timeout_window]); the server list follows
      etcd ([etcd_refresh]); identifiers increase ([ids_increasing],
      [id_fields]); the provider finds a port and serves every connection
      ([provider_serves]).
    - Redis: [replies_interpreted], [pool_conserved].
    - Queues: both intrusive queues implement lists ([tsqueue_refines],
      [skipqueue_refines]).
    - Synchronisation: sections under a spin lock are atomic ([sections_atomic]),
      which is why they are single steps elsewhere.  Over all interleavings of
      these steps: no signal is
      lost or invented ([signals_conserved]), a wait has one correct result
      ([wait_result], [woken_becomes_runnable]), mutual exclusion
      ([mutex_exclusive], [rw_exclusive]), channels are bounded queues
      ([channel_queue], [channel_no_lost_signal]), a channel without values is
      one of units ([void_channel_counts]), the thread pool runs every closure
      once ([pool_serves]) and [co_await] brings its result back to the coroutine
      ([await_returns]); counted objects are deleted once, when the last owner is
      gone ([references_safe]).
    - Time and scheduling: [timers_expire], [timer_once], [sleepers_wake],
      [run_fair], [task_dispatch], [steal_half]; switching resumes a task where it
      left, on any thread ([switch_resumes]), fibers do the same
      ([fibers_refine]), and the pages that cannot be accessed
      are the guards of live stacks ([guard_pages]); no timer is called twice and
      none that is due is left ([timers_called]); a pass of the scheduler wakes
      who is due and waits no longer than it may ([run_wakes]); the loop of the
      scheduler ends when the coroutines do ([run_until_done]); the statistics
      count the tasks that exist ([task_statistics]), and the debugger's
      counters the objects ([object_counts_exact]).
    - Descriptors: a waiting task is woken exactly once ([io_wakeup_once]); epoll
      watches what the waiters need ([reactor_consistent]) and events reach
      them ([events_delivered]); blocking calls of coroutines behave as
      blocking calls ([blocking_call], [poll_outcomes], [poll_many]), with the program's own
      view of the non-blocking flag ([nonblock_hidden]) and of duplicated
      descriptors ([dup2_shares]); hooked calls find the system's functions
      ([hooks_reach_system]).  On Windows hooked calls behave as blocking calls
      and leave the socket as they found it ([win_blocking_call]).

    Lemmas about behaviour that the authors did not intend stand beside the
    component they concern ([stale_state_deadlock], [fragment_overread],
    [set_sends_nothing] and others).

    ** Bounds and fuel

    Loops and recursions that are not structural take a fuel, and a lemma shows
    that the fuel used is enough: more of it does not change the result, or the
    result is not [Fuel]:
    - the JSON parser: [2 * length + 4]; each call of the mutual recursion
      consumes a character or descends one of two levels ([parse_total]);
    - the header and chunk loops of [HttpParser]: one more than the cached
      bytes, since every turn consumes at least two;
    - the packet loop of [RpcPacket]: the length of the buffer, since every
      packet consumes its header ([decode_terminates]);
    - [tokenize] and [replace_all]: the length of the string;
    - the matching loop of one rule in [HttpRouter]: one more than the length
      of the document, enough when no match is empty (the source's loop does
      not advance over an empty match, and [Fuel] is then its divergence);
    - the walks of [TSQueue]: the number of elements to take;
    - [WaitLoop] takes the list of its clock readings; more readings than
      timers are enough ([sleepers_wake]); [Processer::Run] takes the list of
      activations, one per turn ([run_fair]);
    - [DoTimer] takes the readings of its two clocks, enough when more than
      timers are pending ([timers_called]); the epoll loop the results of
      [epoll_wait], the retry loops of the hooks the results of the system's
      call, of the clock and of the polls ([blocking_call]); [RunUntilNoTask]
      a list of passes, enough when it is longer than the resumptions the
      coroutines have left ([run_until_done]); the hooked [select] of Windows the
      clock's readings, enough when one of them is past the time-out
      ([select_loop_ends]).  A list that ends
      before the loop does is a loop still under way ([None] or [Fuel]).
    Integers whose width matters are wrapped where the code computes
    ([u32], [i32], [u64], [i64]); [size_t] arithmetic on positions keeps its
    wrap-around.

    ** What is not modelled

    Pure input and output: the sockets themselves, debug output.  What a
    coroutine does between two switches is an input of the scheduler.  The boost
    version of [Context], which this build does not select;
    thread-local lookups, the time stamps of debug messages, the calls
    of channels from plain threads other than the pool's.  The vendored [xhook], a
    copy of a library that patches machine code, and the examples are left out. *)
From Stdlib Require Export Lia ZArith Ascii.
From stdpp Require Export base gmap strings numbers option.
From stdpp Require Export list.
#[global] Open Scope Z_scope.

(** ** Byte strings: the contents of a [std::string] or of a [char] buffer *)

Abbreviation bytes := (list ascii).

(** A string literal of the source as a byte string. *)
Definition lit (s : string) : bytes := String.list_ascii_of_string s.
Arguments lit s%_string_scope.

(** The numeric value of a byte, as an [unsigned char]. *)
Definition code (c : ascii) : Z := Z.of_N (N_of_ascii c).
Definition chr (z : Z) : ascii := ascii_of_N (Z.to_N (z mod 256)).

Definition NUL : ascii := "000"%char.
Definition CR : ascii := "013"%char.
Definition LF : ascii := "010"%char.
Definition CRLF : bytes := [CR; LF].

(** The length of a string as the [size_t] that [size()] returns. *)
Abbreviation sz s := (Z.of_nat (length s)).

(** ** Machine integers *)

Definition u16 (z : Z) : Z := z mod 2 ^ 16.
Definition u32 (z : Z) : Z := z mod 2 ^ 32.
Definition u64 (z : Z) : Z := z mod 2 ^ 64.
Definition i32 (z : Z) : Z := (z + 2 ^ 31) mod 2 ^ 32 - 2 ^ 31.
Definition i64 (z : Z) : Z := (z + 2 ^ 63) mod 2 ^ 64 - 2 ^ 63.
(** [std::string::npos], which is [(size_t)-1]. *)
Definition npos : Z := 2 ^ 64 - 1.

(** ** Outcomes of C++ code

    A call returns a value, throws, or has undefined behaviour (a null
    dereference, an access out of bounds).  [Fuel] marks a bounded model of a
    loop that was given too few iterations; the termination theorems show it
    is never produced. *)

Inductive exn : Type :=
| ExnOutOfRange
| ExnLengthError
| ExnLogicError
| ExnBadConversion
| ExnUnexpectedToken (ch : Z) (pos : Z)
| ExnBadFunctionCall
| ExnSystem (ec : Z)
| ExnUser (n : Z).

Inductive outcome (A : Type) : Type :=
| Ret (a : A)
| Throw (e : exn)
| Undef
| Fuel.
Arguments Ret {A} a.
Arguments Throw {A} e.
Arguments Undef {A}.
Arguments Fuel {A}.

#[global] Instance outcome_ret : MRet outcome := fun A a => Ret a.
#[global] Instance outcome_bind : MBind outcome := fun A B k m =>
  match m with
  | Ret a => k a
  | Throw e => Throw e
  | Undef => Undef
  | Fuel => Fuel
  end.
#[global] Instance outcome_fmap : FMap outcome := fun A B f m =>
  match m with
  | Ret a => Ret (f a)
  | Throw e => Throw e
  | Undef => Undef
  | Fuel => Fuel
  end.

#[global] Instance exn_eq_dec : EqDecision exn.
Proof. solve_decision. Defined.

(** A call that returned normally. *)
Definition returns {A} (m : outcome A) : Prop := exists a, m = Ret a.

(** Dereferencing a smart pointer that may be null. *)
Definition deref {A} (p : option A) : outcome A :=
  match p with Some a => Ret a | None => Undef end.

Lemma outcome_bind_ret {A B} (a : A) (k : A -> outcome B) : (Ret a ≫= k) = k a.
Proof. reflexivity. Qed.

Lemma outcome_bind_inv {A B} (m : outcome A) (k : A -> outcome B) b :
  (m ≫= k) = Ret b -> exists a, m = Ret a /\ k a = Ret b.
Proof. destruct m; simpl; try discriminate; eauto. Qed.

Lemma returns_ret {A} (a : A) : returns (Ret a).
Proof. by exists a. Qed.

Lemma returns_bind {A B} (m : outcome A) (k : A -> outcome B) :
  returns m -> (forall a, m = Ret a -> returns (k a)) -> returns (m ≫= k).
Proof. intros [a ->] Hk. by apply Hk. Qed.

(** ** Automation *)

Create HintDb natsu.
#[export] Hint Resolve returns_ret returns_bind : natsu.

(** Case analysis on the scrutinee of the innermost [match] or [if] in the
    goal, keeping the equation. *)
Ltac split_match :=
  match goal with
  | |- context [match ?x with _ => _ end] =>
      lazymatch x with
      | context [match _ with _ => _ end] => fail
      | _ => destruct x eqn:?
      end
  end.
Ltac split_match_in H :=
  match type of H with
  | context [match ?x with _ => _ end] =>
      lazymatch x with
      | context [match _ with _ => _ end] => fail
      | _ => destruct x eqn:?
      end
  end.

(** Turn boolean comparisons on [Z] and [nat] in the context into propositions. *)
Ltac zbool :=
  repeat match goal with
  | H : (_ <? _)%Z = true |- _ => apply Z.ltb_lt in H
  | H : (_ <? _)%Z = false |- _ => apply Z.ltb_ge in H
  | H : (_ <=? _)%Z = true |- _ => apply Z.leb_le in H
  | H : (_ <=? _)%Z = false |- _ => apply Z.leb_gt in H
  | H : (_ =? _)%Z = true |- _ => apply Z.eqb_eq in H
  | H : (_ =? _)%Z = false |- _ => apply Z.eqb_neq in H
  | H : (_ <? _)%nat = true |- _ => apply Nat.ltb_lt in H
  | H : (_ <? _)%nat = false |- _ => apply Nat.ltb_ge in H
  | H : (_ <=? _)%nat = true |- _ => apply Nat.leb_le in H
  | H : (_ <=? _)%nat = false |- _ => apply Nat.leb_gt in H
  | H : (_ =? _)%nat = true |- _ => apply Nat.eqb_eq in H
  | H : (_ =? _)%nat = false |- _ => apply Nat.eqb_neq in H
  end.

(** ** Reachability of a step relation *)

Inductive star {A} (R : A -> A -> Prop) : A -> A -> Prop :=
| star_refl a : star R a a
| star_step a b c : R a b -> star R b c -> star R a c.
#[export] Hint Constructors star : natsu.

Lemma star_invariant {A} (R : A -> A -> Prop) (I : A -> Prop) :
  (forall a b, R a b -> I a -> I b) ->
  forall a b, star R a b -> I a -> I b.
Proof. intros Hstep a b Hs; induction Hs; eauto. Qed.

Lemma star_one {A} (R : A -> A -> Prop) a b : R a b -> star R a b.
Proof. intros H. eapply star_step; [exact H|apply star_refl]. Qed.

Lemma star_trans {A} (R : A -> A -> Prop) a b c :
  star R a b -> star R b c -> star R a c.
Proof. induction 1; eauto with natsu. Qed.

(** ** Machine-integer facts *)

Lemma u64_small z : 0 <= z < 2 ^ 64 -> u64 z = z.
Proof. intros. unfold u64. by apply Z.mod_small. Qed.

Lemma u64_range z : 0 <= u64 z < 2 ^ 64.
Proof. unfold u64. apply Z.mod_pos_bound. lia. Qed.

Lemma u32_small z : 0 <= z < 2 ^ 32 -> u32 z = z.
Proof. intros. unfold u32. by apply Z.mod_small. Qed.

Lemma u32_range z : 0 <= u32 z < 2 ^ 32.
Proof. unfold u32. apply Z.mod_pos_bound. lia. Qed.

Lemma i32_small z : - 2 ^ 31 <= z < 2 ^ 31 -> i32 z = z.
Proof. intros. unfold i32. rewrite Z.mod_small; lia. Qed.

Lemma i64_small z : - 2 ^ 63 <= z < 2 ^ 63 -> i64 z = z.
Proof. intros. unfold i64. rewrite Z.mod_small; lia. Qed.

Lemma i32_range z : - 2 ^ 31 <= i32 z < 2 ^ 31.
Proof. unfold i32. pose proof (Z.mod_pos_bound (z + 2 ^ 31) (2 ^ 32)). lia. Qed.

Lemma i64_range z : - 2 ^ 63 <= i64 z < 2 ^ 63.
Proof. unfold i64. pose proof (Z.mod_pos_bound (z + 2 ^ 63) (2 ^ 64)). lia. Qed.

#[export] Hint Resolve u64_range u32_range i32_range i64_range : natsu.

(** ** Characters *)

Lemma code_range c : 0 <= code c < 256.
Proof. unfold code. pose proof (N_ascii_bounded c). lia. Qed.

Lemma chr_code c : chr (code c) = c.
Proof.
  unfold chr, code. rewrite Z.mod_small by (pose proof (N_ascii_bounded c); lia).
  rewrite N2Z.id. apply ascii_N_embedding.
Qed.

Lemma code_chr z : code (chr z) = z mod 256.
Proof.
  unfold chr, code. pose proof (Z.mod_pos_bound z 256 ltac:(lia)).
  rewrite N_ascii_embedding by lia. lia.
Qed.

Lemma code_inj c d : code c = code d -> c = d.
Proof. intros H. rewrite <- (chr_code c), <- (chr_code d). by rewrite H. Qed.

(** ** Lists *)

Lemma Forall_not_in {A} (P : A -> Prop) (l : list A) x :
  Forall P l -> ~ P x -> x ∉ l.
Proof. rewrite Forall_forall. intros HP Hx Hin. apply Hx, HP, Hin. Qed.

(** ** Queues of tasks

    [erase] of an intrusive queue: [None] when the task is not in it. *)
Fixpoint queue_erase (t : nat) (q : list nat) : option (list nat) :=
  match q with
  | [] => None
  | x :: q' => if decide (x = t) then Some q' else cons x <$> queue_erase t q'
  end.

Lemma queue_erase_some t q q' :
  queue_erase t q = Some q' -> NoDup q -> NoDup q' /\ t ∈ q /\ forall x, x ∈ q' <-> x ∈ q /\ x <> t.
Proof.
  revert q'. induction q as [|y q IH]; intros q' H Hn; [done|]. simpl in H. apply NoDup_cons in Hn as [Hy Hn].
  case_decide; simplify_eq.
  - split_and!; [done|set_solver|]. intros x. rewrite elem_of_cons. split; [|naive_solver].
    intros Hx. split; [by right|]. by intros ->.
  - destruct (queue_erase t q) as [r|]; [|done]. simpl in H. injection H as <-.
    destruct (IH r eq_refl Hn) as (Hr & Ht & Hi). split_and!; [|set_solver|].
    + apply NoDup_cons. rewrite Hi. naive_solver.
    + intros x. rewrite !elem_of_cons, Hi. naive_solver.
Qed.

Lemma queue_erase_none t q : queue_erase t q = None <-> t ∉ q.
Proof.
  induction q as [|y q IH]; simpl; [set_solver|]. case_decide as Hd; [set_solver|].
  rewrite elem_of_cons, fmap_None, IH. naive_solver.
Qed.

Lemma queue_erase_length t q q' : queue_erase t q = Some q' -> length q = S (length q').
Proof.
  revert q'. induction q as [|x q IH]; intros q' H; [done|]. simpl in H. case_decide; simplify_eq; [done|].
  destruct (queue_erase t q) as [r|]; [|done]. simpl in H. injection H as <-. simpl. by rewrite (IH r).
Qed.

Lemma queue_erase_perm t q : t ∈ q -> exists q', queue_erase t q = Some q' /\ q ≡ₚ t :: q'.
Proof.
  induction q as [|x q IH]; intros Ht; [set_solver|]. simpl. case_decide as Hd; [subst; by eexists|].
  apply elem_of_cons in Ht as [->|Ht]; [done|]. destruct (IH Ht) as (q' & -> & Hq).
  eexists. split; [done|]. rewrite Hq. apply Permutation_swap.
Qed.

Lemma nodup_snoc (q : list nat) t : NoDup q -> t ∉ q -> NoDup (q ++ [t]).
Proof. intros Hn Ht. apply NoDup_app. split_and!; [done|set_solver|apply NoDup_singleton]. Qed.
