(* ===== verification/StdString.v ===== *)
(** * Strings of the C and C++ standard library

    The operations of [std::string], [<cstring>], [<cctype>] and [<cstdlib>]
    the sources use, on byte strings, with the facts about searching,
    trimming and number conversion that the components share.

    Positions found by a search are [option nat], where [None] is
    [std::string::npos]; [to_pos] gives the [size_t] the C++ code computes
    with. *)
From S2P Require Import Prelude.

(** ** Searching *)

Fixpoint starts_with (p s : bytes) : bool :=
  match p, s with
  | [], _ => true
  | a :: p', b :: s' => Ascii.eqb a b && starts_with p' s'
  | _ :: _, [] => false
  end.

(** [s.find(p)]. *)
Fixpoint find (p s : bytes) : option nat :=
  if starts_with p s then Some 0%nat
  else match s with
       | [] => None
       | _ :: s' => S <$> find p s'
       end.

(** [s.find(p, pos)]. *)
Definition find_at (p s : bytes) (pos : nat) : option nat :=
  if (pos <=? length s)%nat then (fun k => (pos + k)%nat) <$> find p (drop pos s)
  else None.

Fixpoint first_index (P : ascii -> bool) (s : bytes) : option nat :=
  match s with
  | [] => None
  | c :: s' => if P c then Some 0%nat else S <$> first_index P s'
  end.

Definition char_in (c : ascii) (cs : bytes) : bool := existsb (Ascii.eqb c) cs.

(** [s.find_first_of(cs, pos)] and [s.find_first_not_of(cs, pos)]. *)
Definition find_first_of (cs s : bytes) (pos : nat) : option nat :=
  (fun k => (pos + k)%nat) <$> first_index (fun c => char_in c cs) (drop pos s).
Definition find_first_not_of (cs s : bytes) (pos : nat) : option nat :=
  (fun k => (pos + k)%nat) <$> first_index (fun c => negb (char_in c cs)) (drop pos s).

(** The [size_t] of a search result. *)
Definition to_pos (o : option nat) : Z :=
  match o with Some k => Z.of_nat k | None => npos end.

(** [s.substr(pos, n)]: throws when [pos > size()]. *)
Definition substr (s : bytes) (pos n : Z) : outcome bytes :=
  if sz s <? pos then Throw ExnOutOfRange
  else Ret (take (Z.to_nat (Z.min n (sz s))) (drop (Z.to_nat pos) s)).

(** ** C strings *)

(** The C string [s.c_str()] as a function that scans it sees it: up to the
    first NUL. *)
Fixpoint cstr (s : bytes) : bytes :=
  match s with
  | [] => []
  | c :: s' => if Ascii.eqb c NUL then [] else c :: cstr s'
  end.

Definition in_range (lo hi : Z) (c : ascii) : bool := (lo <=? code c) && (code c <=? hi).

(** [<cctype>] in the C locale. *)
Definition isdigit (c : ascii) : bool := in_range 48 57 c.
Definition isupper (c : ascii) : bool := in_range 65 90 c.
Definition islower (c : ascii) : bool := in_range 97 122 c.
Definition isxdigit (c : ascii) : bool := isdigit c || in_range 65 70 c || in_range 97 102 c.
Definition iscntrl (c : ascii) : bool := in_range 0 31 c || (code c =? 127).
Definition isgraph (c : ascii) : bool := in_range 33 126 c.
Definition isspace (c : ascii) : bool := in_range 9 13 c || (code c =? 32).
Definition tolower (c : ascii) : ascii := if isupper c then chr (code c + 32) else c.

(** [strcasecmp(a, b) == 0]. *)
Definition strcaseeq (a b : bytes) : bool :=
  bool_decide (map tolower (cstr a) = map tolower (cstr b)).

(** ** Numbers *)

Definition digit_val (c : ascii) : Z :=
  if isdigit c then code c - 48
  else if islower c then code c - 87
  else if isupper c then code c - 55
  else 99.

Fixpoint skip_space (s : bytes) : bytes :=
  match s with
  | c :: s' => if isspace c then skip_space s' else s
  | [] => []
  end.

Fixpoint digits (base : Z) (acc : Z) (s : bytes) : Z :=
  match s with
  | c :: s' => if digit_val c <? base then digits base (acc * base + digit_val c) s' else acc
  | [] => acc
  end.

Definition skip_0x (base : Z) (s : bytes) : bytes :=
  match s with
  | a :: b :: s' =>
      if (base =? 16) && (code a =? 48) && ((code b =? 120) || (code b =? 88)) then s' else s
  | _ => s
  end.

Definition LONG_MAX : Z := 2 ^ 63 - 1.
Definition LONG_MIN : Z := - 2 ^ 63.

(** [strtol(s, &end, base)] with a 64-bit [long]: the value saturates. *)
Definition strtol (base : Z) (s : bytes) : Z :=
  let s := skip_space (cstr s) in
  match s with
  | c :: s' =>
      if code c =? 45 then Z.max LONG_MIN (- digits base 0 (skip_0x base s'))
      else if code c =? 43 then Z.min LONG_MAX (digits base 0 (skip_0x base s'))
      else Z.min LONG_MAX (digits base 0 (skip_0x base s))
  | [] => 0
  end.

(** [atoi(s)], which is [(int)strtol(s, NULL, 10)]. *)
Definition atoi (s : bytes) : Z := i32 (strtol 10 s).

(** Decimal output of an integer, as [ostream <<], [std::to_string] and
    [printf("%d")] produce it. *)
Fixpoint dec_nat (fuel : nat) (n : Z) (acc : bytes) : bytes :=
  match fuel with
  | O => acc
  | S fuel' =>
      let acc := chr (48 + n mod 10) :: acc in
      if n <? 10 then acc else dec_nat fuel' (n / 10) acc
  end.
Definition dec (z : Z) : bytes :=
  if z <? 0 then "-"%char :: dec_nat (S (Z.to_nat (Z.log2 (- z)))) (- z) []
  else dec_nat (S (Z.to_nat (Z.log2 z))) z [].

(** [printf("%s", s)]. *)
Definition percent_s (s : bytes) : bytes := cstr s.

(** ** Searching: facts *)

Lemma char_in_spec c cs : char_in c cs = true <-> c ∈ cs.
Proof.
  unfold char_in. rewrite existsb_exists. split.
  - intros (x & Hin & Heq). apply Ascii.eqb_eq in Heq as ->. by apply list_elem_of_In.
  - intros Hin. exists c. split; [by apply list_elem_of_In | apply Ascii.eqb_refl].
Qed.

Lemma starts_with_app p s : starts_with p (p ++ s) = true.
Proof. induction p as [|a p IH]; [done|]; simpl. by rewrite Ascii.eqb_refl. Qed.

Lemma starts_with_spec p s : starts_with p s = true <-> exists r, s = p ++ r.
Proof.
  revert s. induction p as [|a p IH]; intros s; simpl; [naive_solver|].
  destruct s as [|b s]; [naive_solver|].
  rewrite andb_true_iff, Ascii.eqb_eq, IH. naive_solver.
Qed.

(** Extending the haystack does not change a search that succeeded. *)
Lemma starts_with_app_l p s t :
  starts_with p s = true -> starts_with p (s ++ t) = true.
Proof.
  rewrite !starts_with_spec. intros [r ->]. exists (r ++ t). by rewrite app_assoc.
Qed.

Lemma starts_with_app_inv p s t :
  (length p <= length s)%nat -> starts_with p (s ++ t) = starts_with p s.
Proof.
  revert s. induction p as [|a p IH]; intros [|b s]; simpl; try done; [lia|].
  intros. rewrite IH by lia. done.
Qed.

Lemma find_lt p s k : find p s = Some k -> (k + length p <= length s)%nat.
Proof.
  revert k. induction s as [|b s IH]; intros k.
  - simpl. destruct p; simpl; [naive_solver|done].
  - cbn [find]. destruct (starts_with p (b :: s)) eqn:E.
    + intros [= <-]. apply starts_with_spec in E as [r E].
      apply (f_equal length) in E. rewrite length_app in E. lia.
    + destruct (find p s); simpl; [intros [= <-]; specialize (IH _ eq_refl); lia|done].
Qed.

Lemma find_app p s t k : find p s = Some k -> find p (s ++ t) = Some k.
Proof.
  revert k. induction s as [|b s IH]; intros k.
  - simpl. destruct p; [|done]. intros [= <-]. by destruct t.
  - cbn [find app]. destruct (starts_with p (b :: s)) eqn:E.
    + intros [= <-]. change (b :: s ++ t) with ((b :: s) ++ t).
      by rewrite starts_with_app_l.
    + destruct (find p s) as [j|] eqn:Ej; simpl; [|done]. intros [= <-].
      assert (starts_with p (b :: s ++ t) = false) as ->.
      { change (b :: s ++ t) with ((b :: s) ++ t).
        rewrite starts_with_app_inv; [done|]. apply find_lt in Ej. simpl. lia. }
      by rewrite (IH j).
Qed.

Lemma find_split p s k :
  find p s = Some k -> s = take k s ++ p ++ drop (k + length p) s.
Proof.
  revert k. induction s as [|b s IH]; intros k.
  - simpl. destruct p; [|done]. intros [= <-]. done.
  - cbn [find]. destruct (starts_with p (b :: s)) eqn:E.
    + intros [= <-]. apply starts_with_spec in E as [r ->].
      simpl. by rewrite drop_app_length.
    + destruct (find p s) as [j|] eqn:Ej; simpl; [|done]. intros [= <-].
      simpl. f_equal. by apply IH.
Qed.

(** A one-character search finds the end of a prefix without the character. *)
Lemma find_char_app c s t : c ∉ s -> find [c] (s ++ c :: t) = Some (length s).
Proof.
  induction s as [|b s IH]; intros Hn; simpl.
  - by rewrite Ascii.eqb_refl.
  - apply not_elem_of_cons in Hn as [Hb Hs].
    rewrite (proj2 (Ascii.eqb_neq c b) Hb). simpl. by rewrite IH.
Qed.

Lemma find_char_none c s : find [c] s = None <-> c ∉ s.
Proof.
  induction s as [|b s IH]; simpl.
  - split; [intros _; apply not_elem_of_nil | done].
  - rewrite not_elem_of_cons. destruct (Ascii.eqb_spec c b) as [->|Hne]; simpl.
    + naive_solver.
    + destruct (find [c] s); simpl; naive_solver.
Qed.

Lemma find_char_not_in c s k : find [c] s = Some k -> c ∉ take k s.
Proof.
  revert k. induction s as [|b s IH]; intros k; simpl; [done|].
  destruct (Ascii.eqb_spec c b) as [->|Hne]; simpl.
  - intros [= <-]. apply not_elem_of_nil.
  - destruct (find [c] s) as [j|]; simpl; [|done]. intros [= <-]. simpl.
    apply not_elem_of_cons. split; [done|]. by apply IH.
Qed.

(** The end of a line that does not contain the first byte of the terminator. *)
Lemma find_line a p s t : a ∉ s -> find (a :: p) (s ++ a :: p ++ t) = Some (length s).
Proof.
  intros Hn. induction s as [|b s IH]; simpl.
  - rewrite Ascii.eqb_refl. simpl. by rewrite starts_with_app.
  - apply not_elem_of_cons in Hn as [Hb Hs].
    rewrite (proj2 (Ascii.eqb_neq a b) Hb). simpl. by rewrite IH.
Qed.

Lemma find_CRLF s t : CR ∉ s -> find CRLF (s ++ CRLF ++ t) = Some (length s).
Proof. apply (find_line CR [LF]). Qed.

Lemma first_index_lt P s k : first_index P s = Some k -> (k < length s)%nat.
Proof.
  revert k. induction s as [|c s IH]; intros k; simpl; [done|].
  destruct (P c); [intros [= <-]; lia|].
  destruct (first_index P s); simpl; [|done]. intros [= <-].
  specialize (IH _ eq_refl). lia.
Qed.

Lemma first_index_none P s : first_index P s = None <-> Forall (fun c => P c = false) s.
Proof.
  induction s as [|c s IH]; simpl.
  - split; [constructor | done].
  - rewrite Forall_cons. destruct (P c); simpl; [naive_solver|].
    destruct (first_index P s); simpl; naive_solver.
Qed.

Lemma first_index_app P s c t :
  Forall (fun c => P c = false) s -> P c = true ->
  first_index P (s ++ c :: t) = Some (length s).
Proof.
  intros Hs Hc. induction Hs as [|x s Hx Hs IH]; simpl; [by rewrite Hc|].
  by rewrite Hx, IH.
Qed.

Lemma first_index_spec P s k :
  first_index P s = Some k ->
  exists c t, s = take k s ++ c :: t /\ P c = true /\ Forall (fun c => P c = false) (take k s).
Proof.
  revert k. induction s as [|c s IH]; intros k; simpl; [done|].
  destruct (P c) eqn:E; [intros [= <-]; exists c, s; by repeat split |].
  destruct (first_index P s) as [j|]; simpl; [|done]. intros [= <-].
  destruct (IH _ eq_refl) as (d & t & Heq & Hd & Hall).
  exists d, t. simpl. rewrite <- Heq. repeat split; [done|]. by constructor.
Qed.

(** ** C strings: facts *)

Lemma cstr_id s : NUL ∉ s -> cstr s = s.
Proof.
  induction s as [|c s IH]; [done|]. rewrite not_elem_of_cons. intros [Hc Hs]. simpl.
  rewrite (proj2 (Ascii.eqb_neq c NUL)) by done. by rewrite IH.
Qed.

Lemma cstr_no_nul s : NUL ∉ cstr s.
Proof.
  induction s as [|c s IH]; simpl; [apply not_elem_of_nil|].
  destruct (Ascii.eqb_spec c NUL); [apply not_elem_of_nil|].
  apply not_elem_of_cons. split; [congruence|done].
Qed.

Lemma cstr_app_nul s : cstr (s ++ [NUL]) = cstr s.
Proof. induction s as [|c s IH]; cbn [app cstr]; [done|]. by rewrite IH. Qed.

Lemma cstr_idemp s : cstr (cstr s) = cstr s.
Proof. apply cstr_id, cstr_no_nul. Qed.

Lemma substr_total s pos n :
  0 <= pos <= sz s -> substr s pos n = Ret (take (Z.to_nat (Z.min n (sz s))) (drop (Z.to_nat pos) s)).
Proof. intros. unfold substr. by rewrite (proj2 (Z.ltb_ge _ _)) by lia. Qed.

Lemma substr_tail s pos n :
  0 <= pos <= sz s -> sz s - pos <= n -> substr s pos n = Ret (drop (Z.to_nat pos) s).
Proof.
  intros Hp Hn. rewrite substr_total by done. f_equal.
  rewrite take_ge; [done|]. rewrite length_drop. lia.
Qed.

(** ** Decimal numbers: printing then scanning gives the number back *)

Lemma isdigit_code c : isdigit c = true <-> 48 <= code c <= 57.
Proof. unfold isdigit, in_range. rewrite andb_true_iff, !Z.leb_le. done. Qed.

Lemma digit_chr d : 0 <= d < 10 -> isdigit (chr (48 + d)) = true /\ digit_val (chr (48 + d)) = d.
Proof.
  intros Hd. assert (code (chr (48 + d)) = 48 + d) as Hc.
  { rewrite code_chr, Z.mod_small; lia. }
  assert (isdigit (chr (48 + d)) = true) as Hi by (apply isdigit_code; lia).
  split; [done|]. unfold digit_val. rewrite Hi. lia.
Qed.

Lemma digits_app_snoc base acc s c :
  Forall (fun c => digit_val c < base) s -> digit_val c < base ->
  digits base acc (s ++ [c]) = digits base acc s * base + digit_val c.
Proof.
  intros Hs Hc. revert acc. induction Hs as [|x s Hx Hs IH]; intros acc; simpl.
  - by rewrite (proj2 (Z.ltb_lt _ _) Hc).
  - by rewrite (proj2 (Z.ltb_lt _ _) Hx).
Qed.

Definition is_decimal (s : bytes) : Prop := Forall (fun c => isdigit c = true) s.

Lemma dec_nat_spec fuel n acc :
  0 <= n < 2 ^ Z.of_nat fuel ->
  exists ds, dec_nat fuel n acc = ds ++ acc /\ is_decimal ds /\ (fuel <> 0%nat -> ds <> []) /\
             (fuel <> 0%nat -> digits 10 0 ds = n).
Proof.
  revert n acc. induction fuel as [|fuel IH]; intros n acc Hn.
  { exists []. repeat split; try done; constructor. }
  pose proof (Z.mod_pos_bound n 10 ltac:(lia)) as Hm.
  destruct (digit_chr (n mod 10) ltac:(lia)) as [Hi Hv].
  cbn [dec_nat]. destruct (n <? 10) eqn:E; zbool.
  - exists [chr (48 + n mod 10)]. repeat split; try done; [by repeat constructor|].
    intros _. simpl. rewrite Hv, (proj2 (Z.ltb_lt _ _)) by lia.
    rewrite Z.mod_small by lia. lia.
  - assert (fuel <> 0%nat) as Hf. { intros ->. simpl in Hn. lia. }
    assert (0 <= n / 10 < 2 ^ Z.of_nat fuel) as Hd.
    { split; [apply Z.div_pos; lia|]. apply Z.div_lt_upper_bound; [lia|].
      rewrite Nat2Z.inj_succ, Z.pow_succ_r in Hn by lia. lia. }
    destruct (IH (n / 10) (chr (48 + n mod 10) :: acc) Hd) as (ds & -> & Hds & Hne & Hval).
    exists (ds ++ [chr (48 + n mod 10)]). split; [by rewrite <- app_assoc|]. split.
    { apply Forall_app. split; [done|]. by repeat constructor. }
    split; [by destruct ds|]. intros _. rewrite digits_app_snoc.
    + rewrite Hval by done. rewrite Hv. pose proof (Z.div_mod n 10). lia.
    + eapply Forall_impl; [exact Hds|]. intros c Hc. simpl in *.
      unfold digit_val. rewrite Hc. apply isdigit_code in Hc. lia.
    + rewrite Hv. lia.
Qed.

Lemma dec_nonneg_spec n :
  0 <= n -> is_decimal (dec n) /\ dec n <> [] /\ digits 10 0 (dec n) = n.
Proof.
  intros Hn. unfold dec. rewrite (proj2 (Z.ltb_ge _ _)) by lia.
  destruct (dec_nat_spec (S (Z.to_nat (Z.log2 n))) n []) as (ds & -> & H1 & H2 & H3).
  - split; [done|]. rewrite Nat2Z.inj_succ, Z2Nat.id by apply Z.log2_nonneg.
    destruct (decide (n = 0)) as [->|]; [simpl; lia|].
    apply Z.log2_spec; lia.
  - rewrite app_nil_r. auto.
Qed.

Lemma decimal_no_char s c : is_decimal s -> isdigit c = false -> c ∉ s.
Proof. intros Hs Hc. eapply Forall_not_in; [exact Hs|]. simpl. congruence. Qed.

Lemma dec_no_char n c : 0 <= n -> isdigit c = false -> c ∉ dec n.
Proof. intros Hn Hc. eapply decimal_no_char; [apply dec_nonneg_spec, Hn|done]. Qed.

Lemma strtol_decimal base s :
  is_decimal s -> s <> [] -> base = 10 -> strtol base s = Z.min LONG_MAX (digits base 0 s).
Proof.
  intros Hs Hne ->. unfold strtol.
  rewrite cstr_id by by apply decimal_no_char.
  destruct s as [|c s]; [done|]. apply Forall_cons in Hs as [Hc Hs].
  apply isdigit_code in Hc.
  assert (isspace c = false) as Hsp.
  { unfold isspace, in_range. apply orb_false_iff. split; [apply andb_false_iff|].
    - right. apply Z.leb_gt. lia. - apply Z.eqb_neq. lia. }
  simpl skip_space. rewrite Hsp. cbv beta iota.
  rewrite !(proj2 (Z.eqb_neq _ _)) by lia.
  f_equal. f_equal. unfold skip_0x. by destruct s.
Qed.

(** [atoi] reads back what was printed, on [int]. *)
Lemma atoi_dec n : 0 <= n < 2 ^ 31 -> atoi (dec n) = n.
Proof.
  intros Hn. destruct (dec_nonneg_spec n ltac:(lia)) as (Hd & Hne & Hv).
  unfold atoi. rewrite strtol_decimal by done. rewrite Hv.
  rewrite Z.min_r by (unfold LONG_MAX; lia). apply i32_small. lia.
Qed.

(** ** Splitting a string at the first occurrence of a character *)

Lemma take_find_line s t : CR ∉ s -> take (length s) (s ++ CRLF ++ t) = s.
Proof. intros _. by rewrite take_app_length. Qed.

Lemma drop_find_line s t : drop (length s + 2) (s ++ CRLF ++ t) = t.
Proof.
  rewrite app_assoc. replace (length s + 2)%nat with (length (s ++ CRLF)).
  - by rewrite drop_app_length. - by rewrite length_app.
Qed.

#[export] Hint Resolve substr_total cstr_no_nul : natsu.
