(* ===== verification/StdMap.v ===== *)
(** * [std::map], [std::set] and [std::multimap]

    Ordered associative containers as lists of pairs in key order, the order
    in which the C++ iterators visit them.  A container is used through its
    operations only; [map_sorted] is the representation invariant and every
    operation preserves it. *)
From S2P Require Import Prelude StdString.

(** The strict order [std::less<K>] of a key type, with the laws of a strict
    total order. *)
Class StdLess (K : Type) := {
  less : K -> K -> bool;
  less_irrefl : forall a, less a a = false;
  less_trans : forall a b c, less a b = true -> less b c = true -> less a c = true;
  less_total : forall a b, less a b = false -> less b a = false -> a = b
}.

#[export] Instance Z_less : StdLess Z.
Proof.
  refine {| less := Z.ltb |}.
  - intros a. apply Z.ltb_irrefl.
  - intros a b c H1 H2. zbool. apply Z.ltb_lt. lia.
  - intros a b H1 H2. zbool. lia.
Defined.

(** Addresses, as numbers. *)
#[export] Instance nat_less : StdLess nat.
Proof.
  refine {| less := Nat.ltb |}.
  - intros a. apply Nat.ltb_irrefl.
  - intros a b c H1 H2. zbool. apply Nat.ltb_lt. lia.
  - intros a b H1 H2. zbool. lia.
Defined.

(** [std::string] compares bytes as [unsigned char], lexicographically. *)
Fixpoint bytes_less_b (a b : bytes) : bool :=
  match a, b with
  | _, [] => false
  | [], _ :: _ => true
  | x :: a', y :: b' =>
      if code x <? code y then true
      else if code y <? code x then false
      else bytes_less_b a' b'
  end.

Lemma bytes_less_irrefl a : bytes_less_b a a = false.
Proof. induction a as [|x a IH]; simpl; [done|]. by rewrite Z.ltb_irrefl. Qed.

Lemma bytes_less_trans a b c :
  bytes_less_b a b = true -> bytes_less_b b c = true -> bytes_less_b a c = true.
Proof.
  revert b c. induction a as [|x a IH]; intros [|y b] [|z c]; simpl; try done.
  destruct (code x <? code y) eqn:E1; destruct (code y <? code x) eqn:E2;
  destruct (code y <? code z) eqn:E3; destruct (code z <? code y) eqn:E4;
  destruct (code x <? code z) eqn:E5; destruct (code z <? code x) eqn:E6;
    zbool; try done; try lia. apply IH.
Qed.

Lemma bytes_less_total a b :
  bytes_less_b a b = false -> bytes_less_b b a = false -> a = b.
Proof.
  revert b. induction a as [|x a IH]; intros [|y b]; simpl; try done.
  destruct (code x <? code y) eqn:E1; [done|].
  destruct (code y <? code x) eqn:E2; [done|]. intros. zbool.
  f_equal; [apply code_inj; lia | by apply IH].
Qed.

#[export] Instance bytes_less : StdLess bytes :=
  {| less := bytes_less_b; less_irrefl := bytes_less_irrefl;
     less_trans := bytes_less_trans; less_total := bytes_less_total |}.

Section StdMap.
Context {K V : Type} `{StdLess K}.

Definition stdmap : Type := list (K * V).

(** [m.find(k)]: the mapped value, [None] for [m.end()]. *)
Fixpoint map_find (k : K) (m : list (K * V)) : option V :=
  match m with
  | [] => None
  | (k', v) :: m' =>
      if less k k' then None
      else if less k' k then map_find k m'
      else Some v
  end.

(** [m[k] = v]. *)
Fixpoint map_put (k : K) (v : V) (m : list (K * V)) : list (K * V) :=
  match m with
  | [] => [(k, v)]
  | (k', v') :: m' =>
      if less k k' then (k, v) :: m
      else if less k' k then (k', v') :: map_put k v m'
      else (k, v) :: m'
  end.

(** [m.insert({k, v})]: keeps an existing entry. *)
Definition map_insert (k : K) (v : V) (m : list (K * V)) : list (K * V) :=
  match map_find k m with Some _ => m | None => map_put k v m end.

(** [m.erase(k)]. *)
Fixpoint map_erase (k : K) (m : list (K * V)) : list (K * V) :=
  match m with
  | [] => []
  | (k', v') :: m' =>
      if less k k' then m
      else if less k' k then (k', v') :: map_erase k m'
      else m'
  end.

(** [m.insert({k, v})] of a [std::multimap]: after the entries with an
    equivalent key. *)
Fixpoint multi_insert (k : K) (v : V) (m : list (K * V)) : list (K * V) :=
  match m with
  | [] => [(k, v)]
  | (k', v') :: m' =>
      if less k k' then (k, v) :: m else (k', v') :: multi_insert k v m'
  end.

(** Every key of the list is above [k]. *)
Definition above (k : K) (m : list (K * V)) : Prop :=
  Forall (fun p => less k (fst p) = true) m.

Fixpoint map_sorted (m : list (K * V)) : Prop :=
  match m with
  | [] => True
  | (k, _) :: m' => above k m' /\ map_sorted m'
  end.

Lemma less_asym a b : less a b = true -> less b a = false.
Proof.
  intros H1. destruct (less b a) eqn:H2; [|done].
  pose proof (less_trans _ _ _ H1 H2) as H3. by rewrite less_irrefl in H3.
Qed.

Lemma above_trans a b m : less a b = true -> above b m -> above a m.
Proof. intros Hab Hm. eapply Forall_impl; [exact Hm|]. intros p. by apply less_trans. Qed.

Lemma above_find k m : above k m -> map_find k m = None.
Proof. intros Hm. destruct Hm as [|[k' v] m Hk Hm]; [done|]. simpl in *. by rewrite Hk. Qed.

Lemma above_put a k v m : less a k = true -> above a m -> above a (map_put k v m).
Proof.
  intros Hk Hm. induction Hm as [|[k' v'] m Hk' Hm IH]; simpl.
  - by repeat constructor.
  - repeat split_match; repeat constructor; auto.
Qed.

Lemma above_erase a k m : above a m -> above a (map_erase k m).
Proof.
  intros Hm. induction Hm as [|[k' v'] m Hk' Hm IH]; simpl; [constructor|].
  repeat split_match; repeat constructor; auto.
Qed.

Lemma map_put_sorted k v m : map_sorted m -> map_sorted (map_put k v m).
Proof.
  induction m as [|[k' v'] m IH]; simpl; [by repeat constructor|]. intros [Ha Hs].
  destruct (less k k') eqn:E1; [|destruct (less k' k) eqn:E2]; simpl.
  - split; [|done]. constructor; [done|]. by eapply above_trans.
  - split; [by apply above_put | by apply IH].
  - split; [|done]. by rewrite (less_total _ _ E1 E2).
Qed.

Lemma sorted_nodup m : map_sorted m -> NoDup m.*1.
Proof.
  induction m as [|[k v] m IH]; simpl; [intros _; apply NoDup_nil_2|]. intros [Ha Hs]. apply NoDup_cons. split; [|by apply IH].
  intros Hin. apply list_elem_of_fmap in Hin as ([k' v'] & Hk & Hin). simpl in Hk. unfold above in Ha. rewrite Forall_forall in Ha.
  specialize (Ha _ Hin). simpl in Ha. by rewrite Hk, less_irrefl in Ha.
Qed.

Lemma map_insert_sorted k v m : map_sorted m -> map_sorted (map_insert k v m).
Proof. unfold map_insert. intros Hm. split_match; [done|]. by apply map_put_sorted. Qed.

Lemma map_erase_sorted k m : map_sorted m -> map_sorted (map_erase k m).
Proof.
  induction m as [|[k' v'] m IH]; simpl; [done|]. intros [Ha Hs].
  repeat split_match; simpl; try done. split; [by apply above_erase | by apply IH].
Qed.

Lemma map_find_put_eq k v m : map_find k (map_put k v m) = Some v.
Proof.
  induction m as [|[k' v'] m IH]; simpl; [by rewrite !less_irrefl|].
  destruct (less k k') eqn:E1; [|destruct (less k' k) eqn:E2]; simpl;
    rewrite ?less_irrefl, ?E1, ?E2; done.
Qed.

Lemma map_find_put_ne k k' v m :
  k <> k' -> map_sorted m -> map_find k' (map_put k v m) = map_find k' m.
Proof.
  intros Hne. induction m as [|[k0 v0] m IH]; simpl.
  - intros _. destruct (less k' k) eqn:E1; [done|]. destruct (less k k') eqn:E2; [done|].
    by destruct (Hne (less_total _ _ E2 E1)).
  - intros [Ha Hs].
    destruct (less k k0) eqn:E1; [|destruct (less k0 k) eqn:E2]; simpl.
    + destruct (less k' k) eqn:E3.
      { by rewrite (less_trans _ _ _ E3 E1). }
      destruct (less k k') eqn:E4; [done|]. by destruct (Hne (less_total _ _ E4 E3)).
    + repeat split_match; auto.
    + assert (k = k0) as <- by by apply less_total.
      destruct (less k' k) eqn:E3; [done|]. destruct (less k k') eqn:E4; [done|].
      by destruct (Hne (less_total _ _ E4 E3)).
Qed.

Lemma map_find_erase_eq k m : map_sorted m -> map_find k (map_erase k m) = None.
Proof.
  induction m as [|[k0 v0] m IH]; simpl; [done|]. intros [Ha Hs].
  destruct (less k k0) eqn:E1; [|destruct (less k0 k) eqn:E2]; simpl.
  - by rewrite E1. - rewrite E1, E2. by apply IH.
  - rewrite (less_total _ _ E1 E2). by apply above_find.
Qed.

Lemma map_find_erase_ne k k' m :
  k <> k' -> map_sorted m -> map_find k' (map_erase k m) = map_find k' m.
Proof.
  intros Hne. induction m as [|[k0 v0] m IH]; simpl; [done|]. intros [Ha Hs].
  destruct (less k k0) eqn:E1; [done|]. destruct (less k0 k) eqn:E2; simpl.
  - repeat split_match; auto.
  - assert (k = k0) as <- by by apply less_total.
    destruct (less k' k) eqn:E3.
    { apply above_find. by eapply above_trans. }
    destruct (less k k') eqn:E4; [done|]. by destruct (Hne (less_total _ _ E4 E3)).
Qed.

(** Two sorted maps with the same lookups are the same list. *)
Lemma stdmap_ext m1 m2 :
  map_sorted m1 -> map_sorted m2 -> (forall k, map_find k m1 = map_find k m2) -> m1 = m2.
Proof.
  revert m2. induction m1 as [|[k1 v1] m1 IH]; intros [|[k2 v2] m2] H1 H2 Heq.
  - done.
  - specialize (Heq k2). simpl in Heq. by rewrite !less_irrefl in Heq.
  - specialize (Heq k1). simpl in Heq. by rewrite !less_irrefl in Heq.
  - destruct H1 as [Ha1 Hs1], H2 as [Ha2 Hs2].
    assert (k1 = k2 /\ v1 = v2) as [<- <-].
    { pose proof (Heq k1) as E1. pose proof (Heq k2) as E2. simpl in E1, E2.
      rewrite !less_irrefl in E1, E2.
      destruct (less k1 k2) eqn:L1; [done|]. destruct (less k2 k1) eqn:L2; [done|].
      split; [by apply less_total | by injection E1]. }
    f_equal. apply IH; [done..|]. intros k. specialize (Heq k). simpl in Heq.
    destruct (less k k1) eqn:L1.
    { rewrite !above_find; [done| |]; by eapply above_trans. }
    destruct (less k1 k) eqn:L2; [done|].
    assert (k = k1) as -> by by apply less_total. by rewrite !above_find.
Qed.

(** Membership after an update. *)
Lemma elem_of_map_put k v m k' v' : (k', v') ∈ map_put k v m -> (k' = k /\ v' = v) \/ (k', v') ∈ m.
Proof.
  induction m as [|[k0 v0] m IH]; cbn [map_put]; [set_solver|].
  destruct (less k k0); [set_solver|]. destruct (less k0 k); set_solver.
Qed.

Lemma elem_of_map_erase k m k' v' : (k', v') ∈ map_erase k m -> (k', v') ∈ m.
Proof.
  induction m as [|[k0 v0] m IH]; cbn [map_erase]; [done|].
  destruct (less k k0); [done|]. destruct (less k0 k); set_solver.
Qed.

Lemma map_put_key_of k v m k' : k' ∈ (map_put k v m).*1 <-> k' = k \/ k' ∈ m.*1.
Proof.
  induction m as [|[k0 v0] m IH]; cbn [map_put]; [set_solver|].
  destruct (less k k0) eqn:E1; [set_solver|]. destruct (less k0 k) eqn:E2; rewrite !fmap_cons; cbn [fst].
  - rewrite !elem_of_cons, IH. naive_solver.
  - rewrite !elem_of_cons. rewrite (less_total _ _ E1 E2). naive_solver.
Qed.

Lemma map_find_key k v m : map_find k m = Some v -> k ∈ m.*1.
Proof.
  induction m as [|[k0 v0] m IH]; cbn [map_find]; [done|]. rewrite fmap_cons, elem_of_cons. cbn [fst].
  destruct (less k k0) eqn:E1; [done|]. destruct (less k0 k) eqn:E2; [naive_solver|]. left. by apply less_total.
Qed.

Lemma map_insert_key k v m k' : k' ∈ (map_insert k v m).*1 <-> k' = k \/ k' ∈ m.*1.
Proof.
  unfold map_insert. destruct (map_find k m) eqn:E; [|apply map_put_key_of].
  apply map_find_key in E. naive_solver.
Qed.

(** Inserting in increasing key order appends. *)
Lemma map_put_last k v m :
  Forall (fun p => less (fst p) k = true) m -> map_put k v m = m ++ [(k, v)].
Proof.
  intros Hm. induction Hm as [|[k' v'] m Hk Hm IH]; simpl in *; [done|].
  by rewrite (less_asym _ _ Hk), Hk, IH.
Qed.

Lemma map_find_last k m :
  Forall (fun p => less (fst p) k = true) m -> map_find k m = None.
Proof.
  intros Hm. induction Hm as [|[k' v'] m Hk Hm IH]; simpl in *; [done|].
  by rewrite (less_asym _ _ Hk), Hk.
Qed.

Lemma map_find_elem k v m : map_find k m = Some v -> (k, v) ∈ m.
Proof.
  induction m as [|[k0 v0] m IH]; simpl; [done|].
  destruct (less k k0) eqn:E1; [done|]. destruct (less k0 k) eqn:E2.
  - intros. apply list_elem_of_further. by apply IH.
  - intros [= ->]. rewrite (less_total _ _ E1 E2). apply list_elem_of_here.
Qed.

Lemma above_lookup k m p : above k m -> p ∈ m -> less k (fst p) = true.
Proof. unfold above. rewrite Forall_forall. auto. Qed.

Lemma map_elem_find k v m : map_sorted m -> (k, v) ∈ m -> map_find k m = Some v.
Proof.
  induction m as [|[k0 v0] m IH]; simpl; [by intros _ ?%not_elem_of_nil|].
  intros [Ha Hs] [[= -> ->]|Hin]%elem_of_cons.
  - by rewrite less_irrefl.
  - pose proof (above_lookup _ _ _ Ha Hin) as Hl. simpl in Hl.
    rewrite (less_asym _ _ Hl), Hl. by apply IH.
Qed.

(** ** Multimaps *)

(** Keys in non-decreasing order. *)
Fixpoint multi_sorted (m : list (K * V)) : Prop :=
  match m with
  | [] => True
  | (k, _) :: m' => Forall (fun p => less (fst p) k = false) m' /\ multi_sorted m'
  end.

Lemma map_sorted_app_lt m k v m' :
  map_sorted (m ++ (k, v) :: m') -> Forall (fun p => less (fst p) k = true) m.
Proof.
  induction m as [|[k0 v0] m IH]; simpl; [constructor|]. intros [Ha Hs].
  constructor; [|by apply IH]. apply (above_lookup k0 _ (k, v)) in Ha; [done|].
  set_solver.
Qed.

Lemma map_put_put k v w m : map_put k w (map_put k v m) = map_put k w m.
Proof.
  induction m as [|[k' v'] m IH]; simpl; [by rewrite less_irrefl|].
  destruct (less k k') eqn:E1; simpl; [by rewrite less_irrefl|].
  destruct (less k' k) eqn:E2; simpl; [by rewrite E1, E2, IH|].
  by rewrite less_irrefl.
Qed.

Lemma map_put_perm k v m : map_find k m = None -> map_put k v m ≡ₚ (k, v) :: m.
Proof.
  induction m as [|[k' v'] m IH]; simpl; [done|].
  destruct (less k k'); [done|]. destruct (less k' k); [|done]. intros Hf.
  rewrite IH by done. by apply Permutation_swap.
Qed.

Lemma map_erase_perm k v m : map_find k m = Some v -> m ≡ₚ (k, v) :: map_erase k m.
Proof.
  induction m as [|[k' v'] m IH]; simpl; [done|].
  destruct (less k k') eqn:E1; [done|]. destruct (less k' k) eqn:E2.
  - intros Hf. etransitivity; [apply Permutation_skip, IH, Hf|]. apply Permutation_swap.
  - intros [= ->]. by rewrite (less_total k k').
Qed.

Lemma multi_insert_perm k v m : multi_insert k v m ≡ₚ (k, v) :: m.
Proof.
  induction m as [|[k' v'] m IH]; simpl; [done|]. split_match; [done|].
  rewrite IH. by apply Permutation_swap.
Qed.

Lemma multi_insert_sorted k v m : multi_sorted m -> multi_sorted (multi_insert k v m).
Proof.
  induction m as [|[k' v'] m IH]; simpl; [by repeat constructor|]. intros [Ha Hs].
  destruct (less k k') eqn:E; simpl.
  - split; [|done]. constructor; [by apply less_asym|].
    eapply Forall_impl; [exact Ha|]. intros [k0 v0] Hk. simpl in *.
    destruct (less k0 k) eqn:E2; [|done].
    by rewrite (less_trans _ _ _ E2 E) in Hk.
  - split; [|by apply IH]. rewrite multi_insert_perm. by constructor.
Qed.

End StdMap.
Arguments stdmap K V : clear implicits.

#[export] Hint Resolve map_put_sorted map_insert_sorted map_erase_sorted multi_insert_sorted : natsu.
