(* ===== verification/NatsuBase.v ===== *)
(** * Small parts: [natsu_string], [natsu_error], [natsu_config], [tribool]

    [tokenize] and [replace_all] (src/natsu/natsu_string.cpp) are loops over
    positions in a string; the theorems give them structural reference
    definitions.  [NatsuError] and [NatsuConfig] are records of state with
    their accessors. *)
From S2P Require Import Prelude StdString StdMap.

(** ** src/natsu/tribool.h *)

Inductive tribool : Type := success | failure | indeterminate.

#[export] Instance tribool_eq_dec : EqDecision tribool.
Proof. solve_decision. Defined.

(** ** src/natsu/natsu_error.cpp *)

Record NatsuError : Type := mkNatsuError { err_no_ : Z; err_str_ : bytes }.

Definition NatsuError_new : NatsuError := mkNatsuError 0 [].
Definition NatsuError_ok (e : NatsuError) : bool := err_no_ e =? 0.
Definition NatsuError_clear (e : NatsuError) : NatsuError := mkNatsuError 0 [].
(** Assignments through the references [code()] and [reason()] return. *)
Definition NatsuError_set_code (c : Z) (e : NatsuError) : NatsuError :=
  mkNatsuError c (err_str_ e).
Definition NatsuError_set_reason (r : bytes) (e : NatsuError) : NatsuError :=
  mkNatsuError (err_no_ e) r.

(** ** src/natsu/natsu_config.cpp: the global [kNatsuConfig] *)

Definition NatsuConfig : Type := stdmap bytes bytes.

Definition config_set (k v : bytes) (m : list (bytes * bytes)) : list (bytes * bytes) :=
  map_put k v m.
Definition config_get (k : bytes) (m : list (bytes * bytes)) : bytes :=
  match map_find k m with Some v => v | None => [] end.

(** ** src/natsu/natsu_string.cpp *)

(** [str.find_first_of(delimiters, p)] where [p] may itself be [npos]. *)
Definition next_of (cs s : bytes) (p : option nat) : option nat :=
  match p with Some k => find_first_of cs s k | None => None end.
Definition next_not_of (cs s : bytes) (p : option nat) : option nat :=
  match p with Some k => find_first_not_of cs s k | None => None end.

Fixpoint tokenize_loop (fuel : nat) (str delimiters : bytes) (lastpos pos : option nat)
    (tokens : list bytes) : outcome (list bytes) :=
  match fuel with
  | O => Fuel
  | S fuel' =>
      match pos, lastpos with
      | None, None => Ret tokens
      | _, _ =>
          t ← substr str (to_pos lastpos) (u64 (to_pos pos - to_pos lastpos));
          let lastpos' := next_not_of delimiters str pos in
          let pos' := next_of delimiters str lastpos' in
          tokenize_loop fuel' str delimiters lastpos' pos' (tokens ++ [t])
      end
  end.

Definition tokenize (str delimiters : bytes) : outcome (list bytes) :=
  let lastpos := find_first_not_of delimiters str 0 in
  let pos := next_of delimiters str lastpos in
  tokenize_loop (S (length str)) str delimiters lastpos pos [].

Fixpoint replace_loop (fuel : nat) (src org_str rep_str : bytes) (lastpos : nat)
    (result : bytes) : outcome bytes :=
  match fuel with
  | O => Fuel
  | S fuel' =>
      match find_first_of org_str src lastpos with
      | None =>
          t ← substr src (Z.of_nat lastpos) npos;
          Ret (result ++ t)
      | Some pos =>
          t ← substr src (Z.of_nat lastpos) (u64 (Z.of_nat pos - Z.of_nat lastpos));
          replace_loop fuel' src org_str rep_str (pos + 1) (result ++ t ++ rep_str)
      end
  end.

Definition replace_all (src org_str rep_str : bytes) : outcome bytes :=
  replace_loop (S (length src)) src org_str rep_str 0 [].

(** ** Reference definitions *)

(** The words of [s]: the maximal runs of characters outside [ds]. [cur] is
    the word being read. *)
Fixpoint words (ds cur s : bytes) : list bytes :=
  match s with
  | [] => match cur with [] => [] | _ => [cur] end
  | c :: s' =>
      if char_in c ds then (match cur with [] => [] | _ => [cur] end) ++ words ds [] s'
      else words ds (cur ++ [c]) s'
  end.

(** Replace each character of [cs] by [r]. *)
Definition subst_chars (cs r s : bytes) : bytes :=
  concat (map (fun c => if char_in c cs then r else [c]) s).

(** ** [tokenize] *)

Definition delim_free (ds s : bytes) : Prop := Forall (fun c => char_in c ds = false) s.
Definition all_delims (ds s : bytes) : Prop := Forall (fun c => char_in c ds = true) s.

Lemma words_delims ds s t : all_delims ds s -> words ds [] (s ++ t) = words ds [] t.
Proof. induction 1 as [|c s Hc Hs IH]; simpl; [done|]. by rewrite Hc. Qed.

Lemma words_word ds cur w t :
  delim_free ds w -> words ds cur (w ++ t) = words ds (cur ++ w) t.
Proof.
  intros Hw. revert cur. induction Hw as [|c w Hc Hw IH]; intros cur; simpl.
  - by rewrite app_nil_r.
  - rewrite Hc, IH. by rewrite <- app_assoc.
Qed.

Lemma words_flush ds cur :
  delim_free ds cur ->
  Forall (fun w => w <> [] /\ delim_free ds w) (match cur with [] => [] | _ => [cur] end).
Proof. intros Hc. destruct cur; [constructor|]. apply Forall_singleton. by split. Qed.

Lemma words_nonempty ds cur s :
  delim_free ds cur -> Forall (fun w => w <> [] /\ delim_free ds w) (words ds cur s).
Proof.
  revert cur. induction s as [|c s IH]; intros cur Hcur; simpl; [by apply words_flush|].
  destruct (char_in c ds) eqn:E.
  - apply Forall_app. split; [by apply words_flush|]. apply IH. constructor.
  - apply IH. apply Forall_app. split; [done|]. by apply Forall_singleton.
Qed.

(** How the text after position [p] splits: delimiters, a word, the rest. *)
Lemma next_word ds s p :
  (p <= length s)%nat ->
  match find_first_not_of ds s p with
  | None => words ds [] (drop p s) = []
  | Some a =>
      (p <= a < length s)%nat /\
      words ds [] (drop p s) = words ds [] (drop a s) /\
      match find_first_of ds s a with
      | None => words ds [] (drop a s) = [drop a s]
      | Some b => (a < b < length s)%nat /\
          words ds [] (drop a s) = take (b - a) (drop a s) :: words ds [] (drop b s)
      end
  end.
Proof.
  intros Hp. unfold find_first_not_of.
  destruct (first_index _ (drop p s)) as [k|] eqn:E; simpl.
  - pose proof (first_index_lt _ _ _ E) as Hk. rewrite length_drop in Hk.
    apply first_index_spec in E as (c & t & Heq & Hc & Hall).
    assert (drop (p + k) s = c :: t) as Hd.
    { rewrite <- drop_drop, Heq, drop_app_ge by (rewrite length_take, length_drop; lia).
      rewrite length_take, length_drop, Nat.min_l by lia. by rewrite Nat.sub_diag. }
    split; [lia|]. split.
    { rewrite Heq at 1. rewrite words_delims, <- Hd; [done|].
      eapply Forall_impl; [exact Hall|]. intros x. by rewrite negb_false_iff. }
    unfold find_first_of. rewrite Hd. apply negb_true_iff in Hc. simpl. rewrite Hc.
    destruct (first_index _ t) as [j|] eqn:Ej; simpl.
    + pose proof (first_index_lt _ _ _ Ej) as Hj.
      assert (length s = p + k + S (length t))%nat as Hlen.
      { apply (f_equal length) in Hd. rewrite length_drop in Hd. simpl in Hd. lia. }
      split; [lia|].
      apply first_index_spec in Ej as (d & u & Heq' & Hdc & Hall').
      replace (p + k + S j - (p + k))%nat with (S j) by lia. simpl.
      replace (drop (p + k + S j) s) with (drop j t).
      2:{ rewrite <- drop_drop, Hd. done. }
      rewrite Heq' at 1. rewrite words_word by done. simpl. rewrite Hdc. simpl.
      f_equal. rewrite Heq', drop_app_ge, length_take by (rewrite length_take; lia).
      rewrite Nat.min_l, Nat.sub_diag by lia. simpl. by rewrite Hdc.
    + apply first_index_none in Ej. rewrite <- (app_nil_r t) at 1.
      by rewrite (words_word ds [c] t []).
  - apply first_index_none in E.
    rewrite <- (app_nil_r (drop p s)). rewrite words_delims; [done|].
    eapply Forall_impl; [exact E|]. intros x. by rewrite negb_false_iff.
Qed.

Lemma tokenize_loop_correct fuel s ds p acc :
  sz s < npos -> (p <= length s)%nat -> (length s - p < fuel)%nat ->
  tokenize_loop fuel s ds (find_first_not_of ds s p)
    (next_of ds s (find_first_not_of ds s p)) acc = Ret (acc ++ words ds [] (drop p s)).
Proof.
  intros Hsz. revert p acc. induction fuel as [|fuel IH]; intros p acc Hp Hf; [lia|].
  pose proof (next_word ds s p Hp) as Hw.
  destruct (find_first_not_of ds s p) as [a|] eqn:Ea; simpl.
  - destruct Hw as (Ha & Hwa & Hw).
    destruct (find_first_of ds s a) as [b|] eqn:Eb; simpl.
    + destruct Hw as [Hb Hw].
      rewrite u64_small by (unfold npos in Hsz; lia).
      rewrite substr_total by lia. simpl.
      rewrite IH by lia. rewrite <- app_assoc, Hwa, Hw, Nat2Z.id. simpl. do 4 f_equal. lia.
    + rewrite substr_tail; [|lia|].
      2:{ unfold npos in *. rewrite u64_small; lia. }
      simpl. destruct fuel; [lia|]. simpl.
      rewrite Hwa, Hw, Nat2Z.id. done.
  - by rewrite Hw, app_nil_r.
Qed.

(** ** [replace_all] *)

Lemma subst_chars_app cs r s t : subst_chars cs r (s ++ t) = subst_chars cs r s ++ subst_chars cs r t.
Proof. unfold subst_chars. by rewrite map_app, concat_app. Qed.

Lemma subst_chars_free cs r s : delim_free cs s -> subst_chars cs r s = s.
Proof.
  unfold subst_chars. induction 1 as [|c s Hc Hs IH]; simpl; [done|]. by rewrite Hc, IH.
Qed.

Lemma replace_loop_correct fuel s cs r p acc :
  sz s < npos -> (p <= length s)%nat -> (length s - p < fuel)%nat ->
  replace_loop fuel s cs r p acc = Ret (acc ++ subst_chars cs r (drop p s)).
Proof.
  intros Hsz. revert p acc. induction fuel as [|fuel IH]; intros p acc Hp Hf; [lia|].
  simpl. unfold find_first_of.
  destruct (first_index _ (drop p s)) as [k|] eqn:E; simpl.
  - pose proof (first_index_lt _ _ _ E) as Hk. rewrite length_drop in Hk.
    rewrite u64_small by (unfold npos in Hsz; lia).
    rewrite substr_total by lia. simpl. rewrite IH by lia.
    apply first_index_spec in E as (c & t & Heq & Hc & Hall).
    assert (drop (p + k + 1) s = t) as ->.
    { replace (p + k + 1)%nat with (p + (k + 1))%nat by lia.
      rewrite <- drop_drop, Heq, drop_app_ge by (rewrite length_take, length_drop; lia).
      rewrite length_take, length_drop, Nat.min_l by lia.
      by replace (k + 1 - k)%nat with 1%nat by lia. }
    rewrite Nat2Z.id. rewrite Heq at 2. rewrite subst_chars_app, (subst_chars_free _ _ _ Hall).
    change (c :: t) with ([c] ++ t). rewrite subst_chars_app.
    unfold subst_chars at 2. simpl. rewrite Hc, app_nil_r.
    rewrite <- !app_assoc. do 4 f_equal. lia.
  - apply first_index_none in E. rewrite substr_tail by lia.
    rewrite Nat2Z.id. simpl. by rewrite (subst_chars_free _ _ _ E).
Qed.

(** Lemmas for the clients of these functions. *)

Lemma tokenize_words s ds : sz s < npos -> tokenize s ds = Ret (words ds [] s).
Proof. intros Hs. unfold tokenize. by rewrite tokenize_loop_correct by lia. Qed.

Lemma replace_all_subst s cs r : sz s < npos -> replace_all s cs r = Ret (subst_chars cs r s).
Proof. intros Hs. unfold replace_all. by rewrite replace_loop_correct by lia. Qed.

(** [tokenize] terminates without throwing on every string and delimiter
    set and returns exactly the maximal delimiter-free runs, in order. *)
Theorem tokenize_correct (s ds : bytes) :
  sz s < npos ->
  tokenize s ds = Ret (words ds [] s) /\
  Forall (fun w => w <> [] /\ delim_free ds w) (words ds [] s).
Proof.
  intros Hs. split; [by apply tokenize_words|]. apply words_nonempty. constructor.
Qed.

Lemma tokenize_correct_witness :
  tokenize (lit "a=1&&b=2") (lit "&") = Ret [lit "a=1"; lit "b=2"].
Proof. apply (tokenize_correct (lit "a=1&&b=2") (lit "&")). vm_compute. reflexivity. Defined.

(** [replace_all] terminates and replaces every character of [src] that
    occurs in [org_str] (it searches with [find_first_of], so [org_str] is a
    set of characters and not a substring). *)
Theorem replace_all_correct (src org_str rep_str : bytes) :
  sz src < npos ->
  replace_all src org_str rep_str = Ret (subst_chars org_str rep_str src).
Proof. apply replace_all_subst. Qed.

Lemma replace_all_correct_witness :
  replace_all (lit "/a*b*") (lit "*") (lit "\w*") = Ret (lit "/a\w*b\w*").
Proof. apply (replace_all_correct (lit "/a*b*") (lit "*") (lit "\w*")). vm_compute. reflexivity. Defined.
