(* ===== verification/HttpRequest.v ===== *)
(** * [HttpRequest]: src/inc/http_request.h and src/natsu/http_request.cpp

    The request line's path with its accessors ([document], [parameters],
    [query], [fragment]), the header map and the form lookup [data].  Position
    arithmetic is on [size_t] with its wrap-around, as in the source.
    [curl_unescape] is libcurl's and a parameter. *)
From S2P Require Import Prelude StdString StdMap NatsuBase.

Inductive Method : Type := PUT | GET | POST | DELETE.

#[export] Instance Method_eq_dec : EqDecision Method.
Proof. solve_decision. Defined.

(** [method_] is [None] while it is uninitialised: the constructor does not
    set it. *)
Record HttpRequest : Type := mkRequest {
  method_ : option Method;
  path_ : bytes;
  header_ : list (bytes * bytes);
  body_ : bytes
}.

Definition HttpRequest_new (doc : bytes) : HttpRequest := mkRequest None doc [] [].
Definition set_method (m : Method) (r : HttpRequest) : HttpRequest :=
  mkRequest (Some m) (path_ r) (header_ r) (body_ r).
Definition set_body (b : bytes) (r : HttpRequest) : HttpRequest :=
  mkRequest (method_ r) (path_ r) (header_ r) b.

Definition header (k : bytes) (r : HttpRequest) : bytes :=
  match map_find k (header_ r) with Some v => v | None => [] end.
Definition set_header (k v : bytes) (r : HttpRequest) : HttpRequest :=
  mkRequest (method_ r) (path_ r) (map_put k v (header_ r)) (body_ r).

(** ** The parts of the path *)

(** The common body of [query], [parameters] and [fragment]: the text after
    the mark at [pos_m], up to one of the other two marks. *)
Definition component (path : bytes) (pos_m pos_a pos_b : option nat) : outcome bytes :=
  match pos_m with
  | None => Ret []
  | Some _ =>
      let m := to_pos pos_m in
      let pos := Z.min (to_pos pos_a) (to_pos pos_b) in
      if pos =? npos then substr path (u64 (m + 1)) npos
      else if m <? pos then substr path (u64 (m + 1)) (u64 (pos - m - 1))
      else substr path (u64 (m + 1)) (u64 (Z.max (to_pos pos_a) (to_pos pos_b) - m - 1))
  end.

Definition query (r : HttpRequest) : outcome bytes :=
  let pos_p := find [";"%char] (path_ r) in
  let pos_f := find ["#"%char] (path_ r) in
  let pos_q := find ["?"%char] (path_ r) in
  component (path_ r) pos_q pos_f pos_p.

Definition parameters (r : HttpRequest) : outcome bytes :=
  let pos_p := find [";"%char] (path_ r) in
  let pos_f := find ["#"%char] (path_ r) in
  let pos_q := find ["?"%char] (path_ r) in
  component (path_ r) pos_p pos_f pos_q.

Definition fragment (r : HttpRequest) : outcome bytes :=
  let pos_p := find [";"%char] (path_ r) in
  let pos_f := find ["#"%char] (path_ r) in
  let pos_q := find ["?"%char] (path_ r) in
  component (path_ r) pos_f pos_p pos_q.

Definition document (r : HttpRequest) : outcome bytes :=
  let pos_p := find [";"%char] (path_ r) in
  let pos_f := find ["#"%char] (path_ r) in
  let pos_q := find ["?"%char] (path_ r) in
  match pos_p, pos_f, pos_q with
  | None, None, None => Ret (path_ r)
  | _, _, _ =>
      substr (path_ r) 0 (Z.min (to_pos pos_p) (Z.min (to_pos pos_f) (to_pos pos_q)))
  end.

(** ** Form data *)

Section Data.
(** libcurl's [curl_unescape(v.c_str(), v.size())]; [None] is the null
    pointer it returns when it fails. *)
Context (curl_unescape : bytes -> option bytes).

(** One turn of the loop over the tokens: the key and the value. *)
Definition split_token (t : bytes) : outcome (bytes * bytes) :=
  match find ["="%char] t with
  | Some pos =>
      k ← substr t 0 (Z.of_nat pos);
      v ← substr t (Z.of_nat pos + 1) npos;
      u ← deref (curl_unescape v);
      Ret (k, cstr u)
  | None =>
      k ← substr t 0 (u64 (npos - 1));
      Ret (k, [])
  end.

Fixpoint scan_tokens (q : bytes) (tokens : list bytes) : outcome bytes :=
  match tokens with
  | [] => Ret []
  | t :: rest =>
      kv ← split_token t;
      if bool_decide (fst kv = q) then Ret (snd kv) else scan_tokens q rest
  end.

Definition data (q : bytes) (r : HttpRequest) : outcome bytes :=
  m ← deref (method_ r);
  match m with
  | GET =>
      str ← query r;
      tokens ← tokenize str ["&"%char];
      scan_tokens q tokens
  | POST =>
      if bool_decide (header (lit "content-type") r = lit "application/x-www-from-urlencoded")
      then
        tokens ← tokenize (body_ r) ["&"%char];
        scan_tokens q tokens
      else Ret []
  | _ => Ret []
  end.
End Data.

(** ** The path accessors: correctness *)

Definition marks : bytes := [";"%char; "#"%char; "?"%char].
Definition mark_free (s : bytes) : Prop := Forall (fun c => char_in c marks = false) s.

Lemma mark_free_not_in s c : mark_free s -> char_in c marks = true -> c ∉ s.
Proof. intros Hs Hc. eapply Forall_not_in; [exact Hs|]. cbv beta. by rewrite Hc. Qed.

(** The text that begins at a mark: nothing, or a mark and what follows. *)
Definition starts_mark (s : bytes) : Prop :=
  match s with [] => True | c :: _ => char_in c marks = true end.

Lemma find_char_le c l m r k :
  c ∉ l -> c ∉ m -> find [c] (l ++ m ++ r) = Some k -> (length l + length m <= k)%nat.
Proof.
  intros Hl Hm Hf. destruct (decide (length l + length m <= k)%nat) as [|Hlt]; [done|].
  exfalso. pose proof (find_split _ _ _ Hf) as Hs. pose proof (find_lt _ _ _ Hf) as Hle.
  assert ((l ++ m ++ r) !! k = Some c) as Hk.
  { rewrite Hs, lookup_app_r by (rewrite length_take; lia).
    rewrite length_take, Nat.min_l by (simpl in Hle; lia). by rewrite Nat.sub_diag. }
  rewrite app_assoc, lookup_app_l in Hk by (rewrite length_app; lia).
  apply list_elem_of_lookup_2, elem_of_app in Hk. naive_solver.
Qed.

(** A search for a character that is not in the prefix [l ++ c :: m]: not
    found, or found after it. *)
Lemma find_after d l m r :
  d ∉ l -> d ∉ m ->
  find [d] (l ++ m ++ r) = None \/
  exists k, find [d] (l ++ m ++ r) = Some k /\ (length l + length m <= k)%nat.
Proof.
  intros Hl Hm. destruct (find [d] (l ++ m ++ r)) as [k|] eqn:E; [right|by left].
  exists k. split; [done|]. by eapply find_char_le.
Qed.

Lemma find_end d l m r :
  d ∉ l -> d ∉ m -> find [d] (l ++ m ++ d :: r) = Some (length l + length m)%nat.
Proof.
  intros Hl Hm. rewrite app_assoc, find_char_app, length_app; [done|].
  rewrite elem_of_app. naive_solver.
Qed.

Lemma component_end path l c m r pa pb :
  sz path < npos -> path = l ++ c :: m ++ r ->
  Z.min (to_pos pa) (to_pos pb) = Z.of_nat (length l + S (length m)) \/
  (r = [] /\ pa = None /\ pb = None) \/
  (Z.min (to_pos pa) (to_pos pb) <= Z.of_nat (length l) /\
   (Z.max (to_pos pa) (to_pos pb) = Z.of_nat (length l + S (length m)) \/
    (r = [] /\ (Z.max (to_pos pa) (to_pos pb) = npos \/
                0 <= Z.max (to_pos pa) (to_pos pb) <= Z.of_nat (length l))))) ->
  component path (Some (length l)) pa pb = Ret m.
Proof.
  intros Hsz -> Hcase.
  assert (drop (Z.to_nat (Z.of_nat (length l) + 1)) (l ++ c :: m ++ r) = m ++ r) as Hd.
  { rewrite drop_app_ge by lia. by replace (_ - _)%nat with 1%nat by lia. }
  assert (length (l ++ c :: m ++ r) = length l + S (length m + length r))%nat as Hlen
    by by rewrite length_app; simpl; rewrite length_app.
  rewrite Hlen in Hsz.
  assert (forall n, Z.of_nat (length m) <= n -> (r = [] \/ n = Z.of_nat (length m)) ->
    substr (l ++ c :: m ++ r) (u64 (Z.of_nat (length l) + 1)) n = Ret m) as Hsub.
  { intros n Hn Hr. unfold npos in *. rewrite u64_small by lia.
    rewrite substr_total by (rewrite Hlen; lia). rewrite Hd, Hlen. f_equal.
    destruct Hr as [->| ->].
    - rewrite app_nil_r. apply take_ge. simpl. lia.
    - rewrite Z.min_l by lia. by rewrite Nat2Z.id, take_app_length. }
  unfold component. change (to_pos (Some (length l))) with (Z.of_nat (length l)).
  assert (forall x, 0 <= to_pos x) as Hp by (intros [k|]; simpl; unfold npos; lia).
  pose proof (Hp pa). pose proof (Hp pb).
  assert (u64 (npos - Z.of_nat (length l) - 1) = npos - Z.of_nat (length l) - 1) as Hu
    by (apply u64_small; unfold npos in *; lia).
  destruct Hcase as [Hmin|[(-> & -> & ->)|[Hmin Hmax]]].
  - rewrite Hmin, (proj2 (Z.eqb_neq _ _)) by (unfold npos in *; lia).
    rewrite (proj2 (Z.ltb_lt _ _)) by lia.
    apply Hsub; unfold npos in *; rewrite u64_small; lia.
  - simpl. apply Hsub; [unfold npos in *; lia | by left].
  - rewrite (proj2 (Z.eqb_neq _ _)) by (unfold npos in *; lia).
    rewrite (proj2 (Z.ltb_ge _ _)) by lia.
    destruct Hmax as [Hmax|[-> [Hmax|Hmax]]].
    + rewrite Hmax. apply Hsub; unfold npos in *; rewrite u64_small; lia.
    + rewrite Hmax. apply Hsub; [rewrite Hu; unfold npos in *; simpl in *; lia | by left].
    + apply Hsub; [|by left]. unfold u64, npos in *.
      rewrite <- (Z.mod_add _ 1) by lia. rewrite Z.mod_small; simpl in *; lia.
Qed.

(** How an accessor sees a path: the mark's first occurrence is [length l],
    the part [m] after it is free of marks, and what follows starts with a
    mark that does not occur earlier. *)
Lemma component_spec path l c m r a b :
  sz path < npos -> path = l ++ c :: m ++ r ->
  c ∉ l -> mark_free m ->
  (c = a -> False) -> (c = b -> False) ->
  char_in a marks = true -> char_in b marks = true ->
  match r with
  | [] => True
  | d :: _ => (d = a \/ d = b) /\ d ∉ l
  end ->
  component path (find [c] path) (find [a] path) (find [b] path) = Ret m.
Proof.
  intros Hsz Hpath Hcl Hm Hca Hcb Ha Hb Hr.
  assert (find [c] path = Some (length l)) as -> by (subst; by apply find_char_app).
  eapply component_end; [done..|].
  assert (forall x, char_in x marks = true -> (c = x -> False) ->
    (exists k, find [x] path = Some k /\ (k < length l)%nat) \/
    (x ∉ l /\ (find [x] path = None \/
      exists k, find [x] path = Some k /\ (length l + S (length m) <= k)%nat))) as Hx.
  { intros x Hxm Hcx. destruct (decide (x ∈ l)) as [Hin|Hnin]; [left|right].
    - destruct (find [x] l) as [k|] eqn:E.
      + exists k. split; [subst; by apply find_app|]. apply find_lt in E. simpl in E. lia.
      + by apply find_char_none in E.
    - split; [done|]. subst path.
      replace (l ++ c :: m ++ r) with (l ++ (c :: m) ++ r) by done.
      destruct (find_after x l (c :: m) r Hnin) as [|(k & -> & Hk)]; [|by left|right; eauto].
      rewrite not_elem_of_cons. split; [congruence|]. by eapply mark_free_not_in. }
  destruct r as [|d r].
  - assert (forall x k, find [x] path = Some k -> (k < length l + S (length m))%nat) as Hlt.
    { intros x k Hk. apply find_lt in Hk. subst path.
      rewrite length_app in Hk. simpl in Hk. rewrite app_nil_r in Hk. lia. }
    destruct (Hx a Ha Hca) as [(ka & -> & Hka)|[Hna [->|(ka & Eka & Hka)]]];
    destruct (Hx b Hb Hcb) as [(kb & -> & Hkb)|[Hnb [->|(kb & Ekb & Hkb)]]];
      try (apply Hlt in Eka; lia); try (apply Hlt in Ekb; lia); simpl; unfold npos in *;
      [right; right|right; right|right; right|right; left; done];
      (split; [lia|]); right; (split; [done|]); lia.
  - destruct Hr as [Hd Hdl].
    assert (char_in d marks = true /\ (c = d -> False)) as [Hdm Hcd] by naive_solver.
    assert (find [d] path = Some (length l + S (length m))%nat) as Hfd.
    { subst path. replace (l ++ c :: m ++ d :: r) with (l ++ (c :: m) ++ d :: r) by done.
      apply find_end; [done|]. rewrite not_elem_of_cons.
      split; [congruence|]. by eapply mark_free_not_in. }
    assert (Z.of_nat (length l + S (length m)) < npos) as Hn.
    { subst path. rewrite length_app in Hsz. simpl in Hsz. rewrite length_app in Hsz. simpl in Hsz. lia. }
    destruct Hd as [-> | ->]; rewrite Hfd.
    + destruct (Hx b Hb Hcb) as [(kb & -> & Hkb)|[Hnb [->|(kb & -> & Hkb)]]]; simpl in *; lia.
    + destruct (Hx a Ha Hca) as [(ka & -> & Hka)|[Hna [->|(ka & -> & Hka)]]]; simpl in *; lia.
Qed.

Lemma document_spec r d rest :
  sz (path_ r) < npos -> path_ r = d ++ rest -> mark_free d -> starts_mark rest ->
  document r = Ret d.
Proof.
  intros Hsz Hpath Hd Hr. unfold document. rewrite Hpath in *.
  assert (forall x, char_in x marks = true ->
     find [x] (d ++ rest) = None \/
     exists k, find [x] (d ++ rest) = Some k /\ (length d <= k)%nat) as Hx.
  { intros x Hx. destruct (find_after x d [] rest) as [E|(k & E & Hk)].
    - by eapply mark_free_not_in. - apply not_elem_of_nil.
    - left. done. - right. exists k. split; [done|]. simpl in Hk. lia. }
  destruct rest as [|c rest]; cbn [starts_mark] in Hr.
  - rewrite app_nil_r in *.
    rewrite !(proj2 (find_char_none _ d)) by by eapply mark_free_not_in. done.
  - assert (find [c] (d ++ c :: rest) = Some (length d)) as Hc.
    { apply find_char_app. by eapply mark_free_not_in. }
    assert (c = ";"%char \/ c = "#"%char \/ c = "?"%char) as Hcase.
    { apply char_in_spec in Hr. unfold marks in Hr. set_solver. }
    assert (forall n, Z.of_nat (length d) = n -> substr (d ++ c :: rest) 0 n = Ret d) as Hsub.
    { intros n <-. rewrite substr_total by lia. f_equal. change (Z.to_nat 0) with 0%nat.
      rewrite drop_0, Z.min_l, Nat2Z.id by (rewrite length_app; lia). apply take_app_length. }
    rewrite length_app in Hsz. simpl in Hsz.
    destruct (Hx ";"%char eq_refl) as [E1|(k1 & E1 & H1)];
    destruct (Hx "#"%char eq_refl) as [E2|(k2 & E2 & H2)];
    destruct (Hx "?"%char eq_refl) as [E3|(k3 & E3 & H3)];
      destruct Hcase as [-> |[-> | ->]]; rewrite ?E1, ?E2, ?E3 in *; try discriminate;
      apply Hsub; simplify_eq; simpl; unfold npos in *; lia.
Qed.

(** ** Printing a path *)

Definition opt_part (c : ascii) (p : option bytes) : bytes :=
  match p with Some s => c :: s | None => [] end.
Definition part_text (p : option bytes) : bytes := default [] p.

(** A path with optional parameters, query and fragment, in the order of
    RFC 2396. *)
Definition make_path (doc : bytes) (params quer frag : option bytes) : bytes :=
  doc ++ opt_part ";" params ++ opt_part "?" quer ++ opt_part "#" frag.

Definition part_free (p : option bytes) : Prop := from_option mark_free True p.

Lemma opt_part_free p c d :
  part_free p -> char_in d marks = true -> c <> d -> d ∉ opt_part c p.
Proof.
  intros Hp Hd Hne. destruct p; simpl; [|apply not_elem_of_nil].
  apply not_elem_of_cons. split; [done|]. by eapply mark_free_not_in.
Qed.

Lemma not_in_app (d : ascii) l k : d ∉ l -> d ∉ k -> d ∉ l ++ k.
Proof. rewrite elem_of_app. naive_solver. Qed.

#[export] Hint Resolve opt_part_free not_in_app mark_free_not_in : natsu.

(** The four accessors take a path built from a document and optional
    parameters, query and fragment apart again; an absent part reads as the
    empty string. *)
Theorem uri_parts_roundtrip r doc params quer frag :
  path_ r = make_path doc params quer frag -> sz (path_ r) < npos ->
  mark_free doc -> part_free params -> part_free quer -> part_free frag ->
  document r = Ret doc /\ parameters r = Ret (part_text params) /\
  query r = Ret (part_text quer) /\ fragment r = Ret (part_text frag).
Proof.
  intros Hpath Hsz Hd Hp Hq Hf. unfold make_path in Hpath.
  assert (forall c s, char_in c marks = true -> mark_free s -> c ∉ s) as Hni by eauto with natsu.
  assert (forall c : ascii, c ∉ (@nil ascii)) by (intros; apply not_elem_of_nil).
  repeat split.
  - eapply document_spec; [done|done|done|].
    destruct params, quer, frag; done.
  - unfold parameters. destruct params as [p|].
    + apply (component_spec _ doc ";"%char p (opt_part "?" quer ++ opt_part "#" frag)); auto;
        try discriminate. destruct quer, frag; simpl; auto 10.
    + unfold component. rewrite (proj2 (find_char_none ";"%char (path_ r))); [done|].
      rewrite Hpath. simpl. auto 10 with natsu.
  - unfold query. destruct quer as [q|].
    + apply (component_spec _ (doc ++ opt_part ";" params) "?"%char q (opt_part "#" frag));
        auto 10 with natsu; try discriminate.
      * by rewrite Hpath, <- app_assoc.
      * destruct frag; simpl; auto 10 with natsu.
    + unfold component. rewrite (proj2 (find_char_none "?"%char (path_ r))); [done|].
      rewrite Hpath. simpl. auto 10 with natsu.
  - unfold fragment. destruct frag as [f|].
    + apply (component_spec _ (doc ++ opt_part ";" params ++ opt_part "?" quer) "#"%char f []);
        auto 10 with natsu; try discriminate.
      by rewrite Hpath, <- !app_assoc, app_nil_r.
    + unfold component. rewrite (proj2 (find_char_none "#"%char (path_ r))); [done|].
      rewrite Hpath. simpl. rewrite ?app_nil_r. auto 10 with natsu.
Qed.

Lemma uri_parts_roundtrip_witness :
  query (mkRequest (Some GET) (lit "/find;v=2?name=ann&x=1#top") [] []) = Ret (lit "name=ann&x=1").
Proof.
  apply (uri_parts_roundtrip (mkRequest (Some GET) (lit "/find;v=2?name=ann&x=1#top") [] [])
    (lit "/find") (Some (lit "v=2")) (Some (lit "name=ann&x=1")) (Some (lit "top")));
    try reflexivity; simpl; unfold mark_free; repeat constructor.
Defined.

(** ** Form data: correctness *)

(** A form body: the pairs [k=v] joined by [&]. *)
Definition pair_text (kv : bytes * bytes) : bytes := fst kv ++ "="%char :: snd kv.
Fixpoint join (ts : list bytes) : bytes :=
  match ts with
  | [] => []
  | [t] => t
  | t :: ts' => t ++ "&"%char :: join ts'
  end.
Definition form_text (kvs : list (bytes * bytes)) : bytes := join (map pair_text kvs).

Definition pair_ok (kv : bytes * bytes) : Prop :=
  "="%char ∉ fst kv /\ "&"%char ∉ fst kv /\ "&"%char ∉ snd kv.

Fixpoint first_value (q : bytes) (kvs : list (bytes * bytes)) : option bytes :=
  match kvs with
  | [] => None
  | (k, v) :: kvs' => if bool_decide (k = q) then Some v else first_value q kvs'
  end.

Lemma amp_free s : "&"%char ∉ s -> delim_free ["&"%char] s.
Proof.
  intros Hs. apply Forall_forall. intros c Hc. unfold char_in. simpl.
  destruct (Ascii.eqb_spec c "&"%char) as [->|]; done.
Qed.

Lemma join_cons t t' ts : join (t :: t' :: ts) = t ++ "&"%char :: join (t' :: ts).
Proof. done. Qed.

Lemma words_join ts :
  Forall (fun t => t <> [] /\ "&"%char ∉ t) ts -> words ["&"%char] [] (join ts) = ts.
Proof.
  induction 1 as [|t ts [Hne Ht] Hts IH]; [done|].
  destruct ts as [|t' ts].
  - simpl. rewrite <- (app_nil_r t) at 1. rewrite words_word by by apply amp_free. by destruct t.
  - rewrite join_cons, words_word by by apply amp_free. cbn [words app char_in existsb].
    simpl orb. cbv iota. rewrite IH. by destruct t.
Qed.

Lemma pair_text_ok kv : pair_ok kv -> pair_text kv <> [] /\ "&"%char ∉ pair_text kv.
Proof.
  intros (H1 & H2 & H3). unfold pair_text. split; [by destruct (fst kv)|].
  rewrite elem_of_app, elem_of_cons. naive_solver.
Qed.

Section DataFacts.
Context (curl_unescape : bytes -> option bytes) (unescape : bytes -> bytes).
(** libcurl decodes (it does not run out of memory). *)
Hypothesis unescape_ok : forall v, curl_unescape v = Some (unescape v).

Lemma split_token_pair kv :
  pair_ok kv -> sz (pair_text kv) < npos ->
  split_token curl_unescape (pair_text kv) = Ret (fst kv, cstr (unescape (snd kv))).
Proof.
  destruct kv as [k v]. intros (Hk & _ & _) Hsz. simpl in *. unfold split_token, pair_text in *.
  simpl in *. rewrite find_char_app by done.
  rewrite length_app in Hsz. simpl in Hsz.
  rewrite (substr_total _ 0) by (rewrite length_app; lia).
  rewrite (substr_tail _ (_ + 1)) by (rewrite length_app; simpl; lia).
  rewrite Z.min_l, Nat2Z.id by (rewrite length_app; lia).
  change (Z.to_nat 0) with 0%nat. rewrite drop_0, take_app_length. simpl.
  rewrite drop_app_ge by lia. replace (_ - _)%nat with 1%nat by lia. simpl.
  by rewrite unescape_ok.
Qed.

Lemma scan_tokens_pairs q kvs :
  Forall pair_ok kvs -> Forall (fun kv => sz (pair_text kv) < npos) kvs ->
  scan_tokens curl_unescape q (map pair_text kvs) =
    Ret (from_option (fun v => cstr (unescape v)) [] (first_value q kvs)).
Proof.
  intros Hok Hsz. induction kvs as [|kv kvs IH]; [done|].
  apply Forall_cons in Hok as [Hok1 Hok]. apply Forall_cons in Hsz as [Hsz1 Hsz].
  cbn [map scan_tokens]. rewrite split_token_pair by done. destruct kv as [k v].
  rewrite outcome_bind_ret. cbn [fst snd first_value].
  case_bool_decide; [done|]. by apply IH.
Qed.

Lemma join_length_le ts t : t ∈ ts -> (length t <= length (join ts))%nat.
Proof.
  induction ts as [|t' ts IH]; [by intros ?%not_elem_of_nil|].
  destruct ts as [|t2 ts].
  - intros ->%list_elem_of_singleton. done.
  - rewrite join_cons, length_app. cbn [length].
    intros [-> |Hin]%elem_of_cons; [lia|]. specialize (IH Hin). lia.
Qed.

Lemma scan_form q kvs :
  Forall pair_ok kvs -> sz (form_text kvs) < npos ->
  (tokens ← tokenize (form_text kvs) ["&"%char]; scan_tokens curl_unescape q tokens) =
    Ret (from_option (fun v => cstr (unescape v)) [] (first_value q kvs)).
Proof.
  intros Hok Hsz. rewrite tokenize_words by done. rewrite outcome_bind_ret.
  unfold form_text in *. rewrite words_join.
  - apply scan_tokens_pairs; [done|]. apply Forall_forall. intros kv Hin.
    assert (length (pair_text kv) <= length (join (map pair_text kvs)))%nat; [|lia].
    apply join_length_le, list_elem_of_fmap. eauto.
  - apply Forall_fmap. eapply Forall_impl; [exact Hok|]. apply pair_text_ok.
Qed.

(** For a GET request whose query string is a list of [k=v] pairs, and
    for a POST body under the content type the code compares with, [data]
    returns the decoded value of the first pair with the key, and the empty
    string when there is none; it never throws. *)
Theorem data_first_value r q kvs :
  Forall pair_ok kvs -> sz (form_text kvs) < npos ->
  (method_ r = Some GET /\ query r = Ret (form_text kvs) \/
   method_ r = Some POST /\ body_ r = form_text kvs /\
     header (lit "content-type") r = lit "application/x-www-from-urlencoded") ->
  data curl_unescape q r =
    Ret (from_option (fun v => cstr (unescape v)) [] (first_value q kvs)).
Proof.
  intros Hok Hsz [[Hm Hq]|(Hm & Hb & Hh)]; unfold data; rewrite Hm; cbn [deref];
    rewrite outcome_bind_ret.
  - rewrite Hq. by apply scan_form.
  - rewrite Hh, bool_decide_eq_true_2 by done. rewrite Hb. by apply scan_form.
Qed.
End DataFacts.

(** A decoder for the witnesses: [+] is a space. *)
Definition plus_decode (s : bytes) : bytes :=
  map (fun c => if Ascii.eqb c "+" then " "%char else c) s.

Lemma data_first_value_witness :
  data (fun v => Some (plus_decode v)) (lit "name")
    (mkRequest (Some GET) (lit "/find?x=1&name=ann+lee&name=bob") [] []) = Ret (lit "ann lee").
Proof.
  apply (data_first_value (fun v => Some (plus_decode v)) plus_decode (fun v => eq_refl)
    (mkRequest (Some GET) (lit "/find?x=1&name=ann+lee&name=bob") [] []) (lit "name")
    [(lit "x", lit "1"); (lit "name", lit "ann+lee"); (lit "name", lit "bob")]).
  - unfold pair_ok. repeat constructor; cbn; set_solver.
  - vm_compute. reflexivity.
  - left. split; vm_compute; reflexivity.
Defined.

(** A POST with the registered form content type
    [application/x-www-form-urlencoded] has no form data at all: the code
    compares with a misspelt type ([from]), so every lookup is empty. *)
Theorem data_form_post_empty curl_unescape q r :
  method_ r = Some POST ->
  header (lit "content-type") r = lit "application/x-www-form-urlencoded" ->
  data curl_unescape q r = Ret [].
Proof.
  intros Hm Hh. unfold data. rewrite Hm. cbn [deref]. rewrite outcome_bind_ret, Hh.
  by rewrite bool_decide_eq_false_2 by (vm_compute; discriminate).
Qed.

Lemma data_form_post_empty_witness :
  data (fun v => Some v) (lit "a")
    (mkRequest (Some POST) (lit "/f")
      [(lit "content-type", lit "application/x-www-form-urlencoded")] (lit "a=1")) = Ret [].
Proof. apply data_form_post_empty; reflexivity. Defined.
