(* ===== verification/HttpParser.v ===== *)
(** * [HttpParser]: src/natsu/http_parser.h

    An incremental request parser: bytes are appended to [cache_] and the
    current state's function, the member pointer [parse_func_], consumes as
    much as it can.  [indeterminate] asks for more bytes.  Each state function
    is a definition on the parser's record; the two loops take fuel, one more
    than the bytes cached, and every turn consumes at least two bytes. *)
From S2P Require Import Prelude StdString StdMap NatsuBase HttpRequest.

Inductive ParseFunction : Type :=
| fn_first_line | fn_headers | fn_body_with_length | fn_body_with_chunk.

Record HttpParser : Type := mkParser {
  parse_func_ : ParseFunction;
  content_length_ : Z;
  req_ : option HttpRequest;
  cache_ : bytes
}.

Definition set_func (f : ParseFunction) (p : HttpParser) : HttpParser :=
  mkParser f (content_length_ p) (req_ p) (cache_ p).
Definition set_length (n : Z) (p : HttpParser) : HttpParser :=
  mkParser (parse_func_ p) n (req_ p) (cache_ p).
Definition set_req (r : option HttpRequest) (p : HttpParser) : HttpParser :=
  mkParser (parse_func_ p) (content_length_ p) r (cache_ p).
Definition set_cache (c : bytes) (p : HttpParser) : HttpParser :=
  mkParser (parse_func_ p) (content_length_ p) (req_ p) c.

Definition reset : HttpParser := mkParser fn_first_line 0 None [].

(** ** Helpers *)

Fixpoint trimleft (s : bytes) : nat :=
  match s with
  | c :: s' => if Ascii.eqb c " " then S (trimleft s') else 0%nat
  | [] => 0%nat
  end.

(** The loop [while(--i)] from [i = S n]: [i] takes the values [n], [n-1], ... *)
Fixpoint trimright_from (s : bytes) (n : nat) : nat :=
  match n with
  | O => 0%nat
  | S m => match s !! n with
           | Some c => if Ascii.eqb c " " then trimright_from s m else n
           | None => n
           end
  end.
(** On the empty string [--i] wraps around and [s.at(i)] throws. *)
Definition trimright (s : bytes) : outcome nat :=
  match length s with
  | O => Throw ExnOutOfRange
  | S n => Ret (trimright_from s n)
  end.

Definition stringtoint (s : bytes) : Z := i32 (strtol 16 s).

(** [std::string::max_size()] of libstdc++ on a 64-bit machine. *)
Definition string_max_size : Z := 2 ^ 62 - 1.

(** [dst.append(src.c_str(), n)]. *)
Definition append_n (dst src : bytes) (n : Z) : outcome bytes :=
  if string_max_size - sz dst <? n then Throw ExnLengthError
  else if sz src <? n then Undef
  else Ret (dst ++ take (Z.to_nat n) src).

(** ** The body *)

Definition parse_body_with_length (p : HttpParser) : outcome (tribool * HttpParser) :=
  if content_length_ p <=? sz (cache_ p) then
    r ← deref (req_ p);
    let n := Z.to_nat (content_length_ p) in
    Ret (success, set_cache (drop n (cache_ p))
                    (set_req (Some (set_body (take n (cache_ p)) r)) p))
  else Ret (indeterminate, p).

Definition MaxChunkNum : Z := 10.

Fixpoint chunk_loop (fuel : nat) (p : HttpParser) : outcome (tribool * HttpParser) :=
  match fuel with
  | O => Fuel
  | S fuel' =>
      match find CRLF (cache_ p) with
      | None =>
          if MaxChunkNum <? sz (cache_ p) then Ret (failure, p) else Ret (indeterminate, p)
      | Some pos =>
          let line := take pos (cache_ p) in
          let len := u64 (stringtoint line) in
          if len =? 0 then Ret (success, p)
          else if u64 (sz (cache_ p) - Z.of_nat pos) <? u64 (len + 4) then
            Ret (indeterminate, p)
          else
            let cache1 := drop (pos + 2) (cache_ p) in
            r ← deref (req_ p);
            b ← append_n (body_ r) cache1 len;
            let cache2 := drop (Z.to_nat (u64 (len + 2))) cache1 in
            chunk_loop fuel' (set_cache cache2 (set_req (Some (set_body b r)) p))
      end
  end.

Definition parse_body_with_chunk (p : HttpParser) : outcome (tribool * HttpParser) :=
  chunk_loop (S (length (cache_ p))) p.

(** ** The headers *)

Definition MaxHeader : Z := 1024.

(** The empty line: choose how to read the body and start reading it. *)
Definition headers_end (p : HttpParser) : outcome (tribool * HttpParser) :=
  r ← deref (req_ p);
  let p := set_func fn_body_with_length p in
  let encode := header (lit "transfer-encoding") r in
  match encode with
  | _ :: _ =>
      if strcaseeq (lit "CHUNKED") encode
      then parse_body_with_chunk (set_func fn_body_with_chunk p)
      else parse_body_with_length p
  | [] =>
      let len := header (lit "content-length") r in
      let n := match len with _ :: _ => u64 (atoi len) | [] => 0 end in
      let p := set_length n p in
      if n =? 0 then Ret (success, p) else parse_body_with_length p
  end.

(** One header line, after the split at the colon. *)
Definition add_header (key value : bytes) (r : HttpRequest) : outcome HttpRequest :=
  i ← trimright key;
  let key := take (i + 1) key in
  let value := drop (trimleft value) value in
  Ret (set_header (map tolower key) value r).

Fixpoint parse_headers (fuel : nat) (p : HttpParser) : outcome (tribool * HttpParser) :=
  match fuel with
  | O => Fuel
  | S fuel' =>
      match find CRLF (cache_ p) with
      | None => if MaxHeader <? sz (cache_ p) then Ret (failure, p) else Ret (indeterminate, p)
      | Some pos =>
          let line := take pos (cache_ p) in
          let p := set_cache (drop (pos + 2) (cache_ p)) p in
          match line with
          | [] => headers_end p
          | _ :: _ =>
              match find [":"%char] line with
              | None => Ret (failure, p)
              | Some mid =>
                  let key := take mid line in
                  let value := drop (mid + 1) line in
                  match key with
                  | [] => Ret (failure, p)
                  | _ :: _ =>
                      r ← deref (req_ p);
                      r' ← add_header key value r;
                      parse_headers fuel' (set_req (Some r') p)
                  end
              end
          end
      end
  end.

Definition run_headers (p : HttpParser) : outcome (tribool * HttpParser) :=
  parse_headers (S (length (cache_ p))) p.

(** ** The request line *)

Definition MaxUrl : Z := 1024.
Definition MinLine : nat := 14.

Definition method_of (s : bytes) : option Method :=
  if strcaseeq (lit "GET") s then Some GET
  else if strcaseeq (lit "POST") s then Some POST
  else if strcaseeq (lit "PUT") s then Some PUT
  else if strcaseeq (lit "DELETE") s then Some DELETE
  else None.

Definition parse_first_line (p : HttpParser) : outcome (tribool * HttpParser) :=
  match find CRLF (cache_ p) with
  | None => if MaxUrl <? sz (cache_ p) then Ret (failure, p) else Ret (indeterminate, p)
  | Some pos =>
      let sLine := take pos (cache_ p) in
      let p := set_cache (drop (pos + 2) (cache_ p)) p in
      if (pos <? MinLine)%nat then Ret (failure, p)
      else if strcaseeq (lit "HTTP/1.") (take 7 sLine) then Ret (failure, p)
      else
        match find [" "%char] sLine with
        | None => Ret (failure, p)
        | Some first =>
            let sMethod := take first sLine in
            match find_at [" "%char] sLine (first + 1) with
            | None => Ret (failure, p)
            | Some second =>
                let path := take (second - first - 1) (drop (first + 1) sLine) in
                let r := HttpRequest_new path in
                match method_of sMethod with
                | None => Ret (failure, set_req (Some r) p)
                | Some m =>
                    run_headers (set_func fn_headers (set_req (Some (set_method m r)) p))
                end
            end
        end
  end.

(** ** Entry points *)

(** [(this->*parse_func_)()]. *)
Definition call_parse_func (p : HttpParser) : outcome (tribool * HttpParser) :=
  match parse_func_ p with
  | fn_first_line => parse_first_line p
  | fn_headers => run_headers p
  | fn_body_with_length => parse_body_with_length p
  | fn_body_with_chunk => parse_body_with_chunk p
  end.

(** [parse(pData, len)]. *)
Definition parse (data : bytes) (p : HttpParser) : outcome (tribool * HttpParser) :=
  call_parse_func (set_cache (cache_ p ++ data) p).

(** [parse()]: restart on the bytes left in the cache. *)
Definition parse_again (p : HttpParser) : outcome (tribool * HttpParser) :=
  call_parse_func (set_cache (cache_ p) reset).

(** ** Fuel *)

Lemma chunk_step_shrinks pos len c :
  find CRLF c = Some pos -> (length (drop (Z.to_nat (u64 (len + 2))) (drop (pos + 2) c)) < length c)%nat.
Proof. intros H%find_lt. simpl in H. rewrite !length_drop. lia. Qed.

Lemma chunk_loop_fuel f1 f2 p :
  (length (cache_ p) < f1)%nat -> (length (cache_ p) < f2)%nat ->
  chunk_loop f1 p = chunk_loop f2 p.
Proof.
  revert f2 p. induction f1 as [|f1 IH]; intros [|f2] p H1 H2; try lia. cbn [chunk_loop].
  destruct (find CRLF (cache_ p)) as [pos|] eqn:E; [|done].
  destruct (_ =? 0); [done|]. destruct (_ <? _); [done|].
  destruct (deref _) as [r| | |]; simpl; try done.
  destruct (append_n _ _ _) as [b| | |]; simpl; try done.
  apply IH; simpl; eapply chunk_step_shrinks in E;
    (eapply Nat.lt_le_trans; [exact E|]); lia.
Qed.

Lemma parse_headers_fuel f1 f2 p :
  (length (cache_ p) < f1)%nat -> (length (cache_ p) < f2)%nat ->
  parse_headers f1 p = parse_headers f2 p.
Proof.
  revert f2 p. induction f1 as [|f1 IH]; intros [|f2] p H1 H2; try lia. cbn [parse_headers].
  destruct (find CRLF (cache_ p)) as [pos|] eqn:E; [|done].
  destruct (take pos (cache_ p)) as [|c l]; [done|].
  destruct (find _ (c :: l)) as [mid|]; [|done].
  destruct (take mid (c :: l)) as [|k key]; [done|].
  destruct (deref _) as [r| | |]; [|done..]. rewrite !outcome_bind_ret.
  destruct (add_header _ _ _) as [r'| | |]; [|done..]. rewrite !outcome_bind_ret.
  apply find_lt in E. simpl in E.
  apply IH; simpl; rewrite length_drop; lia.
Qed.

Lemma run_headers_fuel f p : (length (cache_ p) < f)%nat -> parse_headers f p = run_headers p.
Proof. intros. apply parse_headers_fuel; lia. Qed.

Lemma run_chunk_fuel f p : (length (cache_ p) < f)%nat -> chunk_loop f p = parse_body_with_chunk p.
Proof. intros. apply chunk_loop_fuel; lia. Qed.

(** ** Safety *)

(** The request exists in every state after the request line. *)
Definition req_ok (p : HttpParser) : Prop := parse_func_ p <> fn_first_line -> is_Some (req_ p).

(** A result that is a value with the invariant, or [std::length_error]. *)
Definition safe_result (o : outcome (tribool * HttpParser)) : Prop :=
  match o with
  | Ret (_, p) => req_ok p
  | Throw ExnLengthError => True
  | _ => False
  end.

Lemma stringtoint_cases line :
  let len := u64 (stringtoint line) in
  len = 0 \/ 0 < len < 2 ^ 31 \/ 2 ^ 64 - 2 ^ 31 <= len < 2 ^ 64.
Proof.
  simpl. pose proof (i32_range (strtol 16 line)). unfold stringtoint.
  destruct (decide (0 <= i32 (strtol 16 line))).
  - rewrite u64_small by lia. lia.
  - right. right. unfold u64. rewrite <- (Z.mod_add _ 1) by lia. rewrite Z.mod_small; lia.
Qed.

(** When a chunk is complete its data is in the buffer, unless the length is
    one no string can have. *)
Lemma append_chunk_safe dst c pos line :
  find CRLF c = Some pos -> sz c < 2 ^ 64 ->
  let len := u64 (stringtoint line) in
  len <> 0 -> u64 (len + 4) <= u64 (sz c - Z.of_nat pos) ->
  (exists b, append_n dst (drop (pos + 2) c) len = Ret b /\ 0 < len < 2 ^ 31 /\
             len + 4 <= sz c - Z.of_nat pos /\ b = dst ++ take (Z.to_nat len) (drop (pos + 2) c)) \/
  append_n dst (drop (pos + 2) c) len = Throw ExnLengthError.
Proof.
  intros E Hsz len Hne Hle. apply find_lt in E. cbn [length CRLF] in E.
  unfold append_n. destruct (_ <? len) eqn:E1; zbool; [by right|]. left.
  assert (0 < len < 2 ^ 31) as Hlen.
  { destruct (stringtoint_cases line) as [H|[H|H]]; fold len in H; try done.
    unfold string_max_size in E1. lia. }
  rewrite !u64_small in Hle by lia. rewrite length_drop.
  rewrite (proj2 (Z.ltb_ge _ _)) by lia. eexists. repeat split; lia.
Qed.

Lemma chunk_loop_safe f p :
  (length (cache_ p) < f)%nat -> sz (cache_ p) < 2 ^ 64 -> is_Some (req_ p) ->
  parse_func_ p = fn_body_with_chunk -> safe_result (chunk_loop f p).
Proof.
  revert p. induction f as [|f IH]; intros p Hf Hsz [r Hr] Hfn; [lia|]. cbn [chunk_loop].
  destruct (find CRLF (cache_ p)) as [pos|] eqn:E.
  2:{ destruct (_ <? _); simpl; intros _; rewrite Hr; eauto. }
  destruct (_ =? 0) eqn:E0; [simpl; intros _; rewrite Hr; eauto|].
  destruct (_ <? _) eqn:E1; [simpl; intros _; rewrite Hr; eauto|]. zbool.
  rewrite Hr. cbn [deref]. rewrite outcome_bind_ret.
  destruct (append_chunk_safe (body_ r) _ _ _ E Hsz E0 E1) as [(b & -> & _)| ->]; [|done].
  rewrite outcome_bind_ret. apply IH; simpl; try done.
  - eapply Nat.lt_le_trans; [eapply chunk_step_shrinks, E|]. lia.
  - rewrite !length_drop. lia.
Qed.

Lemma body_length_safe p : is_Some (req_ p) -> safe_result (parse_body_with_length p).
Proof.
  intros [r Hr]. unfold parse_body_with_length. rewrite Hr.
  split_match; simpl; intros _; simpl; rewrite ?Hr; eauto.
Qed.

Lemma headers_end_safe p :
  sz (cache_ p) < 2 ^ 64 -> is_Some (req_ p) -> safe_result (headers_end p).
Proof.
  intros Hsz [r Hr]. unfold headers_end. rewrite Hr. cbn [deref]. rewrite outcome_bind_ret.
  destruct (header (lit "transfer-encoding") r) eqn:Et.
  - cbv zeta. destruct (_ =? 0); [simpl; intros _; simpl; rewrite Hr; eauto|].
    apply body_length_safe. simpl. rewrite Hr. eauto.
  - destruct (strcaseeq _ _).
    + apply chunk_loop_safe; simpl; rewrite ?Hr; eauto.
    + apply body_length_safe. simpl. rewrite Hr. eauto.
Qed.

Lemma add_header_ret key value r : key <> [] -> returns (add_header key value r).
Proof.
  intros Hk. unfold add_header, trimright. destruct key; [done|]. eexists. reflexivity.
Qed.

Lemma parse_headers_safe f p :
  (length (cache_ p) < f)%nat -> sz (cache_ p) < 2 ^ 64 -> is_Some (req_ p) ->
  safe_result (parse_headers f p).
Proof.
  revert p. induction f as [|f IH]; intros p Hf Hsz Hr; [lia|]. cbn [parse_headers].
  destruct (find CRLF (cache_ p)) as [pos|] eqn:E.
  2:{ destruct (_ <? _); simpl; intros _; done. }
  apply find_lt in E. cbn [length CRLF] in E. cbv zeta.
  destruct (take pos (cache_ p)) as [|c l].
  { apply headers_end_safe; simpl; [rewrite length_drop; lia|done]. }
  destruct (find _ (c :: l)) as [mid|]; [|simpl; intros _; done].
  destruct (take mid (c :: l)) as [|k key]; [simpl; intros _; done|].
  destruct Hr as [r Hr]. simpl req_. rewrite Hr. cbn [deref]. rewrite outcome_bind_ret.
  destruct (add_header_ret (k :: key) (drop (mid + 1) (c :: l)) r) as [r' ->]; [done|].
  rewrite outcome_bind_ret. apply IH; simpl; rewrite ?length_drop; eauto; lia.
Qed.

(** Leaves of [parse_first_line]: a verdict with the request line's state kept. *)
Lemma first_line_leaf t c r p : parse_func_ p = fn_first_line ->
  safe_result (Ret (t, set_req r (set_cache c p))) /\ safe_result (Ret (t, set_cache c p)).
Proof. intros Hfn. split; intros Hne; by destruct Hne. Qed.

Lemma first_line_safe p :
  sz (cache_ p) < 2 ^ 64 -> parse_func_ p = fn_first_line -> safe_result (parse_first_line p).
Proof.
  intros Hsz Hfn. unfold parse_first_line.
  destruct (find CRLF (cache_ p)) as [pos|] eqn:E.
  2:{ destruct (_ <? _); simpl; intros Hne; by destruct Hne. }
  apply find_lt in E. cbn [length CRLF] in E. cbv zeta.
  pose proof (fun t c r => proj1 (first_line_leaf t c r p Hfn)) as Hleaf.
  pose proof (fun t c => proj2 (first_line_leaf t c None p Hfn)) as Hleaf'.
  destruct (_ <? MinLine)%nat; [done|]. destruct (strcaseeq _ _); [done|].
  destruct (find _ (take pos _)) as [first|]; [|done].
  destruct (find_at _ _ _) as [second|]; [|done].
  destruct (method_of _) as [m|]; [|done].
  apply parse_headers_safe; simpl; eauto. rewrite length_drop. lia.
Qed.

Lemma call_safe p :
  sz (cache_ p) < 2 ^ 64 -> req_ok p -> safe_result (call_parse_func p).
Proof.
  intros Hsz Hok. unfold call_parse_func.
  destruct (parse_func_ p) eqn:Hf.
  - by apply first_line_safe.
  - apply parse_headers_safe; [lia|done|]. apply Hok. congruence.
  - apply body_length_safe. apply Hok. congruence.
  - apply chunk_loop_safe; [lia|done| |done]. apply Hok. congruence.
Qed.

(** C32: feeding any bytes to the parser, in any state it can reach, returns a
    verdict (the loops finish, no null request is dereferenced, no read leaves
    the buffer) and keeps the invariant; the only exception it can raise is
    [std::length_error], from a chunk size. *)
Theorem parse_safe data p :
  req_ok p -> sz (cache_ p ++ data) < 2 ^ 64 -> safe_result (parse data p).
Proof. intros Hok Hsz. apply call_safe; done. Qed.

Lemma parse_safe_witness :
  req_ok reset /\ safe_result (parse (lit "GET / HTTP/1.1" ++ CRLF ++ lit "A") reset).
Proof.
  split; [by intros []|]. apply (parse_safe (lit "GET / HTTP/1.1" ++ CRLF ++ lit "A") reset).
  - by intros [].
  - vm_compute. reflexivity.
Defined.

(** A chunk-size line that reads as a number from -4 to -2 makes the parser
    throw [std::length_error]: the number is converted to [size_t], the
    completeness check [len + 4] wraps around, and [append] refuses the
    length.  The exception leaves [parse]. *)
Theorem negative_chunk_throws p r line rest :
  parse_func_ p = fn_body_with_chunk -> req_ p = Some r ->
  cache_ p = line ++ CRLF ++ rest -> CR ∉ line -> sz (cache_ p) < 2 ^ 62 ->
  -4 <= stringtoint line <= -2 ->
  call_parse_func p = Throw ExnLengthError.
Proof.
  intros Hfn Hr Hc Hcr Hsz Hneg. unfold call_parse_func, parse_body_with_chunk.
  rewrite Hfn. cbn [chunk_loop]. rewrite Hc in *. rewrite find_CRLF by done.
  rewrite take_app_length. set (len := u64 (stringtoint line)).
  assert (len = 2 ^ 64 + stringtoint line) as Hlen.
  { unfold len, u64. rewrite <- (Z.mod_add _ 1) by lia. rewrite Z.mod_small; lia. }
  rewrite (proj2 (Z.eqb_neq len 0)) by lia.
  assert (u64 (len + 4) = stringtoint line + 4) as ->.
  { unfold u64. rewrite Hlen, <- (Z.mod_add _ (-1)) by lia. rewrite Z.mod_small; lia. }
  rewrite !length_app in *. cbn [length CRLF] in *.
  rewrite u64_small by lia. rewrite (proj2 (Z.ltb_ge _ _)) by lia.
  rewrite Hr. cbn [deref]. rewrite outcome_bind_ret.
  unfold append_n. rewrite (proj2 (Z.ltb_lt _ _)); [done|].
  unfold string_max_size. lia.
Qed.

Lemma negative_chunk_throws_witness :
  parse (lit "POST /a HTTP/1.1" ++ CRLF ++ lit "Transfer-Encoding: chunked" ++ CRLF ++ CRLF ++
         lit "-2" ++ CRLF) reset = Throw ExnLengthError /\
  call_parse_func (mkParser fn_body_with_chunk 0 (Some (HttpRequest_new [])) (lit "-2" ++ CRLF))
    = Throw ExnLengthError.
Proof.
  split; [vm_compute; reflexivity|].
  apply (negative_chunk_throws _ (HttpRequest_new []) (lit "-2") []); try reflexivity.
  - cbn. unfold CR. set_solver.
  - vm_compute. split; discriminate.
Defined.
