(* ===== verification/HttpParserFacts.v ===== *)
(** * Incremental parsing and the round trip of requests

    Theorems about [HttpParser]: the verdict does not depend on how the bytes
    of a request are split over the calls of [parse] (up to the size limits of
    an unfinished line), and parsing the text of a request gives the request
    back. *)
From S2P Require Import Prelude StdString StdMap NatsuBase HttpRequest HttpParser.

(** ** Feeding more bytes *)

Definition feed (b : bytes) (p : HttpParser) : HttpParser := set_cache (cache_ p ++ b) p.

(** The limit of an unfinished line, and the state in which a call fails
    because a line is longer than that and its end has not arrived. *)
Definition line_limit (f : ParseFunction) : Z :=
  match f with fn_first_line => MaxUrl | fn_body_with_chunk => MaxChunkNum | _ => MaxHeader end.
Definition overlong (p : HttpParser) : Prop :=
  find CRLF (cache_ p) = None /\ line_limit (parse_func_ p) < sz (cache_ p).

(** What a call becomes when [b] follows the bytes it was given: an
    [indeterminate] call goes on from the state it left, a successful one
    leaves [b] in the cache. *)
Definition resume (b : bytes) (t : tribool) (p' : HttpParser) : outcome (tribool * HttpParser) :=
  match t with
  | indeterminate => call_parse_func (feed b p')
  | _ => Ret (t, feed b p')
  end.

Lemma take_app_short {A} n (l k : list A) : (n <= length l)%nat -> take n (l ++ k) = take n l.
Proof. apply take_app_le. Qed.

Lemma drop_app_short {A} n (l k : list A) : (n <= length l)%nat -> drop n (l ++ k) = drop n l ++ k.
Proof. apply drop_app_le. Qed.

Lemma feed_line b p pos :
  find CRLF (cache_ p) = Some pos ->
  find CRLF (cache_ (feed b p)) = Some pos /\
  take pos (cache_ (feed b p)) = take pos (cache_ p) /\
  drop (pos + 2) (cache_ (feed b p)) = drop (pos + 2) (cache_ p) ++ b.
Proof.
  intros E. pose proof (find_lt _ _ _ E) as Hl. cbn [length CRLF] in Hl. simpl.
  split; [by apply find_app|]. split; [apply take_app_short; lia | apply drop_app_short; lia].
Qed.

Lemma feed_body_length b p t p' :
  parse_func_ p = fn_body_with_length ->
  0 <= content_length_ p ->
  parse_body_with_length p = Ret (t, p') ->
  parse_body_with_length (feed b p) = resume b t p'.
Proof.
  intros Hfn Hcl. unfold parse_body_with_length at 1.
  destruct (content_length_ p <=? sz (cache_ p)) eqn:E; zbool.
  - destruct (req_ p) as [r|] eqn:Er; simpl; [|done]. intros [= <- <-].
    unfold parse_body_with_length. simpl. rewrite length_app.
    rewrite (proj2 (Z.leb_le _ _)) by lia. rewrite Er. simpl.
    rewrite take_app_short, drop_app_short by lia. done.
  - intros [= <- <-]. simpl. unfold call_parse_func. simpl. by rewrite Hfn.
Qed.

Lemma feed_chunk f b p t p' :
  (length (cache_ p) < f)%nat -> sz (cache_ p ++ b) < 2 ^ 64 ->
  parse_func_ p = fn_body_with_chunk -> (t = failure -> ~ overlong p') ->
  chunk_loop f p = Ret (t, p') ->
  parse_body_with_chunk (feed b p) = resume b t p'.
Proof.
  revert p. induction f as [|f IH]; intros p Hf Hsz Hfn Ht; [lia|]. cbn [chunk_loop].
  assert (Ret (indeterminate, p) = Ret (t, p') ->
          parse_body_with_chunk (feed b p) = resume b t p') as Hind.
  { intros [= <- <-]. unfold resume, call_parse_func. simpl. by rewrite Hfn. }
  destruct (find CRLF (cache_ p)) as [pos|] eqn:E.
  2:{ destruct (_ <? _) eqn:El; [|done]. zbool. intros [= <- <-]. exfalso. apply Ht; [done|].
      split; [done|]. by rewrite Hfn. }
  destruct (feed_line b p pos E) as (Ef & Et & Ed).
  destruct (_ =? 0) eqn:E0.
  { intros [= <- <-]. unfold parse_body_with_chunk. cbn [chunk_loop]. by rewrite Ef, Et, E0. }
  destruct (_ <? _) eqn:E1; [done|]. zbool.
  destruct (req_ p) as [r|] eqn:Er; [|done]. cbn [deref]. rewrite outcome_bind_ret.
  rewrite length_app in Hsz.
  destruct (append_chunk_safe (body_ r) _ _ _ E ltac:(lia) E0 E1)
    as [(b' & Eb & Hlen & Hle & Hb')| ->]; [|done].
  rewrite Eb, outcome_bind_ret. intros Hrec.
  eapply IH in Hrec.
  - rewrite <- Hrec. clear IH Hrec.
    unfold parse_body_with_chunk at 1. cbn [chunk_loop].
    rewrite Ef, Et, (proj2 (Z.eqb_neq _ 0) E0).
    assert (length (drop (pos + 2) (cache_ p)) = length (cache_ p) - (pos + 2))%nat as Hd
      by apply length_drop.
    apply find_lt in E. cbn [length CRLF] in E.
    rewrite (proj2 (Z.ltb_ge _ _)).
    2:{ simpl. rewrite length_app, (u64_small (_ - _)), (u64_small (_ + 4)) by lia. lia. }
    simpl req_. rewrite Er. cbn [deref]. rewrite outcome_bind_ret, Ed.
    assert (append_n (body_ r) (drop (pos + 2) (cache_ p) ++ b) (u64 (stringtoint (take pos (cache_ p))))
            = Ret b') as ->.
    { rewrite <- Eb. unfold append_n. destruct (_ <? _); [done|]. rewrite length_app, Hd.
      rewrite !(proj2 (Z.ltb_ge _ _)) by lia. by rewrite take_app_short by lia. }
    rewrite outcome_bind_ret. rewrite drop_app_short by (rewrite Hd, (u64_small (_ + 2)); lia).
    apply run_chunk_fuel. simpl. rewrite !length_app, !length_drop. lia.
  - simpl. eapply Nat.lt_le_trans; [eapply chunk_step_shrinks, E|]. lia.
  - simpl. rewrite length_app, !length_drop. lia.
  - done.
  - done.
Qed.

Lemma feed_headers_end b p t p' :
  sz (cache_ p ++ b) < 2 ^ 64 -> (t = failure -> ~ overlong p') -> 0 <= content_length_ p ->
  headers_end p = Ret (t, p') -> headers_end (feed b p) = resume b t p'.
Proof.
  intros Hsz Ht Hcl. unfold headers_end. simpl req_.
  destruct (req_ p) as [r|]; [|done]. cbn [deref]. rewrite !outcome_bind_ret.
  destruct (header (lit "transfer-encoding") r) as [|e enc]; cbv zeta.
  - destruct (_ =? 0) eqn:E0.
    + intros [= <- <-]. done.
    + intros H. eapply (feed_body_length b) in H; [exact H|done|].
      simpl. destruct (header _ r); [lia|apply u64_range].
  - destruct (strcaseeq _ _); intros H.
    + eapply (feed_chunk _ b) in H; [exact H|simpl; lia|done..].
    + eapply (feed_body_length b) in H; [exact H|done..].
Qed.

Lemma feed_headers f b p t p' :
  (length (cache_ p) < f)%nat -> sz (cache_ p ++ b) < 2 ^ 64 -> 0 <= content_length_ p ->
  parse_func_ p = fn_headers -> (t = failure -> ~ overlong p') ->
  parse_headers f p = Ret (t, p') ->
  run_headers (feed b p) = resume b t p'.
Proof.
  revert p. induction f as [|f IH]; intros p Hf Hsz Hcl Hfn Ht; [lia|]. cbn [parse_headers].
  destruct (find CRLF (cache_ p)) as [pos|] eqn:E.
  2:{ destruct (_ <? _) eqn:El; zbool; intros [= <- <-].
      { exfalso. apply Ht; [done|]. split; [done|]. by rewrite Hfn. }
      unfold resume, call_parse_func. simpl. by rewrite Hfn. }
  destruct (feed_line b p pos E) as (Ef & Et & Ed).
  apply find_lt in E. cbn [length CRLF] in E. rewrite length_app in Hsz.
  unfold run_headers. cbn [parse_headers]. rewrite Ef, Et, Ed. cbv zeta.
  destruct (take pos (cache_ p)) as [|c l] eqn:El.
  { intros H. eapply (feed_headers_end b) in H; [exact H| |done|done].
    simpl. rewrite length_app, length_drop. lia. }
  destruct (find _ (c :: l)) as [mid|]; [|intros [= <- <-]; done].
  destruct (take mid (c :: l)) as [|k key]; [intros [= <- <-]; done|].
  simpl req_. destruct (req_ p) as [r|]; [|done]. cbn [deref]. rewrite !outcome_bind_ret.
  destruct (add_header _ _ _) as [r'| | |]; [|done..]. rewrite !outcome_bind_ret.
  intros H. eapply IH in H; [|simpl; rewrite ?length_app, ?length_drop; try lia; done..].
  rewrite <- H. symmetry. apply parse_headers_fuel; simpl; rewrite !length_app, !length_drop; lia.
Qed.

Lemma feed_first_line b p t p' :
  sz (cache_ p ++ b) < 2 ^ 64 -> 0 <= content_length_ p ->
  parse_func_ p = fn_first_line -> (t = failure -> ~ overlong p') ->
  parse_first_line p = Ret (t, p') ->
  parse_first_line (feed b p) = resume b t p'.
Proof.
  intros Hsz Hcl Hfn Ht. unfold parse_first_line at 1.
  destruct (find CRLF (cache_ p)) as [pos|] eqn:E.
  2:{ destruct (_ <? _) eqn:El; zbool; intros [= <- <-].
      { exfalso. apply Ht; [done|]. split; [done|]. by rewrite Hfn. }
      unfold resume, call_parse_func. simpl. by rewrite Hfn. }
  destruct (feed_line b p pos E) as (Ef & Et & Ed).
  apply find_lt in E. cbn [length CRLF] in E. rewrite length_app in Hsz.
  unfold parse_first_line. rewrite Ef, Et, Ed. cbv zeta.
  destruct (_ <? MinLine)%nat; [intros [= <- <-]; done|].
  destruct (strcaseeq _ _); [intros [= <- <-]; done|].
  destruct (find _ (take pos _)) as [first|]; [|intros [= <- <-]; done].
  destruct (find_at _ _ _) as [second|]; [|intros [= <- <-]; done].
  destruct (method_of _) as [m|]; [|intros [= <- <-]; done].
  intros H. eapply feed_headers in H; [exact H|simpl; rewrite ?length_app, ?length_drop; try lia; done..].
Qed.

Lemma feed_call b p t p' :
  sz (cache_ p ++ b) < 2 ^ 64 -> 0 <= content_length_ p -> (t = failure -> ~ overlong p') ->
  call_parse_func p = Ret (t, p') -> call_parse_func (feed b p) = resume b t p'.
Proof.
  intros Hsz Hcl Ht. unfold call_parse_func at 1. intros H.
  unfold call_parse_func. simpl parse_func_. destruct (parse_func_ p) eqn:Hfn.
  - by eapply feed_first_line.
  - eapply feed_headers; [|done..| exact H]. lia.
  - by eapply feed_body_length.
  - eapply feed_chunk; [|done..| exact H]. lia.
Qed.

(** C1: how far the outcome depends on the splitting of the input.  When a call of
    [parse] asked for more bytes, the next call gives exactly the result of
    one call with all the bytes; when it succeeded, the same request is parsed
    whatever bytes follow, and they stay in the cache; when it failed, one call
    with more bytes fails too, unless the call failed because of the length of
    a line whose end had not arrived. *)
Theorem parse_incremental p a b t p' :
  0 <= content_length_ p -> sz (cache_ p ++ a ++ b) < 2 ^ 64 ->
  parse a p = Ret (t, p') ->
  (t = indeterminate -> parse b p' = parse (a ++ b) p) /\
  (t = success -> parse (a ++ b) p = Ret (success, set_cache (cache_ p' ++ b) p')) /\
  (t = failure -> ~ overlong p' -> parse (a ++ b) p = Ret (failure, set_cache (cache_ p' ++ b) p')).
Proof.
  intros Hcl Hsz Ha. unfold parse in *.
  assert (set_cache (cache_ p ++ a ++ b) p = feed b (set_cache (cache_ p ++ a) p)) as ->.
  { unfold feed. simpl. by rewrite app_assoc. }
  assert ((t = failure -> ~ overlong p') ->
          call_parse_func (feed b (set_cache (cache_ p ++ a) p)) = resume b t p') as H.
  { intros Ht. eapply feed_call; [|done|done|exact Ha]. simpl. by rewrite <- app_assoc. }
  split_and!; intros ->; [by rewrite H..|]. intros Ho. by rewrite H.
Qed.

(** The exception is real: a request line of more than 1024 bytes is refused when
    its end has not arrived, and accepted when it has. *)
Definition long_line : bytes := lit "GET /" ++ replicate 1030 "a"%char ++ lit " HTTP/1.1".
Lemma long_line_split :
  (exists p', parse long_line reset = Ret (failure, p') /\ overlong p') /\
  exists p', parse (long_line ++ CRLF ++ CRLF) reset = Ret (success, p').
Proof.
  split; [|eexists; vm_compute; reflexivity].
  eexists. split; [vm_compute; reflexivity|]. split; vm_compute; reflexivity.
Qed.

Lemma parse_incremental_witness :
  exists p', parse (lit "GET /a HT") reset = Ret (indeterminate, p') /\
    parse (lit "TP/1.1" ++ CRLF ++ CRLF) p' =
    parse (lit "GET /a HT" ++ lit "TP/1.1" ++ CRLF ++ CRLF) reset.
Proof.
  eexists. split; [vm_compute; reflexivity|].
  refine (proj1 (parse_incremental reset (lit "GET /a HT") (lit "TP/1.1" ++ CRLF ++ CRLF)
    indeterminate _ _ _ _) eq_refl); vm_compute; try reflexivity; discriminate.
Defined.

(** ** The text of a request *)

Definition method_name (m : Method) : bytes :=
  match m with
  | GET => lit "GET" | POST => lit "POST" | PUT => lit "PUT" | DELETE => lit "DELETE"
  end.

Definition header_line (kv : bytes * bytes) : bytes := fst kv ++ lit ": " ++ snd kv.
Definition headers_text (hs : list (bytes * bytes)) : bytes :=
  concat (map (fun kv => header_line kv ++ CRLF) hs).
Definition request_line (m : Method) (path : bytes) : bytes :=
  method_name m ++ lit " " ++ path ++ lit " HTTP/1.1".
Definition head_text (m : Method) (path : bytes) (hs : list (bytes * bytes)) : bytes :=
  request_line m path ++ CRLF ++ headers_text hs ++ CRLF.

(** The header map the lines give: keys in lower case, the last line wins. *)
Definition header_map (hs : list (bytes * bytes)) (h : list (bytes * bytes)) : list (bytes * bytes) :=
  fold_left (fun h kv => map_put (map tolower (fst kv)) (snd kv) h) hs h.

Definition header_ok (kv : bytes * bytes) : Prop :=
  fst kv <> [] /\ ":"%char ∉ fst kv /\ CR ∉ fst kv /\ CR ∉ snd kv /\
  last (fst kv) <> Some " "%char /\ head (snd kv) <> Some " "%char.

Definition path_ok (path : bytes) : Prop := path <> [] /\ " "%char ∉ path /\ CR ∉ path.

(** ** Header lines *)

Lemma trimright_ok k : k <> [] -> last k <> Some " "%char -> trimright k = Ret (length k - 1)%nat.
Proof.
  intros Hne Hl. unfold trimright. destruct (length k) as [|n] eqn:En; [by destruct k|].
  f_equal. replace (S n - 1)%nat with n by lia. destruct n as [|m]; [done|].
  rewrite last_lookup, En in Hl. simpl pred in Hl. cbn [trimright_from].
  destruct (k !! S m) as [c|]; [|done].
  destruct (Ascii.eqb_spec c " "%char) as [->|]; done.
Qed.

Lemma trimleft_ok v : head v <> Some " "%char -> trimleft (" "%char :: v) = 1%nat.
Proof.
  intros Hv. destruct v as [|c v]; [done|]. simpl in *.
  destruct (Ascii.eqb_spec c " "%char) as [->|]; done.
Qed.

Lemma add_header_line k v r :
  k <> [] -> last k <> Some " "%char -> head v <> Some " "%char ->
  add_header k (" "%char :: v) r = Ret (set_header (map tolower k) v r).
Proof.
  intros Hk Hl Hv. unfold add_header. rewrite trimright_ok by done. rewrite outcome_bind_ret.
  rewrite trimleft_ok by done. rewrite take_ge by (destruct k; simpl; [done|lia]). done.
Qed.

Definition with_headers (h : list (bytes * bytes)) (r : HttpRequest) : HttpRequest :=
  mkRequest (method_ r) (path_ r) h (body_ r).

Lemma parse_header_lines f hs p r tail :
  Forall header_ok hs -> req_ p = Some r ->
  cache_ p = headers_text hs ++ tail -> (length (cache_ p) < f)%nat ->
  exists f', (length tail < f')%nat /\
  parse_headers f p =
    parse_headers f' (set_cache tail (set_req (Some (with_headers (header_map hs (header_ r)) r)) p)).
Proof.
  intros Hok. revert f p r. induction Hok as [|[k v] hs Hkv Hok IH]; intros f p r Hr Hc Hf.
  - exists f. simpl in Hc. rewrite Hc in Hf. split; [done|].
    destruct p, r; simpl in *. by subst.
  - destruct Hkv as (Hk & Hcol & Hcrk & Hcrv & Hlast & Hhd). simpl in *.
    destruct f as [|f]; [lia|]. cbn [parse_headers].
    assert (cache_ p = header_line (k, v) ++ CRLF ++ headers_text hs ++ tail) as Hc'.
    { rewrite Hc. unfold headers_text. simpl. by rewrite <- !app_assoc. }
    assert (CR ∉ header_line (k, v)) as Hcr.
    { unfold header_line. simpl. rewrite elem_of_app, !elem_of_cons. unfold CR in *. set_solver. }
    rewrite Hc', find_CRLF by done. rewrite take_app_length, drop_find_line.
    destruct (header_line (k, v)) as [|c l] eqn:El.
    { unfold header_line in El. simpl in El. by destruct k. }
    rewrite <- El. unfold header_line. cbn [fst snd].
    change (lit ": " ++ v) with (":"%char :: " "%char :: v).
    rewrite find_char_app by done. rewrite take_app_length.
    destruct k as [|k0 k]; [done|]. cbv zeta.
    simpl req_. rewrite Hr. cbn [deref]. rewrite outcome_bind_ret.
    replace (drop (length (k0 :: k) + 1) ((k0 :: k) ++ ":"%char :: " "%char :: v))
      with (" "%char :: v).
    2:{ rewrite drop_app_ge by lia. by replace (_ - _)%nat with 1%nat by lia. }
    rewrite add_header_line by done. rewrite outcome_bind_ret.
    rewrite Hc' in Hf. rewrite !length_app in Hf. cbn [length CRLF] in Hf.
    edestruct (IH f) as (f' & Hf' & ->); [reflexivity|reflexivity| |].
    + simpl. rewrite length_app. lia.
    + exists f'. split; [done|]. done.
Qed.

(** The headers announce the body: by its length, or there is none. *)
Definition announced (h : list (bytes * bytes)) (body : bytes) : Prop :=
  map_find (lit "transfer-encoding") h = None /\
  match map_find (lit "content-length") h with
  | Some v => v = dec (sz body)
  | None => body = []
  end /\ sz body < 2 ^ 31.

(** The verdict at the empty line. *)
Lemma headers_end_length p r body rest :
  req_ p = Some r -> cache_ p = body ++ rest -> body_ r = [] ->
  announced (header_ r) body ->
  headers_end p = Ret (success, mkParser fn_body_with_length (sz body)
                                 (Some (set_body body r)) rest).
Proof.
  intros Hr Hc Hb (Ht & Hl & Hsz). unfold headers_end. rewrite Hr. cbn [deref]. rewrite outcome_bind_ret.
  unfold header. rewrite Ht. destruct (map_find (lit "content-length") (header_ r)) as [v|].
  2:{ subst body. destruct p, r; simpl in *. by subst. }
  subst v. destruct (dec_nonneg_spec (sz body) ltac:(lia)) as (_ & Hne & _).
  destruct (dec (sz body)) as [|d ds] eqn:Ed; [done|]. rewrite <- Ed, atoi_dec by lia.
  rewrite u64_small by lia. cbv zeta. destruct (_ =? 0) eqn:E0; zbool.
  - assert (body = []) as -> by (destruct body; [done|simpl in E0; lia]).
    destruct p, r; simpl in *. by subst.
  - unfold parse_body_with_length. simpl. rewrite Hc, length_app.
    rewrite (proj2 (Z.leb_le _ _)) by lia. rewrite Hr. simpl.
    rewrite Nat2Z.id, take_app_length, drop_app_length. done.
Qed.

Lemma headers_blank f p rest :
  cache_ p = CRLF ++ rest -> (length (cache_ p) < f)%nat ->
  parse_headers f p = headers_end (set_cache rest p).
Proof.
  intros Hc Hf. destruct f as [|f]; [lia|]. cbn [parse_headers]. rewrite Hc. done.
Qed.

(** ** The request line *)

Lemma request_line_method m : method_of (method_name m) = Some m.
Proof. by destruct m. Qed.

Lemma request_line_no_cr m path : path_ok path -> CR ∉ request_line m path.
Proof.
  intros (_ & _ & Hcr). unfold request_line. rewrite !elem_of_app.
  destruct m; unfold CR in *; simpl; set_solver.
Qed.

Lemma request_line_not_http m path :
  strcaseeq (lit "HTTP/1.") (take 7 (request_line m path)) = false.
Proof.
  unfold strcaseeq. apply bool_decide_eq_false.
  destruct m; unfold request_line; simpl; intros Heq; discriminate Heq.
Qed.

Lemma request_line_split m path rest :
  path_ok path ->
  parse_first_line (set_cache (request_line m path ++ CRLF ++ rest) reset) =
  run_headers (mkParser fn_headers 0 (Some (set_method m (HttpRequest_new path))) rest).
Proof.
  intros Hok. unfold parse_first_line. cbn [cache_ set_cache].
  rewrite find_CRLF by by apply request_line_no_cr.
  rewrite take_app_length, drop_find_line. cbv zeta.
  destruct Hok as (Hne & Hsp & Hcr).
  assert (MinLine <= length (request_line m path))%nat as Hlen.
  { unfold MinLine, request_line. rewrite !length_app.
    assert (1 <= length path)%nat by (destruct path; simpl; [done|lia]).
    destruct m; simpl; lia. }
  rewrite (proj2 (Nat.ltb_ge _ _)) by done.
  rewrite request_line_not_http.
  assert (" "%char ∉ method_name m) as Hm by (destruct m; cbn; set_solver).
  unfold request_line. change (lit " " ++ ?x) with (" "%char :: x).
  rewrite find_char_app by done. rewrite take_app_length.
  unfold find_at. rewrite (proj2 (Nat.leb_le _ _)) by (rewrite length_app; simpl; lia).
  assert (forall x, drop (length (method_name m) + 1) (method_name m ++ " "%char :: x) = x) as Hdrop.
  { intros x. rewrite drop_app_ge by lia. by replace (_ - _)%nat with 1%nat by lia. }
  rewrite Hdrop. change (lit " HTTP/1.1") with (" "%char :: lit "HTTP/1.1").
  rewrite (find_char_app " "%char path) by done. cbn [fmap option_fmap option_map].
  rewrite request_line_method, ?Hdrop.
  replace (_ + 1 + length path - length (method_name m) - 1)%nat with (length path) by lia.
  rewrite take_app_length. done.
Qed.

Lemma parse_request m path hs body rest :
  path_ok path -> Forall header_ok hs -> announced (header_map hs []) body ->
  parse (head_text m path hs ++ body ++ rest) reset =
  Ret (success, mkParser fn_body_with_length (sz body)
                  (Some (mkRequest (Some m) path (header_map hs []) body)) rest).
Proof.
  intros Hp Hhs Ha. unfold head_text.
  change (parse ?x reset) with (parse_first_line (set_cache x reset)). rewrite <- !app_assoc. rewrite request_line_split by done.
  unfold run_headers. cbn [cache_].
  set (p0 := mkParser _ _ _ _).
  destruct (parse_header_lines (S (length (cache_ p0))) hs p0
    (set_method m (HttpRequest_new path)) (CRLF ++ body ++ rest)) as (f' & Hf' & Heq);
    [done|done|done|lia|].
  etransitivity; [exact Heq|].
  rewrite (headers_blank _ _ (body ++ rest)) by done.
  by erewrite headers_end_length; [|reflexivity|reflexivity|reflexivity|done].
Qed.

(** ** Requests that have not arrived completely *)

(** The lines are within the limits the parser sets for unfinished lines. *)
Definition lines_short (m : Method) (path : bytes) (hs : list (bytes * bytes)) : Prop :=
  sz (request_line m path) < MaxUrl /\ Forall (fun kv => sz (header_line kv) < MaxHeader) hs.

(** A text cut inside its first line or its line end, or after it. *)
Lemma cut_line a b l rest :
  a ++ b = l ++ CRLF ++ rest -> CR ∉ l ->
  (find CRLF a = None /\ sz a <= sz l + 1) \/ exists a', a = l ++ CRLF ++ a' /\ a' ++ b = rest.
Proof.
  intros E Hcr. destruct (decide (length a < length l + 2)%nat) as [Hlt|Hge].
  - left. split; [|lia]. destruct (find CRLF a) as [k|] eqn:Ek; [|done].
    pose proof (find_lt _ _ _ Ek) as Hk. cbn [length CRLF] in Hk.
    apply (find_app _ _ b) in Ek. rewrite E, find_CRLF in Ek by done. injection Ek. lia.
  - right. rewrite app_assoc in E. exists (drop (length (l ++ CRLF)) a).
    assert (length (l ++ CRLF) <= length a)%nat as Hle by (rewrite length_app; simpl; lia).
    split.
    + rewrite <- (take_drop (length (l ++ CRLF)) a) at 1. rewrite app_assoc. f_equal.
      rewrite <- (take_app_le _ b) by done. by rewrite E, take_app_length.
    + rewrite <- drop_app_le by done. by rewrite E, drop_app_length.
Qed.

Lemma headers_end_partial p r a b :
  req_ p = Some r -> cache_ p = a -> b <> [] -> announced (header_ r) (a ++ b) ->
  exists p', headers_end p = Ret (indeterminate, p').
Proof.
  intros Hr Hc Hb (Ht & Hl & Hsz). unfold headers_end. rewrite Hr. cbn [deref]. rewrite outcome_bind_ret.
  unfold header. rewrite Ht. destruct (map_find (lit "content-length") (header_ r)) as [v|].
  2:{ by destruct a, b. }
  subst v. destruct (dec_nonneg_spec (sz (a ++ b)) ltac:(lia)) as (_ & Hne & _).
  destruct (dec (sz (a ++ b))) as [|d ds] eqn:Ed; [done|]. rewrite <- Ed, atoi_dec by lia.
  rewrite u64_small by lia. assert (0 < length b)%nat by (destruct b; simpl; [done|lia]).
  rewrite length_app in *. cbv zeta. rewrite (proj2 (Z.eqb_neq _ _)) by lia.
  unfold parse_body_with_length. simpl. rewrite Hc, (proj2 (Z.leb_gt _ _)) by lia. by eexists.
Qed.

Lemma headers_partial f hs p r a b body :
  Forall header_ok hs -> Forall (fun kv => sz (header_line kv) < MaxHeader) hs ->
  req_ p = Some r -> cache_ p = a -> (length a < f)%nat -> b <> [] ->
  announced (header_map hs (header_ r)) body -> a ++ b = headers_text hs ++ CRLF ++ body ->
  exists p', parse_headers f p = Ret (indeterminate, p').
Proof.
  intros Hok. revert f p r a. induction Hok as [|kv hs Hkv Hok IH];
    intros f p r a Hsh Hr Hc Hf Hb Ha E.
  - destruct (cut_line a b [] body E ltac:(apply not_elem_of_nil)) as [[Hn Hsz]|(a' & -> & <-)].
    + destruct f as [|f]; [lia|]. cbn [parse_headers]. rewrite Hc, Hn.
      unfold MaxHeader. simpl in Hsz. rewrite (proj2 (Z.ltb_ge _ _)) by lia. by eexists.
    + rewrite (headers_blank _ _ a') by (done || by rewrite Hc).
      by eapply headers_end_partial.
  - apply Forall_cons in Hsh as [Hs Hsh].
    assert (a ++ b = header_line kv ++ CRLF ++ headers_text hs ++ CRLF ++ body) as E'.
    { rewrite E. unfold headers_text. simpl. by rewrite <- !app_assoc. }
    assert (CR ∉ header_line kv) as Hcr.
    { destruct Hkv as (_ & _ & Hk & Hv & _). unfold header_line. rewrite !elem_of_app. unfold CR in *. cbn. set_solver. }
    destruct (cut_line _ _ _ _ E' Hcr) as [[Hn Hsz]|(a' & -> & E2)].
    + destruct f as [|f]; [lia|]. cbn [parse_headers]. rewrite Hc, Hn.
      rewrite (proj2 (Z.ltb_ge _ _)) by lia. by eexists.
    + destruct (parse_header_lines f [kv] p r a') as (f' & Hf' & ->);
        [by constructor|done| |by rewrite Hc|].
      { rewrite Hc. unfold headers_text. simpl. by rewrite app_nil_r, <- app_assoc. }
      eapply IH; [done|reflexivity|reflexivity|done|done|exact Ha|done].
Qed.

(** While bytes of a request are missing, the parser asks for more. *)
Lemma request_partial m path hs body a b :
  path_ok path -> Forall header_ok hs -> announced (header_map hs []) body -> lines_short m path hs ->
  b <> [] -> a ++ b = head_text m path hs ++ body ->
  exists p, parse a reset = Ret (indeterminate, p).
Proof.
  intros Hp Hok Ha [Hs Hsh] Hb E. unfold head_text in E. rewrite <- !app_assoc in E.
  change (parse a reset) with (parse_first_line (set_cache a reset)).
  destruct (cut_line _ _ _ _ E (request_line_no_cr m path Hp)) as [[Hn Hsz]|(a' & -> & E2)].
  - unfold parse_first_line. cbn [cache_ set_cache]. rewrite Hn.
    rewrite (proj2 (Z.ltb_ge _ _)) by lia. by eexists.
  - rewrite request_line_split by done. by eapply headers_partial; [..|exact E2]; try done; cbn [cache_]; lia.
Qed.

(** Bytes after an unfinished part give what all of them together give. *)
Lemma parse_resumes a b p :
  parse a reset = Ret (indeterminate, p) -> sz (a ++ b) < 2 ^ 64 -> parse b p = parse (a ++ b) reset.
Proof.
  intros Ha Hsz. symmetry. change (parse (a ++ b) reset) with (call_parse_func (feed b (set_cache a reset))).
  exact (feed_call b (set_cache a reset) indeterminate p Hsz ltac:(done) ltac:(done) Ha).
Qed.

(** C2: parsing the text of a request (a method, a path without spaces, header
    lines, the empty line and a body announced by [Content-Length]) succeeds
    with exactly that method, path, headers and body, and leaves the bytes
    that follow the request in the cache. *)
Theorem request_roundtrip m path hs body rest :
  path_ok path -> Forall header_ok hs -> announced (header_map hs []) body ->
  parse (head_text m path hs ++ body ++ rest) reset =
  Ret (success, mkParser fn_body_with_length (sz body)
                  (Some (mkRequest (Some m) path (header_map hs []) body)) rest).
Proof. apply parse_request. Qed.

Lemma request_roundtrip_witness :
  parse (head_text POST (lit "/a?x=1") [(lit "Host", lit "h"); (lit "Content-Length", lit "2")]
         ++ lit "ok" ++ lit "GET") reset =
  Ret (success, mkParser fn_body_with_length 2
    (Some (mkRequest (Some POST) (lit "/a?x=1")
       [(lit "content-length", lit "2"); (lit "host", lit "h")] (lit "ok"))) (lit "GET")).
Proof.
  apply (request_roundtrip POST (lit "/a?x=1")
    [(lit "Host", lit "h"); (lit "Content-Length", lit "2")] (lit "ok") (lit "GET")).
  - split; [discriminate|]. cbn. unfold CR. set_solver.
  - repeat constructor; cbn; unfold CR; try discriminate; set_solver.
  - repeat split.
Defined.

(** ** Chunked bodies *)

(** A chunk: a size line that reads as the length of its data, and the data. *)
Definition chunk_text (c : bytes * bytes) : bytes := fst c ++ CRLF ++ snd c ++ CRLF.
Definition chunk_ok (c : bytes * bytes) : Prop :=
  CR ∉ fst c /\ snd c <> [] /\ stringtoint (fst c) = sz (snd c) /\ sz (snd c) < 2 ^ 31.

(** C33: a chunked body is the concatenation of its chunks' data, up to the
    chunk of size zero, which stays in the cache. *)
Theorem chunked_body p r cs last rest :
  parse_func_ p = fn_body_with_chunk -> req_ p = Some r ->
  cache_ p = concat (map chunk_text cs) ++ last ++ CRLF ++ rest ->
  Forall chunk_ok cs -> CR ∉ last -> stringtoint last = 0 ->
  sz (body_ r) + sz (cache_ p) < 2 ^ 62 ->
  call_parse_func p =
    Ret (success, set_cache (last ++ CRLF ++ rest)
      (set_req (Some (set_body (body_ r ++ concat (map snd cs)) r)) p)).
Proof.
  intros Hfn Hr Hc Hok Hcr Hlast Hsz. unfold call_parse_func, parse_body_with_chunk. rewrite Hfn.
  assert (forall f, (length (cache_ p) < f)%nat -> chunk_loop f p =
    Ret (success, set_cache (last ++ CRLF ++ rest)
      (set_req (Some (set_body (body_ r ++ concat (map snd cs)) r)) p))) as H; [|apply H; lia].
  clear Hfn. revert p r Hr Hc Hsz. induction Hok as [|[sl d] cs Hd Hok IH]; intros p r Hr Hc Hsz f Hf;
    (destruct f as [|f]; [lia|]); cbn [chunk_loop].
  - change (concat (map chunk_text []) ++ ?x) with x in Hc.
    rewrite Hc, find_CRLF by done. rewrite take_app_length, Hlast. simpl.
    rewrite app_nil_r. destruct p, r; simpl in *. by subst.
  - destruct Hd as (Hcrs & Hne & Hval & Hdsz). cbn [fst snd] in *.
    assert (cache_ p = sl ++ CRLF ++ d ++ CRLF ++ concat (map chunk_text cs) ++ last ++ CRLF ++ rest)
      as Hc' by (rewrite Hc; cbn [map concat]; unfold chunk_text at 1; cbn [fst snd]; by rewrite <- !app_assoc).
    assert (0 < length d)%nat by (destruct d; simpl; [done|lia]).
    rewrite Hc', !length_app in Hsz. rewrite Hc', !length_app in Hf. cbn [length CRLF] in Hf, Hsz.
    rewrite Hc', find_CRLF by done. rewrite take_app_length, Hval.
    rewrite !(u64_small (sz d)) by lia. rewrite (proj2 (Z.eqb_neq _ _)) by lia.
    rewrite !length_app. cbn [length CRLF].
    rewrite (proj2 (Z.ltb_ge _ _)) by (rewrite !u64_small by lia; lia).
    rewrite Hr. cbn [deref]. rewrite outcome_bind_ret, drop_find_line.
    unfold append_n, string_max_size. rewrite !length_app. cbn [length CRLF].
    rewrite (proj2 (Z.ltb_ge _ _)) by lia. rewrite (proj2 (Z.ltb_ge _ _)) by lia.
    rewrite outcome_bind_ret, Nat2Z.id, take_app_length.
    rewrite (u64_small (_ + 2)) by lia.
    replace (Z.to_nat (sz d + 2)) with (length d + 2)%nat by lia. rewrite drop_find_line.
    erewrite IH; [|reflexivity|reflexivity|..].
    + simpl. by rewrite <- app_assoc.
    + simpl. rewrite !length_app. cbn [length CRLF]. lia.
    + simpl. rewrite !length_app. cbn [length CRLF]. lia.
Qed.

Definition chunk_demo : HttpParser :=
  mkParser fn_body_with_chunk 0 (Some (HttpRequest_new (lit "/")))
    (lit "5" ++ CRLF ++ lit "hello" ++ CRLF ++ lit "1" ++ CRLF ++ lit "!" ++ CRLF ++ lit "0" ++ CRLF ++ CRLF).

Lemma chunked_body_witness :
  call_parse_func chunk_demo
  = Ret (success, mkParser fn_body_with_chunk 0 (Some (mkRequest None (lit "/") [] (lit "hello!")))
      (lit "0" ++ CRLF ++ CRLF)).
Proof.
  apply (chunked_body chunk_demo (HttpRequest_new (lit "/")) [(lit "5", lit "hello"); (lit "1", lit "!")]
    (lit "0") CRLF); try reflexivity.
  - unfold chunk_ok. repeat constructor; cbn; unfold CR; try discriminate; set_solver.
  - cbn. unfold CR. set_solver.
Defined.
