(* ===== verification/HttpResponse.v ===== *)
(** * [HttpResponse]: src/inc/http_response.h and src/natsu/http_response.cpp

    The response under construction (code, headers, body) and its text.
    [make] also updates the header map, so [str] returns the new state. *)
From S2P Require Import Prelude StdString StdMap NatsuBase.

(** [HttpResponse::HttpResponseImpl]. *)
Record HttpResponse : Type := mkResponse {
  code_ : Z;
  header_ : list (bytes * bytes);
  body_ : bytes
}.

Definition HttpResponse_new : HttpResponse := mkResponse 200 [] [].

(** The status line [make] writes: none for a code outside the switch. *)
Definition status_line (code : Z) : bytes :=
  if code =? 200 then lit "HTTP/1.1 " ++ dec code ++ lit " OK" ++ CRLF
  else if code =? 302 then lit "HTTP/1.1 " ++ dec code ++ lit " Temporarily Moved" ++ CRLF
  else if code =? 404 then lit "HTTP/1.1 " ++ dec code ++ lit " Not Found" ++ CRLF
  else if code =? 500 then lit "HTTP/1.1 " ++ dec code ++ lit " Internal Server Error" ++ CRLF
  else [].

Definition header_text (kv : bytes * bytes) : bytes := fst kv ++ lit ": " ++ snd kv ++ CRLF.

(** [HttpResponseImpl::make]. *)
Definition make (r : HttpResponse) : bytes * HttpResponse :=
  let h := map_put (lit "Connection") (lit "close") (header_ r) in
  let h := map_erase (lit "Content-Length") h in
  (status_line (code_ r)
     ++ concat (map header_text h)
     ++ lit "Content-Length: " ++ dec (sz (body_ r)) ++ CRLF
     ++ CRLF
     ++ body_ r,
   mkResponse (code_ r) h (body_ r)).

Definition set_header (key value : bytes) (r : HttpResponse) : HttpResponse :=
  mkResponse (code_ r) (map_put key value (header_ r)) (body_ r).

(** [response(resp, ct)]. *)
Definition response_text (resp ct : bytes) (r : HttpResponse) : HttpResponse :=
  mkResponse (code_ r) (map_put (lit "Content-Type") ct (header_ r)) resp.

(** The loop of [response(map)]: [it] is the rest of the map at the iterator;
    dereferencing [end()] is undefined. *)
Fixpoint form_loop (acc : bytes) (it : list (bytes * bytes)) : outcome bytes :=
  match it with
  | [] => Undef
  | (k, v) :: it' =>
      let acc := acc ++ k ++ lit "=" ++ v in
      match it' with
      | [] => form_loop (acc ++ lit "&") it'
      | _ :: _ => Ret acc
      end
  end.

(** [response(map)]. *)
Definition response_form (resp : list (bytes * bytes)) (r : HttpResponse) : outcome HttpResponse :=
  t ← form_loop [] resp;
  Ret (response_text t [] r).

(** [response(code)]. *)
Definition response_code (code : Z) (r : HttpResponse) : HttpResponse :=
  mkResponse code (header_ r) [].

Definition redirect (u : bytes) (r : HttpResponse) : HttpResponse :=
  mkResponse 302 (map_put (lit "Location") u (header_ r)) [].

Definition str (r : HttpResponse) : bytes * HttpResponse := make r.

Definition empty (r : HttpResponse) : bool :=
  (code_ r =? 200) && (Z.of_nat (length (header_ r)) =? 0) && (sz (body_ r) =? 0).

(** ** Facts *)

(** The header lines of a response. *)
Definition line_ok (kv : bytes * bytes) : Prop := CR ∉ fst kv /\ CR ∉ snd kv.
Definition response_ok (r : HttpResponse) : Prop :=
  map_sorted (header_ r) /\ Forall line_ok (header_ r).

Lemma Forall_map_put {V} (P : bytes * V -> Prop) k v m :
  P (k, v) -> Forall P m -> Forall P (map_put k v m).
Proof.
  intros Hkv Hm. induction Hm as [|[k' v'] m Hk Hm IH]; simpl; [by constructor|].
  repeat split_match; repeat constructor; done.
Qed.

Lemma Forall_map_erase {V} (P : bytes * V -> Prop) k m : Forall P m -> Forall P (map_erase k m).
Proof.
  intros Hm. induction Hm as [|[k' v'] m Hk Hm IH]; simpl; [by constructor|].
  repeat split_match; repeat constructor; done.
Qed.

#[export] Hint Resolve Forall_map_put Forall_map_erase : natsu.

(** A line of text, as a client reads it. *)
Definition no_blank_line (ls : list bytes) : Prop := Forall (fun l => l <> [] /\ CR ∉ l) ls.
Definition lines_text (ls : list bytes) : bytes := concat (map (fun l => l ++ CRLF) ls).

(** Reference reader of a message: the lines up to the first empty line, and
    the body after it. *)
Fixpoint read_head (fuel : nat) (s : bytes) : option (list bytes * bytes) :=
  match fuel with
  | O => None
  | S fuel' =>
      match find CRLF s with
      | None => None
      | Some pos =>
          match take pos s with
          | [] => Some ([], drop (pos + 2) s)
          | _ :: _ =>
              match read_head fuel' (drop (pos + 2) s) with
              | Some (ls, b) => Some (take pos s :: ls, b)
              | None => None
              end
          end
      end
  end.

Lemma read_head_lines ls body f :
  no_blank_line ls -> (length ls < f)%nat ->
  read_head f (lines_text ls ++ CRLF ++ body) = Some (ls, body).
Proof.
  intros Hls. revert f. induction Hls as [|l ls [Hne Hcr] Hls IH]; intros f Hf;
    (destruct f as [|f]; [simpl in Hf; lia|]).
  - done.
  - unfold lines_text. cbn [map concat read_head]. rewrite <- !app_assoc.
    rewrite find_CRLF by done. rewrite take_app_length, drop_find_line.
    destruct l as [|c l]; [done|]. fold (lines_text ls). rewrite IH by (simpl in Hf; lia). done.
Qed.

Definition known_code (code : Z) : Prop := code = 200 \/ code = 302 \/ code = 404 \/ code = 500.

Lemma status_line_known code :
  known_code code ->
  exists l, status_line code = l ++ CRLF /\ l <> [] /\ CR ∉ l /\
            starts_with (lit "HTTP/1.1 " ++ dec code ++ lit " ") l = true.
Proof.
  unfold CR. intros [->|[->|[->| ->]]];
    [exists (lit "HTTP/1.1 200 OK") | exists (lit "HTTP/1.1 302 Temporarily Moved")
    |exists (lit "HTTP/1.1 404 Not Found") | exists (lit "HTTP/1.1 500 Internal Server Error")];
    (split; [reflexivity|]); (split; [discriminate|]); (split; [|reflexivity]); cbn; set_solver.
Qed.

(** The lines of the head of a response. *)
Definition head_lines (l : bytes) (h : list (bytes * bytes)) (n : Z) : list bytes :=
  l :: map (fun kv => fst kv ++ lit ": " ++ snd kv) h ++ [lit "Content-Length: " ++ dec n].

Lemma header_lines_text h :
  concat (map header_text h) = lines_text (map (fun kv => fst kv ++ lit ": " ++ snd kv) h).
Proof.
  unfold lines_text, header_text. rewrite map_map. f_equal.
  apply List.map_ext. intros kv. by rewrite <- !app_assoc.
Qed.

Lemma lines_text_app a b : lines_text (a ++ b) = lines_text a ++ lines_text b.
Proof. unfold lines_text. by rewrite map_app, concat_app. Qed.

Lemma make_text r l :
  status_line (code_ r) = l ++ CRLF ->
  fst (make r) = lines_text (head_lines l (header_ (snd (make r))) (sz (body_ r))) ++ CRLF ++ body_ r.
Proof.
  intros Hl. unfold make. cbn [fst snd header_]. rewrite Hl, header_lines_text. unfold head_lines.
  change (l :: ?x) with ([l] ++ x). rewrite !lines_text_app.
  unfold lines_text at 2 4. cbn [map concat]. rewrite !app_nil_r, <- !app_assoc. done.
Qed.

(** C37: the text of a response is framed correctly: a client that reads lines
    up to the empty line gets the status line of the code, the stored headers
    with [Connection: close] and without a stale [Content-Length], a
    [Content-Length] equal to the body's length, and then exactly the body. *)
Theorem response_framing r :
  response_ok r -> known_code (code_ r) ->
  exists l, status_line (code_ r) = l ++ CRLF /\
    read_head (S (length (header_ r) + 4)) (fst (str r)) =
      Some (head_lines l (header_ (snd (str r))) (sz (body_ r)), body_ r) /\
    map_find (lit "Connection") (header_ (snd (str r))) = Some (lit "close") /\
    map_find (lit "Content-Length") (header_ (snd (str r))) = None.
Proof.
  intros [Hs Hl] Hc. destruct (status_line_known _ Hc) as (l & El & Hne & Hcr & _).
  exists l. split; [done|]. unfold str. rewrite (make_text r l El).
  set (h := header_ (snd (make r))).
  assert (Forall line_ok h) as Hh.
  { unfold h, make. simpl. apply Forall_map_erase, Forall_map_put; [|done].
    split; cbn; unfold CR; set_solver. }
  assert (length h <= length (header_ r) + 1)%nat as Hlen.
  { unfold h, make. cbn [snd header_].
    assert (forall k (m : list (bytes * bytes)), length (map_erase k m) <= length m)%nat as He.
    { intros k m. induction m as [|[k' v'] m IH]; simpl; [done|].
      repeat split_match; simpl; lia. }
    assert (forall k v (m : list (bytes * bytes)), length (map_put k v m) <= S (length m))%nat as Hp.
    { intros k v m. induction m as [|[k' v'] m IH]; simpl; [done|].
      repeat split_match; simpl; lia. }
    etransitivity; [apply He|]. rewrite Nat.add_1_r. apply Hp. }
  split; [apply read_head_lines|].
  - unfold head_lines. constructor; [done|]. apply Forall_app. split.
    + apply Forall_fmap. eapply Forall_impl; [exact Hh|]. intros [k v] [Hk Hv]. simpl in *.
      split; [by destruct k|]. rewrite elem_of_app, !elem_of_cons. unfold CR in *. set_solver.
    + apply Forall_singleton. split; [done|]. rewrite elem_of_app.
      intros [Hin|Hin]; [cbn in Hin; unfold CR in Hin; set_solver|].
      revert Hin. apply dec_no_char; [lia|done].
  - unfold head_lines. simpl. rewrite length_app, length_map. simpl. lia.
  - unfold h, make. simpl. split.
    + rewrite map_find_erase_ne by (done || by apply map_put_sorted).
      by rewrite map_find_put_eq.
    + apply map_find_erase_eq. by apply map_put_sorted.
Qed.

Definition response_demo : HttpResponse :=
  mkResponse 404 [(lit "Content-Length", lit "99"); (lit "X-A", lit "1")] (lit "gone").

Lemma response_framing_witness :
  exists l, read_head (S (length (header_ response_demo) + 4)) (fst (str response_demo)) =
    Some ([lit "HTTP/1.1 404 Not Found"; lit "Connection: close"; lit "X-A: 1";
           lit "Content-Length: 4"], lit "gone") /\ l = lit "HTTP/1.1 404 Not Found".
Proof.
  destruct (response_framing response_demo) as (l & Hl & Hr & _).
  - split; [vm_compute; repeat constructor|].
    repeat constructor; cbn; unfold CR; set_solver.
  - right. right. by left.
  - exists (lit "HTTP/1.1 404 Not Found").
    assert (l = lit "HTTP/1.1 404 Not Found") as -> by
      (change (status_line (code_ response_demo)) with (lit "HTTP/1.1 404 Not Found" ++ CRLF) in Hl;
       apply app_inv_tail in Hl; done).
    split; [exact Hr|reflexivity].
Defined.

(** [response(map)] does not build the form text: a map with at least two
    entries gives only its first pair, and a map with none or one entry makes
    the loop dereference [end()] (undefined behaviour). *)
Theorem response_form_behaviour resp r :
  match resp with
  | (k, v) :: _ :: _ => response_form resp r = Ret (response_text (k ++ lit "=" ++ v) [] r)
  | _ => response_form resp r = Undef
  end.
Proof. by destruct resp as [|[k v] [|kv resp]]. Qed.

(** A code outside the four the switch knows produces a message without a
    status line: the text starts with the header lines. *)
Theorem unknown_code_no_status r :
  ~ known_code (code_ r) ->
  exists h, fst (str r) = concat (map header_text h) ++ lit "Content-Length: " ++ dec (sz (body_ r))
                            ++ CRLF ++ CRLF ++ body_ r.
Proof.
  intros Hk. unfold known_code in Hk. unfold str, make. cbn [fst].
  assert (status_line (code_ r) = []) as ->; [|by eexists].
  unfold status_line. rewrite !(proj2 (Z.eqb_neq _ _)) by naive_solver. done.
Qed.
