(* ===== verification/HttpRouter.v ===== *)
(** * Routing: src/natsu/natsu_regex.h and src/natsu/http_router.cpp

    [PcreRegex] keeps compiled rules and matches a document against all of
    them; [HttpRouter] keeps one handler table and one rule set per method and
    calls the handler of the rule with the longest first match.  libpcre and
    [std::sort] are parameters: the compiled pattern type, [pcre_compile],
    [pcre_exec] and the sort with its contract. *)
From S2P Require Import Prelude StdString StdMap NatsuBase HttpRequest HttpResponse.

(** A handler gets the shared request and response; it leaves them in a new
    state and may have thrown. *)
Definition Handler : Type := HttpRequest * HttpResponse -> (HttpRequest * HttpResponse) * option exn.

(** Running client code that mutates the shared request and response. *)
Definition run_result : Type := (HttpRequest * HttpResponse) * option exn.

Record MatchResult : Type := mkMatch { name : bytes; value : list bytes }.

(** [MatchResultCompare]: longer first match first. *)
Definition first_len (m : MatchResult) : Z :=
  match value m with v :: _ => sz v | [] => 0 end.
Definition match_before (a b : MatchResult) : bool := first_len b <? first_len a.

(** What [pcre_exec] reports: the return code and the offset vector. *)
Record exec_result : Type := mkExec { rc : nat; vector_ : nat -> Z }.

Section Regex.
Context {pcre : Type}.
(** [pcre_compile(patten, PCRE_UTF8|PCRE_NO_AUTO_CAPTURE, ...)]. *)
Context (pcre_compile : bytes -> option pcre).
(** [pcre_exec(re, NULL, content, length, cur, PCRE_NOTEMPTY, ...)]; [None]
    is a negative return code. *)
Context (pcre_exec : pcre -> bytes -> Z -> option exec_result).
(** [std::sort(first, last, MatchResultCompare())]. *)
Context (std_sort : list MatchResult -> list MatchResult).

Record PcreRegex : Type := mkRegex { pcre_array_ : list pcre; patten_array_ : list bytes }.
Definition PcreRegex_new : PcreRegex := mkRegex [] [].

Definition add_rule (name patten : bytes) (r : PcreRegex) : bool * PcreRegex :=
  match pcre_compile (cstr patten) with
  | None => (false, r)
  | Some re => (true, mkRegex (pcre_array_ r ++ [re]) (patten_array_ r ++ [name]))
  end.

Definition regex_clear (r : PcreRegex) : PcreRegex := mkRegex [] [].

Definition BUF_SIZE : Z := 512.

(** One pass of the inner loop: copy group [j] into [buf[512]] and push the
    C string in it.  Without room for the terminator the copy or the read
    of [buf] leaves the array. *)
Definition copy_group (content : bytes) (v : nat -> Z) (j : nat) : outcome bytes :=
  let start := v (2 * j)%nat in
  let n := v (2 * j + 1)%nat - start in
  if (n <? 0) || (BUF_SIZE <=? n) then Undef
  else Ret (cstr (take (Z.to_nat n) (drop (Z.to_nat start) content))).

Fixpoint copy_groups (content : bytes) (v : nat -> Z) (j n : nat) : outcome (list bytes) :=
  match n with
  | O => Ret []
  | S n' =>
      s ← copy_group content v j;
      rest ← copy_groups content v (S j) n';
      Ret (s :: rest)
  end.

(** The [while] loop of one rule. *)
Fixpoint match_loop (fuel : nat) (re : pcre) (content : bytes) (cur : Z)
    (acc : list bytes) : outcome (list bytes) :=
  match fuel with
  | O => Fuel
  | S fuel' =>
      if cur <? sz content then
        match pcre_exec re content cur with
        | None => Ret acc
        | Some e =>
            vs ← copy_groups content (vector_ e) 0 (rc e);
            match_loop fuel' re content (vector_ e 1%nat) (acc ++ vs)
        end
      else Ret acc
  end.

Fixpoint match_rules (content : bytes) (rules : list (pcre * bytes)) : outcome (list MatchResult) :=
  match rules with
  | [] => Ret []
  | (re, nm) :: rules' =>
      vs ← match_loop (S (length content)) re content 0 [];
      rest ← match_rules content rules';
      Ret (match vs with [] => rest | _ :: _ => mkMatch nm vs :: rest end)
  end.

(** [PcreRegex::match]. *)
Definition regex_match (r : PcreRegex) (content : bytes) : outcome (list MatchResult) :=
  rs ← match_rules (cstr content) (combine (pcre_array_ r) (patten_array_ r));
  Ret (std_sort rs).

(** ** The router *)

Record HttpRouter : Type := mkRouter {
  handle_get_ : list (bytes * Handler);
  handle_post_ : list (bytes * Handler);
  regex_get_ : PcreRegex;
  regex_post_ : PcreRegex
}.
Definition HttpRouter_new : HttpRouter := mkRouter [] [] PcreRegex_new PcreRegex_new.

(** The regular expression of a pattern. *)
Definition pattern_regex (pattern : bytes) : outcome bytes :=
  r ← replace_all (lit "^" ++ pattern) (lit "*") (lit "\w*");
  r ← replace_all r (lit "+") (lit "\w+");
  replace_all r (lit "{") (lit "\w{").

Definition register_handler (pattern : bytes) (h : Handler) (m : Method) (t : HttpRouter)
    : outcome HttpRouter :=
  match m with
  | GET =>
      r ← pattern_regex pattern;
      Ret (mkRouter (map_put pattern h (handle_get_ t)) (handle_post_ t)
             (snd (add_rule pattern r (regex_get_ t))) (regex_post_ t))
  | POST =>
      r ← pattern_regex pattern;
      Ret (mkRouter (handle_get_ t) (map_put pattern h (handle_post_ t))
             (regex_get_ t) (snd (add_rule pattern r (regex_post_ t))))
  | _ => Ret t
  end.

(** [h[name](req, resp)]: an absent entry is a default-constructed
    [std::function], whose call throws [std::bad_function_call]. *)
Definition call_handler (h : list (bytes * Handler)) (nm : bytes) (s : HttpRequest * HttpResponse)
    : run_result :=
  match map_find nm h with
  | Some f => f s
  | None => (s, Some ExnBadFunctionCall)
  end.

(** [handle(h, regex, req, resp)]. *)
Definition handle_table (h : list (bytes * Handler)) (regex : PcreRegex)
    (s : HttpRequest * HttpResponse) : outcome run_result :=
  doc ← document (fst s);
  result ← regex_match regex doc;
  match result with
  | m :: _ =>
      match name m with
      | _ :: _ => Ret (call_handler h (name m) s)
      | [] => Ret ((fst s, response_code 404 (snd s)), None)
      end
  | [] => Ret ((fst s, response_code 404 (snd s)), None)
  end.

(** [handle(req, resp)]. *)
Definition handle (t : HttpRouter) (s : HttpRequest * HttpResponse) : outcome run_result :=
  m ← deref (method_ (fst s));
  match m with
  | GET => handle_table (handle_get_ t) (regex_get_ t) s
  | POST => handle_table (handle_post_ t) (regex_post_ t) s
  | _ => Ret (s, None)
  end.
End Regex.
Arguments PcreRegex pcre : clear implicits.
Arguments HttpRouter pcre : clear implicits.

(** ** Patterns *)

Definition star_expand (c : ascii) : bytes :=
  if Ascii.eqb c "*" then lit "\w*" else if Ascii.eqb c "+" then lit "\w+"
  else if Ascii.eqb c "{" then lit "\w{" else [c].

Lemma subst_chars_length cs r s :
  (length (subst_chars cs r s) <= (1 + length r) * length s)%nat.
Proof.
  unfold subst_chars. induction s as [|c s IH]; simpl; [lia|]. rewrite length_app.
  destruct (char_in c cs); simpl; lia.
Qed.

(** The three substitutions in sequence act on each character once: the text
    one of them inserts is changed by a later one only at [*] and [+], which
    the first two have consumed. *)
Lemma subst_three s :
  subst_chars (lit "{") (lit "\w{") (subst_chars (lit "+") (lit "\w+") (subst_chars (lit "*") (lit "\w*") s))
  = concat (map star_expand s).
Proof.
  induction s as [|c s IH]; [done|].
  change (c :: s) with ([c] ++ s). rewrite !subst_chars_app, IH, map_app, concat_app. f_equal.
  unfold subst_chars, char_in, star_expand. simpl.
  destruct (Ascii.eqb_spec c "*"%char) as [->|]; [done|]. simpl.
  destruct (Ascii.eqb_spec c "+"%char) as [->|]; [done|]. simpl.
  destruct (Ascii.eqb_spec c "{"%char) as [->|]; done.
Qed.

(** The regular expression of a pattern is the pattern anchored with [^],
    each [*], [+] and [{] preceded by [\w]; building it never fails. *)
Theorem pattern_regex_correct pattern :
  sz pattern < 2 ^ 32 ->
  pattern_regex pattern = Ret (lit "^" ++ concat (map star_expand pattern)).
Proof.
  intros Hsz. unfold pattern_regex.
  pose proof (subst_chars_length (lit "*") (lit "\w*") (lit "^" ++ pattern)) as H1.
  pose proof (subst_chars_length (lit "+") (lit "\w+")
                (subst_chars (lit "*") (lit "\w*") (lit "^" ++ pattern))) as H2.
  rewrite !length_app in *. cbn [length lit String.list_ascii_of_string] in *.
  rewrite replace_all_subst by (rewrite length_app; unfold npos; simpl; lia). rewrite outcome_bind_ret.
  rewrite replace_all_subst by (unfold npos; lia). rewrite outcome_bind_ret.
  rewrite replace_all_subst by (unfold npos; lia). by rewrite subst_three.
Qed.

Lemma pattern_regex_correct_witness :
  pattern_regex (lit "/user/*/{2}") = Ret (lit "^/user/\w*/\w{2}").
Proof. apply (pattern_regex_correct (lit "/user/*/{2}")). vm_compute. reflexivity. Defined.

(** ** Dispatch *)

Section Dispatch.
Context {pcre : Type} (pcre_compile : bytes -> option pcre).
Context (pcre_exec : pcre -> bytes -> Z -> option exec_result).
Context (std_sort : list MatchResult -> list MatchResult).

(** The contract of [std::sort]: a permutation in comparator order. *)
Hypothesis std_sort_perm : forall l, std_sort l ≡ₚ l.
Hypothesis std_sort_head : forall l m rest,
  std_sort l = m :: rest -> Forall (fun x => match_before x m = false) rest.
(** pcreapi(3), with [PCRE_NOTEMPTY]: the match lies after the start offset,
    is not empty and is inside the subject. *)
Hypothesis pcre_exec_range : forall re content cur e,
  0 <= cur -> pcre_exec re content cur = Some e ->
  cur <= vector_ e 0%nat < vector_ e 1%nat /\ vector_ e 1%nat <= sz content.

(** Every rule has a handler. *)
Definition table_ok (h : list (bytes * Handler)) (r : PcreRegex pcre) : Prop :=
  map_sorted h /\ Forall (fun nm => is_Some (map_find nm h)) (patten_array_ r) /\
  length (pcre_array_ r) = length (patten_array_ r).
Definition router_ok (t : HttpRouter pcre) : Prop :=
  table_ok (handle_get_ t) (regex_get_ t) /\ table_ok (handle_post_ t) (regex_post_ t).

Lemma table_ok_register pattern h r tbl rg :
  table_ok tbl rg -> table_ok (map_put pattern h tbl) (snd (add_rule pcre_compile pattern r rg)).
Proof.
  intros (Hs & Hall & Hlen). unfold add_rule.
  assert (Forall (fun nm => is_Some (map_find nm (map_put pattern h tbl))) (patten_array_ rg)) as Hall'.
  { eapply Forall_impl; [exact Hall|]. intros nm [f Hf].
    destruct (decide (pattern = nm)) as [->|Hne].
    - rewrite map_find_put_eq. eauto.
    - rewrite map_find_put_ne by done. eauto. }
  split; [by apply map_put_sorted|].
  destruct (pcre_compile (cstr r)) as [re|]; simpl; [|done]. split.
  - apply Forall_app. split; [done|]. apply Forall_singleton. rewrite map_find_put_eq. eauto.
  - rewrite !length_app. simpl. lia.
Qed.

(** Registering handlers keeps the router consistent: in each method's
    table every rule has a handler, whatever patterns are registered and
    whether or not they compile. *)
Theorem register_keeps_ok pattern h m t t' :
  router_ok t -> register_handler pcre_compile pattern h m t = Ret t' -> router_ok t'.
Proof.
  intros [Hg Hp]. unfold register_handler.
  destruct m; try (intros [= <-]; by split).
  - intros (r & _ & [= <-])%outcome_bind_inv. split; [by apply table_ok_register|done].
  - intros (r & _ & [= <-])%outcome_bind_inv. split; [done|by apply table_ok_register].
Qed.

(** ** Matching *)

(** pcreapi(3): the offsets of the groups of a match lie in the subject, or
    both are -1. *)
Hypothesis pcre_exec_groups : forall re content cur e j,
  0 <= cur -> pcre_exec re content cur = Some e -> (j < rc e)%nat ->
  0 <= vector_ e (2 * j + 1)%nat - vector_ e (2 * j)%nat <= sz content.

Lemma copy_groups_ret content v j n :
  (forall i, (i < j + n)%nat -> 0 <= v (2 * i + 1)%nat - v (2 * i)%nat < BUF_SIZE) ->
  returns (copy_groups content v j n).
Proof.
  revert j. induction n as [|n IH]; intros j Hv; cbn [copy_groups]; [by eexists|].
  apply returns_bind.
  - unfold copy_group. specialize (Hv j ltac:(lia)).
    rewrite (proj2 (Z.ltb_ge _ 0)), (proj2 (Z.leb_gt _ _)) by lia. by eexists.
  - intros a _. apply returns_bind; [|intros; by eexists]. apply IH. intros i Hi. apply Hv. lia.
Qed.

Lemma match_loop_ret f re content cur acc :
  0 <= cur <= sz content -> sz content - cur < Z.of_nat f -> sz content < BUF_SIZE ->
  returns (match_loop pcre_exec f re content cur acc).
Proof.
  revert cur acc. induction f as [|f IH]; intros cur acc Hc Hf Hb; [lia|]. cbn [match_loop].
  destruct (cur <? sz content); [|by eexists].
  destruct (pcre_exec re content cur) as [e|] eqn:E; [|by eexists].
  destruct (pcre_exec_range _ _ _ _ (proj1 Hc) E) as [H0 H1].
  apply returns_bind.
  - apply copy_groups_ret. intros i Hi.
    pose proof (pcre_exec_groups _ _ _ _ i (proj1 Hc) E Hi). lia.
  - intros vs _. apply IH; lia.
Qed.

Lemma match_rules_ret content rules :
  sz content < BUF_SIZE -> returns (match_rules pcre_exec content rules).
Proof.
  intros Hb. induction rules as [|[re nm] rules IH]; cbn [match_rules]; [by eexists|].
  apply returns_bind; [apply match_loop_ret; lia|]. intros vs _.
  apply returns_bind; [done|]. intros; by eexists.
Qed.

Lemma match_rules_names content rules rs m :
  match_rules pcre_exec content rules = Ret rs -> m ∈ rs -> name m ∈ map snd rules.
Proof.
  revert rs. induction rules as [|[re nm] rules IH]; intros rs; cbn [match_rules].
  { intros [= <-] Hin. by apply not_elem_of_nil in Hin. }
  intros (vs & _ & H)%outcome_bind_inv. apply outcome_bind_inv in H as (rest & Hr & [= <-]).
  cbn [map snd]. rewrite elem_of_cons. destruct vs as [|v vs].
  - intros Hin. right. by eapply IH.
  - intros [->|Hin]%elem_of_cons; [by left|]. right. by eapply IH.
Qed.

Lemma combine_snd {A B} (l : list A) (k : list B) : length l = length k -> map snd (combine l k) = k.
Proof. revert k. induction l as [|x l IH]; intros [|y k]; simpl; try done. intros. f_equal. auto. Qed.

(** C34: the table of a method that has one, GET or POST, dispatches correctly a
    document shorter than the 512-byte match buffer: matching terminates without
    undefined behaviour, and either no rule matches and the response becomes a
    404, or the handler called is the registered handler of a rule whose first
    match is the longest.  ([handle] leaves a request of another method
    unanswered, and a longer match is [long_match_overflows].) *)
Theorem dispatch_longest tbl rg s doc :
  table_ok tbl rg -> Forall (fun nm => nm <> []) (patten_array_ rg) ->
  document (fst s) = Ret doc -> sz (cstr doc) < BUF_SIZE ->
  exists rs,
    match_rules pcre_exec (cstr doc) (combine (pcre_array_ rg) (patten_array_ rg)) = Ret rs /\
    match rs with
    | [] => handle_table pcre_exec std_sort tbl rg s =
              Ret ((fst s, response_code 404 (snd s)), None)
    | _ => exists m f, m ∈ rs /\ (forall m', m' ∈ rs -> first_len m' <= first_len m) /\
             map_find (name m) tbl = Some f /\
             handle_table pcre_exec std_sort tbl rg s = Ret (f s)
    end.
Proof.
  intros (Hs & Hall & Hlen) Hne Hdoc Hb.
  destruct (match_rules_ret (cstr doc) (combine (pcre_array_ rg) (patten_array_ rg)) Hb) as [rs Hrs].
  exists rs. split; [done|]. unfold handle_table, regex_match.
  rewrite Hdoc, outcome_bind_ret, Hrs, outcome_bind_ret, outcome_bind_ret.
  destruct (std_sort rs) as [|m rest] eqn:Es.
  - assert (rs = []) as ->; [|done].
    apply Permutation_nil. by rewrite <- (std_sort_perm rs), Es.
  - assert (m ∈ rs) as Hm.
    { rewrite <- (std_sort_perm rs), Es. apply list_elem_of_here. }
    assert (name m ∈ patten_array_ rg) as Hn.
    { erewrite <- (combine_snd (pcre_array_ rg) (patten_array_ rg)) by done.
      by eapply match_rules_names. }
    assert (exists f, map_find (name m) tbl = Some f) as [f Hf].
    { rewrite Forall_forall in Hall. by apply Hall. }
    rewrite Forall_forall in Hne. specialize (Hne _ Hn).
    destruct rs as [|m0 rs0] eqn:Ers; [by apply not_elem_of_nil in Hm|]. rewrite <- Ers in *.
    exists m, f. split; [done|]. split; [|split; [done|]].
    + intros m' Hm'. rewrite <- (std_sort_perm rs), Es in Hm'.
      apply elem_of_cons in Hm' as [-> |Hm']; [lia|].
      pose proof (std_sort_head _ _ _ Es) as Hh. rewrite Forall_forall in Hh.
      specialize (Hh _ Hm'). unfold match_before in Hh. zbool. done.
    + unfold call_handler. rewrite Hf. by destruct (name m).
Qed.
End Dispatch.

(** ** A concrete matcher for the witnesses

    A pattern without operators after the anchor: it matches its own text at
    the start of the subject. *)

Definition lit_compile (p : bytes) : option bytes :=
  match p with c :: p' => if Ascii.eqb c "^" then Some p' else None | [] => None end.
Definition lit_exec (re content : bytes) (cur : Z) : option exec_result :=
  match re with
  | [] => None
  | _ => if (cur =? 0) && starts_with re content
         then Some (mkExec 1 (fun i => if Nat.eqb i 1 then sz re else 0)) else None
  end.

(** Insertion sort, an implementation of the sort's contract. *)
Fixpoint insert_match (m : MatchResult) (l : list MatchResult) : list MatchResult :=
  match l with
  | [] => [m]
  | x :: l' => if match_before x m then x :: insert_match m l' else m :: l
  end.
Definition isort (l : list MatchResult) : list MatchResult := foldr insert_match [] l.

Lemma insert_match_perm m l : insert_match m l ≡ₚ m :: l.
Proof.
  induction l as [|x l IH]; simpl; [done|]. destruct (match_before x m); [|done].
  rewrite IH. apply Permutation_swap.
Qed.

Lemma isort_perm l : isort l ≡ₚ l.
Proof. induction l as [|x l IH]; simpl; [done|]. by rewrite insert_match_perm, IH. Qed.

Fixpoint matches_sorted (l : list MatchResult) : Prop :=
  match l with
  | [] => True
  | x :: l' => Forall (fun y => match_before y x = false) l' /\ matches_sorted l'
  end.

Lemma insert_match_sorted m l : matches_sorted l -> matches_sorted (insert_match m l).
Proof.
  induction l as [|x l IH]; simpl; [by repeat constructor|]. intros [Hx Hl].
  destruct (match_before x m) eqn:E; simpl.
  - split; [|by apply IH]. rewrite insert_match_perm. constructor; [|done].
    unfold match_before in *. zbool. apply Z.ltb_ge. lia.
  - split; [|done]. constructor; [done|]. eapply Forall_impl; [exact Hx|].
    intros y. simpl. unfold match_before in *. intros. zbool. apply Z.ltb_ge. lia.
Qed.

Lemma isort_sorted l : matches_sorted (isort l).
Proof. induction l; simpl; [done|]. by apply insert_match_sorted. Qed.

Lemma isort_head l m rest : isort l = m :: rest -> Forall (fun x => match_before x m = false) rest.
Proof. intros E. pose proof (isort_sorted l) as H. rewrite E in H. apply H. Qed.

Lemma lit_exec_range re content cur e :
  0 <= cur -> lit_exec re content cur = Some e ->
  cur <= vector_ e 0%nat < vector_ e 1%nat /\ vector_ e 1%nat <= sz content.
Proof.
  intros Hc. unfold lit_exec. destruct re as [|c re]; [done|].
  destruct (cur =? 0) eqn:E; [|done]. zbool. subst.
  destruct (starts_with (c :: re) content) eqn:Es; [|done].
  intros [= <-]. apply starts_with_spec in Es as [r ->]. rewrite length_app.
  cbn [vector_ Nat.eqb]. simpl. lia.
Qed.

Lemma lit_exec_groups re content cur e j :
  0 <= cur -> lit_exec re content cur = Some e -> (j < rc e)%nat ->
  0 <= vector_ e (2 * j + 1)%nat - vector_ e (2 * j)%nat <= sz content.
Proof.
  intros Hc He Hj. assert (rc e = 1%nat) as Hrc.
  { unfold lit_exec in He. destruct re; [done|]. destruct (_ && _); [|done]. by injection He as <-. }
  assert (j = 0%nat) as -> by lia.
  pose proof (lit_exec_range _ _ _ _ Hc He). change (2 * 0 + 1)%nat with 1%nat.
  change (2 * 0)%nat with 0%nat. lia.
Qed.

Definition demo_handler (n : Z) : Handler := fun s => ((fst s, response_code n (snd s)), None).
Definition demo_table : list (bytes * Handler) :=
  [(lit "/a", demo_handler 1); (lit "/a/b", demo_handler 2)].
Definition demo_regex : PcreRegex bytes := mkRegex [lit "/a"; lit "/a/b"] [lit "/a"; lit "/a/b"].
Definition demo_request : HttpRequest * HttpResponse :=
  (mkRequest (Some GET) (lit "/a/b/c?x=1") [] [], HttpResponse_new).

Lemma register_keeps_ok_witness :
  exists t', router_ok t' /\
    register_handler lit_compile (lit "/a") (demo_handler 1) GET HttpRouter_new = Ret t'.
Proof.
  eexists. split; [|vm_compute; reflexivity].
  eapply (register_keeps_ok lit_compile (lit "/a") (demo_handler 1) GET HttpRouter_new).
  - repeat split; constructor.
  - vm_compute. reflexivity.
Defined.

Lemma dispatch_longest_witness :
  exists rs, match_rules lit_exec (lit "/a/b/c") (combine (pcre_array_ demo_regex) (patten_array_ demo_regex)) = Ret rs /\
    length rs = 2%nat /\
    handle_table lit_exec isort demo_table demo_regex demo_request =
      Ret ((fst demo_request, response_code 2 (snd demo_request)), None).
Proof.
  destruct (dispatch_longest lit_exec isort isort_perm isort_head lit_exec_range lit_exec_groups
    demo_table demo_regex demo_request (lit "/a/b/c")) as (rs & Hrs & _).
  - split; [vm_compute; repeat constructor|]. split; [|reflexivity].
    repeat constructor; vm_compute; eauto.
  - repeat constructor; discriminate.
  - vm_compute. reflexivity.
  - vm_compute. reflexivity.
  - exists rs. split; [exact Hrs|]. split; [|vm_compute; reflexivity].
    vm_compute in Hrs. injection Hrs as <-. reflexivity.
Defined.

(** A match of 512 bytes or more overruns the fixed buffer [char buf[512]]
    in [PcreRegex::match]: copying it is undefined behaviour, for every rule,
    while the request parser accepts request lines of up to 1024 bytes. *)
Theorem long_match_overflows {pcre} (pcre_exec : pcre -> bytes -> Z -> option exec_result)
    re nm content rules e :
  0 < sz content -> pcre_exec re content 0 = Some e -> (0 < rc e)%nat ->
  BUF_SIZE <= vector_ e 1%nat - vector_ e 0%nat ->
  match_rules pcre_exec content ((re, nm) :: rules) = Undef.
Proof.
  intros Hc He Hrc Hlong. cbn [match_rules match_loop].
  rewrite (proj2 (Z.ltb_lt _ _)) by lia. rewrite He.
  destruct (rc e) as [|n] eqn:En; [lia|]. cbn [copy_groups].
  unfold copy_group. change (2 * 0 + 1)%nat with 1%nat. change (2 * 0)%nat with 0%nat.
  rewrite (proj2 (Z.leb_le _ _)) by lia. rewrite orb_true_r. done.
Qed.

Lemma long_match_overflows_witness :
  match_rules lit_exec (replicate 600 "a"%char) [(replicate 600 "a"%char, lit "p")] = Undef.
Proof.
  eapply (long_match_overflows lit_exec (replicate 600 "a"%char) (lit "p") (replicate 600 "a"%char) []).
  - vm_compute. reflexivity.
  - vm_compute. reflexivity.
  - vm_compute. lia.
  - vm_compute. discriminate.
Defined.
