(* ===== verification/NatsuApp.v ===== *)
(** * The HTTP server: src/inc/natsu_app.h and src/natsu/natsu_app.cpp

    [NatsuApp::wait] accepts connections and starts a coroutine per socket;
    [NatsuApp::handle] reads, parses, routes and answers.  The operating system
    is an input: the results of the calls of [read], [write] and [accept] in
    order; the output is the trace of calls made on the socket and how the
    coroutine stands.  A run that has used up the results it was given is
    blocked in the next call. *)
From S2P Require Import Prelude StdString StdMap NatsuBase HttpRequest HttpParser HttpParserFacts HttpResponse HttpRouter.

(** Calls on the connection's socket. *)
Inductive io : Type := IoRead | IoWrite (data : bytes) | IoClose.

#[export] Instance io_eq_dec : EqDecision io.
Proof. solve_decision. Defined.

(** Results of [read]: -1 with [EAGAIN] or [EINTR], -1 with another error, 0,
    or [n > 0] bytes. *)
Inductive read_result : Type := RdRetry | RdError | RdEof | RdData (data : bytes).

(** How a coroutine stands: it returned, or it is blocked in a call. *)
Inductive status : Type := Returned | Blocked.

(** [class Inject]: the application's hooks. *)
Record Inject : Type := mkInject { before : Handler; after : Handler; fail : Handler }.

(** The hooks of the base class do nothing. *)
Definition Inject_default : Inject :=
  mkInject (fun s => (s, None)) (fun s => (s, None)) (fun s => (s, None)).

Section App.
Context {pcre : Type}.
Context (pcre_exec : pcre -> bytes -> Z -> option exec_result).
Context (std_sort : list MatchResult -> list MatchResult).
Context (inject_ : option Inject) (router : HttpRouter pcre).

(** The [try] block. An exception of the hooks, of the router or of the
    handler is caught with the request and response as they were left. *)
Definition try_block (s : HttpRequest * HttpResponse) : outcome run_result :=
  let '(s1, e1) := match inject_ with Some i => before i s | None => (s, None) end in
  match e1 with
  | Some e => Ret (s1, Some e)
  | None =>
      if empty (snd s1) then
        match handle pcre_exec std_sort router s1 with
        | Ret (s2, Some e) => Ret (s2, Some e)
        | Ret (s2, None) =>
            Ret (match inject_ with Some i => after i s2 | None => (s2, None) end)
        | Throw e => Ret (s1, Some e)
        | Undef => Undef
        | Fuel => Fuel
        end
      else Ret (s1, None)
  end.

(** The [try] block with its [catch(...)]: the response to send. *)
Definition make_response (s : HttpRequest * HttpResponse) : outcome (HttpRequest * HttpResponse) :=
  r ← try_block s;
  match r with
  | (s', None) => Ret s'
  | (s', Some _) =>
      match inject_ with
      | Some i =>
          match fail i s' with
          | (s'', None) => Ret s''
          | (_, Some e) => Throw e
          end
      | None => Ret (fst s', response_code 500 (snd s'))
      end
  end.

(** The write loop: [writes] are the results of [write]; [None] is -1. *)
Fixpoint write_loop (buf : bytes) (pos : nat) (writes : list (option nat)) : list io * bool :=
  if (pos <? length buf)%nat then
    match writes with
    | [] => ([], false)
    | None :: _ => ([IoWrite (drop pos buf)], true)
    | Some n :: writes' =>
        let '(t, fin) := write_loop buf (pos + n) writes' in
        (IoWrite (drop pos buf) :: t, fin)
    end
  else ([], true).

(** [NatsuApp::handle]. [writes_of] gives the results of the writes of each
    response in turn. *)
Fixpoint handle_conn (reads : list read_result) (writes_of : list (list (option nat)))
    (p : HttpParser) : list io * outcome status :=
  match reads with
  | [] => ([IoRead], Ret Blocked)
  | RdRetry :: reads' =>
      let '(t, o) := handle_conn reads' writes_of p in (IoRead :: t, o)
  | RdError :: _ => ([IoRead; IoClose], Ret Returned)
  | RdEof :: _ => ([IoRead; IoClose], Ret Returned)
  | RdData d :: reads' =>
      match parse d p with
      | Throw e => ([IoRead], Throw e)
      | Undef => ([IoRead], Undef)
      | Fuel => ([IoRead], Fuel)
      | Ret (failure, p') =>
          let '(t, o) := handle_conn reads' writes_of p' in (IoRead :: IoClose :: t, o)
      | Ret (indeterminate, p') =>
          let '(t, o) := handle_conn reads' writes_of p' in (IoRead :: t, o)
      | Ret (success, p') =>
          match req_ p' with
          | None => ([IoRead], Undef)
          | Some req =>
              match make_response (req, HttpResponse_new) with
              | Throw e => ([IoRead], Throw e)
              | Undef => ([IoRead], Undef)
              | Fuel => ([IoRead], Fuel)
              | Ret (req', resp) =>
                  let p'' := set_req (Some req') p' in
                  let '(w, fin) := write_loop (fst (str resp)) 0 (hd [] writes_of) in
                  if fin then
                    let '(t, o) := handle_conn reads' (tl writes_of) p'' in
                    (IoRead :: w ++ IoClose :: t, o)
                  else (IoRead :: w, Ret Blocked)
              end
          end
      end
  end.
End App.

(** ** [NatsuApp::wait]: the accept loop *)

(** Results of [accept]: [EAGAIN] or [EINTR], another error, a socket. *)
Inductive accept_result : Type := AcRetry | AcError | AcFd (fd : Z).
Inductive listen_event : Type := EvSpawn (fd : Z) | EvCloseListener.

Fixpoint accept_loop (accepts : list accept_result) : list listen_event * status :=
  match accepts with
  | [] => ([], Blocked)
  | AcRetry :: rest => accept_loop rest
  | AcError :: _ => ([EvCloseListener], Returned)
  | AcFd fd :: rest => let '(t, s) := accept_loop rest in (EvSpawn fd :: t, s)
  end.

Definition wait (bind_ok listen_ok : bool) (accepts : list accept_result) : list listen_event * status :=
  if negb bind_ok then ([EvCloseListener], Returned)
  else if negb listen_ok then ([EvCloseListener], Returned)
  else accept_loop accepts.

(** ** Facts *)

(** What reached the peer: each [write] of [n] bytes sent the first [n]. *)
Fixpoint sent (buf : bytes) (pos : nat) (writes : list (option nat)) : bytes :=
  if (pos <? length buf)%nat then
    match writes with
    | Some n :: writes' => take n (drop pos buf) ++ sent buf (pos + n) writes'
    | _ => []
    end
  else [].

(** Writes that take all the bytes, in pieces of any sizes, send them all. *)
Lemma sent_complete buf ns :
  forall pos, (pos + sum_list ns = length buf)%nat ->
  snd (write_loop buf pos (map Some ns)) = true /\ sent buf pos (map Some ns) = drop pos buf.
Proof.
  induction ns as [|n ns IH]; intros pos Hp; cbn [write_loop sent map]; simpl in Hp.
  - rewrite (proj2 (Nat.ltb_ge _ _)) by lia. by rewrite drop_ge by lia.
  - destruct (pos <? length buf)%nat eqn:E; zbool; [|by rewrite drop_ge].
    destruct (IH (pos + n)%nat) as [H1 H2]; [lia|].
    destruct (write_loop buf (pos + n) _) as [t fin]. split; [done|].
    rewrite H2, <- drop_drop. apply take_drop.
Qed.

Section AppFacts.
Context {pcre : Type}.
Context (pcre_exec : pcre -> bytes -> Z -> option exec_result).
Context (std_sort : list MatchResult -> list MatchResult).
Context (inject_ : option Inject) (router : HttpRouter pcre).

Local Abbreviation conn := (handle_conn pcre_exec std_sort inject_ router).

(** One read that completes a request, and the writes of its response. *)
Lemma conn_answers d p p' req s' resp reads' ns ws :
  parse d p = Ret (success, p') -> req_ p' = Some req ->
  make_response pcre_exec std_sort inject_ router (req, HttpResponse_new) = Ret (s', resp) ->
  sum_list ns = length (fst (str resp)) ->
  conn (RdData d :: reads') (map Some ns :: ws) p =
    (IoRead :: fst (write_loop (fst (str resp)) 0 (map Some ns)) ++
       IoClose :: fst (conn reads' ws (set_req (Some s') p')),
     snd (conn reads' ws (set_req (Some s') p'))).
Proof.
  intros Hp Hr Hm Hn. cbn [handle_conn hd tl]. rewrite Hp, Hr, Hm.
  destruct (sent_complete (fst (str resp)) ns 0) as [Hfin _]; [done|].
  destruct (write_loop _ 0 _) as [tw fin]. simpl in Hfin. subst fin.
  by destruct (conn reads' ws _).
Qed.

(** A request that arrives in any pieces is read completely, then answered. *)
Lemma conn_serves m path hs body pieces a p s' resp reads' ns ws :
  path_ok path -> Forall header_ok hs -> announced (header_map hs []) body -> lines_short m path hs ->
  sz (head_text m path hs ++ body) < 2 ^ 64 ->
  parse a reset = Ret (indeterminate, p) -> pieces <> [] -> Forall (fun d => d <> []) pieces ->
  a ++ concat pieces = head_text m path hs ++ body ->
  make_response pcre_exec std_sort inject_ router
    (mkRequest (Some m) path (header_map hs []) body, HttpResponse_new) = Ret (s', resp) ->
  sum_list ns = length (fst (str resp)) ->
  let r := conn reads' ws (mkParser fn_body_with_length (sz body) (Some s') []) in
  conn (map RdData pieces ++ reads') (map Some ns :: ws) p =
    (replicate (length pieces) IoRead ++ fst (write_loop (fst (str resp)) 0 (map Some ns)) ++ IoClose :: fst r, snd r).
Proof.
  intros Hp Hhs Ha Hl Hsz Hpa Hne Hall E Hm Hn. revert a p Hpa Hne E.
  induction Hall as [|d pieces Hd Hall IH]; intros a p Hpa Hne E; [done|]. clear Hne.
  cbn [concat] in E. rewrite app_assoc in E. cbn [map app length replicate].
  assert (parse d p = parse (a ++ d) reset) as Hres.
  { apply parse_resumes; [done|]. rewrite <- E, length_app in Hsz. lia. }
  destruct pieces as [|d' pieces].
  - cbn [concat] in E. rewrite app_nil_r in E. cbn [map app replicate].
    eapply (conn_answers d p (mkParser fn_body_with_length (sz body)
      (Some (mkRequest (Some m) path (header_map hs []) body)) []) _ s' resp); [|reflexivity|done|done].
    rewrite Hres, E. rewrite <- (app_nil_r body) at 1. by apply parse_request.
  - destruct (request_partial m path hs body (a ++ d) (concat (d' :: pieces))) as [p' Hp'];
      [done..| |done|].
    { apply Forall_cons in Hall as [Hd' _]. simpl. by destruct d'. }
    specialize (IH _ _ Hp' ltac:(done) E). cbn [handle_conn]. rewrite Hres, Hp'.
    by rewrite IH.
Qed.

(** A request is served.  A request whose text arrives on a new connection in
    any pieces is read to its end and answered with exactly the text of the
    response that the hooks and the router produce for it: all of its bytes
    are sent, in order and once, however the writes split them, and then the
    socket is closed. *)
Theorem request_served m path hs body pieces s' resp ns :
  path_ok path -> Forall header_ok hs -> announced (header_map hs []) body -> lines_short m path hs ->
  sz (head_text m path hs ++ body) < 2 ^ 64 ->
  concat pieces = head_text m path hs ++ body -> Forall (fun d => d <> []) pieces ->
  make_response pcre_exec std_sort inject_ router
    (mkRequest (Some m) path (header_map hs []) body, HttpResponse_new) = Ret (s', resp) ->
  sum_list ns = length (fst (str resp)) ->
  conn (map RdData pieces) [map Some ns] reset =
    (replicate (length pieces) IoRead ++ fst (write_loop (fst (str resp)) 0 (map Some ns)) ++ [IoClose; IoRead],
     Ret Blocked) /\
  sent (fst (str resp)) 0 (map Some ns) = fst (str resp).
Proof.
  intros Hp Hhs Ha Hl Hsz E Hall Hm Hn. split; [|by apply (sent_complete _ _ 0)].
  rewrite <- (app_nil_r (map RdData pieces)).
  rewrite (conn_serves m path hs body pieces [] reset s' resp [] ns []); try done.
  intros ->. simpl in E. symmetry in E. apply app_nil in E as [E _]. unfold head_text in E. by destruct m.
Qed.

(** What a client sees of a response without hooks: the status line 500. *)
Definition internal_error (s : bytes) : Prop :=
  exists rest, s = lit "HTTP/1.1 500 Internal Server Error" ++ CRLF ++ rest.

(** C36: an exception thrown by a hook, the router or a handler is answered.  The
    read that completes the request is followed by the writes of a whole
    response and the close: the response is the one the [fail] hook made from
    what was left, or without hooks one whose status line says 500. *)
Theorem exception_answered d p p' req s' e reads' ns ws :
  parse d p = Ret (success, p') -> req_ p' = Some req ->
  try_block pcre_exec std_sort inject_ router (req, HttpResponse_new) = Ret (s', Some e) ->
  (forall i, inject_ = Some i -> snd (fail i s') = None) ->
  let s2 := match inject_ with Some i => fst (fail i s') | None => (fst s', response_code 500 (snd s')) end in
  sum_list ns = length (fst (str (snd s2))) ->
  let r := conn reads' ws (set_req (Some (fst s2)) p') in
  conn (RdData d :: reads') (map Some ns :: ws) p =
    (IoRead :: fst (write_loop (fst (str (snd s2))) 0 (map Some ns)) ++ IoClose :: fst r, snd r) /\
  sent (fst (str (snd s2))) 0 (map Some ns) = fst (str (snd s2)) /\
  (inject_ = None -> internal_error (fst (str (snd s2)))).
Proof.
  intros Hp Hr Ht Hf s2 Hn r. split_and!; [|by apply (sent_complete _ _ 0)|].
  - eapply conn_answers; [done|done| |done]. unfold make_response. rewrite Ht, outcome_bind_ret.
    unfold s2. destruct inject_ as [i|]; [|done].
    specialize (Hf i eq_refl). destruct (fail i s') as [[req' resp] [e'|]]; [done|]. done.
  - intros Hi. unfold s2. rewrite Hi. by eexists.
Qed.

(** A response filled in by the [before] hook is sent as it is: neither
    the router nor the [after] hook runs. *)
Theorem before_short_circuits i s s1 :
  inject_ = Some i -> before i s = (s1, None) -> empty (snd s1) = false ->
  make_response pcre_exec std_sort inject_ router s = Ret s1.
Proof.
  intros Hi Hb He. unfold make_response, try_block. rewrite Hi, Hb, He. done.
Qed.

Lemma conn_starts_reading reads ws p : exists t, fst (conn reads ws p) = IoRead :: t.
Proof.
  destruct reads as [|[| | |d] reads]; cbn [handle_conn]; try (by eexists).
  - destruct (conn reads ws p). by eexists.
  - destruct (parse d p) as [[v p']| | |]; try (by eexists).
    destruct v; [|destruct (conn reads ws p'); by eexists..].
    destruct (req_ p') as [req|]; [|by eexists].
    destruct (make_response _ _ _ _ _) as [[req' resp]| | |]; try (by eexists).
    destruct (write_loop _ _ _) as [w [|]]; [|by eexists].
    destruct (conn reads _ _). by eexists.
Qed.

(** The read returned bytes that end the exchange: a refused request, or a
    request that was answered. *)
Inductive exchange_ends (d : bytes) (ws : list (list (option nat))) (p : HttpParser) : Prop :=
| ends_refused p' : parse d p = Ret (failure, p') -> exchange_ends d ws p
| ends_answered p' req s' resp :
    parse d p = Ret (success, p') -> req_ p' = Some req ->
    make_response pcre_exec std_sort inject_ router (req, HttpResponse_new) = Ret (s', resp) ->
    snd (write_loop (fst (str resp)) 0 (hd [] ws)) = true ->
    exchange_ends d ws p.

(** [handle] does not leave its loop after it has answered or refused a
    request: whatever comes next, it calls [read] again on the descriptor it
    has just closed; when that read fails (as it does on a closed
    descriptor) the descriptor is closed a second time. *)
Theorem reads_after_close d ws p reads' :
  exchange_ends d ws p ->
  (exists pre t, fst (conn (RdData d :: reads') ws p) = pre ++ IoClose :: IoRead :: t) /\
  (exists pre, conn (RdData d :: RdError :: reads') ws p =
                 (pre ++ [IoClose; IoRead; IoClose], Ret Returned)).
Proof.
  intros [p' Hp|p' req s' resp Hp Hr Hm Hw]; split.
  - cbn [handle_conn]. rewrite Hp. destruct (conn_starts_reading reads' ws p') as [t Ht].
    destruct (conn reads' ws p') as [t' o]. simpl in Ht. subst. by exists [IoRead], t.
  - exists [IoRead]. cbn [handle_conn]. by rewrite Hp.
  - cbn [handle_conn]. rewrite Hp, Hr, Hm. destruct (write_loop _ _ _) as [w fin]. simpl in Hw.
    subst fin. destruct (conn_starts_reading reads' (tl ws) (set_req (Some s') p')) as [t Ht].
    destruct (conn reads' _ _) as [t' o]. simpl in Ht. subst. by exists (IoRead :: w), t.
  - cbn [handle_conn]. rewrite Hp, Hr, Hm. destruct (write_loop _ _ _) as [w fin]. simpl in Hw.
    subst fin. by exists (IoRead :: w).
Qed.

(** A chunk size that makes the parser throw is not answered: the
    exception leaves [handle] (the call of [parse] is outside the [try]
    block) and the socket is left open. *)
Theorem parser_exception_escapes d p e reads' ws :
  parse d p = Throw e ->
  conn (RdData d :: reads') ws p = ([IoRead], Throw e).
Proof. intros Hp. cbn [handle_conn]. by rewrite Hp. Qed.
End AppFacts.

Definition demo_router : HttpRouter bytes :=
  mkRouter demo_table [] demo_regex PcreRegex_new.
Definition demo_get : bytes := lit "GET /a/b/c HTTP/1.1" ++ CRLF ++ CRLF.
Definition demo_parsed : HttpParser :=
  mkParser fn_body_with_length 0 (Some (mkRequest (Some GET) (lit "/a/b/c") [] [])) [].
Definition demo_resp : HttpResponse := response_code 2 HttpResponse_new.

Lemma request_served_witness :
  handle_conn lit_exec isort None demo_router [RdData (lit "GET /a"); RdData (drop 6 demo_get)]
      [[Some 5%nat; Some 35%nat]] reset =
    ([IoRead; IoRead; IoWrite (fst (str demo_resp)); IoWrite (drop 5 (fst (str demo_resp))); IoClose; IoRead],
     Ret Blocked) /\
  sent (fst (str demo_resp)) 0 [Some 5%nat; Some 35%nat] = fst (str demo_resp).
Proof.
  apply (request_served lit_exec isort None demo_router GET (lit "/a/b/c") [] []
    [lit "GET /a"; drop 6 demo_get] (mkRequest (Some GET) (lit "/a/b/c") [] []) demo_resp [5; 35]%nat).
  all: try (vm_compute; reflexivity).
  - split; [discriminate|]. cbn. unfold CR. set_solver.
  - constructor.
  - repeat split.
  - by split.
  - by repeat constructor.
Defined.

Definition throwing_router : HttpRouter bytes :=
  mkRouter [(lit "/a", fun s => (s, Some (ExnUser 7)))] [] (mkRegex [lit "/a"] [lit "/a"]) PcreRegex_new.
Definition demo_error : HttpResponse := response_code 500 HttpResponse_new.

Lemma exception_answered_witness :
  internal_error (fst (str demo_error)) /\
  handle_conn lit_exec isort None throwing_router [RdData demo_get] [[Some (length (fst (str demo_error)))]] reset =
    ([IoRead; IoWrite (fst (str demo_error)); IoClose; IoRead], Ret Blocked).
Proof.
  destruct (exception_answered lit_exec isort None throwing_router demo_get reset demo_parsed
    (mkRequest (Some GET) (lit "/a/b/c") [] []) (mkRequest (Some GET) (lit "/a/b/c") [] [], HttpResponse_new)
    (ExnUser 7) [] [length (fst (str demo_error))] []) as (H1 & _ & H2).
  all: try (vm_compute; reflexivity).
  - intros i. discriminate.
  - split; [exact (H2 eq_refl)|exact H1].
Defined.

Definition deny_inject : Inject :=
  mkInject (fun s => ((fst s, response_code 404 (snd s)), None)) (fun s => (s, None)) (fun s => (s, None)).

Lemma before_short_circuits_witness :
  make_response lit_exec isort (Some deny_inject) demo_router demo_request =
    Ret (fst demo_request, response_code 404 (snd demo_request)).
Proof.
  eapply (before_short_circuits lit_exec isort (Some deny_inject) demo_router deny_inject);
    vm_compute; reflexivity.
Defined.

Lemma reads_after_close_witness :
  exists pre, handle_conn lit_exec isort None demo_router [RdData (lit "BAD" ++ CRLF); RdError] [] reset =
    (pre ++ [IoClose; IoRead; IoClose], Ret Returned).
Proof.
  apply (reads_after_close lit_exec isort None demo_router (lit "BAD" ++ CRLF) [] reset []).
  eapply ends_refused. vm_compute. reflexivity.
Defined.

Lemma parser_exception_escapes_witness :
  handle_conn lit_exec isort None demo_router
    [RdData (lit "POST /a HTTP/1.1" ++ CRLF ++ lit "Transfer-Encoding: chunked" ++ CRLF ++ CRLF
             ++ lit "-2" ++ CRLF); RdEof] [] reset = ([IoRead], Throw ExnLengthError).
Proof. apply (parser_exception_escapes lit_exec isort None demo_router). vm_compute. reflexivity. Defined.

(** The accept loop starts exactly one coroutine per accepted connection,
    in order, retries on [EAGAIN] and [EINTR], and closes the listening socket
    exactly when a call failed for good. *)
Theorem accept_all fds tail :
  Forall (fun a => a = AcRetry \/ exists fd, a = AcFd fd) fds ->
  match tail with [] => True | a :: _ => a = AcError end ->
  wait true true (fds ++ tail) =
    (map EvSpawn (omap (fun a => match a with AcFd fd => Some fd | _ => None end) fds)
       ++ match tail with [] => [] | _ => [EvCloseListener] end,
     match tail with [] => Blocked | _ => Returned end).
Proof.
  intros Hf Ht. unfold wait. cbn [negb].
  induction Hf as [|a fds [-> |[fd ->]] Hf IH]; cbn [app accept_loop].
  - destruct tail as [|a tail]; [done|]. by rewrite Ht.
  - done.
  - by rewrite IH.
Qed.

Lemma accept_all_witness :
  wait true true ([AcFd 7; AcRetry; AcFd 9] ++ [AcError]) =
    ([EvSpawn 7; EvSpawn 9; EvCloseListener], Returned).
Proof.
  apply (accept_all [AcFd 7; AcRetry; AcFd 9] [AcError]); [|reflexivity].
  repeat (apply Forall_cons; split; [first [by left | right; by eexists]|]). constructor.
Defined.
