(* ===== verification/SnowFlake.v ===== *)
(** * Unique identifiers: src/natsu/natsu_snowflake.h

    [SnowFlake::generate] packs a millisecond timestamp, a machine number and
    a sequence number into a 64-bit identifier.  The clock is an input: the
    list of [gettimeofday] readings the calls consume, in order.  The busy wait
    for the next millisecond consumes readings until one differs. *)
From S2P Require Import Prelude.

Record SnowFlake : Type := mkSnow { machine_ : Z; sequence_ : Z; last_timestamp_ : Z }.

(** The singleton has static storage: its members start at zero. *)
Definition SnowFlake_new : SnowFlake := mkSnow 0 0 0.

Record timeval : Type := mkTv { tv_sec : Z; tv_usec : Z }.

Definition now (tv : timeval) : Z :=
  let time := u64 (tv_usec tv) in
  let time := time / 1000 in
  u64 (time + tv_sec tv * 1000).

(** [value = now() << 22; value |= (machine_ & 0x3FF) << 12]. *)
Definition stamp (s : SnowFlake) (tv : timeval) : Z :=
  Z.lor (i64 (u64 (Z.shiftl (now tv) 22))) (Z.shiftl (Z.land (machine_ s) 1023) 12).

(** The busy wait: the first stamp that differs from [last], and the readings
    left; [None] when the readings are used up before. *)
Fixpoint wait_next (s : SnowFlake) (last : Z) (clock : list timeval) : option (Z * list timeval) :=
  match clock with
  | [] => None
  | tv :: rest =>
      let value := stamp s tv in
      if value =? last then wait_next s last rest else Some (value, rest)
  end.

Definition generate (s : SnowFlake) (clock : list timeval) : option (Z * SnowFlake * list timeval) :=
  match clock with
  | [] => None
  | tv :: rest =>
      let value := stamp s tv in
      let s := if last_timestamp_ s =? value then s else mkSnow (machine_ s) 0 value in
      let seq := sequence_ s + 1 in
      if 4096 <=? seq then
        match wait_next s (last_timestamp_ s) rest with
        | None => None
        | Some (value, rest) =>
            Some (Z.lor value (Z.land 0 4095), mkSnow (machine_ s) 0 value, rest)
        end
      else Some (Z.lor value (Z.land seq 4095), mkSnow (machine_ s) seq (last_timestamp_ s), rest)
  end.

Definition set_machine (machine : Z) (s : SnowFlake) : SnowFlake :=
  mkSnow machine (sequence_ s) (last_timestamp_ s).

(** ** Bits *)

Lemma lor_add_low a b n : 0 <= n -> 0 <= b < 2 ^ n -> Z.lor (a * 2 ^ n) b = a * 2 ^ n + b.
Proof.
  intros Hn Hb. symmetry. rewrite <- Z.lxor_lor.
  - apply Z.add_nocarry_lxor. apply Z.bits_inj'. intros k Hk. rewrite Z.land_spec, Z.bits_0.
    destruct (decide (k < n)).
    + by rewrite Z.mul_pow2_bits_low by lia.
    + rewrite andb_comm. destruct (decide (b = 0)) as [->|]; [by rewrite Z.bits_0|].
      rewrite Z.bits_above_log2; [done|lia|]. apply Z.log2_lt_pow2; [lia|].
      eapply Z.lt_le_trans; [apply Hb|]. apply Z.pow_le_mono_r; lia.
  - apply Z.bits_inj'. intros k Hk. rewrite Z.land_spec, Z.bits_0.
    destruct (decide (k < n)).
    + by rewrite Z.mul_pow2_bits_low by lia.
    + rewrite andb_comm. destruct (decide (b = 0)) as [->|]; [by rewrite Z.bits_0|].
      rewrite Z.bits_above_log2; [done|lia|]. apply Z.log2_lt_pow2; [lia|].
      eapply Z.lt_le_trans; [apply Hb|]. apply Z.pow_le_mono_r; lia.
Qed.

Lemma land_low a n : 0 <= n -> Z.land a (2 ^ n - 1) = a mod 2 ^ n.
Proof. intros. rewrite <- Z.land_ones by done. f_equal. rewrite Z.ones_equiv. lia. Qed.

Definition machine_field (s : SnowFlake) : Z := machine_ s mod 1024.

(** Readings whose timestamp fits the 41 bits above the other fields. *)
Definition tv_ok (tv : timeval) : Prop := 0 <= now tv < 2 ^ 41.

Lemma stamp_value s tv :
  tv_ok tv -> stamp s tv = (now tv * 1024 + machine_field s) * 4096.
Proof.
  intros Ht. unfold tv_ok in Ht. unfold stamp, machine_field.
  change 1023 with (2 ^ 10 - 1). rewrite land_low by lia. change (2 ^ 10) with 1024.
  pose proof (Z.mod_pos_bound (machine_ s) 1024 ltac:(lia)).
  rewrite !Z.shiftl_mul_pow2 by lia. rewrite u64_small, i64_small by lia.
  rewrite lor_add_low by lia. lia.
Qed.

Lemma stamp_machine s q l tv : stamp (mkSnow (machine_ s) q l) tv = stamp s tv.
Proof. done. Qed.

Lemma id_value v q : 0 <= q < 4096 -> Z.lor (v * 4096) (Z.land q 4095) = v * 4096 + q.
Proof.
  intros Hq. change 4095 with (2 ^ 12 - 1). rewrite land_low by lia.
  rewrite Z.mod_small by lia. change 4096 with (2 ^ 12). apply lor_add_low; lia.
Qed.

(** ** The state between calls *)

(** [last_timestamp_] is a stamp (or zero at the start) that no later reading
    falls behind, and the sequence number fits its field. *)
Definition snow_ok (s : SnowFlake) (clock : list timeval) : Prop :=
  (exists v, last_timestamp_ s = v * 4096) /\ 0 <= sequence_ s < 4096 /\
  Forall (fun tv => tv_ok tv /\ last_timestamp_ s <= stamp s tv) clock.

(** The clock never goes back. *)
Fixpoint clock_mono (clock : list timeval) : Prop :=
  match clock with
  | [] => True
  | tv :: rest => Forall (fun tv' => now tv <= now tv') rest /\ clock_mono rest
  end.

Lemma stamp_mono s tv tv' : tv_ok tv -> tv_ok tv' -> now tv <= now tv' -> stamp s tv <= stamp s tv'.
Proof. intros H H' Hle. rewrite !stamp_value by done. lia. Qed.

Lemma clock_after s tv rest :
  tv_ok tv -> Forall tv_ok rest -> Forall (fun tv' => now tv <= now tv') rest ->
  Forall (fun tv' => tv_ok tv' /\ stamp s tv <= stamp s tv') rest.
Proof.
  intros Htv Hok Hle. rewrite Forall_forall in *. intros x Hx. split; [by apply Hok|].
  apply stamp_mono; auto.
Qed.

Lemma wait_next_spec s last clock value rest :
  Forall (fun tv => tv_ok tv /\ last <= stamp s tv) clock -> clock_mono clock ->
  wait_next s last clock = Some (value, rest) ->
  last < value /\ (exists v, value = v * 4096) /\ clock_mono rest /\
  Forall (fun tv => tv_ok tv /\ value <= stamp s tv) rest.
Proof.
  induction clock as [|tv clock IH]; cbn [wait_next]; [done|].
  intros [[Htv Hle] Hall]%Forall_cons [Hm Hmono].
  destruct (stamp s tv =? last) eqn:E; zbool; [by apply IH|].
  intros [= <- <-]. split; [lia|]. split; [rewrite stamp_value by done; eauto|].
  split; [done|]. apply clock_after; [done| |done].
  eapply Forall_impl; [exact Hall|]. by intros x [].
Qed.

Lemma generate_step s clock id s' clock' :
  snow_ok s clock -> clock_mono clock -> generate s clock = Some (id, s', clock') ->
  last_timestamp_ s + sequence_ s < id /\ id = last_timestamp_ s' + sequence_ s' /\
  machine_ s' = machine_ s /\ snow_ok s' clock' /\ clock_mono clock'.
Proof.
  intros ((v & Hv) & Hq & Hall) Hmono. destruct clock as [|tv rest]; cbn [generate]; [done|].
  apply Forall_cons in Hall as [[Htv Hle] Hall]. destruct Hmono as [Hm Hmono].
  assert (Forall tv_ok rest) as Hok.
  { eapply Forall_impl; [exact Hall|]. by intros x []. }
  pose proof (clock_after s tv rest Htv Hok Hm) as Hafter.
  pose proof (stamp_value s tv Htv) as Hstamp.
  destruct (last_timestamp_ s =? stamp s tv) eqn:E; zbool; cbn [sequence_ last_timestamp_ machine_].
  - destruct (4096 <=? sequence_ s + 1) eqn:E2; zbool.
    + destruct (wait_next s (last_timestamp_ s) rest) as [[value rest']|] eqn:Ew; [|done].
      intros [= <- <- <-]. apply wait_next_spec in Ew as (Hlt & (w & Hw) & Hmr & Hr); [|done|done].
      rewrite Hw, id_value by lia. cbn [sequence_ last_timestamp_ machine_].
      repeat split; try (done || lia); [eauto|]. by rewrite <- Hw.
    + intros [= <- <- <-]. rewrite Hstamp, id_value by lia. cbn [sequence_ last_timestamp_ machine_].
      repeat split; try (done || (simpl; lia)); simpl; eauto.
  - intros [= <- <- <-]. rewrite Hstamp, id_value by lia. cbn [sequence_ last_timestamp_ machine_].
    repeat split; try (done || (simpl; lia)); simpl; eauto. by rewrite <- Hstamp.
Qed.

(** ** Sequences of calls *)

Fixpoint generate_n (n : nat) (s : SnowFlake) (clock : list timeval) : option (list Z) :=
  match n with
  | O => Some []
  | S n' =>
      match generate s clock with
      | None => None
      | Some (id, s', clock') =>
          match generate_n n' s' clock' with
          | None => None
          | Some ids => Some (id :: ids)
          end
      end
  end.

Fixpoint increasing (l : list Z) : Prop :=
  match l with
  | [] => True
  | x :: l' => Forall (fun y => x < y) l' /\ increasing l'
  end.

Lemma generate_n_above n s clock ids :
  snow_ok s clock -> clock_mono clock -> generate_n n s clock = Some ids ->
  Forall (fun y => last_timestamp_ s + sequence_ s < y) ids /\ increasing ids.
Proof.
  revert s clock ids. induction n as [|n IH]; intros s clock ids Hok Hm; cbn [generate_n].
  { intros [= <-]. by repeat constructor. }
  destruct (generate s clock) as [[[id s'] clock']|] eqn:Eg; [|done].
  destruct (generate_step _ _ _ _ _ Hok Hm Eg) as (Hlt & Hid & _ & Hok' & Hm').
  destruct (generate_n n s' clock') as [ids'|] eqn:En; [|done]. intros [= <-].
  destruct (IH _ _ _ Hok' Hm' En) as [Hall Hinc]. rewrite <- Hid in Hall.
  split; [|by split]. constructor; [done|].
  eapply Forall_impl; [exact Hall|]. intros y Hy. simpl in *. lia.
Qed.

Lemma increasing_nodup l : increasing l -> NoDup l.
Proof.
  induction l as [|x l IH]; simpl; [constructor|]. intros [Hx Hl]. constructor; [|by apply IH].
  eapply Forall_not_in; [exact Hx|]. simpl. lia.
Qed.

Lemma fresh_snow_ok m clock :
  Forall tv_ok clock -> snow_ok (set_machine m SnowFlake_new) clock.
Proof.
  intros Hok. split; [by exists 0|]. split; [simpl; lia|].
  eapply Forall_impl; [exact Hok|]. intros tv Htv. split; [done|].
  rewrite stamp_value by done. unfold tv_ok in Htv. simpl last_timestamp_.
  pose proof (Z.mod_pos_bound (machine_ (set_machine m SnowFlake_new)) 1024 ltac:(lia)).
  unfold machine_field. lia.
Qed.

(** While the clock does not go back (and its milliseconds fit 41 bits) the
    identifiers generated by a process are strictly increasing, hence all
    different, over any number of calls, including calls that exhaust a
    millisecond's 4096 sequence numbers and wait for the next. *)
Theorem ids_increasing m n clock ids :
  Forall tv_ok clock -> clock_mono clock ->
  generate_n n (set_machine m SnowFlake_new) clock = Some ids ->
  increasing ids /\ NoDup ids.
Proof.
  intros Hok Hm Hg. destruct (generate_n_above _ _ _ _ (fresh_snow_ok m clock Hok) Hm Hg) as [_ Hinc].
  split; [done|]. by apply increasing_nodup.
Qed.

Definition demo_clock : list timeval := [mkTv 1 5000; mkTv 1 5100; mkTv 1 6000].

Lemma ids_increasing_witness :
  exists ids, generate_n 3 (set_machine 7 SnowFlake_new) demo_clock = Some ids /\ NoDup ids.
Proof.
  eexists. split; [vm_compute; reflexivity|].
  eapply (ids_increasing 7 3 demo_clock).
  - unfold tv_ok. repeat constructor; vm_compute; congruence.
  - repeat constructor; vm_compute; discriminate.
  - vm_compute. reflexivity.
Defined.

Lemma id_bits s tv seq :
  tv_ok tv -> 0 <= seq < 4096 ->
  let id := Z.lor (stamp s tv) (Z.land seq 4095) in
  Z.shiftr id 22 = now tv /\ Z.land (Z.shiftr id 12) 1023 = machine_ s mod 1024 /\
  Z.land id 4095 = seq /\ 0 <= id < 2 ^ 63.
Proof.
  intros Htv Hseq id. unfold id. rewrite stamp_value, id_value by done.
  unfold tv_ok, machine_field in *.
  pose proof (Z.mod_pos_bound (machine_ s) 1024 ltac:(lia)) as Hm.
  change 1023 with (2 ^ 10 - 1). change 4095 with (2 ^ 12 - 1).
  rewrite !land_low, !Z.shiftr_div_pow2 by lia.
  change (2 ^ 22) with (4096 * 1024). change (2 ^ 12) with 4096. change (2 ^ 10) with 1024.
  assert (((now tv * 1024 + machine_ s mod 1024) * 4096 + seq) / 4096 =
          now tv * 1024 + machine_ s mod 1024) as Hdiv.
  { rewrite Z.div_add_l by lia. rewrite Z.div_small by lia. lia. }
  repeat split.
  - rewrite <- Z.div_div by lia. rewrite Hdiv, Z.div_add_l by lia. rewrite Z.div_small by lia. lia.
  - rewrite Hdiv. rewrite Z.add_comm, Z.mod_add by lia. by rewrite Z.mod_small.
  - rewrite Z.add_comm, Z.mod_add by lia. by rewrite Z.mod_small.
  - lia.
  - lia.
Qed.

Lemma wait_next_reading s last clock value rest :
  wait_next s last clock = Some (value, rest) ->
  exists pre tv, clock = pre ++ tv :: rest /\ value = stamp s tv.
Proof.
  induction clock as [|tv clock IH]; cbn [wait_next]; [done|].
  destruct (_ =? _); [|intros [= <- <-]; by exists [], tv].
  intros (pre & tv' & -> & ->)%IH. by exists (tv :: pre), tv'.
Qed.

(** An identifier consists of the millisecond of the clock reading it was
    made at (the last one the call took), the machine number modulo 1024 and
    the sequence number the generator counted, each in its bit field and
    readable back; it is never negative. *)
Theorem id_fields s clock id s' clock' :
  Forall tv_ok clock -> 0 <= sequence_ s < 4096 -> generate s clock = Some (id, s', clock') ->
  exists pre tv, clock = pre ++ tv :: clock' /\
    Z.shiftr id 22 = now tv /\ Z.land (Z.shiftr id 12) 1023 = machine_ s mod 1024 /\
    Z.land id 4095 = sequence_ s' /\ 0 <= sequence_ s' < 4096 /\ 0 <= id < 2 ^ 63.
Proof.
  intros Hok Hq. destruct clock as [|tv rest]; cbn [generate]; [done|].
  set (s1 := if _ =? _ then s else _).
  assert (machine_ s1 = machine_ s /\ 0 <= sequence_ s1 < 4096) as [Hm Hq1]
    by (unfold s1; destruct (_ =? _); simpl; split; (done || lia)).
  destruct (4096 <=? sequence_ s1 + 1) eqn:E; zbool.
  - destruct (wait_next s1 _ rest) as [[value rest']|] eqn:Ew; [|done]. intros [= <- <- <-].
    apply wait_next_reading in Ew as (pre & tv' & -> & ->). exists (tv :: pre), tv'.
    rewrite <- Hm. apply Forall_cons in Hok as [_ Hok].
    apply Forall_app in Hok as [_ [Hok _]%Forall_cons].
    destruct (id_bits s1 tv' 0 Hok ltac:(lia)) as (H1 & H2 & H3 & H4). cbn [sequence_]. split_and!; (done || lia).
  - intros [= <- <- <-]. apply Forall_cons in Hok as [Hok _]. exists [], tv.
    destruct (id_bits s tv (sequence_ s1 + 1) Hok ltac:(lia)) as (H1 & H2 & H3 & H4).
    cbn [sequence_]. split_and!; (done || lia).
Qed.

Definition id_demo : Z := Z.lor (stamp (mkSnow 5 0 0) (mkTv 1 6000)) 0.

Lemma id_fields_witness :
  exists pre tv, [mkTv 1 5000; mkTv 1 5100; mkTv 1 6000] = pre ++ [tv] /\
    Z.shiftr id_demo 22 = now tv /\ Z.land id_demo 4095 = 0.
Proof.
  destruct (id_fields (mkSnow 5 4095 (stamp (mkSnow 5 0 0) (mkTv 1 5000)))
    [mkTv 1 5000; mkTv 1 5100; mkTv 1 6000] id_demo (mkSnow 5 0 (stamp (mkSnow 5 0 0) (mkTv 1 6000))) [])
    as (pre & tv & H1 & H2 & _ & H3 & _).
  - unfold tv_ok. repeat constructor; vm_compute; congruence.
  - simpl. lia.
  - vm_compute. reflexivity.
  - by exists pre, tv.
Defined.

(** The sequence number wait ends: when the readings contain one of a later
    millisecond, [generate] returns an identifier. *)
Theorem generate_returns s tv rest :
  (exists tv', tv' ∈ rest /\ stamp s tv' <> stamp s tv) ->
  is_Some (generate s (tv :: rest)).
Proof.
  intros (tv' & Hin & Hne). cbn [generate].
  assert (forall s' l, machine_ s' = machine_ s -> stamp s tv = l -> is_Some (wait_next s' l rest)) as Hw.
  { intros s' l Hs <-. assert (forall x, stamp s' x = stamp s x) as Hst
      by (intros x; unfold stamp; by rewrite Hs).
    clear -Hin Hne Hst. induction rest as [|x rest IH]; [by apply not_elem_of_nil in Hin|].
    cbn [wait_next]. rewrite Hst. destruct (stamp s x =? stamp s tv) eqn:E; zbool; [|by eexists].
    apply elem_of_cons in Hin as [->|Hin]; [done|]. by apply IH. }
  destruct (last_timestamp_ s =? stamp s tv) eqn:E; zbool;
    cbn [last_timestamp_ machine_ sequence_]; destruct (4096 <=? _); try (by eexists).
  - destruct (Hw s (last_timestamp_ s)) as [[v r] ->]; [done|done|]. by eexists.
  - destruct (Hw (mkSnow (machine_ s) 0 (stamp s tv)) (stamp s tv)) as [[v r] ->];
      [done|done|]. by eexists.
Qed.

Lemma generate_returns_witness :
  is_Some (generate (mkSnow 0 4095 (stamp (mkSnow 0 0 0) (mkTv 1 0))) [mkTv 1 0; mkTv 1 10; mkTv 1 2000]).
Proof.
  apply generate_returns. exists (mkTv 1 2000). split; [set_solver|]. vm_compute. discriminate.
Defined.

(** Identifiers are not unique when the clock is set back: reading a
    millisecond, then another one, then the first one again repeats the first
    identifier (the header comment promises a unique id). *)
Theorem clock_step_back_repeats m tv1 tv2 :
  tv_ok tv1 -> tv_ok tv2 -> now tv1 <> now tv2 -> now tv1 <> 0 ->
  exists a b, generate_n 3 (set_machine m SnowFlake_new) [tv1; tv2; tv1] = Some [a; b; a].
Proof.
  intros H1 H2 Hne Hz. set (s := set_machine m SnowFlake_new).
  pose proof (stamp_value s tv1 H1) as E1. pose proof (stamp_value s tv2 H2) as E2.
  unfold tv_ok in *. pose proof (Z.mod_pos_bound (machine_ s) 1024 ltac:(lia)) as Hm.
  unfold machine_field in *.
  assert (exists v1, forall q l, stamp (mkSnow m q l) tv1 = v1) as [v1 Hv1] by by eexists.
  assert (exists v2, forall q l, stamp (mkSnow m q l) tv2 = v2) as [v2 Hv2] by by eexists.
  unfold s, set_machine, SnowFlake_new in *. cbn [machine_ sequence_ last_timestamp_] in *.
  rewrite Hv1 in E1. rewrite Hv2 in E2. exists (Z.lor v1 1), (Z.lor v2 1).
  unfold generate_n, generate.
  repeat (rewrite ?Hv1, ?Hv2, ?(proj2 (Z.eqb_neq 0 v1)), ?(proj2 (Z.eqb_neq v1 v2)),
    ?(proj2 (Z.eqb_neq v2 v1)) by lia; change (4096 <=? 0 + 1) with false;
    cbn [sequence_ last_timestamp_ machine_]).
  reflexivity.
Qed.

Lemma clock_step_back_repeats_witness :
  exists a b, generate_n 3 (set_machine 1 SnowFlake_new) [mkTv 1 5000; mkTv 1 6000; mkTv 1 5000] = Some [a; b; a].
Proof.
  apply clock_step_back_repeats; unfold tv_ok; vm_compute; (split; congruence) || discriminate.
Defined.
