(* ===== verification/Json.v ===== *)
(** * JSON values: class [Json] of src/natsu/gci-json.h and gci-json.cc

    A [Json] object is the pair of a kind tag and an untyped pointer to the
    data; a null pointer is [None], and a [static_cast] of the pointer to a type
    it does not point to is undefined behaviour.  The well-formed objects [wf]
    are those whose tag agrees with the data.  The floating-point type and its
    conversions belong to the platform and are the parameter [Double]. *)
From S2P Require Import Prelude StdString StdMap.

Class Double : Type := {
  double : Type;
  atof : bytes -> double;           (** C string to number *)
  double_text : double -> bytes;    (** [ostream << double], default precision *)
  double_of_int : Z -> double;
  int_of_double : double -> Z
}.

Definition QUOTE : ascii := "034"%char.

Inductive Kind : Type := kNumber | kString | kBool | kNull | kObject | kArray.

#[global] Instance Kind_eq_dec : EqDecision Kind.
Proof. solve_decision. Defined.

Section Json.
Context `{D : Double}.

Inductive Json : Type :=
| mkJson (kind : Kind) (data : option Data)
with Data : Type :=
| DNumber (d : double)
| DString (s : bytes)
| DBool (b : bool)
| DArray (l : list Json)
| DObject (m : list (bytes * Json)).

Definition kind_ (j : Json) : Kind := let '(mkJson k _) := j in k.
Definition data_ (j : Json) : option Data := let '(mkJson _ d) := j in d.

(** ** Constructors *)

Definition Json_null : Json := mkJson kNull None.
Definition Json_double (num : double) : Json := mkJson kNumber (Some (DNumber num)).
Definition Json_int (num : Z) : Json := mkJson kNumber (Some (DNumber (double_of_int num))).
Definition Json_string (str : bytes) : Json := mkJson kString (Some (DString str)).
Definition Json_cstring (str : bytes) : Json := mkJson kString (Some (DString (cstr str))).
Definition Json_bool (boo : bool) : Json := mkJson kBool (Some (DBool boo)).
Definition Json_array (arr : list Json) : Json := mkJson kArray (Some (DArray arr)).
Definition Json_object (obj : list (bytes * Json)) : Json := mkJson kObject (Some (DObject obj)).

(** [Json(Json* rhs)] takes the data over: the new object and what is left of
    [rhs]. *)
Definition Json_steal (rhs : Json) : Json * Json :=
  (mkJson (kind_ rhs) (data_ rhs), mkJson (kind_ rhs) None).

(** ** Copies *)

Definition copy_items {A B} (copy : A -> outcome B) :=
  fix copy_items (l : list A) (tmp : list B) : outcome (list B) :=
    match l with
    | [] => Ret tmp
    | j :: l' => j' ← copy j; copy_items l' (tmp ++ [j'])
    end.

Definition copy_pairs {A B} (copy : A -> outcome B) :=
  fix copy_pairs (m : list (bytes * A)) (tmp : list (bytes * B)) : outcome (list (bytes * B)) :=
    match m with
    | [] => Ret tmp
    | (k, j) :: m' => j' ← copy j; copy_pairs m' (map_insert k j' tmp)
    end.

Fixpoint DoDeepCopy (rhs : Json) : outcome Json :=
  let '(mkJson kind data) := rhs in
  match kind, data with
  | kNull, _ => Ret (mkJson kNull None)
  | kNumber, Some (DNumber d) => Ret (mkJson kNumber (Some (DNumber d)))
  | kString, Some (DString s) => Ret (mkJson kString (Some (DString s)))
  | kBool, Some (DBool b) => Ret (mkJson kBool (Some (DBool b)))
  | kArray, Some (DArray l) =>
      tmp ← copy_items DoDeepCopy l [];
      Ret (mkJson kArray (Some (DArray tmp)))
  | kObject, Some (DObject m) =>
      tmp ← copy_pairs DoDeepCopy m [];
      Ret (mkJson kObject (Some (DObject tmp)))
  | _, _ => Undef
  end.

(** [Release()] frees the data; the object becomes null. *)
Definition Release (j : Json) : Json := mkJson kNull None.

(** [operator = (const Json& rhs)] for [rhs] other than the object itself. *)
Definition assign (j rhs : Json) : outcome Json :=
  let j := Release j in DoDeepCopy rhs.

Definition assign_double (j : Json) (num : double) : Json :=
  let j := Release j in mkJson kNumber (Some (DNumber num)).
Definition assign_int (j : Json) (num : Z) : Json := assign_double j (double_of_int num).
Definition assign_cstring (j : Json) (str : bytes) : Json :=
  let j := Release j in mkJson kString (Some (DString (cstr str))).
Definition assign_string (j : Json) (str : bytes) : Json := assign_cstring j str.
Definition assign_bool (j : Json) (boo : bool) : Json :=
  let j := Release j in mkJson kBool (Some (DBool boo)).

(** ** Inspection *)

Definition IsNumber (j : Json) : bool := bool_decide (kind_ j = kNumber).
Definition IsString (j : Json) : bool := bool_decide (kind_ j = kString).
Definition IsBool (j : Json) : bool := bool_decide (kind_ j = kBool).
Definition IsNull (j : Json) : bool := match data_ j with None => true | Some _ => false end.
Definition IsArray (j : Json) : bool := bool_decide (kind_ j = kArray).
Definition IsObject (j : Json) : bool := bool_decide (kind_ j = kObject).

Definition cast_arr (j : Json) : outcome (list Json) :=
  match data_ j with Some (DArray l) => Ret l | _ => Undef end.
Definition cast_obj (j : Json) : outcome (list (bytes * Json)) :=
  match data_ j with Some (DObject m) => Ret m | _ => Undef end.

Definition IsEmpty (j : Json) : outcome bool :=
  if IsObject j then m ← cast_obj j; Ret (bool_decide (m = []))
  else if IsArray j then l ← cast_arr j; Ret (bool_decide (l = []))
  else Ret false.

Definition Contains (key : bytes) (j : Json) : outcome bool :=
  if negb (IsObject j) then Ret false
  else m ← cast_obj j; Ret (match map_find (cstr key) m with Some _ => true | None => false end).

Definition Size (j : Json) : outcome Z :=
  if negb (IsArray j) then Ret 1 else l ← cast_arr j; Ret (i32 (sz l)).

Definition Keys (j : Json) : outcome (list bytes) :=
  if IsObject j then m ← cast_obj j; Ret (m.*1) else Ret [].

(** [Data<ToType>()]: the tag is checked, then the pointer is dereferenced. *)
Definition Data_double (j : Json) : outcome double :=
  match kind_ j with
  | kNumber => match data_ j with Some (DNumber d) => Ret d | _ => Undef end
  | _ => Throw ExnBadConversion
  end.
Definition Data_string (j : Json) : outcome bytes :=
  match kind_ j with
  | kString => match data_ j with Some (DString s) => Ret s | _ => Undef end
  | _ => Throw ExnBadConversion
  end.
Definition Data_bool (j : Json) : outcome bool :=
  match kind_ j with
  | kBool => match data_ j with Some (DBool b) => Ret b | _ => Undef end
  | _ => Throw ExnBadConversion
  end.
Definition Data_array (j : Json) : outcome (list Json) :=
  match kind_ j with
  | kArray => match data_ j with Some (DArray l) => Ret l | _ => Undef end
  | _ => Throw ExnBadConversion
  end.
Definition Data_object (j : Json) : outcome (list (bytes * Json)) :=
  match kind_ j with
  | kObject => match data_ j with Some (DObject m) => Ret m | _ => Undef end
  | _ => Throw ExnBadConversion
  end.

Definition AsInt (j : Json) : outcome Z := d ← Data_double j; Ret (int_of_double d).
Definition AsDouble (j : Json) : outcome double := Data_double j.
Definition AsBool (j : Json) : outcome bool := Data_bool j.
Definition AsString (j : Json) : outcome bytes := s ← Data_string j; Ret (cstr s).

(** [operator[](int)]: [std::vector] does not check the index. *)
Definition index_int (index : Z) (j : Json) : outcome Json :=
  l ← Data_array j;
  if (0 <=? index) && (index <? sz l) then deref (l !! Z.to_nat index) else Undef.

(** [operator[]] on a C string: the element, and the object, to which a null
    element is added when the key is missing. *)
Definition index_key (key : bytes) (j : Json) : outcome (Json * Json) :=
  m ← Data_object j;
  let m := match map_find (cstr key) m with
           | None => map_put (cstr key) Json_null m
           | Some _ => m
           end in
  match map_find (cstr key) m with
  | Some v => Ret (v, mkJson (kind_ j) (Some (DObject m)))
  | None => Undef
  end.

(** Assignment through the reference that [operator[]] returned. *)
Definition store_key (key : bytes) (v : Json) (j : Json) : outcome Json :=
  m ← Data_object j; Ret (mkJson (kind_ j) (Some (DObject (map_put (cstr key) v m)))).

(** ** Updates *)

Definition Push (j rhs : Json) : outcome Json :=
  match kind_ j with
  | kArray =>
      l ← cast_arr j; v ← DoDeepCopy rhs;
      Ret (mkJson kArray (Some (DArray (l ++ [v]))))
  | kNumber | kString | kBool | kNull | kObject =>
      let '(old, j) := Json_steal j in
      v ← DoDeepCopy rhs;
      Ret (mkJson kArray (Some (DArray ([old] ++ [v]))))
  end.

(** [j.Push(j)]: [rhs] is the object itself, so that it is copied in the state
    [Push] has given it by then. *)
Definition Push_self (j : Json) : outcome Json :=
  match kind_ j with
  | kArray =>
      l ← cast_arr j; v ← DoDeepCopy j;
      Ret (mkJson kArray (Some (DArray (l ++ [v]))))
  | kNumber | kString | kBool | kNull | kObject =>
      let '(old, j) := Json_steal j in
      let j := mkJson kArray (data_ j) in
      v ← DoDeepCopy j;
      Ret (mkJson kArray (Some (DArray ([old] ++ [v]))))
  end.

Definition AddProperty (key : bytes) (value : Json) (j : Json) : outcome Json :=
  '(elem, j) ← index_key key j;
  elem ← assign elem value;
  store_key key elem j.

Definition Remove_key (key : bytes) (j : Json) : outcome Json :=
  m ← Data_object j;
  Ret (match map_find key m with
       | Some _ => mkJson (kind_ j) (Some (DObject (map_erase key m)))
       | None => j
       end).

Definition Remove_index (index : Z) (j : Json) : outcome Json :=
  l ← Data_array j;
  size ← Size j;
  if (0 <=? index) && (index <? size) then
    Ret (mkJson (kind_ j) (Some (DArray (delete (Z.to_nat index) l))))
  else Ret j.

(** ** Printing *)

Definition print_items {A} (print : A -> outcome bytes) :=
  fix print_items (unique : bool) (l : list A) : outcome bytes :=
    match l with
    | [] => Ret []
    | v :: l' =>
        t ← print v;
        rest ← print_items false l';
        Ret ((if unique then [] else lit ", ") ++ t ++ rest)
    end.

Definition print_pairs {A} (print : A -> outcome bytes) :=
  fix print_pairs (unique : bool) (m : list (bytes * A)) : outcome bytes :=
    match m with
    | [] => Ret []
    | (k, v) :: m' =>
        t ← print v;
        rest ← print_pairs false m';
        Ret ((if unique then [QUOTE] else lit ", " ++ [QUOTE]) ++ k ++
             ([QUOTE] ++ lit ": ") ++ t ++ rest)
    end.

Fixpoint ToString (j : Json) : outcome bytes :=
  let '(mkJson kind data) := j in
  match kind, data with
  | kNumber, Some (DNumber d) => Ret (double_text d)
  | kString, Some (DString s) => Ret ([QUOTE] ++ s ++ [QUOTE])
  | kBool, Some (DBool b) => Ret (if b then lit "true" else lit "false")
  | kNull, _ => Ret (lit "null")
  | kObject, Some (DObject m) =>
      body ← print_pairs ToString true m;
      Ret (lit "{ " ++ body ++ lit " }")
  | kArray, Some (DArray l) =>
      body ← print_items ToString true l;
      Ret (lit "[ " ++ body ++ lit " ]")
  | _, _ => Undef
  end.

(** ** Well-formed objects: the tag agrees with the data, at every depth *)

Inductive wf : Json -> Prop :=
| wf_null : wf (mkJson kNull None)
| wf_number d : wf (mkJson kNumber (Some (DNumber d)))
| wf_string s : wf (mkJson kString (Some (DString s)))
| wf_bool b : wf (mkJson kBool (Some (DBool b)))
| wf_array l : Forall wf l -> wf (mkJson kArray (Some (DArray l)))
| wf_object m : map_sorted m -> Forall (fun p => wf (snd p)) m -> wf (mkJson kObject (Some (DObject m))).

Lemma wf_nested_ind (Q : Json -> Prop) :
  Q (mkJson kNull None) ->
  (forall d, Q (mkJson kNumber (Some (DNumber d)))) ->
  (forall s, Q (mkJson kString (Some (DString s)))) ->
  (forall b, Q (mkJson kBool (Some (DBool b)))) ->
  (forall l, Forall wf l -> Forall Q l -> Q (mkJson kArray (Some (DArray l)))) ->
  (forall m, map_sorted m -> Forall (fun p => wf (snd p)) m -> Forall (fun p => Q (snd p)) m ->
    Q (mkJson kObject (Some (DObject m)))) ->
  forall j, wf j -> Q j.
Proof.
  intros H0 H1 H2 H3 H4 H5. fix IH 2. intros j [|d|s|b|l Hl|m Hs Hm]; auto.
  - apply H4; [done|]. induction Hl; constructor; auto.
  - apply H5; [done|done|]. clear Hs. induction Hm; constructor; auto.
Qed.

Lemma copy_items_id {A} (copy : A -> outcome A) l tmp :
  Forall (fun j => copy j = Ret j) l -> copy_items copy l tmp = Ret (tmp ++ l).
Proof.
  intros Hl. revert tmp. induction Hl as [|j l Hj Hl IH]; intros tmp; simpl.
  - by rewrite app_nil_r.
  - rewrite Hj. cbn [mbind outcome_bind]. rewrite IH. by rewrite <- app_assoc.
Qed.

Lemma copy_pairs_id {A} (copy : A -> outcome A) m tmp :
  Forall (fun p => copy (snd p) = Ret (snd p)) m -> map_sorted (tmp ++ m) ->
  copy_pairs copy m tmp = Ret (tmp ++ m).
Proof.
  intros Hm. revert tmp. induction Hm as [|[k j] m Hj Hm IH]; intros tmp Hs; simpl.
  - by rewrite app_nil_r.
  - simpl in Hj. rewrite Hj. cbn [mbind outcome_bind].
    assert (map_insert k j tmp = tmp ++ [(k, j)]) as ->.
    { pose proof (map_sorted_app_lt _ _ _ _ Hs) as Hlt. unfold map_insert.
      by rewrite map_find_last, map_put_last. }
    rewrite IH; by rewrite <- app_assoc.
Qed.

(** The copy of a well-formed object is equal to it: copying never fails and
    never changes the source. *)
Lemma deep_copy_wf j : wf j -> DoDeepCopy j = Ret j.
Proof.
  revert j. apply wf_nested_ind; try done.
  - intros l Hw Hl. cbn [DoDeepCopy]. by rewrite copy_items_id.
  - intros m Hs Hw Hm. cbn [DoDeepCopy]. by rewrite copy_pairs_id.
Qed.

(** ** Operations on well-formed objects *)

(** The call returns a well-formed object or reports the wrong kind. *)
Definition ok_json (o : outcome Json) : Prop :=
  match o with
  | Ret j => wf j
  | Throw ExnBadConversion => True
  | _ => False
  end.

Lemma wf_put k v m :
  map_sorted m -> Forall (fun p => wf (snd p)) m -> wf v ->
  wf (mkJson kObject (Some (DObject (map_put k v m)))).
Proof.
  intros Hs Hm Hv. constructor; [by apply map_put_sorted|].
  clear Hs. induction Hm as [|[k' v'] m Hj Hm IH]; simpl; [by repeat constructor|].
  repeat split_match; repeat constructor; auto.
Qed.

Lemma wf_erase k m :
  map_sorted m -> Forall (fun p => wf (snd p)) m ->
  wf (mkJson kObject (Some (DObject (map_erase k m)))).
Proof.
  intros Hs Hm. constructor; [by apply map_erase_sorted|].
  clear Hs. induction Hm as [|[k' v'] m Hj Hm IH]; simpl; [by repeat constructor|].
  repeat split_match; repeat constructor; auto.
Qed.

Lemma wf_find k v m :
  Forall (fun p => wf (snd p)) m -> map_find k m = Some v -> wf v.
Proof.
  intros Hm Hf. rewrite Forall_forall in Hm. apply (Hm (k, v)). by apply map_find_elem.
Qed.
#[local] Hint Resolve wf_put wf_erase wf_find wf_null : natsu.

Lemma index_key_object key m :
  map_sorted m ->
  index_key key (Json_object m) =
  match map_find (cstr key) m with
  | Some v => Ret (v, Json_object m)
  | None => Ret (Json_null, Json_object (map_put (cstr key) Json_null m))
  end.
Proof.
  intros Hs. unfold index_key. cbn [Data_object kind_ data_ Json_object mbind outcome_bind].
  destruct (map_find (cstr key) m) eqn:E; [by rewrite E|]. by rewrite map_find_put_eq.
Qed.

Lemma AddProperty_object key v m :
  map_sorted m -> wf v ->
  AddProperty key v (Json_object m) = Ret (Json_object (map_put (cstr key) v m)).
Proof.
  intros Hs Hv. unfold AddProperty. rewrite index_key_object by done.
  destruct (map_find (cstr key) m) eqn:E; cbn [mbind outcome_bind]; unfold assign;
    rewrite deep_copy_wf by done; cbn [mbind outcome_bind]; unfold store_key;
    cbn [Data_object kind_ data_ Json_object mbind outcome_bind]; [done|].
  by rewrite map_put_put.
Qed.


(** [AddProperty] binds the key to the value and nothing else: reading the
    key gives the value, every other key reads as before, and [Remove] undoes
    an addition of a new key. *)
Theorem property_roundtrip m key key' v :
  wf (Json_object m) -> wf v -> NUL ∉ key ->
  exists j', AddProperty key v (Json_object m) = Ret j' /\
    index_key key j' = Ret (v, j') /\ Contains key j' = Ret true /\
    (cstr key' <> key -> Contains key' j' = Contains key' (Json_object m)) /\
    (map_find key m = None -> Remove_key key j' = Ret (Json_object m)).
Proof.
  intros Hw Hv Hnul. inversion Hw as [| | | | |m' Hs Hm]; subst.
  exists (Json_object (map_put key v m)).
  rewrite AddProperty_object, cstr_id by done. split; [done|].
  assert (map_sorted (map_put key v m)) as Hs' by by apply map_put_sorted.
  split; [|split; [|split]].
  - rewrite index_key_object, cstr_id, map_find_put_eq by done. done.
  - unfold Contains. simpl. by rewrite cstr_id, map_find_put_eq by done.
  - intros Hne. unfold Contains. simpl. by rewrite map_find_put_ne by done.
  - intros Hnone. unfold Remove_key. cbn [Data_object kind_ data_ Json_object mbind outcome_bind].
    rewrite map_find_put_eq. do 2 f_equal. unfold Json_object. do 3 f_equal. apply stdmap_ext; [by apply map_erase_sorted|done|].
    intros k. destruct (decide (k = key)) as [->|Hne].
    + by rewrite map_find_erase_eq.
    + rewrite map_find_erase_ne by done. by apply map_find_put_ne.
Qed.

(** Pushing an object that is not an array to itself copies it when its data
    has already been taken over: a null pointer is dereferenced. *)
Lemma push_self_undefined j : wf j -> IsArray j = false -> Push_self j = Undef.
Proof. by destruct 1. Qed.

(** Reading a missing key of an object, even through a [const] reference,
    inserts the key with the value null. *)
Lemma const_lookup_inserts m key :
  map_sorted m -> map_find (cstr key) m = None ->
  exists j', index_key key (Json_object m) = Ret (Json_null, j') /\ Contains key j' = Ret true.
Proof.
  intros Hs Hn. eexists. rewrite index_key_object, Hn by done. split; [done|].
  unfold Contains. simpl. by rewrite map_find_put_eq.
Qed.

(** [Remove] with an index out of range leaves the array as it is. *)
Lemma remove_out_of_range l index : sz l < 2 ^ 31 -> ~ 0 <= index < sz l -> Remove_index index (Json_array l) = Ret (Json_array l).
Proof.
  intros Hs Hi. unfold Remove_index. change (Size (Json_array l)) with (Ret (i32 (sz l))). rewrite i32_small by lia. simpl.
  destruct ((0 <=? index) && (index <? sz l)) eqn:E; [|done]. apply andb_true_iff in E as [? ?]. zbool. lia.
Qed.
End Json.

(** ** Witnesses: a number is its decimal text *)

#[global] Instance text_double : Double :=
  {| double := bytes; atof s := s; double_text d := d; double_of_int z := dec z;
     int_of_double := atoi |}.

Definition demo_object : list (bytes * Json) := [(lit "id", Json_int 7)].

Lemma demo_object_wf : wf (Json_object demo_object).
Proof. constructor; [by repeat constructor|]. repeat constructor. Qed.


Lemma property_roundtrip_witness :
  exists j', AddProperty (lit "k") (Json_bool true) (Json_object demo_object) = Ret j' /\
    Contains (lit "k") j' = Ret true.
Proof.
  destruct (property_roundtrip demo_object (lit "k") (lit "z") (Json_bool true)) as (j' & H1 & _ & H2 & _);
    [apply demo_object_wf|constructor|vm_compute; set_solver|]. by exists j'.
Defined.
