(* ===== verification/JsonParser.v ===== *)
(** * The JSON parser: struct [Json::Parser] of src/natsu/gci-json.{h,cc}

    The parser walks over a C string with a position, the character last read
    and the token being built.  An exception carries the parser state at the
    throw, which the handlers of [ConsumeObject] and [ConsumeArray] use; the
    exceptions the parser raises are all [UnexpectedTokenException].  The
    recursion between values, arrays and objects is bounded by a fuel;
    [parse_total] shows that [2 * length + 4] is always enough. *)
From S2P Require Import Prelude StdString StdMap Json.

Record pstate : Type := mkP { pos : Z; character : ascii; token : bytes }.

Inductive presult (A : Type) : Type :=
| POk (a : A) (st : pstate)
| PThrow (ch : ascii) (at_pos : Z) (st : pstate)
| PUndef
| PFuel.
Arguments POk {A} a st.
Arguments PThrow {A} ch at_pos st.
Arguments PUndef {A}.
Arguments PFuel {A}.

(** A parser action on the C string [source]. *)
Definition P (A : Type) : Type := pstate -> presult A.

#[global] Instance P_ret : MRet P := fun A a st => POk a st.
#[global] Instance P_bind : MBind P := fun A B k m st =>
  match m st with
  | POk a st' => k a st'
  | PThrow c i st' => PThrow c i st'
  | PUndef => PUndef
  | PFuel => PFuel
  end.

Definition get_char : P ascii := fun st => POk (character st) st.
Definition get_token : P bytes := fun st => POk (token st) st.
Definition set_token (t : bytes) : P unit := fun st => POk tt (mkP (pos st) (character st) t).

(** [try { m } catch (exception& e) { h }]. *)
Definition try_catch {A} (m h : P A) : P A := fun st =>
  match m st with
  | PThrow _ _ st' => h st'
  | r => r
  end.

Definition Parser_new : pstate := mkP (-1) " "%char [].

Definition UnexpectedToken {A} : P A := fun st => PThrow (character st) (pos st) st.
Definition Concat : P unit := fun st =>
  POk tt (mkP (pos st) (character st) (token st ++ [character st])).
Definition Retract : P unit := fun st => POk tt (mkP (pos st - 1) " "%char (token st)).
Definition EOL : P bool := fun st => POk (Ascii.eqb NUL (character st)) st.
(** [pos--] on its own, as [SkipWhitespaces] does it. *)
Definition step_back : P unit := fun st => POk tt (mkP (pos st - 1) (character st) (token st)).

Definition isws (c : ascii) : bool :=
  Ascii.eqb " " c || Ascii.eqb "009" c || Ascii.eqb "010" c || Ascii.eqb "013" c.

(** [UnexpectedTokenException::what()]. *)
Definition what (ch : ascii) (at_pos : Z) : bytes :=
  if Ascii.eqb NUL ch then lit "SyntaxError: Unexpected end of input"
  else lit "SyntaxError: Unexpected token " ++
       (if isgraph ch then [ch]
        else dec (if code ch <? 128 then code ch else code ch - 256) ++ lit "(ASCII)") ++
       lit " at pos " ++ dec at_pos.

Section Parser.
Context `{D : Double} (source : bytes).

(** [*(source + i)]: the string and its terminating NUL are readable. *)
Definition source_at (i : Z) : option ascii :=
  if (0 <=? i) && (i <=? sz source) then (source ++ [NUL]) !! Z.to_nat i else None.

Definition NextCharacter : P ascii := fun st =>
  match (if 0 <=? pos st then source_at (pos st) else Some " "%char) with
  | None => PUndef
  | Some c =>
      if (0 <=? pos st) && Ascii.eqb NUL c then UnexpectedToken st else
      match source_at (pos st + 1) with
      | None => PUndef
      | Some c' => POk c' (mkP (pos st + 1) c' (token st))
      end
  end.

(** Each loop below reads at least one character per round: the length of the
    source bounds the rounds. *)
Fixpoint skip_loop (n : nat) : P unit :=
  match n with
  | O => fun _ => PFuel
  | S n' =>
      ch ← NextCharacter;
      if isws ch then skip_loop n' else step_back
  end.
Definition SkipWhitespaces : P unit := skip_loop (length source + 2).

Fixpoint specific_loop (str : bytes) : P unit :=
  match str with
  | [] => mret tt
  | c :: str' =>
      ch ← NextCharacter;
      if Ascii.eqb c ch then specific_loop str' else UnexpectedToken
  end.
Definition ConsumeSpecific (str : bytes) : P unit := specific_loop str.

Definition KindDetect : P Kind :=
  ch ← NextCharacter;
  let kind :=
    if Ascii.eqb QUOTE ch then kString
    else if Ascii.eqb "t" ch || Ascii.eqb "f" ch then kBool
    else if Ascii.eqb "n" ch then kNull
    else if Ascii.eqb "{" ch then kObject
    else if Ascii.eqb "[" ch then kArray
    else kNumber in
  Retract;; mret kind.

(** [while (loop) { if (!isdigit(NextCharacter())) { Retract(); break; } Concat(); }] *)
Fixpoint digits_retract_loop (n : nat) : P unit :=
  match n with
  | O => fun _ => PFuel
  | S n' =>
      ch ← NextCharacter;
      if negb (isdigit ch) then Retract else (Concat;; digits_retract_loop n')
  end.

(** [while (dot) { NextCharacter(); if (!isdigit(character)) { break; } Concat(); }] *)
Fixpoint digits_loop (n : nat) : P unit :=
  match n with
  | O => fun _ => PFuel
  | S n' =>
      ch ← NextCharacter;
      if negb (isdigit ch) then mret tt else (Concat;; digits_loop n')
  end.

Definition loop_bound : nat := length source + 2.

Definition number_exponent : P unit :=
  Concat;;
  ch ← NextCharacter;
  (if Ascii.eqb "+" ch || Ascii.eqb "-" ch then Concat
   else if isdigit ch then Retract
   else UnexpectedToken);;
  ch ← NextCharacter;
  if negb (isdigit ch) then UnexpectedToken else
  Concat;;
  digits_retract_loop loop_bound.

Definition ConsumeNumber : P Json :=
  set_token [];;
  ch ← NextCharacter;
  (if Ascii.eqb "-" ch then Concat;; NextCharacter;; mret tt else mret tt);;
  ch ← get_char;
  if negb (isdigit ch) then UnexpectedToken else
  Concat;;
  (if Ascii.eqb "0" ch then mret tt else digits_retract_loop loop_bound);;
  ch ← NextCharacter;
  if isdigit ch then UnexpectedToken else
  (if Ascii.eqb "." ch then
     Concat;;
     ch ← NextCharacter;
     if negb (isdigit ch) then UnexpectedToken else
     Concat;; digits_loop loop_bound
   else mret tt);;
  ch ← get_char;
  (if Ascii.eqb "e" ch || Ascii.eqb "E" ch then number_exponent else Retract);;
  t ← get_token;
  mret (Json_double (atof (cstr t))).

Definition is_escape (c : ascii) : bool := char_in c (QUOTE :: lit "\/bfnrt").

Fixpoint hex_loop (n : nat) : P unit :=
  match n with
  | O => mret tt
  | S n' =>
      ch ← NextCharacter;
      if negb (isxdigit ch) then UnexpectedToken else (Concat;; hex_loop n')
  end.

Fixpoint string_loop (n : nat) : P unit :=
  match n with
  | O => fun _ => PFuel
  | S n' =>
      ch ← NextCharacter;
      if Ascii.eqb QUOTE ch then mret tt else
      (if Ascii.eqb "\" ch then
         Concat;;
         ch ← NextCharacter;
         if is_escape ch then Concat
         else if Ascii.eqb "u" ch then (Concat;; hex_loop 4)
         else UnexpectedToken
       else if iscntrl ch then UnexpectedToken else Concat);;
      string_loop n'
  end.

Definition ConsumeString : P Json :=
  SkipWhitespaces;;
  ch ← NextCharacter;
  if negb (Ascii.eqb QUOTE ch) then UnexpectedToken else
  set_token [];;
  string_loop loop_bound;;
  t ← get_token;
  mret (Json_string t).

Definition ConsumeBool : P Json :=
  ch ← NextCharacter;
  Retract;;
  if Ascii.eqb "t" ch then (ConsumeSpecific (lit "true");; mret (Json_bool true))
  else (ConsumeSpecific (lit "false");; mret (Json_bool false)).

Definition ConsumeNull : P Json := ConsumeSpecific (lit "null");; mret Json_null.

(** The key of a pair: [string key(pkey->AsString())]. *)
Definition pair_key (pkey : Json) : P bytes := fun st =>
  match AsString pkey with
  | Ret s => POk s st
  | _ => PUndef
  end.

Fixpoint ConsumeValue (fuel : nat) (section : bool) : P Json :=
  match fuel with
  | O => fun _ => PFuel
  | S fuel' =>
      SkipWhitespaces;;
      kind ← KindDetect;
      json ← match kind with
             | kNumber => ConsumeNumber
             | kString => ConsumeString
             | kBool => ConsumeBool
             | kNull => ConsumeNull
             | kObject => ConsumeObject fuel'
             | kArray => ConsumeArray fuel'
             end;
      eol ← EOL;
      (if negb section && negb eol then
         SkipWhitespaces;;
         NextCharacter;;
         eol ← EOL;
         if negb eol then UnexpectedToken else mret tt
       else mret tt);;
      (if section then SkipWhitespaces else mret tt);;
      mret json
  end
with ConsumeObject (fuel : nat) : P Json :=
  match fuel with
  | O => fun _ => PFuel
  | S fuel' =>
      ch ← NextCharacter;
      if negb (Ascii.eqb "{" ch) then UnexpectedToken else
      SkipWhitespaces;;
      ch ← NextCharacter;
      if Ascii.eqb "}" ch then mret (Json_object []) else
      Retract;;
      '(key, value) ← try_catch (ConsumePair fuel') UnexpectedToken;
      object_loop fuel' (map_insert key value [])
  end
with object_loop (fuel : nat) (obj : list (bytes * Json)) : P Json :=
  match fuel with
  | O => fun _ => PFuel
  | S fuel' =>
      ch ← NextCharacter;
      if Ascii.eqb "}" ch then mret (Json_object obj)
      else if Ascii.eqb "," ch then
        '(key, value) ← try_catch (ConsumePair fuel') UnexpectedToken;
        object_loop fuel' (map_insert key value obj)
      else UnexpectedToken
  end
with ConsumeArray (fuel : nat) : P Json :=
  match fuel with
  | O => fun _ => PFuel
  | S fuel' =>
      ch ← NextCharacter;
      if negb (Ascii.eqb "[" ch) then UnexpectedToken else
      SkipWhitespaces;;
      ch ← NextCharacter;
      if Ascii.eqb "]" ch then mret (Json_array []) else
      Retract;;
      value ← try_catch (ConsumeValue fuel' true) UnexpectedToken;
      array_loop fuel' ([] ++ [value])
  end
with array_loop (fuel : nat) (arr : list Json) : P Json :=
  match fuel with
  | O => fun _ => PFuel
  | S fuel' =>
      ch ← NextCharacter;
      if Ascii.eqb "]" ch then mret (Json_array arr)
      else if Ascii.eqb "," ch then
        value ← try_catch (ConsumeValue fuel' true) UnexpectedToken;
        array_loop fuel' (arr ++ [value])
      else UnexpectedToken
  end
with ConsumePair (fuel : nat) : P (bytes * Json) :=
  match fuel with
  | O => fun _ => PFuel
  | S fuel' =>
      pkey ← ConsumeString;
      key ← pair_key pkey;
      SkipWhitespaces;;
      ConsumeSpecific (lit ":");;
      value ← ConsumeValue fuel' true;
      mret (key, value)
  end.

(** [Json::Parse]; the fuel is fixed by [parse_fuel]. *)
Definition parse_fuel : nat := 2 * length source + 4.

Definition Parse : outcome Json :=
  match ConsumeValue parse_fuel false Parser_new with
  | POk json _ => Ret json
  | PThrow ch i _ => Throw (ExnUnexpectedToken (code ch) i)
  | PUndef => Undef
  | PFuel => Fuel
  end.

(** ** The parser stays inside the string and terminates *)

Abbreviation len := (sz source).

(** The action ended, by a return at a position of at least [lo] or by an
    exception; it read only the string and had enough fuel. *)
Definition within {A} (lo : Z) (r : presult A) : Prop :=
  match r with
  | POk _ st => lo <= pos st <= len
  | PThrow _ _ _ => True
  | PUndef | PFuel => False
  end.

Lemma within_weaken {A} lo lo' (r : presult A) : lo' <= lo -> within lo r -> within lo' r.
Proof. destruct r; simpl; try done. lia. Qed.

Lemma within_bind {A B} lo1 lo (m : P A) (k : A -> P B) st :
  within lo1 (m st) -> (forall a st', lo1 <= pos st' <= len -> within lo (k a st')) ->
  within lo ((m ≫= k) st).
Proof. unfold mbind, P_bind. destruct (m st); simpl; auto. Qed.

Lemma within_ret {A} lo (a : A) st : lo <= pos st <= len -> within lo (mret (M := P) a st).
Proof. done. Qed.

Lemma within_throw {A} lo st : within lo (UnexpectedToken (A := A) st).
Proof. done. Qed.

Lemma within_try {A} lo (m : P A) st :
  within lo (m st) -> within lo (try_catch m UnexpectedToken st).
Proof. unfold try_catch. by destruct (m st). Qed.

Lemma source_at_valid i : 0 <= i <= len -> exists c, source_at i = Some c.
Proof.
  intros Hi. unfold source_at. rewrite (proj2 (Z.leb_le _ _)), (proj2 (Z.leb_le _ _)) by lia.
  apply lookup_lt_is_Some_2. rewrite length_app. simpl. lia.
Qed.

Lemma source_at_end : source_at len = Some NUL.
Proof.
  unfold source_at. rewrite (proj2 (Z.leb_le _ _)), (proj2 (Z.leb_le _ _)) by lia. simpl.
  rewrite Nat2Z.id, lookup_app_r, Nat.sub_diag by lia. done.
Qed.

Lemma within_next st : -1 <= pos st <= len -> within (pos st + 1) (NextCharacter st).
Proof.
  intros Hp. unfold NextCharacter. destruct (0 <=? pos st) eqn:E0; zbool.
  - destruct (source_at_valid (pos st)) as [c Hc]; [lia|]. rewrite Hc. cbn [andb].
    destruct (Ascii.eqb NUL c) eqn:En; [done|].
    destruct (decide (pos st = len)) as [He|He].
    { rewrite He, source_at_end in Hc. injection Hc as <-. by vm_compute in En. }
    destruct (source_at_valid (pos st + 1)) as [c' ->]; [lia|]. simpl. lia.
  - cbn [andb]. destruct (source_at_valid (pos st + 1)) as [c' ->]; [lia|]. simpl. lia.
Qed.

Lemma within_retract st : 0 <= pos st <= len -> within (pos st - 1) (Retract st).
Proof. simpl. lia. Qed.

Lemma within_concat st : -1 <= pos st <= len -> within (pos st) (Concat st).
Proof. simpl. lia. Qed.

(** One step of an action: the position after it is at least what the step
    guarantees. *)
Ltac wnext := eapply within_bind; [apply within_next; lia|]; intros ? ? ?.
Ltac wback := eapply within_bind; [apply within_retract; lia|]; intros ? ? ?.
Ltac wcat := eapply within_bind; [apply within_concat; lia|]; intros ? ? ?.
Ltac wdone := first [apply within_throw | apply within_ret; lia
  | eapply within_weaken; [|apply within_concat]; lia
  | eapply within_weaken; [|apply within_retract]; lia ].

Lemma within_skip_loop n st :
  -1 <= pos st <= len -> len - pos st < Z.of_nat n -> within (pos st) (skip_loop n st).
Proof.
  revert st. induction n as [|n IH]; intros st Hp Hn; [lia|]. cbn [skip_loop]. wnext.
  destruct (isws a).
  - eapply within_weaken; [|apply IH]; lia.
  - simpl. lia.
Qed.

Lemma within_skip st : -1 <= pos st <= len -> within (pos st) (SkipWhitespaces st).
Proof. intros. apply within_skip_loop; lia. Qed.

Ltac wskip := eapply within_bind; [apply within_skip; lia|]; intros ? ? ?.

Lemma within_specific str st :
  -1 <= pos st <= len -> within (pos st + sz str) (ConsumeSpecific str st).
Proof.
  unfold ConsumeSpecific. revert st. induction str as [|c str IH]; intros st Hp.
  - simpl. lia.
  - cbn [specific_loop]. wnext. destruct (Ascii.eqb c a); [|wdone].
    eapply within_weaken; [|apply IH]; cbn [length]; lia.
Qed.

Lemma within_kind st : -1 <= pos st <= len -> within (pos st) (KindDetect st).
Proof. intros. unfold KindDetect. wnext. wback. wdone. Qed.

Lemma within_digits_retract n st :
  -1 <= pos st <= len -> len - pos st < Z.of_nat n -> within (pos st) (digits_retract_loop n st).
Proof.
  revert st. induction n as [|n IH]; intros st Hp Hn; [lia|]. cbn [digits_retract_loop]. wnext.
  destruct (isdigit a); cbn [negb]; [|wdone].
  wcat. eapply within_weaken; [|apply IH]; lia.
Qed.

Lemma within_digits n st :
  -1 <= pos st <= len -> len - pos st < Z.of_nat n -> within (pos st + 1) (digits_loop n st).
Proof.
  revert st. induction n as [|n IH]; intros st Hp Hn; [lia|]. cbn [digits_loop]. wnext.
  destruct (isdigit a); cbn [negb]; [|wdone].
  wcat. eapply within_weaken; [|apply IH]; lia.
Qed.

Lemma within_exponent st : -1 <= pos st <= len -> within (pos st + 1) (number_exponent st).
Proof.
  intros. unfold number_exponent. wcat. wnext.
  eapply (within_bind (pos st)).
  { case_match; [wdone|]. case_match; wdone. }
  intros. wnext. case_match; [wdone|]. wcat.
  eapply within_weaken; [|apply within_digits_retract]; unfold loop_bound; lia.
Qed.

Lemma within_number st : -1 <= pos st <= len -> within (pos st + 1) (ConsumeNumber st).
Proof.
  intros. unfold ConsumeNumber.
  eapply (within_bind (pos st)); [simpl; lia|]. intros _ s1 ?. wnext.
  eapply (within_bind (pos s1 + 1)).
  { case_match; [|wdone]. wcat. wnext. wdone. }
  intros _ s2 ?. eapply (within_bind (pos s1 + 1)); [simpl; lia|]. intros ch s3 ?.
  case_match; [wdone|]. wcat.
  eapply (within_bind (pos s1 + 1)).
  { case_match; [wdone|]. eapply within_weaken; [|apply within_digits_retract]; unfold loop_bound; lia. }
  intros _ s4 ?. wnext. case_match; [wdone|].
  eapply (within_bind (pos s1 + 2)).
  { case_match; [|wdone]. wcat. wnext. case_match; [wdone|]. wcat.
    eapply within_weaken; [|apply within_digits]; unfold loop_bound; lia. }
  intros _ s5 ?. eapply (within_bind (pos s1 + 2)); [simpl; lia|]. intros c s6 ?.
  eapply (within_bind (pos s1 + 1)).
  { case_match; [|wdone]. eapply within_weaken; [|apply within_exponent]; lia. }
  intros _ s7 ?. eapply (within_bind (pos s1 + 1)); [simpl; lia|]. intros. wdone.
Qed.

Lemma within_hex n st : -1 <= pos st <= len -> within (pos st) (hex_loop n st).
Proof.
  revert st. induction n as [|n IH]; intros st Hp; cbn [hex_loop]; [wdone|]. wnext.
  case_match; [wdone|]. wcat. eapply within_weaken; [|apply IH]; lia.
Qed.

Lemma within_string_loop n st :
  -1 <= pos st <= len -> len - pos st < Z.of_nat n -> within (pos st + 1) (string_loop n st).
Proof.
  revert st. induction n as [|n IH]; intros st Hp Hn; [lia|]. cbn [string_loop]. wnext.
  case_match; [wdone|]. eapply (within_bind (pos st + 1)).
  { case_match; [|case_match; wdone]. wcat. wnext. case_match; [wdone|].
    case_match; [|wdone]. wcat. eapply within_weaken; [|apply within_hex]; lia. }
  intros. eapply within_weaken; [|apply IH]; lia.
Qed.

Lemma within_string st : -1 <= pos st <= len -> within (pos st + 2) (ConsumeString st).
Proof.
  intros. unfold ConsumeString. wskip. wnext. case_match; [wdone|].
  eapply (within_bind (pos st + 1)); [simpl; lia|]. intros _ s1 ?.
  eapply (within_bind (pos st + 2)).
  { eapply within_weaken; [|apply within_string_loop]; unfold loop_bound; lia. }
  intros. eapply (within_bind (pos st + 2)); [simpl; lia|]. intros. wdone.
Qed.

Lemma within_bool st : -1 <= pos st <= len -> within (pos st + 1) (ConsumeBool st).
Proof.
  intros. unfold ConsumeBool. wnext. wback. case_match;
    (eapply within_bind; [apply within_specific; lia|]; intros; apply within_ret;
     cbn [length lit String.list_ascii_of_string] in *; lia).
Qed.

Lemma within_null st : -1 <= pos st <= len -> within (pos st + 1) (ConsumeNull st).
Proof.
  intros. unfold ConsumeNull. eapply within_bind; [apply within_specific; lia|].
  intros; apply within_ret; cbn [length lit String.list_ascii_of_string] in *; lia.
Qed.

(** The object a consumer builds is a string object. *)
Lemma ConsumeString_kind st :
  match ConsumeString st with POk j _ => exists t, j = Json_string t | _ => True end.
Proof.
  unfold ConsumeString, mbind, P_bind, mret, P_ret.
  repeat (case_match; simplify_eq/=; try done). all: eauto.
Qed.

Lemma within_key fuel st :
  (forall st, -1 <= pos st <= len -> 2 * (len - pos st) + 2 <= Z.of_nat fuel ->
    within (pos st + 1) (ConsumeValue fuel true st)) ->
  -1 <= pos st <= len -> 2 * (len - pos st) + 1 <= Z.of_nat (S fuel) ->
  within (pos st + 1) (ConsumePair (S fuel) st).
Proof.
  intros IH Hp Hf. cbn [ConsumePair].
  pose proof (within_string st Hp) as Hs. pose proof (ConsumeString_kind st) as Hk.
  unfold mbind, P_bind at 1. destruct (ConsumeString st) as [j s1| | |]; try done.
  destruct Hk as [t ->]. cbn [within] in Hs. cbn [pair_key AsString Data_string Json_string kind_ data_].
  change (within (pos st + 1)
    ((SkipWhitespaces;; ConsumeSpecific (lit ":");; value ← ConsumeValue fuel true; mret (cstr t, value)) s1)).
  wskip. eapply within_bind; [apply within_specific; lia|]. intros _ s2 ?.
  cbn [length lit String.list_ascii_of_string] in *.
  eapply within_bind; [apply IH; lia|]. intros. wdone.
Qed.

Definition all_within (fuel : nat) : Prop :=
  (forall b st, -1 <= pos st <= len -> 2 * (len - pos st) + 2 <= Z.of_nat fuel ->
    within (pos st + 1) (ConsumeValue fuel b st)) /\
  (forall st, -1 <= pos st <= len -> 2 * (len - pos st) + 1 <= Z.of_nat fuel ->
    within (pos st + 1) (ConsumeObject fuel st)) /\
  (forall obj st, -1 <= pos st <= len -> 2 * (len - pos st) + 1 <= Z.of_nat fuel ->
    within (pos st + 1) (object_loop fuel obj st)) /\
  (forall st, -1 <= pos st <= len -> 2 * (len - pos st) + 1 <= Z.of_nat fuel ->
    within (pos st + 1) (ConsumeArray fuel st)) /\
  (forall arr st, -1 <= pos st <= len -> 2 * (len - pos st) + 1 <= Z.of_nat fuel ->
    within (pos st + 1) (array_loop fuel arr st)) /\
  (forall st, -1 <= pos st <= len -> 2 * (len - pos st) + 1 <= Z.of_nat fuel ->
    within (pos st + 1) (ConsumePair fuel st)).

Lemma within_value_step fuel b st :
  all_within fuel -> -1 <= pos st <= len -> 2 * (len - pos st) + 2 <= Z.of_nat (S fuel) ->
  within (pos st + 1) (ConsumeValue (S fuel) b st).
Proof.
  intros (_ & Hobj & _ & Harr & _ & _) Hp Hf. cbn [ConsumeValue]. wskip.
  eapply within_bind; [apply within_kind; lia|]. intros kind s1 ?.
  eapply (within_bind (pos st + 1)).
  { destruct kind; (eapply within_weaken; [|first [apply within_number | apply within_string
      | apply within_bool | apply within_null | apply Hobj | apply Harr]]); lia. }
  intros json s2 ?. eapply (within_bind (pos st + 1)); [simpl; lia|]. intros eol s3 ?.
  eapply (within_bind (pos st + 1)).
  { case_match; [|wdone]. wskip. wnext. eapply (within_bind (pos st + 1)); [simpl; lia|].
    intros. case_match; wdone. }
  intros _ s4 ?. eapply (within_bind (pos st + 1)).
  { case_match; [|wdone]. eapply within_weaken; [|apply within_skip]; lia. }
  intros. wdone.
Qed.

Lemma within_object_step fuel :
  all_within fuel ->
  (forall st, -1 <= pos st <= len -> 2 * (len - pos st) + 1 <= Z.of_nat (S fuel) ->
    within (pos st + 1) (ConsumeObject (S fuel) st)) /\
  (forall obj st, -1 <= pos st <= len -> 2 * (len - pos st) + 1 <= Z.of_nat (S fuel) ->
    within (pos st + 1) (object_loop (S fuel) obj st)).
Proof.
  intros (_ & _ & Hloop & _ & _ & Hpair). split.
  - intros st Hp Hf. cbn [ConsumeObject]. wnext. case_match; [wdone|]. wskip. wnext.
    case_match; [wdone|]. wback. eapply (within_bind (pos st + 2)).
    { apply within_try. eapply within_weaken; [|apply Hpair]; lia. }
    intros [key value] s1 ?. eapply within_weaken; [|apply Hloop]; lia.
  - intros obj st Hp Hf. cbn [object_loop]. wnext. case_match; [wdone|]. case_match; [|wdone].
    eapply (within_bind (pos st + 2)).
    { apply within_try. eapply within_weaken; [|apply Hpair]; lia. }
    intros [key value] s1 ?. eapply within_weaken; [|apply Hloop]; lia.
Qed.

Lemma within_array_step fuel :
  all_within fuel ->
  (forall st, -1 <= pos st <= len -> 2 * (len - pos st) + 1 <= Z.of_nat (S fuel) ->
    within (pos st + 1) (ConsumeArray (S fuel) st)) /\
  (forall arr st, -1 <= pos st <= len -> 2 * (len - pos st) + 1 <= Z.of_nat (S fuel) ->
    within (pos st + 1) (array_loop (S fuel) arr st)).
Proof.
  intros (Hval & _ & _ & _ & Hloop & _). split.
  - intros st Hp Hf. cbn [ConsumeArray]. wnext. case_match; [wdone|]. wskip. wnext.
    case_match; [wdone|]. wback. eapply (within_bind (pos st + 2)).
    { apply within_try. eapply within_weaken; [|apply Hval]; lia. }
    intros value s1 ?. eapply within_weaken; [|apply Hloop]; lia.
  - intros arr st Hp Hf. cbn [array_loop]. wnext. case_match; [wdone|]. case_match; [|wdone].
    eapply (within_bind (pos st + 2)).
    { apply within_try. eapply within_weaken; [|apply Hval]; lia. }
    intros value s1 ?. eapply within_weaken; [|apply Hloop]; lia.
Qed.

Lemma all_within_fuel fuel : all_within fuel.
Proof.
  induction fuel as [|fuel IH]; [repeat split; intros; lia|].
  destruct (within_object_step fuel IH) as [Ho Hol].
  destruct (within_array_step fuel IH) as [Ha Hal].
  split; [intros; by apply within_value_step|]. do 4 (split; [done|]).
  intros. apply within_key; [apply IH|done|done].
Qed.

Lemma parse_ends :
  (exists j, Parse = Ret j) \/ exists ch i, Parse = Throw (ExnUnexpectedToken ch i).
Proof.
  unfold Parse. pose proof (proj1 (all_within_fuel parse_fuel) false Parser_new) as Hw.
  unfold parse_fuel in Hw at 1. cbn [Parser_new pos] in Hw. specialize (Hw ltac:(lia) ltac:(lia)).
  destruct (ConsumeValue parse_fuel false Parser_new); try done; eauto.
Qed.

(** [Json::Parse] ends on every C string, with a value or with an unexpected
    token exception, and never reads outside of the string. *)
Theorem parse_total :
  (exists j, Parse = Ret j) \/ exists ch i, Parse = Throw (ExnUnexpectedToken ch i).
Proof. apply parse_ends. Qed.
End Parser.
