(* ===== verification/JsonGrammar.v ===== *)
(** * JSON texts: the language [Json::Parse] reads and [Json::ToString] writes

    An inductive grammar of JSON texts with the values they denote, as the
    comments of src/natsu/gci-json.h describe them, and the theorems that the
    parser of gci-json.cc returns that value for every text of the grammar and
    that the printer's texts are in it. *)
From S2P Require Import Prelude StdString StdMap Json JsonParser.

(** Equalities between splits of the source. *)
Ltac assoc := repeat progress (rewrite <- ?app_assoc; cbn [app]).
Ltac src Hs := rewrite ?Hs; assoc; reflexivity.

(** ** Tokens *)

Definition digit (c : ascii) : Prop := isdigit c = true.
Definition ws (t : bytes) : Prop := Forall (fun c => isws c = true) t.

Inductive int_text : bytes -> Prop :=
| int_zero : int_text (lit "0")
| int_pos d ds : digit d -> d <> "0"%char -> Forall digit ds -> int_text (d :: ds).
Inductive sign_text : bytes -> Prop :=
| sign_none : sign_text []
| sign_minus : sign_text (lit "-").
Inductive frac_text : bytes -> Prop :=
| frac_none : frac_text []
| frac_digits d ds : digit d -> Forall digit ds -> frac_text ("."%char :: d :: ds).
Inductive exp_text : bytes -> Prop :=
| exp_none : exp_text []
| exp_plain e d ds : e ∈ lit "eE" -> digit d -> Forall digit ds -> exp_text (e :: d :: ds)
| exp_signed e s d ds : e ∈ lit "eE" -> s ∈ lit "+-" -> digit d -> Forall digit ds ->
    exp_text (e :: s :: d :: ds).

Definition number_text (t : bytes) : Prop :=
  exists s i f e, sign_text s /\ int_text i /\ frac_text f /\ exp_text e /\ t = s ++ i ++ f ++ e.

(** The inside of a string literal; escape sequences are kept as written. *)
Inductive string_text : bytes -> Prop :=
| str_nil : string_text []
| str_char c t : c <> QUOTE -> c <> "\"%char -> iscntrl c = false -> string_text t -> string_text (c :: t)
| str_escape c t : is_escape c = true -> string_text t -> string_text ("\"%char :: c :: t)
| str_unicode h1 h2 h3 h4 t :
    Forall (fun c => isxdigit c = true) [h1; h2; h3; h4] -> string_text t ->
    string_text ("\"%char :: "u"%char :: h1 :: h2 :: h3 :: h4 :: t).

(** ** Values *)

Section Grammar.
Context `{D : Double}.

(** The pairs of an object in the order of the text: the first value of a
    repeated key is kept. *)
Definition insert_all (kvs : list (bytes * Json)) (m : list (bytes * Json)) : list (bytes * Json) :=
  fold_left (fun m '(k, v) => map_insert k v m) kvs m.

Inductive value_text : bytes -> Json -> Prop :=
| val_number t : number_text t -> value_text t (Json_double (atof t))
| val_string t : string_text t -> value_text (QUOTE :: t ++ [QUOTE]) (Json_string t)
| val_true : value_text (lit "true") (Json_bool true)
| val_false : value_text (lit "false") (Json_bool false)
| val_null : value_text (lit "null") Json_null
| val_array_empty w : ws w -> value_text ("["%char :: w ++ lit "]") (Json_array [])
| val_array t l : items_text t l -> value_text ("["%char :: t ++ lit "]") (Json_array l)
| val_object_empty w : ws w -> value_text ("{"%char :: w ++ lit "}") (Json_object [])
| val_object t l : pairs_text t l -> value_text ("{"%char :: t ++ lit "}") (Json_object (insert_all l []))
with items_text : bytes -> list Json -> Prop :=
| items_one w t w' v : ws w -> value_text t v -> ws w' -> items_text (w ++ t ++ w') [v]
| items_cons w t w' v t' l : ws w -> value_text t v -> ws w' -> items_text t' l ->
    items_text (w ++ t ++ w' ++ ","%char :: t') (v :: l)
with pairs_text : bytes -> list (bytes * Json) -> Prop :=
| pairs_one t k v : pair_text t k v -> pairs_text t [(k, v)]
| pairs_cons t k v t' l : pair_text t k v -> pairs_text t' l -> pairs_text (t ++ ","%char :: t') ((k, v) :: l)
with pair_text : bytes -> bytes -> Json -> Prop :=
| pair_kv w1 k w2 w3 t w4 v : ws w1 -> string_text k -> ws w2 -> ws w3 -> value_text t v -> ws w4 ->
    pair_text (w1 ++ (QUOTE :: k ++ [QUOTE]) ++ w2 ++ ":"%char :: w3 ++ t ++ w4) k v.

Inductive json_text : bytes -> Json -> Prop :=
| json_value w t w' v : ws w -> value_text t v -> ws w' -> json_text (w ++ t ++ w') v.

Scheme value_text_mind := Minimality for value_text Sort Prop
with items_text_mind := Minimality for items_text Sort Prop
with pairs_text_mind := Minimality for pairs_text Sort Prop
with pair_text_mind := Minimality for pair_text Sort Prop.
Combined Scheme json_mutind from value_text_mind, items_text_mind, pairs_text_mind, pair_text_mind.

(** ** Steps of the parser on a split of the source *)

(** The character after a prefix: the head of what follows, or the NUL. *)
Definition peek (rest : bytes) : ascii := match rest with c :: _ => c | [] => NUL end.

(** The state of a parser that has read the prefix [pre]. *)
Definition at_ (pre : bytes) (ch : ascii) (tok : bytes) : pstate := mkP (sz pre - 1) ch tok.

Lemma bind_ok {A B} (m : P A) (k : A -> P B) st a st' :
  m st = POk a st' -> (m ≫= k) st = k a st'.
Proof. unfold mbind, P_bind. by intros ->. Qed.

Lemma ret_bind {A B} (a : A) (k : A -> P B) st : (mret a ≫= k) st = k a st.
Proof. done. Qed.

Lemma set_token_at pre ch tok t : set_token t (at_ pre ch tok) = POk tt (at_ pre ch t).
Proof. done. Qed.

Section Source.
Context (source : bytes) (Hnul : NUL ∉ source).

Lemma next_at pre rest ch tok :
  source = pre ++ rest ->
  NextCharacter source (at_ pre ch tok) = POk (peek rest) (at_ (pre ++ [peek rest]) (peek rest) tok).
Proof.
  intros Hs. unfold NextCharacter, at_. cbn [pos token].
  assert (source_at source (sz pre - 1 + 1) = Some (peek rest)) as Hnext.
  { unfold source_at. replace (sz pre - 1 + 1) with (sz pre) by lia.
    rewrite (proj2 (Z.leb_le 0 _)), (proj2 (Z.leb_le _ (sz source))) by (rewrite ?Hs, ?length_app; lia).
    cbn [andb]. rewrite Nat2Z.id, Hs, <- app_assoc, lookup_app_r, Nat.sub_diag by done. by destruct rest. }
  rewrite Hnext. replace (sz (pre ++ [peek rest]) - 1) with (sz pre - 1 + 1)
    by (rewrite length_app; cbn [length]; lia).
  destruct (0 <=? sz pre - 1) eqn:E; [|done]. zbool. cbn [andb].
  unfold source_at. rewrite (proj2 (Z.leb_le 0 _)), (proj2 (Z.leb_le _ (sz source))) by (rewrite ?Hs, ?length_app; lia).
  cbn [andb]. rewrite lookup_app_l by (rewrite Hs, length_app; lia).
  destruct (lookup_lt_is_Some_2 source (Z.to_nat (sz pre - 1))) as [c Hc]; [rewrite Hs, length_app; lia|].
  rewrite Hc. destruct (Ascii.eqb_spec NUL c) as [<-|_]; [|done].
  exfalso. apply Hnul. by eapply list_elem_of_lookup_2.
Qed.

Lemma next_cons pre c rest ch tok :
  source = pre ++ c :: rest ->
  NextCharacter source (at_ pre ch tok) = POk c (at_ (pre ++ [c]) c tok).
Proof. apply next_at. Qed.

Lemma retract_at pre c ch tok : Retract (at_ (pre ++ [c]) ch tok) = POk tt (at_ pre " "%char tok).
Proof. unfold Retract, at_. cbn [pos token]. do 2 f_equal. rewrite length_app. cbn [length]. lia. Qed.

Lemma concat_at pre ch tok : Concat (at_ pre ch tok) = POk tt (at_ pre ch (tok ++ [ch])).
Proof. done. Qed.

Lemma skip_at pre w rest ch tok :
  source = pre ++ w ++ rest -> ws w -> isws (peek rest) = false ->
  SkipWhitespaces source (at_ pre ch tok) = POk tt (at_ (pre ++ w) (peek rest) tok).
Proof.
  intros Hs Hw Hr. unfold SkipWhitespaces.
  assert (length w < length source + 2)%nat as Hn by (rewrite Hs, !length_app; lia).
  revert Hn. generalize (length source + 2)%nat as n. revert pre ch Hs.
  induction Hw as [|c w Hc Hw IH]; intros pre ch Hs [|n] Hn; cbn [length] in Hn; try lia; cbn [skip_loop].
  - rewrite (bind_ok _ _ _ _ _ (next_at pre rest ch tok Hs)), Hr. unfold step_back, at_. cbn [pos character token].
    do 2 f_equal. rewrite !length_app. cbn [length]. lia.
  - rewrite (bind_ok _ _ _ _ _ (next_cons pre c (w ++ rest) ch tok Hs)), Hc.
    rewrite IH by (rewrite <- ?app_assoc; done || lia). by rewrite <- app_assoc.
Qed.

Lemma last_cons_default {A} (l : list A) a x : List.last (a :: l) x = List.last l a.
Proof.
  revert a x. induction l as [|b l IH]; intros a x; [done|].
  change (List.last (a :: b :: l) x) with (List.last (b :: l) x). by rewrite !IH.
Qed.

Lemma specific_at str pre rest ch tok :
  source = pre ++ str ++ rest ->
  ConsumeSpecific source str (at_ pre ch tok) = POk tt (at_ (pre ++ str) (List.last str ch) tok).
Proof.
  unfold ConsumeSpecific. revert pre ch. induction str as [|c str IH]; intros pre ch Hs; cbn [specific_loop].
  - by rewrite app_nil_r.
  - rewrite (bind_ok _ _ _ _ _ (next_cons pre c (str ++ rest) ch tok Hs)), Ascii.eqb_refl.
    rewrite IH by (by rewrite <- app_assoc). rewrite <- app_assoc.
    by rewrite last_cons_default.
Qed.

(** ** Numbers *)

(** What can follow a value: white space, a separator or the end. *)
Definition delim (c : ascii) : Prop := isws c = true \/ c ∈ NUL :: lit ",]}".

Lemma delim_cases c :
  delim c -> isdigit c = false /\ Ascii.eqb "." c = false /\
  Ascii.eqb "e" c || Ascii.eqb "E" c = false.
Proof.
  intros [H|H].
  - unfold isws in H. rewrite !orb_true_iff, !Ascii.eqb_eq in H.
    destruct H as [[[<-|<-]|<-]|<-]; repeat split; vm_compute; reflexivity.
  - cbn [lit String.list_ascii_of_string] in H.
    repeat (apply elem_of_cons in H as [->|H]; [by vm_compute|]). by apply not_elem_of_nil in H.
Qed.

Lemma digits_retract_at n pre ds rest ch tok :
  source = pre ++ ds ++ rest -> Forall digit ds -> isdigit (peek rest) = false -> (length ds < n)%nat ->
  digits_retract_loop source n (at_ pre ch tok) = POk tt (at_ (pre ++ ds) " "%char (tok ++ ds)).
Proof.
  intros Hs Hds Hr. revert n pre ch tok Hs.
  induction Hds as [|c ds Hc Hds IH]; intros [|n] pre ch tok Hs Hn; cbn [length] in Hn; try lia;
    cbn [digits_retract_loop].
  - rewrite (bind_ok _ _ _ _ _ (next_at pre rest ch tok Hs)), Hr. cbn [negb].
    rewrite retract_at. by rewrite !app_nil_r.
  - rewrite (bind_ok _ _ _ _ _ (next_cons pre c (ds ++ rest) ch tok Hs)), Hc. cbn [negb].
    rewrite (bind_ok _ _ _ _ _ (concat_at _ _ _)).
    rewrite IH by (rewrite <- ?app_assoc; done || lia). by rewrite <- !app_assoc.
Qed.

Lemma digits_at n pre ds rest ch tok :
  source = pre ++ ds ++ rest -> Forall digit ds -> isdigit (peek rest) = false -> (length ds < n)%nat ->
  digits_loop source n (at_ pre ch tok) =
  POk tt (at_ ((pre ++ ds) ++ [peek rest]) (peek rest) (tok ++ ds)).
Proof.
  intros Hs Hds Hr. revert n pre ch tok Hs.
  induction Hds as [|c ds Hc Hds IH]; intros [|n] pre ch tok Hs Hn; cbn [length] in Hn; try lia;
    cbn [digits_loop].
  - rewrite (bind_ok _ _ _ _ _ (next_at pre rest ch tok Hs)), Hr. cbn [negb].
    by rewrite !app_nil_r.
  - rewrite (bind_ok _ _ _ _ _ (next_cons pre c (ds ++ rest) ch tok Hs)), Hc. cbn [negb].
    rewrite (bind_ok _ _ _ _ _ (concat_at _ _ _)).
    rewrite IH by (rewrite <- ?app_assoc; done || lia). by rewrite <- !app_assoc.
Qed.

Lemma bound_lt ds pre rest : source = pre ++ ds ++ rest -> (length ds < loop_bound source)%nat.
Proof. intros ->. unfold loop_bound. rewrite !length_app. lia. Qed.

Ltac next_step pre c rest :=
  rewrite (bind_ok _ _ _ _ _ (next_cons pre c rest _ _ ltac:(rewrite <- ?app_assoc; done))).

Lemma exponent_at pre e rest tok :
  source = pre ++ e ++ rest -> exp_text e -> e <> [] -> isdigit (peek rest) = false ->
  number_exponent source (at_ (pre ++ [peek e]) (peek e) tok) =
  POk tt (at_ (pre ++ e) " "%char (tok ++ e)).
Proof.
  intros Hs He Hne Hr. unfold number_exponent. rewrite (bind_ok _ _ _ _ _ (concat_at _ _ _)).
  destruct He as [|e d ds He Hd Hds|e s d ds He Hsg Hd Hds]; [done| |]; cbn [peek].
  - assert (Ascii.eqb "+" d || Ascii.eqb "-" d = false) as Hpm.
    { destruct (Ascii.eqb_spec "+" d) as [<-|]; [done|]. by destruct (Ascii.eqb_spec "-" d) as [<-|]. }
    next_step (pre ++ [e]) d (ds ++ rest). rewrite Hpm, Hd.
    rewrite (bind_ok _ _ _ _ _ (retract_at _ _ _ _)).
    next_step (pre ++ [e]) d (ds ++ rest). rewrite Hd. cbn [negb].
    rewrite (bind_ok _ _ _ _ _ (concat_at _ _ _)).
    rewrite (digits_retract_at _ _ ds rest); [by rewrite <- !app_assoc|by rewrite <- !app_assoc|done|done|].
    apply (bound_lt ds ((pre ++ [e]) ++ [d]) rest). by rewrite <- !app_assoc.
  - assert (Ascii.eqb "+" s || Ascii.eqb "-" s = true) as Hpm.
    { cbn [lit String.list_ascii_of_string] in Hsg.
      repeat (apply elem_of_cons in Hsg as [->|Hsg]; [by vm_compute|]). by apply not_elem_of_nil in Hsg. }
    next_step (pre ++ [e]) s (d :: ds ++ rest). rewrite Hpm.
    rewrite (bind_ok _ _ _ _ _ (concat_at _ _ _)).
    next_step ((pre ++ [e]) ++ [s]) d (ds ++ rest). rewrite Hd. cbn [negb].
    rewrite (bind_ok _ _ _ _ _ (concat_at _ _ _)).
    rewrite (digits_retract_at _ _ ds rest); [by rewrite <- !app_assoc|by rewrite <- !app_assoc|done|done|].
    apply (bound_lt ds (((pre ++ [e]) ++ [s]) ++ [d]) rest). by rewrite <- !app_assoc.
Qed.

Lemma exp_head e rest :
  exp_text e -> delim (peek rest) ->
  isdigit (peek (e ++ rest)) = false /\ Ascii.eqb "." (peek (e ++ rest)) = false /\
  Ascii.eqb "e" (peek (e ++ rest)) || Ascii.eqb "E" (peek (e ++ rest)) =
    match e with [] => false | _ => true end.
Proof.
  intros He Hr.
  assert (forall c, c ∈ lit "eE" -> isdigit c = false /\ Ascii.eqb "." c = false /\
    Ascii.eqb "e" c || Ascii.eqb "E" c = true) as HeE.
  { intros c Hc. cbn [lit String.list_ascii_of_string] in Hc.
    repeat (apply elem_of_cons in Hc as [->|Hc]; [by vm_compute|]). by apply not_elem_of_nil in Hc. }
  destruct He; cbn [app peek]; [by apply delim_cases|by apply HeE|by apply HeE].
Qed.

Lemma frac_at pre f r tok :
  source = pre ++ f ++ r -> frac_text f -> isdigit (peek r) = false -> Ascii.eqb "." (peek r) = false ->
  (if Ascii.eqb "." (peek (f ++ r)) then
     Concat;;
     ch ← NextCharacter source;
     if negb (isdigit ch) then UnexpectedToken else
     Concat;; digits_loop source (loop_bound source)
   else mret tt) (at_ (pre ++ [peek (f ++ r)]) (peek (f ++ r)) tok) =
  POk tt (at_ ((pre ++ f) ++ [peek r]) (peek r) (tok ++ f)).
Proof.
  intros Hs Hf Hr Hdot. destruct Hf as [|d ds Hd Hds]; cbn [app peek].
  - rewrite Hdot. by rewrite !app_nil_r.
  - rewrite Ascii.eqb_refl. rewrite (bind_ok _ _ _ _ _ (concat_at _ _ _)).
    next_step (pre ++ ["."%char]) d (ds ++ r). rewrite Hd. cbn [negb].
    rewrite (bind_ok _ _ _ _ _ (concat_at _ _ _)).
    rewrite (digits_at _ _ ds r); [by rewrite <- !app_assoc|by rewrite <- !app_assoc|done|done|].
    apply (bound_lt ds ((pre ++ ["."%char]) ++ [d]) r). by rewrite <- !app_assoc.
Qed.

Lemma int_at pre i r tok :
  source = pre ++ i ++ r -> int_text i -> isdigit (peek r) = false ->
  isdigit (peek i) = true /\
  exists ch, (if Ascii.eqb "0" (peek i) then mret tt else digits_retract_loop source (loop_bound source))
    (at_ (pre ++ [peek i]) (peek i) (tok ++ [peek i])) = POk tt (at_ (pre ++ i) ch (tok ++ i)).
Proof.
  intros Hs Hi Hr. destruct Hi as [|d ds Hd Hnz Hds]; cbn [peek].
  - split; [done|]. exists "0"%char. done.
  - split; [done|]. exists " "%char.
    assert (Ascii.eqb "0" d = false) as -> by (by destruct (Ascii.eqb_spec "0" d) as [<-|]).
    rewrite (digits_retract_at _ _ ds r); [by rewrite <- !app_assoc|by rewrite <- !app_assoc|done|done|].
    apply (bound_lt ds (pre ++ [d]) r). by rewrite <- !app_assoc.
Qed.

Lemma int_peek i r : int_text i -> peek (i ++ r) = peek i /\ i <> [] /\ Ascii.eqb "-" (peek i) = false.
Proof.
  destruct 1 as [|d ds Hd Hnz Hds]; [done|]. repeat split; [done|]. cbn [peek].
  by destruct (Ascii.eqb_spec "-" d) as [<-|].
Qed.

Lemma frac_head f r :
  frac_text f -> isdigit (peek r) = false -> isdigit (peek (f ++ r)) = false.
Proof. by destruct 1. Qed.

(** The part of [ConsumeNumber] after the sign. *)
Lemma number_tail_at pre i f e rest tok :
  source = pre ++ i ++ f ++ e ++ rest -> int_text i -> frac_text f -> exp_text e -> delim (peek rest) ->
  (ch ← get_char;
   if negb (isdigit ch) then UnexpectedToken else
   Concat;;
   (if Ascii.eqb "0" ch then mret tt else digits_retract_loop source (loop_bound source));;
   ch ← NextCharacter source;
   if isdigit ch then UnexpectedToken else
   (if Ascii.eqb "." ch then
      Concat;;
      ch ← NextCharacter source;
      if negb (isdigit ch) then UnexpectedToken else
      Concat;; digits_loop source (loop_bound source)
    else mret tt);;
   ch ← get_char;
   (if Ascii.eqb "e" ch || Ascii.eqb "E" ch then number_exponent source else Retract);;
   t ← get_token;
   mret (Json_double (atof (cstr t)))) (at_ (pre ++ [peek i]) (peek i) tok) =
  POk (Json_double (atof (cstr (tok ++ i ++ f ++ e)))) (at_ (pre ++ i ++ f ++ e) " "%char (tok ++ i ++ f ++ e)).
Proof.
  intros Hs Hi Hf He Hr. destruct (exp_head e rest He Hr) as (Hed & Hedot & HeE).
  pose proof (frac_head f (e ++ rest) Hf Hed) as Hfd.
  destruct (int_at pre i (f ++ e ++ rest) tok Hs Hi Hfd) as (Hid & c1 & Hint).
  unfold get_char at 1. erewrite bind_ok by done. cbn [character at_]. rewrite Hid. cbn [negb].
  rewrite (bind_ok _ _ _ _ _ (concat_at _ _ _)), (bind_ok _ _ _ _ _ Hint).
  rewrite (bind_ok _ _ _ _ _ (next_at (pre ++ i) (f ++ e ++ rest) _ _ ltac:(by rewrite <- app_assoc))).
  rewrite Hfd.
  rewrite (bind_ok _ _ _ _ _ (frac_at (pre ++ i) f (e ++ rest) _ ltac:(by rewrite <- app_assoc) Hf Hed Hedot)).
  unfold get_char. erewrite bind_ok by done. cbn [character at_]. rewrite HeE.
  destruct (decide (e = [])) as [->|Hne].
  - rewrite (bind_ok _ _ _ _ _ (retract_at _ _ _ _)). unfold get_token, mbind, P_bind, mret, P_ret.
    cbn [token at_]. by rewrite !app_nil_r, <- !app_assoc.
  - assert (peek (e ++ rest) = peek e) as Hpe by by destruct e.
    destruct e as [|e0 e]; [done|]. rewrite Hpe.
    rewrite (bind_ok _ _ _ _ _ (exponent_at ((pre ++ i) ++ f) (e0 :: e) rest _
      ltac:(by rewrite <- !app_assoc) He Hne (proj1 (delim_cases _ Hr)))).
    unfold get_token, mbind, P_bind, mret, P_ret. cbn [token at_]. by rewrite <- !app_assoc.
Qed.

Lemma number_at pre t rest ch tok :
  source = pre ++ t ++ rest -> number_text t -> delim (peek rest) ->
  exists tok', ConsumeNumber source (at_ pre ch tok) = POk (Json_double (atof t)) (at_ (pre ++ t) " "%char tok').
Proof.
  intros Hs (s & i & f & e & Hsg & Hi & Hf & He & ->) Hr.
  assert (NUL ∉ s ++ i ++ f ++ e) as Hnt by (rewrite Hs in Hnul; set_solver).
  destruct (int_peek i (f ++ e ++ rest) Hi) as (Hpi & Hi0 & Him).
  unfold ConsumeNumber. rewrite (bind_ok _ _ _ _ _ (set_token_at _ _ _ _)).
  destruct Hsg; cbn [app] in *.
  - pose proof (number_tail_at pre i f e rest [] ltac:(by rewrite Hs, <- !app_assoc) Hi Hf He Hr) as Ht.
    exists (i ++ f ++ e).
    rewrite (bind_ok _ _ _ _ _ (next_at pre (i ++ f ++ e ++ rest) _ _ ltac:(by rewrite Hs, <- !app_assoc))).
    rewrite Hpi, Him. rewrite ret_bind, Ht. cbn [app].
    by rewrite cstr_id.
  - pose proof (number_tail_at (pre ++ lit "-") i f e rest (lit "-")
      ltac:(by rewrite Hs, <- !app_assoc) Hi Hf He Hr) as Ht.
    exists (lit "-" ++ i ++ f ++ e).
    rewrite (bind_ok _ _ _ _ _ (next_cons pre "-"%char (i ++ f ++ e ++ rest) _ _ ltac:(by rewrite Hs; cbn; rewrite <- !app_assoc))).
    rewrite Ascii.eqb_refl.
    erewrite bind_ok; cycle 1.
    { rewrite (bind_ok _ _ _ _ _ (concat_at _ _ _)).
      rewrite (bind_ok _ _ _ _ _ (next_at (pre ++ lit "-") (i ++ f ++ e ++ rest) _ _
        ltac:(by rewrite Hs; cbn; rewrite <- !app_assoc))). reflexivity. }
    rewrite Hpi. change (lit "-") with ["-"%char] in *. cbn [app] in *. rewrite Ht.
    rewrite cstr_id by done. by rewrite <- !app_assoc.
Qed.

(** ** Strings *)

Lemma hex_at hs pre rest ch tok :
  source = pre ++ hs ++ rest -> Forall (fun c => isxdigit c = true) hs ->
  exists ch', hex_loop source (length hs) (at_ pre ch tok) = POk tt (at_ (pre ++ hs) ch' (tok ++ hs)).
Proof.
  intros Hs Hh. revert pre ch tok Hs. induction Hh as [|c hs Hc Hh IH]; intros pre ch tok Hs; cbn [length hex_loop].
  - exists ch. by rewrite !app_nil_r.
  - next_step pre c (hs ++ rest). rewrite Hc. cbn [negb].
    rewrite (bind_ok _ _ _ _ _ (concat_at _ _ _)).
    destruct (IH (pre ++ [c]) c (tok ++ [c])) as [ch' ->]; [by rewrite <- app_assoc|].
    exists ch'. by rewrite <- !app_assoc.
Qed.

Lemma string_loop_at t n pre rest ch tok :
  source = pre ++ t ++ QUOTE :: rest -> string_text t -> (length t < n)%nat ->
  string_loop source n (at_ pre ch tok) = POk tt (at_ (pre ++ t ++ [QUOTE]) QUOTE (tok ++ t)).
Proof.
  intros Hs Ht. revert n pre ch tok Hs.
  induction Ht as [|c t Hq Hb Hc Ht IH|c t Hc Ht IH|h1 h2 h3 h4 t Hh Ht IH];
    intros [|n] pre ch tok Hs Hn; cbn [length] in Hn; try lia; cbn [string_loop].
  - next_step pre QUOTE rest. by rewrite app_nil_r.
  - next_step pre c (t ++ QUOTE :: rest).
    rewrite (proj2 (Ascii.eqb_neq QUOTE c)), (proj2 (Ascii.eqb_neq "\" c)), Hc by done.
    rewrite (bind_ok _ _ _ _ _ (concat_at _ _ _)).
    rewrite IH by (rewrite <- ?app_assoc; done || lia). by rewrite <- !app_assoc.
  - next_step pre "\"%char (c :: t ++ QUOTE :: rest). 
    change (Ascii.eqb QUOTE "\") with false. change (Ascii.eqb "\" "\") with true. cbv iota.
    erewrite bind_ok; cycle 1.
    { rewrite (bind_ok _ _ _ _ _ (concat_at _ _ _)). next_step (pre ++ ["\"%char]) c (t ++ QUOTE :: rest).
      rewrite Hc. apply concat_at. }
    rewrite IH by (rewrite <- ?app_assoc; done || lia). by rewrite <- !app_assoc.
  - next_step pre "\"%char ("u"%char :: [h1; h2; h3; h4] ++ t ++ QUOTE :: rest).
    change (Ascii.eqb QUOTE "\") with false. change (Ascii.eqb "\" "\") with true. cbv iota.
    destruct (hex_at [h1; h2; h3; h4] (pre ++ lit "\u") (t ++ QUOTE :: rest) "u"%char
      (tok ++ lit "\u")) as [ch' Hhex]; [by rewrite <- app_assoc|done|].
    erewrite bind_ok; cycle 1.
    { rewrite (bind_ok _ _ _ _ _ (concat_at _ _ _)).
      next_step (pre ++ ["\"%char]) "u"%char ([h1; h2; h3; h4] ++ t ++ QUOTE :: rest).
      change (is_escape "u") with false. change (Ascii.eqb "u" "u") with true. cbv iota.
      rewrite (bind_ok _ _ _ _ _ (concat_at _ _ _)). rewrite <- !app_assoc. exact Hhex. }
    rewrite IH by (rewrite <- ?app_assoc; done || lia). by rewrite <- !app_assoc.
Qed.

Lemma string_at w pre t rest ch tok :
  source = pre ++ w ++ (QUOTE :: t ++ [QUOTE]) ++ rest -> ws w -> string_text t ->
  ConsumeString source (at_ pre ch tok) =
  POk (Json_string t) (at_ (pre ++ w ++ QUOTE :: t ++ [QUOTE]) QUOTE t).
Proof.
  intros Hs Hw Ht. unfold ConsumeString.
  rewrite (bind_ok _ _ _ _ _ (skip_at pre w _ ch tok Hs Hw eq_refl)).
  assert (source = ((pre ++ w) ++ [QUOTE]) ++ t ++ QUOTE :: rest) as Hs'.
  { rewrite Hs, <- !app_assoc. cbn [app]. by rewrite <- app_assoc. }
  rewrite (bind_ok _ _ _ _ _ (next_cons (pre ++ w) QUOTE (t ++ QUOTE :: rest) _ _
    ltac:(by rewrite Hs', <- app_assoc))).
  rewrite Ascii.eqb_refl. cbn [negb]. rewrite (bind_ok _ _ _ _ _ (set_token_at _ _ _ _)).
  rewrite (bind_ok _ _ _ _ _ (string_loop_at t (loop_bound source) _ rest QUOTE [] Hs' Ht
    ltac:(by eapply bound_lt))).
  unfold get_token, mbind, P_bind, mret, P_ret. cbn [token at_]. by rewrite <- !app_assoc.
Qed.

(** ** Values *)

Definition kind_of (ch : ascii) : Kind :=
  if Ascii.eqb QUOTE ch then kString
  else if Ascii.eqb "t" ch || Ascii.eqb "f" ch then kBool
  else if Ascii.eqb "n" ch then kNull
  else if Ascii.eqb "{" ch then kObject
  else if Ascii.eqb "[" ch then kArray
  else kNumber.

Definition consumer (fuel : nat) (kind : Kind) : P Json :=
  match kind with
  | kNumber => ConsumeNumber source
  | kString => ConsumeString source
  | kBool => ConsumeBool source
  | kNull => ConsumeNull source
  | kObject => ConsumeObject source fuel
  | kArray => ConsumeArray source fuel
  end.

Lemma kind_at pre rest ch tok :
  source = pre ++ rest ->
  KindDetect source (at_ pre ch tok) = POk (kind_of (peek rest)) (at_ pre " "%char tok).
Proof.
  intros Hs. unfold KindDetect. rewrite (bind_ok _ _ _ _ _ (next_at pre rest ch tok Hs)).
  by rewrite (bind_ok _ _ _ _ _ (retract_at _ _ _ _)).
Qed.

(** The consumer chosen by the first character of [t] reads exactly [t] and
    returns [v]. *)
Definition reads (t : bytes) (v : Json) : Prop :=
  forall pre rest tok fuel,
    source = pre ++ t ++ rest -> delim (peek rest) -> (2 * length t <= S fuel)%nat ->
    exists ch' tok', ch' <> NUL /\
      consumer fuel (kind_of (peek t)) (at_ pre " "%char tok) = POk v (at_ (pre ++ t) ch' tok').

(** The first character of a value. *)
Definition starts_value (t : bytes) : Prop :=
  exists c t', t = c :: t' /\ isws c = false /\ Ascii.eqb "]" c = false.

Lemma digit_start c :
  digit c -> kind_of c = kNumber /\ isws c = false /\ Ascii.eqb "]" c = false.
Proof.
  intros Hd. unfold digit in Hd. apply isdigit_code in Hd.
  assert (forall d, code d < 48 \/ 57 < code d -> Ascii.eqb d c = false) as Hne.
  { intros d Hc. destruct (Ascii.eqb_spec d c) as [<-|]; [lia|done]. }
  unfold kind_of, isws. by rewrite !Hne by (vm_compute; intuition congruence).
Qed.

Lemma number_start t :
  number_text t -> kind_of (peek t) = kNumber /\ starts_value t.
Proof.
  intros (s & i & f & e & Hsg & Hi & _ & _ & ->).
  destruct Hsg; [|split; [done|by eexists _, _]]. cbn [app].
  assert (exists c i', i = c :: i' /\ digit c) as (c & i' & -> & Hd).
  { destruct Hi; [by eexists _, _|by eexists _, _]. }
  destruct (digit_start c Hd) as (H1 & H2 & H3). split; [done|].
  eexists _, _. split; [reflexivity|done].
Qed.

Lemma value_start t v : value_text t v -> starts_value t.
Proof. destruct 1; [by apply number_start|by eexists _, _..]. Qed.

Lemma delim_ws w rest : ws w -> delim (peek rest) -> delim (peek (w ++ rest)).
Proof. intros Hw Hr. destruct Hw; [done|by left]. Qed.

Lemma value_at t v pre w w' rest ch tok fuel :
  reads t v -> starts_value t -> ws w -> ws w' ->
  source = pre ++ w ++ t ++ w' ++ rest -> isws (peek rest) = false -> delim (peek rest) ->
  (2 * length t <= fuel)%nat ->
  exists ch' tok', ConsumeValue source fuel true (at_ pre ch tok) = POk v (at_ (pre ++ w ++ t ++ w') ch' tok').
Proof.
  intros Hreads (c & t' & -> & Hc & _) Hw Hw' Hs Hr Hd Hf.
  destruct fuel as [|fuel]; [cbn [length] in Hf; lia|].
  destruct (Hreads (pre ++ w) (w' ++ rest) tok fuel) as (ch1 & tok1 & _ & Hcons);
    [by rewrite Hs, <- app_assoc|by apply delim_ws|done|].
  exists (peek rest), tok1. cbn [ConsumeValue].
  rewrite (bind_ok _ _ _ _ _ (skip_at pre w ((c :: t') ++ w' ++ rest) ch tok Hs Hw Hc)).
  rewrite (bind_ok _ _ _ _ _ (kind_at (pre ++ w) ((c :: t') ++ w' ++ rest) _ _ ltac:(by rewrite <- app_assoc))).
  rewrite (bind_ok _ _ _ _ _ Hcons).
  unfold EOL. erewrite bind_ok by reflexivity. cbn [negb andb]. rewrite ret_bind.
  rewrite (bind_ok _ _ _ _ _ (skip_at ((pre ++ w) ++ c :: t') w' rest _ _ ltac:(by rewrite <- !app_assoc) Hw' Hr)).
  unfold mret, P_ret. by rewrite <- !app_assoc.
Qed.

Lemma value_top_at t v w w' fuel :
  reads t v -> starts_value t -> ws w -> ws w' -> source = w ++ t ++ w' -> (2 * length t <= fuel)%nat ->
  exists st, ConsumeValue source fuel false Parser_new = POk v st.
Proof.
  intros Hreads (c & t' & -> & Hc & _) Hw Hw' Hs Hf.
  destruct fuel as [|fuel]; [cbn [length] in Hf; lia|].
  assert (delim (peek [])) as Hd0 by (right; set_solver).
  destruct (Hreads w w' [] fuel) as (ch1 & tok1 & Hch & Hcons); [done| |done|].
  { rewrite <- (app_nil_r w'). by apply delim_ws. }
  cbn [ConsumeValue]. change Parser_new with (at_ [] " "%char []).
  rewrite (bind_ok _ _ _ _ _ (skip_at [] w ((c :: t') ++ w') _ _ Hs Hw Hc)).
  rewrite (bind_ok _ _ _ _ _ (kind_at ([] ++ w) ((c :: t') ++ w') _ _ Hs)).
  rewrite (bind_ok _ _ _ _ _ Hcons).
  unfold EOL at 1. erewrite bind_ok by reflexivity. cbn [character at_].
  rewrite (proj2 (Ascii.eqb_neq NUL ch1)) by done. cbn [negb andb].
  erewrite bind_ok; cycle 1.
  { rewrite (bind_ok _ _ _ _ _ (skip_at (w ++ c :: t') w' [] _ _ ltac:(by rewrite app_nil_r, <- app_assoc) Hw' eq_refl)).
    rewrite (bind_ok _ _ _ _ _ (next_at ((w ++ c :: t') ++ w') [] _ _ ltac:(by rewrite app_nil_r, <- app_assoc))).
    reflexivity. }
  rewrite !ret_bind. by eexists.
Qed.

(** White space before a text can be skipped in two parts. *)
Lemma ws_prefix wa tb w t :
  wa ++ tb = w ++ t -> ws wa -> starts_value t -> exists wb, w = wa ++ wb /\ tb = wb ++ t.
Proof.
  intros Heq Hwa (c & t' & -> & Hc & _). revert w Heq.
  induction Hwa as [|a wa Ha Hwa IH]; intros w Heq; [by exists w|].
  destruct w as [|b w]; cbn [app] in Heq; injection Heq as -> Heq; [by rewrite Hc in Ha|].
  destruct (IH _ Heq) as (wb & -> & ->). by exists wb.
Qed.

Lemma try_ok {A} (m h : P A) st a st' : m st = POk a st' -> try_catch m h st = POk a st'.
Proof. unfold try_catch. by intros ->. Qed.

(** ** Arrays *)

(** Reading the items [l] of an array and its closing bracket, from after a part
    [wa] of the white space before the first item. *)
Definition reads_items (t : bytes) (l : list Json) : Prop :=
  forall wa tb pre rest ch tok fuel acc,
    t = wa ++ tb -> ws wa -> source = pre ++ t ++ "]"%char :: rest -> (2 * length t + 1 <= fuel)%nat ->
    exists tok',
      (value ← try_catch (ConsumeValue source fuel true) UnexpectedToken;
       array_loop source fuel (acc ++ [value])) (at_ (pre ++ wa) ch tok) =
      POk (Json_array (acc ++ l)) (at_ (pre ++ t ++ lit "]") "]"%char tok').

Lemma items_one_reads w t w' v :
  reads t v -> starts_value t -> ws w -> ws w' -> reads_items (w ++ t ++ w') [v].
Proof.
  intros Hr Hst Hw Hw' wa tb pre rest ch tok fuel acc Heq Hwa Hs Hf.
  destruct (ws_prefix wa tb w (t ++ w') (eq_sym Heq) Hwa) as (wb & -> & ->).
  { destruct Hst as (c & t' & -> & Hc). by eexists _, _. }
  rewrite !length_app in Hf. apply Forall_app in Hw as [_ Hwb].
  destruct (value_at t v (pre ++ wa) wb w' ("]"%char :: rest) ch tok fuel) as (c1 & tok1 & Hv);
    [exact Hr|exact Hst|exact Hwb|exact Hw'| |reflexivity| | |].
  { src Hs. }
  { right. set_solver. }
  { lia. }
  exists tok1. rewrite (bind_ok _ _ _ _ _ (try_ok _ _ _ _ _ Hv)).
  destruct fuel as [|fuel]; [lia|]. cbn [array_loop].
  rewrite (bind_ok _ _ _ _ _ (next_cons ((pre ++ wa) ++ wb ++ t ++ w') "]"%char rest _ _ ltac:(src Hs))).
  rewrite Ascii.eqb_refl. assoc. reflexivity.
Qed.

Lemma items_cons_reads w t w' v t' l :
  reads t v -> starts_value t -> ws w -> ws w' -> reads_items t' l ->
  reads_items (w ++ t ++ w' ++ ","%char :: t') (v :: l).
Proof.
  intros Hr Hst Hw Hw' IH wa tb pre rest ch tok fuel acc Heq Hwa Hs Hf.
  destruct (ws_prefix wa tb w (t ++ w' ++ ","%char :: t') (eq_sym Heq) Hwa) as (wb & -> & ->).
  { destruct Hst as (c & t0 & -> & Hc). by eexists _, _. }
  rewrite !length_app in Hf. cbn [length] in Hf. apply Forall_app in Hw as [_ Hwb].
  destruct (value_at t v (pre ++ wa) wb w' (","%char :: t' ++ "]"%char :: rest) ch tok fuel)
    as (c1 & tok1 & Hv); [exact Hr|exact Hst|exact Hwb|exact Hw'| |reflexivity| | |].
  { src Hs. }
  { right. set_solver. }
  { lia. }
  destruct fuel as [|fuel]; [lia|].
  destruct (IH [] t' (((pre ++ wa) ++ wb ++ t ++ w') ++ [","%char]) rest ","%char tok1 fuel (acc ++ [v]))
    as [tok2 Hl]; [done|constructor| |lia|].
  { src Hs. }
  exists tok2. rewrite (bind_ok _ _ _ _ _ (try_ok _ _ _ _ _ Hv)). cbn [array_loop].
  rewrite (bind_ok _ _ _ _ _ (next_cons ((pre ++ wa) ++ wb ++ t ++ w') ","%char (t' ++ "]"%char :: rest) _ _
    ltac:(src Hs))).
  change (Ascii.eqb "]" ",") with false. change (Ascii.eqb "," ",") with true. cbv iota.
  rewrite app_nil_r in Hl. etransitivity; [exact Hl|]. assoc. reflexivity.
Qed.

(** The brackets around the items. *)
Lemma array_open pre w c rest ch tok fuel :
  source = pre ++ "["%char :: w ++ c :: rest -> ws w -> isws c = false -> Ascii.eqb "]" c = false ->
  ConsumeArray source (S fuel) (at_ pre ch tok) =
  (value ← try_catch (ConsumeValue source fuel true) UnexpectedToken;
   array_loop source fuel ([] ++ [value])) (at_ ((pre ++ lit "[") ++ w) " "%char tok).
Proof.
  intros Hs Hw Hc Hb. cbn [ConsumeArray].
  rewrite (bind_ok _ _ _ _ _ (next_cons pre "["%char _ _ _ Hs)), Ascii.eqb_refl. cbn [negb].
  rewrite (bind_ok _ _ _ _ _ (skip_at (pre ++ lit "[") w (c :: rest) _ _ ltac:(src Hs) Hw Hc)).
  rewrite (bind_ok _ _ _ _ _ (next_cons ((pre ++ lit "[") ++ w) c rest _ _ ltac:(src Hs))).
  rewrite Hb. by rewrite (bind_ok _ _ _ _ _ (retract_at _ _ _ _)).
Qed.

Lemma array_reads t l :
  reads_items t l -> (exists w t1, t = w ++ t1 /\ ws w /\ starts_value t1) ->
  reads ("["%char :: t ++ lit "]") (Json_array l).
Proof.
  intros Hi (w & t1 & -> & Hw & (c & t' & -> & Hc & Hb)) pre rest tok fuel Hs Hd Hf.
  cbn [length] in Hf. rewrite !length_app in Hf. cbn [length] in Hf. change (length (lit "]")) with 1%nat in Hf.
  change (kind_of _) with kArray. cbn [consumer]. destruct fuel as [|fuel]; [lia|].
  destruct (Hi w (c :: t') (pre ++ lit "[") rest " "%char tok fuel []) as [tok' Hl]; [done|done| | |].
  { src Hs. }
  { rewrite length_app. cbn [length]. lia. }
  exists "]"%char, tok'. split; [done|].
  rewrite (array_open pre w c (t' ++ lit "]" ++ rest)); [|src Hs|done..].
  rewrite Hl. assoc. reflexivity.
Qed.

Lemma array_empty_reads w : ws w -> reads ("["%char :: w ++ lit "]") (Json_array []).
Proof.
  intros Hw pre rest tok fuel Hs Hd Hf. cbn [length] in Hf. rewrite length_app in Hf.
  change (length (lit "]")) with 1%nat in Hf.
  change (kind_of _) with kArray. cbn [consumer]. destruct fuel as [|fuel]; [lia|]. exists "]"%char, tok.
  split; [done|]. cbn [ConsumeArray].
  assert (source = pre ++ "["%char :: w ++ "]"%char :: rest) as Hs'.
  { src Hs. }
  rewrite (bind_ok _ _ _ _ _ (next_cons pre "["%char _ _ _ Hs')), Ascii.eqb_refl. cbn [negb].
  rewrite (bind_ok _ _ _ _ _ (skip_at (pre ++ lit "[") w ("]"%char :: rest) _ _ ltac:(src Hs) Hw eq_refl)).
  rewrite (bind_ok _ _ _ _ _ (next_cons ((pre ++ lit "[") ++ w) "]"%char rest _ _ ltac:(src Hs))).
  rewrite Ascii.eqb_refl. assoc. reflexivity.
Qed.

(** ** Objects *)

Definition reads_pair (t k : bytes) (v : Json) : Prop :=
  forall wa tb pre rest ch tok fuel,
    t = wa ++ tb -> ws wa -> source = pre ++ t ++ rest -> isws (peek rest) = false -> delim (peek rest) ->
    (2 * length t <= fuel)%nat ->
    exists ch' tok', ConsumePair source fuel (at_ (pre ++ wa) ch tok) = POk (k, v) (at_ (pre ++ t) ch' tok').

Definition reads_pairs (t : bytes) (l : list (bytes * Json)) : Prop :=
  forall wa tb pre rest ch tok fuel acc,
    t = wa ++ tb -> ws wa -> source = pre ++ t ++ "}"%char :: rest -> (2 * length t + 1 <= fuel)%nat ->
    exists tok',
      ('(key, value) ← try_catch (ConsumePair source fuel) UnexpectedToken;
       object_loop source fuel (map_insert key value acc)) (at_ (pre ++ wa) ch tok) =
      POk (Json_object (insert_all l acc)) (at_ (pre ++ t ++ lit "}") "}"%char tok').

Lemma pair_reads w1 k w2 w3 t w4 v :
  ws w1 -> string_text k -> ws w2 -> ws w3 -> reads t v -> starts_value t -> ws w4 ->
  reads_pair (w1 ++ (QUOTE :: k ++ [QUOTE]) ++ w2 ++ ":"%char :: w3 ++ t ++ w4) k v.
Proof.
  intros Hw1 Hk Hw2 Hw3 Hr Hst Hw4 wa tb pre rest ch tok fuel Heq Hwa Hs Hrest Hd Hf.
  destruct (ws_prefix wa tb w1 _ (eq_sym Heq) Hwa) as (wb & -> & ->); [by eexists _, _|].
  apply Forall_app in Hw1 as [_ Hwb]. repeat (rewrite length_app in Hf; cbn [length] in Hf).
  destruct fuel as [|fuel]; [lia|]. cbn [ConsumePair].
  set (q := QUOTE :: k ++ [QUOTE]) in *.
  rewrite (bind_ok _ _ _ _ _ (string_at wb (pre ++ wa) k (w2 ++ ":"%char :: w3 ++ t ++ w4 ++ rest) _ _
    ltac:(fold q; src Hs) Hwb Hk)). fold q.
  erewrite bind_ok; cycle 1.
  { unfold pair_key. cbn [AsString Data_string Json_string kind_ data_ mbind outcome_bind].
    rewrite cstr_id; [reflexivity|]. rewrite Hs in Hnul. unfold q in Hnul. set_solver. }
  rewrite (bind_ok _ _ _ _ _ (skip_at ((pre ++ wa) ++ wb ++ q) w2 (":"%char :: w3 ++ t ++ w4 ++ rest) _ _
    ltac:(src Hs) Hw2 eq_refl)).
  rewrite (bind_ok _ _ _ _ _ (specific_at (lit ":") (((pre ++ wa) ++ wb ++ q) ++ w2) (w3 ++ t ++ w4 ++ rest) _ _
    ltac:(src Hs))).
  destruct (value_at t v ((((pre ++ wa) ++ wb ++ q) ++ w2) ++ lit ":") w3 w4 rest
    (List.last (lit ":") (peek (":"%char :: w3 ++ t ++ w4 ++ rest))) k fuel)
    as (c1 & tok1 & Hv); [exact Hr|exact Hst|exact Hw3|exact Hw4|src Hs|exact Hrest|exact Hd|lia|].
  rewrite (bind_ok _ _ _ _ _ Hv). exists c1, tok1. unfold mret, P_ret. assoc. reflexivity.
Qed.

Lemma pairs_one_reads t k v : reads_pair t k v -> reads_pairs t [(k, v)].
Proof.
  intros Hp wa tb pre rest ch tok fuel acc Heq Hwa Hs Hf.
  destruct (Hp wa tb pre ("}"%char :: rest) ch tok fuel) as (c1 & tok1 & Hv);
    [exact Heq|exact Hwa|exact Hs|reflexivity|right; set_solver|lia|].
  exists tok1. rewrite (bind_ok _ _ _ _ _ (try_ok _ _ _ _ _ Hv)).
  destruct fuel as [|fuel]; [lia|]. cbn [object_loop].
  rewrite (bind_ok _ _ _ _ _ (next_cons (pre ++ t) "}"%char rest _ _ ltac:(src Hs))).
  rewrite Ascii.eqb_refl. assoc. reflexivity.
Qed.

Lemma pairs_cons_reads t k v t' l :
  reads_pair t k v -> reads_pairs t' l ->
  (exists w t1, t = w ++ QUOTE :: t1 /\ ws w) -> reads_pairs (t ++ ","%char :: t') ((k, v) :: l).
Proof.
  intros Hp IH (w & t1 & -> & Hw) wa tb pre rest ch tok fuel acc Heq Hwa Hs Hf.
  rewrite length_app in Hf. cbn [length] in Hf. rewrite <- app_assoc in Heq. cbn [app] in Heq.
  destruct (ws_prefix wa tb w _ (eq_sym Heq) Hwa) as (wb & Hwb & _); [by eexists _, _|].
  destruct (Hp wa (wb ++ QUOTE :: t1) pre (","%char :: t' ++ "}"%char :: rest) ch tok fuel)
    as (c1 & tok1 & Hv); [by rewrite Hwb, <- app_assoc|exact Hwa|src Hs|reflexivity|right; set_solver|lia|].
  destruct fuel as [|fuel]; [lia|].
  destruct (IH [] t' ((pre ++ w ++ QUOTE :: t1) ++ [","%char]) rest ","%char tok1 fuel (map_insert k v acc))
    as [tok2 Hl]; [done|constructor|src Hs|lia|].
  exists tok2. rewrite (bind_ok _ _ _ _ _ (try_ok _ _ _ _ _ Hv)). cbn [object_loop].
  rewrite (bind_ok _ _ _ _ _ (next_cons (pre ++ w ++ QUOTE :: t1) ","%char (t' ++ "}"%char :: rest) _ _
    ltac:(src Hs))).
  change (Ascii.eqb "}" ",") with false. change (Ascii.eqb "," ",") with true. cbv iota.
  rewrite app_nil_r in Hl. etransitivity; [exact Hl|]. assoc. reflexivity.
Qed.

Lemma object_reads t l :
  reads_pairs t l -> (exists w t1, t = w ++ QUOTE :: t1 /\ ws w) ->
  reads ("{"%char :: t ++ lit "}") (Json_object (insert_all l [])).
Proof.
  intros Hi (w & t' & -> & Hw) pre rest tok fuel Hs Hd Hf.
  cbn [length] in Hf. rewrite !length_app in Hf. cbn [length] in Hf. change (length (lit "}")) with 1%nat in Hf.
  change (kind_of _) with kObject. cbn [consumer]. destruct fuel as [|fuel]; [lia|].
  destruct (Hi w (QUOTE :: t') (pre ++ lit "{") rest " "%char tok fuel []) as [tok' Hl]; [done|done|src Hs| |].
  { rewrite length_app. cbn [length]. lia. }
  exists "}"%char, tok'. split; [done|]. cbn [ConsumeObject].
  assert (source = pre ++ "{"%char :: w ++ QUOTE :: t' ++ lit "}" ++ rest) as Hs' by src Hs.
  rewrite (bind_ok _ _ _ _ _ (next_cons pre "{"%char _ _ _ Hs')), Ascii.eqb_refl. cbn [negb].
  rewrite (bind_ok _ _ _ _ _ (skip_at (pre ++ lit "{") w (QUOTE :: t' ++ lit "}" ++ rest) _ _
    ltac:(src Hs) Hw eq_refl)).
  rewrite (bind_ok _ _ _ _ _ (next_cons ((pre ++ lit "{") ++ w) QUOTE (t' ++ lit "}" ++ rest) _ _ ltac:(src Hs))).
  change (Ascii.eqb "}" QUOTE) with false. cbv iota. rewrite (bind_ok _ _ _ _ _ (retract_at _ _ _ _)).
  etransitivity; [exact Hl|]. assoc. reflexivity.
Qed.

Lemma object_empty_reads w : ws w -> reads ("{"%char :: w ++ lit "}") (Json_object []).
Proof.
  intros Hw pre rest tok fuel Hs Hd Hf. cbn [length] in Hf. rewrite length_app in Hf.
  change (length (lit "}")) with 1%nat in Hf.
  change (kind_of _) with kObject. cbn [consumer]. destruct fuel as [|fuel]; [lia|]. exists "}"%char, tok.
  split; [done|]. cbn [ConsumeObject].
  assert (source = pre ++ "{"%char :: w ++ "}"%char :: rest) as Hs' by src Hs.
  rewrite (bind_ok _ _ _ _ _ (next_cons pre "{"%char _ _ _ Hs')), Ascii.eqb_refl. cbn [negb].
  rewrite (bind_ok _ _ _ _ _ (skip_at (pre ++ lit "{") w ("}"%char :: rest) _ _ ltac:(src Hs') Hw eq_refl)).
  rewrite (bind_ok _ _ _ _ _ (next_cons ((pre ++ lit "{") ++ w) "}"%char rest _ _ ltac:(src Hs'))).
  rewrite Ascii.eqb_refl. assoc. reflexivity.
Qed.

(** ** Scalars *)

Lemma number_reads t : number_text t -> reads t (Json_double (atof t)).
Proof.
  intros Ht pre rest tok fuel Hs Hd Hf. rewrite (proj1 (number_start t Ht)). cbn [consumer].
  destruct (number_at pre t rest " "%char tok Hs Ht Hd) as (tok' & ->). by exists " "%char, tok'.
Qed.

Lemma string_reads t : string_text t -> reads (QUOTE :: t ++ [QUOTE]) (Json_string t).
Proof.
  intros Ht pre rest tok fuel Hs Hd Hf. change (kind_of _) with kString. cbn [consumer].
  exists QUOTE, t. split; [done|]. by apply (string_at [] pre t rest); [|constructor|].
Qed.

Lemma bool_reads (b : bool) : reads (if b then lit "true" else lit "false") (Json_bool b).
Proof.
  intros pre rest tok fuel Hs Hd Hf.
  assert (kind_of (peek (if b then lit "true" else lit "false")) = kBool) as -> by by destruct b.
  cbn [consumer]. unfold ConsumeBool.
  exists "e"%char, tok. split; [done|].
  rewrite (bind_ok _ _ _ _ _ (next_at pre _ _ _ Hs)). rewrite (bind_ok _ _ _ _ _ (retract_at _ _ _ _)).
  destruct b; cbn [peek lit String.list_ascii_of_string app].
  - rewrite Ascii.eqb_refl. by rewrite (bind_ok _ _ _ _ _ (specific_at (lit "true") pre rest _ _ Hs)).
  - change (Ascii.eqb "t" "f") with false. cbv iota.
    by rewrite (bind_ok _ _ _ _ _ (specific_at (lit "false") pre rest _ _ Hs)).
Qed.

Lemma null_reads : reads (lit "null") Json_null.
Proof.
  intros pre rest tok fuel Hs Hd Hf. change (kind_of _) with kNull. cbn [consumer]. unfold ConsumeNull.
  exists "l"%char, tok. split; [done|].
  by rewrite (bind_ok _ _ _ _ _ (specific_at (lit "null") pre rest _ _ Hs)).
Qed.

Lemma items_start t l : items_text t l -> exists w t1, t = w ++ t1 /\ ws w /\ starts_value t1.
Proof.
  destruct 1 as [w t w' v Hw Hv Hw'|w t w' v t' l Hw Hv Hw' _];
    destruct (value_start _ _ Hv) as (c & t0 & -> & Hc); exists w; eexists; split; [reflexivity| |reflexivity|];
    (split; [done|]); by eexists _, _.
Qed.

Lemma pair_start t k v : pair_text t k v -> exists w t1, t = w ++ QUOTE :: t1 /\ ws w.
Proof. destruct 1 as [w1 k]. by exists w1; eexists. Qed.

Lemma pairs_start t l : pairs_text t l -> exists w t1, t = w ++ QUOTE :: t1 /\ ws w.
Proof.
  destruct 1 as [t k v Hp|t k v t' l Hp _]; destruct (pair_start _ _ _ Hp) as (w & t1 & -> & Hw).
  - by exists w, t1.
  - exists w, (t1 ++ ","%char :: t'). by rewrite <- app_assoc.
Qed.

Lemma all_reads :
  (forall t v, value_text t v -> reads t v) /\ (forall t l, items_text t l -> reads_items t l) /\
  (forall t l, pairs_text t l -> reads_pairs t l) /\ (forall t k v, pair_text t k v -> reads_pair t k v).
Proof.
  apply json_mutind; intros.
  - by apply number_reads.
  - by apply string_reads.
  - apply (bool_reads true).
  - apply (bool_reads false).
  - apply null_reads.
  - by apply array_empty_reads.
  - apply array_reads; [done|by eapply items_start].
  - by apply object_empty_reads.
  - apply object_reads; [done|by eapply pairs_start].
  - apply items_one_reads; eauto using value_start.
  - apply items_cons_reads; eauto using value_start.
  - by apply pairs_one_reads.
  - apply pairs_cons_reads; eauto using pair_start.
  - apply pair_reads; eauto using value_start.
Qed.
End Source.

(** ** Texts contain no NUL *)

Lemma class_no_nul (f : ascii -> bool) t :
  f NUL = false -> Forall (fun c => f c = true) t -> NUL ∉ t.
Proof. intros Hf Ht. eapply Forall_not_in; [exact Ht|]. simpl. by rewrite Hf. Qed.

Lemma digit_no_nul d : digit d -> d <> NUL.
Proof. by intros Hd ->. Qed.

Lemma ws_no_nul w : ws w -> NUL ∉ w.
Proof. by apply class_no_nul. Qed.

Lemma lit_no_nul (s : string) : forallb (fun c => negb (Ascii.eqb c NUL)) (lit s) = true -> NUL ∉ lit s.
Proof.
  intros Hf. rewrite forallb_forall in Hf. intros Hin. apply list_elem_of_In in Hin.
  by specialize (Hf _ Hin).
Qed.

Lemma number_no_nul t : number_text t -> NUL ∉ t.
Proof.
  intros (s & i & f & e & Hs & Hi & Hf & He & ->).
  assert (forall ds, Forall digit ds -> NUL ∉ ds) as Hds by (intros; by apply (class_no_nul isdigit)).
  assert (NUL ∉ lit "eE" /\ NUL ∉ lit "+-") as [HeE Hpm] by (split; by apply lit_no_nul).
  rewrite !not_elem_of_app. repeat split.
  - destruct Hs; [apply not_elem_of_nil|by apply lit_no_nul].
  - destruct Hi as [|d ds Hd _ Hdd]; [by apply lit_no_nul|]. apply digit_no_nul in Hd. set_solver.
  - destruct Hf as [|d ds Hd Hdd]; [set_solver|]. apply digit_no_nul in Hd. set_solver.
  - destruct He as [|e d ds He Hd Hdd|e sg d ds He Hsg Hd Hdd]; [set_solver|apply digit_no_nul in Hd..]; set_solver.
Qed.

Lemma string_no_nul t : string_text t -> NUL ∉ t.
Proof.
  induction 1 as [|c t Hq Hb Hc Ht IH|c t Hc Ht IH|h1 h2 h3 h4 t Hh Ht IH]; [set_solver|..].
  - assert (c <> NUL) by by intros ->. set_solver.
  - assert (c <> NUL) by by intros ->. set_solver.
  - assert (NUL ∉ [h1; h2; h3; h4]) by by apply (class_no_nul isxdigit). set_solver.
Qed.

Lemma all_no_nul :
  (forall t v, value_text t v -> NUL ∉ t) /\ (forall t l, items_text t l -> NUL ∉ t) /\
  (forall t l, pairs_text t l -> NUL ∉ t) /\ (forall t k v, pair_text t k v -> NUL ∉ t).
Proof.
  apply json_mutind; intros;
    repeat match goal with
    | H : ws _ |- _ => apply ws_no_nul in H
    | H : string_text _ |- _ => apply string_no_nul in H
    end; try (by apply lit_no_nul); try (by apply number_no_nul);
    rewrite ?not_elem_of_app, ?not_elem_of_cons, ?not_elem_of_app, ?not_elem_of_cons, ?not_elem_of_app;
    repeat split; try done; try (by apply not_elem_of_nil); try (by apply lit_no_nul).
Qed.

Lemma parse_json_text s j : json_text s j -> Parse s = Ret j.
Proof.
  intros [w t w' v Hw Hv Hw'].
  assert (NUL ∉ w ++ t ++ w') as Hnul.
  { rewrite !not_elem_of_app. repeat split; try (by apply ws_no_nul). by apply (proj1 all_no_nul t v). }
  unfold Parse.
  destruct (value_top_at (w ++ t ++ w') Hnul t v w w' (parse_fuel (w ++ t ++ w'))) as [st ->]; try done.
  - by apply (proj1 (all_reads _ Hnul) t v).
  - by eapply value_start.
  - unfold parse_fuel. rewrite !length_app. lia.
Qed.

(** [Json::Parse] returns, for every text of the JSON grammar, with white
    space anywhere between the tokens, the value the text denotes. *)
Theorem parse_complete s j : json_text s j -> Parse s = Ret j.
Proof. apply parse_json_text. Qed.

(** ** Printing *)

(** Values whose text reads back: strings and keys as the parser stores them
    (escape sequences as written), and numbers that the conversion to text and
    back keeps. *)
Inductive printable : Json -> Prop :=
| print_null : printable Json_null
| print_number d : number_text (double_text d) -> atof (double_text d) = d -> printable (Json_double d)
| print_string s : string_text s -> printable (Json_string s)
| print_bool b : printable (Json_bool b)
| print_array l : Forall printable l -> printable (Json_array l)
| print_object m : map_sorted m -> Forall (fun p => string_text (fst p) /\ printable (snd p)) m ->
    printable (Json_object m).

Lemma printable_nested_ind (Q : Json -> Prop) :
  Q Json_null ->
  (forall d, number_text (double_text d) -> atof (double_text d) = d -> Q (Json_double d)) ->
  (forall s, string_text s -> Q (Json_string s)) -> (forall b, Q (Json_bool b)) ->
  (forall l, Forall Q l -> Q (Json_array l)) ->
  (forall m, map_sorted m -> Forall (fun p => string_text (fst p) /\ Q (snd p)) m -> Q (Json_object m)) ->
  forall j, printable j -> Q j.
Proof.
  intros H0 H1 H2 H3 H4 H5. fix IH 2. intros j [|d Hd1 Hd2|s Hs|b|l Hl|m Hs Hm]; auto.
  - apply H4. induction Hl; constructor; auto.
  - apply H5; [done|]. clear Hs. induction Hm as [|p m [Hk Hp] Hm IHm]; constructor; auto.
Qed.

Definition prints (v : Json) : Prop := exists t, ToString v = Ret t /\ value_text t v.

Lemma print_items_false {A} (print : A -> outcome bytes) v l b :
  print_items print true (v :: l) = Ret b -> print_items print false (v :: l) = Ret (lit ", " ++ b).
Proof.
  cbn [print_items]. intros Hp. apply outcome_bind_inv in Hp as (t & -> & Hp).
  apply outcome_bind_inv in Hp as (r & Hr & Hp). cbn [mbind outcome_bind]. rewrite Hr.
  by injection Hp as <-.
Qed.

Lemma print_pairs_false {A} (print : A -> outcome bytes) k v m b :
  print_pairs print true ((k, v) :: m) = Ret b ->
  print_pairs print false ((k, v) :: m) = Ret (lit ", " ++ b).
Proof.
  cbn [print_pairs]. intros Hp. apply outcome_bind_inv in Hp as (t & -> & Hp).
  apply outcome_bind_inv in Hp as (r & Hr & Hp). cbn [mbind outcome_bind]. rewrite Hr.
  by injection Hp as <-.
Qed.

Lemma ws_blank : ws (lit " ").
Proof. by repeat constructor. Qed.
Lemma ws_nil : ws [].
Proof. constructor. Qed.

Lemma items_print v l :
  Forall prints (v :: l) ->
  exists b, print_items ToString true (v :: l) = Ret b /\ items_text (lit " " ++ b ++ lit " ") (v :: l).
Proof.
  revert v. induction l as [|v2 l IH]; intros v [(t & Ht & Hv) Hl]%Forall_cons.
  - exists (t ++ []). cbn [print_items]. rewrite Ht. split; [done|]. rewrite app_nil_r.
    apply items_one; [apply ws_blank|done|apply ws_blank].
  - destruct (IH v2 Hl) as (b & Hb & Hi). exists (t ++ lit ", " ++ b). split.
    + pose proof (print_items_false _ _ _ _ Hb) as Hb'.
      change (print_items ToString true (v :: v2 :: l)) with
        (t ← ToString v; rest ← print_items ToString false (v2 :: l); Ret ([] ++ t ++ rest)).
      rewrite Ht, Hb'. done.
    + pose proof (items_cons (lit " ") t [] v _ _ ws_blank Hv ws_nil Hi) as Hc.
      assert (lit " " ++ (t ++ lit ", " ++ b) ++ lit " " =
        lit " " ++ t ++ [] ++ ","%char :: lit " " ++ b ++ lit " ") as ->; [|exact Hc].
      cbn [app lit String.list_ascii_of_string]. by rewrite <- !app_assoc.
Qed.

Lemma pairs_print k v m :
  Forall (fun p => string_text (fst p) /\ prints (snd p)) ((k, v) :: m) ->
  exists b, print_pairs ToString true ((k, v) :: m) = Ret b /\
    pairs_text (lit " " ++ b ++ lit " ") ((k, v) :: m).
Proof.
  revert k v. induction m as [|[k2 v2] m IH]; intros k v [[Hk (t & Ht & Hv)] Hl]%Forall_cons; cbn [fst snd] in *.
  - exists ([QUOTE] ++ k ++ ([QUOTE] ++ lit ": ") ++ t ++ []). cbn [print_pairs]. rewrite Ht. split; [done|].
    rewrite app_nil_r. apply pairs_one.
    pose proof (pair_kv (lit " ") k [] (lit " ") t (lit " ") v ws_blank Hk ws_nil ws_blank Hv ws_blank) as Hp.
    assert (lit " " ++ ([QUOTE] ++ k ++ ([QUOTE] ++ lit ": ") ++ t) ++ lit " " =
      lit " " ++ (QUOTE :: k ++ [QUOTE]) ++ [] ++ ":"%char :: lit " " ++ t ++ lit " ") as ->; [|exact Hp].
    cbn [app lit String.list_ascii_of_string]. assoc. reflexivity.
  - destruct (IH k2 v2 Hl) as (b & Hb & Hi).
    exists ([QUOTE] ++ k ++ ([QUOTE] ++ lit ": ") ++ t ++ lit ", " ++ b). split.
    + pose proof (print_pairs_false _ _ _ _ _ Hb) as Hb'.
      change (print_pairs ToString true ((k, v) :: (k2, v2) :: m)) with
        (t ← ToString v; rest ← print_pairs ToString false ((k2, v2) :: m);
         Ret ([QUOTE] ++ k ++ ([QUOTE] ++ lit ": ") ++ t ++ rest)).
      rewrite Ht, Hb'. done.
    + pose proof (pair_kv (lit " ") k [] (lit " ") t [] v ws_blank Hk ws_nil ws_blank Hv ws_nil) as Hp.
      pose proof (pairs_cons _ _ _ _ _ Hp Hi) as Hc.
      match type of Hc with pairs_text ?x _ =>
        assert (lit " " ++ ([QUOTE] ++ k ++ ([QUOTE] ++ lit ": ") ++ t ++ lit ", " ++ b) ++ lit " " = x) as ->;
        [|exact Hc] end.
      cbn [app lit String.list_ascii_of_string]. assoc. reflexivity.
Qed.

Lemma insert_all_sorted m acc : map_sorted (acc ++ m) -> insert_all m acc = acc ++ m.
Proof.
  revert acc. induction m as [|[k v] m IH]; intros acc Hs; [by rewrite app_nil_r|].
  change (insert_all ((k, v) :: m) acc) with (insert_all m (map_insert k v acc)).
  pose proof (map_sorted_app_lt _ _ _ _ Hs) as Hlt.
  assert (map_insert k v acc = acc ++ [(k, v)]) as ->.
  { unfold map_insert. by rewrite map_find_last, map_put_last. }
  rewrite IH; by rewrite <- app_assoc.
Qed.

Lemma printable_prints j : printable j -> prints j.
Proof.
  revert j. apply printable_nested_ind.
  - eexists. split; [reflexivity|constructor].
  - intros d Hd1 Hd2. exists (double_text d). split; [done|]. rewrite <- Hd2 at 2. by constructor.
  - intros s Hs. eexists. split; [reflexivity|]. by constructor.
  - intros [|]; eexists; (split; [reflexivity|]); constructor.
  - intros [|v l] Hl.
    + eexists. split; [reflexivity|]. apply (val_array_empty (lit "  ")). by repeat constructor.
    + destruct (items_print v l Hl) as (b & Hb & Hi). exists (lit "[ " ++ b ++ lit " ]"). split.
      * unfold Json_array. cbn [ToString]. by rewrite Hb.
      * assert (lit "[ " ++ b ++ lit " ]" = "["%char :: (lit " " ++ b ++ lit " ") ++ lit "]") as ->.
        { cbn [app lit String.list_ascii_of_string]. by rewrite <- app_assoc. }
        by apply val_array.
  - intros [|[k v] m] Hs Hm.
    + eexists. split; [reflexivity|]. apply (val_object_empty (lit "  ")). by repeat constructor.
    + destruct (pairs_print k v m Hm) as (b & Hb & Hi). exists (lit "{ " ++ b ++ lit " }"). split.
      * unfold Json_object. cbn [ToString]. by rewrite Hb.
      * assert (lit "{ " ++ b ++ lit " }" = "{"%char :: (lit " " ++ b ++ lit " ") ++ lit "}") as ->.
        { cbn [app lit String.list_ascii_of_string]. by rewrite <- app_assoc. }
        pose proof (insert_all_sorted ((k, v) :: m) [] Hs) as Hall. cbn [app] in Hall.
        rewrite <- Hall. by apply val_object.
Qed.

(** C29: [ToString] and [Parse] are inverse: the text of a printable value parses
    back to the same value. *)
Theorem tostring_parse j :
  printable j -> exists t, ToString j = Ret t /\ Parse t = Ret j.
Proof.
  intros Hp. destruct (printable_prints j Hp) as (t & Ht & Hv). exists t. split; [done|].
  pose proof (json_value [] t [] j ws_nil Hv ws_nil) as Hj. cbn [app] in Hj. rewrite app_nil_r in Hj.
  by apply parse_json_text.
Qed.
End Grammar.

(** ** Witnesses: numbers as their text *)

Definition num_text (t : bytes) : Json := Json_double (D := text_double) t.

Definition demo_items : bytes := lit " 1 , true".
Definition demo_text : bytes := "["%char :: demo_items ++ lit "]".

Lemma demo_json_text : json_text (lit " " ++ demo_text ++ []) (Json_array [num_text (lit "1"); Json_bool true]).
Proof.
  apply json_value; [by repeat constructor| |constructor].
  apply val_array.
  change demo_items with (lit " " ++ lit "1" ++ lit " " ++ ","%char :: (lit " " ++ lit "true" ++ [])).
  apply items_cons; [by repeat constructor| |by repeat constructor|].
  - change (num_text (lit "1")) with (Json_double (D := text_double) (atof (lit "1"))).
    apply val_number. exists [], (lit "1"), [], []. repeat split; try constructor; try done.
  - apply items_one; [by repeat constructor|constructor|constructor].
Qed.

Lemma parse_complete_witness :
  Parse (lit " [ 1 , true]") = Ret (Json_array [num_text (lit "1"); Json_bool true]).
Proof. apply parse_complete. apply demo_json_text. Defined.

Definition demo_value : Json :=
  Json_object [(lit "id", Json_int 7); (lit "tags", Json_array [Json_string (lit "a\n"); Json_null])].

Lemma demo_printable : printable demo_value.
Proof.
  assert (string_text (lit "id") /\ string_text (lit "tags") /\ string_text (lit "a\n")) as (H1 & H2 & H3).
  { repeat split; repeat (first [apply str_nil | apply str_escape; [reflexivity|]
      | apply str_char; [discriminate|discriminate|reflexivity|]]). }
  apply print_object; [by repeat constructor|]. apply Forall_cons. split; [split; [done|]|].
  - apply print_number; [|reflexivity]. exists [], (lit "7"), [], [].
    repeat split; try constructor; try done.
  - apply Forall_cons. split; [split; [done|]|constructor]. apply print_array.
    apply Forall_cons. split; [by apply print_string|]. apply Forall_cons. split; [apply print_null|constructor].
Qed.

Lemma tostring_parse_witness : exists t, ToString demo_value = Ret t /\ Parse t = Ret demo_value.
Proof. apply tostring_parse. apply demo_printable. Defined.

(** ** Behaviour that was not intended *)

(** Escapes are checked but not decoded: the string holds the backslash. *)
Lemma escapes_kept : Parse (D := text_double) (QUOTE :: lit "a\n" ++ [QUOTE]) = Ret (Json_string (lit "a\n")) /\ length (lit "a\n") = 3%nat.
Proof. split; reflexivity. Qed.

(** [ToString] prints a quote in a string as it is, and its text does not parse. *)
Lemma quote_unescaped : ToString (D := text_double) (Json_string [QUOTE]) = Ret [QUOTE; QUOTE; QUOTE] /\
  exists e, Parse (D := text_double) [QUOTE; QUOTE; QUOTE] = Throw e.
Proof. split; [reflexivity|]. exists (ExnUnexpectedToken 34 2). reflexivity. Qed.
