(* ===== verification/JsonExact.v ===== *)
(** * The parser accepts exactly the JSON grammar

    [JsonGrammar.v] shows that [Json::Parse] of src/natsu/gci-json.cc reads every
    text of the grammar.  Here is the converse: what the parser accepts is a text
    of the grammar, with the value returned.  Each lemma finds the text that a
    successful action has read. *)
From S2P Require Import Prelude StdString StdMap Json JsonParser JsonGrammar.

Lemma bind_inv {A B} (m : P A) (k : A -> P B) st b st2 :
  (m ≫= k) st = POk b st2 -> exists a st1, m st = POk a st1 /\ k a st1 = POk b st2.
Proof. unfold mbind, P_bind. destruct (m st) as [a st1| | |]; try done. by eexists _, _. Qed.

Lemma try_inv {A} (m : P A) st a st' : try_catch m UnexpectedToken st = POk a st' -> m st = POk a st'.
Proof. unfold try_catch, UnexpectedToken. by destruct (m st). Qed.

(** A character of a class that NUL is not in is not the end of the text. *)
Lemma peek_class (f : ascii -> bool) r : f NUL = false -> f (peek r) = true -> exists c r', r = c :: r' /\ f c = true.
Proof. intros Hn Hf. destruct r as [|c r']; cbn in Hf; [congruence|by eexists _, _]. Qed.
Lemma peek_char c r : c <> NUL -> Ascii.eqb c (peek r) = true -> exists r', r = c :: r'.
Proof. intros Hc Hf. destruct r as [|c' r']; cbn in Hf; apply Ascii.eqb_eq in Hf; subst; [done|by eexists]. Qed.

(** The longest prefix in a class. *)
Lemma split_class (f : ascii -> bool) r : f NUL = false ->
  exists w r', r = w ++ r' /\ Forall (fun c => f c = true) w /\ f (peek r') = false.
Proof.
  intros Hn. induction r as [|c r (w & r' & -> & Hw & Hr)]; [by exists [], []|].
  destruct (f c) eqn:Ec; [by exists (c :: w), r'; repeat constructor|]. by exists [], (c :: w ++ r').
Qed.

Section Exact.
Context `{D : Double} (source : bytes) (Hnul : NUL ∉ source).

Abbreviation next := (next_at source Hnul).
Ltac step L := rewrite (bind_ok _ _ _ _ _ L).
Ltac step_in H L := rewrite (bind_ok _ _ _ _ _ L) in H.

(** ** Tokens *)

Lemma skip_inv pre r ch tok st : source = pre ++ r -> SkipWhitespaces source (at_ pre ch tok) = POk tt st ->
  exists w r', r = w ++ r' /\ ws w /\ isws (peek r') = false /\ st = at_ (pre ++ w) (peek r') tok.
Proof.
  intros Hs H. destruct (split_class isws r eq_refl) as (w & r' & -> & Hw & Hr). exists w, r'.
  rewrite (skip_at source Hnul pre w r' ch tok Hs Hw Hr) in H. by injection H as <-.
Qed.

Lemma specific_inv str pre r ch tok st : source = pre ++ r ->
  ConsumeSpecific source str (at_ pre ch tok) = POk tt st -> NUL ∉ str ->
  exists r', r = str ++ r' /\ st = at_ (pre ++ str) (List.last str ch) tok.
Proof.
  intros Hs H Hn. assert (exists r', r = str ++ r') as [r' ->].
  { unfold ConsumeSpecific in H. revert pre r ch Hs H. induction str as [|c str IH]; intros pre r ch Hs H; [by exists r|].
    cbn [specific_loop] in H. step_in H (next pre r ch tok Hs). destruct (Ascii.eqb c (peek r)) eqn:E; [|done].
    apply not_elem_of_cons in Hn as [Hc Hn]. destruct (peek_char c r ltac:(congruence) E) as [r1 ->]. cbn [peek] in H.
    destruct (IH Hn (pre ++ [c]) r1 c ltac:(src Hs) H) as [r' ->]. by exists r'. }
  exists r'. split; [done|]. rewrite (specific_at source Hnul str pre r' ch tok Hs) in H. by injection H as <-.
Qed.

(** ** Numbers *)

Lemma exponent_inv pre e0 r tok st : source = pre ++ e0 :: r -> e0 ∈ lit "eE" ->
  number_exponent source (at_ (pre ++ [e0]) e0 tok) = POk tt st ->
  exists e r', e0 :: r = e ++ r' /\ exp_text e /\ st = at_ (pre ++ e) " "%char (tok ++ e).
Proof.
  intros Hs He H. assert (exists e r', e0 :: r = e ++ r' /\ exp_text e /\ e <> [] /\ peek e = e0 /\ isdigit (peek r') = false)
    as (e & r' & Hr & Het & Hne & Hpe & Hd).
  { unfold number_exponent in H. step_in H (concat_at (pre ++ [e0]) e0 tok).
    step_in H (next (pre ++ [e0]) r e0 (tok ++ [e0]) ltac:(src Hs)).
    destruct (Ascii.eqb "+" (peek r) || Ascii.eqb "-" (peek r)) eqn:Esg.
    - destruct (peek_class (fun c => Ascii.eqb "+" c || Ascii.eqb "-" c) r eq_refl Esg) as (s & r1 & -> & Es). cbn [peek] in H.
      step_in H (concat_at ((pre ++ [e0]) ++ [s]) s (tok ++ [e0])).
      step_in H (next ((pre ++ [e0]) ++ [s]) r1 s ((tok ++ [e0]) ++ [s]) ltac:(src Hs)).
      destruct (isdigit (peek r1)) eqn:Ed; [|done]. destruct (peek_class isdigit r1 eq_refl Ed) as (d & r2 & -> & Hd).
      destruct (split_class isdigit r2 eq_refl) as (ds & r3 & -> & Hds & Hr3).
      exists (e0 :: s :: d :: ds), r3. split; [done|]. split; [|done]. apply exp_signed; try done.
      apply orb_true_iff in Es as [Es%Ascii.eqb_eq|Es%Ascii.eqb_eq]; subst s; clear; set_solver.
    - destruct (isdigit (peek r)) eqn:Ed; [|done]. destruct (peek_class isdigit r eq_refl Ed) as (d & r2 & -> & Hd).
      destruct (split_class isdigit r2 eq_refl) as (ds & r3 & -> & Hds & Hr3).
      exists (e0 :: d :: ds), r3. split; [done|]. split; [|done]. by apply exp_plain. }
  exists e, r'. split; [done|]. split; [done|].
  pose proof (exponent_at source Hnul pre e r' tok ltac:(by rewrite Hs, Hr) Het Hne Hd) as Hf. rewrite Hpe in Hf.
  rewrite Hf in H. by injection H as <-.
Qed.

Lemma frac_inv pre r tok st : source = pre ++ r ->
  (if Ascii.eqb "." (peek r) then
     Concat;;
     ch ← NextCharacter source;
     if negb (isdigit ch) then UnexpectedToken else
     Concat;; digits_loop source (loop_bound source)
   else mret tt) (at_ (pre ++ [peek r]) (peek r) tok) = POk tt st ->
  exists f r', r = f ++ r' /\ frac_text f /\ st = at_ ((pre ++ f) ++ [peek r']) (peek r') (tok ++ f).
Proof.
  intros Hs H. destruct (Ascii.eqb "." (peek r)) eqn:E.
  - destruct (peek_char "."%char r ltac:(done) E) as [r1 ->]. cbn [peek] in H.
    step_in H (concat_at (pre ++ ["."%char]) "."%char tok).
    step_in H (next (pre ++ ["."%char]) r1 "."%char (tok ++ ["."%char]) ltac:(src Hs)).
    destruct (isdigit (peek r1)) eqn:Ed; [|done]. cbn [negb] in H.
    destruct (peek_class isdigit r1 eq_refl Ed) as (d & r2 & -> & Hd). cbn [peek] in H.
    destruct (split_class isdigit r2 eq_refl) as (ds & r3 & -> & Hds & Hr3).
    step_in H (concat_at ((pre ++ ["."%char]) ++ [d]) d (tok ++ ["."%char])).
    rewrite (digits_at source Hnul _ _ ds r3) in H; [|src Hs|done|done|].
    + exists ("."%char :: d :: ds), r3. split; [done|]. split; [by constructor|]. injection H as <-. by rewrite <- !app_assoc.
    + apply (bound_lt source Hnul ds ((pre ++ ["."%char]) ++ [d]) r3). src Hs.
  - injection H as <-. exists [], r. split; [done|]. split; [constructor|]. by rewrite !app_nil_r.
Qed.

Lemma int_inv pre d r tok st : source = pre ++ d :: r -> isdigit d = true ->
  (if Ascii.eqb "0" d then mret tt else digits_retract_loop source (loop_bound source))
    (at_ (pre ++ [d]) d (tok ++ [d])) = POk tt st ->
  exists i r' ch, d :: r = i ++ r' /\ int_text i /\ st = at_ (pre ++ i) ch (tok ++ i).
Proof.
  intros Hs Hd H. destruct (Ascii.eqb_spec "0" d) as [<-|Hne].
  - injection H as <-. exists (lit "0"), r, "0"%char. split; [done|]. split; [constructor|done].
  - destruct (split_class isdigit r eq_refl) as (ds & r3 & -> & Hds & Hr3).
    rewrite (digits_retract_at source Hnul _ _ ds r3) in H; [|src Hs|done|done|].
    + exists (d :: ds), r3, " "%char. split; [done|]. split; [by constructor|]. injection H as <-. by rewrite <- !app_assoc.
    + apply (bound_lt source Hnul ds (pre ++ [d]) r3). src Hs.
Qed.

(** What [ConsumeNumber] does after the sign. *)
Lemma number_tail_inv pre r tok j st : source = pre ++ r ->
  (ch ← get_char;
   if negb (isdigit ch) then UnexpectedToken else
   Concat;;
   (if Ascii.eqb "0" ch then mret tt else digits_retract_loop source (loop_bound source));;
   ch ← NextCharacter source;
   if isdigit ch then UnexpectedToken else
   (if Ascii.eqb "." ch then
      Concat;;
      ch ← NextCharacter source;
      if negb (isdigit ch) then UnexpectedToken else
      Concat;; digits_loop source (loop_bound source)
    else mret tt);;
   ch ← get_char;
   (if Ascii.eqb "e" ch || Ascii.eqb "E" ch then number_exponent source else Retract);;
   t ← get_token;
   mret (Json_double (atof (cstr t)))) (at_ (pre ++ [peek r]) (peek r) tok) = POk j st ->
  exists i f e r', r = i ++ f ++ e ++ r' /\ int_text i /\ frac_text f /\ exp_text e /\
    j = Json_double (atof (cstr (tok ++ i ++ f ++ e))) /\ st = at_ (pre ++ i ++ f ++ e) " "%char (tok ++ i ++ f ++ e).
Proof.
  intros Hs H. unfold get_char at 1 in H. erewrite bind_ok in H by done. cbn [character at_] in H.
  destruct (isdigit (peek r)) eqn:Ed; [|done]. cbn [negb] in H.
  destruct (peek_class isdigit r eq_refl Ed) as (d & r1 & -> & Hd). cbn [peek] in H.
  step_in H (concat_at (pre ++ [d]) d tok). apply bind_inv in H as ([] & st1 & H1 & H).
  destruct (int_inv pre d r1 tok st1 Hs Hd H1) as (i & r2 & ch2 & Hr & Hi & ->). rewrite Hr in Hs |- *.
  step_in H (next (pre ++ i) r2 ch2 (tok ++ i) ltac:(src Hs)).
  destruct (isdigit (peek r2)); [done|]. apply bind_inv in H as ([] & st2 & H2 & H).
  destruct (frac_inv (pre ++ i) r2 (tok ++ i) st2 ltac:(src Hs) H2) as (f & r3 & -> & Hf & ->).
  unfold get_char in H. erewrite bind_ok in H by done. cbn [character at_] in H.
  apply bind_inv in H as ([] & st3 & H3 & H).
  assert (exists e r4, r3 = e ++ r4 /\ exp_text e /\ st3 = at_ (((pre ++ i) ++ f) ++ e) " "%char (((tok ++ i) ++ f) ++ e))
    as (e & r4 & -> & He & ->).
  { destruct (Ascii.eqb "e" (peek r3) || Ascii.eqb "E" (peek r3)) eqn:Ee.
    - destruct (peek_class (fun c => Ascii.eqb "e" c || Ascii.eqb "E" c) r3 eq_refl Ee) as (e0 & r4 & -> & E0). cbn [peek] in H3.
      eapply exponent_inv in H3; [exact H3|src Hs|].
      apply orb_true_iff in E0 as [E0%Ascii.eqb_eq|E0%Ascii.eqb_eq]; subst e0; clear; set_solver.
    - rewrite retract_at in H3. injection H3 as <-. exists [], r3. split; [done|]. split; [constructor|]. by rewrite !app_nil_r. }
  unfold get_token, mbind, P_bind, mret, P_ret in H. cbn [token at_] in H. injection H as <- <-.
  exists i, f, e, r4. by rewrite <- !app_assoc.
Qed.

Lemma number_inv pre r ch tok j st : source = pre ++ r -> ConsumeNumber source (at_ pre ch tok) = POk j st ->
  exists t r' tok', r = t ++ r' /\ number_text t /\ j = Json_double (atof t) /\ st = at_ (pre ++ t) " "%char tok'.
Proof.
  intros Hs H. assert (forall t r', r = t ++ r' -> NUL ∉ t) as Hn.
  { intros t r' ->. rewrite Hs in Hnul. set_solver. }
  unfold ConsumeNumber in H. step_in H (set_token_at pre ch tok []).
  step_in H (next pre r ch [] Hs). destruct (Ascii.eqb "-" (peek r)) eqn:Em.
  - destruct (peek_char "-"%char r ltac:(done) Em) as [r1 ->]. cbn [peek] in H.
    apply bind_inv in H as ([] & st1 & H1 & H). step_in H1 (concat_at (pre ++ ["-"%char]) "-"%char []).
    step_in H1 (next (pre ++ ["-"%char]) r1 "-"%char ([] ++ ["-"%char]) ltac:(src Hs)). injection H1 as <-.
    eapply number_tail_inv in H as (i & f & e & r' & -> & Hi & Hf & He & -> & ->); [|src Hs].
    exists (lit "-" ++ i ++ f ++ e), r', (lit "-" ++ i ++ f ++ e). split; [by rewrite <- !app_assoc|].
    split; [exists (lit "-"), i, f, e; split_and!; try done; constructor|].
    rewrite cstr_id; [|apply (Hn _ r'); cbn; by rewrite <- !app_assoc]. split; [done|]. by rewrite <- !app_assoc.
  - rewrite ret_bind in H. eapply number_tail_inv in H as (i & f & e & r' & -> & Hi & Hf & He & -> & ->); [|done].
    exists (i ++ f ++ e), r', (i ++ f ++ e). split; [by rewrite <- !app_assoc|].
    split; [exists [], i, f, e; split_and!; try done; constructor|].
    cbn [app]. rewrite cstr_id; [done|]. apply (Hn _ r'). by rewrite <- !app_assoc.
Qed.

(** ** Strings *)

Lemma hex_inv n : forall pre r ch tok st, source = pre ++ r -> hex_loop source n (at_ pre ch tok) = POk tt st ->
  exists hs r' ch', r = hs ++ r' /\ length hs = n /\ Forall (fun c => isxdigit c = true) hs /\
    st = at_ (pre ++ hs) ch' (tok ++ hs).
Proof.
  induction n as [|n IH]; intros pre r ch tok st Hs H; cbn [hex_loop] in H.
  - injection H as <-. exists [], r, ch. by rewrite !app_nil_r.
  - step_in H (next pre r ch tok Hs). destruct (isxdigit (peek r)) eqn:E; [|done]. cbn [negb] in H.
    destruct (peek_class isxdigit r eq_refl E) as (c & r1 & -> & Hc). cbn [peek] in H.
    step_in H (concat_at (pre ++ [c]) c tok).
    destruct (IH (pre ++ [c]) r1 c (tok ++ [c]) st ltac:(src Hs) H) as (hs & r' & ch' & -> & Hl & Hh & ->).
    exists (c :: hs), r', ch'. cbn [length]. rewrite Hl, <- !app_assoc. split_and!; try done. by constructor.
Qed.

Lemma string_loop_inv n : forall pre r ch tok st, source = pre ++ r -> string_loop source n (at_ pre ch tok) = POk tt st ->
  exists t r', r = t ++ QUOTE :: r' /\ string_text t /\ st = at_ (pre ++ t ++ [QUOTE]) QUOTE (tok ++ t).
Proof.
  induction n as [|n IH]; intros pre r ch tok st Hs H; cbn [string_loop] in H; [done|].
  step_in H (next pre r ch tok Hs). destruct (Ascii.eqb QUOTE (peek r)) eqn:Eq.
  { destruct (peek_char QUOTE r ltac:(done) Eq) as [r' ->]. injection H as <-. exists [], r'. split; [done|].
    split; [constructor|]. by rewrite app_nil_r. }
  apply bind_inv in H as ([] & st1 & H1 & H). destruct (Ascii.eqb "\" (peek r)) eqn:Eb.
  - destruct (peek_char "\"%char r ltac:(done) Eb) as [r1 ->]. cbn [peek] in H1.
    step_in H1 (concat_at (pre ++ ["\"%char]) "\"%char tok).
    step_in H1 (next (pre ++ ["\"%char]) r1 "\"%char (tok ++ ["\"%char]) ltac:(src Hs)).
    destruct (is_escape (peek r1)) eqn:Ee; [|destruct (Ascii.eqb "u" (peek r1)) eqn:Eu; [|done]].
    + destruct (peek_class is_escape r1 eq_refl Ee) as (c & r2 & -> & Hc). cbn [peek] in H1. rewrite concat_at in H1.
      injection H1 as <-. destruct (IH ((pre ++ ["\"%char]) ++ [c]) r2 _ _ _ ltac:(src Hs) H) as (t & r' & -> & Ht & ->).
      exists ("\"%char :: c :: t), r'. split; [done|]. split; [by apply str_escape|]. by rewrite <- !app_assoc.
    + destruct (peek_char "u"%char r1 ltac:(done) Eu) as [r2 ->]. cbn [peek] in H1.
      step_in H1 (concat_at ((pre ++ ["\"%char]) ++ ["u"%char]) "u"%char (tok ++ ["\"%char])).
      destruct (hex_inv 4 ((pre ++ ["\"%char]) ++ ["u"%char]) r2 _ _ _ ltac:(src Hs) H1) as (hs & r3 & ch' & -> & Hl & Hh & ->).
      destruct hs as [|h1 [|h2 [|h3 [|h4 []]]]]; try done.
      destruct (IH (((pre ++ ["\"%char]) ++ ["u"%char]) ++ [h1; h2; h3; h4]) r3 _ _ _ ltac:(src Hs) H) as (t & r' & -> & Ht & ->).
      exists ("\"%char :: "u"%char :: h1 :: h2 :: h3 :: h4 :: t), r'. split; [done|].
      split; [by apply str_unicode|]. by rewrite <- !app_assoc.
  - destruct (iscntrl (peek r)) eqn:Ec; [done|]. rewrite concat_at in H1. injection H1 as <-.
    destruct r as [|c r]; [done|]. cbn [peek] in *.
    destruct (IH (pre ++ [c]) r _ _ _ ltac:(src Hs) H) as (t & r' & -> & Ht & ->). apply Ascii.eqb_neq in Eq, Eb.
    exists (c :: t), r'. split; [done|]. split; [by apply str_char|]. by rewrite <- !app_assoc.
Qed.

Lemma string_inv pre r ch tok j st : source = pre ++ r -> ConsumeString source (at_ pre ch tok) = POk j st ->
  exists w t r', r = w ++ (QUOTE :: t ++ [QUOTE]) ++ r' /\ ws w /\ string_text t /\ j = Json_string t /\
    st = at_ (pre ++ w ++ QUOTE :: t ++ [QUOTE]) QUOTE t.
Proof.
  intros Hs H. unfold ConsumeString in H. apply bind_inv in H as ([] & st1 & H1 & H).
  destruct (skip_inv pre r ch tok st1 Hs H1) as (w & r1 & -> & Hw & _ & ->).
  step_in H (next (pre ++ w) r1 (peek r1) tok ltac:(src Hs)). destruct (Ascii.eqb QUOTE (peek r1)) eqn:Eq; [|done]. cbn [negb] in H.
  destruct (peek_char QUOTE r1 ltac:(done) Eq) as [r2 ->]. cbn [peek] in H.
  step_in H (set_token_at ((pre ++ w) ++ [QUOTE]) QUOTE tok []). apply bind_inv in H as ([] & st2 & H2 & H).
  destruct (string_loop_inv _ ((pre ++ w) ++ [QUOTE]) r2 _ _ _ ltac:(src Hs) H2) as (t & r' & -> & Ht & ->).
  unfold get_token, mbind, P_bind, mret, P_ret in H. cbn [token at_] in H. injection H as <- <-.
  exists w, t, r'. split_and!; try done; [by cbn [app]; rewrite <- app_assoc|]. by rewrite <- !app_assoc.
Qed.

(** ** Values *)

(** The consumer has read a value's text. *)
Definition took (pre r : bytes) (j : Json) (st : pstate) : Prop :=
  exists t r' ch' tok', r = t ++ r' /\ value_text t j /\ st = at_ (pre ++ t) ch' tok' /\ ch' <> NUL.

Lemma bool_inv pre r ch tok j st : source = pre ++ r -> ConsumeBool source (at_ pre ch tok) = POk j st -> took pre r j st.
Proof.
  intros Hs H. unfold ConsumeBool in H. step_in H (next pre r ch tok Hs). step_in H (retract_at pre (peek r) (peek r) tok).
  destruct (Ascii.eqb "t" (peek r)); apply bind_inv in H as ([] & st1 & H1 & H); injection H as <- <-;
    destruct (specific_inv _ _ _ _ _ _ Hs H1 ltac:(by apply lit_no_nul)) as (r' & -> & ->).
  - exists (lit "true"), r', "e"%char, tok. split_and!; try done. constructor.
  - exists (lit "false"), r', "e"%char, tok. split_and!; try done. constructor.
Qed.

Lemma null_inv pre r ch tok j st : source = pre ++ r -> ConsumeNull source (at_ pre ch tok) = POk j st -> took pre r j st.
Proof.
  intros Hs H. unfold ConsumeNull in H. apply bind_inv in H as ([] & st1 & H1 & H). injection H as <- <-.
  destruct (specific_inv _ _ _ _ _ _ Hs H1 ltac:(by apply lit_no_nul)) as (r' & -> & ->).
  exists (lit "null"), r', "l"%char, tok. split_and!; try done. constructor.
Qed.

(** ** Arrays and objects *)

Definition value_ok (fuel : nat) : Prop := forall pre r ch tok j st,
  source = pre ++ r -> ConsumeValue source fuel true (at_ pre ch tok) = POk j st ->
  exists w t w' r' ch' tok', r = w ++ t ++ w' ++ r' /\ ws w /\ value_text t j /\ ws w' /\ st = at_ (pre ++ w ++ t ++ w') ch' tok'.
Definition pair_ok (fuel : nat) : Prop := forall pre r ch tok k j st,
  source = pre ++ r -> ConsumePair source fuel (at_ pre ch tok) = POk (k, j) st ->
  exists t r' ch' tok', r = t ++ r' /\ pair_text t k j /\ st = at_ (pre ++ t) ch' tok'.
(** The rest of an array after some items, up to the bracket. *)
Definition items_ok (fuel : nat) : Prop := forall pre r ch tok arr j st,
  source = pre ++ r -> array_loop source fuel arr (at_ pre ch tok) = POk j st ->
  exists t l r' tok', r = t ++ "]"%char :: r' /\ j = Json_array (arr ++ l) /\ st = at_ (pre ++ t ++ lit "]") "]"%char tok' /\
    (t = [] /\ l = [] \/ exists t', t = ","%char :: t' /\ items_text t' l).
Definition pairs_ok (fuel : nat) : Prop := forall pre r ch tok obj j st,
  source = pre ++ r -> object_loop source fuel obj (at_ pre ch tok) = POk j st ->
  exists t l r' tok', r = t ++ "}"%char :: r' /\ j = Json_object (insert_all l obj) /\ st = at_ (pre ++ t ++ lit "}") "}"%char tok' /\
    (t = [] /\ l = [] \/ exists t', t = ","%char :: t' /\ pairs_text t' l).

(** A value or a pair in front of the rest. *)
Lemma items_join w t w' v t' l : ws w -> value_text t v -> ws w' ->
  (t' = [] /\ l = [] \/ exists t2, t' = ","%char :: t2 /\ items_text t2 l) -> items_text (w ++ t ++ w' ++ t') (v :: l).
Proof. intros H1 H2 H3 [[-> ->]|(t2 & -> & H)]; [rewrite app_nil_r; by apply items_one|by apply items_cons]. Qed.
Lemma pairs_join t k v t' l : pair_text t k v ->
  (t' = [] /\ l = [] \/ exists t2, t' = ","%char :: t2 /\ pairs_text t2 l) -> pairs_text (t ++ t') ((k, v) :: l).
Proof. intros H1 [[-> ->]|(t2 & -> & H)]; [rewrite app_nil_r; by apply pairs_one|by apply pairs_cons]. Qed.

(** White space before the items or pairs can be split off. *)
Lemma items_pad w t l : ws w -> items_text t l -> items_text (w ++ t) l.
Proof.
  intros Hw [w1 t1 w' v H1 Hv H2|w1 t1 w' v t' l' H1 Hv H2 Hl]; rewrite app_assoc; constructor; try done; by apply Forall_app.
Qed.
Lemma pair_pad w t k v : ws w -> pair_text t k v -> pair_text (w ++ t) k v.
Proof. intros Hw [w1 k' w2 w3 t1 w4 v' H1]. rewrite app_assoc. constructor; try done. by apply Forall_app. Qed.
Lemma pairs_pad w t l : ws w -> pairs_text t l -> pairs_text (w ++ t) l.
Proof.
  intros Hw [t1 k v H|t1 k v t' l' H Hl]; [constructor; by apply pair_pad|].
  rewrite app_assoc. constructor; [by apply pair_pad|done].
Qed.

(** An item and what follows it, shared by the first item and the later ones. *)
Lemma item_then fuel pre r ch tok arr j st : value_ok fuel -> items_ok fuel -> source = pre ++ r ->
  (value ← try_catch (ConsumeValue source fuel true) UnexpectedToken; array_loop source fuel (arr ++ [value])) (at_ pre ch tok) =
    POk j st ->
  exists t l r' tok', r = t ++ "]"%char :: r' /\ j = Json_array (arr ++ l) /\ items_text t l /\
    st = at_ (pre ++ t ++ lit "]") "]"%char tok'.
Proof.
  intros Hv Hi Hs H. apply bind_inv in H as (v & st1 & H1%try_inv & H).
  destruct (Hv _ _ _ _ _ _ Hs H1) as (w & t & w' & r1 & ch1 & tok1 & -> & Hw & Ht & Hw' & ->).
  destruct (Hi (pre ++ w ++ t ++ w') r1 _ _ _ _ _ ltac:(src Hs) H) as (t2 & l & r' & tok' & -> & -> & -> & Hl).
  exists (w ++ t ++ w' ++ t2), (v :: l), r', tok'. split_and!; [by rewrite <- !app_assoc|by rewrite <- app_assoc|
    by apply items_join|by rewrite <- !app_assoc].
Qed.
Lemma pair_then fuel pre r ch tok obj j st : pair_ok fuel -> pairs_ok fuel -> source = pre ++ r ->
  ('(key, value) ← try_catch (ConsumePair source fuel) UnexpectedToken;
   object_loop source fuel (map_insert key value obj)) (at_ pre ch tok) = POk j st ->
  exists t l r' tok', r = t ++ "}"%char :: r' /\ j = Json_object (insert_all l obj) /\ pairs_text t l /\
    st = at_ (pre ++ t ++ lit "}") "}"%char tok'.
Proof.
  intros Hv Hi Hs H. apply bind_inv in H as ([k v] & st1 & H1%try_inv & H).
  destruct (Hv _ _ _ _ _ _ _ Hs H1) as (t & r1 & ch1 & tok1 & -> & Ht & ->).
  destruct (Hi (pre ++ t) r1 _ _ _ _ _ ltac:(src Hs) H) as (t2 & l & r' & tok' & -> & -> & -> & Hl).
  exists (t ++ t2), ((k, v) :: l), r', tok'. split_and!; [by rewrite <- !app_assoc|done|by apply pairs_join|by rewrite <- !app_assoc].
Qed.

Lemma array_loop_inv fuel : value_ok fuel -> items_ok fuel -> items_ok (S fuel).
Proof.
  intros Hv Hi pre r ch tok arr j st Hs H. cbn [array_loop] in H. step_in H (next pre r ch tok Hs).
  destruct (Ascii.eqb "]" (peek r)) eqn:Eb; [|destruct (Ascii.eqb "," (peek r)) eqn:Ec; [|done]].
  - destruct (peek_char "]"%char r ltac:(done) Eb) as [r' ->]. injection H as <- <-. exists [], [], r', tok.
    rewrite app_nil_r. split_and!; try done. by left.
  - destruct (peek_char ","%char r ltac:(done) Ec) as [r1 ->]. cbn [peek] in H.
    destruct (item_then fuel (pre ++ [","%char]) r1 _ _ _ _ _ Hv Hi ltac:(src Hs) H) as (t & l & r' & tok' & -> & -> & Ht & ->).
    exists (","%char :: t), l, r', tok'. split_and!; try done; [by rewrite <- !app_assoc|right; by exists t].
Qed.
Lemma object_loop_inv fuel : pair_ok fuel -> pairs_ok fuel -> pairs_ok (S fuel).
Proof.
  intros Hv Hi pre r ch tok obj j st Hs H. cbn [object_loop] in H. step_in H (next pre r ch tok Hs).
  destruct (Ascii.eqb "}" (peek r)) eqn:Eb; [|destruct (Ascii.eqb "," (peek r)) eqn:Ec; [|done]].
  - destruct (peek_char "}"%char r ltac:(done) Eb) as [r' ->]. injection H as <- <-. exists [], [], r', tok.
    split_and!; try done. by left.
  - destruct (peek_char ","%char r ltac:(done) Ec) as [r1 ->]. cbn [peek] in H.
    destruct (pair_then fuel (pre ++ [","%char]) r1 _ _ _ _ _ Hv Hi ltac:(src Hs) H) as (t & l & r' & tok' & -> & -> & Ht & ->).
    exists (","%char :: t), l, r', tok'. split_and!; try done; [by rewrite <- !app_assoc|right; by exists t].
Qed.

Lemma array_inv fuel pre r ch tok j st : value_ok fuel -> items_ok fuel -> source = pre ++ r ->
  ConsumeArray source (S fuel) (at_ pre ch tok) = POk j st -> took pre r j st.
Proof.
  intros Hv Hi Hs H. cbn [ConsumeArray] in H. step_in H (next pre r ch tok Hs).
  destruct (Ascii.eqb "[" (peek r)) eqn:Eo; [|done]. cbn [negb] in H.
  destruct (peek_char "["%char r ltac:(done) Eo) as [r1 ->]. cbn [peek] in H.
  apply bind_inv in H as ([] & st1 & H1 & H).
  destruct (skip_inv (pre ++ ["["%char]) r1 _ _ _ ltac:(src Hs) H1) as (w & r2 & -> & Hw & _ & ->).
  step_in H (next ((pre ++ ["["%char]) ++ w) r2 (peek r2) tok ltac:(src Hs)).
  destruct (Ascii.eqb "]" (peek r2)) eqn:Eb.
  - destruct (peek_char "]"%char r2 ltac:(done) Eb) as [r' ->]. injection H as <- <-.
    exists ("["%char :: w ++ lit "]"), r', "]"%char, tok. split_and!; [src Hs|by constructor|assoc; reflexivity|done].
  - step_in H (retract_at ((pre ++ ["["%char]) ++ w) (peek r2) (peek r2) tok).
    destruct (item_then fuel ((pre ++ ["["%char]) ++ w) r2 _ _ _ _ _ Hv Hi ltac:(src Hs) H) as (t & l & r' & tok' & -> & -> & Ht & ->).
    exists ("["%char :: (w ++ t) ++ lit "]"), r', "]"%char, tok'. split_and!; [src Hs| |assoc; reflexivity|done].
    cbn [app]. apply val_array. by apply items_pad.
Qed.

Lemma object_inv fuel pre r ch tok j st : pair_ok fuel -> pairs_ok fuel -> source = pre ++ r ->
  ConsumeObject source (S fuel) (at_ pre ch tok) = POk j st -> took pre r j st.
Proof.
  intros Hv Hi Hs H. cbn [ConsumeObject] in H. step_in H (next pre r ch tok Hs).
  destruct (Ascii.eqb "{" (peek r)) eqn:Eo; [|done]. cbn [negb] in H.
  destruct (peek_char "{"%char r ltac:(done) Eo) as [r1 ->]. cbn [peek] in H.
  apply bind_inv in H as ([] & st1 & H1 & H).
  destruct (skip_inv (pre ++ ["{"%char]) r1 _ _ _ ltac:(src Hs) H1) as (w & r2 & -> & Hw & _ & ->).
  step_in H (next ((pre ++ ["{"%char]) ++ w) r2 (peek r2) tok ltac:(src Hs)).
  destruct (Ascii.eqb "}" (peek r2)) eqn:Eb.
  - destruct (peek_char "}"%char r2 ltac:(done) Eb) as [r' ->]. injection H as <- <-.
    exists ("{"%char :: w ++ lit "}"), r', "}"%char, tok. split_and!; [src Hs|by constructor|assoc; reflexivity|done].
  - step_in H (retract_at ((pre ++ ["{"%char]) ++ w) (peek r2) (peek r2) tok).
    destruct (pair_then fuel ((pre ++ ["{"%char]) ++ w) r2 _ _ _ _ _ Hv Hi ltac:(src Hs) H) as (t & l & r' & tok' & -> & -> & Ht & ->).
    exists ("{"%char :: (w ++ t) ++ lit "}"), r', "}"%char, tok'. split_and!; [src Hs| |assoc; reflexivity|done].
    apply val_object. by apply pairs_pad.
Qed.

Lemma pair_inv fuel : value_ok fuel -> pair_ok (S fuel).
Proof.
  intros Hv pre r ch tok k j st Hs H. cbn [ConsumePair] in H. apply bind_inv in H as (pk & st1 & H1 & H).
  destruct (string_inv pre r ch tok pk st1 Hs H1) as (w & t & r1 & -> & Hw & Ht & -> & ->).
  apply bind_inv in H as (k' & st2 & H2 & H). unfold pair_key in H2.
  cbn [AsString Data_string Json_string kind_ data_ mbind outcome_bind] in H2.
  rewrite cstr_id in H2 by (by apply string_no_nul). injection H2 as <- <-.
  set (q := QUOTE :: t ++ [QUOTE]) in *. apply bind_inv in H as ([] & st3 & H3 & H).
  destruct (skip_inv (pre ++ w ++ q) r1 _ _ _ ltac:(src Hs) H3) as (w2 & r2 & -> & Hw2 & _ & ->).
  apply bind_inv in H as ([] & st4 & H4 & H).
  destruct (specific_inv (lit ":") ((pre ++ w ++ q) ++ w2) r2 _ _ _ ltac:(src Hs) H4 ltac:(by apply lit_no_nul)) as (r3 & -> & ->).
  apply bind_inv in H as (v & st5 & H5 & H). injection H as <- <- <-.
  destruct (Hv (((pre ++ w ++ q) ++ w2) ++ lit ":") r3 _ _ _ _ ltac:(src Hs) H5)
    as (w3 & t' & w4 & r' & ch' & tok' & -> & Hw3 & Hv' & Hw4 & ->).
  exists (w ++ q ++ w2 ++ ":"%char :: w3 ++ t' ++ w4), r', ch', tok'.
  split_and!; [assoc; reflexivity|by apply pair_kv|assoc; reflexivity].
Qed.

(** The consumer that [KindDetect] chooses. *)
Lemma consumer_inv fuel pre r tok j st :
  (forall ch tok j st, ConsumeArray source fuel (at_ pre ch tok) = POk j st -> took pre r j st) ->
  (forall ch tok j st, ConsumeObject source fuel (at_ pre ch tok) = POk j st -> took pre r j st) ->
  source = pre ++ r -> isws (peek r) = false ->
  consumer source fuel (kind_of (peek r)) (at_ pre " "%char tok) = POk j st -> took pre r j st.
Proof.
  intros Ha Ho Hs Hr H. destruct (kind_of (peek r)); cbn [consumer] in H.
  - destruct (number_inv pre r _ _ _ _ Hs H) as (t & r' & tok' & -> & Ht & -> & ->).
    exists t, r', " "%char, tok'. split_and!; try done. by constructor.
  - destruct (string_inv pre r _ _ _ _ Hs H) as (w & t & r' & -> & Hw & Ht & -> & ->).
    destruct Hw as [|c w Hc Hw]; [|cbn in Hr; congruence].
    exists (QUOTE :: t ++ [QUOTE]), r', QUOTE, t. split_and!; try done. by constructor.
  - by eapply bool_inv.
  - by eapply null_inv.
  - by eapply Ho.
  - by eapply Ha.
Qed.

Lemma value_inv fuel :
  (forall pre r ch tok j st, source = pre ++ r -> ConsumeArray source fuel (at_ pre ch tok) = POk j st -> took pre r j st) ->
  (forall pre r ch tok j st, source = pre ++ r -> ConsumeObject source fuel (at_ pre ch tok) = POk j st -> took pre r j st) ->
  forall b pre r ch tok j st, source = pre ++ r -> ConsumeValue source (S fuel) b (at_ pre ch tok) = POk j st ->
  exists w t w' r', r = w ++ t ++ w' ++ r' /\ ws w /\ value_text t j /\ ws w' /\
    (if b then exists ch' tok', st = at_ (pre ++ w ++ t ++ w') ch' tok' else r' = []).
Proof.
  intros Ha Ho b pre r ch tok j st Hs H. cbn [ConsumeValue] in H. apply bind_inv in H as ([] & st1 & H1 & H).
  destruct (skip_inv pre r ch tok st1 Hs H1) as (w & r1 & -> & Hw & Hws & ->).
  step_in H (kind_at source Hnul (pre ++ w) r1 (peek r1) tok ltac:(src Hs)).
  apply bind_inv in H as (j' & st2 & H2 & H). change (consumer source fuel (kind_of (peek r1)) (at_ (pre ++ w) " "%char tok) = POk j' st2) in H2.
  destruct (consumer_inv fuel (pre ++ w) r1 tok j' st2) as (t & r2 & ch2 & tok2 & -> & Ht & -> & Hch); try done;
    [intros; eapply Ha; [src Hs|done]|intros; eapply Ho; [src Hs|done]|src Hs|].
  unfold EOL at 1 in H. erewrite bind_ok in H by reflexivity. cbn [character at_] in H.
  rewrite (proj2 (Ascii.eqb_neq NUL ch2)) in H by done. cbn [negb] in H. destruct b; cbn [negb andb] in H.
  - rewrite ret_bind in H. apply bind_inv in H as ([] & st3 & H3 & H). injection H as <- <-.
    destruct (skip_inv ((pre ++ w) ++ t) r2 _ _ _ ltac:(src Hs) H3) as (w' & r' & -> & Hw' & _ & ->).
    exists w, t, w', r'. split_and!; try done. eexists _, _. assoc. reflexivity.
  - apply bind_inv in H as ([] & st3 & H3 & H). rewrite ret_bind in H. injection H as <- <-.
    apply bind_inv in H3 as ([] & st4 & H4 & H3).
    destruct (skip_inv ((pre ++ w) ++ t) r2 _ _ _ ltac:(src Hs) H4) as (w' & r' & -> & Hw' & _ & ->).
    step_in H3 (next (((pre ++ w) ++ t) ++ w') r' (peek r') tok2 ltac:(src Hs)). unfold EOL in H3.
    erewrite bind_ok in H3 by reflexivity. cbn [character at_] in H3. exists w, t, w', r'. split_and!; try done.
    destruct r' as [|c r']; [done|]. cbn [peek] in H3. destruct (Ascii.eqb_spec NUL c) as [<-|]; [|done].
    rewrite Hs in Hnul. set_solver.
Qed.

Lemma all_ok fuel : value_ok fuel /\ pair_ok fuel /\ items_ok fuel /\ pairs_ok fuel /\
  (forall pre r ch tok j st, source = pre ++ r -> ConsumeArray source fuel (at_ pre ch tok) = POk j st -> took pre r j st) /\
  (forall pre r ch tok j st, source = pre ++ r -> ConsumeObject source fuel (at_ pre ch tok) = POk j st -> took pre r j st).
Proof.
  induction fuel as [|fuel (Hv & Hp & Hi & Hps & Ha & Ho)]; [repeat split; repeat intro; done|]. split_and!.
  - intros pre r ch tok j st Hs H. destruct (value_inv fuel Ha Ho true _ _ _ _ _ _ Hs H) as (w & t & w' & r' & -> & H1 & H2 & H3 & ch' & tok' & ->).
    by exists w, t, w', r', ch', tok'.
  - by apply pair_inv.
  - by apply array_loop_inv.
  - by apply object_loop_inv.
  - intros. by eapply array_inv.
  - intros. by eapply object_inv.
Qed.

Lemma parse_sound j : Parse source = Ret j -> json_text source j.
Proof.
  unfold Parse. destruct (ConsumeValue source (parse_fuel source) false Parser_new) as [j' st| | |] eqn:E; try done.
  intros [= <-]. unfold parse_fuel in E. replace (2 * length source + 4)%nat with (S (2 * length source + 3)) in E by lia.
  destruct (all_ok (2 * length source + 3)) as (_ & _ & _ & _ & Ha & Ho). change Parser_new with (at_ [] " "%char []) in E.
  destruct (value_inv _ Ha Ho false [] source _ _ _ _ eq_refl E) as (w & t & w' & r' & Hs & Hw & Ht & Hw' & ->).
  rewrite app_nil_r in Hs. rewrite Hs. by constructor.
Qed.
End Exact.

(** C28: The parser decides the JSON grammar.  For every C string, [Json::Parse] returns
    the value [j] exactly when the string is a JSON text that denotes [j]; it
    throws [UnexpectedTokenException] exactly when the string is no JSON text; and
    so no text denotes two values. *)
Theorem parse_exact `{D : Double} (source : bytes) :
  NUL ∉ source ->
  (forall j, Parse source = Ret j <-> json_text source j) /\
  ((exists ch i, Parse source = Throw (ExnUnexpectedToken ch i)) <-> forall j, ~ json_text source j) /\
  (forall j j', json_text source j -> json_text source j' -> j = j').
Proof.
  intros Hn. assert (forall j, Parse source = Ret j <-> json_text source j) as Hiff.
  { intros j. split; [by apply parse_sound|apply parse_json_text]. }
  split_and!; [done| |].
  - split.
    + intros (ch & i & H) j Hj%Hiff. congruence.
    + intros Hno. destruct (parse_ends source) as [[j Hj]|H]; [|done]. by destruct (Hno j); apply Hiff.
  - intros j j' H1%Hiff H2%Hiff. congruence.
Qed.

(** ** Example: a text that is accepted and one that is not *)
Lemma demo_no_nul : (NUL ∉ lit " [ 1 , true]") /\ (NUL ∉ lit "[01]").
Proof. split; apply lit_no_nul; reflexivity. Qed.

Lemma parse_exact_witness :
  Parse (lit " [ 1 , true]") = Ret (Json_array [num_text (lit "1"); Json_bool true]) /\
  forall j, ~ json_text (D := text_double) (lit "[01]") j.
Proof.
  split.
  - apply (proj1 (parse_exact (lit " [ 1 , true]") (proj1 demo_no_nul))). apply demo_json_text.
  - destruct (parse_exact (D := text_double) (lit "[01]") (proj2 demo_no_nul)) as (_ & [H _] & _). apply H.
    exists 49, 2. reflexivity.
Defined.
