(* ===== verification/RpcPacket.v ===== *)
(** * RPC packets: [RpcPacketParser] of src/natsu/natsu_rpc.cpp

    A packet is a 12-byte header (body length, request id), a body (the
    NUL-terminated type name with its length, the protobuf payload, an adler32
    checksum).  zlib's [adler32] and protobuf are not part of the repository:
    they are parameters, with protobuf's documented behaviour as the laws of
    [ProtobufLaws].  Integers are copied with [memcpy] on a little-endian
    machine.  A read outside of the received bytes and their terminating NUL is
    undefined behaviour. *)
From S2P Require Import Prelude StdString StdMap.

(** ** Little-endian images of integers *)

Fixpoint le (n : nat) (z : Z) : bytes :=
  match n with
  | O => []
  | S n' => chr z :: le n' (z / 256)
  end.

Fixpoint unle (b : bytes) : Z :=
  match b with
  | [] => 0
  | c :: b' => code c + 256 * unle b'
  end.

Lemma le_length n z : length (le n z) = n.
Proof. revert z. induction n as [|n IH]; intros z; simpl; [done|]. by rewrite IH. Qed.

Lemma unle_le n z : unle (le n z) = z mod 2 ^ (8 * Z.of_nat n).
Proof.
  revert z. induction n as [|n IH]; intros z; cbn [le unle].
  { change (8 * Z.of_nat 0) with 0. by rewrite Z.mod_1_r. }
  rewrite IH, code_chr. replace (8 * Z.of_nat (S n)) with (8 + 8 * Z.of_nat n) by lia.
  rewrite Z.pow_add_r by lia. change (2 ^ 8) with 256.
  rewrite Z.rem_mul_r; [done|lia|]. by apply Z.pow_pos_nonneg; lia.
Qed.

Lemma unle_le_u32 z : 0 <= z < 2 ^ 32 -> unle (le 4 z) = z.
Proof. intros. rewrite unle_le. by apply Z.mod_small. Qed.

Lemma mod_signed z m : 0 < m -> (z mod m + m / 2) mod m = (z + m / 2) mod m.
Proof. intros. by rewrite Z.add_mod_idemp_l by lia. Qed.

Lemma i64_le z : - 2 ^ 63 <= z < 2 ^ 63 -> i64 (unle (le 8 z)) = z.
Proof.
  intros. rewrite unle_le. unfold i64. change (8 * Z.of_nat 8) with 64.
  change (2 ^ 63) with (2 ^ 64 / 2) at 1. rewrite mod_signed by lia.
  change (2 ^ 64 / 2) with (2 ^ 63). by apply i64_small.
Qed.

Lemma i32_le z : - 2 ^ 31 <= z < 2 ^ 31 -> i32 (unle (le 4 z)) = z.
Proof.
  intros. rewrite unle_le. unfold i32. change (8 * Z.of_nat 4) with 32.
  change (2 ^ 31) with (2 ^ 32 / 2) at 1. rewrite mod_signed by lia.
  change (2 ^ 32 / 2) with (2 ^ 31). by apply i32_small.
Qed.

(** [memcpy] of [n] bytes at offset [off] of the readable memory [mem]. *)
Definition mem_read (mem : bytes) (off n : nat) : outcome bytes :=
  if (off + n <=? length mem)%nat then Ret (take n (drop off mem)) else Undef.

(** ** Interface to protobuf and zlib *)

Class Protobuf (Msg Desc : Type) : Type := {
  GetTypeName : Msg -> bytes;
  AppendToString : Msg -> option bytes;
  FindMessageTypeByName : bytes -> option Desc;
  GetPrototype : Desc -> option Msg;
  New : Msg -> Msg;
  ParseFromArray : Msg -> bytes -> option Msg;
  adler32 : Z -> bytes -> Z
}.

(** Parsing the serialisation of a message into a new message of its type gives
    the message back. *)
Class ProtobufLaws {Msg Desc} (P : Protobuf Msg Desc) : Prop := {
  parse_back m d proto :
    AppendToString m = Some d -> GetTypeName proto = GetTypeName m ->
    ParseFromArray (New proto) d = Some m
}.

Definition PACKET_SIZE_MAX : Z := 4096.
Definition kHeaderLen : nat := 12.

Section Packets.
Context {Msg Desc : Type} `{P : Protobuf Msg Desc}.

Record RpcPacketParser : Type := mkRpcParser { buffer_ : bytes; message_ : list (Z * Msg) }.

Definition RpcPacketParser_new : RpcPacketParser := mkRpcParser [] [].

Definition Encode (message : Msg) (rid : Z) : bytes :=
  let result := replicate 4 NUL in
  let result := result ++ le 8 rid in
  let type_name := GetTypeName message in
  let name_len := i32 (sz type_name + 1) in
  let result := result ++ le 4 name_len in
  let result := result ++ (type_name ++ [NUL]) in
  match AppendToString message with
  | Some data =>
      let result := result ++ data in
      let checkSum := i32 (adler32 1 (drop kHeaderLen result)) in
      let result := result ++ le 4 checkSum in
      let len := i32 (sz result - 12) in
      le 4 len ++ drop 4 result
  | None => []
  end.

Definition CreateMessage (typeName : bytes) : option Msg :=
  match FindMessageTypeByName typeName with
  | Some descriptor =>
      match GetPrototype descriptor with
      | Some prototype => Some (New prototype)
      | None => None
      end
  | None => None
  end.

(** [buf] is the memory readable from the pointer on. *)
Definition DecodeMessage (buf : bytes) (bufferlength : Z) : outcome (option Msg) :=
  let len := i32 bufferlength in
  if 10 <=? len then
    tail ← mem_read buf (Z.to_nat bufferlength - 4) 4;
    let expected_checksum := i32 (unle tail) in
    body ← mem_read buf 0 (Z.to_nat (len - 4));
    let checksum := i32 (adler32 1 body) in
    if checksum =? expected_checksum then
      n ← mem_read buf 0 4;
      let name_len := i32 (unle n) in
      if (2 <=? name_len) && (name_len <=? len - 8) then
        type_name ← mem_read buf 4 (Z.to_nat name_len);
        match CreateMessage type_name with
        | Some message =>
            let data_len := len - name_len - 8 in
            data ← mem_read buf (4 + Z.to_nat name_len) (Z.to_nat data_len);
            Ret (ParseFromArray message data)
        | None => Ret None
        end
      else Ret None
    else Ret None
  else Ret None.

Definition ParseStream (p : RpcPacketParser) : outcome (bool * RpcPacketParser) :=
  if sz (buffer_ p) <? 12 then Ret (false, p) else
  let mem := buffer_ p ++ [NUL] in
  l ← mem_read mem 0 4;
  let packetlen := unle l in
  if sz (buffer_ p) <? packetlen then Ret (false, p) else
  if PACKET_SIZE_MAX <? packetlen then Ret (false, mkRpcParser [] (message_ p)) else
  r ← mem_read mem 4 8;
  let rid := i64 (unle r) in
  message ← DecodeMessage (drop kHeaderLen mem) packetlen;
  let buffer := drop (Z.to_nat (packetlen + 12)) (buffer_ p) in
  Ret (true, mkRpcParser buffer
               (match message with Some m => map_put rid m (message_ p) | None => message_ p end)).

Fixpoint parse_stream_loop (fuel : nat) (p : RpcPacketParser) : outcome RpcPacketParser :=
  match fuel with
  | O => Fuel
  | S fuel' =>
      '(more, p) ← ParseStream p;
      if (more : bool) then parse_stream_loop fuel' p else Ret p
  end.

Definition Decode (p : RpcPacketParser) (data : bytes) : outcome RpcPacketParser :=
  let p := mkRpcParser (buffer_ p ++ data) (message_ p) in
  parse_stream_loop (S (length (buffer_ p))) p.

(** The message with the smallest request id. *)
Definition GetMessage (p : RpcPacketParser) : option (Z * Msg) * RpcPacketParser :=
  match message_ p with
  | (rid, message) :: rest => (Some (rid, message), mkRpcParser (buffer_ p) rest)
  | [] => (None, p)
  end.

(** The receive loop around [GetMessage]. *)
Fixpoint drain (fuel : nat) (p : RpcPacketParser) : list (Z * Msg) * RpcPacketParser :=
  match fuel with
  | O => ([], p)
  | S fuel' =>
      match GetMessage p with
      | (Some m, p') => let '(ms, p'') := drain fuel' p' in (m :: ms, p'')
      | (None, p') => ([], p')
      end
  end.

(** ** Shape of a packet *)

Definition body (m : Msg) (data : bytes) : bytes :=
  le 4 (sz (GetTypeName m) + 1) ++ GetTypeName m ++ NUL :: data.

Definition packet (rid : Z) (b : bytes) : bytes :=
  le 4 (sz b + 4) ++ le 8 rid ++ b ++ le 4 (i32 (adler32 1 b)).

(** The message can be sent: it serialises, its type has a name, and the body
    is at most [PACKET_SIZE_MAX]. *)
Definition sendable (m : Msg) (data : bytes) : Prop :=
  AppendToString m = Some data /\ GetTypeName m <> [] /\ sz (body m data) + 4 <= PACKET_SIZE_MAX.

Lemma Encode_packet m rid data :
  AppendToString m = Some data -> sz (body m data) + 4 < 2 ^ 31 ->
  Encode m rid = packet rid (body m data).
Proof.
  intros Hd Hlen. unfold Encode. rewrite Hd. cbv zeta.
  unfold body in Hlen. rewrite !length_app, le_length in Hlen. cbn [length] in Hlen.
  rewrite (i32_small (sz (GetTypeName m) + 1)) by lia.
  assert (((((replicate 4 NUL ++ le 8 rid) ++ le 4 (sz (GetTypeName m) + 1)) ++
             GetTypeName m ++ [NUL]) ++ data) =
          (replicate 4 NUL ++ le 8 rid) ++ body m data) as ->.
  { unfold body. by rewrite <- !app_assoc. }
  unfold kHeaderLen. rewrite (drop_app_length' (replicate 4 NUL ++ le 8 rid)) by
    (by rewrite length_app, length_replicate, le_length).
  unfold packet. rewrite <- !app_assoc. rewrite (drop_app_length' (replicate 4 NUL)) by done.
  f_equal. f_equal. rewrite !length_app, !le_length, length_replicate.
  unfold body. rewrite !length_app, le_length. cbn [length].
  rewrite i32_small; lia.
Qed.

Lemma mem_read_app pre x post n :
  n = length x -> mem_read (pre ++ x ++ post) (length pre) n = Ret x.
Proof.
  intros ->. unfold mem_read.
  rewrite (proj2 (Nat.leb_le _ _)) by (rewrite !length_app; lia).
  by rewrite drop_app_length, take_app_length.
Qed.

Lemma mem_read_at pre x post off n :
  off = length pre -> n = length x -> mem_read (pre ++ x ++ post) off n = Ret x.
Proof. intros -> ->. by apply mem_read_app. Qed.

Lemma mem_read_0 x post n : n = length x -> mem_read (x ++ post) 0 n = Ret x.
Proof. apply (mem_read_at [] x post 0). done. Qed.

Lemma mem_read_prefix b n :
  (n <= length b)%nat -> mem_read (b ++ [NUL]) 0 n = Ret (take n b).
Proof.
  intros Hn. unfold mem_read. rewrite (proj2 (Nat.leb_le _ _)) by (rewrite length_app; lia).
  by rewrite drop_0, take_app_le by lia.
Qed.

Lemma mem_read_outside b off n : (length b < off + n)%nat -> mem_read b off n = Undef.
Proof. intros Hn. unfold mem_read. by rewrite (proj2 (Nat.leb_gt _ _)). Qed.

Lemma packet_length rid b : length (packet rid b) = (length b + 16)%nat.
Proof. unfold packet. rewrite !length_app, !le_length. lia. Qed.

(** What a receiver makes of a message.  The receiver looks the type up under the
    name with its terminating NUL; what the pool answers to that is left open. *)
Definition decoded (m : Msg) : option Msg :=
  data ← AppendToString m; p ← CreateMessage (GetTypeName m ++ [NUL]); ParseFromArray p data.

(** The pool finds the message's type under the name with the NUL, or finds
    nothing under it (as a pool that compares whole names does). *)
Definition found_with_nul (m : Msg) : Prop :=
  exists desc proto, FindMessageTypeByName (GetTypeName m ++ [NUL]) = Some desc /\
    GetPrototype desc = Some proto /\ GetTypeName proto = GetTypeName m.
Definition missed_with_nul (m : Msg) : Prop := FindMessageTypeByName (GetTypeName m ++ [NUL]) = None.

Lemma decoded_found {L : ProtobufLaws P} m data :
  AppendToString m = Some data -> found_with_nul m -> decoded m = Some m.
Proof.
  intros Hd (desc & proto & Hf & Hp & Hn). unfold decoded, CreateMessage. rewrite Hd, Hf. simpl.
  rewrite Hp. by apply parse_back.
Qed.

Lemma decoded_missed m : missed_with_nul m -> decoded m = None.
Proof. intros Hf. unfold decoded, CreateMessage. rewrite Hf. by destruct (AppendToString m). Qed.

(** What [DecodeMessage] makes of a well-formed body. *)
Lemma DecodeMessage_body m data rest :
  sendable m data ->
  DecodeMessage (body m data ++ le 4 (i32 (adler32 1 (body m data))) ++ rest) (sz (body m data) + 4) =
  Ret (decoded m).
Proof.
  intros (Hd & Hname & Hlen). unfold PACKET_SIZE_MAX in Hlen.
  assert (0 < sz (GetTypeName m)) as Hn by (destruct (GetTypeName m); [done|simpl; lia]).
  assert (sz (body m data) = 5 + sz (GetTypeName m) + sz data) as Hb.
  { unfold body. rewrite !length_app, le_length. cbn [length]. lia. }
  remember (sz (body m data) + 4) as L eqn:HL.
  unfold DecodeMessage. rewrite i32_small by lia.
  rewrite (proj2 (Z.leb_le 10 _)) by lia.
  rewrite (mem_read_at (body m data) _ _ (Z.to_nat _ - 4)) by (rewrite ?le_length; lia).
  cbn [mbind outcome_bind].
  rewrite (mem_read_0 (body m data) _ (Z.to_nat _)) by lia. cbn [mbind outcome_bind].
  rewrite i32_le by apply i32_range. rewrite Z.eqb_refl.
  set (tail := le 4 (i32 (adler32 1 (body m data))) ++ rest). unfold body.
  rewrite <- !app_assoc. rewrite (mem_read_0 (le 4 _) _ 4) by (rewrite ?le_length; done).
  cbn [mbind outcome_bind]. rewrite i32_le by lia.
  rewrite (proj2 (Z.leb_le 2 _)), (proj2 (Z.leb_le _ (_ - 8))) by lia. cbn [andb].
  change (NUL :: data) with ([NUL] ++ data). rewrite <- !app_assoc, (app_assoc (GetTypeName m)).
  rewrite (mem_read_at (le 4 _) _ _ 4) by (rewrite ?length_app, ?le_length; simpl; lia).
  unfold decoded. rewrite Hd. cbn [mbind outcome_bind option_bind]. destruct (CreateMessage _); [|done].
  cbn [mbind option_bind].
  rewrite app_assoc, mem_read_at; [done| |].
  - rewrite !length_app, le_length. simpl. lia.
  - lia.
Qed.

Definition rid_ok (rid : Z) : Prop := - 2 ^ 63 <= rid < 2 ^ 63.

Definition deliver (rid : Z) (message : option Msg) (ms : list (Z * Msg)) : list (Z * Msg) :=
  match message with Some m => map_put rid m ms | None => ms end.

(** The header of a packet, as [ParseStream] reads it. *)
Lemma packet_header rid b rest :
  sz b + 4 < 2 ^ 32 ->
  mem_read ((packet rid b ++ rest) ++ [NUL]) 0 4 = Ret (le 4 (sz b + 4)) /\
  mem_read ((packet rid b ++ rest) ++ [NUL]) 4 8 = Ret (le 8 rid) /\
  drop kHeaderLen ((packet rid b ++ rest) ++ [NUL]) = b ++ le 4 (i32 (adler32 1 b)) ++ rest ++ [NUL].
Proof.
  intros Hb. unfold packet. rewrite <- !app_assoc. split; [|split].
  - apply mem_read_0. by rewrite le_length.
  - apply mem_read_at; by rewrite le_length.
  - unfold kHeaderLen. rewrite (app_assoc (le 4 _)).
    apply drop_app_length'. by rewrite length_app, !le_length.
Qed.

Lemma ParseStream_packet m data rid rest ms :
  sendable m data -> rid_ok rid ->
  ParseStream (mkRpcParser (packet rid (body m data) ++ rest) ms) =
  Ret (true, mkRpcParser rest
         (deliver rid (decoded m) ms)).
Proof.
  intros Hs Hrid. pose proof Hs as (_ & _ & Hlen). unfold PACKET_SIZE_MAX in Hlen.
  destruct (packet_header rid (body m data) rest) as (H1 & H2 & H3); [lia|].
  unfold ParseStream. cbn [buffer_ message_].
  assert (sz (packet rid (body m data) ++ rest) = sz (body m data) + 16 + sz rest) as Hsz.
  { rewrite length_app, packet_length. lia. }
  rewrite Hsz. rewrite (proj2 (Z.ltb_ge _ 12)) by lia.
  rewrite H1. cbn [mbind outcome_bind]. rewrite unle_le_u32 by lia.
  rewrite (proj2 (Z.ltb_ge _ (sz (body m data) + 4))) by lia.
  rewrite (proj2 (Z.ltb_ge PACKET_SIZE_MAX _)) by (unfold PACKET_SIZE_MAX; lia).
  rewrite H2. cbn [mbind outcome_bind]. rewrite i64_le by done. rewrite H3, DecodeMessage_body by done.
  cbn [mbind outcome_bind]. rewrite drop_app_length' by (rewrite packet_length; lia). done.
Qed.

(** ** Streams of packets *)

Definition stream (l : list (Z * Msg)) : bytes := concat (map (fun '(rid, m) => Encode m rid) l).
Definition puts (l ms : list (Z * Msg)) : list (Z * Msg) :=
  fold_left (fun ms '(rid, m) => map_put rid m ms) l ms.
(** The messages of a stream that the receiver decodes. *)
Definition received (l : list (Z * Msg)) : list (Z * Msg) :=
  omap (fun '(rid, m) => m' ← decoded m; Some (rid, m')) l.
Lemma received_cons rid m l :
  received ((rid, m) :: l) =
  match decoded m with Some m' => (rid, m') :: received l | None => received l end.
Proof. unfold received. cbn. by destruct (decoded m). Qed.

Definition sendables (l : list (Z * Msg)) : Prop :=
  Forall (fun '(rid, m) => rid_ok rid /\ exists data, sendable m data) l.

(** What remains in the buffer makes the parser wait. *)
Definition waiting (rest : bytes) : Prop := sz rest < 12 \/ sz rest < unle (take 4 rest).

Lemma ParseStream_waiting rest ms :
  waiting rest -> ParseStream (mkRpcParser rest ms) = Ret (false, mkRpcParser rest ms).
Proof.
  intros Hw. unfold ParseStream. cbn [buffer_ message_].
  destruct (sz rest <? 12) eqn:E; [done|]. zbool. destruct Hw as [Hw|Hw]; [lia|].
  rewrite (mem_read_prefix rest 4) by lia. cbn [mbind outcome_bind].
  by rewrite (proj2 (Z.ltb_lt _ _)).
Qed.

Lemma sendable_lt m data : sendable m data -> sz (body m data) + 4 < 2 ^ 31.
Proof. intros (_ & _ & H). unfold PACKET_SIZE_MAX in H. lia. Qed.

Lemma loop_stream l fuel rest ms :
  sendables l -> waiting rest -> (length l < fuel)%nat ->
  parse_stream_loop fuel (mkRpcParser (stream l ++ rest) ms) = Ret (mkRpcParser rest (puts (received l) ms)).
Proof.
  intros Hl Hw. revert fuel ms.
  induction Hl as [|[rid m] l (Hrid & data & Hs) Hl IH]; intros [|fuel] ms Hf; simpl in Hf; try lia.
  - cbn [parse_stream_loop]. change (stream [] ++ rest) with rest.
    by rewrite ParseStream_waiting.
  - cbn [parse_stream_loop]. unfold stream. cbn [map concat]. fold (stream l).
    rewrite (Encode_packet m rid data) by (apply Hs || by apply sendable_lt).
    rewrite <- app_assoc, ParseStream_packet by done. cbn [mbind outcome_bind].
    rewrite received_cons. destruct (decoded m) as [m'|]; apply IH; lia.
Qed.

Lemma stream_length l : sendables l -> (length l <= length (stream l))%nat.
Proof.
  induction 1 as [|[rid m] l (Hrid & data & Hs) Hl IH]; [done|].
  unfold stream. cbn [map concat length]. fold (stream l).
  rewrite length_app, (Encode_packet m rid data) by (apply Hs || by apply sendable_lt).
  rewrite packet_length. lia.
Qed.

(** Received bytes that make up, with what the buffer already holds, a
    sequence of encoded packets and a remainder that is still waiting for its
    packet are decoded packet by packet, each message under its request id, and
    the remainder stays in the buffer. *)
Theorem decode_stream p data l rest :
  sendables l -> waiting rest -> buffer_ p ++ data = stream l ++ rest ->
  Decode p data = Ret (mkRpcParser rest (puts (received l) (message_ p))).
Proof.
  intros Hl Hw Heq. unfold Decode. cbn [buffer_ message_]. rewrite Heq.
  apply loop_stream; try done. rewrite length_app. pose proof (stream_length l Hl). lia.
Qed.

Lemma received_found {L : ProtobufLaws P} l :
  sendables l -> Forall (fun '(_, m) => found_with_nul m) l -> received l = l.
Proof.
  induction 1 as [|[rid m] l (Hrid & data & Hs) Hl IH]; [done|]. intros [Hm Hr]%Forall_cons.
  rewrite received_cons. rewrite (decoded_found m data) by (apply Hs || done). simpl.
  f_equal. by apply IH.
Qed.

Lemma received_missed l : Forall (fun '(_, m) => missed_with_nul m) l -> received l = [].
Proof.
  induction 1 as [|[rid m] l Hm Hl IH]; [done|]. rewrite received_cons.
  by rewrite decoded_missed.
Qed.

Lemma received_length l : (length (received l) <= length l)%nat.
Proof.
  induction l as [|[rid m] l IH]; [done|]. rewrite received_cons.
  destruct (decoded m); simpl in *; lia.
Qed.

Lemma received_ids l rid : rid ∈ (received l).*1 -> rid ∈ l.*1.
Proof.
  induction l as [|[k m] l IH]; [done|]. rewrite received_cons.
  destruct (decoded m); simpl; set_solver.
Qed.

Lemma received_nodup l : NoDup l.*1 -> NoDup (received l).*1.
Proof.
  induction l as [|[rid m] l IH]; intros Hnd; [constructor|].
  apply NoDup_cons in Hnd as [Hnin Hnd]. rewrite received_cons.
  destruct (decoded m); simpl; [|by apply IH].
  apply NoDup_cons. split; [|by apply IH]. intros Hin. by apply Hnin, received_ids.
Qed.

(** ** Termination *)

Lemma unle_nonneg b : 0 <= unle b.
Proof. induction b as [|c b IH]; cbn [unle]; [lia|]. pose proof (code_range c). lia. Qed.

Lemma mem_read_not_fuel b off n : mem_read b off n <> Fuel.
Proof. unfold mem_read. by case_match. Qed.

Lemma outcome_bind_not_fuel {A B} (m : outcome A) (k : A -> outcome B) :
  m <> Fuel -> (forall a, m = Ret a -> k a <> Fuel) -> (m ≫= k) <> Fuel.
Proof. destruct m; simpl; try done. intros _ Hk. by apply Hk. Qed.

Lemma DecodeMessage_not_fuel b n : DecodeMessage b n <> Fuel.
Proof.
  unfold DecodeMessage.
  repeat (case_match; try done;
    repeat (apply outcome_bind_not_fuel; [apply mem_read_not_fuel|]; intros ? _)); done.
Qed.

Lemma ParseStream_shrinks p :
  ParseStream p <> Fuel /\
  forall p', ParseStream p = Ret (true, p') -> (length (buffer_ p') < length (buffer_ p))%nat.
Proof.
  unfold ParseStream. destruct (sz (buffer_ p) <? 12) eqn:E; [done|]. zbool.
  destruct (mem_read _ 0 4) as [l| | |] eqn:E1; try done;
    [|by apply mem_read_not_fuel in E1]. cbn [mbind outcome_bind].
  case_match; [done|]. case_match; [done|].
  destruct (mem_read _ 4 8) as [r| | |] eqn:E2; try done;
    [|by apply mem_read_not_fuel in E2]. cbn [mbind outcome_bind].
  destruct (DecodeMessage _ _) as [m| | |] eqn:E3; try done;
    [|by apply DecodeMessage_not_fuel in E3]. cbn [mbind outcome_bind].
  split; [done|]. intros p' [= <-]. cbn [buffer_]. rewrite length_drop.
  pose proof (unle_nonneg l). lia.
Qed.

(** Decoding ends for every received byte sequence: each round of the loop
    removes at least a header from the buffer. *)
Theorem decode_terminates p data : Decode p data <> Fuel.
Proof.
  unfold Decode. generalize (mkRpcParser (buffer_ p ++ data) (message_ p)). clear p data.
  intros p. remember (S (length (buffer_ p))) as n eqn:Hn.
  assert (length (buffer_ p) < n)%nat as Hlt by lia. clear Hn. revert p Hlt.
  induction n as [|n IH]; intros p Hlt; [lia|]. cbn [parse_stream_loop].
  destruct (ParseStream_shrinks p) as [Hnf Hsh].
  destruct (ParseStream p) as [[[] p']| | |] eqn:E; try done. cbn [mbind outcome_bind].
  apply IH. specialize (Hsh p' eq_refl). lia.
Qed.

(** ** The limits of the framing *)

(** The completeness test compares the buffer with the body length and not
    with the packet length, so a packet of which between [len] and [len + 10]
    bytes have arrived is decoded at once, reading past the received bytes. *)
Theorem fragment_overread m data rid k :
  sendable m data ->
  (12 <= k)%nat -> (length (body m data) + 4 <= k < length (body m data) + 15)%nat ->
  Decode RpcPacketParser_new (take k (Encode m rid)) = Undef.
Proof.
  intros Hs Hk Hrange. pose proof Hs as (Hd & Hn & Hlen). unfold PACKET_SIZE_MAX in Hlen.
  assert (10 <= length (body m data) + 4)%nat as Hten.
  { unfold body. destruct (GetTypeName m); [done|]. rewrite !length_app, le_length. simpl. lia. }
  rewrite (Encode_packet m rid data) by (done || by apply (sendable_lt m data)).
  set (e := packet rid (body m data)).
  assert (length (take k e) = k) as Hlk by (unfold e; rewrite length_take, packet_length; lia).
  assert (take 4 (take k e) = le 4 (sz (body m data) + 4)) as Hpl.
  { rewrite take_take, Nat.min_l by lia. unfold e, packet. apply take_app_length'.
    by rewrite le_length. }
  unfold Decode. cbn [RpcPacketParser_new buffer_ message_ app parse_stream_loop].
  unfold ParseStream. cbn [buffer_ message_]. rewrite Hlk.
  rewrite (proj2 (Z.ltb_ge _ 12)) by lia. rewrite (mem_read_prefix _ 4) by lia.
  cbn [mbind outcome_bind]. rewrite Hpl, unle_le_u32 by lia.
  rewrite (proj2 (Z.ltb_ge _ (sz (body m data) + 4))) by lia.
  rewrite (proj2 (Z.ltb_ge PACKET_SIZE_MAX _)) by (unfold PACKET_SIZE_MAX; lia).
  destruct (mem_read _ 4 8) eqn:E; try done.
  2, 3: unfold mem_read in E; by case_match.
  cbn [mbind outcome_bind]. unfold DecodeMessage. rewrite i32_small by lia.
  rewrite (proj2 (Z.leb_le 10 _)) by lia.
  rewrite (mem_read_outside _ (Z.to_nat _ - 4) 4); [done|].
  rewrite length_drop, length_app, Hlk. unfold kHeaderLen. cbn [length]. lia.
Qed.

(** A message whose packet body exceeds [PACKET_SIZE_MAX] is encoded without
    complaint and lost by the receiver, together with everything received
    after it. *)
Theorem big_message_lost m data rid rest p :
  AppendToString m = Some data -> PACKET_SIZE_MAX < sz (body m data) + 4 < 2 ^ 31 ->
  buffer_ p = [] ->
  Decode p (Encode m rid ++ rest) = Ret (mkRpcParser [] (message_ p)).
Proof.
  intros Hd Hlen Hp. unfold PACKET_SIZE_MAX in Hlen. unfold Decode. rewrite Hp.
  cbn [app buffer_ message_ parse_stream_loop].
  rewrite (Encode_packet m rid data) by (done || lia). unfold ParseStream. cbn [buffer_ message_].
  assert (sz (packet rid (body m data) ++ rest) = sz (body m data) + 16 + sz rest) as ->.
  { rewrite length_app, packet_length. lia. }
  destruct (packet_header rid (body m data) rest) as (-> & _ & _); [lia|].
  cbn [mbind outcome_bind]. rewrite unle_le_u32 by lia.
  rewrite (proj2 (Z.ltb_ge _ 12)), (proj2 (Z.ltb_ge _ (sz (body m data) + 4))) by lia.
  by rewrite (proj2 (Z.ltb_lt PACKET_SIZE_MAX _)) by (unfold PACKET_SIZE_MAX; lia).
Qed.

(** The type name handed to the pool carries the terminating NUL: a pool that
    compares whole strings finds no type, and the message is dropped. *)
Lemma exact_pool_drops m data rid p :
  sendable m data -> rid_ok rid -> buffer_ p = [] ->
  missed_with_nul m ->
  Decode p (Encode m rid) = Ret (mkRpcParser [] (message_ p)).
Proof.
  intros Hs Hrid Hp Hfind. unfold Decode. rewrite Hp. cbn [app buffer_ message_ parse_stream_loop].
  rewrite (Encode_packet m rid data) by (apply Hs || by apply sendable_lt).
  pose proof (ParseStream_packet m data rid [] (message_ p) Hs Hrid) as Hps.
  rewrite app_nil_r in Hps. rewrite Hps.
  rewrite (decoded_missed m Hfind). cbn [mbind outcome_bind deliver].
  rewrite packet_length, Nat.add_comm. cbn [Nat.add parse_stream_loop].
  by rewrite ParseStream_waiting by (left; simpl; lia).
Qed.

(** ** Delivery order *)

Lemma drain_all p n :
  (length (message_ p) <= n)%nat -> drain (S n) p = (message_ p, mkRpcParser (buffer_ p) []).
Proof.
  destruct p as [b ms]. cbn [buffer_ message_]. revert n.
  induction ms as [|[rid m] ms IH]; intros n Hn; [done|].
  cbn [length] in Hn. destruct n as [|n]; [lia|].
  change (drain (S (S n)) (mkRpcParser b ((rid, m) :: ms)))
    with (let '(ms', p'') := drain (S n) (mkRpcParser b ms) in ((rid, m) :: ms', p'')).
  by rewrite IH by lia.
Qed.

Lemma puts_sorted l ms : map_sorted ms -> map_sorted (puts l ms).
Proof.
  revert ms. induction l as [|[rid m] l IH]; intros ms Hms; [done|].
  apply IH. by apply map_put_sorted.
Qed.

Lemma puts_perm l ms :
  NoDup (l.*1 ++ ms.*1) -> map_sorted ms -> puts l ms ≡ₚ l ++ ms.
Proof.
  revert ms. induction l as [|[rid m] l IH]; intros ms Hnd Hms; [done|].
  change (puts ((rid, m) :: l) ms) with (puts l (map_put rid m ms)).
  cbn [fmap list_fmap fst app] in Hnd. apply NoDup_cons in Hnd as [Hnin Hnd].
  assert (map_put rid m ms ≡ₚ (rid, m) :: ms) as Hput.
  { apply map_put_perm. apply not_elem_of_app in Hnin as [_ Hnin].
    destruct (map_find rid ms) eqn:Ef; [|done]. exfalso. apply Hnin.
    apply map_find_elem in Ef. apply list_elem_of_fmap. by exists (rid, m0). }
  rewrite IH; [by rewrite Hput, <- Permutation_middle| |by apply map_put_sorted].
  rewrite Hput. cbn [fmap list_fmap fst]. rewrite <- Permutation_middle.
  by constructor.
Qed.

(** C5: what a peer gets from a sequence of packets.  The messages have different
    request ids, non-empty type names and packet bodies of at most 4096 bytes.
    [GetMessage] then yields, in the order of the request ids and each once,
    exactly the messages of which the receiver finds the type and parses the
    payload, and the parser is empty again.  The receiver looks a type up under
    the name with its terminating NUL: when the pool finds the types under
    those names these are all messages sent, unchanged; when it finds nothing
    under them, as a pool that compares whole names, no message is delivered. *)
Theorem decode_delivers {L : ProtobufLaws P} l :
  sendables l -> NoDup l.*1 ->
  exists p ms, Decode RpcPacketParser_new (stream l) = Ret p /\
    drain (S (length l)) p = (ms, RpcPacketParser_new) /\
    ms ≡ₚ omap (fun '(rid, m) => m' ← decoded m; Some (rid, m')) l /\ map_sorted ms /\
    (Forall (fun '(_, m) => found_with_nul m) l -> ms ≡ₚ l) /\
    (Forall (fun '(_, m) => missed_with_nul m) l -> ms = []).
Proof.
  intros Hl Hnd. set (r := received l). exists (mkRpcParser [] (puts r [])), (puts r []).
  assert (puts r [] ≡ₚ r) as Hperm.
  { rewrite puts_perm; rewrite ?app_nil_r; try done. by apply received_nodup. }
  split_and!.
  - rewrite (decode_stream RpcPacketParser_new (stream l) l []); [done|done|left; simpl; lia|].
    by rewrite app_nil_r.
  - rewrite drain_all; [done|]. cbn [message_]. rewrite Hperm. apply received_length.
  - done.
  - by apply puts_sorted.
  - intros Hf. by rewrite Hperm; unfold r; rewrite received_found.
  - intros Hf. apply Permutation_nil_r. rewrite Hperm. unfold r. by rewrite received_missed.
Qed.
End Packets.

(** ** A concrete instance: messages of two types whose payload is a string *)

Module DemoProto.
Record msg : Type := mkMsg { type : bool; payload : bytes }.

Definition name_of (t : bool) : bytes := lit (if t then "a.Req" else "a.Rsp").
Definition find_type (n : bytes) : option bool :=
  let n := cstr n in
  if bool_decide (n = name_of true) then Some true
  else if bool_decide (n = name_of false) then Some false else None.

#[export] Instance proto : Protobuf msg bool := {|
  GetTypeName m := name_of (type m);
  AppendToString m := Some (payload m);
  FindMessageTypeByName := find_type;
  GetPrototype t := Some (mkMsg t []);
  New m := mkMsg (type m) [];
  ParseFromArray m d := Some (mkMsg (type m) d);
  adler32 a b := fold_left (fun acc c => (acc * 3 + code c) mod 65521) b a
|}.

#[export] Instance laws : ProtobufLaws proto.
Proof.
  constructor. intros [t pl] d [t' pl'] [= <-] Hn. cbn in *. do 2 f_equal.
  destruct t, t'; try done; vm_compute in Hn; discriminate.
Qed.

Lemma by_cstr m : found_with_nul m.
Proof.
  exists (type m), (mkMsg (type m) []). destruct m as [[] pl]; repeat split; vm_compute; reflexivity.
Qed.

(** The same messages with a pool that compares whole names. *)
Definition exact : Protobuf msg bool := {|
  GetTypeName := @GetTypeName _ _ proto;
  AppendToString := @AppendToString _ _ proto;
  FindMessageTypeByName n :=
    if bool_decide (n = name_of true) then Some true
    else if bool_decide (n = name_of false) then Some false else None;
  GetPrototype := @GetPrototype _ _ proto;
  New := @New _ _ proto;
  ParseFromArray := @ParseFromArray _ _ proto;
  adler32 := @adler32 _ _ proto
|}.

Lemma exact_laws : ProtobufLaws exact.
Proof. constructor. apply (@parse_back _ _ proto laws). Qed.

Lemma exact_misses m : missed_with_nul (P := exact) m.
Proof. destruct m as [[] pl]; vm_compute; reflexivity. Qed.

Definition req : msg := mkMsg true (lit "hello").
Definition rsp : msg := mkMsg false (lit "x").
Definition big : msg := mkMsg true (replicate 4090 "z"%char).

Lemma req_sendable : sendable req (lit "hello").
Proof. repeat split; [vm_compute; discriminate|vm_compute; congruence]. Qed.
Lemma rsp_sendable : sendable rsp (lit "x").
Proof. repeat split; [vm_compute; discriminate|vm_compute; congruence]. Qed.

Lemma demo_sendables : sendables [(7, req); (3, rsp)].
Proof.
  constructor; [|constructor; [|constructor]]; (split; [unfold rid_ok; lia|]).
  - eexists. apply req_sendable.
  - eexists. apply rsp_sendable.
Qed.
End DemoProto.
Import DemoProto.

Lemma decode_stream_witness :
  Decode (mkRpcParser (take 9 (Encode req 7)) []) (drop 9 (Encode req 7) ++ Encode rsp 3 ++ lit "abc") =
  Ret (mkRpcParser (lit "abc") [(3, rsp); (7, req)]).
Proof.
  rewrite (decode_stream _ _ [(7, req); (3, rsp)] (lit "abc")).
  - reflexivity.
  - apply demo_sendables.
  - left. vm_compute. reflexivity.
  - vm_compute. reflexivity.
Defined.

Lemma fragment_overread_witness : Decode RpcPacketParser_new (take 24 (Encode req 7)) = Undef.
Proof. apply (fragment_overread req (lit "hello")); [apply req_sendable|lia|vm_compute; lia]. Defined.

Lemma big_message_lost_witness :
  Decode RpcPacketParser_new (Encode big 1 ++ Encode req 2) = Ret (mkRpcParser [] []).
Proof.
  apply (big_message_lost big (payload big) 1 (Encode req 2) RpcPacketParser_new);
    [reflexivity|vm_compute; split; congruence|reflexivity].
Defined.

Lemma decode_delivers_witness :
  (exists p ms, Decode RpcPacketParser_new (stream [(7, req); (3, rsp)]) = Ret p /\
     drain 3 p = (ms, RpcPacketParser_new) /\ ms ≡ₚ [(7, req); (3, rsp)] /\ map_sorted ms) /\
  exists p, Decode (P := exact) RpcPacketParser_new (stream (P := exact) [(7, req); (3, rsp)]) = Ret p /\
    drain 3 p = ([], RpcPacketParser_new).
Proof.
  assert (NoDup [(7, req); (3, rsp)].*1) as Hnd.
  { apply NoDup_cons. split; [vm_compute; set_solver|]. apply NoDup_cons. split; [set_solver|constructor]. }
  split.
  - destruct (decode_delivers [(7, req); (3, rsp)]) as (p & ms & Hd & Hdr & _ & Hs & Hall & _);
      [apply demo_sendables|exact Hnd|].
    exists p, ms. split_and!; [exact Hd|exact Hdr| |exact Hs].
    apply Hall. repeat constructor; apply by_cstr.
  - destruct (decode_delivers (P := exact) (L := exact_laws) [(7, req); (3, rsp)])
      as (p & ms & Hd & Hdr & _ & _ & _ & Hnone); [apply demo_sendables|exact Hnd|].
    exists p. split; [exact Hd|]. rewrite Hnone in Hdr; [exact Hdr|]. repeat constructor; apply exact_misses.
Defined.
