(* ===== verification/Rpc.v ===== *)
(** * RPC over etcd: the rest of src/natsu/natsu_rpc.cpp

    The registry of methods, the provider side ([EtcdProvider]: requests are
    decoded, handled and answered), the producer side ([EtcdProducer]: the list
    of servers is refreshed from etcd's JSON answer, calls are matched with their
    replies by request id and time out after 15 seconds).  Results of system
    calls are inputs; curl, protobuf and floating-point numbers are parameters
    (curl enters as the body of the response). *)
From S2P Require Import Prelude StdString StdMap NatsuBase Json JsonParser SnowFlake RpcPacket NatsuApp.

Section Rpc.
Context {Msg Desc : Type} `{P : Protobuf Msg Desc} `{D : Double}.

(** ** Methods: [register_rpc_handler], [kRpcMethod] *)

Definition method : Type := Msg -> option Msg.
Definition methods : Type := list (bytes * method).

Definition register_rpc_handler (name : bytes) (func : method) (kRpcMethod : methods) : methods :=
  map_put name func kRpcMethod.

(** ** [EtcdProvider] *)

(** [EtcdProvider::handle_parse]: what is written to [channel_write]. *)
Definition provider_handle_parse (kRpcMethod : methods) (message : option Msg) (rid : Z) : list bytes :=
  match message with
  | None => []
  | Some m =>
      match map_find (GetTypeName m) kRpcMethod with
      | None => []
      | Some func =>
          match func m with
          | Some resp => [Encode resp rid]
          | None => []
          end
      end
  end.

(** The read loop of [EtcdProvider::handle]: the requests for which a coroutine
    is started, and whether the loop was left. After the loop the coroutine
    waits for [sendrpc] to release the lock. *)
Fixpoint provider_read_loop (reads : list read_result) (p : RpcPacketParser (Msg := Msg)) :
    outcome (list (Z * Msg) * bool) :=
  match reads with
  | [] => Ret ([], false)
  | RdRetry :: reads' => provider_read_loop reads' p
  | RdError :: _ => Ret ([], true)
  | RdEof :: _ => Ret ([], true)
  | RdData d :: reads' =>
      p ← Decode p d;
      let '(ms, p) := drain (S (length (message_ p))) p in
      '(rest, fin) ← provider_read_loop reads' p;
      Ret (ms ++ rest, fin)
  end.

(** One message of [sendrpc]: the write loop, left on an error of [write].
    [writes] are the results of [write], [None] is -1. *)
Inductive send_end : Type := SendDone | SendFailed | SendBlocked.

Fixpoint send_one (buf : bytes) (pos : nat) (writes : list (option nat)) : list bytes * send_end :=
  if (pos <? length buf)%nat then
    match writes with
    | [] => ([], SendBlocked)
    | None :: _ => ([], SendFailed)
    | Some n :: writes' =>
        let '(t, e) := send_one buf (pos + n) writes' in (take n (drop pos buf) :: t, e)
    end
  else ([], SendDone).

(** [EtcdProvider::sendrpc]: takes one buffer after the other from the channel;
    a null pointer is skipped, a failed write only ends the message. *)
Fixpoint sendrpc (channel_write : list (option bytes)) (writes_of : list (list (option nat))) :
    list bytes * status :=
  match channel_write with
  | [] => ([], Blocked)
  | None :: rest => sendrpc rest writes_of
  | Some buf :: rest =>
      match send_one buf 0 (hd [] writes_of) with
      | (t, SendBlocked) => (t, Blocked)
      | (t, _) => let '(t', s) := sendrpc rest (tl writes_of) in (t ++ t', s)
      end
  end.

(** [EtcdProvider::handle]: the coroutine returns only when it left its read
    loop and [sendrpc] has unlocked the mutex. *)
Definition provider_handle (reads : list read_result) (channel_write : list (option bytes))
    (writes_of : list (list (option nat))) : outcome (list (Z * Msg) * status) :=
  '(reqs, fin) ← provider_read_loop reads RpcPacketParser_new;
  Ret (reqs, if (fin : bool) then snd (sendrpc channel_write writes_of) else Blocked).

(** [register_to_etcd]: the request URL and the form data. *)
Definition register_url (addr sname instance_id : bytes) : bytes :=
  lit "http://" ++ percent_s addr ++ lit "/v2/keys/natsu/" ++ percent_s sname ++ lit "/provider/" ++
  percent_s instance_id.
Definition register_data (local_ipv4 : bytes) (port : Z) : bytes :=
  lit "value=" ++ percent_s local_ipv4 ++ lit ":" ++ dec (u16 port) ++ lit "&ttl=15".

(** ** [EtcdProducer]: the list of servers *)

Record EtcdProducer : Type := mkProducer {
  service_node_ : list (bytes * bytes);
  service_name_ : bytes
}.

Definition EtcdProducer_new : EtcdProducer := mkProducer [] [].

Definition produce_url (etcdaddr servicename : bytes) : bytes :=
  lit "http://" ++ percent_s etcdaddr ++ lit "/v2/keys/natsu/" ++ percent_s servicename ++ lit "/provider/".

(** [EtcdProducer::writer], curl's write callback: [data] holds [size * nmemb]
    bytes. *)
Definition writer (data : bytes) (size nmemb : Z) (content : bytes) : Z * bytes :=
  let sizes := i32 (size * nmemb) in (sizes, content ++ take (Z.to_nat sizes) data).

Definition item_pair (item : Json) : outcome (bytes * bytes) :=
  '(k, item) ← index_key (lit "key") item;
  key ← AsString k;
  '(v, item) ← index_key (lit "value") item;
  value ← AsString v;
  Ret (key, value).

(** The loop over the nodes: [service_node_] (which equals [result] between two
    rounds), the nodes for which [comm_one_server] is started, and whether the
    loop ended without an exception. *)
Fixpoint node_loop (items : list Json) (nodelist result : list (bytes * bytes)) (started : list bytes) :
    list (bytes * bytes) * list bytes * bool :=
  match items with
  | [] => (result, started, true)
  | item :: items' =>
      match item_pair item with
      | Ret (key, value) =>
          let result := map_put key value result in
          let started := match map_find key nodelist with
                         | None => started ++ [key]
                         | Some _ => started
                         end in
          node_loop items' nodelist result started
      | _ => (result, started, false)
      end
  end.

(** The nodes of etcd's answer: [None] when a part is missing, which leaves the
    list of servers alone; an exception likewise. *)
Definition etcd_nodes (body : bytes) : outcome (option Json) :=
  object ← Parse (cstr body);
  has_action ← Contains (lit "action") object;
  if (has_action : bool) then
    '(action, object) ← index_key (lit "action") object;
    a ← AsString action;
    has_node ← Contains (lit "node") object;
    if bool_decide (a = lit "get") && (has_node : bool) then
      '(node, object) ← index_key (lit "node") object;
      object_node ← DoDeepCopy node;
      has_nodes ← Contains (lit "nodes") object_node;
      if (has_nodes : bool) then
        '(nodes, object_node) ← index_key (lit "nodes") object_node;
        object_nodes ← DoDeepCopy nodes;
        Ret (Some object_nodes)
      else Ret None
    else Ret None
  else Ret None.

(** [produce_from_etcd] on the body of a successful response: the producer and
    the nodes for which a connection is started. *)
Definition produce_from_etcd (body : bytes) (p : EtcdProducer) : EtcdProducer * list bytes :=
  match etcd_nodes body with
  | Ret (Some object_nodes) =>
      let nodelist := service_node_ p in
      match Data_array object_nodes with
      | Ret items =>
          let '(nodes, started, _) := node_loop items nodelist [] [] in
          (mkProducer nodes (service_name_ p), started)
      | _ => (mkProducer [] (service_name_ p), [])
      end
  | _ => (p, [])
  end.

(** ** [EtcdProducer::comm_one_server] *)

(** The address of a node: what is before and after the first colon. *)
Definition split_address (addr : bytes) : outcome (bytes * bytes) :=
  ip ← substr addr 0 (to_pos (find (lit ":") addr));
  port ← substr addr (u64 (to_pos (find (lit ":") addr) + 1)) npos;
  Ret (ip, port).

Inductive comm_result : Type :=
| CommNoNode                       (** returned, the node is gone *)
| CommRetry                        (** socket closed, another attempt in 10 s *)
| CommConnected (ip : Z) (port : Z).

(** Up to the connection; [inet_aton] is the system's. *)
Definition comm_connect (inet_aton : bytes -> option Z) (node : bytes) (p : EtcdProducer)
    (bind_ok connect_ok : bool) : outcome comm_result :=
  match map_find node (service_node_ p) with
  | None => Ret CommNoNode
  | Some addr =>
      '(ip, port) ← split_address addr;
      if negb bind_ok then Ret CommRetry else
      match inet_aton (cstr ip) with
      | None => Ret CommRetry
      | Some a =>
          if connect_ok then Ret (CommConnected a (u16 (atoi (cstr port)))) else Ret CommRetry
      end
  end.

(** The request loop: the bytes written, the requests left in the service
    channel, and how the loop stands; after a failed write the connection is
    closed and another attempt made in 10 seconds. *)
Fixpoint comm_loop (requests : list (Z * Msg)) (writes_of : list (list (option nat))) :
    list bytes * list (Z * Msg) * send_end :=
  match requests with
  | [] => ([], [], SendBlocked)
  | (id, msg) :: rest =>
      match send_one (Encode msg id) 0 (hd [] writes_of) with
      | (t, SendDone) =>
          let '(t', todo, e) := comm_loop rest (tl writes_of) in (t ++ t', todo, e)
      | (t, e) => (t, rest, e)
      end
  end.

(** ** Calls: [EtcdProducer::invoke], [handle_parse], [handle_produce_timeout]

    The channel of a call has capacity 0 and one reader, the call: its [>>] lets
    one write pass.  [reading]: the call has come to its [>>].  [queue]: what was
    written and not yet read, the values of writers that wait for the reader
    included; [None] is a null [MessagePtr]. *)
Record call : Type := mkCall { reading : bool; queue : list (option Msg) }.

(** A write passes at once. *)
Definition accepts (q : call) : bool :=
  reading q && match queue q with [] => true | _ => false end.

Definition written (m : option Msg) (q : call) : call := mkCall (reading q) (queue q ++ [m]).

(** The state shared by the coroutines of the client: the identifier generator
    with the clock readings to come, the channel of each call
    ([kClientRpcChannel]), the requests in the service channel, and the calls
    that have returned. *)
Record client : Type := mkClient {
  snow : SnowFlake;
  clock : list timeval;
  kClientRpcChannel : list (Z * call);
  service_channel : list (Z * Msg);
  returned : list (Z * option Msg)
}.

(** [invoke] up to the write of the request, at which it waits for a connection
    that takes it. *)
Definition invoke_begin (ptr : Msg) (c : client) : option client :=
  match generate (snow c) (clock c) with
  | None => None
  | Some (g, s, clk) =>
      let id := u64 g in
      Some (mkClient s clk (map_put id (mkCall false []) (kClientRpcChannel c))
              (service_channel c ++ [(i64 id, ptr)]) (returned c))
  end.

Definition set_channels (chans : list (Z * call)) (c : client) : client :=
  mkClient (snow c) (clock c) chans (service_channel c) (returned c).

(** The change of one channel, if it is there. *)
Definition at_channel (id : Z) (f : call -> call) (chans : list (Z * call)) : list (Z * call) :=
  match map_find id chans with
  | Some q => map_put id (f q) chans
  | None => chans
  end.

(** [invoke] comes to the read of its own channel. *)
Definition invoke_read (id : Z) (c : client) : client :=
  set_channels (at_channel id (fun q => mkCall true (queue q)) (kClientRpcChannel c)) c.

(** [invoke] from the reply on. *)
Definition invoke_end (id : Z) (c : client) : option client :=
  match map_find id (kClientRpcChannel c) with
  | Some (mkCall true (rsp :: _)) =>
      Some (mkClient (snow c) (clock c) (map_erase id (kClientRpcChannel c)) (service_channel c)
              (returned c ++ [(id, rsp)]))
  | _ => None
  end.

(** [handle_parse] on one decoded message. *)
Definition reply (rid : Z) (message : Msg) (c : client) : client :=
  set_channels (at_channel (u64 rid) (written (Some message)) (kClientRpcChannel c)) c.

Definition timeout_diff : Z := u64 (Z.shiftl 15000 22).
Definition timed_out (n id : Z) : bool := timeout_diff <? u64 (n - id).

(** The loop of [handle_produce_timeout].  It runs as a timer callback, in the
    scheduler's thread and in no coroutine: no coroutine of that thread runs
    between two writes, and a write that does not pass at once keeps the thread
    ([BlockObject::CoBlockWait] sleeps and tries again).  The flag is [false]
    when the loop is stuck at such a write. *)
Fixpoint sweep (n : Z) (chans : list (Z * call)) : list (Z * call) * bool :=
  match chans with
  | [] => ([], true)
  | (id, q) :: rest =>
      if timed_out n id then
        if accepts q then let '(rest', fin) := sweep n rest in ((id, written None q) :: rest', fin)
        else ((id, q) :: rest, false)
      else let '(rest', fin) := sweep n rest in ((id, q) :: rest', fin)
  end.

(** [handle_produce_timeout], with the flag of its loop. *)
Definition handle_produce_timeout (c : client) : option (client * bool) :=
  match generate (snow c) (clock c) with
  | None => None
  | Some (g, s, clk) =>
      let n := u64 g in
      let '(chans, fin) := sweep n (kClientRpcChannel c) in
      Some (mkClient s clk chans (service_channel c) (returned c), fin)
  end.

(** Runs of the client from its start, with the replies that arrived (request
    id and message) and the sweeps made (identifier and flag).  The steps after
    a stuck sweep are those of other threads. *)
Inductive runs (machine : Z) (clk : list timeval) :
    client -> list (Z * Msg) -> list (Z * bool) -> Prop :=
| runs_start :
    runs machine clk (mkClient (set_machine machine SnowFlake_new) clk [] [] []) [] []
| runs_invoke c h sw ptr c' :
    runs machine clk c h sw -> invoke_begin ptr c = Some c' -> runs machine clk c' h sw
| runs_read c h sw id :
    runs machine clk c h sw -> runs machine clk (invoke_read id c) h sw
| runs_reply c h sw rid m :
    runs machine clk c h sw -> runs machine clk (reply rid m c) (h ++ [(rid, m)]) sw
| runs_timeout c h sw g s clk' c' fin :
    runs machine clk c h sw -> generate (snow c) (clock c) = Some (g, s, clk') ->
    handle_produce_timeout c = Some (c', fin) -> runs machine clk c' h (sw ++ [(u64 g, fin)])
| runs_end c h sw id c' :
    runs machine clk c h sw -> invoke_end id c = Some c' -> runs machine clk c' h sw
| runs_send c h sw d ds :
    runs machine clk c h sw -> service_channel c = d :: ds ->
    runs machine clk (mkClient (snow c) (clock c) (kClientRpcChannel c) ds (returned c)) h sw.

(** ** Registries: [invoke_rpc], [provide_service], [produce_service] *)

Record registry : Type := mkRegistry {
  kProvider : list (bytes * unit);
  kProducer : list (bytes * EtcdProducer);
  kServiceRpcChannel : list (bytes * list (Z * Msg))
}.

Inductive spawn : Type :=
| SpawnProvide (servicename etcdaddr : bytes)
| SpawnProduce (servicename etcdaddr : bytes).

Definition provide_service (servicename etcdaddr : bytes) (r : registry) : registry * spawn :=
  (mkRegistry (map_put servicename tt (kProvider r)) (kProducer r) (kServiceRpcChannel r),
   SpawnProvide servicename etcdaddr).

Definition produce_service (servicename etcdaddr : bytes) (r : registry) : registry * spawn :=
  (mkRegistry (kProvider r) (map_put servicename EtcdProducer_new (kProducer r))
     (map_put servicename [] (kServiceRpcChannel r)),
   SpawnProduce servicename etcdaddr).

(** [invoke_rpc]: the producer whose [invoke] is called; a null reply at once
    when the service is unknown. *)
Definition invoke_rpc (service : bytes) (r : registry) : option EtcdProducer :=
  map_find service (kProducer r).

(** ** Matching of calls and replies *)

Lemma generate_range s clk id s' clk' :
  snow_ok s clk -> generate s clk = Some (id, s', clk') -> 0 <= id < 2 ^ 63.
Proof.
  intros (_ & Hq & Hall). destruct clk as [|tv rest]; cbn [generate]; [done|].
  apply Forall_cons in Hall as [[Htv _] Hall].
  assert (forall s0 tv q, tv_ok tv -> 0 <= q < 4096 -> 0 <= Z.lor (stamp s0 tv) (Z.land q 4095) < 2 ^ 63) as Hb.
  { intros s0 tv0 q Ht Hq0. rewrite stamp_value, id_value by done. unfold tv_ok, machine_field in *.
    pose proof (Z.mod_pos_bound (machine_ s0) 1024 ltac:(lia)). lia. }
  assert (Forall tv_ok rest) as Hok by (eapply Forall_impl; [exact Hall|]; by intros x []).
  set (s1 := if last_timestamp_ s =? stamp s tv then s else _).
  assert (0 <= sequence_ s1 < 4096) as Hq1 by (unfold s1; case_match; simpl; lia).
  destruct (4096 <=? sequence_ s1 + 1) eqn:E; zbool.
  - destruct (wait_next s1 (last_timestamp_ s1) rest) as [[v r]|] eqn:Ew; [|done]. intros [= <- _ _].
    clear -Hok Ew Hb. induction rest as [|x rest IH]; cbn [wait_next] in Ew; [done|].
    apply Forall_cons in Hok as [Hx Hok]. destruct (stamp s1 x =? _); [by apply IH|].
    injection Ew as <- _. by apply Hb.
  - intros [= <- _ _]. apply Hb; [done|lia].
Qed.

(** The millisecond in an identifier, that of a clock reading ([id_fields]). *)
Definition ms_of (id : Z) : Z := Z.shiftr id 22.

(** What a call may return: a reply that arrived under its identifier, or null
    if a sweep came more than the time-out after it. *)
Definition result_ok (h : list (Z * Msg)) (sw : list (Z * bool)) (id : Z) (r : option Msg) : Prop :=
  match r with
  | Some m => exists rid, (rid, m) ∈ h /\ u64 rid = id
  | None => exists n b, (n, b) ∈ sw /\ id + timeout_diff < n
  end.

(** A registered call: what its channel holds may be returned, and as long as
    it is empty no finished sweep came more than the time-out after the call. *)
Definition call_ok (h : list (Z * Msg)) (sw : list (Z * bool)) (p : Z * call) : Prop :=
  Forall (result_ok h sw (fst p)) (queue (snd p)) /\
  (queue (snd p) = [] -> forall n, (n, true) ∈ sw -> n <= fst p + timeout_diff).

Definition ids (c : client) : list Z := (returned c).*1 ++ (kClientRpcChannel c).*1.

(** What holds in every run: the identifiers of the calls, waiting or returned,
    are different and, like those of the sweeps, not above what the generator
    gave last. *)
Record client_ok (c : client) (h : list (Z * Msg)) (sw : list (Z * bool)) : Prop := mkClientOk {
  ok_snow : snow_ok (snow c) (clock c);
  ok_mono : clock_mono (clock c);
  ok_sorted : map_sorted (kClientRpcChannel c);
  ok_nodup : NoDup (ids c);
  ok_ids : Forall (fun id => 0 <= id <= last_timestamp_ (snow c) + sequence_ (snow c)) (ids c);
  ok_sweeps : Forall (fun n => n <= last_timestamp_ (snow c) + sequence_ (snow c)) sw.*1;
  ok_calls : Forall (call_ok h sw) (kClientRpcChannel c);
  ok_returned : Forall (fun p => result_ok h sw (fst p) (snd p)) (returned c)
}.

Lemma result_ok_mono h sw h' sw' id r :
  h ⊆ h' -> sw ⊆ sw' -> result_ok h sw id r -> result_ok h' sw' id r.
Proof. intros Hh Hsw. destruct r; cbn; set_solver. Qed.

Lemma results_mono h sw h' sw' l :
  h ⊆ h' -> sw ⊆ sw' -> Forall (fun p => result_ok h sw (fst p) (snd p)) l ->
  Forall (fun p : Z * option Msg => result_ok h' sw' (fst p) (snd p)) l.
Proof. intros Hh Hsw Hl. eapply Forall_impl; [exact Hl|]. intros p. by apply result_ok_mono. Qed.

Lemma map_put_keys {V} (id : Z) (v : V) m :
  is_Some (map_find id m) -> (map_put id v m).*1 = m.*1.
Proof.
  induction m as [|[k w] m IH]; cbn [map_find map_put less Z_less]; [by intros []|].
  destruct (id <? k) eqn:E1; [by intros []|].
  destruct (k <? id) eqn:E2; intros Hf; rewrite !fmap_cons; [by rewrite IH|]. zbool.
  cbn [fst]. f_equal. lia.
Qed.

Lemma map_put_elem {V} (id : Z) (v : V) m k w :
  map_sorted m -> (k, w) ∈ map_put id v m -> (k = id /\ w = v) \/ (k, w) ∈ m.
Proof.
  intros Hs Hin. apply map_elem_find in Hin; [|by apply map_put_sorted].
  destruct (decide (id = k)) as [->|Hne].
  - rewrite map_find_put_eq in Hin. injection Hin as ->. by left.
  - rewrite map_find_put_ne in Hin by done. right. by apply map_find_elem.
Qed.

Lemma map_put_Forall {V} (Q : Z * V -> Prop) id v m :
  map_sorted m -> Q (id, v) -> Forall Q m -> Forall Q (map_put id v m).
Proof.
  intros Hs Hq Hall. rewrite Forall_forall in *. intros [k w] Hin.
  apply map_put_elem in Hin as [[-> ->]|Hin]; [done|by apply Hall|done].
Qed.

Lemma at_channel_keys id f chans : (at_channel id f chans).*1 = chans.*1.
Proof. unfold at_channel. destruct (map_find id chans) eqn:Ef; [|done]. apply map_put_keys. by rewrite Ef. Qed.

Lemma at_channel_sorted id f chans : map_sorted chans -> map_sorted (at_channel id f chans).
Proof. intros. unfold at_channel. case_match; [by apply map_put_sorted|done]. Qed.

Lemma at_channel_Forall (Q : Z * call -> Prop) id f chans :
  map_sorted chans -> (forall q, Q (id, q) -> Q (id, f q)) -> Forall Q chans ->
  Forall Q (at_channel id f chans).
Proof.
  intros Hs Hf Hall. unfold at_channel. destruct (map_find id chans) as [q|] eqn:E; [|done].
  apply map_put_Forall; [done| |done]. apply Hf. rewrite Forall_forall in Hall.
  by apply Hall, map_find_elem.
Qed.

(** A new identifier is above all of the others. *)
Lemma generate_new c h sw g s clk :
  client_ok c h sw -> generate (snow c) (clock c) = Some (g, s, clk) ->
  u64 g = g /\ 0 <= g < 2 ^ 63 /\ g = last_timestamp_ s + sequence_ s /\ snow_ok s clk /\ clock_mono clk /\
  Forall (fun id => 0 <= id < g) (ids c) /\ Forall (fun n => n < g) sw.*1.
Proof.
  intros [Hsn Hm _ _ Hids Hsw _ _] Hg.
  destruct (generate_step _ _ _ _ _ Hsn Hm Hg) as (Hlt & Hid & _ & Hsn' & Hm').
  pose proof (generate_range _ _ _ _ _ Hsn Hg) as Hr.
  split_and!; try done; try lia.
  - apply u64_small. lia.
  - eapply Forall_impl; [exact Hids|]. simpl. lia.
  - eapply Forall_impl; [exact Hsw|]. simpl. lia.
Qed.

Lemma client_ok_invoke c h sw ptr c' :
  client_ok c h sw -> invoke_begin ptr c = Some c' -> client_ok c' h sw.
Proof.
  intros Hok. unfold invoke_begin.
  destruct (generate (snow c) (clock c)) as [[[g s] clk]|] eqn:Eg; [|done]. intros [= <-].
  destruct (generate_new _ _ _ _ _ _ Hok Eg) as (-> & Hr & Hid & Hsn & Hm & Hids & Hsw).
  destruct Hok as [_ _ Hs Hnd _ _ Hch Hret].
  assert (g ∉ ids c) as Hnew.
  { intros Hin. rewrite Forall_forall in Hids. specialize (Hids _ Hin). lia. }
  assert (map_put g (mkCall false []) (kClientRpcChannel c) ≡ₚ (g, mkCall false []) :: kClientRpcChannel c) as Hperm.
  { apply map_put_perm. destruct (map_find g (kClientRpcChannel c)) as [q|] eqn:Ef; [|done].
    exfalso. apply Hnew. apply elem_of_app. right. apply map_find_elem in Ef.
    apply list_elem_of_fmap. by exists (g, q). }
  assert ((returned c).*1 ++ (map_put g (mkCall false []) (kClientRpcChannel c)).*1 ≡ₚ g :: ids c) as Hkeys.
  { rewrite Hperm, fmap_cons. cbn [fst]. by rewrite <- Permutation_middle. }
  constructor; unfold ids; cbn [snow clock kClientRpcChannel returned]; try done.
  - by apply map_put_sorted.
  - rewrite Hkeys. by constructor.
  - rewrite Hkeys. constructor; [lia|]. eapply Forall_impl; [exact Hids|]. simpl. lia.
  - eapply Forall_impl; [exact Hsw|]. simpl. lia.
  - apply map_put_Forall; [done| |done]. split; [constructor|]. intros _ n Hn. cbn [fst].
    rewrite Forall_fmap, Forall_forall in Hsw. specialize (Hsw _ Hn). cbn in Hsw.
    assert (0 <= timeout_diff) by (vm_compute; congruence). lia.
Qed.

(** A change of one channel that keeps what calls may return. *)
Lemma client_ok_at c h sw h' id f :
  h ⊆ h' -> (forall q, call_ok h' sw (id, q) -> call_ok h' sw (id, f q)) ->
  client_ok c h sw -> client_ok (set_channels (at_channel id f (kClientRpcChannel c)) c) h' sw.
Proof.
  intros Hh Hf [Hsn Hm Hs Hnd Hids Hsw Hch Hret].
  constructor; unfold ids; cbn [set_channels snow clock kClientRpcChannel returned];
    rewrite ?at_channel_keys; try done.
  - by apply at_channel_sorted.
  - apply at_channel_Forall; [done|done|]. eapply Forall_impl; [exact Hch|]. intros p [Hq Hn].
    split; [|done]. eapply Forall_impl; [exact Hq|]. intros r. by apply result_ok_mono.
  - by eapply results_mono.
Qed.

Lemma client_ok_reply c h sw rid m :
  client_ok c h sw -> client_ok (reply rid m c) (h ++ [(rid, m)]) sw.
Proof.
  apply client_ok_at; [set_solver|]. intros q [Hq Hn]. split; cbn [fst snd written queue] in *.
  - apply Forall_app. split; [done|]. constructor; [|constructor]. exists rid. set_solver.
  - by intros [_ [=]]%app_nil.
Qed.

Lemma client_ok_read c h sw id : client_ok c h sw -> client_ok (invoke_read id c) h sw.
Proof. apply client_ok_at; [done|]. by intros q [Hq Hn]. Qed.

(** ** The sweep *)

Lemma timed_out_after n id : 0 <= id <= n -> n < 2 ^ 63 -> timed_out n id = (id + timeout_diff <? n).
Proof.
  intros Hid Hn. unfold timed_out. rewrite u64_small by lia.
  destruct (Z.ltb_spec timeout_diff (n - id)), (Z.ltb_spec (id + timeout_diff) n); lia.
Qed.

Lemma ms_window n id :
  (ms_of n - ms_of id < 15000 -> n <= id + timeout_diff) /\
  (15000 < ms_of n - ms_of id -> id + timeout_diff < n).
Proof.
  unfold ms_of. rewrite !Z.shiftr_div_pow2 by lia.
  assert (timeout_diff = 15000 * 2 ^ 22) as -> by reflexivity.
  pose proof (Z.div_mod n (2 ^ 22)). pose proof (Z.mod_pos_bound n (2 ^ 22)).
  pose proof (Z.div_mod id (2 ^ 22)). pose proof (Z.mod_pos_bound id (2 ^ 22)).
  split; intros; nia.
Qed.

(** What the sweep makes of one channel, once it gets there. *)
Definition swept (n : Z) (p : Z * call) : Z * call :=
  if timed_out n (fst p) then (fst p, written None (snd p)) else p.
Definition passes (n : Z) (p : Z * call) : bool := negb (timed_out n (fst p)) || accepts (snd p).

(** The sweep handles the channels in order, up to the first at which it does
    not get by. *)
Lemma sweep_spec n chans :
  exists pre post, chans = pre ++ post /\ Forall (fun p => passes n p = true) pre /\
    sweep n chans = (map (swept n) pre ++ post, forallb (passes n) chans) /\
    match post with [] => True | p :: _ => passes n p = false end.
Proof.
  induction chans as [|[id q] chans (pre & post & -> & Hpre & Hs & Hpost)]; [by exists [], []|].
  assert (passes n (id, q) = negb (timed_out n id) || accepts q) as Hp by done.
  assert (swept n (id, q) = if timed_out n id then (id, written None q) else (id, q)) as Hw by done.
  cbn [sweep forallb]. rewrite Hs.
  destruct (timed_out n id) eqn:Et; [destruct (accepts q) eqn:Ea|]; cbn [negb orb] in Hp.
  - exists ((id, q) :: pre), post. cbn [map]. rewrite Hw, Hp. split_and!; try done. by constructor.
  - exists [], ((id, q) :: pre ++ post). by rewrite Hp.
  - exists ((id, q) :: pre), post. cbn [map]. rewrite Hw, Hp. split_and!; try done. by constructor.
Qed.

Lemma swept_keys n l : (map (swept n) l).*1 = l.*1.
Proof.
  induction l as [|[id q] l IH]; [done|]. cbn [map]. rewrite !fmap_cons, IH. f_equal.
  unfold swept. by case_match.
Qed.

Lemma sweep_keys n chans : (fst (sweep n chans)).*1 = chans.*1.
Proof.
  destruct (sweep_spec n chans) as (pre & post & -> & _ & -> & _). cbn [fst].
  by rewrite !fmap_app, swept_keys.
Qed.

Lemma keys_sorted {V W} (m : list (Z * V)) (m' : list (Z * W)) : m.*1 = m'.*1 -> map_sorted m -> map_sorted m'.
Proof.
  revert m'. induction m as [|[k v] m IH]; intros [|[k' v'] m'] Hk Hs; try done.
  rewrite !fmap_cons in Hk. injection Hk as Hk1 Hk2. cbn in Hk1. subst k'. destruct Hs as [Ha Hs].
  split; [|by apply IH]. unfold above in *.
  assert (Forall (fun x => less k x = true) m'.*1) as Hf.
  { rewrite <- Hk2, Forall_fmap. eapply Forall_impl; [exact Ha|]. by intros []. }
  rewrite Forall_fmap in Hf. eapply Forall_impl; [exact Hf|]. by intros [].
Qed.

Lemma call_ok_sweep h sw n fin p :
  0 <= fst p <= n -> n < 2 ^ 63 -> call_ok h sw p -> passes n p = true ->
  call_ok h (sw ++ [(n, fin)]) (swept n p).
Proof.
  destruct p as [id q]. cbn [fst]. intros Hid Hn [Hq He] Hp. unfold swept. cbn [fst snd] in *.
  rewrite timed_out_after by done.
  assert (Forall (result_ok h (sw ++ [(n, fin)]) id) (queue q)) as Hq'.
  { eapply Forall_impl; [exact Hq|]. intros r. apply result_ok_mono; set_solver. }
  destruct (id + timeout_diff <? n) eqn:E; zbool; split; cbn [fst snd written queue] in *.
  - apply Forall_app. split; [done|]. constructor; [|constructor]. exists n, fin. set_solver.
  - by intros [_ [=]]%app_nil.
  - done.
  - intros Hnil n' [Hin|Hin]%elem_of_app; [by apply He|].
    apply list_elem_of_singleton in Hin as [= -> _]. lia.
Qed.

Lemma call_ok_stuck h sw n p : call_ok h sw p -> call_ok h (sw ++ [(n, false)]) p.
Proof.
  intros [Hq He]. split.
  - eapply Forall_impl; [exact Hq|]. intros r. apply result_ok_mono; set_solver.
  - intros Hnil n' [Hin|Hin]%elem_of_app; [by apply He|]. set_solver.
Qed.

Lemma calls_sweep h sw n chans chans' fin :
  Forall (fun p => 0 <= fst p <= n) chans -> n < 2 ^ 63 -> Forall (call_ok h sw) chans ->
  sweep n chans = (chans', fin) -> Forall (call_ok h (sw ++ [(n, fin)])) chans'.
Proof.
  intros Hids Hn Hch Hsw. destruct (sweep_spec n chans) as (pre & post & -> & Hpre & Hs & Hpost).
  rewrite Hs in Hsw. injection Hsw as <- <-.
  apply Forall_app in Hids as [Hi1 Hi2]. apply Forall_app in Hch as [Hc1 Hc2].
  apply Forall_app. split.
  - rewrite Forall_map, Forall_forall in *. intros p Hp.
    apply call_ok_sweep; [by apply Hi1|done|by apply Hc1|by apply Hpre].
  - destruct post as [|p post]; [constructor|].
    rewrite forallb_app. cbn [forallb]. rewrite Hpost, andb_false_r.
    eapply Forall_impl; [exact Hc2|]. intros p'. apply call_ok_stuck.
Qed.

Lemma client_ok_timeout c h sw g s clk c' fin :
  client_ok c h sw -> generate (snow c) (clock c) = Some (g, s, clk) ->
  handle_produce_timeout c = Some (c', fin) -> client_ok c' h (sw ++ [(u64 g, fin)]).
Proof.
  intros Hok Eg. unfold handle_produce_timeout. rewrite Eg.
  destruct (generate_new _ _ _ _ _ _ Hok Eg) as (-> & Hr & Hid & Hsn & Hm & Hids & Hsw).
  destruct Hok as [_ _ Hs Hnd _ _ Hch Hret].
  destruct (sweep g (kClientRpcChannel c)) as [chans fin'] eqn:Esw. intros [= <- <-].
  assert (chans.*1 = (kClientRpcChannel c).*1) as Hkeys.
  { pose proof (sweep_keys g (kClientRpcChannel c)) as Hk. by rewrite Esw in Hk. }
  unfold ids in *. pose proof Hids as [_ Hidc]%Forall_app. rewrite Forall_fmap in Hidc.
  constructor; unfold ids; cbn [snow clock kClientRpcChannel returned]; rewrite ?Hkeys; try done.
  - by eapply keys_sorted.
  - eapply Forall_impl; [exact Hids|]. simpl. lia.
  - rewrite fmap_app. apply Forall_app. split; [|repeat constructor; cbn; lia].
    eapply Forall_impl; [exact Hsw|]. simpl. lia.
  - eapply calls_sweep; [|by apply Hr|exact Hch|exact Esw].
    eapply Forall_impl; [exact Hidc|]. simpl. lia.
  - eapply results_mono; [..|exact Hret]; set_solver.
Qed.

Lemma client_ok_end c h sw id c' : client_ok c h sw -> invoke_end id c = Some c' -> client_ok c' h sw.
Proof.
  intros [Hsn Hm Hs Hnd Hids Hsw Hch Hret]. unfold invoke_end.
  destruct (map_find id (kClientRpcChannel c)) as [[[] [|rsp q]]|] eqn:Ef; try done. intros [= <-].
  pose proof (map_erase_perm _ _ _ Ef) as Hperm.
  assert ((returned c ++ [(id, rsp)]).*1 ++ (map_erase id (kClientRpcChannel c)).*1 ≡ₚ ids c) as Hkeys.
  { unfold ids. rewrite fmap_app, <- app_assoc. f_equiv. by rewrite <- (Permutation_map fst Hperm). }
  rewrite Hperm in Hch. apply Forall_cons in Hch as [[Hq _] Hch].
  constructor; unfold ids; cbn [snow clock kClientRpcChannel returned]; rewrite ?Hkeys; try done.
  - by apply map_erase_sorted.
  - apply Forall_app. split; [done|]. constructor; [|constructor]. by apply Forall_cons in Hq as [? _].
Qed.

Lemma runs_ok machine clk c h sw :
  Forall tv_ok clk -> clock_mono clk -> runs machine clk c h sw -> client_ok c h sw.
Proof.
  intros Hok Hmono Hruns.
  induction Hruns as [|c h sw ptr c' _ IH Hb|c h sw id _ IH|c h sw rid m _ IH|c h sw g s clk' c' fin _ IH Hg Ht
    |c h sw id c' _ IH He|c h sw d ds _ IH Hd].
  - constructor; [by apply fresh_snow_ok|done|done|..]; constructor.
  - by eapply client_ok_invoke.
  - by apply client_ok_read.
  - by apply client_ok_reply.
  - by eapply client_ok_timeout.
  - by eapply client_ok_end.
  - destruct IH. by constructor.
Qed.

(** C4: replies are matched with their calls, as long as the clock does not go
    back.  In every run no identifier is used for two calls and a call that has
    returned is no longer registered; a call that returned a message returned
    one that arrived under its own request id; and a call that returned null
    did so because of a sweep whose identifier is at least 15000 milliseconds
    later than its own. *)
Theorem calls_correlated machine clk c h sw :
  Forall tv_ok clk -> clock_mono clk -> runs machine clk c h sw ->
  NoDup ((returned c).*1 ++ (kClientRpcChannel c).*1) /\
  (forall id m, (id, Some m) ∈ returned c -> exists rid, (rid, m) ∈ h /\ u64 rid = id) /\
  (forall id, (id, None) ∈ returned c ->
    exists n fin, (n, fin) ∈ sw /\ id + timeout_diff < n /\ 15000 <= ms_of n - ms_of id).
Proof.
  intros Hok Hmono Hruns. destruct (runs_ok _ _ _ _ _ Hok Hmono Hruns) as [_ _ _ Hnd _ _ _ Hret].
  rewrite Forall_forall in Hret. split; [done|]. split.
  - intros id m Hin. exact (Hret _ Hin).
  - intros id Hin. destruct (Hret _ Hin) as (n & b & Hn & Hlt). exists n, b. split_and!; try done.
    apply Znot_gt_le. intros Hgt. pose proof (proj1 (ms_window n id)). cbn in Hlt. lia.
Qed.

(** The channels after a sweep. *)
Lemma sweep_lookup n chans id q :
  map_sorted chans -> map_find id chans = Some q -> (id, q) ∈ chans /\
  (timed_out n id = false -> map_find id (fst (sweep n chans)) = Some q) /\
  (snd (sweep n chans) = true -> timed_out n id = true ->
    q = mkCall true [] /\ map_find id (fst (sweep n chans)) = Some (mkCall true [None])).
Proof.
  intros Hs Hf. pose proof (map_find_elem _ _ _ Hf) as Hin. split; [done|].
  assert (map_sorted (fst (sweep n chans))) as Hs' by (eapply keys_sorted; [symmetry; apply sweep_keys|done]).
  destruct (sweep_spec n chans) as (pre & post & -> & Hpre & Hsw & Hpost). rewrite Hsw in *. cbn [fst snd] in *.
  split.
  - intros Ht. apply map_elem_find; [done|]. apply elem_of_app in Hin as [Hin|Hin]; apply elem_of_app; [left|by right].
    apply list_elem_of_fmap. exists (id, q). split; [|done]. unfold swept. cbn [fst]. by rewrite Ht.
  - intros Hall Ht. rewrite forallb_forall in Hall.
    pose proof (Hall (id, q) (proj1 (list_elem_of_In _ _) Hin)) as Hfin.
    assert (post = []) as ->.
    { destruct post as [|p post]; [done|].
      rewrite (Hall p) in Hpost; [done|]. apply in_or_app. right. by left. }
    rewrite app_nil_r in *. unfold passes in Hfin. cbn [fst snd] in Hfin. rewrite Ht in Hfin. cbn in Hfin.
    unfold accepts in Hfin. destruct q as [[] []]; try done. split; [done|]. apply map_elem_find; [done|].
    apply list_elem_of_fmap. exists (id, mkCall true []). split; [|done]. unfold swept. cbn [fst]. by rewrite Ht.
Qed.

(** C40: when a call times out.  In every run in which the clock does not go
    back, a sweep leaves alone the calls made less than 15000 milliseconds
    before it; if it gets to its end it gives null, which the call then
    returns, to every call made more than 15000 before, and it gets to its end
    exactly when each call it times out waits for its reply with nothing in its
    channel.  A call that still waits was made at most 15000 milliseconds
    before each finished sweep so far; so when the last one is at most [period]
    before this one, the call was made at most [15000 + period] before it
    (25 seconds with the timer's period of 10 s).  Times are the milliseconds in
    the identifiers. *)
Theorem timeout_window machine clk c h sw g s clk' :
  Forall tv_ok clk -> clock_mono clk -> runs machine clk c h sw ->
  generate (snow c) (clock c) = Some (g, s, clk') ->
  exists c' fin, handle_produce_timeout c = Some (c', fin) /\
    (fin = true <-> forall id q, map_find id (kClientRpcChannel c) = Some q ->
                      timed_out g id = true -> q = mkCall true []) /\
    forall id q, map_find id (kClientRpcChannel c) = Some q ->
      (ms_of g - ms_of id < 15000 -> map_find id (kClientRpcChannel c') = Some q) /\
      (15000 < ms_of g - ms_of id -> fin = true ->
        exists c'', invoke_end id c' = Some c'' /\ returned c'' = returned c ++ [(id, None)]) /\
      (queue q = [] -> forall n, (n, true) ∈ sw ->
        ms_of n - ms_of id <= 15000 /\
        forall period, ms_of g - ms_of n <= period -> ms_of g - ms_of id <= 15000 + period).
Proof.
  intros Hok Hmono Hruns Eg. pose proof (runs_ok _ _ _ _ _ Hok Hmono Hruns) as Hc.
  destruct (generate_new _ _ _ _ _ _ Hc Eg) as (Hu & Hr & _ & _ & _ & Hids & _).
  destruct Hc as [_ _ Hs _ _ _ Hch _]. unfold handle_produce_timeout. rewrite Eg, Hu.
  destruct (sweep g (kClientRpcChannel c)) as [chans fin] eqn:Esw.
  eexists _, fin. split; [reflexivity|].
  assert (forall id q, map_find id (kClientRpcChannel c) = Some q -> timed_out g id = (id + timeout_diff <? g)) as Hto.
  { intros id q Hf%map_find_elem. apply timed_out_after; [|lia].
    apply Forall_app in Hids as [_ Hids]. rewrite Forall_fmap, Forall_forall in Hids.
    specialize (Hids _ Hf). cbn in Hids. lia. }
  assert (forall id q, map_find id (kClientRpcChannel c) = Some q -> _) as Hlook
    by (intros id q; exact (sweep_lookup g (kClientRpcChannel c) id q Hs)).
  rewrite Esw in Hlook. cbn [fst snd kClientRpcChannel] in *. split.
  - split; [intros -> id q Hf Ht; by apply (Hlook id q Hf)|]. intros Hall.
    destruct (sweep_spec g (kClientRpcChannel c)) as (pre & post & _ & _ & Hsw & _).
    rewrite Esw in Hsw. injection Hsw as _ ->. apply forallb_forall. intros [id q] Hin%list_elem_of_In.
    unfold passes. cbn [fst snd]. destruct (timed_out g id) eqn:Et; [|done].
    rewrite (Hall id q); [done|by apply map_elem_find|done].
  - intros id q Hf. destruct (Hlook id q Hf) as (Hin & Hkeep & Hnull).
    destruct (ms_window g id) as [Hw1 Hw2]. split_and!.
    + intros Hlt. apply Hkeep. rewrite (Hto id q Hf). apply Z.ltb_ge. by apply Hw1.
    + intros Hgt ->. destruct (Hnull eq_refl) as [-> Hn]; [rewrite (Hto id q Hf); apply Z.ltb_lt; by apply Hw2|].
      unfold invoke_end. cbn [kClientRpcChannel]. rewrite Hn. by eexists.
    + intros Hq n Hn. rewrite Forall_forall in Hch. destruct (Hch _ Hin) as [_ He].
      specialize (He Hq n Hn). cbn [fst] in He. pose proof (proj2 (ms_window n id)).
      assert (ms_of n - ms_of id <= 15000) by lia. split; [done|]. intros. lia.
Qed.

(** ** A request and its answer *)

(** The bytes of the reads. *)
Definition data_of (reads : list read_result) : bytes :=
  concat (map (fun r => match r with RdData d => d | _ => [] end) reads).

(** [b] arrives with these reads, of which none fails or finds the end, in
    pieces of which each but the last leaves the parser waiting. *)
Definition arrives (reads : list read_result) (b : bytes) : Prop :=
  data_of reads = b /\ Forall (fun r => r <> RdError /\ r <> RdEof) reads /\
  forall pre post, reads = pre ++ post -> data_of post <> [] -> waiting (data_of pre).

Lemma Decode_waiting b ms d :
  waiting (b ++ d) -> Decode (mkRpcParser b ms) d = Ret (mkRpcParser (b ++ d) ms).
Proof. intros Hw. unfold Decode. cbn [buffer_ message_ parse_stream_loop]. by rewrite ParseStream_waiting. Qed.

Lemma Decode_last b d rid m data :
  rid_ok rid -> sendable m data -> b ++ d = Encode m rid ->
  Decode (mkRpcParser b []) d = Ret (mkRpcParser [] (received [(rid, m)])).
Proof.
  intros Hrid Hs Hb. rewrite (decode_stream _ d [(rid, m)] []).
  - rewrite received_cons. by destruct (decoded m).
  - constructor; [|constructor]. split; [done|by eexists].
  - left. simpl. lia.
  - cbn [buffer_]. rewrite Hb. unfold stream. cbn. by rewrite !app_nil_r.
Qed.

Lemma waiting_nil : waiting [].
Proof. left. simpl. lia. Qed.

Lemma read_loop_quiet reads :
  data_of reads = [] -> Forall (fun r => r <> RdError /\ r <> RdEof) reads ->
  provider_read_loop reads (mkRpcParser [] []) = Ret ([], false).
Proof.
  intros Hd Hr. induction Hr as [|r reads [] Hr IH]; [done|].
  destruct r as [| | |d]; try done; cbn [provider_read_loop]; [by apply IH|].
  apply app_nil in Hd as [-> Hd]. rewrite Decode_waiting by apply waiting_nil.
  cbn [app mbind outcome_bind message_ length drain GetMessage]. by rewrite IH.
Qed.

Lemma read_loop_pieces rid m data reads b :
  rid_ok rid -> sendable m data -> b ++ data_of reads = Encode m rid -> data_of reads <> [] ->
  Forall (fun r => r <> RdError /\ r <> RdEof) reads ->
  (forall pre post, reads = pre ++ post -> data_of post <> [] -> waiting (b ++ data_of pre)) ->
  provider_read_loop reads (mkRpcParser b []) = Ret (received [(rid, m)], false).
Proof.
  intros Hrid Hs Hb Hne Hr. revert b Hb Hne. induction Hr as [|r reads [] Hr IH]; intros b Hb Hne Hw; [done|].
  destruct r as [| | |d]; try done; cbn [provider_read_loop].
  - apply IH; [done|done|]. intros pre post -> Hp. by apply (Hw (RdRetry :: pre) post).
  - change (data_of (RdData d :: reads)) with (d ++ data_of reads) in *.
    destruct (decide (data_of reads = [])) as [He|He].
    + rewrite He, app_nil_r in Hb. rewrite (Decode_last b d rid m data) by done. cbn [mbind outcome_bind].
      rewrite drain_all by (cbn [message_]; lia). cbn [message_ buffer_]. rewrite read_loop_quiet by done.
      cbn [mbind outcome_bind]. by rewrite app_nil_r.
    + assert (waiting (b ++ d)) as Hwd.
      { specialize (Hw [RdData d] reads eq_refl He). unfold data_of in Hw. cbn in Hw. by rewrite app_nil_r in Hw. }
      rewrite Decode_waiting by done. cbn [mbind outcome_bind message_ length drain GetMessage].
      rewrite IH; [done|by rewrite <- app_assoc|done|]. intros pre post -> Hp.
      rewrite <- app_assoc. by apply (Hw (RdData d :: pre) post).
Qed.

Lemma Encode_nonempty rid m data : sendable m data -> Encode m rid <> [].
Proof.
  intros Hs. rewrite (Encode_packet m rid data) by (apply Hs || by apply sendable_lt).
  intros He. apply (f_equal length) in He. rewrite packet_length in He. simpl in He. lia.
Qed.

(** A packet that arrives in pieces is decoded once. *)
Lemma read_loop_arrives rid m data reads :
  rid_ok rid -> sendable m data -> arrives reads (Encode m rid) ->
  provider_read_loop reads RpcPacketParser_new = Ret (received [(rid, m)], false).
Proof.
  intros Hrid Hs (Hd & Hr & Hw). apply (read_loop_pieces rid m data); try done.
  rewrite Hd. by eapply Encode_nonempty.
Qed.

(** A packet that one read delivers arrives. *)
Lemma arrives_whole b : arrives [RdData b] b.
Proof.
  split; [unfold data_of; cbn; by rewrite app_nil_r|]. split; [by repeat constructor|].
  intros [|r pre] post Hp Hne; [apply waiting_nil|]. injection Hp as <- Hp.
  symmetry in Hp. apply app_nil in Hp as [-> ->]. done.
Qed.

(** The reply to a call that waits is what the call returns. *)
Lemma reply_returned c rid rsp w :
  map_sorted (kClientRpcChannel c) -> map_find (u64 rid) (kClientRpcChannel c) = Some (mkCall w []) ->
  exists c', invoke_end (u64 rid) (invoke_read (u64 rid) (reply rid rsp c)) = Some c' /\
    returned c' = returned c ++ [(u64 rid, Some rsp)] /\ map_find (u64 rid) (kClientRpcChannel c') = None.
Proof.
  intros Hs Hf. unfold invoke_end, invoke_read, reply, at_channel. cbn [set_channels kClientRpcChannel].
  rewrite Hf, map_find_put_eq. cbn [written queue app]. rewrite map_find_put_eq.
  eexists. split; [reflexivity|]. split; [done|]. cbn [kClientRpcChannel].
  apply map_find_erase_eq. by do 2 apply map_put_sorted.
Qed.

Lemma invoke_registers ptr c c1 h sw :
  client_ok c h sw -> invoke_begin ptr c = Some c1 ->
  exists rid, rid_ok rid /\ service_channel c1 = service_channel c ++ [(rid, ptr)] /\
    returned c1 = returned c /\ map_find (u64 rid) (kClientRpcChannel c1) = Some (mkCall false []).
Proof.
  intros Hok. unfold invoke_begin.
  destruct (generate (snow c) (clock c)) as [[[g s] clk]|] eqn:Eg; [|done]. intros [= <-].
  destruct (generate_new _ _ _ _ _ _ Hok Eg) as (Hu & Hr & _). exists g. rewrite Hu, i64_small by lia.
  split; [unfold rid_ok; lia|]. split; [done|]. split; [done|]. cbn [kClientRpcChannel].
  apply map_find_put_eq.
Qed.

(** The sending coroutine never ends, so that it never releases the lock and
    the provider never closes a connection. *)
Lemma sendrpc_blocked chan writes_of : snd (sendrpc chan writes_of) = Blocked.
Proof.
  revert writes_of. induction chan as [|[buf|] chan IH]; intros w; cbn [sendrpc]; [done| |apply IH].
  destruct (send_one buf 0 (hd [] w)) as [t []]; [| |done];
    specialize (IH (tl w)); by destruct (sendrpc chan (tl w)).
Qed.

Lemma provider_never_returns reads chan writes_of reqs st :
  provider_handle reads chan writes_of = Ret (reqs, st) -> st = Blocked.
Proof.
  unfold provider_handle. intros H. apply outcome_bind_inv in H as ([r fin] & _ & H).
  injection H as _ <-. destruct fin; [apply sendrpc_blocked|done].
Qed.

(** ** Refreshing the list of servers *)

(** etcd's answer as a JSON value: the nodes with their keys and values. *)
Definition node_json (kv : bytes * bytes) : Json :=
  Json_object [(lit "key", Json_string (fst kv)); (lit "value", Json_string (snd kv))].
Definition etcd_response (kvs : list (bytes * bytes)) : Json :=
  Json_object [(lit "action", Json_string (lit "get"));
               (lit "node", Json_object [(lit "dir", Json_bool true);
                                         (lit "nodes", Json_array (map node_json kvs))])].

Lemma node_wf kv : wf (node_json kv).
Proof. constructor; [by repeat constructor|]. repeat constructor. Qed.

Lemma nodes_wf kvs : wf (Json_array (map node_json kvs)).
Proof. constructor. rewrite Forall_map, Forall_forall. intros kv _. apply node_wf. Qed.

Lemma etcd_nodes_response body kvs :
  Parse (cstr body) = Ret (etcd_response kvs) ->
  etcd_nodes body = Ret (Some (Json_array (map node_json kvs))).
Proof.
  intros Hb. unfold etcd_nodes. rewrite Hb. cbn [mbind outcome_bind].
  set (nodes := Json_array (map node_json kvs)).
  assert (wf nodes) as Hw by apply nodes_wf.
  set (node := Json_object [(lit "dir", Json_bool true); (lit "nodes", nodes)]).
  assert (wf node) as Hwn.
  { constructor; [by repeat constructor|]. apply Forall_cons. split; [constructor|].
    apply Forall_cons. split; [exact Hw|constructor]. }
  set (object := etcd_response kvs).
  assert (Contains (lit "action") object = Ret true) as -> by reflexivity.
  assert (index_key (lit "action") object = Ret (Json_string (lit "get"), object)) as Ha by reflexivity.
  assert (Contains (lit "node") object = Ret true) as Hn by reflexivity.
  assert (index_key (lit "node") object = Ret (node, object)) as Hnode by reflexivity.
  assert (Contains (lit "nodes") node = Ret true) as Hc by reflexivity.
  assert (index_key (lit "nodes") node = Ret (nodes, node)) as Hnodes by reflexivity.
  cbn [mbind outcome_bind]. rewrite Ha. cbn [mbind outcome_bind].
  assert (AsString (Json_string (lit "get")) = Ret (lit "get")) as -> by reflexivity.
  cbn [mbind outcome_bind]. rewrite Hn. cbn [mbind outcome_bind].
  rewrite bool_decide_true by done. cbn [andb]. rewrite Hnode. cbn [mbind outcome_bind].
  rewrite deep_copy_wf by done. cbn [mbind outcome_bind]. rewrite Hc. cbn [mbind outcome_bind].
  rewrite Hnodes. cbn [mbind outcome_bind]. by rewrite deep_copy_wf.
Qed.

Lemma item_pair_node k v : NUL ∉ k -> NUL ∉ v -> item_pair (node_json (k, v)) = Ret (k, v).
Proof.
  intros Hk Hv. unfold item_pair. set (j := node_json (k, v)).
  assert (index_key (lit "key") j = Ret (Json_string k, j)) as -> by reflexivity.
  assert (index_key (lit "value") j = Ret (Json_string v, j)) as Hval by reflexivity.
  cbn [mbind outcome_bind AsString Data_string Json_string kind_ data_]. rewrite Hval.
  cbn [mbind outcome_bind AsString Data_string Json_string kind_ data_]. by rewrite !cstr_id.
Qed.

Lemma node_loop_nodes kvs nodelist result started :
  Forall (fun kv => NUL ∉ fst kv /\ NUL ∉ snd kv) kvs ->
  node_loop (map node_json kvs) nodelist result started =
  (fold_left (fun m '(k, v) => map_put k v m) kvs result,
   started ++ filter (fun k => map_find k nodelist = None) kvs.*1, true).
Proof.
  intros Hn. revert result started.
  induction Hn as [|[k v] kvs [Hk Hv] Hn IH]; intros result started; cbn [map node_loop].
  - by rewrite app_nil_r.
  - rewrite item_pair_node by done. rewrite IH, fmap_cons, filter_cons. cbn [fst fold_left].
    destruct (map_find k nodelist) as [w|] eqn:Ef.
    + by rewrite decide_False.
    + by rewrite decide_True, <- app_assoc.
Qed.

(** An answer of etcd that lists servers makes the producer's list exactly
    the listed servers, and starts a connection for each listed server that
    was not in the list before, and for no other. *)
Theorem etcd_refresh body p kvs :
  Parse (cstr body) = Ret (etcd_response kvs) ->
  Forall (fun kv => NUL ∉ fst kv /\ NUL ∉ snd kv) kvs ->
  produce_from_etcd body p =
  (mkProducer (fold_left (fun m '(k, v) => map_put k v m) kvs []) (service_name_ p),
   filter (fun k => map_find k (service_node_ p) = None) kvs.*1).
Proof.
  intros Hb Hn. unfold produce_from_etcd. rewrite (etcd_nodes_response body kvs Hb).
  cbn [Data_array kind_ data_ Json_array]. by rewrite node_loop_nodes.
Qed.

(** A node without a string value makes the loop throw: the nodes after it are
    gone from the list, and the next good answer connects to them again
    although their connections are still there. *)
Lemma bad_node_forgets body p items nodes :
  etcd_nodes body = Ret (Some (Json_array (Json_null :: items))) -> service_node_ p = nodes ->
  produce_from_etcd body p = (mkProducer [] (service_name_ p), []).
Proof. intros Hb _. unfold produce_from_etcd. by rewrite Hb. Qed.

Lemma split_address_colon ip port :
  ":"%char ∉ ip -> sz (ip ++ lit ":" ++ port) < 2 ^ 63 ->
  split_address (ip ++ lit ":" ++ port) = Ret (ip, port).
Proof.
  intros Hip Hlen. unfold split_address. change (lit ":") with [":"%char] in *. cbn [app] in *.
  rewrite find_char_app by done. cbn [to_pos].
  rewrite length_app in Hlen. cbn [length] in Hlen. rewrite (u64_small (_ + 1)) by lia.
  rewrite (substr_total _ 0) by lia.
  rewrite substr_tail by (rewrite length_app; cbn [length]; unfold npos; lia). cbn [mbind outcome_bind].
  rewrite drop_0, take_app_le by (rewrite length_app; lia).
  rewrite take_ge by (rewrite length_app; lia).
  replace (Z.to_nat (sz ip + 1)) with (length (ip ++ [":"%char])) by (rewrite length_app; cbn [length]; lia).
  change (":"%char :: port) with ([":"%char] ++ port). by rewrite app_assoc, drop_app_length.
Qed.
End Rpc.

(** ** Witnesses *)

Import DemoProto.

Definition echo : msg -> option msg := fun m => Some (mkMsg false (payload m)).
Definition demo_methods : methods := register_rpc_handler (lit "a.Req") echo [].

Definition demo_rid : Z := (1005 * 1024 + 1) * 4096 + 1.
Definition demo_start : client (Msg := msg) := mkClient (set_machine 1 SnowFlake_new) demo_clock [] [] [].
Definition demo_called : client (Msg := msg) := default demo_start (invoke_begin req demo_start).
Definition demo_done : client (Msg := msg) :=
  default demo_start (invoke_end demo_rid (invoke_read demo_rid (reply demo_rid rsp demo_called))).

(** A clock that shows 1005 ms, then 16006 ms. *)
Definition late_clock : list timeval := [mkTv 1 5000; mkTv 16 6000].
Definition late_start : client (Msg := msg) := mkClient (set_machine 1 SnowFlake_new) late_clock [] [] [].
Definition late_called : client (Msg := msg) := default late_start (invoke_begin req late_start).
Definition late_sweep_id : Z := (16006 * 1024 + 1) * 4096 + 1.
Definition late_swept : client (Msg := msg) :=
  default late_start (fst <$> handle_produce_timeout (invoke_read demo_rid late_called)).
Definition late_done : client (Msg := msg) := default late_start (invoke_end demo_rid late_swept).

Lemma demo_runs : runs 1 demo_clock demo_done [(demo_rid, rsp)] [].
Proof.
  apply (runs_end 1 demo_clock (invoke_read demo_rid (reply demo_rid rsp demo_called)) _ _ demo_rid);
    [|vm_compute; reflexivity].
  apply runs_read. apply (runs_reply 1 demo_clock demo_called [] [] demo_rid rsp).
  apply (runs_invoke 1 demo_clock demo_start [] [] req); [apply runs_start|vm_compute; reflexivity].
Qed.

Lemma late_waits : runs 1 late_clock (invoke_read demo_rid late_called) [] [].
Proof.
  apply runs_read. apply (runs_invoke 1 late_clock late_start [] [] req); [apply runs_start|vm_compute; reflexivity].
Qed.

Lemma late_runs : runs 1 late_clock late_done [] [(late_sweep_id, true)].
Proof.
  apply (runs_end 1 late_clock late_swept _ _ demo_rid); [|vm_compute; reflexivity].
  assert (exists s clk', generate (snow (invoke_read demo_rid late_called)) (clock (invoke_read demo_rid late_called)) =
    Some (late_sweep_id, s, clk')) as (s & clk' & Hg) by (vm_compute; eauto).
  apply (runs_timeout 1 late_clock (invoke_read demo_rid late_called) [] [] late_sweep_id s clk' late_swept true);
    [apply late_waits|exact Hg|vm_compute; reflexivity].
Qed.

Lemma late_ok : Forall tv_ok late_clock /\ clock_mono late_clock.
Proof.
  split; [unfold tv_ok; repeat constructor; vm_compute; congruence|].
  repeat constructor; vm_compute; discriminate.
Qed.

Lemma calls_correlated_witness :
  (returned demo_done = [(demo_rid, Some rsp)] /\
   forall id m, (id, Some m) ∈ returned demo_done -> exists rid, (rid, m) ∈ [(demo_rid, rsp)] /\ u64 rid = id) /\
  returned late_done = [(demo_rid, None)] /\
  exists n fin, (n, fin) ∈ [(late_sweep_id, true)] /\ 15000 <= ms_of n - ms_of demo_rid.
Proof.
  split; [split; [vm_compute; reflexivity|]|split; [vm_compute; reflexivity|]].
  - apply (calls_correlated 1 demo_clock demo_done [(demo_rid, rsp)] []); [| |apply demo_runs].
    + unfold tv_ok. repeat constructor; vm_compute; congruence.
    + repeat constructor; vm_compute; discriminate.
  - destruct (calls_correlated 1 late_clock late_done [] [(late_sweep_id, true)]) as (_ & _ & H);
      [apply late_ok|apply late_ok|apply late_runs|].
    destruct (H demo_rid) as (n & fin & Hn & _ & Hms); [|by exists n, fin].
    assert (returned late_done = [(demo_rid, None)]) as -> by (vm_compute; reflexivity). set_solver.
Defined.

Lemma timeout_window_witness :
  exists c' c'', handle_produce_timeout (invoke_read demo_rid late_called) = Some (c', true) /\
    invoke_end demo_rid c' = Some c'' /\ returned c'' = [(demo_rid, None)].
Proof.
  assert (exists s clk', generate (snow (invoke_read demo_rid late_called)) (clock (invoke_read demo_rid late_called)) =
    Some (late_sweep_id, s, clk')) as (s & clk' & Hg) by (vm_compute; eauto).
  destruct (timeout_window 1 late_clock (invoke_read demo_rid late_called) [] [] late_sweep_id s clk')
    as (c' & fin & Hh & _ & Hall); [apply late_ok|apply late_ok|apply late_waits|exact Hg|].
  assert (handle_produce_timeout (invoke_read demo_rid late_called) = Some (late_swept, true)) as Hh'
    by (vm_compute; reflexivity).
  rewrite Hh' in Hh. injection Hh as <- <-.
  destruct (Hall demo_rid (mkCall true [])) as (_ & Hnull & _); [vm_compute; reflexivity|].
  destruct Hnull as (c'' & He & Hr); [vm_compute; reflexivity|reflexivity|].
  exists late_swept, c''. split; [exact Hh'|]. split; [exact He|]. exact Hr.
Defined.

(** A call whose request no connection takes within 15 seconds keeps the sweep,
    and with it the scheduler's thread, at the write to the call's channel: the
    call has not come to its read. *)
Lemma unsent_call_blocks_sweep :
  runs 1 late_clock late_called [] [] /\ service_channel late_called = [(demo_rid, req)] /\
  exists c', handle_produce_timeout late_called = Some (c', false).
Proof.
  split; [|split; [vm_compute; reflexivity|eexists; vm_compute; reflexivity]].
  apply (runs_invoke 1 late_clock late_start [] [] req); [apply runs_start|vm_compute; reflexivity].
Qed.

Definition quote_text (s : bytes) : bytes := map (fun c => if Ascii.eqb c "'" then QUOTE else c) s.
Definition demo_body : bytes := quote_text
  (lit "{'action':'get','node':{'dir':true,'nodes':[{'key':'/a','value':'1.2.3.4:5'},{'key':'/b','value':'h:6'}]}}").

Lemma etcd_refresh_witness :
  produce_from_etcd demo_body (mkProducer [(lit "/a", lit "1.2.3.4:5")] (lit "im")) =
  (mkProducer [(lit "/a", lit "1.2.3.4:5"); (lit "/b", lit "h:6")] (lit "im"), [lit "/b"]).
Proof.
  rewrite (etcd_refresh demo_body _ [(lit "/a", lit "1.2.3.4:5"); (lit "/b", lit "h:6")]).
  - reflexivity.
  - reflexivity.
  - repeat constructor; vm_compute; set_solver.
Defined.

(** The parser is a member of the provider and serves all its connections: a
    whole packet that arrives on one connection while another has delivered
    part of a packet is swallowed, while alone it is delivered. *)
Lemma shared_parser_mixes :
  (p ← Decode RpcPacketParser_new (take 14 (Encode req 1)); p' ← Decode p (Encode rsp 2); Ret (message_ p')) = Ret [] /\
  (p ← Decode RpcPacketParser_new (Encode rsp 2); Ret (message_ p)) = Ret [(2, rsp)].
Proof. split; vm_compute; reflexivity. Qed.
