(* ===== verification/RpcServer.v ===== *)
(** * The sockets and timers of the RPC services

    The outer loops of [src/natsu/natsu_rpc.cpp]: the provider looks for a free
    port, accepts connections and registers with etcd; the producer starts its
    timers, connects to one server, sends the calls and reads the replies.  The
    trace lists what the program does with sockets, timers and coroutines;
    results of system calls are inputs. *)
From S2P Require Import Prelude StdString StdMap NatsuBase Json JsonParser SnowFlake RpcPacket NatsuApp Rpc.

(** What a timer calls or a coroutine runs. *)
Inductive job : Type :=
| JRegister (sname addr : bytes) (port : Z)     (** [EtcdProvider::register_to_etcd] *)
| JHandle (fd : Z)                              (** [EtcdProvider::handle] *)
| JProduce (sname addr : bytes)                 (** [EtcdProducer::produce_from_etcd] *)
| JSweep                                        (** [EtcdProducer::handle_produce_timeout] *)
| JConnect (node : bytes)                       (** [EtcdProducer::comm_one_server] *)
| JParse (fd : Z).                              (** [EtcdProducer::handle_parse] *)

Inductive act : Type :=
| ASocket (fd : Z) | ABind (fd port : Z) | AListen (fd : Z) | AClose (fd : Z) | ASleep (ms : Z)
| ATimer (seconds : Z) (j : job) | AGo (j : job) | AConfig (key value : bytes) | APut (url data : bytes)
| AWrite (b : bytes).

(** ** [EtcdProvider::provide_service_etcd] *)

(** One round of the first loop: [rand], the results of [bind] and [listen], and
    the socket made for the next round when one of them failed. *)
Record attempt : Type := mkAttempt { a_rand : Z; a_bind : bool; a_listen : bool; a_next : Z }.
Definition port_of (a : attempt) : Z := 5000 + Z.rem (a_rand a) 5000.

(** The first loop: the trace, and the socket and port it listens on. *)
Fixpoint listen_loop (sock : Z) (tries : list attempt) : list act * option (Z * Z) :=
  match tries with
  | [] => ([], None)
  | a :: tries' =>
      let again pre :=
        let '(t, r) := listen_loop (a_next a) tries' in (pre ++ [AClose sock; ASleep 3000; ASocket (a_next a)] ++ t, r) in
      if negb (a_bind a) then again [ABind sock (port_of a)]
      else if negb (a_listen a) then again [ABind sock (port_of a); AListen sock]
      else ([ABind sock (port_of a); AListen sock], Some (sock, port_of a))
  end.

(** The accept loop, which ends with the listener closed. *)
Fixpoint provide_accept (sock : Z) (accepts : list accept_result) : list act * status :=
  match accepts with
  | [] => ([], Blocked)
  | AcRetry :: rest => provide_accept sock rest
  | AcError :: _ => ([AClose sock], Returned)
  | AcFd fd :: rest => let '(t, s) := provide_accept sock rest in (AGo (JHandle fd) :: t, s)
  end.

(** [id] is the identifier [generate] returns. *)
Definition provide_service_etcd (servicename etcdaddr : bytes) (sock : Z) (tries : list attempt) (id : Z)
    (accepts : list accept_result) : list act * status :=
  let '(t, r) := listen_loop sock tries in
  match r with
  | None => (ASocket sock :: t, Blocked)
  | Some (s, port) =>
      let '(t', st) := provide_accept s accepts in
      (ASocket sock :: t ++ [AConfig (lit "rpc_instance_id") (dec id); ATimer 1 (JRegister servicename etcdaddr port)] ++ t', st)
  end.

(** [register_to_etcd]; [curl] says whether [curl_easy_init] gave a handle. *)
Definition register_to_etcd (config : list (bytes * bytes)) (curl : bool) (sname addr : bytes) (port : Z) : list act :=
  (if curl then [APut (register_url addr sname (config_get (lit "rpc_instance_id") config))
                      (register_data (config_get (lit "local_ipv4") config) port)]
   else []) ++ [ATimer 10 (JRegister sname addr port)].

Section Producer.
Context {Msg Desc : Type} `{P : Protobuf Msg Desc} `{D : Double}.

(** ** [EtcdProducer] *)

Definition produce_service_etcd (servicename etcdaddr : bytes) (p : EtcdProducer) : EtcdProducer * list act :=
  (mkProducer (service_node_ p) servicename, [ATimer 1 (JProduce servicename etcdaddr); ATimer 10 JSweep]).

(** One timer call of [produce_from_etcd]: [body] is the answer, [None] without
    one. *)
Definition produce_call (servicename etcdaddr : bytes) (body : option bytes) (p : EtcdProducer) :
    EtcdProducer * list act :=
  let '(p, started) := match body with None => (p, []) | Some b => produce_from_etcd b p end in
  (p, map (fun n => AGo (JConnect n)) started ++ [ATimer 10 (JProduce servicename etcdaddr)]).

(** [comm_one_server] of a socket [sockfd]; [requests] come from the service's
    channel, and [reader_done] says whether [handle_parse] releases the lock
    that the coroutine takes after a failed write. *)
Definition comm_one_server (inet_aton : bytes -> option Z) (node : bytes) (sockfd : Z) (bind_ok connect_ok : bool)
    (requests : list (Z * Msg)) (writes_of : list (list (option nat))) (reader_done : bool) (p : EtcdProducer) :
    outcome (list act * list (Z * Msg) * status) :=
  r ← comm_connect inet_aton node p bind_ok connect_ok;
  match r with
  | CommNoNode => Ret ([], requests, Returned)
  | CommRetry => Ret ([ASocket sockfd; ATimer 10 (JConnect node); AClose sockfd], requests, Returned)
  | CommConnected _ _ =>
      let '(t, todo, e) := comm_loop requests writes_of in
      let sent := [ASocket sockfd; AGo (JParse sockfd)] ++ map AWrite t in
      match e with
      | SendFailed =>
          if reader_done then Ret (sent ++ [ATimer 10 (JConnect node); AClose sockfd], todo, Returned)
          else Ret (sent ++ [ATimer 10 (JConnect node)], todo, Blocked)
      | _ => Ret (sent, todo, Blocked)
      end
  end.

(** The read loop of [handle_parse]: every decoded reply goes to the call that
    waits for it. *)
Definition deliver (ms : list (Z * Msg)) (c : client (Msg := Msg)) : client (Msg := Msg) :=
  fold_left (fun c '(rid, m) => reply rid m c) ms c.
Fixpoint producer_read_loop (reads : list read_result) (p : RpcPacketParser (Msg := Msg)) (c : client (Msg := Msg)) :
    outcome (client (Msg := Msg) * bool) :=
  match reads with
  | [] => Ret (c, false)
  | RdRetry :: reads' => producer_read_loop reads' p c
  | RdError :: _ => Ret (c, true)
  | RdEof :: _ => Ret (c, true)
  | RdData d :: reads' =>
      p ← Decode p d;
      let '(ms, p) := drain (S (length (message_ p))) p in
      producer_read_loop reads' p (deliver ms c)
  end.
End Producer.

(** ** Sockets are not leaked *)

(** The sockets a trace leaves open. *)
Definition track (open : list Z) (a : act) : list Z :=
  match a with ASocket fd => open ++ [fd] | AClose fd => filter (fun x => x <> fd) open | _ => open end.
Definition opens (t : list act) (open : list Z) : list Z := fold_left track t open.

Lemma opens_app t1 t2 open : opens (t1 ++ t2) open = opens t2 (opens t1 open).
Proof. apply fold_left_app. Qed.

Definition refused (a : attempt) : Prop := a_bind a && a_listen a = false.

Lemma listen_refused bad : forall sock tries, Forall refused bad ->
  exists t, listen_loop sock (bad ++ tries) =
    (let s := List.last (map a_next bad) sock in let '(t', r) := listen_loop s tries in (t ++ t', r)) /\
    opens t [sock] = [List.last (map a_next bad) sock].
Proof.
  induction bad as [|a bad IH]; intros sock tries Hb; [exists []; cbn; split; [by destruct (listen_loop sock tries)|done]|].
  apply Forall_cons in Hb as [Ha Hb]. destruct (IH (a_next a) tries Hb) as (t & Ht & Ho).
  assert (List.last (map a_next (a :: bad)) sock = List.last (map a_next bad) (a_next a)) as Hlast.
  { cbn. destruct (map a_next bad) as [|x l]; [done|]. clear. revert x. induction l as [|y l IH]; intros x; [done|]. apply (IH y). }
  rewrite Hlast. set (s := List.last _ _) in *. set (pre := if negb (a_bind a) then [ABind sock (port_of a)] else [ABind sock (port_of a); AListen sock]).
  exists (pre ++ [AClose sock; ASleep 3000; ASocket (a_next a)] ++ t). split.
  - cbn [app listen_loop]. rewrite Ht. unfold pre, refused in *. destruct (listen_loop s tries) as [t' r].
    destruct (a_bind a); cbn [negb andb] in *; [rewrite Ha; cbn [negb]|]; rewrite <- !app_assoc; done.
  - rewrite opens_app. assert (opens pre [sock] = [sock]) as -> by (unfold pre; by destruct (a_bind a)).
    cbn. rewrite decide_False by naive_solver. cbn. exact Ho.
Qed.

(** The connections the accept loop is given. *)
Definition accepted (accepts : list accept_result) : list Z :=
  concat (map (fun a => match a with AcFd fd => [fd] | _ => [] end) accepts).

Lemma provide_accept_spec sock accepts : Forall (fun a => a <> AcError) accepts ->
  forall tail, provide_accept sock (accepts ++ tail) =
    let '(t, s) := provide_accept sock tail in (map (fun fd => AGo (JHandle fd)) (accepted accepts) ++ t, s).
Proof.
  induction 1 as [|a l Ha Hl IH]; intros tail; cbn; [by destruct (provide_accept sock tail)|].
  destruct a; try done. rewrite IH. by destruct (provide_accept sock tail).
Qed.

Lemma opens_go l open : opens (map (fun fd => AGo (JHandle fd)) l) open = open.
Proof. by induction l. Qed.

(** The provider finds a port and serves every connection.  After any number of
    attempts at which [bind] or [listen] was refused, the first that works ends
    the search: every socket made before is closed and exactly the listening
    one is open; its port is between 5000 and 9999; the provider registers with
    that port, starts one handler per accepted connection, in order, and when
    [accept] fails closes the listening socket, so that none is left. *)
Theorem provider_serves sname addr sock bad good more id accepts :
  Forall refused bad -> a_bind good = true -> a_listen good = true -> 0 <= a_rand good ->
  Forall (fun a => a <> AcError) accepts ->
  let s := List.last (map a_next bad) sock in
  exists t1, opens t1 [] = [s] /\ 5000 <= port_of good < 10000 /\
    (forall tail,
      let '(t, st) := provide_accept s tail in
      provide_service_etcd sname addr sock (bad ++ good :: more) id (accepts ++ tail) =
        (t1 ++ [AConfig (lit "rpc_instance_id") (dec id); ATimer 1 (JRegister sname addr (port_of good))] ++
         map (fun fd => AGo (JHandle fd)) (accepted accepts) ++ t, st)) /\
    snd (provide_service_etcd sname addr sock (bad ++ good :: more) id (accepts ++ [AcError])) = Returned /\
    opens (fst (provide_service_etcd sname addr sock (bad ++ good :: more) id (accepts ++ [AcError]))) [] = [].
Proof.
  intros Hbad Hb Hl Hr Ha s. destruct (listen_refused bad sock (good :: more) Hbad) as (t & Ht & Ho).
  cbn zeta in Ht. fold s in Ht, Ho. cbn [listen_loop] in Ht. rewrite Hb, Hl in Ht. cbn [negb] in Ht.
  assert (forall tail, let '(t', st) := provide_accept s tail in
    provide_service_etcd sname addr sock (bad ++ good :: more) id (accepts ++ tail) =
      ((ASocket sock :: t ++ [ABind s (port_of good); AListen s]) ++
        [AConfig (lit "rpc_instance_id") (dec id); ATimer 1 (JRegister sname addr (port_of good))] ++
        map (fun fd => AGo (JHandle fd)) (accepted accepts) ++ t', st)) as Heq.
  { intros tail. pose proof (provide_accept_spec s accepts Ha tail) as Hacc. unfold provide_service_etcd. rewrite Ht, Hacc.
    destruct (provide_accept s tail) as [t' st]. done. }
  assert (opens (ASocket sock :: t ++ [ABind s (port_of good); AListen s]) [] = [s]) as Hopen.
  { change (opens (t ++ [ABind s (port_of good); AListen s]) [sock] = [s]). by rewrite opens_app, Ho. }
  exists (ASocket sock :: t ++ [ABind s (port_of good); AListen s]). split; [done|]. split.
  { unfold port_of. pose proof (Z.rem_bound_pos (a_rand good) 5000). lia. }
  split; [done|]. specialize (Heq [AcError]). change (provide_accept s [AcError]) with ([AClose s], Returned) in Heq. cbv iota in Heq. rewrite Heq. cbn [fst snd]. split; [done|].
  rewrite opens_app, Hopen, opens_app, opens_app, opens_go. cbn.
  by rewrite decide_False by naive_solver.
Qed.

Lemma provider_serves_witness :
  opens (fst (provide_service_etcd (lit "svc") (lit "etcd") 3
    ([mkAttempt 7 false true 4; mkAttempt 8 true false 5] ++ mkAttempt 12 true true 6 :: []) 99
    ([AcFd 9; AcRetry; AcFd 10] ++ [AcError]))) [] = [].
Proof.
  destruct (provider_serves (lit "svc") (lit "etcd") 3 [mkAttempt 7 false true 4; mkAttempt 8 true false 5]
    (mkAttempt 12 true true 6) [] 99 [AcFd 9; AcRetry; AcFd 10]) as (t1 & _ & _ & _ & _ & H).
  - repeat constructor.
  - reflexivity.
  - reflexivity.
  - cbn. lia.
  - repeat constructor; discriminate.
  - exact H.
Defined.

(** ** Replies reach their calls *)
Section ProducerFacts.
Context {Msg Desc : Type} `{P : Protobuf Msg Desc} {L : ProtobufLaws P}.

(** Both sides read in the same way; the producer hands on what it decodes. *)
Lemma producer_reads reads p (c : client (Msg := Msg)) :
  producer_read_loop reads p c = ('(ms, fin) ← provider_read_loop reads p; Ret (deliver ms c, fin)).
Proof.
  revert p c. induction reads as [|r reads IH]; intros p c; [done|].
  destruct r as [| | |d]; cbn [producer_read_loop provider_read_loop]; try done.
  destruct (Decode p d) as [p'| | |]; try done. cbn [mbind outcome_bind].
  destruct (drain _ p') as [ms p'']. rewrite IH.
  destruct (provider_read_loop reads p'') as [[ms' fin]| | |]; try done. cbn [mbind outcome_bind].
  unfold deliver. by rewrite fold_left_app.
Qed.

(** A connection that delivers the packets of replies with different ids in one
    piece gives each that it decodes to the call of its id, and a peer that
    closes ends the coroutine. *)
Lemma replies_delivered l (c : client (Msg := Msg)) :
  sendables l -> NoDup l.*1 ->
  exists ms, ms ≡ₚ received l /\
    producer_read_loop [RdData (stream l); RdEof] RpcPacketParser_new c = Ret (deliver ms c, true).
Proof.
  intros Hl Hn. exists (puts (received l) []). split.
  - rewrite puts_perm; rewrite ?app_nil_r; try done. by apply received_nodup.
  - cbn [producer_read_loop]. rewrite (decode_stream RpcPacketParser_new (stream l) l []); try done.
    + cbn [mbind outcome_bind]. by rewrite drain_all.
    + by left.
    + cbn. by rewrite app_nil_r.
Qed.

End ProducerFacts.

Import DemoProto.

(** The request arrives in one piece, the answer in two: its first 10 bytes and,
    after an interrupted read, the rest. *)
Definition demo_answer : msg := mkMsg false (lit "hello").
Definition demo_pieces : list read_result :=
  [RdData (take 10 (Encode demo_answer demo_rid)); RdRetry; RdData (drop 10 (Encode demo_answer demo_rid))].

Lemma demo_arrives : arrives demo_pieces (Encode demo_answer demo_rid).
Proof.
  split; [vm_compute; reflexivity|]. split; [repeat constructor; discriminate|].
  intros pre post Hp Hne. left. unfold demo_pieces in Hp.
  destruct pre as [|r1 [|r2 [|r3 pre]]]; [vm_compute; reflexivity|..].
  - injection Hp as <- _. vm_compute. reflexivity.
  - injection Hp as <- <- _. vm_compute. reflexivity.
  - injection Hp as <- <- <- Hp. symmetry in Hp. apply app_nil in Hp as [-> ->]. done.
Qed.

