(* ===== verification/Redis.v ===== *)
(** * The Redis client: src/natsu/natsu_redis.cpp, src/inc/natsu_redis.h

    [RedisClientImpl] sends commands through hiredis and interprets the replies;
    [RedisManager] keeps a pool of clients per server name in a channel.  hiredis
    and the server behind it are the parameter [Hiredis], a set of operations
    on a world state; [HiredisLaws] is what hiredis documents about the one the
    theorems rely on. *)
From S2P Require Import Prelude StdString StdMap NatsuBase Json JsonParser.

(** ** Interface to hiredis *)

(** The types of a [redisReply]. *)
Inductive reply_type : Type :=
| REDIS_REPLY_STRING | REDIS_REPLY_ARRAY | REDIS_REPLY_INTEGER | REDIS_REPLY_NIL
| REDIS_REPLY_STATUS | REDIS_REPLY_ERROR.
#[global] Instance reply_type_eq_dec : EqDecision reply_type.
Proof. solve_decision. Defined.

Record redisReply : Type := mkReply {
  r_type : reply_type; r_integer : Z; r_str : bytes; r_elements : list bytes
}.

Record redisContext : Type := mkCtx { c_err : Z; c_errstr : bytes; c_block : bool; c_obuf : bytes }.

Definition REDIS_OK : Z := 0.
Definition REDIS_ERR : Z := -1.

Record RedisConfig : Type := mkConfig { addr : bytes; port : Z; conntimeout : Z }.

Class Hiredis (W : Type) : Type := {
  redisConnectWithTimeout : RedisConfig -> W -> option redisContext * W;
  (** the command as its words, after the substitution of the arguments *)
  redisvCommand : redisContext -> list bytes -> W -> option redisReply * redisContext * W;
  redisAppendFormattedCommand : redisContext -> bytes -> Z * redisContext;
  redisGetReply : redisContext -> W -> Z * redisReply * redisContext * W
}.

(** A formatted command that fits in memory is appended to the output buffer. *)
Class HiredisLaws {W} (H : Hiredis W) : Prop := {
  append_ok c cmd :
    redisAppendFormattedCommand c cmd =
    (REDIS_OK, mkCtx (c_err c) (c_errstr c) (c_block c) (c_obuf c ++ cmd))
}.

Section Redis.
Context {W : Type} `{H : Hiredis W} `{D : Double}.

(** ** [RedisClientImpl] *)

Record RedisClientImpl : Type := mkRedis {
  redis_context_ : option redisContext;
  redis_reply_ : option redisReply;
  redis_error_ : NatsuError;
  redis_name_ : bytes;
  redis_config_ : RedisConfig;
  cmd_cache_ : bytes
}.

Definition _NATSU_REDIS_CONNECT_TIMEOUT_DEFAULT_ : Z := 5.
Definition _NATSU_REDIS_ERROR_MISMATCH_ : bytes := lit "unexcepted reply".

(** The timeout: [AsInt] stored in an [unsigned int]; an exception is caught. *)
Definition read_timeout (object : Json) : Z :=
  match ('(t, object) ← index_key (lit "connect_timeout") object; AsInt t) with
  | Ret n => if u32 n <? 1 then _NATSU_REDIS_CONNECT_TIMEOUT_DEFAULT_ else u32 n
  | _ => _NATSU_REDIS_CONNECT_TIMEOUT_DEFAULT_
  end.

(** The constructor. *)
Definition RedisClientImpl_new (name config : bytes) : outcome RedisClientImpl :=
  object ← Parse (cstr config);
  if IsNull object then Throw ExnLogicError else
  '(a, object) ← index_key (lit "server_addr") object;
  address ← AsString a;
  '(p, object) ← index_key (lit "server_port") object;
  pn ← AsInt p;
  Ret (mkRedis None None NatsuError_new name (mkConfig address (u16 pn) (read_timeout object)) []).

Definition set_context (c : option redisContext) (r : RedisClientImpl) : RedisClientImpl :=
  mkRedis c (redis_reply_ r) (redis_error_ r) (redis_name_ r) (redis_config_ r) (cmd_cache_ r).
Definition set_reply (p : option redisReply) (r : RedisClientImpl) : RedisClientImpl :=
  mkRedis (redis_context_ r) p (redis_error_ r) (redis_name_ r) (redis_config_ r) (cmd_cache_ r).
Definition set_error (e : NatsuError) (r : RedisClientImpl) : RedisClientImpl :=
  mkRedis (redis_context_ r) (redis_reply_ r) e (redis_name_ r) (redis_config_ r) (cmd_cache_ r).
Definition set_cache (b : bytes) (r : RedisClientImpl) : RedisClientImpl :=
  mkRedis (redis_context_ r) (redis_reply_ r) (redis_error_ r) (redis_name_ r) (redis_config_ r) b.

(** [redis_error_] from the context: its error, or -1 without a context. *)
Definition context_error (c : option redisContext) : NatsuError :=
  match c with
  | Some c => mkNatsuError (c_err c) (c_errstr c)
  | None => mkNatsuError (-1) []
  end.

(** Connect; [false] with the error when there is no usable context. *)
Definition reconnect (r : RedisClientImpl) (w : W) : bool * RedisClientImpl * W :=
  let '(c, w) := redisConnectWithTimeout (redis_config_ r) w in
  let r := set_context c r in
  match c with
  | Some c' => if c_err c' =? 0 then (true, r, w) else (false, set_error (context_error c) r, w)
  | None => (false, set_error (context_error c) r, w)
  end.

(** The two tests before a command. *)
Definition ensure_connected (r : RedisClientImpl) (w : W) : bool * RedisClientImpl * W :=
  let '(ok, r, w) := match redis_context_ r with
                     | None => reconnect r w
                     | Some _ => (true, r, w)
                     end in
  if negb ok then (false, r, w) else
  match redis_context_ r with
  | Some c => if c_err c =? 0 then (true, r, w) else reconnect r w
  | None => (true, r, w)
  end.

(** The end of a command: keep the reply, or the error of the context. *)
Definition finish_command (reply : option redisReply) (r : RedisClientImpl) : outcome (bool * RedisClientImpl) :=
  match reply with
  | Some p => Ret (true, set_reply (Some p) r)
  | None =>
      match redis_context_ r with
      | None => Undef
      | Some c =>
          Ret (false, set_error (if c_err c =? 0 then mkNatsuError (-1) [] else mkNatsuError (c_err c) (c_errstr c)) r)
      end
  end.

(** [do_redis_command].  When there is no reply it reconnects and sends again
    with the same [va_list], which the first [redisvCommand] has consumed:
    reading further arguments from it is undefined. *)
Definition do_redis_command (words : list bytes) (r : RedisClientImpl) (w : W) :
    outcome (bool * RedisClientImpl * W) :=
  let r := set_reply None r in
  let r := set_error NatsuError_new r in
  let '(ok, r, w) := ensure_connected r w in
  if negb ok then Ret (false, r, w) else
  match redis_context_ r with
  | None => Undef
  | Some c =>
      let '(reply, c, w) := redisvCommand c words w in
      let r := set_context (Some c) r in
      match reply with
      | Some _ => '(b, r) ← finish_command reply r; Ret (b, r, w)
      | None =>
          let '(ok, r, w) := reconnect r w in
          if negb ok then Ret (false, r, w) else Undef
      end
  end.

Definition redis_block_for_reply (r : RedisClientImpl) (w : W) :
    outcome (option redisReply * RedisClientImpl * W) :=
  match redis_context_ r with
  | None => Undef
  | Some c =>
      if c_block c then
        let '(rc, p, c, w) := redisGetReply c w in
        Ret (if rc =? REDIS_OK then Some p else None, set_context (Some c) r, w)
      else Ret (None, r, w)
  end.

(** The text of the command that is built in [cmd_cache_]. *)
Definition format_command (cmd : bytes) (v : list bytes) : outcome bytes :=
  let head := lit "*" ++ dec (i32 (sz v + 1)) ++ CRLF ++ lit "$" ++ dec (i32 (sz cmd)) ++ CRLF ++
              percent_s cmd ++ CRLF in
  fold_left (fun acc x =>
      t ← acc;
      second ← deref (v !! 1%nat);
      Ret (t ++ lit "$" ++ dec (i32 (sz x)) ++ CRLF ++ second ++ CRLF))
    v (Ret head).

(** [redisAppendFormattedCommand] as it is called: on [cmd], with success taken
    for failure. [true] to go on. *)
Definition append_command (cmd : bytes) (r : RedisClientImpl) : bool * RedisClientImpl :=
  match redis_context_ r with
  | None => (false, r)
  | Some c =>
      let '(rc, c) := redisAppendFormattedCommand c cmd in
      let r := set_context (Some c) r in
      if rc =? REDIS_OK then (false, set_error (context_error (Some c)) r) else (true, r)
  end.

Definition do_redis_command_format (cmd : bytes) (v : list bytes) (r : RedisClientImpl) (w : W) :
    outcome (bool * RedisClientImpl * W) :=
  let r := set_reply None r in
  cache ← format_command cmd v;
  let r := set_cache cache r in
  let r := set_error NatsuError_new r in
  let '(ok, r, w) := ensure_connected r w in
  if negb ok then Ret (false, r, w) else
  let '(ok, r) := append_command cmd r in
  if negb ok then Ret (false, r, w) else
  '(reply, r, w) ← redis_block_for_reply r w;
  match reply with
  | Some _ => '(b, r) ← finish_command reply r; Ret (b, r, w)
  | None =>
      let '(ok, r, w) := reconnect r w in
      if negb ok then Ret (false, r, w) else
      let '(ok, r) := append_command cmd r in
      if negb ok then Ret (false, r, w) else
      '(reply, r, w) ← redis_block_for_reply r w;
      '(b, r) ← finish_command reply r;
      Ret (b, r, w)
  end.

(** ** Commands *)

(** What a command leaves: the result, the caller's error object, the client and
    the world. *)
Definition result (A : Type) : Type := outcome (A * NatsuError * RedisClientImpl * W).

Definition mismatch_error (p : redisReply) : NatsuError :=
  mkNatsuError (-1) (if decide (r_type p = REDIS_REPLY_ERROR) then cstr (r_str p)
                     else _NATSU_REDIS_ERROR_MISMATCH_).

(** After a command that returned: interpret the reply, or hand on the client's
    error with the result of the failing path. *)
Definition interpret {A} (on_fail : A) (on_reply : redisReply -> outcome (A * option NatsuError))
    (err : NatsuError) (m : outcome (bool * RedisClientImpl * W)) : result A :=
  '(ok, r, w) ← m;
  if (ok : bool) then
    p ← deref (redis_reply_ r);
    '(a, e) ← on_reply p;
    Ret (a, default err e, r, w)
  else Ret (on_fail, redis_error_ r, r, w).

Definition int_reply (p : redisReply) : outcome (Z * option NatsuError) :=
  if decide (r_type p = REDIS_REPLY_INTEGER) then Ret (i32 (r_integer p), None)
  else Ret (0, Some (mismatch_error p)).

(** [return 0] in a function that returns [std::string] constructs a string
    from a null pointer. *)
Definition string_reply (p : redisReply) : outcome (bytes * option NatsuError) :=
  if decide (r_type p = REDIS_REPLY_STRING) then Ret (r_str p, None)
  else Throw ExnLogicError.

Definition status_reply (p : redisReply) : outcome (bool * option NatsuError) :=
  if decide (r_type p <> REDIS_REPLY_STATUS /\ r_type p <> REDIS_REPLY_ERROR)
  then Ret (false, Some (mismatch_error p))
  else Ret (if 0 <? sz (r_str p) then strcaseeq (cstr (r_str p)) (lit "ok") else false, None).

Definition del (key : bytes) (err : NatsuError) (r : RedisClientImpl) (w : W) : result Z :=
  interpret 0 int_reply err (do_redis_command [lit "del"; cstr key] r w).
Definition del_keys (keys : list bytes) (err : NatsuError) (r : RedisClientImpl) (w : W) : result Z :=
  interpret 0 int_reply err (do_redis_command_format (lit "del") keys r w).
Definition exists_ (key : bytes) (err : NatsuError) (r : RedisClientImpl) (w : W) : result bool :=
  interpret false (fun p =>
      if decide (r_type p = REDIS_REPLY_INTEGER) then Ret (i32 (r_integer p) =? 1, None)
      else Ret (false, Some (mismatch_error p)))
    err (do_redis_command [lit "exists"; key] r w).
Definition get (key : bytes) (err : NatsuError) (r : RedisClientImpl) (w : W) : result bytes :=
  interpret [] string_reply err (do_redis_command [lit "get"; cstr key] r w).

(** [return ""] in a function that returns [bool] is the non-null pointer, [true]. *)
Definition set_ (key value : bytes) (err : NatsuError) (r : RedisClientImpl) (w : W) : result bool :=
  interpret true status_reply err (do_redis_command_format (lit "set") [key; value] r w).
Definition set_if (key value : bytes) (set_when_exist : bool) (err : NatsuError) (r : RedisClientImpl) (w : W) :
    result bool :=
  interpret true status_reply err
    (do_redis_command_format (lit "set") [key; value; if set_when_exist then lit "XX" else lit "NX"] r w).
Definition set_px (key value : bytes) (millisecond : Z) (set_when_exist : bool) (err : NatsuError)
    (r : RedisClientImpl) (w : W) : result bool :=
  interpret true status_reply err
    (do_redis_command_format (lit "set")
       [key; value; lit "PX"; dec millisecond; if set_when_exist then lit "XX" else lit "NX"] r w).

Definition hset (key filed value : bytes) (err : NatsuError) (r : RedisClientImpl) (w : W) : result Z :=
  interpret 0 int_reply err (do_redis_command [lit "hset"; key; filed; value] r w).
Definition hget (key filed : bytes) (err : NatsuError) (r : RedisClientImpl) (w : W) : result bytes :=
  interpret [] string_reply err (do_redis_command [lit "hget"; key; filed] r w).
Definition hdel (key filed : bytes) (err : NatsuError) (r : RedisClientImpl) (w : W) : result Z :=
  interpret 0 int_reply err (do_redis_command [lit "hdel"; key; filed] r w).
Definition hdel_fields (key : bytes) (filed : list bytes) (err : NatsuError) (r : RedisClientImpl) (w : W) :
    result Z :=
  interpret 0 int_reply err (do_redis_command_format (lit "hdel") (key :: filed) r w).
Definition sadd (key value : bytes) (err : NatsuError) (r : RedisClientImpl) (w : W) : result Z :=
  interpret 0 int_reply err (do_redis_command [lit "sadd"; key; value] r w).
(** The key is not part of the command. *)
Definition sadd_values (key : bytes) (value : list bytes) (err : NatsuError) (r : RedisClientImpl) (w : W) :
    result Z :=
  interpret 0 int_reply err (do_redis_command_format (lit "sadd") value r w).
Definition smembers (key : bytes) (err : NatsuError) (r : RedisClientImpl) (w : W) : result (list (bytes * unit)) :=
  interpret [] (fun p =>
      if decide (r_type p = REDIS_REPLY_ARRAY)
      then Ret (fold_left (fun s x => map_insert x tt s) (r_elements p) [], None)
      else Ret ([], Some (mismatch_error p)))
    err (do_redis_command [lit "smembers"; key] r w).

(** ** Behaviour *)

(** The client has a context without error. *)
Definition connected (c : redisContext) (r : RedisClientImpl) : Prop :=
  redis_context_ r = Some c /\ c_err c = 0.

Lemma ensure_connected_ok c r w : connected c r -> ensure_connected r w = (true, r, w).
Proof. intros [Hc He]. unfold ensure_connected. rewrite Hc. cbn [negb]. by rewrite Hc, He. Qed.

Lemma do_redis_command_reply c r w words p c' w' :
  connected c r -> redisvCommand c words w = (Some p, c', w') ->
  exists r', do_redis_command words r w = Ret (true, r', w') /\
    redis_reply_ r' = Some p /\ redis_context_ r' = Some c' /\
    redis_config_ r' = redis_config_ r /\ redis_name_ r' = redis_name_ r.
Proof.
  intros [Hc He] Hcmd. unfold do_redis_command. cbv zeta.
  rewrite (ensure_connected_ok c) by done. cbn [negb redis_context_ set_error set_reply]. rewrite Hc, Hcmd.
  eexists. split; [reflexivity|done].
Qed.

Lemma insert_members_acc l s x :
  map_sorted s ->
  map_find x (fold_left (fun s x => map_insert x tt s) l s) = Some tt <-> map_find x s = Some tt \/ x ∈ l.
Proof.
  revert s. induction l as [|y l IH]; intros s Hs; cbn [fold_left]; [set_solver|].
  rewrite IH by by apply map_insert_sorted. unfold map_insert.
  destruct (map_find y s) as [[]|] eqn:Ey.
  - rewrite elem_of_cons. split; [tauto|]. intros [Hx|[->|Hx]]; tauto.
  - rewrite elem_of_cons. destruct (decide (y = x)) as [->|Hne].
    + rewrite map_find_put_eq. tauto.
    + rewrite map_find_put_ne by done. split; [tauto|]. intros [Hx|[->|Hx]]; [tauto|done|tauto].
Qed.

Lemma insert_members l x :
  map_find x (fold_left (fun s x => map_insert x tt s) l []) = Some tt <-> x ∈ l.
Proof. rewrite insert_members_acc by done. split; [by intros [[=]|]|by right]. Qed.

(** On a working connection the commands sent through [redisvCommand] return
    what the server answered: the integer of an integer reply, the bytes of a
    string reply, the set of the members of an array reply; a reply of another
    type yields the default value and error -1 with the server's text. *)
Theorem replies_interpreted c r w p c' w' err key value :
  connected c r ->
  (redisvCommand c [lit "sadd"; key; value] w = (Some p, c', w') ->
   exists r', sadd key value err r w =
     if decide (r_type p = REDIS_REPLY_INTEGER) then Ret (i32 (r_integer p), err, r', w')
     else Ret (0, mismatch_error p, r', w')) /\
  (redisvCommand c [lit "hget"; key; value] w = (Some p, c', w') -> r_type p = REDIS_REPLY_STRING ->
   exists r', hget key value err r w = Ret (r_str p, err, r', w')) /\
  (redisvCommand c [lit "smembers"; key] w = (Some p, c', w') -> r_type p = REDIS_REPLY_ARRAY ->
   exists s r', smembers key err r w = Ret (s, err, r', w') /\
     forall x, map_find x s = Some tt <-> x ∈ r_elements p).
Proof.
  intros Hc. split; [|split]; intros Hcmd.
  - destruct (do_redis_command_reply _ _ _ _ _ _ _ Hc Hcmd) as (r' & Hd & Hp & _).
    exists r'. unfold sadd, interpret. rewrite Hd. cbn [mbind outcome_bind]. rewrite Hp.
    cbn [deref mbind outcome_bind]. unfold int_reply. by case_decide.
  - intros Ht. destruct (do_redis_command_reply _ _ _ _ _ _ _ Hc Hcmd) as (r' & Hd & Hp & _).
    exists r'. unfold hget, interpret. rewrite Hd. cbn [mbind outcome_bind]. rewrite Hp.
    cbn [deref mbind outcome_bind]. unfold string_reply. by rewrite decide_True by done.
  - intros Ht. destruct (do_redis_command_reply _ _ _ _ _ _ _ Hc Hcmd) as (r' & Hd & Hp & _).
    eexists _, r'. unfold smembers, interpret. rewrite Hd. cbn [mbind outcome_bind]. rewrite Hp.
    cbn [deref mbind outcome_bind]. rewrite decide_True by done. cbn [mbind outcome_bind].
    split; [reflexivity|]. intros x. apply insert_members.
Qed.

(** Reading a key that does not exist: the server answers nil, and building the
    result string from a null pointer throws. *)
Lemma get_missing_throws c r w p c' w' err key :
  connected c r -> redisvCommand c [lit "get"; cstr key] w = (Some p, c', w') ->
  r_type p = REDIS_REPLY_NIL -> get key err r w = Throw ExnLogicError.
Proof.
  intros Hc Hcmd Ht. destruct (do_redis_command_reply _ _ _ _ _ _ _ Hc Hcmd) as (r' & Hd & Hp & _).
  unfold get, interpret. rewrite Hd. cbn [mbind outcome_bind]. rewrite Hp.
  cbn [deref mbind outcome_bind]. unfold string_reply. by rewrite decide_False by (rewrite Ht; done).
Qed.

(** A command that loses its connection and can connect again is sent with
    consumed arguments. *)
Lemma retry_undefined c r w words c' w' c2 w2 :
  connected c r -> redisvCommand c words w = (None, c', w') ->
  redisConnectWithTimeout (redis_config_ r) w' = (Some c2, w2) -> c_err c2 = 0 ->
  do_redis_command words r w = Undef.
Proof.
  intros Hc Hcmd Hre He. unfold do_redis_command. rewrite (ensure_connected_ok c) by (destruct Hc; by split). cbn [negb].
  destruct Hc as [Hc Hce]. cbn [redis_context_ set_error set_reply]. rewrite Hc, Hcmd. unfold reconnect.
  cbn [redis_config_ set_context set_error set_reply]. rewrite Hre, He. done.
Qed.

Lemma format_command_returns cmd v : (2 <= length v)%nat -> returns (format_command cmd v).
Proof.
  intros Hv. unfold format_command. destruct (lookup_lt_is_Some_2 v 1) as [x ->]; [lia|].
  assert (forall (l : list bytes) acc, returns acc ->
    returns (fold_left (fun acc y => t ← acc; second ← deref (Some x);
      Ret (t ++ lit "$" ++ dec (i32 (sz y)) ++ CRLF ++ second ++ CRLF)) l acc)) as Hfold.
  { induction l as [|y l IH]; intros acc [t ->]; cbn [fold_left]; [by eexists|].
    apply IH. by eexists. }
  apply Hfold. by eexists.
Qed.

(** [set] does not send its key and value.  Whatever they are, on a working
    connection it hands only the word [set] to hiredis, takes the success of
    that for a failure, reads no reply, and returns true. *)
Theorem set_sends_nothing {L : HiredisLaws H} c r w key value err :
  connected c r ->
  exists r', set_ key value err r w = Ret (true, mkNatsuError 0 (c_errstr c), r', w) /\
    redis_context_ r' = Some (mkCtx 0 (c_errstr c) (c_block c) (c_obuf c ++ lit "set")) /\
    redis_reply_ r' = None.
Proof.
  intros [Hc He]. unfold set_, interpret, do_redis_command_format. cbv zeta.
  destruct (format_command_returns (lit "set") [key; value]) as [cache ->]; [done|].
  cbn [mbind outcome_bind]. rewrite (ensure_connected_ok c) by done. cbn [negb].
  unfold append_command. cbn [redis_context_ set_error set_reply set_cache]. rewrite Hc, append_ok.
  cbn [Z.eqb REDIS_OK negb mbind outcome_bind]. eexists. split; [|split].
  - unfold context_error. cbn [c_err c_errstr]. rewrite He. reflexivity.
  - reflexivity.
  - reflexivity.
Qed.

(** ** The configuration *)

Definition config_object (a : bytes) (p : double) (t : option double) : Json :=
  Json_object (match t with
               | Some t => [(lit "connect_timeout", Json_double t); (lit "server_addr", Json_string a);
                            (lit "server_port", Json_double p)]
               | None => [(lit "server_addr", Json_string a); (lit "server_port", Json_double p)]
               end).

(** A client takes its address and port from the JSON configuration; the
    connect timeout, in seconds, is 5 when it is missing or zero, and otherwise
    the configured value. *)
Theorem redis_configured name config a p t :
  Parse (cstr config) = Ret (config_object a p t) ->
  exists r, RedisClientImpl_new name config = Ret r /\
    addr (redis_config_ r) = cstr a /\ port (redis_config_ r) = u16 (int_of_double p) /\
    conntimeout (redis_config_ r) =
      match t with
      | None => 5
      | Some t => if u32 (int_of_double t) =? 0 then 5 else u32 (int_of_double t)
      end /\
    redis_context_ r = None /\ redis_name_ r = name.
Proof.
  intros Hp. unfold RedisClientImpl_new. rewrite Hp. cbn [mbind outcome_bind].
  destruct t as [t|].
  - set (j := config_object a p (Some t)).
    assert (IsNull j = false) as -> by reflexivity.
    assert (index_key (lit "server_addr") j = Ret (Json_string a, j)) as -> by reflexivity.
    assert (index_key (lit "server_port") j = Ret (Json_double p, j)) as Hport by reflexivity.
    assert (index_key (lit "connect_timeout") j = Ret (Json_double t, j)) as Ht by reflexivity.
    cbn [mbind outcome_bind AsString Data_string Json_string kind_ data_]. rewrite Hport.
    cbn [mbind outcome_bind AsInt Data_double Json_double kind_ data_]. eexists. split; [reflexivity|].
    cbn [redis_config_ addr port conntimeout redis_context_ redis_name_].
    unfold read_timeout. rewrite Ht. cbn [mbind outcome_bind AsInt Data_double Json_double kind_ data_].
    repeat split. pose proof (u32_range (int_of_double t)).
    destruct (u32 (int_of_double t) <? 1) eqn:E1, (u32 (int_of_double t) =? 0) eqn:E2; zbool; lia || done.
  - set (j := config_object a p None).
    assert (IsNull j = false) as -> by reflexivity.
    assert (index_key (lit "server_addr") j = Ret (Json_string a, j)) as -> by reflexivity.
    assert (index_key (lit "server_port") j = Ret (Json_double p, j)) as Hport by reflexivity.
    assert (exists j', index_key (lit "connect_timeout") j = Ret (Json_null, j')) as [j' Ht] by (eexists; reflexivity).
    cbn [mbind outcome_bind AsString Data_string Json_string kind_ data_]. rewrite Hport.
    cbn [mbind outcome_bind AsInt Data_double Json_double kind_ data_]. eexists. split; [reflexivity|].
    cbn [redis_config_ addr port conntimeout redis_context_ redis_name_].
    unfold read_timeout. rewrite Ht. done.
Qed.

(** ** [RedisManager]: a pool of clients per name

    A pool is a channel of capacity [link] with the clients that are free; a
    write to a full channel and a read from an empty one block. *)
Record pool : Type := mkPool { capacity : Z; free : list RedisClientImpl }.
Definition manager : Type := list (bytes * pool).

Inductive may_block (A : Type) : Type := Done (a : A) | Blocks.
Arguments Done {A} a.
Arguments Blocks {A}.

Definition pool_write (data : RedisClientImpl) (p : pool) : may_block pool :=
  if sz (free p) <? capacity p then Done (mkPool (capacity p) (free p ++ [data])) else Blocks.

(** The [for] loop of [add_redis_server]; an exception of a constructor ends it. *)
Fixpoint add_loop (link : nat) (redisname config : bytes) (p : pool) : outcome (may_block pool) :=
  match link with
  | O => Ret (Done p)
  | S link' =>
      data ← RedisClientImpl_new redisname config;
      match pool_write data p with
      | Done p' => add_loop link' redisname config p'
      | Blocks => Ret Blocks
      end
  end.

Definition add_redis_server (redisname config : bytes) (link : nat) (redis_ : manager) :
    outcome (may_block manager) :=
  let redis_ := match map_find redisname redis_ with
                | None => map_put redisname (mkPool (Z.of_nat link) []) redis_
                | Some _ => redis_
                end in
  p ← deref (map_find redisname redis_);
  r ← add_loop link redisname config p;
  Ret (match r with
       | Done p' => Done (map_put redisname p' redis_)
       | Blocks => Blocks
       end).

(** [get_redis_server]: null for an unknown name. *)
Definition get_redis_server (redisname : bytes) (redis_ : manager) :
    may_block (option RedisClientImpl * manager) :=
  match map_find redisname redis_ with
  | None => Done (None, redis_)
  | Some p =>
      match free p with
      | [] => Blocks
      | client :: rest => Done (Some client, map_put redisname (mkPool (capacity p) rest) redis_)
      end
  end.

(** [release_redis_client], the deleter of the shared pointer, which is also
    called on a null pointer. *)
Definition release_redis_client (data : option RedisClientImpl) (redis_ : manager) :
    outcome (may_block manager) :=
  data ← deref data;
  match map_find (redis_name_ data) redis_ with
  | None => Ret (Done redis_)
  | Some p =>
      Ret (match pool_write data p with
           | Done p' => Done (map_put (redis_name_ data) p' redis_)
           | Blocks => Blocks
           end)
  end.

(** Asking for a server name that was never added and dropping the result calls
    the deleter on a null pointer. *)
Lemma unknown_name_crashes redisname redis_ :
  map_find redisname redis_ = None ->
  exists r, get_redis_server redisname redis_ = Done (r, redis_) /\ release_redis_client r redis_ = Undef.
Proof. intros Hf. exists None. unfold get_redis_server. by rewrite Hf. Qed.

(** *** Use of a pool: clients are borrowed and returned *)

Inductive pool_step : manager * list RedisClientImpl -> manager * list RedisClientImpl -> Prop :=
| pool_get name m c m' out :
    get_redis_server name m = Done (Some c, m') -> pool_step (m, out) (m', c :: out)
| pool_release m c m' out1 out2 :
    release_redis_client (Some c) m = Ret (Done m') -> pool_step (m, out1 ++ c :: out2) (m', out1 ++ out2).

(** Every client of a pool carries its name, and the free and borrowed clients
    of a name are as many as its channel holds. *)
Definition pool_ok (st : manager * list RedisClientImpl) : Prop :=
  map_sorted (fst st) /\
  forall name p, map_find name (fst st) = Some p ->
    Forall (fun c => redis_name_ c = name) (free p) /\
    sz (free p) + sz (filter (fun c => redis_name_ c = name) (snd st)) = capacity p.

Lemma pool_get_ok name m c m' out :
  pool_ok (m, out) -> get_redis_server name m = Done (Some c, m') -> pool_ok (m', c :: out).
Proof.
  intros [Hs Hok] Hg. unfold get_redis_server in Hg. cbn [fst snd] in *.
  destruct (map_find name m) as [p|] eqn:Ef; [|done].
  destruct (Hok _ _ Ef) as [Hnames Hcount]. destruct (free p) as [|c0 rest] eqn:Efree; [done|].
  injection Hg as -> <-. apply Forall_cons in Hnames as [Hc Hrest].
  split; [by apply map_put_sorted|]. intros n q Hq. cbn [fst snd] in *. rewrite filter_cons.
  destruct (decide (name = n)) as [<-|Hne].
  - rewrite map_find_put_eq in Hq. injection Hq as <-. cbn [free capacity].
    rewrite decide_True by done. split; [done|]. cbn [length] in *. lia.
  - rewrite map_find_put_ne in Hq by done. rewrite decide_False by congruence. by apply Hok.
Qed.

Lemma pool_release_ok m c m' out1 out2 :
  pool_ok (m, out1 ++ c :: out2) -> release_redis_client (Some c) m = Ret (Done m') -> pool_ok (m', out1 ++ out2).
Proof.
  intros [Hs Hok] Hr. unfold release_redis_client in Hr. cbn [deref mbind outcome_bind fst snd] in *.
  assert (forall n, sz (filter (fun x => redis_name_ x = n) (out1 ++ c :: out2)) =
    sz (filter (fun x => redis_name_ x = n) (out1 ++ out2)) + if decide (redis_name_ c = n) then 1 else 0) as Hf.
  { intros n. rewrite !filter_app, filter_cons, !length_app. case_decide; cbn [length]; lia. }
  destruct (map_find (redis_name_ c) m) as [p|] eqn:Ef.
  - unfold pool_write in Hr. destruct (sz (free p) <? capacity p) eqn:E; [|done]. injection Hr as <-.
    destruct (Hok _ _ Ef) as [Hnames Hcount]. rewrite Hf, decide_True in Hcount by done.
    split; [by apply map_put_sorted|]. intros n q Hq. cbn [fst snd] in *.
    destruct (decide (redis_name_ c = n)) as [<-|Hne].
    + rewrite map_find_put_eq in Hq. injection Hq as <-. cbn [free capacity].
      split; [apply Forall_app; by repeat constructor|]. rewrite length_app. cbn [length]. lia.
    + rewrite map_find_put_ne in Hq by done. destruct (Hok _ _ Hq) as [? Hc2].
      split; [done|]. rewrite Hf, decide_False in Hc2 by done. lia.
  - injection Hr as <-. split; [done|]. intros n q Hq. destruct (Hok _ _ Hq) as [? Hc2].
    split; [done|]. rewrite Hf in Hc2. rewrite decide_False in Hc2; [cbn [snd]; lia|].
    intros Heq. cbn [fst] in Hq. rewrite <- Heq in Hq. congruence.
Qed.

(** A pool is never overfilled and never loses a client: from a consistent
    state every sequence of borrowing and returning keeps free plus borrowed
    clients equal to the capacity, and returning a borrowed client never
    blocks. *)
Theorem pool_conserved st st' :
  pool_ok st -> star pool_step st st' ->
  pool_ok st' /\
  forall c m out1 out2, st' = (m, out1 ++ c :: out2) ->
    exists m', release_redis_client (Some c) m = Ret (Done m').
Proof.
  intros Hok Hstar.
  assert (pool_ok st') as Hok'.
  { revert Hok. apply (star_invariant pool_step); [|done]. clear. intros a b Hstep Hok.
    destruct Hstep; [by eapply pool_get_ok|by eapply pool_release_ok]. }
  split; [done|]. intros c m out1 out2 ->. unfold release_redis_client. cbn [deref mbind outcome_bind].
  destruct (map_find (redis_name_ c) m) as [p|] eqn:Ef; [|by eexists].
  destruct Hok' as [_ Hok']. destruct (Hok' _ _ Ef) as [_ Hcount]. cbn [snd] in Hcount.
  rewrite filter_app, filter_cons, decide_True, length_app in Hcount by done. cbn [length] in Hcount.
  unfold pool_write. rewrite (proj2 (Z.ltb_lt _ _)) by lia. by eexists.
Qed.
End Redis.

(** ** Witnesses: a server that answers every command with its number of words *)

#[local] Instance demo_hiredis : Hiredis nat := {|
  redisConnectWithTimeout cfg w := (Some (mkCtx 0 [] true []), w);
  redisvCommand c words w := (Some (mkReply REDIS_REPLY_INTEGER (sz words) [] []), c, S w);
  redisAppendFormattedCommand c cmd := (REDIS_OK, mkCtx (c_err c) (c_errstr c) (c_block c) (c_obuf c ++ cmd));
  redisGetReply c w := (REDIS_OK, mkReply REDIS_REPLY_NIL 0 [] [], c, w)
|}.

#[local] Instance demo_hiredis_laws : HiredisLaws demo_hiredis.
Proof. by constructor. Qed.

Definition demo_ctx : redisContext := mkCtx 0 [] true [].
Definition demo_client : RedisClientImpl :=
  mkRedis (Some demo_ctx) None NatsuError_new (lit "r") (mkConfig (lit "h") 6379 5) [].

Lemma replies_interpreted_witness :
  exists r', sadd (lit "k") (lit "v") NatsuError_new demo_client 0%nat = Ret (3, NatsuError_new, r', 1%nat).
Proof.
  apply (replies_interpreted demo_ctx demo_client 0%nat (mkReply REDIS_REPLY_INTEGER 3 [] []) demo_ctx 1%nat
    NatsuError_new (lit "k") (lit "v")); [done|reflexivity].
Defined.

Lemma set_sends_nothing_witness :
  exists r', set_ (lit "k") (lit "v") NatsuError_new demo_client 0%nat = Ret (true, mkNatsuError 0 [], r', 0%nat).
Proof.
  destruct (set_sends_nothing demo_ctx demo_client 0%nat (lit "k") (lit "v") NatsuError_new) as (r' & Hr & _);
    [done|]. by exists r'.
Defined.

Definition demo_config : bytes := map (fun c => if Ascii.eqb c "'" then QUOTE else c)
  (lit "{ 'server_addr' : '127.0.0.1', 'server_port' : 6379 }").

Lemma redis_configured_witness :
  exists r, RedisClientImpl_new (lit "r") demo_config = Ret r /\ conntimeout (redis_config_ r) = 5.
Proof.
  destruct (redis_configured (D := text_double) (lit "r") demo_config (lit "127.0.0.1") (lit "6379") None)
    as (r & Hr & _ & _ & Ht & _); [reflexivity|]. exists r. split; [exact Hr|exact Ht].
Defined.

Definition demo_manager : manager := [(lit "r", mkPool 2 [demo_client])].

Lemma pool_conserved_witness :
  pool_ok ([(lit "r", mkPool 2 [])], [demo_client; demo_client]).
Proof.
  apply (pool_conserved (demo_manager, [demo_client])).
  - split; [by repeat constructor|]. intros name p Hp. cbn [fst snd demo_manager] in *.
    apply map_find_elem in Hp. apply list_elem_of_singleton in Hp as [= -> ->]. split; [by repeat constructor|].
    rewrite filter_cons, decide_True by done. reflexivity.
  - eapply star_step; [|apply star_refl]. apply (pool_get (lit "r")). reflexivity.
Defined.
