(* ===== verification/SpinLock.v ===== *)
(** * The spin lock

    [LFLock] of [libgo/spinlock.h], which guards the queues, the block objects,
    the timers and the tables of libgo.  The other files treat a section under
    such a lock as one step; here it is a sequence of small steps between
    [lock] and [unlock], interleaved with the other threads. *)
From S2P Require Import Prelude.

(** [std::atomic_flag]: the old value, and the flag afterwards. *)
Definition test_and_set (lck : bool) : bool * bool := (lck, true).

(** The flag after the constructor and after [unlock]; one turn of the loop in
    [lock]: whether it goes on; [try_lock]: its result. *)
Definition LFLock_new : bool := false.
Definition lock_turn (lck : bool) : bool * bool := test_and_set lck.
Definition LFLock_try_lock (lck : bool) : bool * bool := let '(old, lck) := test_and_set lck in (negb old, lck).
Definition LFLock_unlock (lck : bool) : bool := false.

Section Sections.
Context {D : Type}.
Implicit Types (d : D).

(** A section is the list of its accesses to the data behind the lock. *)
Definition section : Type := list (D -> D).
Definition run_section (sec : section) (d : D) : D := fold_left (fun d f => f d) sec d.
Definition run_sections (secs : list section) (d : D) : D := fold_left (fun d sec => run_section sec d) secs d.

Inductive thread_at : Type := Outside | Spinning (sec : section) | Inside (left : section).

(** The flag, the data, where the threads are, and the sections entered so far in
    order. *)
Record spin_state : Type := mkSpin { lck : bool; data : D; at_ : nat -> thread_at; entered : list section }.
Definition spin_start (d : D) : spin_state := mkSpin LFLock_new d (fun _ => Outside) [].

Definition move (t : nat) (p : thread_at) (a : nat -> thread_at) : nat -> thread_at :=
  fun u => if decide (u = t) then p else a u.

Inductive spin_step : spin_state -> spin_state -> Prop :=
| sp_lock t sec s : at_ s t = Outside ->
    spin_step s (mkSpin (lck s) (data s) (move t (Spinning sec) (at_ s)) (entered s))
| sp_turn t sec s go l : at_ s t = Spinning sec -> lock_turn (lck s) = (go, l) ->
    spin_step s (mkSpin l (data s) (if go then at_ s else move t (Inside sec) (at_ s))
                   (if go then entered s else entered s ++ [sec]))
| sp_try t sec s ok l : at_ s t = Outside -> LFLock_try_lock (lck s) = (ok, l) ->
    spin_step s (mkSpin l (data s) (if ok then move t (Inside sec) (at_ s) else at_ s)
                   (if ok then entered s ++ [sec] else entered s))
| sp_access t f left s : at_ s t = Inside (f :: left) ->
    spin_step s (mkSpin (lck s) (f (data s)) (move t (Inside left) (at_ s)) (entered s))
| sp_unlock t s : at_ s t = Inside [] ->
    spin_step s (mkSpin (LFLock_unlock (lck s)) (data s) (move t Outside (at_ s)) (entered s)).

(** ** The invariant *)

Definition free (s : spin_state) (d0 : D) : Prop :=
  lck s = false /\ (forall t left, at_ s t <> Inside left) /\ data s = run_sections (entered s) d0.
Definition held (s : spin_state) (d0 : D) : Prop :=
  lck s = true /\ exists t left, at_ s t = Inside left /\ (forall u l, at_ s u = Inside l -> u = t) /\
    run_section left (data s) = run_sections (entered s) d0.
Definition spin_ok (d0 : D) (s : spin_state) : Prop := free s d0 \/ held s d0.

Lemma spin_move_same t p a : move t p a t = p.
Proof. unfold move. by rewrite decide_True. Qed.
Lemma spin_move_other t p a u : u <> t -> move t p a u = a u.
Proof. intros H. unfold move. by rewrite decide_False. Qed.
Lemma run_sections_snoc secs sec d : run_sections (secs ++ [sec]) d = run_section sec (run_sections secs d).
Proof. unfold run_sections. by rewrite fold_left_app. Qed.

(** Moving a thread that is not inside, to a place outside. *)
Lemma not_inside t p a u l : (forall l, p <> Inside l) -> move t p a u = Inside l -> u <> t /\ a u = Inside l.
Proof. intros Hp. unfold move. destruct (decide (u = t)) as [->|Hne]; [intros ->; by destruct (Hp l)|done]. Qed.

Lemma enter_ok d0 t sec s l : spin_ok d0 s -> lck s = false -> l = true ->
  spin_ok d0 (mkSpin l (data s) (move t (Inside sec) (at_ s)) (entered s ++ [sec])).
Proof.
  intros [(_ & Hno & Hd)|(Ht & _)] Hl ->; [|congruence]. right. split; [done|]. exists t, sec. cbn.
  split; [apply spin_move_same|]. split; [|by rewrite run_sections_snoc, Hd].
  intros u l. destruct (decide (u = t)) as [->|Hne]; [done|]. rewrite spin_move_other by done. intros H. by destruct (Hno _ _ H).
Qed.

Lemma spin_step_ok d0 s s' : spin_step s s' -> spin_ok d0 s -> spin_ok d0 s'.
Proof.
  intros Hs Hok. destruct Hs as [t sec s Ht|t sec s go l Ht Hl|t sec s ok l Ht Hl|t f left s Ht|t s Ht].
  - destruct Hok as [(Hl & Hno & Hd)|(Hl & t1 & left & H1 & H2 & H3)].
    + left. split_and!; cbn; try done. intros u l H. apply not_inside in H as [_ H]; [by destruct (Hno _ _ H)|done].
    + right. split; [done|]. exists t1, left. cbn. rewrite spin_move_other by congruence. split_and!; try done.
      intros u l H. apply not_inside in H as [_ H]; [by apply (H2 _ _ H)|done].
  - unfold lock_turn, test_and_set in Hl. injection Hl as <- <-. destruct (lck s) eqn:El; [|by apply enter_ok].
    rewrite <- El. by destruct s.
  - unfold LFLock_try_lock, test_and_set in Hl. injection Hl as <- <-. destruct (lck s) eqn:El; [|by apply enter_ok].
    cbn [negb]. rewrite <- El. by destruct s.
  - destruct Hok as [(_ & Hno & _)|(Hl & t1 & left1 & H1 & H2 & H3)]; [by destruct (Hno _ _ Ht)|].
    assert (t = t1) as -> by (by eapply H2). rewrite H1 in Ht. injection Ht as ->.
    right. split; [done|]. exists t1, left. cbn. split_and!; [apply spin_move_same| |done].
    intros u l. destruct (decide (u = t1)) as [->|Hne]; [done|]. rewrite spin_move_other by done. apply H2.
  - destruct Hok as [(_ & Hno & _)|(Hl & t1 & left1 & H1 & H2 & H3)]; [by destruct (Hno _ _ Ht)|].
    assert (t = t1) as -> by (by eapply H2). rewrite H1 in Ht. injection Ht as ->.
    left. split_and!; cbn; try done. intros u l H. apply not_inside in H as [Hne H]; [|done]. by apply Hne, (H2 _ _ H).
Qed.

Lemma spin_reached d0 s : star spin_step (spin_start d0) s -> spin_ok d0 s.
Proof.
  intros H. eapply star_invariant; [|exact H|]; [intros ??; apply spin_step_ok|]. left. by split_and!.
Qed.

(** ** Nobody waits for ever for a thread that is inside *)

Lemma leaves t left : forall s, at_ s t = Inside left ->
  exists s', star spin_step s s' /\ lck s' = false /\ at_ s' t = Outside /\ entered s' = entered s /\
    (forall u, u <> t -> at_ s' u = at_ s u).
Proof.
  induction left as [|f left IH]; intros s Ht.
  - eexists. split; [apply star_one, (sp_unlock t s Ht)|]. cbn. split_and!; try done; [apply spin_move_same|].
    intros u Hu. by apply spin_move_other.
  - pose proof (sp_access t f left s Ht) as Hs. destruct (IH (mkSpin (lck s) (f (data s)) (move t (Inside left) (at_ s)) (entered s)) (spin_move_same t _ _)) as (s' & H1 & H2 & H3 & H4 & H5).
    eexists. split; [eapply star_step; [exact Hs|exact H1]|]. split_and!; try done.
    intros u Hu. rewrite H5 by done. cbn. by apply spin_move_other.
Qed.

(** C24: Sections under the lock are atomic.  In every interleaving of threads that
    lock, try to lock, access the data and unlock: at most one thread is inside
    its section; whenever none is, the data is what running the sections
    entered, whole and one after the other, gives, and while one is inside,
    what is left of it leads there; [try_lock] succeeds exactly when no thread
    is inside; and a thread that spins can get in, after the thread inside has
    left, in finitely many steps of the two. *)
Theorem sections_atomic d0 s :
  star spin_step (spin_start d0) s ->
  (forall t u l l', at_ s t = Inside l -> at_ s u = Inside l' -> t = u) /\
  ((forall t l, at_ s t <> Inside l) -> data s = run_sections (entered s) d0) /\
  (forall t left, at_ s t = Inside left -> run_section left (data s) = run_sections (entered s) d0) /\
  (fst (LFLock_try_lock (lck s)) = true <-> forall t l, at_ s t <> Inside l) /\
  (forall t sec, at_ s t = Spinning sec -> exists s', star spin_step s s' /\ at_ s' t = Inside sec /\
     entered s' = entered s ++ [sec]).
Proof.
  intros H. pose proof (spin_reached d0 s H) as Hok. split_and!.
  - intros t u l l' Ht Hu. destruct Hok as [(_ & Hno & _)|(_ & t1 & left & _ & H2 & _)]; [by destruct (Hno _ _ Ht)|].
    by rewrite (H2 _ _ Ht), (H2 _ _ Hu).
  - intros Hno. destruct Hok as [(_ & _ & Hd)|(_ & t1 & left & H1 & _)]; [done|by destruct (Hno _ _ H1)].
  - intros t left Ht. destruct Hok as [(_ & Hno & _)|(_ & t1 & left1 & H1 & H2 & H3)]; [by destruct (Hno _ _ Ht)|].
    assert (t = t1) as -> by (by eapply H2). rewrite H1 in Ht. by injection Ht as <-.
  - destruct Hok as [(Hl & Hno & _)|(Hl & t1 & left & H1 & _)]; rewrite Hl; cbn; [done|].
    split; [done|]. intros Hno. by destruct (Hno _ _ H1).
  - intros t sec Ht.
    assert (exists s1, star spin_step s s1 /\ lck s1 = false /\ at_ s1 t = Spinning sec /\ entered s1 = entered s)
      as (s1 & Hs1 & Hl1 & Ht1 & He1).
    { destruct Hok as [(Hl & _)|(_ & t1 & left & H1 & _)]; [exists s; split; [apply star_refl|done]|].
      destruct (leaves t1 left s H1) as (s1 & A & B & C & E & F). exists s1. split_and!; try done.
      rewrite F; [done|]. intros ->. congruence. }
    eexists. split; [eapply star_trans; [exact Hs1|]; apply star_one, (sp_turn t sec s1 false true Ht1); by rewrite Hl1|].
    cbn. split; [apply spin_move_same|by rewrite He1].
Qed.
End Sections.

(** ** Example: a thread inside and one that spins *)
Definition demo_section : section (D := Z) := [Z.add 1; Z.mul 2].
Lemma demo_spin : exists s : spin_state (D := Z), star spin_step (spin_start 5) s /\
  at_ s 1%nat = Inside [Z.mul 2] /\ at_ s 2%nat = Spinning demo_section /\ data s = 6.
Proof.
  eexists. split.
  - eapply star_step; [apply (sp_lock 1 demo_section); reflexivity|].
    eapply star_step; [apply (sp_lock 2 demo_section); reflexivity|].
    eapply star_step; [apply (sp_turn 1 demo_section _ false true); reflexivity|].
    eapply star_step; [apply (sp_access 1 (Z.add 1) [Z.mul 2]); reflexivity|]. apply star_refl.
  - split_and!; reflexivity.
Qed.

Lemma sections_atomic_witness : exists s s' : spin_state (D := Z), star spin_step (spin_start 5) s /\
  data s = 6 /\ run_section [Z.mul 2] (data s) = run_sections (entered s) 5 /\
  star spin_step s s' /\ at_ s' 2%nat = Inside demo_section.
Proof.
  destruct demo_spin as (s & Hs & H1 & H2 & H3).
  destruct (sections_atomic 5 s Hs) as (_ & _ & A & _ & B). destruct (B _ _ H2) as (s' & C & E & _).
  exists s, s'. split; [exact Hs|]. split; [exact H3|]. split; [exact (A _ _ H1)|]. split; [exact C|exact E].
Defined.
