(* ===== verification/RefCount.v ===== *)
(** * Reference counts

    The half-intrusive counts of [libgo/util.h]: [RefObject] counts its owners in
    [reference_]; an owner is a raw holder (a [TSQueue], a timer, a [RefGuard]) or
    the control block of a [std::shared_ptr] made by [MakeShared] or
    [SharedFromThis], whose deleter calls [DecrementRef].  Several control blocks
    may own the same object.  The decrement and the [delete] that follows it, and
    the last [shared_ptr]'s end and the call of its deleter, are separate steps;
    any thread may act in between. *)
From S2P Require Import Prelude.

(** A control block of the standard library. *)
Record block : Type := mkBlock { b_obj : nat; strong : Z; weak : Z; disposed : bool }.

(** [objs] are the objects that are not deleted with their [reference_], [raws]
    the raw holders of each, [dying] the objects whose count has come to 0 and
    whose [delete] is to follow. *)
Record refs : Type := mkRefs { objs : gmap nat Z; raws : gmap nat Z; blocks : list block; dying : gset nat }.
Definition refs_new : refs := mkRefs ∅ ∅ [] ∅.
Definition raw (o : nat) (s : refs) : Z := default 0 (raws s !! o).
Definition set_raw (o : nat) (n : Z) (s : refs) : refs := mkRefs (objs s) (<[o := n]> (raws s)) (blocks s) (dying s).
Definition set_blocks (l : list block) (s : refs) : refs := mkRefs (objs s) (raws s) l (dying s).

(** [RefObject()], [IncrementRef], [DecrementRef] and its [delete this]. *)
Definition RefObject_new (o : nat) (s : refs) : refs := mkRefs (<[o := 1]> (objs s)) (raws s) (blocks s) (dying s).
Definition IncrementRef (o : nat) (s : refs) : outcome refs :=
  match objs s !! o with
  | None => Undef
  | Some n => Ret (mkRefs (<[o := i64 (n + 1)]> (objs s)) (raws s) (blocks s) (dying s))
  end.
Definition DecrementRef (o : nat) (s : refs) : outcome refs :=
  match objs s !! o with
  | None => Undef
  | Some n =>
      let n' := i64 (n - 1) in
      Ret (mkRefs (<[o := n']> (objs s)) (raws s) (blocks s) (if n' =? 0 then {[o]} ∪ dying s else dying s))
  end.
Definition delete_this (o : nat) (s : refs) : outcome refs :=
  match objs s !! o with
  | None => Undef
  | Some _ => Ret (mkRefs (delete o (objs s)) (raws s) (blocks s) (dying s ∖ {[o]}))
  end.

(** [std::shared_ptr<T>(ptr, deleter)] in [SharedFromThis] and [MakeShared]. *)
Definition shared_ptr_new (o : nat) (s : refs) : refs := set_blocks (blocks s ++ [mkBlock o 1 0 false]) s.
Definition SharedFromThis (o : nat) (s : refs) : outcome refs := s ← IncrementRef o s; Ret (shared_ptr_new o s).
Definition MakeShared (o : nat) (s : refs) : refs := shared_ptr_new o (RefObject_new o s).

(** The deleter of control block [c]. *)
Definition run_deleter (c : nat) (b : block) (s : refs) : outcome refs :=
  DecrementRef (b_obj b) (set_blocks (<[c := mkBlock (b_obj b) (strong b) (weak b) true]> (blocks s)) s).

(** [RefGuard]'s constructor and destructor, and the functions [IncrementRef] and
    [DecrementRef] on pointers: a raw holder more, or less. *)
Definition hold (o : nat) (s : refs) : outcome refs := s ← IncrementRef o s; Ret (set_raw o (raw o s + 1) s).
Definition release (o : nat) (s : refs) : outcome refs := DecrementRef o (set_raw o (raw o s - 1) s).

(** Whether a block still owns a reference of [o]. *)
Definition holds (o : nat) (b : block) : bool := bool_decide (b_obj b = o) && negb (disposed b).
Definition holders (o : nat) (l : list block) : Z := sz (List.filter (holds o) l).
Definition owners (o : nat) (s : refs) : Z := raw o s + holders o (blocks s).

(** Somebody has a reference to use: a raw holder, or a [shared_ptr]. *)
Definition owned (o : nat) (s : refs) : Prop :=
  0 < raw o s \/ exists c b, blocks s !! c = Some b /\ b_obj b = o /\ 0 < strong b.

(** What programs do.  A reference is taken only by one who has one, and given up
    only by its holder; there is no room for 2^63 holders. *)
Inductive refs_step : refs -> outcome refs -> Prop :=
| r_new s o : objs s !! o = None -> refs_step s (Ret (set_raw o 1 (RefObject_new o s)))
| r_make s o : objs s !! o = None -> refs_step s (Ret (MakeShared o s))
| r_hold s o : owned o s -> owners o s + 1 < 2 ^ 63 -> refs_step s (hold o s)
| r_release s o : 0 < raw o s -> refs_step s (release o s)
| r_shared s o : owned o s -> owners o s + 1 < 2 ^ 63 -> refs_step s (SharedFromThis o s)
| r_copy s c b : blocks s !! c = Some b -> 0 < strong b ->
    refs_step s (Ret (set_blocks (<[c := mkBlock (b_obj b) (strong b + 1) (weak b) (disposed b)]> (blocks s)) s))
| r_drop s c b : blocks s !! c = Some b -> 0 < strong b ->
    refs_step s (Ret (set_blocks (<[c := mkBlock (b_obj b) (strong b - 1) (weak b) (disposed b)]> (blocks s)) s))
| r_weak s c b : blocks s !! c = Some b -> 0 < strong b ->
    refs_step s (Ret (set_blocks (<[c := mkBlock (b_obj b) (strong b) (weak b + 1) (disposed b)]> (blocks s)) s))
| r_lock s c b : blocks s !! c = Some b -> 0 < weak b ->
    refs_step s (Ret (set_blocks (<[c := mkBlock (b_obj b) (if strong b =? 0 then 0 else strong b + 1) (weak b) (disposed b)]> (blocks s)) s))
| r_unweak s c b : blocks s !! c = Some b -> 0 < weak b ->
    refs_step s (Ret (set_blocks (<[c := mkBlock (b_obj b) (strong b) (weak b - 1) (disposed b)]> (blocks s)) s))
| r_dispose s c b : blocks s !! c = Some b -> strong b = 0 -> disposed b = false -> refs_step s (run_deleter c b s)
| r_delete s o : o ∈ dying s -> refs_step s (delete_this o s).

Definition refs_run (s s' : refs) : Prop := refs_step s (Ret s').

(** ** The invariant *)

Record refs_ok (s : refs) : Prop := {
  ro_raw o : 0 <= raw o s;
  ro_live o n : objs s !! o = Some n -> n = owners o s /\ n < 2 ^ 63 /\ (o ∈ dying s <-> n = 0);
  ro_dead o : objs s !! o = None -> owners o s = 0 /\ o ∉ dying s;
  ro_block c b : blocks s !! c = Some b -> 0 <= strong b /\ (disposed b = true -> strong b = 0) }.

Lemma holders_nonneg o l : 0 <= holders o l.
Proof. unfold holders. lia. Qed.
Lemma holders_app o l b : holders o (l ++ [b]) = holders o l + (if holds o b then 1 else 0).
Proof. unfold holders. rewrite List.filter_app, length_app. cbn. destruct (holds o b); cbn; lia. Qed.
Lemma holders_insert o l c b b' : l !! c = Some b ->
  holders o (<[c := b']> l) = holders o l - (if holds o b then 1 else 0) + (if holds o b' then 1 else 0).
Proof.
  intros Hc. unfold holders. rewrite <- (take_drop_middle l c b Hc) at 2.
  rewrite insert_take_drop by by eapply lookup_lt_Some. rewrite !List.filter_app, !length_app. cbn.
  destruct (holds o b), (holds o b'); cbn; lia.
Qed.
Lemma holders_pos o l c b : l !! c = Some b -> holds o b = true -> 0 < holders o l.
Proof.
  intros Hc Hb. unfold holders. rewrite <- (take_drop_middle l c b Hc), List.filter_app, length_app. cbn. rewrite Hb. cbn. lia.
Qed.

(** An owned object is there, with a positive count. *)
Lemma owned_live o s : refs_ok s -> owned o s -> exists n, objs s !! o = Some n /\ 0 < n /\ n = owners o s /\ n < 2 ^ 63.
Proof.
  intros H Ho. assert (0 < owners o s) as Hp.
  { pose proof (ro_raw s H o). pose proof (holders_nonneg o (blocks s)). unfold owners.
    destruct Ho as [Ho|(c & b & Hc & Hb & Hs)]; [lia|]. destruct (ro_block s H c b Hc) as [_ Hd].
    pose proof (holders_pos o _ c b Hc) as Hh. unfold holds in Hh. rewrite Hb, bool_decide_eq_true_2 in Hh by done.
    destruct (disposed b); [rewrite Hd in Hs by done; lia|]. specialize (Hh eq_refl). lia. }
  destruct (objs s !! o) as [n|] eqn:E; [|destruct (ro_dead s H o E); lia].
  destruct (ro_live s H o n E) as (-> & Hn & _). by eexists.
Qed.

(** A step that concerns the count of one object. *)
Lemma refs_ok_one o n s s' : refs_ok s ->
  (forall x, x <> o -> objs s' !! x = objs s !! x /\ raw x s' = raw x s /\ holders x (blocks s') = holders x (blocks s) /\
     (x ∈ dying s' <-> x ∈ dying s)) ->
  objs s' !! o = Some n -> n = owners o s' -> n < 2 ^ 63 -> (o ∈ dying s' <-> n = 0) -> 0 <= raw o s' ->
  (forall c b, blocks s' !! c = Some b -> 0 <= strong b /\ (disposed b = true -> strong b = 0)) -> refs_ok s'.
Proof.
  intros H Hx Ho Hn Hb Hd Hr Hbl. constructor; [| | |done].
  - intros x. destruct (decide (x = o)) as [->|Hne]; [done|]. destruct (Hx x Hne) as (_ & -> & _). apply H.
  - intros x m. destruct (decide (x = o)) as [->|Hne]; [rewrite Ho; by intros [= <-]|].
    destruct (Hx x Hne) as (-> & E1 & E2 & E3). intros Hm. destruct (ro_live s H x m Hm) as (K1 & K2 & K3).
    unfold owners in *. rewrite E1, E2, E3. done.
  - intros x. destruct (decide (x = o)) as [->|Hne]; [by rewrite Ho|].
    destruct (Hx x Hne) as (-> & E1 & E2 & E3). intros Hm. destruct (ro_dead s H x Hm) as (K1 & K2).
    unfold owners in *. rewrite E1, E2, E3. done.
Qed.

(** A step that changes the counts of a block only. *)
Lemma refs_ok_block c b st wk s : refs_ok s -> blocks s !! c = Some b -> 0 <= st -> (strong b = 0 -> st = 0) ->
  refs_ok (set_blocks (<[c := mkBlock (b_obj b) st wk (disposed b)]> (blocks s)) s).
Proof.
  intros H Hc Hs Hd.
  assert (forall x, holders x (<[c := mkBlock (b_obj b) st wk (disposed b)]> (blocks s)) = holders x (blocks s)) as Hh.
  { intros x. rewrite (holders_insert x _ c b) by done. unfold holds. cbn. lia. }
  constructor; cbn; unfold owners, raw in *; cbn; try setoid_rewrite Hh; try apply H.
  intros c' b' Hb'. destruct (decide (c' = c)) as [->|Hne].
  - rewrite list_lookup_insert_eq in Hb' by by eapply lookup_lt_Some. injection Hb' as <-. cbn. split; [done|].
    intros E. apply Hd. by apply (proj2 (ro_block s H c b Hc)).
  - rewrite list_lookup_insert_ne in Hb' by done. by apply (ro_block s H c').
Qed.

Lemma blocks_app_ok s b : refs_ok s -> 0 <= strong b -> disposed b = false ->
  forall c b', (blocks s ++ [b]) !! c = Some b' -> 0 <= strong b' /\ (disposed b' = true -> strong b' = 0).
Proof.
  intros H Hs Hd c b' Hc. apply lookup_snoc_Some in Hc as [[_ Hc]|[_ <-]]; [by apply (ro_block s H c)|]. by rewrite Hd.
Qed.
Lemma holds_ne x o st wk d : x <> o -> holds x (mkBlock o st wk d) = false.
Proof. intros H. unfold holds. cbn. by rewrite bool_decide_eq_false_2. Qed.
Lemma holds_own o st wk : holds o (mkBlock o st wk false) = true.
Proof. unfold holds. cbn. by rewrite bool_decide_eq_true_2. Qed.
Lemma raw_set o x n s : raw x (set_raw o n s) = if decide (x = o) then n else raw x s.
Proof. unfold raw. cbn. case_decide as E; [subst; by rewrite lookup_insert_eq|by rewrite lookup_insert_ne]. Qed.

(** Making an object, with its first owner. *)
Lemma new_ok s o : refs_ok s -> objs s !! o = None -> refs_ok (set_raw o 1 (RefObject_new o s)) /\ refs_ok (MakeShared o s).
Proof.
  intros H Ho. destruct (ro_dead s H o Ho) as [Hw Hd]. pose proof (ro_raw s H o) as Hr. pose proof (holders_nonneg o (blocks s)) as Hp.
  unfold owners in Hw. split; apply (refs_ok_one o 1 s); try done.
  - intros x Hne. rewrite raw_set, decide_False by done. cbn. by rewrite lookup_insert_ne.
  - cbn. by rewrite lookup_insert_eq.
  - unfold owners. rewrite raw_set, decide_True by done. cbn. lia.
  - rewrite raw_set, decide_True by done. lia.
  - apply H.
  - intros x Hne. cbn. rewrite lookup_insert_ne by done. rewrite holders_app, holds_ne by done. split_and!; [done|done|lia|done].
  - cbn. by rewrite lookup_insert_eq.
  - unfold owners. cbn. rewrite holders_app, holds_own. unfold raw in *. cbn. lia.
  - apply (blocks_app_ok s); [done|cbn; lia|done].
Qed.

(** Taking a reference. *)
Lemma take_ok s o : refs_ok s -> owned o s -> owners o s + 1 < 2 ^ 63 ->
  (exists s', hold o s = Ret s' /\ refs_ok s') /\ (exists s', SharedFromThis o s = Ret s' /\ refs_ok s').
Proof.
  intros H Hw Hb. destruct (owned_live o s H Hw) as (n & Hn & Hp & He & _).
  destruct (ro_live s H o n Hn) as (_ & _ & Hd). pose proof (ro_raw s H o) as Hr.
  unfold hold, SharedFromThis, IncrementRef. rewrite Hn. cbn. rewrite i64_small by lia.
  split; eexists; (split; [reflexivity|]); apply (refs_ok_one o (n + 1) s); try done; try lia.
  - intros x Hne. rewrite raw_set, decide_False by done. cbn. by rewrite lookup_insert_ne.
  - cbn. by rewrite lookup_insert_eq.
  - unfold owners in *. rewrite raw_set, decide_True by done. cbn. unfold raw in *. cbn. lia.
  - cbn. rewrite Hd. lia.
  - rewrite raw_set, decide_True by done. unfold raw in *. cbn. lia.
  - apply H.
  - intros x Hne. cbn. rewrite lookup_insert_ne by done. rewrite holders_app, holds_ne by done. split_and!; [done|done|lia|done].
  - cbn. by rewrite lookup_insert_eq.
  - unfold owners in *. cbn. rewrite holders_app, holds_own. unfold raw in *. cbn. lia.
  - cbn. rewrite Hd. lia.
  - apply (blocks_app_ok s); [done|cbn; lia|done].
Qed.

(** Giving one up: the owner is gone from [s1] already, the count follows. *)
Lemma give_ok s s1 o n : refs_ok s -> objs s !! o = Some n -> 0 < n ->
  objs s1 = objs s -> dying s1 = dying s -> owners o s1 = n - 1 -> 0 <= raw o s1 ->
  (forall x, x <> o -> raw x s1 = raw x s /\ holders x (blocks s1) = holders x (blocks s)) ->
  (forall c b, blocks s1 !! c = Some b -> 0 <= strong b /\ (disposed b = true -> strong b = 0)) ->
  exists s', DecrementRef o s1 = Ret s' /\ refs_ok s'.
Proof.
  intros H Hn Hp E1 E2 Hw Hr Hx Hb. destruct (ro_live s H o n Hn) as (_ & Hlt & Hd).
  unfold DecrementRef. rewrite E1, Hn. cbn zeta. rewrite i64_small by lia. eexists. split; [reflexivity|].
  apply (refs_ok_one o (n - 1) s); try done; cbn.
  - intros x Hne. rewrite lookup_insert_ne by done. destruct (Hx x Hne) as [K1 K2]. rewrite E2.
    split_and!; [done|exact K1|exact K2|]. destruct (_ =? 0); set_solver.
  - by rewrite lookup_insert_eq.
  - lia.
  - rewrite E2. destruct (n - 1 =? 0) eqn:E; zbool; [set_solver|]. rewrite Hd. lia.
Qed.

Lemma release_ok s o : refs_ok s -> 0 < raw o s -> exists s', release o s = Ret s' /\ refs_ok s'.
Proof.
  intros H Hr. destruct (owned_live o s H (or_introl Hr)) as (n & Hn & Hp & He & _). unfold release.
  apply (give_ok s _ o n); try done; unfold owners in *; rewrite ?raw_set, ?decide_True by done; cbn; try lia; [|apply H].
  intros x Hne. by rewrite raw_set, decide_False.
Qed.

Lemma dispose_ok s c b : refs_ok s -> blocks s !! c = Some b -> strong b = 0 -> disposed b = false ->
  exists s', run_deleter c b s = Ret s' /\ refs_ok s'.
Proof.
  intros H Hc Hs Hd. unfold run_deleter.
  assert (holds (b_obj b) b = true) as Hh by (unfold holds; by rewrite bool_decide_eq_true_2, Hd).
  pose proof (holders_pos _ _ c b Hc Hh) as Hp. pose proof (ro_raw s H (b_obj b)) as Hr.
  destruct (objs s !! b_obj b) as [n|] eqn:E; [|destruct (ro_dead s H _ E) as [K _]; unfold owners in K; lia].
  destruct (ro_live s H _ n E) as (Hn & _ & _). unfold owners in Hn.
  assert (forall st wk x, holds x (mkBlock (b_obj b) st wk true) = false) as Ht by (intros; unfold holds; apply andb_false_r).
  apply (give_ok s _ (b_obj b) n); try done; unfold owners; cbn.
  - lia.
  - rewrite (holders_insert _ _ c b), Hh, Ht by done. unfold raw in *. cbn. lia.
  - intros x Hne. split; [done|]. rewrite (holders_insert _ _ c b), Ht by done. destruct b as [o st wk d]. cbn in *.
    rewrite holds_ne by done. lia.
  - intros c' b' Hb'. destruct (decide (c' = c)) as [->|Hne].
    + rewrite list_lookup_insert_eq in Hb' by by eapply lookup_lt_Some. injection Hb' as <-. cbn. rewrite Hs. done.
    + rewrite list_lookup_insert_ne in Hb' by done. by apply (ro_block s H c').
Qed.

Lemma delete_ok s o : refs_ok s -> o ∈ dying s -> exists s', delete_this o s = Ret s' /\ refs_ok s'.
Proof.
  intros H Ho. unfold delete_this. destruct (objs s !! o) as [n|] eqn:E; [|by destruct (ro_dead s H o E)].
  destruct (ro_live s H o n E) as (Hn & _ & Hd). pose proof (proj1 Hd Ho) as Hz. eexists. split; [reflexivity|].
  constructor; cbn; [apply H| | |apply H]; intros x.
  - intros m. rewrite lookup_delete_Some. intros [Hne Hm]. destruct (ro_live s H x m Hm) as (K1 & K2 & K3).
    split_and!; [done|done|]. rewrite <- K3. set_solver.
  - rewrite lookup_delete_None. intros [<-|Hx]; [split; [|set_solver]; unfold owners in *; cbn; unfold raw in *; cbn; lia|].
    destruct (ro_dead s H x Hx) as [K1 K2]. split; [done|set_solver].
Qed.

Lemma refs_step_ok s r : refs_step s r -> refs_ok s -> exists s', r = Ret s' /\ refs_ok s'.
Proof.
  intros Hs H. destruct Hs as [s o Ho|s o Ho|s o Hw Hb|s o Hr|s o Hw Hb|s c b Hc Hp|s c b Hc Hp|s c b Hc Hp|s c b Hc Hp|s c b Hc Hp
                              |s c b Hc Hp Hd|s o Ho].
  - eexists. split; [done|]. by apply new_ok.
  - eexists. split; [done|]. by apply new_ok.
  - by apply take_ok.
  - by apply release_ok.
  - by apply take_ok.
  - eexists. split; [done|]. apply refs_ok_block; [done|done|lia|lia].
  - eexists. split; [done|]. apply refs_ok_block; [done|done|lia|lia].
  - eexists. split; [done|]. apply refs_ok_block; [done|done|lia|lia].
  - eexists. split; [done|]. pose proof (ro_block s H c b Hc) as [K _].
    destruct (strong b =? 0) eqn:E; zbool; apply refs_ok_block; try done; lia.
  - eexists. split; [done|]. pose proof (ro_block s H c b Hc) as [K _]. by apply refs_ok_block.
  - by apply dispose_ok.
  - by apply delete_ok.
Qed.

Lemma refs_new_ok : refs_ok refs_new.
Proof. constructor; [by intros o|by intros o n|by intros o; split|by intros c b]. Qed.
Lemma refs_reachable_ok s : star refs_run refs_new s -> refs_ok s.
Proof.
  intros Hr. eapply star_invariant; [|exact Hr|apply refs_new_ok]. intros a b Hs Ha.
  destruct (refs_step_ok a _ Hs Ha) as (b' & [= <-] & Hb). done.
Qed.

(** C23: Reference counting is safe and complete in every interleaving:
    (1) nothing is done to an object that was deleted: every step finds its object,
    so that also no object is deleted twice;
    (2) an object somebody owns is not deleted, and no [delete] of it is under
    way, whether it is owned by raw holders or by one of several control blocks;
    (3) when no deleter and no [delete] is under way, an object that is still
    there is owned: nothing leaks. *)
Theorem references_safe s : star refs_run refs_new s ->
  (forall r, refs_step s r -> exists s', r = Ret s') /\
  (forall o, owned o s -> is_Some (objs s !! o) /\ o ∉ dying s) /\
  ((forall c b, blocks s !! c = Some b -> strong b = 0 -> disposed b = true) -> dying s = ∅ ->
   forall o, is_Some (objs s !! o) -> owned o s).
Proof.
  intros Hr. pose proof (refs_reachable_ok s Hr) as H. split_and!.
  - intros r Hs. destruct (refs_step_ok s r Hs H) as (s' & -> & _). by eexists.
  - intros o Ho. destruct (owned_live o s H Ho) as (n & Hn & Hp & _ & _). split; [by eexists|].
    rewrite (proj2 (proj2 (ro_live s H o n Hn))). lia.
  - intros Hd He o [n Hn]. destruct (ro_live s H o n Hn) as (Hw & _ & Hz). rewrite He in Hz.
    assert (n <> 0) as Hnz by set_solver. unfold owners in Hw. pose proof (ro_raw s H o).
    destruct (decide (0 < raw o s)) as [Hp|Hp]; [by left|right]. pose proof (holders_nonneg o (blocks s)).
    unfold holders in *. destruct (List.filter (holds o) (blocks s)) as [|b l] eqn:E; [cbn in *; lia|].
    assert (b ∈ List.filter (holds o) (blocks s)) as Hin by (rewrite E; left).
    apply list_elem_of_In, List.filter_In in Hin as [Hin Hb]. apply list_elem_of_In, list_elem_of_lookup in Hin as [c Hc].
    unfold holds in Hb. apply andb_prop in Hb as [Hb1 Hb2]. apply bool_decide_eq_true in Hb1.
    exists c, b. split_and!; [done|done|]. pose proof (ro_block s H c b Hc) as [K _].
    destruct (decide (strong b = 0)) as [Hs|Hs]; [rewrite (Hd c b Hc Hs) in Hb2; done|lia].
Qed.

Lemma run_by s r s' : refs_step s r -> r = Ret s' -> refs_run s s'.
Proof. by intros H ->. Qed.

(** An object with two control blocks and a raw holder: the first [shared_ptr]
    goes, its deleter runs, and the object is still owned. *)
Definition demo_refs : refs :=
  mkRefs {[0%nat := 2]} {[0%nat := 1]} [mkBlock 0 0 1 true; mkBlock 0 1 0 false] ∅.
Lemma references_safe_witness :
  star refs_run refs_new demo_refs /\ is_Some (objs demo_refs !! 0%nat) /\ 0%nat ∉ dying demo_refs.
Proof.
  assert (star refs_run refs_new demo_refs) as Hr.
  { eapply star_step; [eapply run_by; [apply (r_make _ 0)|]; vm_compute; reflexivity|].
    eapply star_step; [eapply run_by; [apply (r_hold _ 0); [right; exists 0%nat; eexists; split; [|split]|]|]; vm_compute; reflexivity|].
    eapply star_step; [eapply run_by; [apply (r_shared _ 0); [left|]|]; vm_compute; reflexivity|].
    eapply star_step; [eapply run_by; [eapply (r_weak _ 0)|]; vm_compute; reflexivity|].
    eapply star_step; [eapply run_by; [eapply (r_drop _ 0)|]; vm_compute; reflexivity|].
    eapply star_step; [eapply run_by; [apply (r_dispose _ 0 (mkBlock 0 0 1 false)); reflexivity|vm_compute; reflexivity]|].
    vm_compute. apply star_refl. }
  split; [exact Hr|]. apply (proj1 (proj2 (references_safe demo_refs Hr))). left. vm_compute. reflexivity.
Defined.
