(* ===== verification/TSQueue.v ===== *)
(** * Intrusive queues: src/libgo/ts_queue.h, with the reference counts of util.h

    [SList], [TSQueue] and [TSSkipQueue] link their elements through the hooks
    the elements carry.  The memory is a finite map from addresses to hooks;
    dereferencing an address that is not allocated (or null) is undefined
    behaviour.  The operations of a queue run under its lock, so that each is
    one step.  The theorems relate every operation to the list of the elements. *)
From S2P Require Import Prelude.

Abbreviation loc := positive.

(** [TSQueueHook] with the reference count of the object that carries it. *)
Record hook : Type := mkHook { prev : option loc; next : option loc; check_ : option loc; reference_ : Z }.
Abbreviation heap := (gmap loc hook).

#[global] Instance hook_eq_dec : EqDecision hook.
Proof. solve_decision. Defined.

(** ** Memory accesses *)

Definition load (x : option loc) (h : heap) : outcome hook :=
  match x with Some l => deref (h !! l) | None => Undef end.

Definition set_prev (x v : option loc) (h : heap) : outcome heap :=
  n ← load x h; l ← deref x; Ret (<[l := mkHook v (next n) (check_ n) (reference_ n)]> h).
Definition set_next (x v : option loc) (h : heap) : outcome heap :=
  n ← load x h; l ← deref x; Ret (<[l := mkHook (prev n) v (check_ n) (reference_ n)]> h).
Definition set_check (x v : option loc) (h : heap) : outcome heap :=
  n ← load x h; l ← deref x; Ret (<[l := mkHook (prev n) (next n) v (reference_ n)]> h).

Definition IncrementRef (x : option loc) (h : heap) : outcome heap :=
  n ← load x h; l ← deref x; Ret (<[l := mkHook (prev n) (next n) (check_ n) (reference_ n + 1)]> h).
(** The object is deleted with its last reference. *)
Definition DecrementRef (x : option loc) (h : heap) : outcome heap :=
  n ← load x h; l ← deref x;
  if reference_ n - 1 =? 0 then Ret (delete l h)
  else Ret (<[l := mkHook (prev n) (next n) (check_ n) (reference_ n - 1)]> h).

(** ** [SList] *)

Record SList : Type := mkSList {
  s_head : option loc; s_tail : option loc; s_check : option loc; s_count : Z
}.
Definition SList_new : SList := mkSList None None None 0.
Definition s_empty (s : SList) : bool := bool_decide (s_head s = None).

(** [erase(it)]: the iterator to the next element. *)
Definition s_erase (it : option loc) (s : SList) (h : heap) : outcome (option loc * SList * heap) :=
  let ptr := it in
  n ← load ptr h;
  let it := next n in
  '(s, h) ← match prev n with
            | Some p => h ← set_next (Some p) (next n) h; Ret (s, h)
            | None => hn ← load (s_head s) h; Ret (mkSList (next hn) (s_tail s) (s_check s) (s_count s), h)
            end;
  n ← load ptr h;
  '(s, h) ← match next n with
            | Some q => h ← set_prev (Some q) (prev n) h; Ret (s, h)
            | None => tn ← load (s_tail s) h; Ret (mkSList (s_head s) (prev tn) (s_check s) (s_count s), h)
            end;
  h ← set_next ptr None h;
  h ← set_prev ptr None h;
  h ← set_check ptr None h;
  let s := mkSList (s_head s) (s_tail s) (s_check s) (u64 (s_count s - 1)) in
  h ← DecrementRef ptr h;
  Ret (it, s, h).

(** ** [TSQueue] *)

Record TSQueue : Type := mkQueue {
  head_ : option loc; tail_ : option loc; count_ : Z; q_check : option loc
}.

(** The constructor: the sentinel is allocated at [d]; [self] is the queue's own
    address. *)
Definition TSQueue_new (self d : loc) (h : heap) : TSQueue * heap :=
  (mkQueue (Some d) (Some d) 0 (Some self), <[d := mkHook None None None 1]> h).

Definition q_empty (q : TSQueue) : bool := bool_decide (head_ q = tail_ q).
Definition q_size (q : TSQueue) : Z := count_ q.

Definition push (element : loc) (q : TSQueue) (h : heap) : outcome (TSQueue * heap) :=
  let hook := Some element in
  h ← set_next (tail_ q) hook h;
  h ← set_prev hook (tail_ q) h;
  h ← set_next hook None h;
  h ← set_check hook (q_check q) h;
  let q := mkQueue (head_ q) hook (u64 (count_ q + 1)) (q_check q) in
  h ← IncrementRef hook h;
  Ret (q, h).

Definition pop (q : TSQueue) (h : heap) : outcome (option loc * TSQueue * heap) :=
  if q_empty q then Ret (None, q, h) else
  hd ← load (head_ q) h;
  let ptr := next hd in
  let q := if bool_decide (ptr = tail_ q) then mkQueue (head_ q) (head_ q) (count_ q) (q_check q) else q in
  n ← load ptr h;
  h ← set_next (head_ q) (next n) h;
  h ← match next n with Some y => set_prev (Some y) (head_ q) h | None => Ret h end;
  h ← set_next ptr None h;
  h ← set_prev ptr None h;
  h ← set_check ptr None h;
  let q := mkQueue (head_ q) (tail_ q) (u64 (count_ q - 1)) (q_check q) in
  h ← DecrementRef ptr h;
  Ret (ptr, q, h).

(** [push(SList&&)]: the elements are taken over; the list must have been taken
    from this queue, which is asserted. *)
Definition push_list (s : SList) (q : TSQueue) (h : heap) : outcome (TSQueue * SList * heap) :=
  if s_empty s then Ret (q, s, h) else
  if bool_decide (s_check s <> q_check q) then Undef else
  let q := mkQueue (head_ q) (tail_ q) (u64 (count_ q + s_count s)) (q_check q) in
  h ← set_next (tail_ q) (s_head s) h;
  h ← set_prev (s_head s) (tail_ q) h;
  h ← set_next (s_tail s) None h;
  Ret (mkQueue (head_ q) (s_tail s) (count_ q) (q_check q), SList_new, h).

(** [for (; c < n && last->next; ++c) last = last->next;]; the fuel bounds the
    rounds by [n]. *)
Fixpoint walk_next (fuel : nat) (n c : Z) (last : option loc) (h : heap) : outcome (Z * option loc) :=
  if c <? n then
    l ← load last h;
    match next l with
    | None => Ret (c, last)
    | Some y => match fuel with O => Fuel | S fuel' => walk_next fuel' n (c + 1) (Some y) h end
    end
  else Ret (c, last).

Definition pop_front (n : Z) (q : TSQueue) (h : heap) : outcome (SList * TSQueue * heap) :=
  if q_empty q then Ret (SList_new, q, h) else
  hd ← load (head_ q) h;
  let first := next hd in
  '(c, last) ← walk_next (Z.to_nat n) n 1 first h;
  let q := if bool_decide (last = tail_ q) then mkQueue (head_ q) (head_ q) (count_ q) (q_check q) else q in
  ln ← load last h;
  h ← set_next (head_ q) (next ln) h;
  h ← match next ln with Some y => set_prev (Some y) (head_ q) h | None => Ret h end;
  h ← set_next last None h;
  h ← set_prev first None h;
  let q := mkQueue (head_ q) (tail_ q) (u64 (count_ q - c)) (q_check q) in
  Ret (mkSList first last (q_check q) c, q, h).

(** [for (; c < n && first->prev && first->prev != head_; ++c) first = first->prev;] *)
Fixpoint walk_prev (fuel : nat) (n c : Z) (head first : option loc) (h : heap) : outcome (Z * option loc) :=
  if c <? n then
    f ← load first h;
    match prev f with
    | None => Ret (c, first)
    | Some y =>
        if bool_decide (Some y = head) then Ret (c, first)
        else match fuel with O => Fuel | S fuel' => walk_prev fuel' n (c + 1) head (Some y) h end
    end
  else Ret (c, first).

Definition pop_back (n : Z) (q : TSQueue) (h : heap) : outcome (SList * TSQueue * heap) :=
  if q_empty q then Ret (SList_new, q, h) else
  let last := tail_ q in
  '(c, first) ← walk_prev (Z.to_nat n) n 1 (head_ q) last h;
  f ← load first h;
  let q := mkQueue (head_ q) (prev f) (count_ q) (q_check q) in
  h ← set_next (tail_ q) None h;
  h ← set_prev first None h;
  let q := mkQueue (head_ q) (tail_ q) (u64 (count_ q - c)) (q_check q) in
  Ret (mkSList first last (q_check q) c, q, h).

Definition pop_all (q : TSQueue) (h : heap) : outcome (SList * TSQueue * heap) :=
  if q_empty q then Ret (SList_new, q, h) else
  hd ← load (head_ q) h;
  let first := next hd in
  let last := tail_ q in
  let q := mkQueue (head_ q) (head_ q) (count_ q) (q_check q) in
  h ← set_next (head_ q) None h;
  h ← set_next last None h;
  h ← set_prev first None h;
  let c := count_ q in
  Ret (mkSList first last (q_check q) c, mkQueue (head_ q) (tail_ q) 0 (q_check q), h).

Definition erase (x : loc) (q : TSQueue) (h : heap) : outcome (bool * TSQueue * heap) :=
  let hook := Some x in
  n ← load hook h;
  if bool_decide (check_ n <> q_check q) then Ret (false, q, h) else
  h ← match prev n with Some p => set_next (Some p) (next n) h | None => Ret h end;
  n ← load hook h;
  '(q, h) ← match next n with
            | Some y => h ← set_prev (Some y) (prev n) h; Ret (q, h)
            | None =>
                if bool_decide (hook = tail_ q) then
                  tn ← load (tail_ q) h; Ret (mkQueue (head_ q) (prev tn) (count_ q) (q_check q), h)
                else Ret (q, h)
            end;
  h ← set_next hook None h;
  h ← set_prev hook None h;
  h ← set_check hook None h;
  let q := mkQueue (head_ q) (tail_ q) (u64 (count_ q - 1)) (q_check q) in
  h ← DecrementRef hook h;
  Ret (true, q, h).

(** ** Segments of doubly linked hooks *)

Definition w_prev (v : option loc) (n : hook) : hook := mkHook v (next n) (check_ n) (reference_ n).
Definition w_next (v : option loc) (n : hook) : hook := mkHook (prev n) v (check_ n) (reference_ n).
Definition w_check (v : option loc) (n : hook) : hook := mkHook (prev n) (next n) v (reference_ n).
Definition w_ref (d : Z) (n : hook) : hook := mkHook (prev n) (next n) (check_ n) (reference_ n + d).

(** The hooks of [l] are linked in order; [p] precedes the first, [nx] follows
    the last. *)
Fixpoint dseg (h : heap) (p : option loc) (l : list loc) (nx : option loc) : Prop :=
  match l with
  | [] => True
  | x :: l' =>
      (exists n, h !! x = Some n /\ prev n = p /\ next n = match l' with y :: _ => Some y | [] => nx end) /\
      dseg h (Some x) l' nx
  end.

Definition first_or (l : list loc) (nx : option loc) : option loc :=
  match l with y :: _ => Some y | [] => nx end.
Definition last_or (l : list loc) (p : option loc) : option loc :=
  match last l with Some x => Some x | None => p end.

Lemma last_or_cons x l p : last_or (x :: l) p = last_or l (Some x).
Proof. unfold last_or. rewrite last_cons. by destruct (last l). Qed.

Lemma dseg_app h p l1 l2 nx :
  dseg h p (l1 ++ l2) nx <-> dseg h p l1 (first_or l2 nx) /\ dseg h (last_or l1 p) l2 nx.
Proof.
  revert p. induction l1 as [|x l1 IH]; intros p; cbn [app dseg].
  - change (last_or [] p) with p. tauto.
  - rewrite IH, last_or_cons. assert (match l1 ++ l2 with y :: _ => Some y | [] => nx end =
      match l1 with y :: _ => Some y | [] => first_or l2 nx end) as -> by by destruct l1, l2.
    tauto.
Qed.

Lemma dseg_lookup h p l nx x : dseg h p l nx -> x ∈ l -> is_Some (h !! x).
Proof.
  revert p. induction l as [|y l IH]; intros p Hd Hin; [by apply not_elem_of_nil in Hin|].
  destruct Hd as [(n & Hn & _) Hd]. apply elem_of_cons in Hin as [->|Hin]; [by eexists|by eapply IH].
Qed.

Lemma dseg_alter_frame h p l nx f x : x ∉ l -> dseg h p l nx -> dseg (alter f x h) p l nx.
Proof.
  revert p. induction l as [|y l IH]; intros p Hx Hd; [done|].
  apply not_elem_of_cons in Hx as [Hne Hx]. destruct Hd as [(n & Hn & Hp) Hd].
  split; [|by apply IH]. exists n. by rewrite lookup_alter_ne.
Qed.

Lemma dseg_delete_frame h p l nx x : x ∉ l -> dseg h p l nx -> dseg (delete x h) p l nx.
Proof.
  revert p. induction l as [|y l IH]; intros p Hx Hd; [done|].
  apply not_elem_of_cons in Hx as [Hne Hx]. destruct Hd as [(n & Hn & Hp) Hd].
  split; [|by apply IH]. exists n. by rewrite lookup_delete_ne.
Qed.

(** Updates of fields other than the links. *)
Lemma dseg_alter_same h p l nx f x :
  (forall n, prev (f n) = prev n /\ next (f n) = next n) -> dseg h p l nx -> dseg (alter f x h) p l nx.
Proof.
  intros Hf. revert p. induction l as [|y l IH]; intros p Hd; [done|].
  destruct Hd as [(n & Hn & Hp & Hnx) Hd]. split; [|by apply IH].
  destruct (decide (x = y)) as [->|Hne].
  - exists (f n). rewrite lookup_alter_eq, Hn. destruct (Hf n) as [-> ->]. done.
  - exists n. by rewrite lookup_alter_ne.
Qed.

Lemma dseg_w_prev h p x l nx v :
  x ∉ l -> dseg h p (x :: l) nx -> dseg (alter (w_prev v) x h) v (x :: l) nx.
Proof.
  intros Hx [(n & Hn & Hp & Hnx) Hd]. split; [|by apply dseg_alter_frame].
  exists (w_prev v n). by rewrite lookup_alter_eq, Hn.
Qed.

Lemma dseg_w_next h p l x nx v :
  x ∉ l -> dseg h p (l ++ [x]) nx -> dseg (alter (w_next v) x h) p (l ++ [x]) v.
Proof.
  intros Hx [Hd1 Hd2]%dseg_app. apply dseg_app. split.
  - by apply dseg_alter_frame.
  - destruct Hd2 as [(n & Hn & Hp & Hnx) _]. split; [|done].
    exists (w_next v n). by rewrite lookup_alter_eq, Hn.
Qed.

(** ** Memory accesses that succeed *)

Lemma load_some x n h : h !! x = Some n -> load (Some x) h = Ret n.
Proof. unfold load, deref. by intros ->. Qed.

Lemma alter_insert_hook (f : hook -> hook) x n (h : heap) : h !! x = Some n -> <[x := f n]> h = alter f x h.
Proof.
  intros Hn. apply map_eq. intros i. destruct (decide (x = i)) as [->|Hne].
  - by rewrite lookup_insert_eq, lookup_alter_eq, Hn.
  - by rewrite lookup_insert_ne, lookup_alter_ne.
Qed.

Lemma set_prev_some x v h : is_Some (h !! x) -> set_prev (Some x) v h = Ret (alter (w_prev v) x h).
Proof.
  intros [n Hn]. unfold set_prev. rewrite (load_some x n) by done. cbn [mbind outcome_bind deref].
  f_equal. by apply (alter_insert_hook (w_prev v)).
Qed.
Lemma set_next_some x v h : is_Some (h !! x) -> set_next (Some x) v h = Ret (alter (w_next v) x h).
Proof.
  intros [n Hn]. unfold set_next. rewrite (load_some x n) by done. cbn [mbind outcome_bind deref].
  f_equal. by apply (alter_insert_hook (w_next v)).
Qed.
Lemma set_check_some x v h : is_Some (h !! x) -> set_check (Some x) v h = Ret (alter (w_check v) x h).
Proof.
  intros [n Hn]. unfold set_check. rewrite (load_some x n) by done. cbn [mbind outcome_bind deref].
  f_equal. by apply (alter_insert_hook (w_check v)).
Qed.
Lemma IncrementRef_some x h : is_Some (h !! x) -> IncrementRef (Some x) h = Ret (alter (w_ref 1) x h).
Proof.
  intros [n Hn]. unfold IncrementRef. rewrite (load_some x n) by done. cbn [mbind outcome_bind deref].
  f_equal. by apply (alter_insert_hook (w_ref 1)).
Qed.

(** Dropping a reference: the object is deleted or its count is decremented. *)
Definition drop_ref (x : loc) (h : heap) : heap :=
  match h !! x with
  | Some n => if reference_ n - 1 =? 0 then delete x h else alter (w_ref (-1)) x h
  | None => h
  end.

Lemma DecrementRef_some x h : is_Some (h !! x) -> DecrementRef (Some x) h = Ret (drop_ref x h).
Proof.
  intros [n Hn]. unfold DecrementRef, drop_ref. rewrite (load_some x n) by done.
  cbn [mbind outcome_bind deref]. rewrite Hn. case_match; [done|].
  f_equal. by apply (alter_insert_hook (w_ref (-1))).
Qed.

Lemma alter_is_Some f x y (h : heap) : is_Some (h !! y) -> is_Some (alter f x h !! y).
Proof.
  intros [n Hn]. destruct (decide (x = y)) as [->|Hne].
  - rewrite lookup_alter_eq, Hn. by eexists.
  - rewrite lookup_alter_ne by done. by eexists.
Qed.

Lemma dseg_drop_ref h p l nx x : x ∉ l -> dseg h p l nx -> dseg (drop_ref x h) p l nx.
Proof.
  intros Hx Hd. unfold drop_ref. repeat case_match; auto using dseg_delete_frame, dseg_alter_frame.
Qed.

#[local] Hint Resolve alter_is_Some : natsu.

(** Run the memory accesses of an operation, whose addresses are allocated. *)
Ltac run_heap :=
  repeat (rewrite ?set_prev_some, ?set_next_some, ?set_check_some, ?IncrementRef_some, ?DecrementRef_some
            by eauto 10 with natsu;
          cbn [mbind outcome_bind]).

(** ** The list a queue stands for *)

Definition checked (h : heap) (c : option loc) (x : loc) : Prop :=
  exists n, h !! x = Some n /\ check_ n = c.

Record queue_rep (h : heap) (q : TSQueue) (d : loc) (l : list loc) : Prop := {
  rep_head : head_ q = Some d;
  rep_tail : tail_ q = last (d :: l);
  rep_count : count_ q = sz l;
  rep_nodup : NoDup (d :: l);
  rep_links : dseg h None (d :: l) None;
  rep_check : Forall (checked h (q_check q)) l
}.

Record slist_rep (h : heap) (s : SList) (c : option loc) (l : list loc) : Prop := {
  srep_head : s_head s = head l;
  srep_tail : s_tail s = last l;
  srep_count : s_count s = sz l;
  srep_nodup : NoDup l;
  srep_links : dseg h None l None;
  srep_check : Forall (checked h c) l
}.

Lemma checked_alter h c l f x :
  (forall n, check_ (f n) = check_ n) -> Forall (checked h c) l -> Forall (checked (alter f x h) c) l.
Proof.
  intros Hf Hl. eapply Forall_impl; [exact Hl|]. intros y (n & Hn & Hc).
  destruct (decide (x = y)) as [->|Hne].
  - exists (f n). rewrite lookup_alter_eq, Hn. by rewrite Hf.
  - exists n. by rewrite lookup_alter_ne.
Qed.

Lemma checked_frame h c l f x :
  x ∉ l -> Forall (checked h c) l -> Forall (checked (alter f x h) c) l.
Proof.
  intros Hx Hl. rewrite Forall_forall in *. intros y Hy. destruct (Hl y Hy) as (n & Hn & Hc).
  exists n. rewrite lookup_alter_ne; [done|]. by intros ->.
Qed.

Lemma checked_drop_ref h c l x : x ∉ l -> Forall (checked h c) l -> Forall (checked (drop_ref x h) c) l.
Proof.
  intros Hx Hl. unfold drop_ref. repeat case_match; auto using checked_frame.
  rewrite Forall_forall in *. intros y Hy. destruct (Hl y Hy) as (n & Hn & Hc).
  exists n. rewrite lookup_delete_ne; [done|]. by intros ->.
Qed.

Lemma queue_empty h q d l : queue_rep h q d l -> q_empty q = bool_decide (l = []).
Proof.
  intros [Hh Ht _ Hnd _ _]. unfold q_empty. rewrite Hh, Ht. apply bool_decide_ext. split.
  - destruct l as [|x l _] using rev_ind; [done|]. rewrite app_comm_cons, last_snoc. intros [= ->].
    apply NoDup_cons in Hnd as [Hn _]. exfalso. apply Hn. set_solver.
  - by intros ->.
Qed.

Lemma TSQueue_new_rep self d h : queue_rep (snd (TSQueue_new self d h)) (fst (TSQueue_new self d h)) d [].
Proof.
  constructor; try done; [apply NoDup_singleton|]. split; [|done].
  eexists. split; [apply lookup_insert_eq|done].
Qed.

(** ** The operations *)

Lemma chain_last (d : loc) l : exists l0 t, d :: l = l0 ++ [t] /\ last (d :: l) = Some t.
Proof.
  destruct (last (d :: l)) as [t|] eqn:E; [|by apply last_None in E].
  apply last_Some in E as [l0 Hl]. exists l0, t. by rewrite Hl.
Qed.

Lemma nodup_snoc_inv (l : list loc) x : NoDup (l ++ [x]) -> x ∉ l /\ NoDup l.
Proof. rewrite NoDup_app. intros (H1 & H2 & _). split; [|done]. intros Hx. apply (H2 x Hx). set_solver. Qed.

Lemma push_rep h q d l x :
  queue_rep h q d l -> x ∉ d :: l -> is_Some (h !! x) -> sz l + 1 < 2 ^ 64 ->
  exists q' h', push x q h = Ret (q', h') /\ queue_rep h' q' d (l ++ [x]) /\ q_check q' = q_check q.
Proof.
  intros [Hh Ht Hc Hnd Hl Hck] Hx [n Hn] Hsz.
  destruct (chain_last d l) as (l0 & t & Hchain & Hlast). rewrite Hchain in Hl, Hnd, Hx.
  pose proof (nodup_snoc_inv _ _ Hnd) as [Ht0 _].
  assert (is_Some (h !! t)) as Hst by (eapply dseg_lookup; [exact Hl|set_solver]).
  assert (t <> x) as Htx by set_solver.
  unfold push. cbv zeta. rewrite Ht, Hlast. run_heap.
  eexists _, _. split; [reflexivity|]. split; [|done].
  constructor; cbn [head_ tail_ count_ q_check].
  - done.
  - by rewrite app_comm_cons, last_snoc.
  - rewrite Hc, u64_small, length_app by lia. cbn [length]. lia.
  - rewrite app_comm_cons, Hchain. apply NoDup_app. split; [done|]. split; [set_solver|apply NoDup_singleton].
  - rewrite app_comm_cons, Hchain. apply dseg_app. split.
    + do 4 (apply dseg_alter_frame; [done|]). by eapply dseg_w_next.
    + split; [|done]. unfold last_or. rewrite last_snoc.
      rewrite !lookup_alter_eq, lookup_alter_ne, Hn by done. eexists. by split.
  - assert (x ∉ l) as Hxl by (rewrite <- Hchain in Hx; set_solver). apply Forall_app. split.
    + do 4 (apply checked_frame; [done|]). by apply checked_alter.
    + constructor; [|constructor]. unfold checked.
      rewrite !lookup_alter_eq, lookup_alter_ne, Hn by done. eexists. by split.
Qed.

(** Unlinking a run [m] of elements that follows [l1] and precedes [l2]: its
    neighbours are linked with each other, and the run is cut off on both
    sides.  [cut_heap] is the memory after the four writes the code makes. *)
Definition cut_heap (p : loc) (first last : loc) (nx : option loc) (h : heap) : heap :=
  let h := alter (w_next nx) p h in
  let h := match nx with Some y => alter (w_prev (Some p)) y h | None => h end in
  let h := alter (w_next None) last h in
  alter (w_prev None) first h.

Lemma dseg_cut h l0 p m first last l2 :
  NoDup ((l0 ++ [p]) ++ m ++ l2) -> dseg h None ((l0 ++ [p]) ++ m ++ l2) None ->
  head m = Some first -> list.last m = Some last ->
  dseg (cut_heap p first last (first_or l2 None) h) None ((l0 ++ [p]) ++ l2) None /\
  dseg (cut_heap p first last (first_or l2 None) h) None m None.
Proof.
  intros Hnd Hd Hf Hlast. apply dseg_app in Hd as [Hd1 Hd2]. apply dseg_app in Hd2 as [Hdm Hd2].
  apply NoDup_app in Hnd as (Hnd1 & Hsep1 & Hnd2). apply NoDup_app in Hnd2 as (Hndm & Hsep2 & Hnd2).
  destruct m as [|f m]; [done|]. injection Hf as ->.
  apply last_Some in Hlast as [m0 Hm].
  assert (first ∈ first :: m /\ last ∈ first :: m) as [Hfin Hlin] by (rewrite Hm at 2; set_solver).
  pose proof (nodup_snoc_inv _ _ Hnd1) as [Hp0 _].
  assert (Hsep1' : forall x, x ∈ l0 ++ [p] -> x ∉ first :: m /\ x ∉ l2) by (intros x Hx; specialize (Hsep1 x Hx); set_solver).
  assert (p ∉ first :: m /\ p ∉ l2) as [Hpm Hp2] by (apply Hsep1'; set_solver).
  assert (forall x, x ∈ first :: m -> x ∉ l0 ++ [p] /\ x ∉ l2) as Hmsep.
  { intros x Hx. split; [|by apply Hsep2]. intros Hx1. apply Hsep1' in Hx1 as [? _]. done. }
  split.
  - apply dseg_app. unfold cut_heap. split.
    + do 2 (apply dseg_alter_frame; [by apply Hmsep|]).
      assert (dseg (alter (w_next (first_or l2 None)) p h) None (l0 ++ [p]) (first_or l2 None)) as Hd1'
        by by eapply dseg_w_next.
      destruct l2 as [|y l2]; [done|]. cbn [first_or] in *.
      apply dseg_alter_frame; [|done]. intros Hy. apply Hsep1' in Hy as [_ Hy]. set_solver.
    + do 2 (apply dseg_alter_frame; [by apply Hmsep|]). unfold last_or at 1. rewrite last_snoc.
      destruct l2 as [|y l2]; [done|]. cbn [first_or].
      apply NoDup_cons in Hnd2 as [Hy _]. eapply dseg_w_prev; [done|].
      apply dseg_alter_frame; [done|]. exact Hd2.
  - unfold cut_heap. apply NoDup_cons in Hndm as Hndm'. destruct Hndm' as [Hfm _].
    apply (dseg_w_prev _ (last_or (l0 ++ [p]) None)); [done|]. rewrite Hm.
    rewrite Hm in Hndm. apply nodup_snoc_inv in Hndm as [Hlm0 _].
    apply (dseg_w_next _ _ _ _ (first_or l2 None)); [done|]. rewrite <- Hm.
    destruct l2 as [|y l2]; [by apply dseg_alter_frame; [|exact Hdm]|]. cbn [first_or] in *.
    apply dseg_alter_frame; [|by apply dseg_alter_frame; [|exact Hdm]].
    intros Hy. apply Hmsep in Hy as [_ Hy]. set_solver.
Qed.

Lemma cut_heap_checked h c l p f t nx :
  Forall (checked h c) l -> Forall (checked (cut_heap p f t nx h) c) l.
Proof. intros Hl. unfold cut_heap. destruct nx; by repeat apply checked_alter. Qed.

Lemma cut_heap_is_Some h p f t nx x : is_Some (h !! x) -> is_Some (cut_heap p f t nx h !! x).
Proof. intros Hx. unfold cut_heap. destruct nx; auto with natsu. Qed.

(** After unlinking, the pieces as the list of the queue. *)
Lemma cut_rep h q d l0 p m first last l2 q' :
  queue_rep h q d (tail (l0 ++ [p]) ++ m ++ l2) -> head (l0 ++ [p]) = Some d ->
  head m = Some first -> list.last m = Some last ->
  head_ q' = Some d -> tail_ q' = list.last ((l0 ++ [p]) ++ l2) ->
  count_ q' = sz (tail (l0 ++ [p]) ++ l2) -> q_check q' = q_check q ->
  queue_rep (cut_heap p first last (first_or l2 None) h) q' d (tail (l0 ++ [p]) ++ l2) /\
  dseg (cut_heap p first last (first_or l2 None) h) None m None /\
  NoDup m /\ Forall (checked (cut_heap p first last (first_or l2 None) h) (q_check q)) m.
Proof.
  intros [Hh Ht Hc Hnd Hl Hck] Hd Hf Hlast Hh' Ht' Hc' Hq'.
  assert (forall r : list loc, d :: tail (l0 ++ [p]) ++ r = (l0 ++ [p]) ++ r) as Htl.
  { intros r. destruct (l0 ++ [p]); [done|]. by injection Hd as ->. }
  rewrite Htl in Hnd, Hl. destruct (dseg_cut _ _ _ _ _ _ _ Hnd Hl Hf Hlast) as [Hd1 Hdm].
  apply Forall_app in Hck as [Hck1 Hck2]. apply Forall_app in Hck2 as [Hckm Hck2].
  pose proof Hnd as (Hnd1 & Hsep & (Hndm & Hsep2 & Hnd2)%NoDup_app)%NoDup_app.
  split; [|split; [done|split; [done|by apply cut_heap_checked]]].
  constructor; rewrite ?Htl; try done.
  - apply NoDup_app. split; [done|]. split; [|done]. intros x Hx. specialize (Hsep x Hx). set_solver.
  - rewrite Hq'. apply cut_heap_checked. by apply Forall_app.
Qed.

Lemma cut_run {A} h p first last nx (k : heap -> outcome A) :
  is_Some (h !! p) -> is_Some (h !! first) -> is_Some (h !! last) ->
  (forall y, nx = Some y -> is_Some (h !! y)) ->
  (h ← set_next (Some p) nx h;
   h ← match nx with Some y => set_prev (Some y) (Some p) h | None => Ret h end;
   h ← set_next (Some last) None h;
   h ← set_prev (Some first) None h;
   k h) = k (cut_heap p first last nx h).
Proof.
  intros Hp Hf Hl Hy. unfold cut_heap. run_heap. destruct nx as [y|].
  - specialize (Hy y eq_refl). by run_heap.
  - by run_heap.
Qed.

(** Dropping the queue's reference of an unlinked element. *)
Lemma release_rep h q d l x c :
  queue_rep h q d l -> x ∉ d :: l -> queue_rep (drop_ref x (alter (w_check c) x h)) q d l.
Proof.
  intros [Hh Ht Hc Hnd Hl Hck] Hx. constructor; try done.
  - apply dseg_drop_ref; [done|]. by apply dseg_alter_frame.
  - assert (x ∉ l) by set_solver. apply checked_drop_ref; [done|]. by apply checked_frame.
Qed.

Lemma rep_lookup h q d l x : queue_rep h q d l -> x ∈ d :: l -> is_Some (h !! x).
Proof. intros [_ _ _ _ Hl _] Hx. by eapply dseg_lookup. Qed.

Lemma rep_next h q d l1 x l2 :
  queue_rep h q d (l1 ++ x :: l2) ->
  exists n, h !! x = Some n /\ prev n = last (d :: l1) /\ next n = first_or l2 None /\ check_ n = q_check q.
Proof.
  intros [_ _ _ _ Hl Hck]. apply Forall_app in Hck as [_ [(n & Hn & Hc) _]%Forall_cons].
  rewrite app_comm_cons in Hl. apply dseg_app in Hl as [_ [(n' & Hn' & Hp & Hnx) _]].
  rewrite Hn in Hn'. injection Hn' as <-. exists n. split; [done|]. split; [|done].
  rewrite Hp. unfold last_or. by destruct (last (d :: l1)) eqn:E; [|apply last_None in E].
Qed.

Lemma rep_head_next h q d l :
  queue_rep h q d l -> exists n, h !! d = Some n /\ next n = first_or l None.
Proof. intros [_ _ _ _ [(n & Hn & _ & Hnx) _] _]. exists n. by destruct l. Qed.

Lemma last_app_ne {A} (l1 l2 : list A) : l2 <> [] -> last (l1 ++ l2) = last l2.
Proof. intros Hl. destruct l2 as [|x l2 _] using rev_ind; [done|]. by rewrite app_assoc, !last_snoc. Qed.

Lemma last_cons_ne {A} (d : A) l : l <> [] -> last (d :: l) = last l.
Proof. apply (last_app_ne [d]). Qed.

(** The tail after the removal of a run that ends at [last]. *)
Lemma tail_after (d : loc) l1 m l2 last :
  NoDup (d :: l1 ++ m ++ l2) -> list.last m = Some last -> l1 = [] ->
  (if bool_decide (Some last = list.last (d :: l1 ++ m ++ l2)) then Some d else list.last (d :: l1 ++ m ++ l2)) =
  list.last (d :: l1 ++ l2).
Proof.
  intros Hnd Hm ->. cbn [app]. assert (m <> []) as Hne by by intros ->.
  rewrite (last_cons_ne d (m ++ l2)) by by destruct m.
  destruct l2 as [|y l2 _] using rev_ind.
  - rewrite app_nil_r, Hm, bool_decide_true by done. done.
  - rewrite app_assoc, last_snoc. rewrite bool_decide_false; [by rewrite app_comm_cons, last_snoc|].
    intros [= ->]. apply last_Some in Hm as [m0 ->].
    apply NoDup_cons in Hnd as [_ Hnd]. rewrite app_assoc in Hnd.
    apply NoDup_app in Hnd as (_ & Hsep & _). apply (Hsep y); set_solver.
Qed.

Lemma pop_rep h q d x l :
  queue_rep h q d (x :: l) -> sz l < 2 ^ 64 ->
  exists q' h', pop q h = Ret (Some x, q', h') /\ queue_rep h' q' d l /\ q_check q' = q_check q.
Proof.
  intros Hrep Hsz. pose proof (queue_empty _ _ _ _ Hrep) as He.
  destruct (rep_head_next _ _ _ _ Hrep) as (dn & Hdn & Hdnx).
  destruct (rep_next h q d [] x l Hrep) as (n & Hn & _ & Hnx & _).
  pose proof Hrep as [Hh Ht Hc Hnd Hl Hck].
  unfold pop. rewrite He, bool_decide_false, Hh, (load_some d dn) by done. cbn [mbind outcome_bind].
  rewrite Hdnx. cbn [first_or]. rewrite (load_some x n) by done. cbn [mbind outcome_bind].
  set (q1 := if bool_decide (Some x = tail_ q) then _ else q).
  assert (head_ q1 = Some d /\ q_check q1 = q_check q /\ count_ q1 = sz (x :: l) /\ tail_ q1 = last (d :: l))
    as (Hh1 & Hk1 & Hc1 & Ht1).
  { pose proof (tail_after d [] [x] l x Hnd eq_refl eq_refl) as Hta. cbn [app] in Hta.
    unfold q1. rewrite Ht. destruct (bool_decide (Some x = last (d :: x :: l))); cbn [head_ q_check count_ tail_];
      rewrite ?Ht, ?Hh; done. }
  rewrite Hh1, Hnx.
  rewrite (cut_run h d x x) by (by eapply rep_lookup; [exact Hrep|set_solver] ||
    (intros y Hy; eapply rep_lookup; [exact Hrep|]; destruct l; [done|injection Hy as <-; set_solver])).
  rewrite set_check_some by (apply cut_heap_is_Some; by eexists). cbn [mbind outcome_bind].
  rewrite DecrementRef_some by (apply alter_is_Some, cut_heap_is_Some; by eexists). cbn [mbind outcome_bind].
  eexists _, _. split; [reflexivity|]. split; [|done]. apply release_rep.
  - apply (cut_rep h q d [] d [x] x x l); try done; cbn [head_ tail_ count_ q_check app].
    rewrite Hc1. cbn [length tl app]. rewrite u64_small; lia.
  - apply NoDup_cons in Hnd as [Hd Hnd]. apply NoDup_cons in Hnd as [Hx _]. set_solver.
Qed.

Lemma walk_next_spec h r : forall x p fuel n c,
  dseg h p (x :: r) None -> (Z.to_nat (n - c) <= fuel)%nat ->
  let k := Nat.min (Z.to_nat (n - c)) (length r) in
  walk_next fuel n c (Some x) h = Ret (c + Z.of_nat k, (x :: r) !! k).
Proof.
  induction r as [|y r IH]; intros x p fuel n c Hd Hf; cbv zeta;
    destruct Hd as [(nd & Hn & _ & Hnx) Hd]; destruct fuel as [|fuel]; cbn [walk_next];
    destruct (c <? n) eqn:E; zbool; rewrite ?(load_some x nd) by done; cbn [mbind outcome_bind]; rewrite ?Hnx;
    try lia.
  - by rewrite Nat.min_0_r, Z.add_0_r.
  - by rewrite Nat.min_0_r, Z.add_0_r.
  - by rewrite Nat.min_0_r, Z.add_0_r.
  - replace (Z.to_nat (n - c)) with 0%nat by lia. cbn [Nat.min]. by rewrite Z.add_0_r.
  - rewrite (IH y (Some x) fuel n (c + 1)) by (done || lia).
    replace (Z.to_nat (n - c)) with (S (Z.to_nat (n - (c + 1)))) by lia. cbn [length Nat.min].
    f_equal. f_equal. lia.
  - replace (Z.to_nat (n - c)) with 0%nat by lia. cbn [Nat.min]. by rewrite Z.add_0_r.
Qed.

(** How many elements [pop_front(n)] and [pop_back(n)] take: at least one. *)
Definition taken (n : Z) (l : list loc) : nat := Nat.max 1 (Nat.min (Z.to_nat n) (length l)).

Lemma take_ends {A} (x : A) r k :
  (k <= length r)%nat -> last (take (S k) (x :: r)) = (x :: r) !! k /\ head (take (S k) (x :: r)) = Some x.
Proof.
  intros Hk. split; [|done]. rewrite last_lookup, length_take_le by (cbn [length]; lia).
  cbn [Nat.pred]. apply lookup_take_lt. lia.
Qed.

(** Cutting off the first [k + 1] elements, whose last is [t]: the tail pointer,
    the writes, and what they leave. *)
Definition tail_reset (t : loc) (q : TSQueue) : TSQueue :=
  if bool_decide (Some t = tail_ q) then mkQueue (head_ q) (head_ q) (count_ q) (q_check q) else q.

Lemma cut_front_run {A} h q d x r k t (K : heap -> outcome A) :
  queue_rep h q d (x :: r) -> (x :: r) !! k = Some t ->
  (ln ← load (Some t) h;
   h ← set_next (Some d) (next ln) h;
   h ← match next ln with Some y => set_prev (Some y) (Some d) h | None => Ret h end;
   h ← set_next (Some t) None h;
   h ← set_prev (Some x) None h;
   K h) = K (cut_heap d x t (first_or (drop (S k) (x :: r)) None) h).
Proof.
  intros Hrep Ht. pose proof (take_drop_middle (x :: r) k t Ht) as Hsplit.
  assert (forall y, y ∈ d :: x :: r -> is_Some (h !! y)) as Hall by (intros; by eapply rep_lookup).
  rewrite <- Hsplit in Hrep. destruct (rep_next h q d _ t _ Hrep) as (tn & Htn & _ & Htnx & _).
  rewrite (load_some t tn) by done. cbn [mbind outcome_bind]. rewrite Htnx.
  apply (cut_run h d x t); [apply Hall; set_solver|apply Hall; set_solver|by eexists|].
  intros y Hy. apply Hall. rewrite <- Hsplit.
  destruct (drop (S k) (x :: r)); [done|]. injection Hy as <-. set_solver.
Qed.

Lemma cut_front_rep h q d x r k t :
  queue_rep h q d (x :: r) -> (x :: r) !! k = Some t -> sz (x :: r) < 2 ^ 64 ->
  let h' := cut_heap d x t (first_or (drop (S k) (x :: r)) None) h in
  let q1 := tail_reset t q in
  let n := Z.of_nat (S k) in
  head_ q1 = Some d /\ q_check q1 = q_check q /\
  slist_rep h' (mkSList (Some x) (Some t) (q_check q1) n) (q_check q) (take (S k) (x :: r)) /\
  queue_rep h' (mkQueue (head_ q1) (tail_ q1) (u64 (count_ q1 - n)) (q_check q1)) d (drop (S k) (x :: r)).
Proof.
  intros Hrep Htk Hsz. cbv zeta. pose proof Hrep as [Hh Ht Hc Hnd Hl Hck].
  assert (k <= length r)%nat as Hk by (apply lookup_lt_Some in Htk; cbn [length] in Htk; lia).
  destruct (take_ends x r k Hk) as [Hlast Hhead]. rewrite Htk in Hlast.
  set (m := take (S k) (x :: r)) in *. set (l2 := drop (S k) (x :: r)).
  assert (x :: r = m ++ l2) as Hsplit by (symmetry; apply take_drop).
  assert (length m = S k) as Hm by (unfold m; rewrite length_take_le; cbn [length]; lia).
  assert (sz l2 = sz (x :: r) - Z.of_nat (S k)) as Hl2 by (unfold l2; rewrite length_drop; cbn [length] in *; lia).
  assert (head_ (tail_reset t q) = Some d /\ q_check (tail_reset t q) = q_check q /\
    count_ (tail_reset t q) = sz (x :: r) /\ tail_ (tail_reset t q) = last (d :: l2)) as (Hh1 & Hk1 & Hc1 & Ht1).
  { rewrite Hsplit in Hnd. pose proof (tail_after d [] m l2 t Hnd Hlast eq_refl) as Hta. cbn [app] in Hta.
    assert (tail_ q = last (d :: m ++ l2)) as Ht2 by (by rewrite Ht, Hsplit).
    unfold tail_reset. rewrite Ht2. destruct (bool_decide (Some t = last (d :: m ++ l2)));
      cbn [head_ q_check count_ tail_]; rewrite ?Ht2, ?Hh; done. }
  rewrite Hsplit in Hrep.
  destruct (cut_rep h q d [] d m x t l2 (mkQueue (Some d) (tail_ (tail_reset t q))
    (u64 (count_ (tail_reset t q) - Z.of_nat (S k))) (q_check q))) as (Hq' & Hdm & Hndm & Hckm); try done.
  { cbn [count_ app tl]. rewrite Hc1. rewrite u64_small; lia. }
  split; [done|]. split; [done|]. rewrite Hh1, Hk1. split; [|done].
  constructor; cbn [s_head s_tail s_count]; try done. by rewrite Hm.
Qed.

Lemma pop_front_rep h q d l n :
  queue_rep h q d l -> l <> [] -> sz l < 2 ^ 64 ->
  exists s q' h', pop_front n q h = Ret (s, q', h') /\
    slist_rep h' s (q_check q) (take (taken n l) l) /\ s_check s = q_check q /\
    queue_rep h' q' d (drop (taken n l) l) /\ q_check q' = q_check q.
Proof.
  intros Hrep Hne Hsz. pose proof (queue_empty _ _ _ _ Hrep) as He.
  destruct (rep_head_next _ _ _ _ Hrep) as (dn & Hdn & Hdnx).
  pose proof Hrep as [Hh Ht Hc Hnd [_ Hlx] Hck]. destruct l as [|x r]; [done|].
  unfold pop_front. rewrite He, bool_decide_false, Hh, (load_some d dn) by done. cbn [mbind outcome_bind].
  rewrite Hdnx. cbn [first_or]. rewrite (walk_next_spec h r x (Some d)) by (done || lia). cbv zeta.
  set (k := Nat.min (Z.to_nat (n - 1)) (length r)). cbn [mbind outcome_bind].
  assert (taken n (x :: r) = S k) as -> by (unfold taken, k; cbn [length]; lia).
  destruct (lookup_lt_is_Some_2 (x :: r) k) as [t Htk]; [cbn [length]; lia|]. rewrite Htk.
  rewrite <- Hh. fold (tail_reset t q).
  destruct (cut_front_rep h q d x r k t Hrep Htk Hsz) as (Hh1 & Hk1 & Hs & Hq). rewrite Hh1.
  rewrite (cut_front_run h q d x r k t) by done. rewrite Hh1 in Hq.
  replace (1 + Z.of_nat k) with (Z.of_nat (S k)) by lia.
  eexists _, _, _. split; [reflexivity|]. split; [exact Hs|]. split; [done|]. split; [exact Hq|done].
Qed.

Lemma pop_all_rep h q d l :
  queue_rep h q d l -> l <> [] ->
  exists s q' h', pop_all q h = Ret (s, q', h') /\
    slist_rep h' s (q_check q) l /\ s_check s = q_check q /\
    queue_rep h' q' d [] /\ q_check q' = q_check q.
Proof.
  intros Hrep Hne. pose proof (queue_empty _ _ _ _ Hrep) as He.
  destruct (rep_head_next _ _ _ _ Hrep) as (dn & Hdn & Hdnx).
  pose proof Hrep as [Hh Ht Hc Hnd Hl Hck]. destruct l as [|x r]; [done|].
  destruct (chain_last x r) as (l0 & t & Hchain & Hlast).
  assert (tail_ q = Some t) as Htq by (by rewrite Ht, last_cons_ne).
  assert (forall y, y ∈ d :: x :: r -> is_Some (h !! y)) as Hall by (intros; by eapply rep_lookup).
  assert (is_Some (h !! t)) as Hst by (apply Hall; rewrite Hchain; set_solver).
  assert (is_Some (h !! x)) as Hsx by (apply Hall; set_solver).
  assert (is_Some (h !! d)) as Hsd by by eexists.
  unfold pop_all. rewrite He, bool_decide_false, Hh, (load_some d dn), Htq by done. cbn [mbind outcome_bind].
  rewrite Hdnx. cbn [first_or head_ tail_ count_ q_check]. run_heap.
  destruct (cut_rep h q d [] d (x :: r) x t [] (mkQueue (Some d) (Some d) 0 (q_check q)))
    as (Hq' & Hdm & Hndm & Hckm); try done; [by cbn [app tl]; rewrite app_nil_r|].
  eexists _, _, _. split; [reflexivity|]. split; [|done]. by constructor.
Qed.

(** The links [erase] rewrites, with the tail of the queue. *)
Lemma erase_links {A} h q d l0 p x n l2 (k : TSQueue -> heap -> outcome A) :
  queue_rep h q d (tail (l0 ++ [p]) ++ x :: l2) -> head (l0 ++ [p]) = Some d -> p <> x ->
  h !! x = Some n -> prev n = Some p -> next n = first_or l2 None ->
  (h ← match prev n with Some p => set_next (Some p) (next n) h | None => Ret h end;
   n ← load (Some x) h;
   '(q, h) ← match next n with
             | Some y => h ← set_prev (Some y) (prev n) h; Ret (q, h)
             | None =>
                 if bool_decide (Some x = tail_ q) then
                   tn ← load (tail_ q) h; Ret (mkQueue (head_ q) (prev tn) (count_ q) (q_check q), h)
                 else Ret (q, h)
             end;
   h ← set_next (Some x) None h;
   h ← set_prev (Some x) None h;
   k q h) =
  k (mkQueue (head_ q) (last ((l0 ++ [p]) ++ l2)) (count_ q) (q_check q)) (cut_heap p x x (first_or l2 None) h).
Proof.
  intros Hrep Hd Hpx Hn Hp Hnx. pose proof Hrep as [Hh Ht Hc Hnd Hl Hck].
  assert (forall r : list loc, d :: tail (l0 ++ [p]) ++ r = (l0 ++ [p]) ++ r) as Htl.
  { intros r. destruct (l0 ++ [p]); [done|]. by injection Hd as ->. }
  rewrite Htl in Ht.
  assert (forall y, y ∈ (l0 ++ [p]) ++ x :: l2 -> is_Some (h !! y)) as Hall
    by (intros y Hy; rewrite <- Htl in Hy; by eapply rep_lookup).
  assert (is_Some (h !! p)) as Hsp by (apply Hall; set_solver).
  assert (is_Some (h !! x)) as Hsx by by eexists.
  rewrite Hp, Hnx. run_heap.
  rewrite (load_some x n) by (by rewrite lookup_alter_ne). cbn [mbind outcome_bind]. rewrite Hnx, Hp.
  unfold cut_heap. destruct l2 as [|y l2]; cbn [first_or].
  - rewrite last_snoc in Ht. rewrite Ht, bool_decide_true by done.
    rewrite (load_some x n) by (by rewrite lookup_alter_ne). cbn [mbind outcome_bind]. run_heap.
    by rewrite Hp, app_nil_r, last_snoc.
  - assert (is_Some (h !! y)) as Hsy by (apply Hall; set_solver). run_heap.
    f_equal. destruct q; cbn [head_ tail_ count_ q_check] in *. by rewrite Ht, !last_app_ne.
Qed.

Lemma erase_rep h q d l1 x l2 :
  queue_rep h q d (l1 ++ x :: l2) -> sz (l1 ++ x :: l2) < 2 ^ 64 ->
  exists q' h', erase x q h = Ret (true, q', h') /\ queue_rep h' q' d (l1 ++ l2) /\ q_check q' = q_check q.
Proof.
  intros Hrep Hsz. destruct (rep_next h q d l1 x l2 Hrep) as (n & Hn & Hp & Hnx & Hcheck).
  destruct (chain_last d l1) as (l0 & p & Hchain & Hlast). rewrite Hlast in Hp.
  pose proof Hrep as [Hh Ht Hc Hnd Hl Hck].
  rewrite app_comm_cons in Hnd. apply NoDup_app in Hnd as (_ & Hsep & [Hx _]%NoDup_cons).
  assert (p <> x) as Hpx by (intros ->; apply (Hsep x); [rewrite Hchain|]; set_solver).
  assert (l1 = tail (l0 ++ [p]) /\ head (l0 ++ [p]) = Some d) as [Hl1 Hd] by (by rewrite <- Hchain).
  rewrite Hl1 in Hrep.
  destruct (cut_rep h q d l0 p [x] x x l2
    (mkQueue (head_ q) (last ((l0 ++ [p]) ++ l2)) (u64 (count_ q - 1)) (q_check q))) as (Hq' & _ & _ & _); try done.
  { cbn [count_]. rewrite <- Hl1, Hc, !length_app in *. cbn [length] in *. rewrite u64_small; lia. }
  unfold erase. cbv zeta. rewrite (load_some x n) by done. cbn [mbind outcome_bind].
  rewrite bool_decide_false by (rewrite Hcheck; tauto).
  exists (mkQueue (head_ q) (last ((l0 ++ [p]) ++ l2)) (u64 (count_ q - 1)) (q_check q)),
    (drop_ref x (alter (w_check None) x (cut_heap p x x (first_or l2 None) h))).
  split; [|split; [|done]].
  - rewrite (erase_links h q d l0 p x n l2) by done. cbn [head_ tail_ count_ q_check].
    rewrite set_check_some by (apply cut_heap_is_Some; by eexists). cbn [mbind outcome_bind].
    by rewrite DecrementRef_some by (apply alter_is_Some, cut_heap_is_Some; by eexists).
  - rewrite Hl1. apply release_rep; [exact Hq'|]. rewrite <- Hl1, app_comm_cons.
    intros [Hin|Hin]%elem_of_app; [|done]. apply (Hsep x Hin). set_solver.
Qed.

Lemma push_list_rep h q d l s m :
  queue_rep h q d l -> slist_rep h s (q_check q) m -> s_check s = q_check q -> m <> [] -> NoDup ((d :: l) ++ m) ->
  sz l + sz m < 2 ^ 64 ->
  exists q' h', push_list s q h = Ret (q', SList_new, h') /\ queue_rep h' q' d (l ++ m) /\ q_check q' = q_check q.
Proof.
  intros [Hh Ht Hc Hnd Hl Hck] [Sh St Sc Snd Sl Sck] Hsc Hne Hall Hsz.
  destruct m as [|x r]; [done|]. destruct (chain_last x r) as (m0 & e & Hm & He).
  destruct (chain_last d l) as (l0 & t & Hchain & Hlast). rewrite He in St. rewrite Hlast in Ht.
  assert (forall y, y ∈ d :: l -> y ∉ x :: r) as Hsep by (by apply NoDup_app in Hall as (_ & ? & _)).
  assert (t ∈ d :: l /\ e ∈ x :: r) as [Htin Hein] by (rewrite Hchain, Hm; set_solver).
  assert (is_Some (h !! t)) as Hst by (eapply dseg_lookup; [exact Hl|done]).
  assert (is_Some (h !! x)) as Hsx by (eapply dseg_lookup; [exact Sl|set_solver]).
  assert (is_Some (h !! e)) as Hse by (eapply dseg_lookup; [exact Sl|done]).
  unfold push_list, s_empty. rewrite Sh, St. cbn [head]. rewrite !bool_decide_false by (done || tauto).
  cbn [tail_ count_ head_ q_check]. rewrite Ht. run_heap.
  eexists _, _. split; [reflexivity|]. split; [|done].
  constructor; cbn [head_ tail_ count_ q_check]; try done.
  - by rewrite app_comm_cons, last_app_ne.
  - rewrite Hc, Sc, u64_small, length_app by lia. lia.
  - rewrite app_comm_cons. apply dseg_app. split.
    + apply dseg_alter_frame; [by intros ?%Hsep|]. apply dseg_alter_frame; [intros Hx%Hsep; set_solver|].
      rewrite Hchain in *. apply nodup_snoc_inv in Hnd as [Ht0 _]. by eapply dseg_w_next.
    + unfold last_or. rewrite Hlast. rewrite Hm.
      rewrite Hm in Snd. pose proof (nodup_snoc_inv _ _ Snd) as [He0 _]. apply (dseg_w_next _ _ _ _ None); [done|].
      rewrite <- Hm. rewrite <- Hm in Snd. apply NoDup_cons in Snd as [Hxr _].
      apply (dseg_w_prev _ None); [done|]. apply dseg_alter_frame; [by apply Hsep|done].
  - apply Forall_app. split; by repeat apply checked_alter.
Qed.

Lemma walk_prev_spec h q d : forall l1 x l2 fuel n c,
  queue_rep h q d (l1 ++ x :: l2) -> (Z.to_nat (n - c) <= fuel)%nat ->
  let k := Nat.min (Z.to_nat (n - c)) (length l1) in
  walk_prev fuel n c (Some d) (Some x) h = Ret (c + Z.of_nat k, (l1 ++ [x]) !! (length l1 - k)%nat).
Proof.
  induction l1 as [|z l1 IH] using rev_ind; intros x l2 fuel n c Hrep Hf; cbv zeta;
    destruct (rep_next h q d _ x l2 Hrep) as (nd & Hn & Hp & _ & _).
  - cbn [length]. rewrite Nat.min_0_r. destruct fuel as [|fuel]; cbn [walk_prev]; destruct (c <? n) eqn:E; zbool;
      rewrite ?(load_some x nd) by done; cbn [mbind outcome_bind]; rewrite ?Hp; cbn [last];
      rewrite ?bool_decide_true by done; by rewrite Z.add_0_r.
  - rewrite app_comm_cons, last_snoc in Hp. rewrite <- app_assoc in Hrep. cbn [app] in Hrep.
    assert (z <> d) as Hzd.
    { pose proof (rep_nodup _ _ _ _ Hrep) as [Hd _]%NoDup_cons. intros ->. apply Hd. set_solver. }
    rewrite length_app. cbn [length].
    destruct (decide (n <= c)) as [Hle|Hgt].
    + replace (Z.to_nat (n - c)) with 0%nat by lia. cbn [Nat.min]. rewrite Nat.sub_0_r, Z.add_0_r.
      rewrite lookup_app_r by (rewrite length_app; cbn [length]; lia).
      rewrite length_app. cbn [length]. rewrite Nat.sub_diag.
      destruct fuel; cbn [walk_prev]; by rewrite (proj2 (Z.ltb_ge _ _)) by lia.
    + destruct fuel as [|fuel]; [lia|]. cbn [walk_prev]. rewrite (proj2 (Z.ltb_lt _ _)) by lia.
      rewrite (load_some x nd) by done. cbn [mbind outcome_bind]. rewrite Hp.
      rewrite bool_decide_false by congruence. rewrite (IH z (x :: l2) fuel n (c + 1) Hrep) by lia.
      set (k := Nat.min (Z.to_nat (n - (c + 1))) (length l1)).
      replace (Nat.min (Z.to_nat (n - c)) (length l1 + 1)) with (S k) by lia.
      f_equal. f_equal; [lia|]. rewrite (lookup_app_l (l1 ++ [z]) [x]) by (rewrite length_app; cbn [length]; lia).
      f_equal. lia.
Qed.

Lemma cut_heap_end h p f t n :
  h !! t = Some n -> next n = None ->
  cut_heap p f t None h = alter (w_prev None) f (alter (w_next None) p h).
Proof.
  intros Hn Hnx. unfold cut_heap. f_equal. apply map_eq. intros i.
  destruct (decide (t = i)) as [<-|Hne]; [|by rewrite lookup_alter_ne].
  rewrite lookup_alter_eq. destruct (decide (p = t)) as [->|Hpt].
  - by rewrite lookup_alter_eq, Hn.
  - rewrite lookup_alter_ne, Hn by done. cbn. f_equal. destruct n; cbn in *. by subst.
Qed.

Lemma pop_back_rep h q d l n :
  queue_rep h q d l -> l <> [] -> sz l < 2 ^ 64 ->
  let k := (length l - taken n l)%nat in
  exists s q' h', pop_back n q h = Ret (s, q', h') /\
    slist_rep h' s (q_check q) (drop k l) /\ s_check s = q_check q /\
    queue_rep h' q' d (take k l) /\ q_check q' = q_check q.
Proof.
  intros Hrep Hne Hsz k. pose proof (queue_empty _ _ _ _ Hrep) as He.
  pose proof Hrep as [Hh Ht Hc Hnd Hl Hck].
  destruct l as [|t l1 _] using rev_ind; [done|].
  destruct (rep_next h q d l1 t [] Hrep) as (tn & Htn & _ & Htnx & _).
  unfold pop_back. rewrite He, bool_decide_false, Hh, Ht by (done || by destruct l1).
  rewrite app_comm_cons, last_snoc, (walk_prev_spec h q d l1 t []) by (done || lia). cbv zeta.
  set (j := Nat.min (Z.to_nat (n - 1)) (length l1)). cbn [mbind outcome_bind].
  assert (k = length l1 - j)%nat as Hk by (unfold k, taken, j; rewrite length_app; cbn [length]; lia).
  rewrite <- Hk. clearbody k. set (l := l1 ++ [t]) in *.
  assert (length l = S (length l1)) as Hlen by (unfold l; rewrite length_app; cbn [length]; lia).
  destruct (lookup_lt_is_Some_2 l k) as [f Hf]; [lia|]. rewrite Hf.
  assert (l = take k l ++ f :: drop (S k) l) as Hsplit by (symmetry; by apply take_drop_middle).
  assert (drop k l = f :: drop (S k) l) as Hdrop by by apply drop_S.
  rewrite Hsplit in Hrep. destruct (rep_next h q d _ f _ Hrep) as (fn & Hfn & Hfp & _ & _).
  destruct (chain_last d (take k l)) as (l0 & p & Hchain & Hlastp). rewrite Hlastp in Hfp.
  rewrite <- Hdrop in Hrep.
  assert (take k l = tail (l0 ++ [p]) /\ head (l0 ++ [p]) = Some d) as [Htk Hhd] by (by rewrite <- Hchain).
  assert (last (drop k l) = Some t) as Hlast.
  { rewrite <- (last_app_ne (take k l) (drop k l)), take_drop by (by rewrite Hdrop). apply last_snoc. }
  assert (is_Some (h !! p)) as Hsp.
  { eapply rep_lookup; [exact Hrep|]. rewrite app_comm_cons, Hchain. set_solver. }
  assert (is_Some (h !! f)) as Hsf by by eexists.
  rewrite (load_some f fn) by done. cbn [mbind outcome_bind head_ tail_ count_ q_check]. rewrite Hfp. run_heap.
  rewrite <- (app_nil_r (drop k l)), Htk in Hrep.
  destruct (cut_rep h q d l0 p (drop k l) f t []
    (mkQueue (Some d) (Some p) (u64 (count_ q - (1 + Z.of_nat j))) (q_check q))) as (Hq' & Hdm & Hndm & Hckm);
    try done.
  { by rewrite Hdrop. } { by rewrite app_nil_r, last_snoc. }
  { cbn [count_]. rewrite app_nil_r, <- Htk, Hc, length_take_le, Hlen by lia. rewrite u64_small; lia. }
  rewrite app_nil_r, <- Htk in Hq'. cbn [first_or] in *. rewrite (cut_heap_end h p f t tn) in Hq', Hdm, Hckm by done.
  eexists _, _, _. split; [reflexivity|]. split; [|done].
  constructor; cbn [s_head s_tail s_count]; try done; [by rewrite Hdrop|].
  rewrite length_drop. lia.
Qed.

(** An empty queue answers with nothing and is unchanged. *)
Lemma queue_empty_ops h q d n :
  queue_rep h q d [] ->
  pop q h = Ret (None, q, h) /\ pop_front n q h = Ret (SList_new, q, h) /\
  pop_back n q h = Ret (SList_new, q, h) /\ pop_all q h = Ret (SList_new, q, h).
Proof.
  intros Hrep. pose proof (queue_empty _ _ _ _ Hrep) as He. rewrite bool_decide_true in He by done.
  unfold pop, pop_front, pop_back, pop_all. by rewrite He.
Qed.

Lemma slist_empty h c : slist_rep h SList_new c [].
Proof. constructor; try done; constructor. Qed.

(** ** Marks and references *)

(** The mark and the count of references of an element. *)
Definition meta (h : heap) (x : loc) : option (option loc * Z) := (fun n => (check_ n, reference_ n)) <$> h !! x.
(** An element that joins a queue; one whose reference the queue drops, which is deleted with its last. *)
Definition acquired (c : option loc) (m : option (option loc * Z)) : option (option loc * Z) :=
  (fun '(_, r) => (c, r + 1)) <$> m.
Definition released (m : option (option loc * Z)) : option (option loc * Z) :=
  '(_, r) ← m; if r - 1 =? 0 then None else Some (None, r - 1).
Definition only_at (x : loc) (f : option (option loc * Z) -> option (option loc * Z)) (h h' : heap) : Prop :=
  forall y, meta h' y = if decide (y = x) then f (meta h x) else meta h y.

Ltac bind_inv :=
  repeat match goal with
  | H : (_ ≫= _) = Ret _ |- _ => apply outcome_bind_inv in H as (? & ? & H)
  | H : (let '(_, _) := ?p in _) = Ret _ |- _ => destruct p
  end.

Lemma load_inv x h n : load (Some x) h = Ret n -> h !! x = Some n.
Proof. unfold load, deref. by case_match; intros [= ->]. Qed.

Lemma meta_insert x n h y : meta (<[x := n]> h) y = if decide (y = x) then Some (check_ n, reference_ n) else meta h y.
Proof.
  unfold meta. case_decide as E; [subst; by rewrite lookup_insert_eq|by rewrite lookup_insert_ne].
Qed.

Lemma set_prev_meta x v h h' : set_prev x v h = Ret h' -> forall y, meta h' y = meta h y.
Proof.
  unfold set_prev. intros H y. bind_inv. destruct x as [l|]; [|done]. apply load_inv in H0. simplify_eq/=.
  rewrite meta_insert. case_decide; [|done]. subst. unfold meta. by rewrite H0.
Qed.
Lemma set_next_meta x v h h' : set_next x v h = Ret h' -> forall y, meta h' y = meta h y.
Proof.
  unfold set_next. intros H y. bind_inv. destruct x as [l|]; [|done]. apply load_inv in H0. simplify_eq/=.
  rewrite meta_insert. case_decide; [|done]. subst. unfold meta. by rewrite H0.
Qed.
Lemma set_check_meta x v h h' : set_check (Some x) v h = Ret h' -> only_at x (fmap (fun m => (v, m.2))) h h'.
Proof.
  unfold set_check. intros H y. bind_inv. apply load_inv in H0. simplify_eq/=.
  rewrite meta_insert. case_decide; [|done]. subst. unfold meta. by rewrite H0.
Qed.
Lemma IncrementRef_meta x h h' : IncrementRef (Some x) h = Ret h' -> only_at x (fmap (fun m => (m.1, m.2 + 1))) h h'.
Proof.
  unfold IncrementRef. intros H y. bind_inv. apply load_inv in H0. simplify_eq/=.
  rewrite meta_insert. case_decide; [|done]. subst. unfold meta. by rewrite H0.
Qed.
Lemma DecrementRef_meta x h h' : DecrementRef (Some x) h = Ret h' ->
  only_at x (fun m => '(c, r) ← m; if r - 1 =? 0 then None else Some (c, r - 1)) h h'.
Proof.
  unfold DecrementRef. intros H y. bind_inv. apply load_inv in H0. simplify_eq/=. unfold meta at 2. rewrite H0. cbn.
  case_match; simplify_eq/=.
  - unfold meta. case_decide; [subst; by rewrite lookup_delete_eq|by rewrite lookup_delete_ne].
  - by rewrite meta_insert.
Qed.

(** Marks and counts after the writes of an operation, latest first. *)
Ltac meta_run :=
  repeat match goal with
  | H : set_prev _ _ ?h = Ret ?h' |- context [meta ?h' _] => rewrite !(set_prev_meta _ _ _ _ H)
  | H : set_next _ _ ?h = Ret ?h' |- context [meta ?h' _] => rewrite !(set_next_meta _ _ _ _ H)
  | H : set_check _ _ ?h = Ret ?h' |- context [meta ?h' _] => rewrite !(set_check_meta _ _ _ _ H)
  | H : IncrementRef _ ?h = Ret ?h' |- context [meta ?h' _] => rewrite !(IncrementRef_meta _ _ _ H)
  | H : DecrementRef _ ?h = Ret ?h' |- context [meta ?h' _] => rewrite !(DecrementRef_meta _ _ _ H)
  end.

Lemma push_meta x q h q' h' : push x q h = Ret (q', h') -> only_at x (acquired (q_check q)) h h'.
Proof.
  unfold push. cbv zeta. intros H y. bind_inv. injection H as <- <-. meta_run.
  repeat case_decide; try done. unfold acquired. by destruct (meta h x) as [[]|].
Qed.

Lemma released_steps (m : option (option loc * Z)) :
  ('(c, r) ← (fun m => (None, m.2)) <$> m; if r - 1 =? 0 then None else Some (c, r - 1)) = released m.
Proof. by destruct m as [[]|]. Qed.

(** The writes that are made only when there is a neighbour. *)
Ltac link_cases :=
  repeat match goal with
  | H : match ?o with Some _ => _ | None => Ret _ end = Ret _ |- _ => destruct o; [|injection H as <-]
  end.

Lemma pop_meta q h x q' h' : pop q h = Ret (Some x, q', h') -> only_at x released h h'.
Proof.
  unfold pop. destruct (q_empty q); [done|]. cbv zeta. intros H y. bind_inv. injection H as Hx <- <-. rewrite Hx in *.
  link_cases; meta_run; repeat case_decide; try done; apply released_steps.
Qed.

Lemma pop_front_meta n q h s q' h' : pop_front n q h = Ret (s, q', h') -> forall y, meta h' y = meta h y.
Proof.
  unfold pop_front. destruct (q_empty q); [by intros [= <- <- <-]|]. cbv zeta. intros H y. bind_inv. injection H as <- <- <-.
  link_cases; by meta_run.
Qed.
Lemma pop_back_meta n q h s q' h' : pop_back n q h = Ret (s, q', h') -> forall y, meta h' y = meta h y.
Proof.
  unfold pop_back. destruct (q_empty q); [by intros [= <- <- <-]|]. cbv zeta. intros H y. bind_inv. injection H as <- <- <-. by meta_run.
Qed.
Lemma pop_all_meta q h s q' h' : pop_all q h = Ret (s, q', h') -> forall y, meta h' y = meta h y.
Proof.
  unfold pop_all. destruct (q_empty q); [by intros [= <- <- <-]|]. cbv zeta. intros H y. bind_inv. injection H as <- <- <-. by meta_run.
Qed.
Lemma push_list_meta s q h q' s' h' : push_list s q h = Ret (q', s', h') -> forall y, meta h' y = meta h y.
Proof.
  unfold push_list. destruct (s_empty s); [by intros [= <- <- <-]|]. destruct (bool_decide _); [done|].
  cbv zeta. intros H y. bind_inv. injection H as <- <- <-. by meta_run.
Qed.
Lemma erase_meta x q h q' h' : erase x q h = Ret (true, q', h') -> only_at x released h h'.
Proof.
  unfold erase. cbv zeta. intros H y. apply outcome_bind_inv in H as (n & Hn & H). destruct (bool_decide _); [done|]. bind_inv.
  injection H as _ <-.
  assert (forall z, meta g z = meta h z) as Hg.
  { intros z. destruct (next x1); [|destruct (bool_decide _)]; bind_inv; injection H2 as <- <-; link_cases; by meta_run. }
  meta_run. rewrite !Hg. repeat case_decide; try done; apply released_steps.
Qed.

Lemma seg_neighbours h m1 x m2 : dseg h None (m1 ++ x :: m2) None ->
  exists n, h !! x = Some n /\ (forall p, prev n = Some p -> p ∈ m1) /\ (forall y, next n = Some y -> y ∈ m2).
Proof.
  intros [_ [(n & Hn & Hp & Hnx) _]]%dseg_app. exists n. split; [done|]. split.
  - intros p E. rewrite E in Hp. unfold last_or in Hp. destruct (last m1) as [z|] eqn:El; [|done]. injection Hp as ->.
    apply last_Some in El as [m0 ->]. set_solver.
  - intros y E. rewrite E in Hnx. destruct m2; [done|]. injection Hnx as ->. set_solver.
Qed.

(** An element that was taken from the queue in a list still carries its mark. *)
Lemma erase_taken h q d l s m1 x m2 :
  queue_rep h q d l -> slist_rep h s (q_check q) (m1 ++ x :: m2) -> (forall y, y ∈ d :: l -> y ∉ m1 ++ x :: m2) ->
  exists q' h', erase x q h = Ret (true, q', h') /\ dseg h' None (d :: l) None /\
    head_ q' = head_ q /\ tail_ q' = tail_ q /\ count_ q' = u64 (count_ q - 1).
Proof.
  intros Hrep [_ _ _ Snd Sl Sck] Hsep.
  assert (forall y, y ∈ m1 ++ x :: m2 -> is_Some (h !! y) /\ y ∉ d :: l) as Hall.
  { intros y Hy. split; [by eapply dseg_lookup|]. intros Hd. by destruct (Hsep y Hd). }
  destruct (seg_neighbours _ _ _ _ Sl) as (n & Hn & Hpin & Hnin). destruct (Hall x) as [_ Hx]; [set_solver|].
  assert (check_ n = q_check q) as Hc.
  { rewrite Forall_app in Sck. destruct Sck as [_ [(n' & Hn' & Hc) _]%Forall_cons]. congruence. }
  apply NoDup_app in Snd as (_ & Hs & [Hx2 _]%NoDup_cons). assert (x ∉ m1) as Hx1 by (intros H1; apply (Hs x H1); set_solver).
  pose proof (rep_links _ _ _ _ Hrep) as Hl.
  assert (Some x <> tail_ q) as Htail.
  { rewrite (rep_tail _ _ _ _ Hrep). intros E. symmetry in E. apply last_Some in E as [l' E]. apply Hx. rewrite E. set_solver. }
  unfold erase. cbv zeta. rewrite (load_some x n) by done. cbn [mbind outcome_bind]. rewrite bool_decide_false by tauto.
  set (h1 := match prev n with Some p => alter (w_next (next n)) p h | None => h end).
  assert (match prev n with Some p => set_next (Some p) (next n) h | None => Ret h end = Ret h1) as ->.
  { unfold h1. destruct (prev n) as [p|] eqn:Ep; [|done]. rewrite set_next_some; [done|]. apply Hall. set_solver. }
  assert (h1 !! x = Some n /\ dseg h1 None (d :: l) None /\ forall y, is_Some (h !! y) -> is_Some (h1 !! y)) as (Hn1 & Hl1 & Hs1).
  { unfold h1. destruct (prev n) as [p|] eqn:Ep; [|done]. split_and!.
    - rewrite lookup_alter_ne; [done|]. intros ->. by apply Hx1, Hpin.
    - apply dseg_alter_frame; [|done]. apply Hall. specialize (Hpin p eq_refl). set_solver.
    - intros y Hy. auto with natsu. }
  clearbody h1. cbn [mbind outcome_bind]. rewrite (load_some x n) by done. cbn [mbind outcome_bind].
  set (h2 := match next n with Some y => alter (w_prev (prev n)) y h1 | None => h1 end).
  assert (is_Some (h2 !! x) /\ dseg h2 None (d :: l) None) as [Hs2 Hl2].
  { unfold h2. destruct (next n) as [y|] eqn:Ey; [|split; [by eexists|done]]. split; [apply alter_is_Some; by eexists|].
    apply dseg_alter_frame; [|done]. apply Hall. specialize (Hnin y eq_refl). set_solver. }
  exists (mkQueue (head_ q) (tail_ q) (u64 (count_ q - 1)) (q_check q)),
    (drop_ref x (alter (w_check None) x (alter (w_prev None) x (alter (w_next None) x h2)))).
  split; [|split; [|done]].
  - rewrite (bool_decide_false (Some x = tail_ q)) by done. destruct (next n) as [y|] eqn:Ey.
    + rewrite set_prev_some by (apply Hs1, Hall; specialize (Hnin y eq_refl); set_solver). cbn [mbind outcome_bind]. fold h2. by run_heap.
    + cbn [mbind outcome_bind]. unfold h2 in *. by run_heap.
  - apply dseg_drop_ref; [done|]. by do 3 (apply dseg_alter_frame; [done|]).
Qed.

(** C38: [TSQueue] implements a list: pushing appends, popping takes from the
    front (or the back) as many elements as asked for, at least one and at most
    all, erasing removes the element wherever it is, pushing a list that was taken from the queue
    appends it, and an element without the queue's mark
    is refused; links, tail pointer and count stay consistent.  The references are right: a pushed element
    gets the queue's mark and one reference more, a popped or erased one loses
    both (and is deleted if that was its last), taking elements as a list and
    pushing them back changes neither, and no operation changes those of another
    element.  The mark of an element in such a list is the queue's, so [erase]
    accepts it too: the queue's elements stay, but its count is one less. *)
Theorem tsqueue_refines h q d l :
  queue_rep h q d l -> sz l + 1 < 2 ^ 64 ->
  q_empty q = bool_decide (l = []) /\ q_size q = sz l /\
  (forall x, x ∉ d :: l -> is_Some (h !! x) ->
    exists q' h', push x q h = Ret (q', h') /\ queue_rep h' q' d (l ++ [x]) /\ only_at x (acquired (q_check q)) h h') /\
  (exists q' h', pop q h = Ret (head l, q', h') /\ queue_rep h' q' d (tail l) /\
     forall x, head l = Some x -> only_at x released h h') /\
  (forall n, exists s q' h', pop_front n q h = Ret (s, q', h') /\
    slist_rep h' s (q_check q) (take (taken n l) l) /\ queue_rep h' q' d (drop (taken n l) l) /\
    forall y, meta h' y = meta h y) /\
  (forall n, exists s q' h', pop_back n q h = Ret (s, q', h') /\
    slist_rep h' s (q_check q) (drop (length l - taken n l) l) /\
    queue_rep h' q' d (take (length l - taken n l) l) /\ forall y, meta h' y = meta h y) /\
  (exists s q' h', pop_all q h = Ret (s, q', h') /\ slist_rep h' s (q_check q) l /\ queue_rep h' q' d [] /\
    forall y, meta h' y = meta h y) /\
  (forall s m, slist_rep h s (q_check q) m -> s_check s = q_check q -> m <> [] -> NoDup ((d :: l) ++ m) -> sz l + sz m < 2 ^ 64 ->
    exists q' h', push_list s q h = Ret (q', SList_new, h') /\ queue_rep h' q' d (l ++ m) /\ forall y, meta h' y = meta h y) /\
  (forall l1 x l2, l = l1 ++ x :: l2 ->
    exists q' h', erase x q h = Ret (true, q', h') /\ queue_rep h' q' d (l1 ++ l2) /\ only_at x released h h') /\
  (forall x n, h !! x = Some n -> check_ n <> q_check q -> erase x q h = Ret (false, q, h)) /\
  (forall s m1 x m2, slist_rep h s (q_check q) (m1 ++ x :: m2) -> (forall y, y ∈ d :: l -> y ∉ m1 ++ x :: m2) ->
    exists q' h', erase x q h = Ret (true, q', h') /\ dseg h' None (d :: l) None /\
      head_ q' = head_ q /\ tail_ q' = tail_ q /\ count_ q' = u64 (sz l - 1)).
Proof.
  intros Hrep Hsz. split_and!.
  - by apply (queue_empty h q d).
  - apply Hrep.
  - intros x Hx Hin. destruct (push_rep h q d l x Hrep Hx Hin Hsz) as (q' & h' & Hp & Hr & _). eauto 10 using push_meta.
  - destruct l as [|x l]; [destruct (queue_empty_ops h q d 0 Hrep) as (Hp & _); exists q, h; by split_and!|].
    destruct (pop_rep h q d x l Hrep) as (q' & h' & Hp & Hr & _); [cbn [length] in Hsz; lia|].
    exists q', h'. split_and!; [done..|]. intros ? [= <-]. by eapply pop_meta.
  - intros n. destruct (decide (l = [])) as [->|Hne].
    + destruct (queue_empty_ops h q d n Hrep) as (_ & Hp & _). rewrite take_nil, drop_nil. eauto 10 using slist_empty.
    + destruct (pop_front_rep h q d l n Hrep Hne) as (s & q' & h' & Hp & Hs & _ & Hr & _); [lia|]. eauto 10 using pop_front_meta.
  - intros n. destruct (decide (l = [])) as [->|Hne].
    + destruct (queue_empty_ops h q d n Hrep) as (_ & _ & Hp & _). rewrite take_nil, drop_nil. eauto 10 using slist_empty.
    + destruct (pop_back_rep h q d l n Hrep Hne) as (s & q' & h' & Hp & Hs & _ & Hr & _); [lia|]. eauto 10 using pop_back_meta.
  - destruct (decide (l = [])) as [->|Hne].
    + destruct (queue_empty_ops h q d 0 Hrep) as (_ & _ & _ & Hp). eauto 10 using slist_empty.
    + destruct (pop_all_rep h q d l Hrep Hne) as (s & q' & h' & Hp & Hs & _ & Hr & _). eauto 10 using pop_all_meta.
  - intros s m Hs Hsc Hne Hnd Hm. destruct (push_list_rep h q d l s m Hrep Hs Hsc Hne Hnd Hm) as (q' & h' & Hp & Hr & _).
    eauto 10 using push_list_meta.
  - intros l1 x l2 ->. destruct (erase_rep h q d l1 x l2 Hrep) as (q' & h' & He & Hr & _); [lia|]. eauto 10 using erase_meta.
  - intros x n Hn Hc. unfold erase. rewrite (load_some x n) by done. cbn [mbind outcome_bind].
    by rewrite bool_decide_true.
  - intros s m1 x m2 Hs Hsep. rewrite <- (rep_count _ _ _ _ Hrep). by eapply erase_taken.
Qed.

(** Elements taken from a queue as a list can be put back: popping the
    front and pushing the list again rotates the queue, popping the back and
    pushing it restores it. *)
Theorem requeue h q d l n :
  queue_rep h q d l -> l <> [] -> sz l < 2 ^ 64 ->
  (exists q' h', ('(s, q, h) ← pop_front n q h; '(q, _, h) ← push_list s q h; Ret (q, h)) = Ret (q', h') /\
    queue_rep h' q' d (drop (taken n l) l ++ take (taken n l) l)) /\
  (exists q' h', ('(s, q, h) ← pop_back n q h; '(q, _, h) ← push_list s q h; Ret (q, h)) = Ret (q', h') /\
    queue_rep h' q' d l).
Proof.
  intros Hrep Hne Hsz.
  assert (forall k, (0 < k)%nat -> take k l <> []) as Htake by (intros [|k] Hk; [lia|]; by destruct l).
  pose proof (rep_nodup _ _ _ _ Hrep) as [Hd Hnd]%NoDup_cons.
  assert (forall k, NoDup ((d :: drop k l) ++ take k l)) as Hrot.
  { intros k. assert ((d :: drop k l) ++ take k l ≡ₚ d :: l) as ->; [|by constructor].
    cbn [app]. rewrite (Permutation_app_comm (drop k l)), take_drop. done. }
  split.
  - destruct (pop_front_rep h q d l n Hrep Hne Hsz) as (s & q1 & h1 & -> & Hs & Hsc & Hr & Hc). cbn [mbind outcome_bind].
    rewrite <- Hc in Hs, Hsc. destruct (push_list_rep h1 q1 d _ s _ Hr Hs Hsc) as (q2 & h2 & -> & Hr2 & _); eauto.
    { apply Htake. unfold taken. lia. } { rewrite length_take, length_drop. lia. }
  - destruct (pop_back_rep h q d l n Hrep Hne Hsz) as (s & q1 & h1 & -> & Hs & Hsc & Hr & Hc). cbn [mbind outcome_bind].
    rewrite <- Hc in Hs, Hsc. destruct (push_list_rep h1 q1 d _ s _ Hr Hs Hsc) as (q2 & h2 & -> & Hr2 & _).
    + intros Hnil. apply (f_equal length) in Hnil. rewrite length_drop in Hnil. unfold taken in Hnil.
      destruct l; [done|]. cbn [length] in *. lia.
    + rewrite <- app_comm_cons, take_drop. by constructor.
    + rewrite length_take, length_drop. lia.
    + rewrite take_drop in Hr2. eauto.
Qed.

(** ** [SList::erase] and [SList::clear] *)

Fixpoint s_clear_loop (fuel : nat) (it : option loc) (s : SList) (h : heap) : outcome (SList * heap) :=
  match it with
  | None => Ret (SList_new, h)
  | Some _ =>
      match fuel with
      | O => Fuel
      | S fuel' => '(it, s, h) ← s_erase it s h; s_clear_loop fuel' it s h
      end
  end.
(** [clear()]; the count bounds the rounds. *)
Definition s_clear (s : SList) (h : heap) : outcome (SList * heap) :=
  s_clear_loop (Z.to_nat (s_count s)) (s_head s) s h.

(** Erasing the first element, which is what [clear] does. *)
Lemma s_erase_front h s c x l :
  slist_rep h s c (x :: l) -> sz l < 2 ^ 64 ->
  exists s' h', s_erase (Some x) s h = Ret (first_or l None, s', h') /\ slist_rep h' s' c l.
Proof.
  intros [Sh St Sc Snd Sl Sck] Hsz. pose proof Sl as [(n & Hn & Hp & Hnx) Hl].
  apply NoDup_cons in Snd as [Hx Hnd]. apply Forall_cons in Sck as [_ Hck].
  assert (is_Some (h !! x)) as Hsx by by eexists.
  unfold s_erase. cbv zeta. rewrite (load_some x n) by done. cbn [mbind outcome_bind]. rewrite Hp, Sh.
  cbn [head]. rewrite (load_some x n) by done. cbn [mbind outcome_bind].
  rewrite ?(load_some x n) by done. cbn [mbind outcome_bind]. rewrite Hnx.
  destruct l as [|y l]; cbn [first_or s_tail s_head s_check s_count].
  - rewrite St. cbn [last]. rewrite (load_some x n) by done. cbn [mbind outcome_bind s_head s_tail s_check s_count].
    run_heap. eexists _, _. split; [reflexivity|].
    constructor; cbn [s_head s_tail s_count]; rewrite ?Hp, ?Sc; try done; constructor.
  - rewrite Hp. assert (is_Some (h !! y)) as Hsy by (eapply dseg_lookup; [exact Hl|set_solver]).
    run_heap. eexists _, _. split; [reflexivity|].
    constructor; cbn [s_head s_tail s_count]; try done.
    + rewrite Sc, u64_small; cbn [length] in *; lia.
    + apply dseg_drop_ref; [done|]. do 3 (apply dseg_alter_frame; [done|]).
      apply NoDup_cons in Hnd as [Hy _]. by eapply dseg_w_prev.
    + apply checked_drop_ref; [done|]. do 3 (apply checked_frame; [done|]). by apply checked_alter.
Qed.

(** Clearing a list ends and releases every element: the list is empty and
    its hooks are unlinked one by one. *)
Theorem slist_clear h s c l :
  slist_rep h s c l -> sz l < 2 ^ 64 -> exists h', s_clear s h = Ret (SList_new, h').
Proof.
  intros Hrep Hsz. unfold s_clear. rewrite (srep_count _ _ _ _ Hrep), Nat2Z.id, (srep_head _ _ _ _ Hrep).
  revert s h Hrep. induction l as [|x l IH]; intros s h Hrep; cbn [length s_clear_loop head]; [by eexists|].
  cbn [length] in Hsz. destruct (s_erase_front h s c x l Hrep) as (s' & h' & -> & Hrep'); [lia|].
  cbn [mbind outcome_bind]. destruct (IH ltac:(lia) s' h' Hrep') as [h2 Hc]. exists h2.
  by destruct l.
Qed.

(** ** Witnesses *)

Definition demo_heap : heap := list_to_map [(10%positive, mkHook None None None 2);
  (11%positive, mkHook None None None 2); (12%positive, mkHook None None None 2)].
Definition demo_built : outcome (TSQueue * heap) :=
  let '(q, h) := TSQueue_new 1 2 demo_heap in
  '(q, h) ← push 10 q h; '(q, h) ← push 11 q h; push 12 q h.
Definition demo_q : TSQueue := mkQueue (Some 2%positive) (Some 12%positive) 3 (Some 1%positive).
Definition demo_h : heap := list_to_map [
  (2%positive, mkHook None (Some 10%positive) None 1);
  (10%positive, mkHook (Some 2%positive) (Some 11%positive) (Some 1%positive) 3);
  (11%positive, mkHook (Some 10%positive) (Some 12%positive) (Some 1%positive) 3);
  (12%positive, mkHook (Some 11%positive) None (Some 1%positive) 3)].
Definition demo_l : list loc := [10; 11; 12]%positive.

Lemma demo_built_ok : demo_built = Ret (demo_q, demo_h).
Proof. reflexivity. Qed.

Lemma demo_rep : queue_rep demo_h demo_q 2%positive demo_l.
Proof.
  constructor; try reflexivity.
  - by apply (bool_decide_unpack _).
  - cbn [dseg demo_l]. repeat split; eexists; (split; [reflexivity|]); split; reflexivity.
  - repeat constructor; eexists; (split; [reflexivity|]); reflexivity.
Qed.

Lemma tsqueue_refines_witness :
  exists q' h', pop demo_q demo_h = Ret (Some 10%positive, q', h') /\ queue_rep h' q' 2%positive [11; 12]%positive /\
    forall x, Some 10%positive = Some x -> only_at x released demo_h h'.
Proof. apply (tsqueue_refines demo_h demo_q 2%positive demo_l); [apply demo_rep|vm_compute; reflexivity]. Defined.

Lemma requeue_witness :
  exists q' h', ('(s, q, h) ← pop_front 2 demo_q demo_h; '(q, _, h) ← push_list s q h; Ret (q, h)) = Ret (q', h') /\
    queue_rep h' q' 2%positive [12; 10; 11]%positive.
Proof.
  apply (requeue demo_h demo_q 2%positive demo_l 2); [apply demo_rep|discriminate|vm_compute; reflexivity].
Defined.

Lemma slist_clear_witness :
  exists s q h h', pop_all demo_q demo_h = Ret (s, q, h) /\ s_clear s h = Ret (SList_new, h').
Proof.
  destruct (pop_all_rep demo_h demo_q 2%positive demo_l demo_rep) as (s & q & h & Hp & Hs & _); [discriminate|].
  destruct (slist_clear h s _ demo_l Hs) as [h' Hc]; [vm_compute; reflexivity|]. by exists s, q, h, h'.
Defined.

(** An element that has been popped into a list still carries the mark of the
    queue: erasing it through the queue succeeds, and the count of the empty
    queue wraps around. *)
Lemma erase_stolen :
  exists q h, ('(s, q, h) ← pop_all demo_q demo_h; '(ok, q, h) ← erase 11 q h; Ret (ok, q, h)) = Ret (true, q, h) /\
    count_ q = 2 ^ 64 - 1.
Proof. eexists _, _. split; reflexivity. Qed.
