(* ===== verification/TSSkipQueue.v ===== *)
(** * The queue with a skip layer: [TSSkipQueue] of src/libgo/ts_queue.h

    Every [SkipDistance]-th element is remembered in [indexs_], so that taking
    [n] elements walks at most [SkipDistance] links.  The offsets relate the
    positions of the remembered elements to the front and the back.  The theorems
    show that the layer stays consistent and that [pop_front] takes the same
    elements as a walk over all of them would. *)
From S2P Require Import Prelude TSQueue.

Record SkipLayer : Type := mkLayer { indexs_ : list loc; head_offset_ : Z; tail_offset_ : Z }.

(** The links, the count and the queue's own address are those of [TSQueue]. *)
Record TSSkipQueue : Type := mkSkip { base : TSQueue; skip_layer_ : SkipLayer }.

Definition TSSkipQueue_new (self d : loc) (h : heap) : TSSkipQueue * heap :=
  let '(q, h) := TSQueue_new self d h in (mkSkip q (mkLayer [] 0 0), h).

Section Skip.
Context (SkipDistance : Z).

Definition skip_push (element : loc) (k : TSSkipQueue) (h : heap) : outcome (TSSkipQueue * heap) :=
  '(q, h) ← push element (base k) h;
  let layer := skip_layer_ k in
  let tail_offset := tail_offset_ layer + 1 in
  let layer := if tail_offset =? SkipDistance
               then mkLayer (indexs_ layer ++ [element]) (head_offset_ layer) 0
               else mkLayer (indexs_ layer) (head_offset_ layer) tail_offset in
  Ret (mkSkip q layer, h).

(** [for (i = 0; i < next_step; ++i) last = last->next;] *)
Fixpoint walk_steps (next_step : nat) (last : option loc) (h : heap) : outcome (option loc) :=
  match next_step with
  | O => Ret last
  | S k => l ← load last h; walk_steps k (next l) h
  end.

(** The search in the skip layer: from where to walk, how far, and the layer
    without the elements that are taken. *)
Definition skip_search (n count : Z) (first : option loc) (layer : SkipLayer) :
    outcome (option loc * Z * SkipLayer) :=
  let next_step := n - 1 in
  if n <? SkipDistance - head_offset_ layer then
    Ret (first, next_step, mkLayer (indexs_ layer) (head_offset_ layer + n) (tail_offset_ layer))
  else match indexs_ layer with
  | [] => Ret (first, next_step, mkLayer [] (head_offset_ layer) (count - n))
  | _ =>
      let forward := (n + head_offset_ layer - SkipDistance) / SkipDistance in
      let next_step := Z.land (n + head_offset_ layer - SkipDistance) (SkipDistance - 1) in
      last ← deref (indexs_ layer !! Z.to_nat forward);
      let indexs := drop (S (Z.to_nat forward)) (indexs_ layer) in
      match indexs with
      | [] => Ret (Some last, next_step, mkLayer [] 0 (count - n))
      | _ => Ret (Some last, next_step, mkLayer indexs next_step (tail_offset_ layer))
      end
  end.

Definition skip_pop_front (n : Z) (k : TSSkipQueue) (h : heap) : outcome (SList * TSSkipQueue * heap) :=
  let q := base k in
  if q_empty q || (n =? 0) then Ret (SList_new, k, h) else
  hd ← load (head_ q) h;
  let first := next hd in
  let n := Z.min n (count_ q) in
  '(last, next_step, layer) ← skip_search n (count_ q) first (skip_layer_ k);
  last ← walk_steps (Z.to_nat next_step) last h;
  let q := if bool_decide (last = tail_ q) then mkQueue (head_ q) (head_ q) (count_ q) (q_check q) else q in
  ln ← load last h;
  h ← set_next (head_ q) (next ln) h;
  h ← match next ln with Some y => set_prev (Some y) (head_ q) h | None => Ret h end;
  h ← set_next last None h;
  h ← set_prev first None h;
  let q := mkQueue (head_ q) (tail_ q) (u64 (count_ q - n)) (q_check q) in
  Ret (mkSList first last (q_check q) n, mkSkip q layer, h).

(** ** The layer of a list

    The remembered elements are those at distance [SkipDistance], [2 SkipDistance],
    ... from [head_offset_] elements before the front; after the last of them
    [tail_offset_] elements follow. *)
Record layer_ok (layer : SkipLayer) (l : list loc) : Prop := {
  lay_head : 0 <= head_offset_ layer < SkipDistance;
  lay_tail : tail_offset_ layer = (sz l + head_offset_ layer) mod SkipDistance;
  lay_len : sz (indexs_ layer) = (sz l + head_offset_ layer) / SkipDistance;
  lay_index j x : indexs_ layer !! j = Some x ->
    l !! Z.to_nat (SkipDistance * (Z.of_nat j + 1) - head_offset_ layer - 1) = Some x
}.

Definition skip_rep (h : heap) (k : TSSkipQueue) (d : loc) (l : list loc) : Prop :=
  queue_rep h (base k) d l /\ layer_ok (skip_layer_ k) l.

Context (e : Z) (He : 0 <= e) (Hdist : SkipDistance = 2 ^ e).

Lemma dist_pos : 0 < SkipDistance.
Proof. rewrite Hdist. by apply Z.pow_pos_nonneg. Qed.
#[local] Hint Resolve dist_pos : natsu.

Lemma land_dist a : Z.land a (SkipDistance - 1) = a mod SkipDistance.
Proof. rewrite Hdist, <- Z.land_ones by done. f_equal. rewrite Z.ones_equiv. lia. Qed.

Lemma layer_new : layer_ok (mkLayer [] 0 0) [].
Proof.
  pose proof dist_pos. constructor; cbn [indexs_ head_offset_ tail_offset_ length].
  - lia.
  - by rewrite Z.mod_0_l by lia.
  - by rewrite Z.div_0_l by lia.
  - intros j x Hj. by rewrite lookup_nil in Hj.
Qed.

Lemma div_mod_succ a : 0 <= a ->
  (a mod SkipDistance + 1 = SkipDistance ->
    (a + 1) mod SkipDistance = 0 /\ (a + 1) / SkipDistance = a / SkipDistance + 1 /\
    a + 1 = SkipDistance * (a / SkipDistance + 1)) /\
  (a mod SkipDistance + 1 <> SkipDistance ->
    (a + 1) mod SkipDistance = a mod SkipDistance + 1 /\ (a + 1) / SkipDistance = a / SkipDistance).
Proof.
  intros Ha. pose proof dist_pos as Hp. pose proof (Z.div_mod a SkipDistance ltac:(lia)) as Hdm.
  pose proof (Z.mod_pos_bound a SkipDistance Hp) as Hb. split; intros Hm.
  - assert (a + 1 = (a / SkipDistance + 1) * SkipDistance) as Heq by nia.
    repeat split; [|rewrite Heq at 1; apply Z.div_mul; lia|lia].
    rewrite Heq. apply Z.mod_mul. lia.
  - assert (a + 1 = a / SkipDistance * SkipDistance + (a mod SkipDistance + 1)) as Heq by nia.
    split.
    + rewrite Heq, Z.add_comm, Z.mod_add by lia. apply Z.mod_small. lia.
    + rewrite Heq at 1. rewrite Z.div_add_l by lia. rewrite (Z.div_small (_ + 1)) by lia. lia.
Qed.

Lemma layer_push layer l x :
  layer_ok layer l ->
  layer_ok (if tail_offset_ layer + 1 =? SkipDistance
            then mkLayer (indexs_ layer ++ [x]) (head_offset_ layer) 0
            else mkLayer (indexs_ layer) (head_offset_ layer) (tail_offset_ layer + 1)) (l ++ [x]).
Proof.
  intros [Hh Ht Hl Hi]. pose proof dist_pos as Hp.
  destruct (div_mod_succ (sz l + head_offset_ layer)) as [Hyes Hno]; [lia|].
  assert (sz (l ++ [x]) + head_offset_ layer = sz l + head_offset_ layer + 1) as Hsz
    by (rewrite length_app; cbn [length]; lia).
  destruct (_ =? _) eqn:E; zbool; rewrite Ht in E.
  - destruct (Hyes E) as (Hm & Hd & Heq). constructor; cbn [head_offset_ tail_offset_ indexs_]; [done|..].
    + by rewrite Hsz, Hm.
    + rewrite Hsz, Hd, length_app. cbn [length]. lia.
    + intros j y Hj. apply lookup_app_Some in Hj as [Hj|[Hge Hj]].
      * apply lookup_app_l_Some. by apply Hi.
      * apply list_lookup_singleton_Some in Hj as [Hj ->]. apply lookup_snoc_Some. right. split; [|done].
        assert (Z.of_nat j = (sz l + head_offset_ layer) / SkipDistance) as Hjz by lia.
        rewrite Hjz, <- Heq. lia.
  - destruct (Hno E) as (Hm & Hd). constructor; cbn [head_offset_ tail_offset_ indexs_]; [done|..].
    + rewrite Hsz, Hm. lia.
    + by rewrite Hsz, Hd.
    + intros j y Hj. apply lookup_app_l_Some. by apply Hi.
Qed.

(** ** Taking elements *)

Lemma walk_steps_spec h q d l s : forall i x,
  queue_rep h q d l -> l !! i = Some x -> (i + s < length l)%nat ->
  walk_steps s (Some x) h = Ret (l !! (i + s)%nat).
Proof.
  induction s as [|s IH]; intros i x Hrep Hi Hs; cbn [walk_steps]; [by rewrite Nat.add_0_r, Hi|].
  pose proof (take_drop_middle l i x Hi) as Hsplit. rewrite <- Hsplit in Hrep.
  destruct (rep_next h q d _ x _ Hrep) as (n & Hn & _ & Hnx & _). rewrite (load_some x n) by done.
  cbn [mbind outcome_bind]. rewrite Hsplit in Hrep. rewrite Hnx.
  destruct (lookup_lt_is_Some_2 l (S i)) as [y Hy]; [lia|].
  rewrite (drop_S l y (S i)) by done. cbn [first_or]. rewrite (IH (S i) y) by (done || lia).
  f_equal. f_equal. lia.
Qed.

(** The layer after taking [n] elements: without passing a remembered element,
    or up to and beyond the [f]-th remembered one. *)
Lemma layer_short layer l n :
  layer_ok layer l -> 1 <= n <= sz l -> n < SkipDistance - head_offset_ layer ->
  layer_ok (mkLayer (indexs_ layer) (head_offset_ layer + n) (tail_offset_ layer)) (drop (Z.to_nat n) l).
Proof.
  intros [Hh Ht Hl Hi] Hn Hlt. pose proof dist_pos as Hp.
  assert (sz (drop (Z.to_nat n) l) = sz l - n) as Hdl by (rewrite length_drop; lia).
  constructor; cbn [head_offset_ tail_offset_ indexs_]; rewrite ?Hdl.
  - lia.
  - rewrite Ht. f_equal. lia.
  - rewrite Hl. f_equal. lia.
  - intros j y Hj. rewrite lookup_drop. rewrite <- (Hi j y Hj). f_equal. lia.
Qed.

Lemma layer_last layer l n :
  layer_ok layer l -> 1 <= n <= sz l ->
  (n + head_offset_ layer) / SkipDistance = sz (indexs_ layer) -> 1 <= sz (indexs_ layer) ->
  layer_ok (mkLayer [] 0 (sz l - n)) (drop (Z.to_nat n) l).
Proof.
  intros [Hh Ht Hl Hi] Hn Hdiv Hone. pose proof dist_pos as Hp. rewrite Hl in Hdiv.
  assert (sz (drop (Z.to_nat n) l) = sz l - n) as Hdl by (rewrite length_drop; lia).
  assert (sz l - n < SkipDistance) as Hsmall.
  { pose proof (Z.div_mod (sz l + head_offset_ layer) SkipDistance ltac:(lia)) as H1.
    pose proof (Z.mod_pos_bound (sz l + head_offset_ layer) SkipDistance Hp).
    pose proof (Z.div_mod (n + head_offset_ layer) SkipDistance ltac:(lia)) as H2.
    pose proof (Z.mod_pos_bound (n + head_offset_ layer) SkipDistance Hp). rewrite Hdiv in H2. lia. }
  constructor; cbn [head_offset_ tail_offset_ indexs_ length]; rewrite ?Hdl, ?Z.add_0_r.
  - lia.
  - rewrite Z.mod_small; lia.
  - rewrite Z.div_small; lia.
  - intros j z Hj. by rewrite lookup_nil in Hj.
Qed.

Lemma layer_long layer l n :
  layer_ok layer l -> 1 <= n <= sz l -> SkipDistance <= n + head_offset_ layer ->
  let a := n + head_offset_ layer in
  layer_ok (mkLayer (drop (Z.to_nat (a / SkipDistance)) (indexs_ layer)) (a mod SkipDistance) (tail_offset_ layer))
    (drop (Z.to_nat n) l).
Proof.
  intros [Hh Ht Hl Hi] Hn Hge a. pose proof dist_pos as Hp.
  assert (sz (drop (Z.to_nat n) l) = sz l - n) as Hdl by (rewrite length_drop; lia).
  pose proof (Z.div_mod a SkipDistance ltac:(lia)) as Hdm. pose proof (Z.mod_pos_bound a SkipDistance Hp) as Hb.
  assert (0 <= a / SkipDistance <= sz (indexs_ layer)) as Hcount.
  { rewrite Hl. split; [apply Z.div_pos; lia|apply Z.div_le_mono; unfold a; lia]. }
  assert (sz l - n + a mod SkipDistance = sz l + head_offset_ layer + (- (a / SkipDistance)) * SkipDistance) as Hsum
    by (unfold a in *; lia).
  constructor; cbn [head_offset_ tail_offset_ indexs_]; rewrite ?Hdl, ?Hsum.
  - lia.
  - rewrite Ht, Z.mod_add by lia. done.
  - rewrite length_drop, Z.div_add by lia. lia.
  - intros j z Hj. rewrite lookup_drop in Hj. rewrite lookup_drop. rewrite <- (Hi _ z Hj). f_equal.
    rewrite Nat2Z.inj_add, Z2Nat.id by lia. unfold a in *. nia.
Qed.

(** Where the search starts the walk, and that the walk ends at the [n]-th
    element. *)
Lemma skip_search_spec l layer n x :
  layer_ok layer l -> 1 <= n <= sz l -> head l = Some x ->
  exists i y s layer', skip_search n (sz l) (Some x) layer = Ret (Some y, s, layer') /\
    l !! i = Some y /\ 0 <= s /\ (Z.of_nat i + s = n - 1) /\ layer_ok layer' (drop (Z.to_nat n) l).
Proof.
  intros Hok Hn Hx. pose proof Hok as [Hh Ht Hl Hi]. pose proof dist_pos as Hp.
  assert (l !! 0%nat = Some x) as Hx0 by (by destruct l).
  unfold skip_search. destruct (n <? _) eqn:E; zbool.
  { exists 0%nat, x, (n - 1). eexists. split; [reflexivity|]. split; [done|]. split; [lia|]. split; [lia|].
    by apply layer_short. }
  pose proof (layer_long layer l n Hok Hn ltac:(lia)) as Hlong. cbv zeta in Hlong.
  set (a := n + head_offset_ layer) in *.
  assert (a / SkipDistance <= sz (indexs_ layer)) as Hcount
    by (rewrite Hl; apply Z.div_le_mono; unfold a; lia).
  assert (1 <= a / SkipDistance) as Hone by (apply Z.div_le_lower_bound; unfold a; lia).
  destruct (indexs_ layer) as [|i0 idx0] eqn:Eidx; [cbn [length] in Hcount; lia|].
  rewrite <- Eidx in *. clear i0 idx0 Eidx.
  replace (a - SkipDistance) with (a + (-1) * SkipDistance) by lia.
  rewrite land_dist, Z.div_add, Z.mod_add by lia. set (f := Z.to_nat (a / SkipDistance + -1)).
  replace (Z.to_nat (a / SkipDistance)) with (S f) in Hlong by (unfold f; lia).
  destruct (lookup_lt_is_Some_2 (indexs_ layer) f) as [y Hy]; [lia|]. rewrite Hy. cbn [deref mbind outcome_bind].
  pose proof (Z.div_mod a SkipDistance ltac:(lia)) as Hdm. pose proof (Z.mod_pos_bound a SkipDistance Hp) as Hb.
  exists (Z.to_nat (SkipDistance * (Z.of_nat f + 1) - head_offset_ layer - 1)), y, (a mod SkipDistance).
  assert (Z.of_nat f + 1 = a / SkipDistance) as Hfz by (unfold f; lia).
  assert (l !! Z.to_nat (SkipDistance * (Z.of_nat f + 1) - head_offset_ layer - 1) = Some y) as Hiy by by apply Hi.
  assert (Z.of_nat (Z.to_nat (SkipDistance * (Z.of_nat f + 1) - head_offset_ layer - 1)) + a mod SkipDistance = n - 1)
    as Hiz by (rewrite Hfz; unfold a in *; nia).
  destruct (drop (S f) (indexs_ layer)) as [|i1 idx1] eqn:Edrop; eexists; (split; [reflexivity|]);
    (split; [done|]); (split; [lia|]); (split; [done|]); [|exact Hlong].
  apply (f_equal length) in Edrop. rewrite length_drop in Edrop. cbn [length] in Edrop.
  apply (layer_last layer); [done|done| |lia]. fold a. lia.
Qed.

Lemma skip_pop_front_rep h k d l n :
  skip_rep h k d l -> l <> [] -> sz l < 2 ^ 64 -> 0 < n ->
  let m := Z.to_nat (Z.min n (sz l)) in
  exists s k' h', skip_pop_front n k h = Ret (s, k', h') /\
    slist_rep h' s (q_check (base k)) (take m l) /\ skip_rep h' k' d (drop m l).
Proof.
  intros [Hrep Hlay] Hne Hsz Hn m. pose proof (queue_empty _ _ _ _ Hrep) as Hemp.
  destruct (rep_head_next _ _ _ _ Hrep) as (dn & Hdn & Hdnx). pose proof Hrep as [Hh _ Hc _ _ _].
  destruct l as [|x r]; [done|].
  unfold skip_pop_front. cbv zeta. rewrite Hemp, bool_decide_false, (proj2 (Z.eqb_neq n 0)) by (done || lia).
  cbn [orb]. rewrite Hh, (load_some d dn), Hc by done. cbn [mbind outcome_bind]. rewrite Hdnx. cbn [first_or].
  destruct (skip_search_spec (x :: r) (skip_layer_ k) (Z.min n (sz (x :: r))) x Hlay)
    as (i & y & st & layer & Hsearch & Hi & Hst & Hsum & Hlay'); [cbn [length]; lia|done|].
  rewrite Hsearch. cbn [mbind outcome_bind].
  set (j := (i + Z.to_nat st)%nat).
  assert (m = S j) as Hm by (unfold m, j; lia).
  assert (j < length (x :: r))%nat as Hj by (unfold m in Hm; lia).
  rewrite (walk_steps_spec h (base k) d (x :: r) (Z.to_nat st) i y) by done. fold j. cbn [mbind outcome_bind].
  destruct (lookup_lt_is_Some_2 (x :: r) j Hj) as [t Ht]. rewrite Ht.
  rewrite <- Hc, <- Hh. fold (tail_reset t (base k)).
  destruct (cut_front_rep h (base k) d x r j t Hrep Ht Hsz) as (Hh1 & Hk1 & Hs & Hq). rewrite Hh1.
  rewrite (cut_front_run h (base k) d x r j t) by done. rewrite Hc, Hh1 in *. fold m in Hlay'.
  assert (Z.min n (sz (x :: r)) = Z.of_nat (S j)) as Hmin by (unfold m in Hm; lia). rewrite Hmin.
  eexists _, _, _. split; [reflexivity|]. rewrite Hm. split; [exact Hs|].
  split; [exact Hq|]. cbn [skip_layer_]. by rewrite <- Hm.
Qed.

(** [TSSkipQueue] implements a list: pushing appends and [pop_front(n)] takes
    exactly the first [n] elements, or all when there are fewer, although it
    walks from a remembered element; the remembered elements and the offsets
    stay consistent, for every distance that is a power of two. *)
Theorem skipqueue_refines h k d l :
  skip_rep h k d l -> sz l + 1 < 2 ^ 64 ->
  (forall x, x ∉ d :: l -> is_Some (h !! x) ->
    exists k' h', skip_push x k h = Ret (k', h') /\ skip_rep h' k' d (l ++ [x])) /\
  (forall n, 0 <= n ->
    exists s k' h', skip_pop_front n k h = Ret (s, k', h') /\
      slist_rep h' s (q_check (base k)) (take (Z.to_nat n) l) /\ skip_rep h' k' d (drop (Z.to_nat n) l)).
Proof.
  intros Hk Hsz. pose proof Hk as [Hrep Hlay]. split.
  - intros x Hx Hin. destruct (push_rep h (base k) d l x Hrep Hx Hin Hsz) as (q' & h' & Hp & Hr & _).
    unfold skip_push. rewrite Hp. cbn [mbind outcome_bind]. eexists _, _. split; [reflexivity|].
    split; [done|]. cbn [skip_layer_]. by apply layer_push.
  - intros n Hn. pose proof (queue_empty _ _ _ _ Hrep) as Hemp.
    destruct (decide (l = [])) as [->|Hne]; [|destruct (decide (n = 0)) as [->|Hn0]].
    + exists SList_new, k, h. unfold skip_pop_front. rewrite Hemp. split; [done|].
      rewrite take_nil, drop_nil. split; [apply slist_empty|done].
    + exists SList_new, k, h. unfold skip_pop_front. rewrite orb_true_r. split; [done|].
      change (Z.to_nat 0) with 0%nat. rewrite take_0, drop_0. split; [apply slist_empty|done].
    + destruct (skip_pop_front_rep h k d l n Hk Hne) as (s & k' & h' & Hp & Hs & Hr); [lia|lia|].
      exists s, k', h'. split; [done|].
      assert (take (Z.to_nat (Z.min n (sz l))) l = take (Z.to_nat n) l /\
              drop (Z.to_nat (Z.min n (sz l))) l = drop (Z.to_nat n) l) as [Ht Hd].
      { destruct (decide (n <= sz l)); [by rewrite Z.min_l by lia|]. rewrite Z.min_r, Nat2Z.id by lia.
        by rewrite !take_ge, !drop_ge by lia. }
      by rewrite <- Ht, <- Hd.
Qed.
End Skip.

(** ** Witness: distance 2 *)

Definition demo_skip : TSSkipQueue := mkSkip demo_q (mkLayer [11%positive] 0 1).

Lemma skipqueue_refines_witness :
  exists s k' h', skip_pop_front 2 2 demo_skip demo_h = Ret (s, k', h') /\
    slist_rep h' s (Some 1%positive) [10; 11]%positive /\ skip_rep 2 h' k' 2%positive [12%positive].
Proof.
  apply (skipqueue_refines 2 1 ltac:(lia) eq_refl demo_h demo_skip 2%positive demo_l); [|vm_compute; reflexivity|lia].
  split; [apply demo_rep|]. constructor; try (cbn; lia); try reflexivity.
  intros [|j] x Hj; [by injection Hj as <-|discriminate Hj].
Defined.
