(* ===== verification/SyncBlock.v ===== *)
(** * Block objects: the semaphores coroutines wait on

    [libgo/block_object.h], [block_object.cpp] and [co_mutex.cpp].  A
    [BlockObject] counts signals and queues the tasks that wait for one.  Its
    methods take [lock_] for one section and work outside it before and after,
    so each is modelled as its locked section and the parts around it, and the
    step relation interleaves those parts with the timer callbacks of timed
    waits.  The wait queue is the list that [TSQueue] implements (see
    [TSQueue.v]: [push] appends, [pop] takes the head, [erase] removes). *)
From S2P Require Import Prelude.

Inductive TaskState : Type :=
| st_init | st_runnable | st_io_block | st_sys_block | st_sleep | st_done | st_fatal.
#[global] Instance TaskState_eq_dec : EqDecision TaskState.
Proof. solve_decision. Defined.

(** The fields of [Task] that waiting uses.  A block object, a timer and a
    task are known by a number. *)
Record Task : Type := mkTask {
  state_ : TaskState;
  block_ : option nat;
  block_sequence_ : Z;
  block_timer_ : option nat;
  block_timeout_ : Z;
  is_block_timeout_ : bool;
  reference_ : Z }.

Definition Task_new : Task := mkTask st_runnable None 0 None 0 false 1.

Record BlockObject : Type := mkBlock {
  wakeup_ : Z; max_wakeup_ : Z; wait_queue_ : list nat }.

(** The constructor; [max_wakeup] defaults to [(size_t)-1]. *)
Definition BlockObject_new (init_wakeup max_wakeup : Z) : BlockObject := mkBlock init_wakeup max_wakeup [].
Definition default_max : Z := 2 ^ 64 - 1.

(** The destructor throws while the lock is held or tasks wait. *)
Definition ec_mutex_double_unlock : Z := 1.
Definition ec_block_object_locked : Z := 2.
Definition ec_block_object_waiting : Z := 3.
Definition BlockObject_destroy (locked : bool) (o : BlockObject) : outcome unit :=
  if locked then Throw (ExnSystem ec_block_object_locked)
  else match wait_queue_ o with
       | [] => Ret tt
       | _ :: _ => Throw (ExnSystem ec_block_object_waiting)
       end.

Definition set_wakeup (n : Z) (o : BlockObject) : BlockObject := mkBlock n (max_wakeup_ o) (wait_queue_ o).
Definition set_queue (q : list nat) (o : BlockObject) : BlockObject := mkBlock (wakeup_ o) (max_wakeup_ o) q.

Definition TryBlockWait (o : BlockObject) : bool * BlockObject :=
  if wakeup_ o =? 0 then (false, o) else (true, set_wakeup (wakeup_ o - 1) o).
Definition IsWakeup (o : BlockObject) : bool := 0 <? wakeup_ o.

(** The locked section that [CoBlockWait] and [CoBlockWaitTimed] start with. *)
Definition wait_enter (o : BlockObject) : bool * BlockObject :=
  if 0 <? wakeup_ o then (true, set_wakeup (wakeup_ o - 1) o) else (false, o).

(** What the task writes about itself before it yields; [CoBlockWait] has a
    zero time-out. *)
Definition wait_prepare (b : nat) (timeo : Z) (tk : Task) : Task :=
  mkTask st_sys_block (Some b) (u32 (block_sequence_ tk + 1)) (block_timer_ tk) timeo false (reference_ tk).

(** The locked section of [Wakeup]: the signal is refused at the limit, kept,
    or given to the first waiting task. *)
Inductive wake_result : Type := WakeRefused | WakeKept | WakeTask (t : nat).
Definition Wakeup_locked (o : BlockObject) : wake_result * BlockObject :=
  match wait_queue_ o with
  | [] => if max_wakeup_ o <=? wakeup_ o then (WakeRefused, o)
          else (WakeKept, set_wakeup (wakeup_ o + 1) o)
  | t :: q => (WakeTask t, set_queue q o)
  end.
Definition Wakeup_returns (r : wake_result) : bool := match r with WakeRefused => false | _ => true end.

(** A timed wait outside a coroutine polls with [TryBlockWait] until it
    succeeds or the time has passed, and then returns false in both cases;
    [elapsed] are the readings of the clock. *)
Fixpoint thread_wait_timed (timeo : Z) (elapsed : list Z) (o : BlockObject) : option (bool * BlockObject) :=
  let '(ok, o') := TryBlockWait o in
  if ok then Some (false, o')
  else match elapsed with
       | [] => None
       | e :: es => if e <? timeo then thread_wait_timed timeo es o' else Some (false, o')
       end.

(** The time-out a deadline is converted to: zero when it has passed. *)
Definition deadline_timeout (deadline now1 now2 : Z) : Z :=
  if deadline <? now1 then 0 else deadline - now2.

(** ** Timers, as far as block objects use them

    [active_] and the closure of a [CoTimer], and how far its callback has
    got; [fn_lock_] is held while the callback runs. *)
Inductive fn_pc : Type := FnIdle | FnEntered | FnErased | FnLeaving.
#[global] Instance fn_pc_eq_dec : EqDecision fn_pc.
Proof. solve_decision. Defined.
Record CoTimer : Type := mkTimer {
  active_ : bool; fn_at : fn_pc; fn_task : nat; fn_seq : Z; fn_block : nat }.

(** Where a task is: in its own code, between its decision to wait and
    [AddWaitTask], in a wait queue, taken from it by [Wakeup] (before and
    after [block_] is cleared), taken from it by a timer, or runnable with the
    result of the wait ([None] after a plain yield). *)
Inductive pc : Type :=
| Running
| Yielded (b : nat)
| InQueue (b : nat)
| Popped (b : nat)
| Cleared (b : nat)
| Erased (b : nat) (timer : nat)
| Woken (granted : option bool).

(** What happened, latest first: a signal was accepted from a caller; a task
    that waits received one; one was taken by somebody who does not learn of it,
    a coroutine that only yields or a thread whose timed wait answers false; a wait
    timed out. *)
Inductive event : Type :=
| EvSignal (b : nat) (by_ : nat) | EvGrant (b : nat) (t : nat) | EvSwallow (b : nat) (t : nat) | EvTimeout (b : nat) (t : nat).

(** [idle_yield] is a note of the model, not a field of the program: whether the last [CoYield] of
    a task was a plain one, not that of a wait. *)
Record sys : Type := mkSys {
  objs : nat -> BlockObject;
  tasks : nat -> Task;
  timers : list CoTimer;
  runnable_list_ : list nat;
  pcs : nat -> pc;
  idle_yield : nat -> bool;
  log : list event }.

(** An array with one entry replaced. *)
Definition upd {A} (a : nat) (v : A) (f : nat -> A) : nat -> A := fun x => if decide (a = x) then v else f x.

Definition set_obj (b : nat) (o : BlockObject) (s : sys) : sys :=
  mkSys (upd b o (objs s)) (tasks s) (timers s) (runnable_list_ s) (pcs s) (idle_yield s) (log s).
Definition set_task (t : nat) (k : Task) (s : sys) : sys :=
  mkSys (objs s) (upd t k (tasks s)) (timers s) (runnable_list_ s) (pcs s) (idle_yield s) (log s).
Definition set_timers (l : list CoTimer) (s : sys) : sys :=
  mkSys (objs s) (tasks s) l (runnable_list_ s) (pcs s) (idle_yield s) (log s).
Definition set_runnable (l : list nat) (s : sys) : sys :=
  mkSys (objs s) (tasks s) (timers s) l (pcs s) (idle_yield s) (log s).
Definition goto (t : nat) (p : pc) (s : sys) : sys :=
  mkSys (objs s) (tasks s) (timers s) (runnable_list_ s) (upd t p (pcs s)) (idle_yield s) (log s).
Definition record (e : event) (s : sys) : sys :=
  mkSys (objs s) (tasks s) (timers s) (runnable_list_ s) (pcs s) (idle_yield s) (e :: log s).
Definition set_idle (t : nat) (y : bool) (s : sys) : sys :=
  mkSys (objs s) (tasks s) (timers s) (runnable_list_ s) (pcs s) (upd t y (idle_yield s)) (log s).
(** A signal reaches task [t]. *)
Definition received (b t : nat) (s : sys) : event := if idle_yield s t then EvSwallow b t else EvGrant b t.

Definition with_state (st : TaskState) (k : Task) : Task :=
  mkTask st (block_ k) (block_sequence_ k) (block_timer_ k) (block_timeout_ k) (is_block_timeout_ k) (reference_ k).
Definition with_block (b : option nat) (k : Task) : Task :=
  mkTask (state_ k) b (block_sequence_ k) (block_timer_ k) (block_timeout_ k) (is_block_timeout_ k) (reference_ k).
Definition with_timer (m : option nat) (k : Task) : Task :=
  mkTask (state_ k) (block_ k) (block_sequence_ k) m (block_timeout_ k) (is_block_timeout_ k) (reference_ k).
Definition with_timed_out (k : Task) : Task :=
  mkTask (state_ k) (block_ k) (block_sequence_ k) (block_timer_ k) (block_timeout_ k) true (reference_ k).
Definition with_ref (d : Z) (k : Task) : Task :=
  mkTask (state_ k) (block_ k) (block_sequence_ k) (block_timer_ k) (block_timeout_ k) (is_block_timeout_ k) (reference_ k + d).

(** [Scheduler::AddTaskRunnable], with the run queues of all processers as one
    list. *)
Definition AddTaskRunnable (t : nat) (s : sys) : sys :=
  set_runnable (runnable_list_ s ++ [t]) (set_task t (with_state st_runnable (tasks s t)) s).

(** [AddWaitTask], run by the processer once the task has yielded.  A wait
    with a time-out takes a reference for its timer. *)
Definition AddWaitTask (b t : nat) (s : sys) : bool * sys :=
  let o := objs s b in
  if wakeup_ o =? 0 then
    let s1 := set_obj b (set_queue (wait_queue_ o ++ [t]) o) s in
    let k := tasks s t in
    if block_timeout_ k =? 0 then (true, s1)
    else (true, set_timers (timers s ++ [mkTimer true FnIdle t (block_sequence_ k) b])
                  (set_task t (with_timer (Some (length (timers s))) (with_ref 1 k)) s1))
  else (false, set_obj b (set_wakeup (wakeup_ o - 1) o) s).

(** [CoTimer::BlockCancel]: [None] while the callback holds [fn_lock_]. *)
Definition BlockCancel (m : nat) (s : sys) : option (bool * sys) :=
  match timers s !! m with
  | None => None
  | Some tm =>
      if bool_decide (fn_at tm = FnIdle) then
        if active_ tm
        then Some (true, set_timers (<[m := mkTimer false FnIdle (fn_task tm) (fn_seq tm) (fn_block tm)]> (timers s)) s)
        else Some (false, s)
      else None
  end.

(** [Wakeup] after its locked section took task [t]: the timer is cancelled,
    its reference released when it had not run, and the task made runnable. *)
Definition Wakeup_finish (t : nat) (s : sys) : option sys :=
  match block_timer_ (tasks s t) with
  | None => Some (AddTaskRunnable t s)
  | Some m =>
      match BlockCancel m s with
      | None => None
      | Some (ok, s1) =>
          let k := if ok then with_ref (-1) (tasks s1 t) else tasks s1 t in
          Some (AddTaskRunnable t (set_task t (with_timer None k) s1))
      end
  end.

(** The locked section of [CancelWait]. *)
Definition CancelWait_locked (b t : nat) (seq : Z) (s : sys) : bool * sys :=
  if bool_decide (block_ (tasks s t) = Some b) then
    if block_sequence_ (tasks s t) =? seq then
      match queue_erase t (wait_queue_ (objs s b)) with
      | None => (false, s)
      | Some q => (true, set_obj b (set_queue q (objs s b)) s)
      end
    else (false, s)
  else (false, s).

(** [CancelWait] after it, called by the timer. *)
Definition CancelWait_finish (t : nat) (s : sys) : sys :=
  AddTaskRunnable t (set_task t (with_timed_out (with_block None (tasks s t))) s).

(** The timer's closure up to the end of [CancelWait]'s locked section. *)
Definition timer_callback (tm : CoTimer) (s : sys) : bool * sys :=
  if block_sequence_ (tasks s (fn_task tm)) =? fn_seq tm
  then CancelWait_locked (fn_block tm) (fn_task tm) (fn_seq tm) s
  else (false, s).

Definition timer_at (m : nat) (tm : CoTimer) (active : bool) (p : fn_pc) (s : sys) : sys :=
  set_timers (<[m := mkTimer active p (fn_task tm) (fn_seq tm) (fn_block tm)]> (timers s)) s.

(** ** The interleavings

    [s_thread_timed] is the test of a thread's [CoBlockWaitTimed] that finds a
    signal (see [thread_wait_timed]); [s_yield_blocked] a plain [CoYield] of a
    task whose [state_] an earlier wait left at [sys_block], which the processer
    takes for another wait.  A thread is a task that never yields. *)
Inductive step : sys -> sys -> Prop :=
| s_wait_now s t b o :
    pcs s t = Running -> wait_enter (objs s b) = (true, o) ->
    step s (record (EvGrant b t) (set_obj b o s))
| s_wait_block s t b timeo :
    pcs s t = Running -> wait_enter (objs s b) = (false, objs s b) ->
    step s (set_idle t false (goto t (Yielded b) (set_task t (wait_prepare b timeo (tasks s t)) s)))
| s_try s t b o :
    pcs s t = Running -> TryBlockWait (objs s b) = (true, o) ->
    step s (record (EvGrant b t) (set_obj b o s))
| s_thread_timed s t b o :
    pcs s t = Running -> TryBlockWait (objs s b) = (true, o) ->
    step s (record (EvSwallow b t) (set_obj b o s))
| s_add_wait s t b s' :
    pcs s t = Yielded b -> AddWaitTask b t s = (true, s') ->
    step s (goto t (InQueue b) s')
| s_add_granted s t b s' :
    pcs s t = Yielded b -> AddWaitTask b t s = (false, s') ->
    step s (record (received b t s) (goto t (Woken (Some true)) (set_runnable (runnable_list_ s' ++ [t]) s')))
| s_wakeup_kept s w b o :
    Wakeup_locked (objs s b) = (WakeKept, o) ->
    step s (record (EvSignal b w) (set_obj b o s))
| s_wakeup_task s w b t o :
    Wakeup_locked (objs s b) = (WakeTask t, o) ->
    step s (record (received b t s) (record (EvSignal b w) (goto t (Popped b) (set_obj b o s))))
| s_wakeup_clear s t b :
    pcs s t = Popped b ->
    step s (goto t (Cleared b) (set_task t (with_block None (tasks s t)) s))
| s_wakeup_finish s t b s' :
    pcs s t = Cleared b -> Wakeup_finish t s = Some s' ->
    step s (goto t (Woken (Some true)) s')
| s_timer_begin s m tm :
    timers s !! m = Some tm -> fn_at tm = FnIdle -> active_ tm = true ->
    step s (timer_at m tm false FnEntered s)
| s_timer_cancel s m tm s' :
    timers s !! m = Some tm -> fn_at tm = FnEntered -> timer_callback tm s = (true, s') ->
    step s (goto (fn_task tm) (Erased (fn_block tm) m) (timer_at m tm false FnErased s'))
| s_timer_skip s m tm s' :
    timers s !! m = Some tm -> fn_at tm = FnEntered -> timer_callback tm s = (false, s') ->
    step s (timer_at m tm false FnLeaving s')
| s_timer_wake s m tm :
    timers s !! m = Some tm -> fn_at tm = FnErased ->
    step s (record (EvTimeout (fn_block tm) (fn_task tm))
              (goto (fn_task tm) (Woken (Some false))
                 (timer_at m tm false FnLeaving (CancelWait_finish (fn_task tm) s))))
| s_timer_end s m tm :
    timers s !! m = Some tm -> fn_at tm = FnLeaving ->
    step s (timer_at m tm false FnIdle (set_task (fn_task tm) (with_ref (-1) (tasks s (fn_task tm))) s))
| s_yield s t :
    pcs s t = Running -> state_ (tasks s t) = st_runnable ->
    step s (goto t (Woken None) (set_runnable (runnable_list_ s ++ [t]) s))
| s_yield_blocked s t b :
    pcs s t = Running -> state_ (tasks s t) = st_sys_block -> block_ (tasks s t) = Some b ->
    step s (set_idle t true (goto t (Yielded b) s))
| s_resume s t g l1 l2 :
    pcs s t = Woken g -> runnable_list_ s = l1 ++ t :: l2 ->
    step s (goto t Running (set_runnable (l1 ++ l2) s)).

(** ** The invariant *)

(** A timer whose reference on its task is not released yet. *)
Definition live (t : nat) (tm : CoTimer) : Z :=
  if decide (fn_task tm = t) then (if active_ tm then 1 else if decide (fn_at tm = FnIdle) then 0 else 1) else 0.
Fixpoint live_timers (t : nat) (l : list CoTimer) : Z :=
  match l with [] => 0 | tm :: l' => live t tm + live_timers t l' end.

Definition is_signal (b : nat) (e : event) : Z :=
  match e with EvSignal b' _ => if decide (b' = b) then 1 else 0 | _ => 0 end.
Definition is_grant (b : nat) (e : event) : Z :=
  match e with EvGrant b' _ => if decide (b' = b) then 1 else 0 | _ => 0 end.
Definition is_swallow (b : nat) (e : event) : Z :=
  match e with EvSwallow b' _ => if decide (b' = b) then 1 else 0 | _ => 0 end.
Fixpoint swallowed (b : nat) (l : list event) : Z :=
  match l with [] => 0 | e :: l' => is_swallow b e + swallowed b l' end.
Fixpoint signals (b : nat) (l : list event) : Z :=
  match l with [] => 0 | e :: l' => is_signal b e + signals b l' end.
Fixpoint grants (b : nat) (l : list event) : Z :=
  match l with [] => 0 | e :: l' => is_grant b e + grants b l' end.

(** What is known of a task at each place. *)
Definition task_ok (k : Task) (p : pc) : Prop :=
  match p with
  | Running | Woken None => state_ k = st_sys_block -> is_block_timeout_ k = false
  | Yielded b | InQueue b | Popped b => block_ k = Some b /\ is_block_timeout_ k = false
  | Cleared b => is_block_timeout_ k = false
  | Erased b _ => block_ k = Some b
  | Woken (Some g) => is_block_timeout_ k = negb g /\ (state_ k = st_sys_block -> g = true)
  end.

(** A timer that can still run or is running belongs to the wait its task is
    in. *)
Definition in_wait (b : nat) (p : pc) : Prop := p = InQueue b \/ p = Popped b \/ p = Cleared b.
Definition timer_ok (s : sys) (m : nat) (tm : CoTimer) : Prop :=
  match fn_at tm with
  | FnIdle => active_ tm = true ->
      in_wait (fn_block tm) (pcs s (fn_task tm)) /\ block_timer_ (tasks s (fn_task tm)) = Some m /\
      block_sequence_ (tasks s (fn_task tm)) = fn_seq tm
  | FnEntered => active_ tm = false /\
      in_wait (fn_block tm) (pcs s (fn_task tm)) /\ block_timer_ (tasks s (fn_task tm)) = Some m /\
      block_sequence_ (tasks s (fn_task tm)) = fn_seq tm
  | FnErased => active_ tm = false /\ pcs s (fn_task tm) = Erased (fn_block tm) m
  | FnLeaving => active_ tm = false
  end.

Record sys_ok (init : nat -> Z) (s : sys) : Prop := {
  ok_bounds : forall b, 0 <= wakeup_ (objs s b) <= max_wakeup_ (objs s b);
  ok_idle : forall b, 0 < wakeup_ (objs s b) -> wait_queue_ (objs s b) = [];
  ok_nodup : forall b, NoDup (wait_queue_ (objs s b));
  ok_queued : forall b t, t ∈ wait_queue_ (objs s b) <-> pcs s t = InQueue b;
  ok_run_nodup : NoDup (runnable_list_ s);
  ok_runnable : forall t, t ∈ runnable_list_ s <-> exists g, pcs s t = Woken g;
  ok_task : forall t, task_ok (tasks s t) (pcs s t);
  ok_timer : forall m tm, timers s !! m = Some tm -> timer_ok s m tm;
  ok_timer_of : forall t m, block_timer_ (tasks s t) = Some m -> exists tm, timers s !! m = Some tm /\ fn_task tm = t;
  ok_erased : forall t b m, pcs s t = Erased b m ->
    exists tm, timers s !! m = Some tm /\ fn_task tm = t /\ fn_at tm = FnErased;
  ok_ref : forall t, reference_ (tasks s t) = 1 + live_timers t (timers s);
  ok_tokens : forall b, init b + signals b (log s) = wakeup_ (objs s b) + grants b (log s) + swallowed b (log s) }.

(** ** Lemmas *)

Lemma upd_same {A} a (v : A) f : upd a v f a = v.
Proof. unfold upd. by case_decide. Qed.

Lemma live_timers_app t l l' : live_timers t (l ++ l') = live_timers t l + live_timers t l'.
Proof. induction l; simpl; lia. Qed.

Lemma live_timers_insert t l m tm tm' :
  l !! m = Some tm -> live_timers t (<[m := tm']> l) = live_timers t l - live t tm + live t tm'.
Proof.
  revert m. induction l as [|x l IH]; intros [|m] H; try done.
  - simpl in *. injection H as ->. lia.
  - cbn [lookup] in H. simpl. rewrite (IH m H). lia.
Qed.

Lemma timer_insert_lookup (l : list CoTimer) m tm tm' i x :
  l !! m = Some tm -> <[m := tm']> l !! i = Some x -> (i = m /\ x = tm') \/ (i <> m /\ l !! i = Some x).
Proof. intros Hm Hi. apply list_lookup_insert_Some in Hi as [(-> & -> & _)|[Hne Hi]]; eauto. Qed.

(** Case analysis on the entries an update changes. *)
Ltac upd_cases := unfold upd in *; repeat (case_decide; simplify_eq); simpl in *.

(** The operations of a step, unfolded. *)
Ltac step_inv :=
  unfold wait_enter, TryBlockWait, AddWaitTask, Wakeup_locked, Wakeup_finish, BlockCancel,
    timer_callback, CancelWait_locked, received in *;
  repeat (case_match; simplify_eq/=); simpl in *; zbool.
Lemma step_tokens init s s' : step s s' -> sys_ok init s ->
  forall b, init b + signals b (log s') = wakeup_ (objs s' b) + grants b (log s') + swallowed b (log s').
Proof.
  intros Hs H b'. pose proof (ok_tokens _ _ H b') as Ht. destruct Hs; step_inv; upd_cases; try lia.
Qed.

Lemma step_bounds init s s' : step s s' -> sys_ok init s ->
  forall b, 0 <= wakeup_ (objs s' b) <= max_wakeup_ (objs s' b).
Proof.
  intros Hs H b'. pose proof (ok_bounds _ _ H b') as Ht. destruct Hs; step_inv; upd_cases; try lia.
Qed.

Lemma step_idle init s s' : step s s' -> sys_ok init s ->
  forall b, 0 < wakeup_ (objs s' b) -> wait_queue_ (objs s' b) = [].
Proof.
  intros Hs H b'. pose proof (ok_idle _ _ H b') as Ht. pose proof (ok_bounds _ _ H b').
  destruct Hs; step_inv; upd_cases; auto with lia; try (intros; (rewrite Ht in * by lia) || lia; done).
  all: try (intros; exfalso; lia).
Qed.

Lemma queue_head_pc init s b t q : sys_ok init s -> wait_queue_ (objs s b) = t :: q -> pcs s t = InQueue b.
Proof. intros H Hq. apply (ok_queued _ _ H). rewrite Hq. apply elem_of_cons. by left. Qed.

Lemma erased_pc init s b t q : sys_ok init s -> queue_erase t (wait_queue_ (objs s b)) = Some q -> pcs s t = InQueue b.
Proof.
  intros H Hq. apply (ok_queued _ _ H). apply queue_erase_some in Hq as (_ & ? & _); [done|apply (ok_nodup _ _ H)].
Qed.

(** What the invariant says where a step takes a task from a queue or runs a
    timer. *)
Ltac step_facts H :=
  try match goal with
  | E : wait_queue_ _ = _ :: _ |- _ => pose proof (queue_head_pc _ _ _ _ _ H E)
  | E : queue_erase _ _ = Some _ |- _ => pose proof (erased_pc _ _ _ _ _ H E)
  end;
  try match goal with
  | E : timers _ !! _ = Some ?tm, F : fn_at ?tm = _ |- _ =>
      let T := fresh "Htm" in pose proof (ok_timer _ _ H _ _ E) as T; unfold timer_ok in T; rewrite F in T
  end.

Lemma step_queue init s s' : step s s' -> sys_ok init s ->
  forall b, NoDup (wait_queue_ (objs s' b)) /\ forall t, t ∈ wait_queue_ (objs s' b) <-> pcs s' t = InQueue b.
Proof.
  intros Hs H b'. pose proof (ok_nodup _ _ H) as Hn. pose proof (ok_queued _ _ H) as Hq.
  destruct Hs; step_inv; step_facts H;
    try match goal with
    | E : wait_queue_ (objs s ?b) = ?t :: ?l |- _ =>
        pose proof (Hn b) as Hh; rewrite E in Hh; apply NoDup_cons in Hh as [Hh1 Hh2];
        assert (Hi : forall x, x = t \/ x ∈ l <-> pcs s x = InQueue b) by (intros x; rewrite <- Hq, E; apply symmetry, elem_of_cons)
    | E : queue_erase _ _ = Some ?l |- _ => apply queue_erase_some in E as (He1 & He2 & He3); [|apply Hn]
    end; split; try (intros t'); upd_cases; auto.
  all: try (rewrite Hq; split; intuition congruence).
  all: try (apply nodup_snoc; [done|rewrite Hq; congruence]).
  all: try (rewrite elem_of_app, list_elem_of_singleton, Hq; intuition congruence).
  - intuition congruence.
  - rewrite <- Hi. intuition congruence.
  - rewrite He3. intuition congruence.
  - rewrite He3, Hq. intuition congruence.
Qed.

Lemma step_runnable init s s' : step s s' -> sys_ok init s ->
  NoDup (runnable_list_ s') /\ forall t, t ∈ runnable_list_ s' <-> exists g, pcs s' t = Woken g.
Proof.
  intros Hs H. pose proof (ok_run_nodup _ _ H) as Hn. pose proof (ok_runnable _ _ H) as Hr.
  assert (Hex : forall p, (exists g, p = Woken g) <-> match p with Woken _ => True | _ => False end)
    by (intros []; split; try (by intros []); eauto).
  setoid_rewrite Hex in Hr. setoid_rewrite Hex.
  destruct Hs; step_inv; step_facts H.
  all: split; try (intros t'); upd_cases; auto.
  all: try (rewrite ?elem_of_app, Hr, ?list_elem_of_singleton; repeat case_match; intuition congruence).
  all: try (apply nodup_snoc; [done|rewrite Hr; repeat case_match; intuition congruence]).
  all: rewrite H1 in *; apply NoDup_app in Hn as (Hn1 & Hn2 & Hn3); apply NoDup_cons in Hn3 as [Hn3 Hn4].
  - apply NoDup_app. set_solver.
  - set_solver.
  - rewrite <- Hr. set_solver.
Qed.

Lemma step_task init s s' : step s s' -> sys_ok init s -> forall t, task_ok (tasks s' t) (pcs s' t).
Proof.
  intros Hs H t'. pose proof (ok_task _ _ H) as Ht.
  destruct Hs; step_inv; step_facts H; upd_cases; try apply Ht.
  all: try match goal with E : pcs _ ?x = _ |- _ => pose proof (Ht x) as Hx; rewrite E in Hx end; simpl in *.
  all: try (repeat case_match; intuition congruence).
  destruct g as [[]|]; simpl in *; intuition congruence.
Qed.

Lemma step_ref init s s' : step s s' -> sys_ok init s ->
  forall t, reference_ (tasks s' t) = 1 + live_timers t (timers s').
Proof.
  intros Hs H t'. pose proof (ok_ref _ _ H t') as Ht.
  destruct Hs; step_inv; step_facts H; unfold timer_at; simpl in *.
  all: try (erewrite live_timers_insert by eassumption); rewrite ?live_timers_app.
  all: upd_cases; unfold live; simpl; upd_cases; rewrite ?H0 in *; upd_cases.
  all: try match goal with E : block_timer_ _ = Some _ |- _ => destruct (ok_timer_of _ _ H _ _ E) as (x & ? & ?); simplify_eq end.
  all: repeat case_match; intuition (congruence || lia).
Qed.

Lemma timer_kept (l : list CoTimer) m tm tm' i x :
  l !! m = Some tm -> fn_task tm' = fn_task tm -> l !! i = Some x ->
  exists x', <[m := tm']> l !! i = Some x' /\ fn_task x' = fn_task x.
Proof.
  intros Hm Hf Hi. destruct (decide (m = i)) as [->|Hne].
  - exists tm'. split; [apply list_lookup_insert_eq; by eapply lookup_lt_Some|congruence].
  - exists x. by rewrite list_lookup_insert_ne.
Qed.

Lemma step_timer_of init s s' : step s s' -> sys_ok init s ->
  forall t m, block_timer_ (tasks s' t) = Some m -> exists tm, timers s' !! m = Some tm /\ fn_task tm = t.
Proof.
  intros Hs H t' m' E. pose proof (ok_timer_of _ _ H t' m') as Ht.
  destruct Hs; step_inv; step_facts H; unfold timer_at in *; simpl in *.
  all: upd_cases; auto.
  all: try (destruct Ht as (x & Hx & Hf); [congruence|]).
  all: try (rewrite <- Hf; eapply timer_kept; [eassumption|simpl; congruence|eassumption]).
  - simplify_eq. eexists. by rewrite lookup_app_r, Nat.sub_diag by lia.
  - exists x. split; [|done]. by rewrite lookup_app_l by (by eapply lookup_lt_Some).
Qed.

Lemma lookup_snoc_cases {A} (l : list A) x i y :
  (l ++ [x]) !! i = Some y -> l !! i = Some y \/ i = length l /\ y = x.
Proof. intros H. apply lookup_app_Some in H as [?|[Hi H]]; [by left|]. right. apply list_lookup_singleton_Some in H. naive_solver lia. Qed.

Lemma step_timer init s s' : step s s' -> sys_ok init s ->
  forall m tm, timers s' !! m = Some tm -> timer_ok s' m tm.
Proof.
  intros Hs H m' tm' E. pose proof (ok_timer _ _ H m' tm') as Ht.
  destruct Hs; step_inv; step_facts H; unfold timer_at in *; simpl in *.
  all: try (eapply timer_insert_lookup in E as [[-> ->]|[Hne E]]; [| |eassumption]).
  all: try (specialize (Ht E)).
  all: try (apply lookup_snoc_cases in E as [E|[-> ->]]; [specialize (Ht E)|]).
  all: unfold timer_ok, in_wait in *; simpl in *; upd_cases; auto.
  all: try (destruct (fn_at tm'); intuition congruence).
  all: try done.
  destruct (fn_at tm') eqn:Ha; intuition congruence.
Qed.

Lemma step_erased init s s' : step s s' -> sys_ok init s ->
  forall t b m, pcs s' t = Erased b m -> exists tm, timers s' !! m = Some tm /\ fn_task tm = t /\ fn_at tm = FnErased.
Proof.
  intros Hs H t' b' m' E. pose proof (ok_erased _ _ H t' b' m') as Ht.
  destruct Hs; step_inv; step_facts H; unfold timer_at in *; simpl in *.
  all: upd_cases; auto.
  all: try (destruct (Ht E) as (x & Hx & Hf & Ha); exists x).
  all: try (by rewrite list_lookup_insert_ne by (intros ->; simplify_eq; congruence)).
  - by rewrite lookup_app_l by (by eapply lookup_lt_Some).
  - eexists. by rewrite list_lookup_insert_eq by (by eapply lookup_lt_Some).
Qed.

Lemma step_ok init s s' : step s s' -> sys_ok init s -> sys_ok init s'.
Proof.
  intros Hs H. destruct (step_runnable _ _ _ Hs H) as [Hr1 Hr2].
  split; eauto using step_tokens, step_bounds, step_idle, step_task, step_timer, step_timer_of, step_erased, step_ref.
  - intros b. apply (step_queue _ _ _ Hs H b).
  - intros b. apply (step_queue _ _ _ Hs H b).
Qed.

Lemma step_max s s' b : step s s' -> max_wakeup_ (objs s' b) = max_wakeup_ (objs s b).
Proof. intros Hs. destruct Hs; step_inv; upd_cases; auto. Qed.

(** ** Theorems *)

(** The initial state: fresh tasks and block objects with the given initial
    and greatest signal counts. *)
Definition start (init maxs : nat -> Z) : sys :=
  mkSys (fun b => BlockObject_new (init b) (maxs b)) (fun _ => Task_new) [] [] (fun _ => Running) (fun _ => false) [].

Definition counts_ok (init maxs : nat -> Z) : Prop := forall b, 0 <= init b <= maxs b.

Lemma start_ok init maxs : counts_ok init maxs -> sys_ok init (start init maxs).
Proof.
  intros Hc. split; simpl; auto using NoDup_nil_2; try (intros; set_solver).
  all: try (intros; lia || done).
Qed.

Lemma reachable_ok init maxs s : counts_ok init maxs -> star step (start init maxs) s -> sys_ok init s.
Proof. intros Hc Hs. eapply star_invariant; [|done|by apply start_ok]. intros; by eapply step_ok. Qed.

Lemma reachable_max init maxs s b : star step (start init maxs) s -> max_wakeup_ (objs s b) = maxs b.
Proof.
  intros Hs. eapply (star_invariant step (fun s => max_wakeup_ (objs s b) = maxs b)); [|done|done].
  intros x y Hxy <-. by apply step_max.
Qed.

Lemma swallowed_pos b l : 0 <= swallowed b l.
Proof. induction l as [|[] l IH]; simpl; repeat case_decide; lia. Qed.
Lemma swallowed_some b l : 0 < swallowed b l -> exists t, EvSwallow b t ∈ l.
Proof.
  induction l as [|e l IH]; simpl; [lia|]. intros H. destruct e as [| |b' t'|]; simpl in H; try case_decide; subst.
  3: { exists t'. left. }
  all: destruct IH as [u Hu]; [lia|]; exists u; by right.
Qed.
Lemma swallowed_none b l : swallowed b l = 0 <-> forall t, EvSwallow b t ∉ l.
Proof.
  split.
  - induction l as [|e l IH]; simpl; [set_solver|]. pose proof (swallowed_pos b l). intros H0 t [<-|Hin]%elem_of_cons.
    + simpl in H0. rewrite decide_True in H0 by done. lia.
    + revert Hin. apply IH. destruct e; simpl in H0; try case_decide; lia.
  - intros H0. pose proof (swallowed_pos b l). destruct (decide (0 < swallowed b l)) as [Hp|]; [|lia].
    destruct (swallowed_some _ _ Hp) as [t Ht]. by destruct (H0 t).
Qed.

(** C6: signals are conserved.  In every interleaving of waits, signals and
    time-outs, of coroutines and of threads, the signals an object started with and accepted are those it
    still counts, those it gave to waiters, and those taken without an answer, by
    a thread's timed wait or by a coroutine that yields with its state left at
    [sys_block]; the count stays between zero and
    its limit, so it never wraps; and tasks wait only when no signal is
    left.  Without such threads and yields none is lost. *)
Theorem signals_conserved init maxs s b :
  counts_ok init maxs -> star step (start init maxs) s ->
  init b + signals b (log s) = wakeup_ (objs s b) + grants b (log s) + swallowed b (log s) /\
  (swallowed b (log s) = 0 <-> forall t, EvSwallow b t ∉ log s) /\
  0 <= wakeup_ (objs s b) <= maxs b /\
  (0 < wakeup_ (objs s b) -> wait_queue_ (objs s b) = []).
Proof.
  intros Hc Hs. pose proof (reachable_ok _ _ _ Hc Hs) as H. pose proof (reachable_max _ _ _ b Hs) as Hm.
  split_and!; [apply H|apply swallowed_none|apply (ok_bounds _ _ H)|rewrite <- Hm; apply (ok_bounds _ _ H)|apply (ok_idle _ _ H)].
Qed.

(** C7: every wait has one result.  A task is in the wait queue of the object
    it waits on or in the run queue or in neither, never twice; when a wait
    ended with a signal the task finds [is_block_timeout_] clear, so
    [CoBlockWaitTimed] returns true, and when its timer ended it, set; and the
    references on a task are one for the scheduler and one for each timer whose
    callback has not finished. *)
Theorem wait_result init maxs s t :
  counts_ok init maxs -> star step (start init maxs) s ->
  (forall g, pcs s t = Woken (Some g) -> negb (is_block_timeout_ (tasks s t)) = g) /\
  (forall b, t ∈ wait_queue_ (objs s b) <-> pcs s t = InQueue b) /\
  (t ∈ runnable_list_ s <-> exists g, pcs s t = Woken g) /\
  NoDup (runnable_list_ s) /\
  reference_ (tasks s t) = 1 + live_timers t (timers s).
Proof.
  intros Hc Hs. pose proof (reachable_ok _ _ _ Hc Hs) as H. split_and!.
  - intros g Hg. pose proof (ok_task _ _ H t) as Ht. rewrite Hg in Ht. destruct Ht as [-> _]. apply negb_involutive.
  - intros b. apply (ok_queued _ _ H).
  - apply (ok_runnable _ _ H).
  - apply (ok_run_nodup _ _ H).
  - apply (ok_ref _ _ H).
Qed.

(** A woken task becomes runnable: the waker waits at most for the callback
    of the task's own timer, which finds the task gone from the queue. *)
Lemma callback_skips init s tm b :
  sys_ok init s -> pcs s (fn_task tm) = Cleared b -> timer_callback tm s = (false, s).
Proof.
  intros H Hp. unfold timer_callback, CancelWait_locked.
  assert (Hn : queue_erase (fn_task tm) (wait_queue_ (objs s (fn_block tm))) = None).
  { apply queue_erase_none. rewrite (ok_queued _ _ H). congruence. }
  rewrite Hn. by repeat case_match.
Qed.

Lemma finish_enabled s t b m tm :
  pcs s t = Cleared b -> block_timer_ (tasks s t) = Some m -> timers s !! m = Some tm -> fn_at tm = FnIdle ->
  exists s', step s s' /\ pcs s' t = Woken (Some true).
Proof.
  intros Hp Hb Hm Hi. destruct (Wakeup_finish t s) as [s'|] eqn:E.
  - eexists. split; [by eapply s_wakeup_finish|]. simpl. by rewrite ?upd_same.
  - exfalso. unfold Wakeup_finish, BlockCancel in E. rewrite Hb, Hm, bool_decide_eq_true_2 in E by done.
    by destruct (active_ tm).
Qed.

Lemma callback_ends init s t b m tm :
  sys_ok init s -> pcs s t = Cleared b -> block_timer_ (tasks s t) = Some m ->
  timers s !! m = Some tm -> fn_task tm = t -> fn_at tm = FnLeaving ->
  exists s', star step s s' /\ pcs s' t = Woken (Some true).
Proof.
  intros H Hp Hb Hm <- Hl. pose proof (s_timer_end s m tm Hm Hl) as Hs.
  destruct (finish_enabled (timer_at m tm false FnIdle (set_task (fn_task tm) (with_ref (-1) (tasks s (fn_task tm))) s))
    (fn_task tm) b m (mkTimer false FnIdle (fn_task tm) (fn_seq tm) (fn_block tm))
    ltac:(exact Hp) ltac:(simpl; by rewrite ?upd_same)
    ltac:(simpl; apply list_lookup_insert_eq; by eapply lookup_lt_Some) eq_refl) as (s2 & Hs2 & Hp2).
  exists s2. split; [|done]. eapply star_step; [apply Hs|]. eapply star_step; [apply Hs2|constructor].
Qed.

Lemma cleared_woken init s t b :
  sys_ok init s -> pcs s t = Cleared b -> exists s', star step s s' /\ pcs s' t = Woken (Some true).
Proof.
  intros H Hp. destruct (block_timer_ (tasks s t)) as [m|] eqn:Hb.
  2: { eexists. split; [eapply star_step; [eapply s_wakeup_finish; [done|unfold Wakeup_finish; by rewrite Hb]|constructor]|].
       simpl. by rewrite ?upd_same. }
  destruct (ok_timer_of _ _ H _ _ Hb) as (tm & Hm & Hf). pose proof (ok_timer _ _ H _ _ Hm) as Ht.
  unfold timer_ok in Ht. destruct (fn_at tm) eqn:Ha.
  - destruct (finish_enabled _ _ _ _ _ Hp Hb Hm Ha) as (s' & ? & ?). exists s'. split; [|done]. eapply star_step; [done|constructor].
  - assert (Hs : step s (timer_at m tm false FnLeaving s)).
    { eapply s_timer_skip; [done|done|]. eapply callback_skips; [done|by rewrite Hf]. }
    destruct (callback_ends init (timer_at m tm false FnLeaving s) t b m (mkTimer false FnLeaving (fn_task tm) (fn_seq tm) (fn_block tm))
      ltac:(by eapply step_ok) ltac:(exact Hp) ltac:(exact Hb)
      ltac:(simpl; apply list_lookup_insert_eq; by eapply lookup_lt_Some) Hf eq_refl) as (s' & Hs' & Hp').
    exists s'. split; [by eapply star_step|done].
  - destruct Ht as [_ Ht]. congruence.
  - by eapply callback_ends.
Qed.

(** C8: no wake-up is lost.  In every reachable state, a task that a signal took
    from a wait queue becomes runnable with result true in finitely many steps
    of its waker and of its timer, whatever its timer is doing; and a task its
    timer took becomes runnable with result false. *)
Theorem woken_becomes_runnable init maxs s t :
  counts_ok init maxs -> star step (start init maxs) s ->
  (forall b, pcs s t = Popped b \/ pcs s t = Cleared b ->
     exists s', star step s s' /\ pcs s' t = Woken (Some true) /\ t ∈ runnable_list_ s') /\
  (forall b m, pcs s t = Erased b m ->
     exists s', star step s s' /\ pcs s' t = Woken (Some false) /\ t ∈ runnable_list_ s').
Proof.
  intros Hc Hs. pose proof (reachable_ok _ _ _ Hc Hs) as H.
  assert (Hrun : forall s' g, star step s s' -> pcs s' t = Woken g -> t ∈ runnable_list_ s').
  { intros s' g Hs' Hg. apply (ok_runnable init s'); [|eauto].
    eapply star_invariant; [|done|done]. intros; by eapply step_ok. }
  split.
  - intros b Hp. assert (exists s', star step s s' /\ pcs s' t = Woken (Some true)) as (s' & ? & ?); [|by eauto].
    destruct Hp as [Hp|Hp]; [|by eapply cleared_woken].
    pose proof (s_wakeup_clear s t b Hp) as H1.
    destruct (cleared_woken init _ t b (step_ok _ _ _ H1 H)) as (s' & ? & ?); [simpl; by rewrite ?upd_same|].
    exists s'. split; [by eapply star_step|done].
  - intros b m Hp. destruct (ok_erased _ _ H _ _ _ Hp) as (tm & Hm & <- & Ha). pose proof (s_timer_wake s m tm Hm Ha) as H1.
    eexists. split_and!; [eapply star_step; [apply H1|constructor]|simpl; by rewrite ?upd_same|].
    eapply Hrun; [eapply star_step; [apply H1|constructor]|simpl; by rewrite ?upd_same].
Qed.

(** ** [CoMutex]: a block object with one signal *)

Definition CoMutex_new : BlockObject := BlockObject_new 1 1.
Definition try_lock (o : BlockObject) : bool * BlockObject := TryBlockWait o.
Definition is_lock (o : BlockObject) : bool := negb (IsWakeup o).
Definition unlock (o : BlockObject) : outcome (wake_result * BlockObject) :=
  let '(r, o') := Wakeup_locked o in
  if Wakeup_returns r then Ret (r, o') else Throw (ExnSystem ec_mutex_double_unlock).

(** The tasks that took the lock and did not give it back, and the use where
    only such a task unlocks. *)
Fixpoint holders (b : nat) (l : list event) : list nat :=
  match l with
  | [] => []
  | EvGrant b' t :: l' => if decide (b' = b) then t :: holders b l' else holders b l'
  | EvSignal b' w :: l' =>
      if decide (b' = b) then default (holders b l') (queue_erase w (holders b l')) else holders b l'
  | EvSwallow _ _ :: l' | EvTimeout _ _ :: l' => holders b l'
  end.
Fixpoint disciplined (b : nat) (l : list event) : Prop :=
  match l with
  | [] => True
  | EvSignal b' w :: l' => (b' = b -> w ∈ holders b l') /\ disciplined b l'
  | _ :: l' => disciplined b l'
  end.

Lemma holders_count b l : disciplined b l -> sz (holders b l) = grants b l - signals b l.
Proof.
  induction l as [|[b' w|b' t|b' t|b' t] l IH]; simpl; [done| | |intros Hd; by rewrite IH..].
  - intros [Hw Hd]. specialize (IH Hd). case_decide as Hb; simpl; [|lia].
    destruct (queue_erase w (holders b l)) as [q|] eqn:E.
    + apply queue_erase_length in E. simpl. lia.
    + apply queue_erase_none in E. by destruct (E (Hw Hb)).
  - intros Hd. specialize (IH Hd). case_decide; simpl; lia.
Qed.

(** C9: a [CoMutex] is exclusive.  In every interleaving where only holders
    unlock, the holders, the free mutex and the signals taken without an answer
    are one together: at most one task holds the lock; a holder finds it locked and
    its [unlock] succeeds; a mutex that is not locked has no holder and
    unlocking it throws [ec_mutex_double_unlock]; and one that is locked has a holder
    unless a coroutine that yields with its state left at [sys_block], or a thread,
    has taken its signal. *)
Theorem mutex_exclusive init maxs s b :
  counts_ok init maxs -> init b = 1 -> maxs b = 1 -> star step (start init maxs) s -> disciplined b (log s) ->
  sz (holders b (log s)) + swallowed b (log s) + wakeup_ (objs s b) = 1 /\
  (length (holders b (log s)) <= 1)%nat /\
  (forall t, t ∈ holders b (log s) -> is_lock (objs s b) = true /\ returns (unlock (objs s b))) /\
  (is_lock (objs s b) = false ->
     holders b (log s) = [] /\ unlock (objs s b) = Throw (ExnSystem ec_mutex_double_unlock)) /\
  (is_lock (objs s b) = true -> (exists t, holders b (log s) = [t]) \/ exists t, EvSwallow b t ∈ log s).
Proof.
  intros Hc Hi Hm Hs Hd. pose proof (reachable_ok _ _ _ Hc Hs) as H. pose proof (reachable_max _ _ _ b Hs) as Hmax.
  pose proof (holders_count _ _ Hd) as Hh. pose proof (ok_tokens _ _ H b) as Ht. pose proof (ok_bounds _ _ H b) as Hb.
  pose proof (ok_idle _ _ H b) as Hq. pose proof (swallowed_pos b (log s)) as Hsw. split_and!; [lia|lia| | |].
  - intros t Hin. assert (0 < sz (holders b (log s))) by (destruct (holders b (log s)); [set_solver|simpl; lia]).
    unfold is_lock, IsWakeup. replace (0 <? wakeup_ (objs s b)) with false by lia. split; [done|].
    unfold unlock, Wakeup_locked. destruct (wait_queue_ (objs s b)); [|by eexists].
    replace (max_wakeup_ (objs s b) <=? wakeup_ (objs s b)) with false by lia. by eexists.
  - unfold is_lock, IsWakeup. intros Hl%negb_false_iff%Z.ltb_lt. split; [apply length_zero_iff_nil; lia|].
    unfold unlock, Wakeup_locked. rewrite Hq by lia. by replace (max_wakeup_ (objs s b) <=? wakeup_ (objs s b)) with true by lia.
  - unfold is_lock, IsWakeup. intros Hl%negb_true_iff%Z.ltb_ge.
    destruct (holders b (log s)) as [|t [|]] eqn:Eh; simpl in Hh; [right; apply swallowed_some; lia|by left; exists t|lia].
Qed.

(** A task that [AddWaitTask] refuses keeps [state_ = sys_block], ... *)
Lemma stale_state_reached :
  exists s, star step (start (fun _ => 1) (fun _ => 1)) s /\ disciplined 0 (log s) /\
    holders 0 (log s) = [1%nat] /\ runnable_list_ s = [] /\ pcs s 1%nat = Running /\ wakeup_ (objs s 0%nat) = 0 /\
    tasks s 1%nat = mkTask st_sys_block (Some 0%nat) 1 None 0 false 1.
Proof.
  eexists. split.
  - eapply star_step; [by apply (s_wait_now _ 0 0)|].
    eapply star_step; [by apply (s_wait_block _ 1 0 0)|].
    eapply star_step; [by apply (s_wakeup_kept _ 0 0)|].
    eapply star_step; [by apply (s_add_granted _ 1 0)|].
    eapply star_step; [by apply (s_resume _ 1 (Some true) [] [])|constructor].
  - split_and!; [|reflexivity..]. simpl. split; [intros _; set_solver|done].
Qed.

(** ... and the processer switches on that field whenever the task yields.  So a coroutine
    that got a mutex in this way and then yields is queued on the mutex it
    holds: nobody else may unlock it, and it never runs again. *)
Lemma stale_state_deadlock :
  exists s, star step (start (fun _ => 1) (fun _ => 1)) s /\ disciplined 0 (log s) /\
    holders 0 (log s) = [1%nat] /\ pcs s 1%nat = InQueue 0 /\ runnable_list_ s = [].
Proof.
  destruct stale_state_reached as (s & Hs & Hd & Hh & Hr & Hp & Hw & Ht).
  assert (step s (set_idle 1 true (goto 1 (Yielded 0) s))) as H1 by (apply s_yield_blocked; by rewrite ?Ht).
  set (s1 := set_idle 1 true (goto 1 (Yielded 0) s)) in *.
  assert (AddWaitTask 0 1 s1 = (true, set_obj 0 (set_queue (wait_queue_ (objs s 0%nat) ++ [1%nat]) (objs s 0%nat)) s1)) as Ha.
  { unfold AddWaitTask, s1. simpl. by rewrite Hw, Ht. }
  pose proof (s_add_wait s1 1 0 _ ltac:(done) Ha) as H2. eexists. split.
  - eapply star_trans; [exact Hs|]. eapply star_step; [exact H1|]. eapply star_step; [exact H2|constructor].
  - by split_and!.
Qed.

(** When it unlocks the mutex first, its next plain yield takes the signal of the
    free mutex: the mutex is locked and nobody holds it. *)
Lemma stale_state_locks s t b :
  pcs s t = Running -> state_ (tasks s t) = st_sys_block -> block_ (tasks s t) = Some b ->
  wakeup_ (objs s b) = 1 -> holders b (log s) = [] ->
  exists s', star step s s' /\ holders b (log s') = [] /\ is_lock (objs s' b) = true /\ pcs s' t = Woken (Some true).
Proof.
  intros Hp Hst Hb Hw Hh. pose proof (s_yield_blocked s t b Hp Hst Hb) as H1.
  set (s1 := set_idle t true (goto t (Yielded b) s)) in *.
  assert (AddWaitTask b t s1 = (false, set_obj b (set_wakeup 0 (objs s b)) s1)) as Ha.
  { unfold AddWaitTask, s1. simpl. by rewrite Hw. }
  assert (pcs s1 t = Yielded b) as Hy by apply upd_same.
  pose proof (s_add_granted s1 t b _ Hy Ha) as H2. eexists. split; [eapply star_step; [exact H1|eapply star_step; [exact H2|constructor]]|].
  unfold received, s1. simpl. rewrite !upd_same. by split_and!.
Qed.

(** A timed wait outside a coroutine answers false even when it took the
    signal, which is then lost. *)
Lemma thread_wait_loses_signal timeo es o :
  0 < wakeup_ o -> thread_wait_timed timeo es o = Some (false, set_wakeup (wakeup_ o - 1) o).
Proof. intros H. destruct es; simpl; unfold TryBlockWait; by replace (wakeup_ o =? 0) with false by lia. Qed.

(** A deadline that has passed becomes a zero time-out, and a zero time-out
    means no timer: the wait has no end. *)
Lemma passed_deadline_waits_forever b t deadline now1 now2 s :
  deadline < now1 -> wakeup_ (objs s b) = 0 ->
  let s1 := set_task t (wait_prepare b (deadline_timeout deadline now1 now2) (tasks s t)) s in
  exists s', AddWaitTask b t s1 = (true, s') /\ timers s' = timers s.
Proof.
  intros Hd Hw. eexists. unfold AddWaitTask. simpl. rewrite Hw, upd_same. simpl.
  unfold deadline_timeout. replace (deadline <? now1) with true by lia. simpl. done.
Qed.

(** ** Examples *)

Definition one_each : nat -> Z := fun _ => 1.
Lemma one_each_ok : counts_ok one_each one_each.
Proof. intros b. unfold one_each. lia. Qed.

(** Task 1 takes the only signal; task 2 waits with a time-out. *)
Definition demo_trace : sys :=
  let s1 := record (EvGrant 0 1) (set_obj 0 (mkBlock 0 1 []) (start one_each one_each)) in
  let s2 := set_idle 2 false (goto 2 (Yielded 0) (set_task 2 (wait_prepare 0 50 (tasks s1 2)) s1)) in
  goto 2 (InQueue 0) (snd (AddWaitTask 0 2 s2)).
Lemma demo_trace_reached : star step (start one_each one_each) demo_trace.
Proof.
  eapply star_step; [by apply (s_wait_now _ 1 0)|].
  eapply star_step; [by apply (s_wait_block _ 2 0 50)|].
  eapply star_step; [by apply (s_add_wait _ 2 0)|constructor].
Qed.

Lemma signals_conserved_witness :
  1 + signals 0 (log demo_trace) =
  wakeup_ (objs demo_trace 0) + grants 0 (log demo_trace) + swallowed 0 (log demo_trace).
Proof. exact (proj1 (signals_conserved one_each one_each demo_trace 0 one_each_ok demo_trace_reached)). Defined.

Lemma wait_result_witness : reference_ (tasks demo_trace 2) = 2 /\ 2%nat ∈ wait_queue_ (objs demo_trace 0).
Proof.
  destruct (wait_result one_each one_each demo_trace 2 one_each_ok demo_trace_reached) as (_ & Hq & _ & _ & Hr).
  split; [rewrite Hr; reflexivity|apply Hq; reflexivity].
Defined.

Lemma mutex_exclusive_witness : (length (holders 0 (log demo_trace)) <= 1)%nat /\ is_lock (objs demo_trace 0) = true.
Proof.
  destruct (mutex_exclusive one_each one_each demo_trace 0 one_each_ok eq_refl eq_refl demo_trace_reached)
    as (_ & H1 & H2 & _); [simpl; tauto|].
  split; [exact H1|]. apply (proj1 (H2 1%nat ltac:(left))).
Defined.

(** The signal goes to task 2 while the callback of its timer is running. *)
Definition demo_race : sys :=
  let s1 := timer_at 0 (mkTimer true FnIdle 2 1 0) false FnEntered demo_trace in
  record (EvGrant 0 2) (record (EvSignal 0 1) (goto 2 (Popped 0) (set_obj 0 (mkBlock 0 1 []) s1))).
Lemma demo_race_reached : star step (start one_each one_each) demo_race.
Proof.
  eapply star_trans; [apply demo_trace_reached|].
  eapply star_step; [by apply (s_timer_begin _ 0 (mkTimer true FnIdle 2 1 0))|].
  eapply star_step; [by apply (s_wakeup_task _ 1 0 2)|constructor].
Qed.

Lemma woken_becomes_runnable_witness :
  exists s', star step demo_race s' /\ pcs s' 2%nat = Woken (Some true) /\ 2%nat ∈ runnable_list_ s'.
Proof.
  apply (proj1 (woken_becomes_runnable one_each one_each demo_race 2 one_each_ok demo_race_reached) 0%nat).
  left. reflexivity.
Defined.
