(* ===== verification/RWMutex.v ===== *)
(** * Read-write mutex

    [libgo/co_rwmutex.cpp]: readers count themselves in [readers_c_] and then
    look at the mutex; a writer takes the mutex and then waits until no reader
    is counted.  The accesses to [readers_c_] and the locked sections of the
    mutex are the atomic steps; [r_lock], [w_lock] and the try variants are
    the sequences of them a task goes through.  A yield of a task whose [state_] an
    earlier wait left at [sys_block] queues it on the mutex once more
    ([SyncBlock.stale_state_deadlock]); such yields, in the loop of [w_lock] and
    elsewhere, are not among the steps: they can only delay their task, or take
    the signal of a free mutex, which leaves it without an owner. *)
From S2P Require Import Prelude SyncBlock.

(** Where a task is in the operations of the mutex.  [tr] marks the try
    variant of an operation. *)
Inductive rwpc : Type :=
| Idle
| RCounted (tr : bool)      (** counted, has not looked at the mutex yet *)
| RBack (tr : bool)         (** saw a writer, is still counted *)
| RAgain                    (** [r_lock] after [SleepSwitch(0)] *)
| RHold
| WYielded                  (** [mtx_.lock()] decided to wait *)
| WQueued                   (** in the wait queue of the mutex *)
| WLocked (tr : bool)       (** has the mutex, looks at [readers_c_] *)
| WBack                     (** [w_try_lock] that saw a reader *)
| WHold.

Record CoRWMutexImpl : Type := mkRW { mtx_ : BlockObject; readers_c_ : Z }.
Definition CoRWMutexImpl_new : CoRWMutexImpl := mkRW CoMutex_new 0.

Definition set_mtx (o : BlockObject) (m : CoRWMutexImpl) : CoRWMutexImpl := mkRW o (readers_c_ m).
Definition add_readers (d : Z) (m : CoRWMutexImpl) : CoRWMutexImpl := mkRW (mtx_ m) (readers_c_ m + d).

(** ** The operations run without interruption *)

Definition r_try_lock (m : CoRWMutexImpl) : bool * CoRWMutexImpl :=
  let m1 := add_readers 1 m in
  if is_lock (mtx_ m1) then (false, add_readers (-1) m1) else (true, m1).

(** One round of [r_lock]: false when it goes on to sleep and try again. *)
Definition r_lock_round (m : CoRWMutexImpl) : bool * CoRWMutexImpl :=
  let m1 := add_readers 1 m in
  if is_lock (mtx_ m1) then (false, add_readers (-1) m1) else (true, m1).
Definition r_is_lock (m : CoRWMutexImpl) : bool := is_lock (mtx_ m).

(** [r_unlock] asserts that the count stays non-negative. *)
Definition r_unlock (m : CoRWMutexImpl) : outcome CoRWMutexImpl :=
  let m1 := add_readers (-1) m in
  if 0 <=? readers_c_ m1 then Ret m1 else Undef.

Definition w_try_lock (m : CoRWMutexImpl) : outcome (bool * CoRWMutexImpl) :=
  let '(ok, o) := try_lock (mtx_ m) in
  if ok then
    if readers_c_ m =? 0 then Ret (true, set_mtx o m)
    else '(_, o') ← unlock o; Ret (false, set_mtx o' m)
  else Ret (false, set_mtx o m).
Definition w_is_lock (m : CoRWMutexImpl) : bool := is_lock (mtx_ m).
Definition w_unlock (m : CoRWMutexImpl) : outcome CoRWMutexImpl :=
  '(_, o) ← unlock (mtx_ m); Ret (set_mtx o m).

(** ** The interleavings *)

Record rwsys : Type := mkRwSys { rw : CoRWMutexImpl; at_ : nat -> rwpc }.
Definition rw_start : rwsys := mkRwSys CoRWMutexImpl_new (fun _ => Idle).
Definition move (t : nat) (p : rwpc) (m : CoRWMutexImpl) (s : rwsys) : rwsys := mkRwSys m (upd t p (at_ s)).

(** Giving the mutex to the task [Wakeup] took from the queue. *)
Definition hand_over (r : wake_result) (f : nat -> rwpc) : nat -> rwpc :=
  match r with WakeTask t => upd t (WLocked false) f | _ => f end.

Inductive rw_step : rwsys -> rwsys -> Prop :=
| r_count s t tr : at_ s t = Idle -> rw_step s (move t (RCounted tr) (add_readers 1 (rw s)) s)
| r_count_again s t : at_ s t = RAgain -> rw_step s (move t (RCounted false) (add_readers 1 (rw s)) s)
| r_enter s t tr : at_ s t = RCounted tr -> is_lock (mtx_ (rw s)) = false -> rw_step s (move t RHold (rw s) s)
| r_refused s t tr : at_ s t = RCounted tr -> is_lock (mtx_ (rw s)) = true -> rw_step s (move t (RBack tr) (rw s) s)
| r_give_up s t : at_ s t = RBack true -> rw_step s (move t Idle (add_readers (-1) (rw s)) s)
| r_sleep s t : at_ s t = RBack false -> rw_step s (move t RAgain (add_readers (-1) (rw s)) s)
| r_leave s t : at_ s t = RHold -> rw_step s (move t Idle (add_readers (-1) (rw s)) s)
| w_lock_now s t o : at_ s t = Idle -> wait_enter (mtx_ (rw s)) = (true, o) ->
    rw_step s (move t (WLocked false) (set_mtx o (rw s)) s)
| w_lock_wait s t o : at_ s t = Idle -> wait_enter (mtx_ (rw s)) = (false, o) ->
    rw_step s (move t WYielded (set_mtx o (rw s)) s)
| w_add_wait s t : at_ s t = WYielded -> wakeup_ (mtx_ (rw s)) = 0 ->
    rw_step s (move t WQueued (set_mtx (set_queue (wait_queue_ (mtx_ (rw s)) ++ [t]) (mtx_ (rw s))) (rw s)) s)
| w_add_granted s t : at_ s t = WYielded -> 0 < wakeup_ (mtx_ (rw s)) ->
    rw_step s (move t (WLocked false) (set_mtx (set_wakeup (wakeup_ (mtx_ (rw s)) - 1) (mtx_ (rw s))) (rw s)) s)
| w_try s t o : at_ s t = Idle -> try_lock (mtx_ (rw s)) = (true, o) ->
    rw_step s (move t (WLocked true) (set_mtx o (rw s)) s)
| w_enter s t tr : at_ s t = WLocked tr -> readers_c_ (rw s) = 0 -> rw_step s (move t WHold (rw s) s)
| w_refused s t : at_ s t = WLocked true -> readers_c_ (rw s) <> 0 -> rw_step s (move t WBack (rw s) s)
| w_release s t r o : at_ s t = WHold \/ at_ s t = WBack -> unlock (mtx_ (rw s)) = Ret (r, o) ->
    rw_step s (mkRwSys (set_mtx o (rw s)) (hand_over r (upd t Idle (at_ s)))).

(** ** The invariant *)

Definition counted (p : rwpc) : Prop := match p with RCounted _ | RBack _ | RHold => True | _ => False end.
Definition owns (p : rwpc) : Prop := match p with WLocked _ | WBack | WHold => True | _ => False end.

(** The tasks that satisfy [P] are exactly those of a list of [n] tasks. *)
Definition population (P : rwpc -> Prop) (f : nat -> rwpc) (n : Z) : Prop :=
  exists l, NoDup l /\ (forall t, t ∈ l <-> P (f t)) /\ sz l = n.

Record rw_ok (s : rwsys) : Prop := {
  rw_readers : population counted (at_ s) (readers_c_ (rw s));
  rw_owner : population owns (at_ s) (1 - wakeup_ (mtx_ (rw s)));
  rw_max : max_wakeup_ (mtx_ (rw s)) = 1;
  rw_pos : 0 <= wakeup_ (mtx_ (rw s));
  rw_nodup : NoDup (wait_queue_ (mtx_ (rw s)));
  rw_queue : forall t, t ∈ wait_queue_ (mtx_ (rw s)) <-> at_ s t = WQueued;
  rw_idle : 0 < wakeup_ (mtx_ (rw s)) -> wait_queue_ (mtx_ (rw s)) = [];
  rw_excl : forall t t', at_ s t = WHold -> at_ s t' = RHold -> False }.

Lemma population_join P f n t p :
  population P f n -> ~ P (f t) -> P p -> population P (upd t p f) (n + 1).
Proof.
  intros (l & Hn & Hl & Hz) Hf Hp. exists (t :: l). split_and!.
  - apply NoDup_cons. by rewrite Hl.
  - intros x. rewrite elem_of_cons, Hl. unfold upd. case_decide; naive_solver.
  - simpl. lia.
Qed.

Lemma population_leave P f n t p :
  population P f n -> P (f t) -> ~ P p -> population P (upd t p f) (n - 1).
Proof.
  intros (l & Hn & Hl & Hz) Hf Hp. apply Hl in Hf as Hin.
  destruct (queue_erase t l) as [l'|] eqn:E; [|by apply queue_erase_none in E].
  pose proof (queue_erase_length _ _ _ E) as Hlen. apply queue_erase_some in E as (Hn' & _ & Hl'); [|done].
  exists l'. split_and!; [done| |lia]. intros x. rewrite Hl', Hl. unfold upd. case_decide; naive_solver.
Qed.

Lemma population_stay P f n t p : population P f n -> (P (f t) <-> P p) -> population P (upd t p f) n.
Proof.
  intros (l & Hn & Hl & Hz) Hp. exists l. split_and!; [done| |done].
  intros x. rewrite Hl. unfold upd. case_decide; naive_solver.
Qed.

Lemma population_pos P f n t : population P f n -> P (f t) -> 0 < n.
Proof. intros (l & _ & Hl & <-) Ht. apply Hl in Ht. destruct l; [set_solver|simpl; lia]. Qed.

Lemma population_unique P f n t t' : population P f n -> n <= 1 -> P (f t) -> P (f t') -> t = t'.
Proof.
  intros (l & _ & Hl & Hz) Hn Ht Ht'. apply Hl in Ht, Ht'. destruct l as [|a [|b l]]; simpl in *; [set_solver| |lia].
  set_solver.
Qed.

Lemma population_eq P f n n' : population P f n -> n = n' -> population P f n'.
Proof. by intros ? <-. Qed.

(** How one move of a task changes a population. *)
Ltac population_move H :=
  match goal with
  | E : ?f ?t = _ |- population _ (upd ?t _ ?f) _ =>
      first
        [ eapply population_eq; [eapply population_stay; [exact H|rewrite E; simpl; tauto]|simpl; lia]
        | eapply population_eq; [eapply population_join; [exact H|rewrite E; simpl; tauto|simpl; tauto]|simpl; lia]
        | eapply population_eq; [eapply population_leave; [exact H|rewrite E; simpl; tauto|simpl; tauto]|simpl; lia] ]
  end.

Ltac rw_inv :=
  unfold wait_enter, try_lock, TryBlockWait, unlock, Wakeup_locked, is_lock, IsWakeup, move in *;
  repeat (case_match; simplify_eq/=); zbool; simpl in *;
  try match goal with D : at_ _ _ = _ \/ at_ _ _ = _ |- _ => destruct D as [D|D] end.

Lemma head_queued s t u q :
  rw_ok s -> wait_queue_ (mtx_ (rw s)) = u :: q -> at_ s t <> WQueued -> at_ s u = WQueued /\ upd t Idle (at_ s) u = WQueued.
Proof.
  intros H Hq Ht. assert (Hu : at_ s u = WQueued) by (apply (rw_queue _ H); rewrite Hq; set_solver).
  split; [done|]. unfold upd. case_decide; congruence.
Qed.

(** The release that hands the mutex over moves two tasks. *)
Ltac release_facts H :=
  try match goal with
  | Q : wait_queue_ (mtx_ (rw ?s)) = ?u :: ?q, E : at_ ?s ?t = _ |- _ =>
      destruct (head_queued s t u q H Q ltac:(congruence)) as [Hu Hu']
  end.

Lemma rw_step_readers s s' : rw_step s s' -> rw_ok s -> population counted (at_ s') (readers_c_ (rw s')).
Proof.
  intros Hs H. pose proof (rw_readers _ H) as Hr.
  destruct Hs; rw_inv; release_facts H; try population_move Hr.
  all: assert (Hr' : population counted (upd t Idle (at_ s)) (readers_c_ (rw s))) by population_move Hr; population_move Hr'.
Qed.

Lemma rw_step_owner s s' : rw_step s s' -> rw_ok s -> population owns (at_ s') (1 - wakeup_ (mtx_ (rw s'))).
Proof.
  intros Hs H. pose proof (rw_owner _ H) as Hr.
  destruct Hs; rw_inv; release_facts H; try population_move Hr.
  all: assert (Hr' : population owns (upd t Idle (at_ s)) (1 - wakeup_ (mtx_ (rw s)) - 1)) by population_move Hr; population_move Hr'.
Qed.

Lemma rw_step_queue s s' : rw_step s s' -> rw_ok s ->
  NoDup (wait_queue_ (mtx_ (rw s'))) /\ (forall t, t ∈ wait_queue_ (mtx_ (rw s')) <-> at_ s' t = WQueued).
Proof.
  intros Hs H. pose proof (rw_nodup _ H) as Hn. pose proof (rw_queue _ H) as Hq.
  destruct Hs; rw_inv; release_facts H; split; try (intros t').
  all: try match goal with Q : wait_queue_ _ = _ |- _ => rewrite ?Q in * end.
  all: try (apply NoDup_cons in Hn as [Hn1 Hn2]).
  all: try assumption; try (apply nodup_snoc; [done|rewrite Hq; congruence]).
  all: try (pose proof (Hq t') as Hq').
  all: rewrite ?elem_of_app, ?list_elem_of_singleton; try rewrite elem_of_cons in Hq'; upd_cases.
  all: try (intuition congruence).
Qed.

Lemma rw_step_mutex s s' : rw_step s s' -> rw_ok s ->
  max_wakeup_ (mtx_ (rw s')) = 1 /\ 0 <= wakeup_ (mtx_ (rw s')) /\
  (0 < wakeup_ (mtx_ (rw s')) -> wait_queue_ (mtx_ (rw s')) = []).
Proof.
  intros Hs H. pose proof (rw_max _ H) as Hm. pose proof (rw_pos _ H) as Hp. pose proof (rw_idle _ H) as Hi.
  destruct Hs; rw_inv; split_and!; auto with lia.
  all: intros; try (rewrite Hi in * by lia; done); try lia.
  all: by specialize (Hi ltac:(lia)).
Qed.

Lemma rw_step_excl s s' : rw_step s s' -> rw_ok s ->
  forall t t', at_ s' t = WHold -> at_ s' t' = RHold -> False.
Proof.
  intros Hs H u u'. pose proof (rw_excl _ H) as He. pose proof (rw_readers _ H) as Hr. pose proof (rw_owner _ H) as Ho.
  destruct Hs; rw_inv; release_facts H; upd_cases; try congruence; try (by eapply He); intros E1 E2.
  - eapply population_pos in Ho; [lia|]. by rewrite E1.
  - eapply population_pos in Hr; [lia|]. by rewrite E2.
Qed.

Lemma rw_step_ok s s' : rw_step s s' -> rw_ok s -> rw_ok s'.
Proof.
  intros Hs H. destruct (rw_step_mutex _ _ Hs H) as (? & ? & ?). destruct (rw_step_queue _ _ Hs H).
  split; eauto using rw_step_readers, rw_step_owner, rw_step_excl.
Qed.

Lemma rw_start_ok : rw_ok rw_start.
Proof.
  split; simpl; try done; try (exists []; split_and!; [apply NoDup_nil_2|intros t; simpl; set_solver|done]); try apply NoDup_nil_2.
  intros t. set_solver.
Qed.

Lemma rw_reachable_ok s : star rw_step rw_start s -> rw_ok s.
Proof. intros Hs. eapply star_invariant; [|done|apply rw_start_ok]. intros; by eapply rw_step_ok. Qed.

(** C10: the read-write mutex excludes.  In every interleaving of readers and
    writers, a writer that holds it is alone: no reader and no other writer
    holds it; and a reader that holds it is counted, so the assertion in
    [r_unlock] never fails. *)
Theorem rw_exclusive s :
  star rw_step rw_start s ->
  (forall t t', at_ s t = WHold -> at_ s t' = RHold -> False) /\
  (forall t t', at_ s t = WHold -> at_ s t' = WHold -> t = t') /\
  (forall t, at_ s t = RHold -> returns (r_unlock (rw s))) /\
  (forall t, at_ s t = WHold -> returns (w_unlock (rw s))).
Proof.
  intros Hs. pose proof (rw_reachable_ok _ Hs) as H. pose proof (rw_pos _ H) as Hp. split_and!.
  - apply (rw_excl _ H).
  - intros t t' Ht Ht'. eapply (population_unique owns); [apply (rw_owner _ H)|lia| |]; [by rewrite Ht|by rewrite Ht'].
  - intros t Ht. pose proof (population_pos _ _ _ t (rw_readers _ H) ltac:(by rewrite Ht)) as Hc.
    unfold r_unlock. simpl. replace (0 <=? readers_c_ (rw s) + -1) with true by lia. by eexists.
  - intros t Ht. pose proof (population_pos _ _ _ t (rw_owner _ H) ltac:(by rewrite Ht)) as Hc. pose proof (rw_max _ H) as Hm.
    unfold w_unlock, unlock, Wakeup_locked. destruct (wait_queue_ (mtx_ (rw s))); [|by eexists].
    replace (max_wakeup_ (mtx_ (rw s)) <=? wakeup_ (mtx_ (rw s))) with false by lia. by eexists.
Qed.

(** Run without interruption, a try operation succeeds exactly when the other
    side is absent, and changes nothing when it fails. *)
Lemma r_try_lock_spec m :
  r_try_lock m = if is_lock (mtx_ m) then (false, m) else (true, add_readers 1 m).
Proof.
  unfold r_try_lock. simpl. case_match; [|done]. destruct m. unfold add_readers. simpl. by replace (readers_c_0 + 1 + -1) with readers_c_0 by lia.
Qed.

Lemma w_try_lock_spec m :
  0 <= wakeup_ (mtx_ m) <= 1 -> max_wakeup_ (mtx_ m) = 1 -> (0 < wakeup_ (mtx_ m) -> wait_queue_ (mtx_ m) = []) ->
  w_try_lock m = Ret (if is_lock (mtx_ m) then (false, m)
                      else if readers_c_ m =? 0 then (true, set_mtx (mkBlock 0 1 []) m) else (false, m)).
Proof.
  destruct m as [[w mx q] r]. simpl. intros Hw -> Hq. unfold w_try_lock, try_lock, TryBlockWait, is_lock, IsWakeup. simpl.
  destruct (w =? 0) eqn:E; zbool.
  - subst w. done.
  - assert (w = 1) as -> by lia. rewrite Hq by lia. simpl. destruct (r =? 0) eqn:Er; done.
Qed.

Definition demo_written : rwsys :=
  mkRwSys (mkRW (mkBlock 0 1 []) 0) (upd 1 WHold (upd 1 (WLocked false) (fun _ => Idle))).

Lemma rw_exclusive_witness : at_ demo_written 1 = WHold /\ at_ demo_written 2 <> RHold.
Proof.
  split; [reflexivity|]. refine (proj1 (rw_exclusive demo_written _) 1%nat 2%nat eq_refl).
  eapply star_step; [by eapply (w_lock_now _ 1)|].
  eapply star_step; [by eapply (w_enter _ 1)|constructor].
Defined.
