(* ===== verification/Channel.v ===== *)
(** * Channels

    [libgo/channel.h]: a queue of values between two block objects.  A writer
    takes a signal of [write_block_], pushes its value and signals
    [read_block_]; a reader signals [write_block_], takes a signal of
    [read_block_] and pops.  A try or timed reader that gets no signal takes
    its own signal back from [write_block_].  The atomic steps are the locked
    sections of the block objects (see [SyncBlock.v]) and the sections under
    [queue_lock_], which [CoMutex] makes exclusive.  The overloads that ignore
    the value take the same steps and drop it.  All callers are
    coroutines; task numbers are below [ntasks].

    A wait that [AddWaitTask] refuses leaves [state_] at [sys_block] and [block_]
    at the block object ([SyncBlock.stale_state_reached]); the next plain [CoYield] of that coroutine, in
    its own code or in the loops of [TryPop] and [TimedPop], is taken for another
    wait there.  The model lets any coroutine that yields be such a one. *)
From S2P Require Import Prelude SyncBlock.

Section Channel.
Context {T : Type}.
Variable ntasks : nat.
Variable capacity : Z.

(** [ChannelImpl]: [write_block_] starts with [capacity] signals. *)
Record ChannelImpl : Type := mkChannel {
  write_block_ : BlockObject; read_block_ : BlockObject; queue_ : list T }.
Definition ChannelImpl_new : ChannelImpl :=
  mkChannel (BlockObject_new capacity default_max) (BlockObject_new 0 default_max) [].
Definition chan_empty (c : ChannelImpl) : bool := negb (IsWakeup (read_block_ c)).
Definition chan_size (c : ChannelImpl) : Z := sz (queue_ c).

Definition set_write (o : BlockObject) (c : ChannelImpl) : ChannelImpl := mkChannel o (read_block_ c) (queue_ c).
Definition set_read (o : BlockObject) (c : ChannelImpl) : ChannelImpl := mkChannel (write_block_ c) o (queue_ c).

(** The sections under [queue_lock_]; [front] and [pop] of an empty
    [std::queue] are undefined. *)
Definition queue_push (v : T) (c : ChannelImpl) : ChannelImpl :=
  mkChannel (write_block_ c) (read_block_ c) (queue_ c ++ [v]).
Definition queue_pop (c : ChannelImpl) : outcome (T * ChannelImpl) :=
  match queue_ c with
  | [] => Undef
  | v :: q => Ret (v, mkChannel (write_block_ c) (read_block_ c) q)
  end.

(** The locked section of [AddWaitTask]: queue the task, or give it a signal
    that arrived meanwhile. *)
Definition add_wait (t : nat) (o : BlockObject) : bool * BlockObject :=
  if wakeup_ o =? 0 then (true, set_queue (wait_queue_ o ++ [t]) o) else (false, set_wakeup (wakeup_ o - 1) o).

(** [>>] , [TimedPop] and [TryPop]. *)
Inductive read_kind : Type := KPlain | KTimed | KTry.

(** Where a task is in a channel operation; a writer carries its value, and
    [timed] marks [TimedPush]. *)
Inductive cpc : Type :=
| CIdle
| WYield (timed : bool) (v : T)
| WQueue (timed : bool) (v : T)
| WGo (v : T)            (** has a write signal, will push *)
| WSignal                (** has pushed, will signal the readers *)
| RWait (k : read_kind)  (** has signalled the writers, will wait *)
| RYield (k : read_kind)
| RQueue (k : read_kind)
| RPollRead              (** will try [read_block_] *)
| RPollWrite             (** will try to take its write signal back *)
| RGo                    (** has a read signal, will pop *)
| Stuck (on_write polling : bool).  (** yielded, and was queued on a block object *)

(** The values written and read so far, and the signals of the two block objects
    that went to coroutines that only yield. *)
Record csys : Type := mkCsys {
  ch : ChannelImpl; at_ : nat -> cpc; pushed : list T; popped : list T; lost_write : Z; lost_read : Z }.
Definition chan_start : csys := mkCsys ChannelImpl_new (fun _ => CIdle) [] [] 0 0.
Definition go (t : nat) (p : cpc) (c : ChannelImpl) (s : csys) : csys :=
  mkCsys c (upd t p (at_ s)) (pushed s) (popped s) (lost_write s) (lost_read s).

(** The task that [Wakeup] took from a wait queue has its signal. *)
Definition resume_at (polling : bool) : cpc := if polling then RPollRead else CIdle.
Definition granted (p : cpc) : cpc :=
  match p with WQueue _ v => WGo v | RQueue _ => RGo | Stuck _ polling => resume_at polling | p => p end.
Definition hand_over (r : wake_result) (f : nat -> cpc) : nat -> cpc :=
  match r with WakeTask t => upd t (granted (f t)) f | _ => f end.
Definition wasted_at (p : cpc) : Z := match p with Stuck _ _ => 1 | _ => 0 end.
Definition wasted (r : wake_result) (f : nat -> cpc) : Z := match r with WakeTask t => wasted_at (f t) | _ => 0 end.

(** The state after a push, after each of the two signals, and after a pop. *)
Definition push_done (t : nat) (v : T) (s : csys) : csys :=
  mkCsys (queue_push v (ch s)) (upd t WSignal (at_ s)) (pushed s ++ [v]) (popped s) (lost_write s) (lost_read s).
Definition push_signalled (t : nat) (r : wake_result) (o : BlockObject) (s : csys) : csys :=
  mkCsys (set_read o (ch s)) (hand_over r (upd t CIdle (at_ s))) (pushed s) (popped s)
    (lost_write s) (lost_read s + wasted r (at_ s)).
Definition read_signalled (t : nat) (k : read_kind) (r : wake_result) (o : BlockObject) (s : csys) : csys :=
  mkCsys (set_write o (ch s)) (hand_over r (upd t (RWait k) (at_ s))) (pushed s) (popped s)
    (lost_write s + wasted r (at_ s)) (lost_read s).
Definition pop_done (t : nat) (v : T) (c : ChannelImpl) (s : csys) : csys :=
  mkCsys c (upd t CIdle (at_ s)) (pushed s) (popped s ++ [v]) (lost_write s) (lost_read s).

(** A yield with [state_] left at [sys_block]: the signal found there is gone. *)
Definition yield_wasted (on_write : bool) (o : BlockObject) (s : csys) : csys :=
  if on_write then mkCsys (set_write o (ch s)) (at_ s) (pushed s) (popped s) (lost_write s + 1) (lost_read s)
  else mkCsys (set_read o (ch s)) (at_ s) (pushed s) (popped s) (lost_write s) (lost_read s + 1).
Definition block_of (on_write : bool) (c : ChannelImpl) : BlockObject := if on_write then write_block_ c else read_block_ c.
Definition set_block (on_write : bool) (o : BlockObject) (c : ChannelImpl) : ChannelImpl :=
  if on_write then set_write o c else set_read o c.

Inductive chan_step : csys -> csys -> Prop :=
| c_write_now s t v o : (t < ntasks)%nat ->
    at_ s t = CIdle -> TryBlockWait (write_block_ (ch s)) = (true, o) ->
    chan_step s (go t (WGo v) (set_write o (ch s)) s)
| c_write_wait s t timed v o : (t < ntasks)%nat ->
    at_ s t = CIdle -> wait_enter (write_block_ (ch s)) = (false, o) ->
    chan_step s (go t (WYield timed v) (set_write o (ch s)) s)
| c_write_add s t timed v o :
    at_ s t = WYield timed v -> add_wait t (write_block_ (ch s)) = (true, o) ->
    chan_step s (go t (WQueue timed v) (set_write o (ch s)) s)
| c_write_granted s t timed v o :
    at_ s t = WYield timed v -> add_wait t (write_block_ (ch s)) = (false, o) ->
    chan_step s (go t (WGo v) (set_write o (ch s)) s)
| c_write_timeout s t v q :
    at_ s t = WQueue true v -> queue_erase t (wait_queue_ (write_block_ (ch s))) = Some q ->
    chan_step s (go t CIdle (set_write (set_queue q (write_block_ (ch s))) (ch s)) s)
| c_push s t v :
    at_ s t = WGo v ->
    chan_step s (push_done t v s)
| c_push_signal s t r o :
    at_ s t = WSignal -> Wakeup_locked (read_block_ (ch s)) = (r, o) ->
    chan_step s (push_signalled t r o s)
| c_read_signal s t k r o : (t < ntasks)%nat ->
    at_ s t = CIdle -> Wakeup_locked (write_block_ (ch s)) = (r, o) ->
    chan_step s (read_signalled t k r o s)
| c_read_now s t k o :
    at_ s t = RWait k -> k <> KTry -> wait_enter (read_block_ (ch s)) = (true, o) ->
    chan_step s (go t RGo (set_read o (ch s)) s)
| c_read_wait s t k o :
    at_ s t = RWait k -> k <> KTry -> wait_enter (read_block_ (ch s)) = (false, o) ->
    chan_step s (go t (RYield k) (set_read o (ch s)) s)
| c_read_add s t k o :
    at_ s t = RYield k -> add_wait t (read_block_ (ch s)) = (true, o) ->
    chan_step s (go t (RQueue k) (set_read o (ch s)) s)
| c_read_granted s t k o :
    at_ s t = RYield k -> add_wait t (read_block_ (ch s)) = (false, o) ->
    chan_step s (go t RGo (set_read o (ch s)) s)
| c_read_timeout s t q :
    at_ s t = RQueue KTimed -> queue_erase t (wait_queue_ (read_block_ (ch s))) = Some q ->
    chan_step s (go t RPollWrite (set_read (set_queue q (read_block_ (ch s))) (ch s)) s)
| c_poll_read s t ok o :
    at_ s t = RWait KTry \/ at_ s t = RPollRead -> TryBlockWait (read_block_ (ch s)) = (ok, o) ->
    chan_step s (go t (if ok then RGo else RPollWrite) (set_read o (ch s)) s)
| c_poll_write s t ok o :
    at_ s t = RPollWrite -> TryBlockWait (write_block_ (ch s)) = (ok, o) ->
    chan_step s (go t (if ok then CIdle else RPollRead) (set_write o (ch s)) s)
| c_pop s t v c :
    at_ s t = RGo -> queue_pop (ch s) = Ret (v, c) ->
    chan_step s (pop_done t v c s)
| c_yield_wasted s t b o : (t < ntasks)%nat ->
    at_ s t = CIdle \/ at_ s t = RPollRead -> add_wait t (block_of b (ch s)) = (false, o) ->
    chan_step s (yield_wasted b o s)
| c_yield_stuck s t b polling o : (t < ntasks)%nat ->
    at_ s t = resume_at polling -> add_wait t (block_of b (ch s)) = (true, o) ->
    chan_step s (go t (Stuck b polling) (set_block b o (ch s)) s)
| c_stuck_timeout s t b polling q :
    at_ s t = Stuck b polling -> queue_erase t (wait_queue_ (block_of b (ch s))) = Some q ->
    chan_step s (go t (resume_at polling) (set_block b (set_queue q (block_of b (ch s))) (ch s)) s).

(** ** Counting tasks *)

Fixpoint tsum (n : nat) (f : nat -> Z) : Z :=
  match n with O => 0 | S k => f k + tsum k f end.

Lemma tsum_ext n f g : (forall t, (t < n)%nat -> f t = g t) -> tsum n f = tsum n g.
Proof. induction n as [|n IH]; intros H; simpl; [done|]. rewrite (H n), IH; auto with lia. Qed.

Lemma tsum_upd n (w : cpc -> Z) f t p :
  (t < n)%nat -> tsum n (fun x => w (upd t p f x)) = tsum n (fun x => w (f x)) - w (f t) + w p.
Proof.
  induction n as [|n IH]; intros H; [lia|]. simpl. destruct (decide (t = n)) as [->|Hne].
  - rewrite upd_same. rewrite (tsum_ext n _ (fun x => w (f x))); [lia|].
    intros x Hx. unfold upd. case_decide; [lia|done].
  - rewrite IH by lia. unfold upd at 1. case_decide; [lia|]. lia.
Qed.

Lemma tsum_bounds n (w : cpc -> Z) f :
  (forall p, 0 <= w p <= 1) -> 0 <= tsum n (fun x => w (f x)) <= Z.of_nat n.
Proof. intros Hw. induction n as [|n IH]; simpl; [lia|]. pose proof (Hw (f n)). lia. Qed.

Lemma tsum_below n (w : cpc -> Z) f t :
  (forall p, 0 <= w p <= 1) -> (t < n)%nat -> w (f t) = 0 -> tsum n (fun x => w (f x)) <= Z.of_nat n - 1.
Proof.
  intros Hw. induction n as [|n IH]; intros Hn Ht; simpl; [lia|]. pose proof (Hw (f n)).
  destruct (decide (t = n)) as [->|Hne]; [pose proof (tsum_bounds n w f Hw); lia|]. specialize (IH ltac:(lia) Ht). lia.
Qed.

Lemma tsum_above n (w : cpc -> Z) f t :
  (forall p, 0 <= w p <= 1) -> (t < n)%nat -> w (f t) = 1 -> 1 <= tsum n (fun x => w (f x)).
Proof.
  intros Hw. induction n as [|n IH]; intros Hn Ht; simpl; [lia|]. pose proof (Hw (f n)).
  destruct (decide (t = n)) as [->|Hne]; [pose proof (tsum_bounds n w f Hw); lia|]. specialize (IH ltac:(lia) Ht). lia.
Qed.

(** ** The invariant *)

(** A task that holds a read signal, or an item not signalled yet; a task that
    holds a write signal; a reader that has signalled the writers and has not
    finished. *)
Definition takes (p : cpc) : Z := match p with RGo | WSignal => 1 | _ => 0 end.
Definition puts (p : cpc) : Z := match p with WGo _ => 1 | _ => 0 end.
Definition pending (p : cpc) : Z :=
  match p with RWait _ | RYield _ | RQueue _ | RPollRead | RPollWrite | RGo | Stuck _ true => 1 | _ => 0 end.
Definition in_write (p : cpc) : bool := match p with WQueue _ _ => true | Stuck b _ => b | _ => false end.
Definition in_read (p : cpc) : bool := match p with RQueue _ => true | Stuck b _ => negb b | _ => false end.

Definition count (w : cpc -> Z) (s : csys) : Z := tsum ntasks (fun t => w (at_ s t)).

Record block_ok (o : BlockObject) (inq : cpc -> bool) (f : nat -> cpc) : Prop := {
  bk_pos : 0 <= wakeup_ o;
  bk_max : max_wakeup_ o = default_max;
  bk_idle : 0 < wakeup_ o -> wait_queue_ o = [];
  bk_nodup : NoDup (wait_queue_ o);
  bk_queue : forall t, t ∈ wait_queue_ o <-> inq (f t) = true }.

Record chan_ok (s : csys) : Prop := {
  k_range : forall t, (ntasks <= t)%nat -> at_ s t = CIdle;
  k_write_block : block_ok (write_block_ (ch s)) in_write (at_ s);
  k_read_block : block_ok (read_block_ (ch s)) in_read (at_ s);
  k_lost : 0 <= lost_write s /\ 0 <= lost_read s;
  k_read : sz (queue_ (ch s)) = wakeup_ (read_block_ (ch s)) + count takes s + lost_read s;
  k_write : wakeup_ (write_block_ (ch s)) + count puts s + sz (queue_ (ch s)) + lost_write s = capacity + count pending s;
  k_fifo : popped s ++ queue_ (ch s) = pushed s }.

Lemma takes_unit p : 0 <= takes p <= 1.
Proof. destruct p; simpl; lia. Qed.
Lemma puts_unit p : 0 <= puts p <= 1.
Proof. destruct p; simpl; lia. Qed.
Lemma pending_unit p : 0 <= pending p <= 1.
Proof. destruct p as [| | | | | | | | | | |? []]; simpl; lia. Qed.

Lemma busy_lt s t p : chan_ok s -> at_ s t = p -> p <> CIdle -> (t < ntasks)%nat.
Proof. intros H Hp Hn. destruct (decide (t < ntasks)%nat) as [|Hge]; [done|]. destruct Hn. by rewrite <- Hp, (k_range _ H) by lia. Qed.

Lemma block_move o inq f t p : block_ok o inq f -> inq (f t) = inq p -> block_ok o inq (upd t p f).
Proof.
  intros [] Hp. split; auto. intros x. rewrite bk_queue0. unfold upd. case_decide; [subst; by rewrite Hp|done].
Qed.

Lemma block_wakeup o inq f n : block_ok o inq f -> 0 <= n -> (0 < n -> wait_queue_ o = []) -> block_ok (set_wakeup n o) inq f.
Proof. intros [] Hn Hi. by split. Qed.

Lemma block_push o inq f t p :
  block_ok o inq f -> wakeup_ o = 0 -> inq (f t) = false -> inq p = true ->
  block_ok (set_queue (wait_queue_ o ++ [t]) o) inq (upd t p f).
Proof.
  intros [] Hw Hf Hp. split; simpl; auto; [lia|apply nodup_snoc; [done|rewrite bk_queue0; congruence]|].
  intros x. rewrite elem_of_app, list_elem_of_singleton, bk_queue0. unfold upd. case_decide; subst; intuition congruence.
Qed.

Lemma block_pop o inq f t p q :
  block_ok o inq f -> wait_queue_ o = t :: q -> inq p = false -> block_ok (set_queue q o) inq (upd t p f).
Proof.
  intros [] Hq Hp. rewrite Hq in bk_nodup0. apply NoDup_cons in bk_nodup0 as [Hn1 Hn2].
  split; simpl; auto; [intros Hw; by rewrite bk_idle0 in Hq|].
  intros x. pose proof (bk_queue0 x) as Hx. rewrite Hq, elem_of_cons in Hx. unfold upd. case_decide; subst; intuition congruence.
Qed.

Lemma block_erase o inq f t p q :
  block_ok o inq f -> queue_erase t (wait_queue_ o) = Some q -> inq p = false -> block_ok (set_queue q o) inq (upd t p f).
Proof.
  intros [] Hq Hp. apply queue_erase_some in Hq as (Hn & Ht & Hq); [|done]. split; simpl; auto.
  - intros Hw. rewrite bk_idle0 in Ht by done. set_solver.
  - intros x. rewrite Hq, bk_queue0. unfold upd. case_decide; subst; intuition congruence.
Qed.

Lemma block_head o inq f t q : block_ok o inq f -> wait_queue_ o = t :: q -> inq (f t) = true.
Proof. intros H Hq. apply (bk_queue _ _ _ H). rewrite Hq. set_solver. Qed.
#[local] Hint Resolve block_move block_wakeup block_push block_pop block_erase : core.

Hypothesis capacity_pos : 0 <= capacity.
Hypothesis capacity_bound : capacity + Z.of_nat ntasks <= default_max.

(** A signal is never refused: there is room for one per task beyond the
    capacity. *)
Lemma write_room s t : chan_ok s -> (t < ntasks)%nat -> pending (at_ s t) = 0 ->
  wakeup_ (write_block_ (ch s)) < default_max.
Proof.
  intros H Ht Hp. pose proof (k_write _ H). pose proof (k_lost _ H). unfold count in *.
  pose proof (tsum_below ntasks pending (at_ s) t pending_unit Ht Hp).
  pose proof (tsum_bounds ntasks puts (at_ s) puts_unit). lia.
Qed.

Lemma read_room s t : chan_ok s -> at_ s t = WSignal -> wakeup_ (read_block_ (ch s)) < default_max.
Proof.
  intros H Ht. pose proof (busy_lt _ _ _ H Ht ltac:(done)) as Hlt. pose proof (k_write _ H). pose proof (k_read _ H). pose proof (k_lost _ H). unfold count in *.
  pose proof (tsum_below ntasks pending (at_ s) t pending_unit Hlt ltac:(by rewrite Ht)).
  pose proof (tsum_bounds ntasks puts (at_ s) puts_unit). pose proof (tsum_bounds ntasks takes (at_ s) takes_unit).
  pose proof (bk_pos _ _ _ (k_write_block _ H)). lia.
Qed.

(** The two outcomes of a signal. *)
Lemma wakeup_cases o r o' inq f :
  block_ok o inq f -> wakeup_ o < default_max -> Wakeup_locked o = (r, o') ->
  (r = WakeKept /\ wait_queue_ o = [] /\ o' = set_wakeup (wakeup_ o + 1) o) \/
  (exists u q, r = WakeTask u /\ wait_queue_ o = u :: q /\ o' = set_queue q o /\ inq (f u) = true).
Proof.
  intros H Hm Hw. unfold Wakeup_locked in Hw. destruct (wait_queue_ o) as [|u q] eqn:Hq.
  - left. rewrite (bk_max _ _ _ H) in Hw. replace (default_max <=? wakeup_ o) with false in Hw by lia. by simplify_eq.
  - right. exists u, q. simplify_eq. split_and!; [done..|]. by eapply block_head.
Qed.

(** Both block objects after the signal of a task that moves to [p]. *)
Lemma signal_ok o r o' inq inq' other f t p :
  block_ok o inq f -> block_ok other inq' f -> wakeup_ o < default_max -> Wakeup_locked o = (r, o') ->
  inq (f t) = false -> inq p = false -> inq' (f t) = inq' p ->
  (forall x, inq x = true -> inq (granted x) = false /\ inq' x = false /\ inq' (granted x) = false) ->
  block_ok o' inq (hand_over r (upd t p f)) /\ block_ok other inq' (hand_over r (upd t p f)).
Proof.
  intros H H' Hm Hw Ht Hp Hp' Hg.
  destruct (wakeup_cases _ _ _ _ _ H Hm Hw) as [(-> & Hq & ->)|(u & q & -> & Hq & -> & Hu)]; simpl.
  - split; [|by apply block_move]. apply block_move; [|congruence]. apply block_wakeup; [done| |done].
    pose proof (bk_pos _ _ _ H). lia.
  - destruct (Hg _ Hu) as (Hg1 & Hg2 & Hg3). assert (Hne : t <> u) by (intros ->; congruence).
    assert (Hu' : upd t p f u = f u) by (unfold upd; by case_decide). rewrite Hu'. split.
    + eapply block_pop; [|done|done]. apply block_move; [done|congruence].
    + apply block_move; [by apply block_move|]. by rewrite Hu', Hg2, Hg3.
Qed.

Lemma signal_writers s t k r o :
  chan_ok s -> (t < ntasks)%nat -> at_ s t = CIdle -> Wakeup_locked (write_block_ (ch s)) = (r, o) ->
  block_ok o in_write (hand_over r (upd t (RWait k) (at_ s))) /\
  block_ok (read_block_ (ch s)) in_read (hand_over r (upd t (RWait k) (at_ s))).
Proof.
  intros H Ht E Hw. eapply signal_ok; [apply H|apply H|eapply write_room; [done|done|by rewrite E]|done|by rewrite ?E..|].
  by intros [| | | | | | | | | | |[] []].
Qed.

Lemma signal_readers s t r o :
  chan_ok s -> at_ s t = WSignal -> Wakeup_locked (read_block_ (ch s)) = (r, o) ->
  block_ok (write_block_ (ch s)) in_write (hand_over r (upd t CIdle (at_ s))) /\
  block_ok o in_read (hand_over r (upd t CIdle (at_ s))).
Proof.
  intros H E Hw. apply and_comm. eapply signal_ok; [apply H|apply H|by eapply read_room|done|by rewrite ?E..|]. by intros [| | | | | | | | | | |[] []].
Qed.

Ltac chan_inv :=
  unfold go, push_done, push_signalled, read_signalled, pop_done, yield_wasted, resume_at, set_block, block_of,
    wait_enter, TryBlockWait, add_wait, queue_pop, queue_push, set_write, set_read in *;
  repeat (case_match; simplify_eq/=); zbool; simpl in *;
  try match goal with D : at_ _ _ = _ \/ at_ _ _ = _ |- _ => destruct D as [D|D] end.

(** One of the rules for a block object after a step of task [t]. *)
Ltac block_solve :=
  match goal with
  | |- block_ok _ _ (at_ _) => first [assumption | apply block_wakeup; [assumption|lia|auto with lia]]
  | E : at_ ?s ?t = _ |- block_ok _ _ (upd ?t _ (at_ ?s)) =>
      first
        [ apply block_move; [assumption|rewrite E; reflexivity]
        | apply block_push; [assumption|assumption|rewrite E; reflexivity|reflexivity]
        | eapply block_erase; [assumption|eassumption|reflexivity]
        | apply block_move; [apply block_wakeup; [assumption|lia|auto with lia]|rewrite E; reflexivity] ]
  end.

Lemma chan_step_blocks s s' : chan_step s s' -> chan_ok s ->
  block_ok (write_block_ (ch s')) in_write (at_ s') /\ block_ok (read_block_ (ch s')) in_read (at_ s').
Proof.
  intros Hs H. pose proof (k_write_block _ H) as Hw. pose proof (k_read_block _ H) as Hr.
  pose proof (bk_pos _ _ _ Hw). pose proof (bk_pos _ _ _ Hr). pose proof (bk_idle _ _ _ Hw). pose proof (bk_idle _ _ _ Hr).
  destruct Hs; try (by apply (signal_readers _ _ _ _ H)); try (by apply (signal_writers _ _ _ _ _ H)); chan_inv; split; block_solve.
Qed.

(** The task numbers a hand-over touches are below the bound. *)
Lemma head_busy s o inq t q :
  chan_ok s -> block_ok o inq (at_ s) -> inq CIdle = false -> wait_queue_ o = t :: q -> (t < ntasks)%nat.
Proof.
  intros H Ho Hi Hq. eapply busy_lt; [done|reflexivity|]. intros E. pose proof (block_head _ _ _ _ _ Ho Hq) as Hh. congruence.
Qed.

Lemma chan_step_range s s' : chan_step s s' -> chan_ok s -> forall t, (ntasks <= t)%nat -> at_ s' t = CIdle.
Proof.
  intros Hs H x Hx. pose proof (k_range _ H x Hx) as Hi.
  destruct Hs; chan_inv; unfold hand_over; repeat case_match; subst; simpl; unfold upd; repeat case_decide; subst; auto; try lia; try congruence.
  all: by rewrite Hi.
Qed.

(** The counts after a signal: the signal is kept, or the first waiting task
    of the right kind has it. *)
Lemma signal_count o r o' inq s t p :
  chan_ok s -> block_ok o inq (at_ s) -> wakeup_ o < default_max -> Wakeup_locked o = (r, o') ->
  inq CIdle = false -> inq (at_ s t) = false -> (t < ntasks)%nat ->
  let c (w : cpc -> Z) := tsum ntasks (fun x => w (at_ s x)) - w (at_ s t) + w p in
  let c' (w : cpc -> Z) := tsum ntasks (fun x => w (hand_over r (upd t p (at_ s)) x)) in
  (wakeup_ o' = wakeup_ o + 1 /\ wasted r (at_ s) = 0 /\ forall w, c' w = c w) \/
  (exists x, inq x = true /\ wakeup_ o' = wakeup_ o /\ wasted r (at_ s) = wasted_at x /\
     forall w, c' w = c w - w x + w (granted x)).
Proof.
  intros H Ho Hm Hw Hi Hf Ht c c'.
  destruct (wakeup_cases _ _ _ _ _ Ho Hm Hw) as [(-> & Hq & ->)|(u & q & -> & Hq & -> & Hu)].
  - left. split; [done|]. split; [done|]. intros w. unfold c', c, hand_over. by rewrite tsum_upd.
  - right. exists (at_ s u). split_and!; [done..|]. intros w. unfold c', c, hand_over.
    assert (Hne : t <> u) by (intros ->; congruence).
    assert (Hu' : upd t p (at_ s) u = at_ s u) by (unfold upd; by case_decide).
    rewrite Hu', tsum_upd by (by eapply head_busy). rewrite Hu', tsum_upd by done. lia.
Qed.

Lemma chan_step_counts s s' : chan_step s s' -> chan_ok s ->
  (0 <= lost_write s' /\ 0 <= lost_read s') /\
  sz (queue_ (ch s')) = wakeup_ (read_block_ (ch s')) + count takes s' + lost_read s' /\
  wakeup_ (write_block_ (ch s')) + count puts s' + sz (queue_ (ch s')) + lost_write s' = capacity + count pending s'.
Proof.
  intros Hs H. pose proof (k_read _ H) as Hr. pose proof (k_write _ H) as Hw. pose proof (k_lost _ H) as Hl. unfold count in *.
  assert (Hlt : forall t p, at_ s t = p -> p <> CIdle -> (t < ntasks)%nat) by (intros; by eapply busy_lt).
  destruct Hs.
  all: try (chan_inv; rewrite ?length_app; simpl; rewrite ?tsum_upd by eauto;
    match goal with E : at_ _ _ = _ |- _ => rewrite ?E end; simpl; lia).
  - destruct (signal_count _ _ _ in_read s t CIdle H (k_read_block _ H) (read_room _ _ H H0) H1 eq_refl
      ltac:(by rewrite H0) ltac:(by eapply Hlt)) as [(Ho & Hz & Hc)|(x & Hx & Ho & Hz & Hc)]; simpl; rewrite !Hc, Ho, Hz, H0; simpl.
    + lia.
    + destruct x as [| | | | | | | | | | |[] []]; try done; simpl; lia.
  - destruct (signal_count _ _ _ in_write s t (RWait k) H (k_write_block _ H)
      (write_room s t H H0 ltac:(by rewrite H1)) H2 eq_refl
      ltac:(by rewrite H1) H0) as [(Ho & Hz & Hc)|(x & Hx & Ho & Hz & Hc)]; simpl; rewrite !Hc, Ho, Hz, H1; simpl.
    + lia.
    + destruct x as [| | | | | | | | | | |[] []]; try done; simpl; lia.
Qed.

Lemma chan_step_fifo s s' : chan_step s s' -> chan_ok s -> popped s' ++ queue_ (ch s') = pushed s'.
Proof.
  intros Hs H. pose proof (k_fifo _ H) as Hf. destruct Hs; chan_inv; auto.
  - by rewrite app_assoc, Hf.
  - by rewrite <- app_assoc.
Qed.

Lemma chan_step_ok s s' : chan_step s s' -> chan_ok s -> chan_ok s'.
Proof.
  intros Hs H. destruct (chan_step_blocks _ _ Hs H). destruct (chan_step_counts _ _ Hs H) as (? & ? & ?).
  split; eauto using chan_step_range, chan_step_fifo.
Qed.

Lemma chan_start_ok : chan_ok chan_start.
Proof.
  assert (Hz : forall n, tsum n (fun _ => 0) = 0) by (induction n; simpl; lia).
  split; simpl; try done; unfold count; simpl; rewrite ?Hz; try lia.
  - split; simpl; try done; [apply NoDup_nil_2|set_solver].
  - split; simpl; try done; [apply NoDup_nil_2|set_solver].
Qed.

Lemma chan_reachable_ok s : star chan_step chan_start s -> chan_ok s.
Proof. intros Hs. eapply star_invariant; [|done|apply chan_start_ok]. intros; by eapply chan_step_ok. Qed.

(** What the counts give: room for at most the readers beyond the capacity, and a value for
    everybody who may pop. *)
Lemma stored_bound s : chan_ok s -> chan_size (ch s) <= capacity + count pending s.
Proof.
  intros H. pose proof (k_write _ H). pose proof (k_lost _ H). pose proof (bk_pos _ _ _ (k_write_block _ H)).
  unfold chan_size, count in *. pose proof (tsum_bounds ntasks puts (at_ s) puts_unit). lia.
Qed.
Lemma pop_returns s t : chan_ok s -> at_ s t = RGo -> returns (queue_pop (ch s)).
Proof.
  intros H Ht. pose proof (busy_lt _ _ _ H Ht ltac:(done)) as Hlt. pose proof (k_read _ H) as Hr. pose proof (k_lost _ H).
  unfold count in Hr. pose proof (tsum_above ntasks takes (at_ s) t takes_unit Hlt ltac:(by rewrite Ht)).
  pose proof (bk_pos _ _ _ (k_read_block _ H)). unfold queue_pop. destruct (queue_ (ch s)); [simpl in *; lia|by eexists].
Qed.

(** C11: a channel is a bounded queue.  In every interleaving of plain, timed and
    try operations of coroutines: the values read, followed by those stored,
    are the values written, in order; a reader that is about to pop finds a
    value; and the values stored exceed the capacity by at most the number of
    readers that are in an operation. *)
Theorem channel_queue s :
  star chan_step chan_start s ->
  popped s ++ queue_ (ch s) = pushed s /\
  (forall t, at_ s t = RGo -> returns (queue_pop (ch s))) /\
  chan_size (ch s) <= capacity + count pending s.
Proof.
  intros Hs. pose proof (chan_reachable_ok _ Hs) as H.
  split_and!; [apply H|intros t; by apply pop_returns|by apply stored_bound].
Qed.

(** A state where no coroutine can go on: each is outside the channel or in a
    wait queue. *)
Definition at_rest (s : csys) : Prop :=
  forall t, match at_ s t with CIdle | WQueue _ _ | RQueue _ | Stuck _ _ => True | _ => False end.

Lemma rest_count (w : cpc -> Z) s : (forall t, w (at_ s t) = 0) -> count w s = 0.
Proof.
  intros Hw. unfold count. rewrite (tsum_ext _ _ (fun _ => 0)) by auto.
  clear. induction ntasks as [|n IH]; simpl; [done|]. rewrite IH. done.
Qed.

Lemma rest_counts s : at_rest s -> count takes s = 0 /\ count puts s = 0.
Proof. intros Hr. split; apply rest_count; intros t; specialize (Hr t); by destruct (at_ s t). Qed.

Lemma queued_no_signal o inq f t : block_ok o inq f -> inq (f t) = true -> wakeup_ o = 0.
Proof.
  intros H Ht. pose proof (bk_pos _ _ _ H). apply (bk_queue _ _ _ H) in Ht.
  destruct (decide (0 < wakeup_ o)) as [Hp|]; [|lia]. rewrite (bk_idle _ _ _ H Hp) in Ht. set_solver.
Qed.

(** No signal went to a coroutine that only yields, and none is stuck so. *)
Definition undisturbed (s : csys) : Prop :=
  lost_write s = 0 /\ lost_read s = 0 /\ forall t b polling, at_ s t <> Stuck b polling.

Lemma blocked_counts s : chan_ok s -> at_rest s ->
  (forall t k, at_ s t = RQueue k -> sz (queue_ (ch s)) = lost_read s) /\
  (forall t timed v, at_ s t = WQueue timed v -> sz (queue_ (ch s)) + lost_write s = capacity + count pending s).
Proof.
  intros H Hrest. pose proof (k_read _ H) as Hr. pose proof (k_write _ H) as Hw. destruct (rest_counts _ Hrest) as [Ht Hp]. split.
  - intros u k Hu. pose proof (queued_no_signal _ in_read _ u (k_read_block _ H) ltac:(by rewrite Hu)). lia.
  - intros u timed v Hu. pose proof (queued_no_signal _ in_write _ u (k_write_block _ H) ltac:(by rewrite Hu)). lia.
Qed.

Lemma undisturbed_blocked s t : chan_ok s -> at_rest s -> undisturbed s ->
  (forall k, at_ s t = RQueue k ->
     queue_ (ch s) = [] /\ forall t' timed v, at_ s t' <> WQueue timed v) /\
  (forall timed v, at_ s t = WQueue timed v ->
     sz (queue_ (ch s)) = capacity /\ forall t' k, at_ s t' <> RQueue k).
Proof.
  intros H Hrest (Hlw & Hlr & Hst). destruct (blocked_counts s H Hrest) as [Hrq Hwq].
  assert (forall t k t' timed v, at_ s t = RQueue k -> at_ s t' <> WQueue timed v) as Hnot.
  { intros u k t' timed v Hu Hv. specialize (Hrq _ _ Hu). specialize (Hwq _ _ _ Hv).
    pose proof (tsum_above ntasks pending (at_ s) u pending_unit (busy_lt _ _ _ H Hu ltac:(done)) ltac:(by rewrite Hu)).
    unfold count in *. lia. }
  split.
  - intros k Hk. split; [|by eauto]. specialize (Hrq _ _ Hk). by destruct (queue_ (ch s)); simpl in *; [|lia].
  - intros timed v Hv. assert (forall t' k, at_ s t' <> RQueue k) as Hno by (intros t' k Hk; by eapply Hnot). split; [|done].
    assert (count pending s = 0) as Hc.
    { apply rest_count. intros x. specialize (Hrest x). specialize (Hno x). specialize (Hst x).
      destruct (at_ s x); try done; [by destruct (Hno k)|by edestruct Hst]. }
    specialize (Hwq _ _ _ Hv). lia.
Qed.

(** C12: who waits, waits for a reason.  Let every coroutine be outside the channel
    or blocked in it.  Then the values a blocked reader was not told of are as many as the
    signals of [read_block_] that went to coroutines that only yield, with their
    [state_] left at [sys_block]; and the room a blocked writer was not told of is
    as much as the signals of [write_block_] that went so.  If no signal went so and no
    coroutine is queued so, a blocked reader means that no value is stored and no
    writer is blocked, and a blocked writer that the channel holds its
    capacity and no reader is blocked: no signal is lost in another way. *)
Theorem channel_no_lost_signal s t :
  star chan_step chan_start s -> at_rest s ->
  (forall k, at_ s t = RQueue k -> sz (queue_ (ch s)) = lost_read s) /\
  (forall timed v, at_ s t = WQueue timed v -> sz (queue_ (ch s)) + lost_write s = capacity + count pending s) /\
  (undisturbed s ->
     (forall k, at_ s t = RQueue k ->
        queue_ (ch s) = [] /\ forall t' timed v, at_ s t' <> WQueue timed v) /\
     (forall timed v, at_ s t = WQueue timed v ->
        sz (queue_ (ch s)) = capacity /\ forall t' k, at_ s t' <> RQueue k)).
Proof.
  intros Hs Hrest. pose proof (chan_reachable_ok _ Hs) as H. destruct (blocked_counts s H Hrest) as [H1 H2].
  split_and!; [apply H1|apply H2|by apply undisturbed_blocked].
Qed.
End Channel.

(** ** Examples: one coroutine writes two values into a channel of capacity
    one, another reads *)

Lemma demo_capacity : 0 <= 1 /\ 1 + Z.of_nat 2 <= default_max.
Proof. unfold default_max. lia. Qed.

Definition demo_blocked : csys (T := Z) :=
  mkCsys (mkChannel (mkBlock 0 default_max [0%nat]) (mkBlock 1 default_max []) [7])
    (upd 0 (WQueue false 8) (upd 0 (WYield false 8) (upd 0 CIdle (upd 0 WSignal (upd 0 (WGo 7) (fun _ => CIdle))))))
    [7] [] 0 0.
Lemma demo_blocked_reached : star (chan_step 2) (chan_start 1) demo_blocked.
Proof.
  eapply star_step; [apply (c_write_now _ _ 0 7); [lia|done|reflexivity]|].
  eapply star_step; [apply (c_push _ _ 0 7); reflexivity|].
  eapply star_step; [eapply (c_push_signal _ _ 0); reflexivity|].
  eapply star_step; [apply (c_write_wait _ _ 0 false 8); [lia|reflexivity|reflexivity]|].
  eapply star_step; [apply (c_write_add _ _ 0 false 8); reflexivity|constructor].
Qed.

Lemma channel_queue_witness : popped demo_blocked ++ queue_ (ch demo_blocked) = [7].
Proof. exact (proj1 (channel_queue 2 1 (proj1 demo_capacity) (proj2 demo_capacity) _ demo_blocked_reached)). Defined.

Lemma channel_no_lost_signal_witness : sz (queue_ (ch demo_blocked)) = 1 /\ forall t' k, at_ demo_blocked t' <> RQueue k.
Proof.
  refine (proj2 (proj2 (proj2 (channel_no_lost_signal 2 1 (proj1 demo_capacity) (proj2 demo_capacity) demo_blocked 0
    demo_blocked_reached _)) _) false 8 eq_refl).
  - intros [|t]; exact I.
  - split; [reflexivity|]. split; [reflexivity|]. intros [|t]; discriminate.
Defined.

(** Coroutine 1 writes to a channel without capacity and gets its signal of
    [write_block_] in [AddWaitTask] ([c_write_granted]), so that its [state_] stays
    [sys_block] after its value was read ... *)
Lemma stale_writer_done :
  exists s : csys (T := Z), star (chan_step 2) (chan_start 0) s /\
    ch s = mkChannel (mkBlock 0 default_max []) (mkBlock 0 default_max []) [] /\ at_ s 0%nat = CIdle /\ at_ s 1%nat = CIdle.
Proof.
  eexists. split.
  - eapply star_step; [apply (c_write_wait _ _ 1 false 8); [lia|reflexivity|reflexivity]|].
    eapply star_step; [eapply (c_read_signal _ _ 0 KPlain); [lia|reflexivity|reflexivity]|].
    eapply star_step; [eapply (c_write_granted _ _ 1 false 8); reflexivity|].
    eapply star_step; [eapply (c_push _ _ 1 8); reflexivity|].
    eapply star_step; [eapply (c_push_signal _ _ 1); reflexivity|].
    eapply star_step; [eapply (c_read_now _ _ 0 KPlain); [reflexivity|done|reflexivity]|].
    eapply star_step; [eapply (c_pop _ _ 0); reflexivity|constructor].
  - by split_and!.
Qed.

(** ... and when it yields while coroutine 0 reads, it takes the signal meant for
    a writer: coroutine 0 waits for a value, the next writer for a reader. *)
Lemma stale_yield_strands :
  exists s : csys (T := Z), star (chan_step 2) (chan_start 0) s /\ at_rest s /\
    at_ s 0%nat = RQueue KPlain /\ at_ s 1%nat = WQueue false 9 /\ queue_ (ch s) = [].
Proof.
  destruct stale_writer_done as (s & Hs & Hc & H0 & H1). pose proof (chan_reachable_ok (T := Z) 2 0) as Hok.
  eexists. split; [eapply star_trans; [exact Hs|]|].
  - eapply star_step; [eapply (c_read_signal _ _ 0 KPlain WakeKept); [lia|exact H0|by rewrite Hc]|].
    eapply star_step; [eapply (c_yield_wasted _ _ 1 true); [lia|left; exact H1|reflexivity]|].
    eapply star_step; [eapply (c_read_wait _ _ 0 KPlain); [reflexivity|done|simpl; rewrite Hc; reflexivity]|].
    eapply star_step; [eapply (c_read_add _ _ 0 KPlain); [reflexivity|reflexivity]|].
    eapply star_step; [eapply (c_write_wait _ _ 1 false 9); [lia|exact H1|reflexivity]|].
    eapply star_step; [eapply (c_write_add _ _ 1 false 9); [reflexivity|reflexivity]|constructor].
  - split; [|split_and!; [reflexivity|reflexivity|by simpl; rewrite Hc]].
    intros [|[|t]]; simpl; try done. unfold upd. rewrite !decide_False by lia.
    assert (at_ s (S (S t)) = CIdle) as ->; [|done]. apply (k_range 2 0 s); [|lia].
    apply Hok; [lia|unfold default_max; lia|exact Hs].
Qed.
