(* ===== verification/VoidChannel.v ===== *)
(** * Channels without values

    [Channel<void>] of [libgo/channel.h]: the two block objects of a channel
    without the queue between them.  Its steps are those of [Channel.v] with the
    push fused into the signal and the pop left out; every run is a run of a
    value channel of [unit], from which its properties follow.  Yields of coroutines
    whose [state_] was left at [sys_block] are not among them ([Channel.v] has
    them for the value channel, where the signals they take are counted). *)
From S2P Require Import Prelude SyncBlock Channel.

Section VoidChannel.
Variable ntasks : nat.
Variable capacity : Z.

Record VoidImpl : Type := mkVoid { v_write_block_ : BlockObject; v_read_block_ : BlockObject }.
Definition VoidImpl_new : VoidImpl := mkVoid (BlockObject_new capacity default_max) (BlockObject_new 0 default_max).
Definition void_empty (c : VoidImpl) : bool := negb (IsWakeup (v_read_block_ c)).
Definition void_size (c : VoidImpl) : Z := 0.

(** Where a task is, as for a channel of [unit]; nobody is at [WSignal]. *)
Definition vpc : Type := cpc (T := unit).
Record vsys : Type := mkVsys { vch : VoidImpl; vat : nat -> vpc; written : nat; taken : nat }.
Definition void_start : vsys := mkVsys VoidImpl_new (fun _ => CIdle) 0 0.

Definition vgo (t : nat) (p : vpc) (c : VoidImpl) (s : vsys) : vsys := mkVsys c (upd t p (vat s)) (written s) (taken s).
Definition vset_write (o : BlockObject) (c : VoidImpl) : VoidImpl := mkVoid o (v_read_block_ c).
Definition vset_read (o : BlockObject) (c : VoidImpl) : VoidImpl := mkVoid (v_write_block_ c) o.

Inductive void_step : vsys -> vsys -> Prop :=
| v_write_now s t o : (t < ntasks)%nat ->
    vat s t = CIdle -> TryBlockWait (v_write_block_ (vch s)) = (true, o) ->
    void_step s (vgo t (WGo tt) (vset_write o (vch s)) s)
| v_write_wait s t timed o : (t < ntasks)%nat ->
    vat s t = CIdle -> wait_enter (v_write_block_ (vch s)) = (false, o) ->
    void_step s (vgo t (WYield timed tt) (vset_write o (vch s)) s)
| v_write_add s t timed o :
    vat s t = WYield timed tt -> add_wait t (v_write_block_ (vch s)) = (true, o) ->
    void_step s (vgo t (WQueue timed tt) (vset_write o (vch s)) s)
| v_write_granted s t timed o :
    vat s t = WYield timed tt -> add_wait t (v_write_block_ (vch s)) = (false, o) ->
    void_step s (vgo t (WGo tt) (vset_write o (vch s)) s)
| v_write_timeout s t q :
    vat s t = WQueue true tt -> queue_erase t (wait_queue_ (v_write_block_ (vch s))) = Some q ->
    void_step s (vgo t CIdle (vset_write (set_queue q (v_write_block_ (vch s))) (vch s)) s)
| v_signal s t r o :
    vat s t = WGo tt -> Wakeup_locked (v_read_block_ (vch s)) = (r, o) ->
    void_step s (mkVsys (vset_read o (vch s)) (hand_over r (upd t CIdle (vat s))) (S (written s)) (taken s))
| v_read_signal s t k r o : (t < ntasks)%nat ->
    vat s t = CIdle -> Wakeup_locked (v_write_block_ (vch s)) = (r, o) ->
    void_step s (mkVsys (vset_write o (vch s)) (hand_over r (upd t (RWait k) (vat s))) (written s) (taken s))
| v_read_now s t k o :
    vat s t = RWait k -> k <> KTry -> wait_enter (v_read_block_ (vch s)) = (true, o) ->
    void_step s (vgo t RGo (vset_read o (vch s)) s)
| v_read_wait s t k o :
    vat s t = RWait k -> k <> KTry -> wait_enter (v_read_block_ (vch s)) = (false, o) ->
    void_step s (vgo t (RYield k) (vset_read o (vch s)) s)
| v_read_add s t k o :
    vat s t = RYield k -> add_wait t (v_read_block_ (vch s)) = (true, o) ->
    void_step s (vgo t (RQueue k) (vset_read o (vch s)) s)
| v_read_granted s t k o :
    vat s t = RYield k -> add_wait t (v_read_block_ (vch s)) = (false, o) ->
    void_step s (vgo t RGo (vset_read o (vch s)) s)
| v_read_timeout s t q :
    vat s t = RQueue KTimed -> queue_erase t (wait_queue_ (v_read_block_ (vch s))) = Some q ->
    void_step s (vgo t RPollWrite (vset_read (set_queue q (v_read_block_ (vch s))) (vch s)) s)
| v_poll_read s t ok o :
    vat s t = RWait KTry \/ vat s t = RPollRead -> TryBlockWait (v_read_block_ (vch s)) = (ok, o) ->
    void_step s (vgo t (if ok then RGo else RPollWrite) (vset_read o (vch s)) s)
| v_poll_write s t ok o :
    vat s t = RPollWrite -> TryBlockWait (v_write_block_ (vch s)) = (ok, o) ->
    void_step s (vgo t (if ok then CIdle else RPollRead) (vset_write o (vch s)) s)
| v_return s t :
    vat s t = RGo -> void_step s (mkVsys (vch s) (upd t CIdle (vat s)) (written s) (S (taken s))).

(** ** The simulation *)

Record sim (v : vsys) (c : csys (T := unit)) : Prop := {
  s_write : write_block_ (ch c) = v_write_block_ (vch v);
  s_read : read_block_ (ch c) = v_read_block_ (vch v);
  s_at x : at_ c x = vat v x;
  s_lost : lost_write c = 0 /\ lost_read c = 0;
  s_pushed : length (pushed c) = written v;
  s_popped : length (popped c) = taken v }.

Hypothesis capacity_pos : 0 <= capacity.
Hypothesis capacity_bound : capacity + Z.of_nat ntasks <= default_max.

Lemma upd_ext t (p : vpc) f g x : (forall y, f y = g y) -> upd t p f x = upd t p g x.
Proof. intros H. unfold upd. by case_decide. Qed.
Lemma hand_over_ext r (f g : nat -> vpc) x : (forall y, f y = g y) -> hand_over r f x = hand_over r g x.
Proof. intros H. destruct r; cbn; try done. rewrite H. by apply upd_ext. Qed.

(** Nobody is queued by a plain yield. *)
Definition unstuck (f : nat -> vpc) : Prop := forall x b polling, f x <> Stuck b polling.
Lemma unstuck_upd f t p : unstuck f -> (forall b polling, p <> Stuck b polling) -> unstuck (upd t p f).
Proof. intros Hf Hp x. unfold upd. by case_decide. Qed.
Lemma unstuck_hand r f : unstuck f -> unstuck (hand_over r f).
Proof. intros Hf. destruct r; cbn; try done. apply unstuck_upd; [done|]. specialize (Hf t). destruct (f t); try done. intros. by edestruct Hf. Qed.
Lemma unstuck_wasted r f : unstuck f -> wasted r f = 0.
Proof. intros Hf. destruct r; cbn; try done. specialize (Hf t). destruct (f t); try done. by edestruct Hf. Qed.
Lemma void_step_unstuck a b : void_step a b -> unstuck (vat a) -> unstuck (vat b).
Proof.
  intros Hs Ha. destruct Hs; cbn; try (destruct ok); try apply unstuck_hand; by apply unstuck_upd.
Qed.

(** A step with the same rule, at the same task. *)
Tactic Notation "simulate" uconstr(rule) :=
  eexists; split;
    [apply star_one; eapply rule;
       match goal with
       | Ha : forall x, at_ _ x = _, Hb : write_block_ _ = _, Hc : read_block_ _ = _ |- _ => rewrite ?Ha, ?Hb, ?Hc
       end; eassumption
    |constructor; cbn; try assumption; try reflexivity; try (f_equal; assumption);
       try (rewrite unstuck_wasted by assumption; lia); intros; first [apply hand_over_ext; intros|idtac]; apply upd_ext; assumption].

Lemma void_simulated v v' c :
  void_step v v' -> unstuck (at_ c) -> sim v c -> star (chan_step ntasks) (chan_start capacity) c ->
  exists c', star (chan_step ntasks) c c' /\ sim v' c'.
Proof.
  intros Hs Hun Hsim Hc. pose proof (s_at _ _ Hsim) as Hat. pose proof (s_lost _ _ Hsim) as Hlo.
  pose proof (s_write _ _ Hsim) as Hw. pose proof (s_read _ _ Hsim) as Hr.
  pose proof (s_pushed _ _ Hsim) as Hpu. pose proof (s_popped _ _ Hsim) as Hpo.
  destruct Hs.
  - simulate c_write_now.
  - simulate c_write_wait.
  - simulate c_write_add.
  - simulate c_write_granted.
  - simulate c_write_timeout.
  - eexists. split.
    + eapply star_step; [eapply c_push; rewrite Hat; eassumption|]. apply star_one. eapply c_push_signal.
      * cbn. apply upd_same.
      * cbn. rewrite Hr. eassumption.
    + constructor; cbn; try assumption; try reflexivity.
      * intros x. apply hand_over_ext. intros y. unfold upd. by repeat case_decide.
      * rewrite unstuck_wasted by (by apply unstuck_upd). lia.
      * rewrite length_app, Hpu. cbn. lia.
  - simulate c_read_signal.
  - simulate c_read_now.
  - simulate c_read_wait.
  - simulate c_read_add.
  - simulate c_read_granted.
  - simulate c_read_timeout.
  - simulate c_poll_read.
  - simulate c_poll_write.
  - rewrite <- Hat in H. pose proof (chan_reachable_ok ntasks capacity capacity_pos capacity_bound _ Hc) as Hok.
    destruct (pop_returns ntasks capacity _ _ Hok H) as [[u c1] Hq].
    eexists. split; [apply star_one; eapply c_pop; eassumption|].
    unfold queue_pop in Hq. destruct (queue_ (ch c)) as [|u' q]; [done|]. injection Hq as <- <-.
    constructor; cbn; try assumption; try reflexivity.
    + intros x. by apply upd_ext.
    + rewrite length_app, Hpo. cbn. lia.
Qed.

Lemma void_reached v : star void_step void_start v ->
  exists c, star (chan_step ntasks) (chan_start capacity) c /\ sim v c.
Proof.
  intros Hs. eapply (star_invariant void_step (fun v => unstuck (vat v) /\ exists c, star (chan_step ntasks) (chan_start capacity) c /\ sim v c));
    [|exact Hs|].
  - intros a b Hab (Hun & c & Hc & Hsim). split; [by eapply void_step_unstuck|].
    destruct (void_simulated _ _ c Hab) as (c' & Hc' & Hsim'); [|done..|].
    { intros x. rewrite (s_at _ _ Hsim). apply Hun. }
    exists c'. split; [by eapply star_trans|done].
  - split; [done|]. exists (chan_start capacity). split; [apply star_refl|]. by constructor.
Qed.

Definition vrest (s : vsys) : Prop := forall t, match vat s t with CIdle | WQueue _ _ | RQueue _ => True | _ => False end.
Definition readers (s : vsys) : Z := tsum ntasks (fun t => pending (vat s t)).

(** A channel without values counts.  Every interleaving of its plain, timed and
    try operations, with no coroutine that yields with its state left, is one of a channel of [unit] values; so no read completes
    without a write of its own, the writes are ahead of the reads by at most
    the capacity and the readers in progress, and nobody waits for nothing:
    when all coroutines are outside or blocked, a blocked reader means that
    every write was read and no writer is blocked, and a blocked writer that
    exactly [capacity] writes are unread. *)
Theorem void_channel_counts v :
  star void_step void_start v ->
  (exists c, star (chan_step ntasks) (chan_start capacity) c /\ sim v c) /\
  (taken v <= written v)%nat /\
  Z.of_nat (written v) <= Z.of_nat (taken v) + capacity + readers v /\
  (vrest v -> forall t,
    (forall k, vat v t = RQueue k -> written v = taken v /\ forall t' timed, vat v t' <> WQueue timed tt) /\
    (forall timed, vat v t = WQueue timed tt -> Z.of_nat (written v) = Z.of_nat (taken v) + capacity)).
Proof.
  intros Hv. destruct (void_reached v Hv) as (c & Hc & Hsim). split; [by exists c|]. destruct Hsim as [Hw Hr Hat Hlo Hpu Hpo].
  pose proof (chan_reachable_ok ntasks capacity capacity_pos capacity_bound c Hc) as Hok.
  pose proof (k_fifo _ _ _ Hok) as Hq. pose proof (stored_bound _ _ _ Hok) as Hcap.
  assert (written v = taken v + length (queue_ (ch c)))%nat as Hlen by (rewrite <- Hpu, <- Hpo, <- Hq; apply length_app).
  unfold chan_size in Hcap. assert (count ntasks pending c = readers v) as Hpend.
  { unfold count, readers. apply tsum_ext. intros t _. by rewrite Hat. }
  split; [lia|]. split; [lia|]. intros Hrest t.
  assert (at_rest c) as Hrc by (intros x; rewrite Hat; specialize (Hrest x); by destruct (vat v x)).
  assert (undisturbed c) as Hu by (split_and!; [apply Hlo..|intros x b p E; specialize (Hrest x); rewrite <- Hat, E in Hrest; done]).
  destruct (undisturbed_blocked ntasks capacity capacity_pos capacity_bound c t Hok Hrc Hu) as [H1 H2]. rewrite Hat in H1, H2. split.
  - intros k Hk. destruct (H1 k Hk) as [E Hno]. rewrite E in Hlen. cbn in Hlen. split; [lia|].
    intros t' timed. rewrite <- Hat. apply Hno.
  - intros timed Hk. destruct (H2 timed tt Hk) as [E _]. lia.
Qed.
End VoidChannel.

(** A writer of a channel without capacity waits, a reader comes and both go
    on. *)
Definition demo_void : vsys :=
  mkVsys (mkVoid (mkBlock 0 default_max []) (mkBlock 0 default_max [])) (upd 1 CIdle (upd 1 RGo (upd 0 CIdle
    (hand_over (WakeTask 0) (upd 1 (RWait KPlain) (upd 0 (WQueue false tt) (upd 0 (WYield false tt) (fun _ => CIdle)))))))) 1 1.
Lemma demo_void_reached : star (void_step 2) (void_start 0) demo_void.
Proof.
  eapply star_step; [apply (v_write_wait _ _ 0 false); [lia|reflexivity|reflexivity]|].
  eapply star_step; [apply (v_write_add _ _ 0 false); reflexivity|].
  eapply star_step; [apply (v_read_signal _ _ 1 KPlain); [lia|reflexivity|reflexivity]|].
  eapply star_step; [eapply (v_signal _ _ 0); reflexivity|].
  eapply star_step; [eapply (v_read_now _ _ 1 KPlain); [reflexivity|discriminate|reflexivity]|].
  eapply star_step; [apply (v_return _ _ 1); reflexivity|]. apply star_refl.
Qed.

Lemma void_channel_counts_witness : (taken demo_void <= written demo_void)%nat.
Proof.
  refine (proj1 (proj2 (void_channel_counts 2 0 _ _ demo_void demo_void_reached))); [lia|unfold default_max; lia].
Defined.
