(* ===== verification/ThreadPool.v ===== *)
(** * The thread pool

    [libgo/thread_pool.{h,cpp}]: plain threads in [RunLoop] take closures from
    [elem_list_], run them and send the results to channels.  [elem_list_] is
    the list that [TSQueue] implements, so that [push], [pop] and [empty] are
    atomic; [get] first tries without [cond_mtx_], and then waits on [cond_]
    under it, while [AsyncWait] pushes and notifies under it.  Closures are
    numbers; whether the channel of one is [Unique] when it is reached is an
    input, and the send to the channel is part of the step that runs it. *)
From S2P Require Import Prelude SyncBlock.

Section ThreadPool.
Variable nworkers : nat.

(** Where a thread is in [RunLoop] and [get]. *)
Inductive wpc : Type :=
| WIdle            (** at the top of the loop *)
| WLocking         (** the first [pop] gave nothing; will lock [cond_mtx_] *)
| WTest            (** holds the lock, will test [empty] *)
| WSleep           (** in [cond_.wait] *)
| WNotified        (** woken in [cond_.wait], will lock again *)
| WPop             (** holds the lock, will [pop] *)
| WRun (e : nat).  (** will call [Do] and delete the element *)

Inductive holder : Type := Submitter | Worker (w : nat).

Record pool : Type := mkPool {
  elem_list_ : list nat; cond_mtx_ : option holder; workers : nat -> wpc;
  submitted : list nat; ran : list nat; dropped : list nat }.
Definition ThreadPool_new : pool := mkPool [] None (fun _ => WIdle) [] [] [].

Definition pool_at (w : nat) (p : wpc) (q : list nat) (m : option holder) (s : pool) : pool :=
  mkPool q m (upd w p (workers s)) (submitted s) (ran s) (dropped s).

(** [TPElem::Do]: nothing when nobody else has the channel. *)
Definition Do (unique : bool) (e : nat) (s : pool) : pool :=
  if unique then mkPool (elem_list_ s) (cond_mtx_ s) (workers s) (submitted s) (ran s) (dropped s ++ [e])
  else mkPool (elem_list_ s) (cond_mtx_ s) (workers s) (submitted s) (ran s ++ [e]) (dropped s).

(** The steps of the threads. *)
Inductive worker_step : pool -> pool -> Prop :=
| w_pop s w e q : (w < nworkers)%nat ->
    workers s w = WIdle -> elem_list_ s = e :: q -> worker_step s (pool_at w (WRun e) q (cond_mtx_ s) s)
| w_nothing s w : (w < nworkers)%nat ->
    workers s w = WIdle -> elem_list_ s = [] -> worker_step s (pool_at w WLocking [] (cond_mtx_ s) s)
| w_lock s w : (w < nworkers)%nat ->
    workers s w = WLocking \/ workers s w = WNotified -> cond_mtx_ s = None ->
    worker_step s (pool_at w WTest (elem_list_ s) (Some (Worker w)) s)
| w_wait s w : (w < nworkers)%nat ->
    workers s w = WTest -> elem_list_ s = [] -> worker_step s (pool_at w WSleep [] None s)
| w_found s w : (w < nworkers)%nat ->
    workers s w = WTest -> elem_list_ s <> [] -> worker_step s (pool_at w WPop (elem_list_ s) (cond_mtx_ s) s)
| w_take s w e q : (w < nworkers)%nat ->
    workers s w = WPop -> elem_list_ s = e :: q -> worker_step s (pool_at w (WRun e) q None s)
| w_gone s w : (w < nworkers)%nat ->
    workers s w = WPop -> elem_list_ s = [] -> worker_step s (pool_at w WIdle [] None s)
| w_do s w e unique : (w < nworkers)%nat ->
    workers s w = WRun e ->
    worker_step s (pool_at w WIdle (elem_list_ s) (cond_mtx_ s) (Do unique e s)).

(** The rest of [AsyncWait] after the push: [notify_one] wakes a thread that
    sleeps, if there is one, and the lock is given back. *)
Inductive notify_step : pool -> pool -> Prop :=
| n_one s w : cond_mtx_ s = Some Submitter -> (w < nworkers)%nat -> workers s w = WSleep ->
    notify_step s (pool_at w WNotified (elem_list_ s) None s)
| n_none s : cond_mtx_ s = Some Submitter -> (forall w, (w < nworkers)%nat -> workers s w <> WSleep) ->
    notify_step s (mkPool (elem_list_ s) None (workers s) (submitted s) (ran s) (dropped s)).

(** What is under way goes on: a thread, or a submission that has pushed. *)
Inductive serve_step : pool -> pool -> Prop :=
| v_worker s s' : worker_step s s' -> serve_step s s'
| v_notify s s' : notify_step s s' -> serve_step s s'.

(** A new submission, and a wake-up without a notification, which a condition
    variable may make but nobody can rely on. *)
Inductive pool_step : pool -> pool -> Prop :=
| p_push s e : cond_mtx_ s = None -> e ∉ submitted s ->
    pool_step s (mkPool (elem_list_ s ++ [e]) (Some Submitter) (workers s) (submitted s ++ [e]) (ran s) (dropped s))
| p_spurious s w : (w < nworkers)%nat -> workers s w = WSleep ->
    pool_step s (pool_at w WNotified (elem_list_ s) (cond_mtx_ s) s)
| p_serve s s' : serve_step s s' -> pool_step s s'.

(** ** The invariant *)

Definition holds (p : wpc) : list nat := match p with WRun e => [e] | _ => [] end.
Definition in_hands (f : nat -> wpc) : list nat := concat (map (fun w => holds (f w)) (seq 0 nworkers)).
Definition owns (p : wpc) : bool := match p with WTest | WPop => true | _ => false end.

Record pool_ok (s : pool) : Prop := {
  po_elems : submitted s ≡ₚ elem_list_ s ++ in_hands (workers s) ++ ran s ++ dropped s;
  po_nodup : NoDup (submitted s);
  po_lock w : (w < nworkers)%nat -> owns (workers s w) = true <-> cond_mtx_ s = Some (Worker w);
  po_owner w : cond_mtx_ s = Some (Worker w) -> (w < nworkers)%nat;
  po_awake : elem_list_ s <> [] -> cond_mtx_ s <> Some Submitter -> (0 < nworkers)%nat ->
    exists w, (w < nworkers)%nat /\ workers s w <> WSleep }.

Lemma in_hands_upd w p f :
  (w < nworkers)%nat -> exists l, in_hands f ≡ₚ holds (f w) ++ l /\ in_hands (upd w p f) ≡ₚ holds p ++ l.
Proof.
  intros Hw. unfold in_hands. destruct (list_elem_of_split_l (seq 0 nworkers) w) as (l1 & l2 & E & Hn); [apply elem_of_seq; lia|].
  pose proof (NoDup_seq 0 nworkers) as Hd. rewrite E in Hd |- *. apply NoDup_app in Hd as (_ & _ & Hd%NoDup_cons).
  assert (forall l, w ∉ l -> map (fun x => holds (upd w p f x)) l = map (fun x => holds (f x)) l) as Heq.
  { intros l Hl. apply List.map_ext_in. intros x Hx%list_elem_of_In. unfold upd. case_decide; [congruence|done]. }
  rewrite !map_app, !concat_app. cbn. rewrite !Heq by (done || apply Hd). rewrite upd_same.
  exists (concat (map (fun x => holds (f x)) l1) ++ concat (map (fun x => holds (f x)) l2)). split; solve_Permutation.
Qed.

(** One thread moves: the elements stay where they are counted, and the lock is
    untouched, taken or given back. *)
Lemma pool_move_ok s w p q m rn dr :
  pool_ok s -> (w < nworkers)%nat ->
  elem_list_ s ++ holds (workers s w) ++ ran s ++ dropped s ≡ₚ q ++ holds p ++ rn ++ dr ->
  (m = cond_mtx_ s /\ owns p = owns (workers s w) \/
   m = Some (Worker w) /\ cond_mtx_ s = None /\ owns p = true \/
   m = None /\ owns p = false /\ (cond_mtx_ s = Some (Worker w) \/ cond_mtx_ s = Some Submitter)) ->
  (p = WSleep -> q = []) ->
  pool_ok (mkPool q m (upd w p (workers s)) (submitted s) rn dr).
Proof.
  intros [He Hn Hl Ho Ha] Hw Hp Hm Hs. constructor; cbn; try done.
  - destruct (in_hands_upd w p (workers s) Hw) as (l & H1 & H2). rewrite He, H1, H2.
    trans (l ++ (elem_list_ s ++ holds (workers s w) ++ ran s ++ dropped s)); [solve_Permutation|].
    rewrite Hp. solve_Permutation.
  - intros x Hx. specialize (Hl x Hx). unfold upd. destruct Hm as [[-> E]|[(-> & E1 & E2)|(-> & E1 & E2)]].
    + case_decide; [subst x; by rewrite E|done].
    + rewrite E1 in Hl. case_decide; [subst x; by rewrite E2|]. rewrite Hl. naive_solver.
    + case_decide; [by rewrite E1|]. rewrite Hl. naive_solver.
  - intros x Hx. destruct Hm as [[-> _]|[(-> & _)|(-> & _)]]; [by apply Ho| |done]. injection Hx as <-. done.
  - intros Hq _ _. exists w. split; [done|]. rewrite upd_same. intros E. by apply Hq, Hs.
Qed.

Lemma worker_ok s s' : worker_step s s' -> pool_ok s -> pool_ok s'.
Proof.
  intros Hs Hok. pose proof (po_lock _ Hok) as Hl.
  destruct Hs as [s w e q Hw Hpc Hq|s w Hw Hpc Hq|s w Hw Hpc Hm|s w Hw Hpc Hq|s w Hw Hpc Hq|s w e q Hw Hpc Hq|s w Hw Hpc Hq
                 |s w e u Hw Hpc]; unfold pool_at.
  - apply pool_move_ok; try done; [rewrite Hpc, Hq; solve_Permutation|left; by rewrite Hpc].
  - apply pool_move_ok; try done; [by rewrite Hpc, Hq|left; by rewrite Hpc].
  - apply pool_move_ok; try done; [|by right; left]. destruct Hpc as [-> | ->]; done.
  - apply pool_move_ok; try done; [by rewrite Hpc, Hq|]. right. right. split_and!; [done|done|]. left. apply Hl; [done|by rewrite Hpc].
  - apply pool_move_ok; try done; [by rewrite Hpc|left; by rewrite Hpc].
  - apply pool_move_ok; try done; [rewrite Hpc, Hq; solve_Permutation|]. right. right. split_and!; [done|done|]. left.
    apply Hl; [done|by rewrite Hpc].
  - apply pool_move_ok; try done; [by rewrite Hpc, Hq|]. right. right. split_and!; [done|done|]. left. apply Hl; [done|by rewrite Hpc].
  - unfold Do. destruct u; cbn; apply pool_move_ok; try done; try (left; by rewrite Hpc).
    all: rewrite Hpc; cbn; solve_Permutation.
Qed.

Lemma serve_ok s s' : serve_step s s' -> pool_ok s -> pool_ok s'.
Proof.
  intros Hs Hok. destruct Hs as [s s' Hs|s s' [s1 w Hm Hw Hpc|s1 Hm Hno]]; [by eapply worker_ok| |].
  - apply pool_move_ok; try done; [by rewrite Hpc|]. right. right. split_and!; [done|done|by right].
  - pose proof Hok as [Hel Hn Hl Ho Ha]. constructor; cbn; try done.
    + intros w Hw. specialize (Hl w Hw). rewrite Hm in Hl. intuition congruence.
    + intros _ _ Hpos. exists 0%nat. split; [done|by apply Hno].
Qed.

Lemma pool_step_ok s s' : pool_step s s' -> pool_ok s -> pool_ok s'.
Proof.
  intros Hs Hok. destruct Hs as [s e Hm He|s w Hw Hpc|s s' Hs]; [| |by eapply serve_ok].
  - pose proof Hok as [Hel Hn Hl Ho Ha]. constructor; cbn; try done.
    + rewrite Hel. solve_Permutation.
    + by apply nodup_snoc.
    + intros w Hw. specialize (Hl w Hw). rewrite Hm in Hl. intuition congruence.
  - apply pool_move_ok; try done; [by rewrite Hpc|left; by rewrite Hpc].
Qed.

Lemma pool_new_ok : pool_ok ThreadPool_new.
Proof.
  constructor; cbn; try done; [|apply NoDup_nil_2].
  assert (forall l, concat (map (fun _ : nat => holds WIdle) l) = []) as H by (induction l; done).
  unfold in_hands. by rewrite H.
Qed.

Lemma pool_reached s : star pool_step ThreadPool_new s -> pool_ok s.
Proof. intros Hs. eapply star_invariant; [|exact Hs|apply pool_new_ok]. intros ??. apply pool_step_ok. Qed.

(** ** Queued closures are reached *)

(** How far a thread is from sleeping or from its next closure. *)
Definition weight (q : list nat) (p : wpc) : nat :=
  match p with
  | WSleep => 0 | WTest => 2 | WLocking | WNotified => 3 | WIdle => 4 | WRun _ => 5
  | WPop => match q with [] => 5 | _ :: _ => 1 end
  end.
Definition weights (q : list nat) (f : nat -> wpc) : nat := sum_list_with (fun w => weight q (f w)) (seq 0 nworkers).
Definition rank (s : pool) : nat :=
  (length (elem_list_ s) * (5 * nworkers + 1) + weights (elem_list_ s) (workers s) +
   match cond_mtx_ s with Some Submitter => 4 | _ => 0 end)%nat.

Lemma weight_bound q p : (weight q p <= 5)%nat.
Proof. destruct p; cbn; try lia. destruct q; lia. Qed.

Lemma weights_bound q f : (weights q f <= 5 * nworkers)%nat.
Proof.
  unfold weights. rewrite <- (length_seq nworkers 0) at 2. induction (seq 0 nworkers) as [|w l IH]; [done|].
  cbn. pose proof (weight_bound q (f w)). lia.
Qed.

Lemma weights_upd q w p f : (w < nworkers)%nat -> (weights q (upd w p f) + weight q (f w) = weights q f + weight q p)%nat.
Proof.
  intros Hw. unfold weights. destruct (list_elem_of_split_l (seq 0 nworkers) w) as (l1 & l2 & E & Hn); [apply elem_of_seq; lia|].
  pose proof (NoDup_seq 0 nworkers) as Hd. rewrite E in Hd |- *. apply NoDup_app in Hd as (_ & _ & Hd%NoDup_cons).
  assert (forall l, w ∉ l -> sum_list_with (fun x => weight q (upd w p f x)) l = sum_list_with (fun x => weight q (f x)) l) as Heq.
  { induction l as [|x l IH]; [done|]. intros [Hx Hl]%not_elem_of_cons. cbn. rewrite IH by done. unfold upd. case_decide; [congruence|done]. }
  rewrite !sum_list_with_app. cbn. rewrite !Heq by (done || apply Hd). rewrite upd_same. lia.
Qed.

(** Without new submissions the pool comes to rest: every step lowers the rank. *)
Lemma serve_lowers s s' : pool_ok s -> serve_step s s' -> (rank s' < rank s)%nat.
Proof.
  intros Hok Hs.
  assert (forall w p m, (w < nworkers)%nat -> (m = Some Submitter -> cond_mtx_ s = Some Submitter) ->
    (weight (elem_list_ s) p + match m with Some Submitter => 4 | _ => 0 end <
     weight (elem_list_ s) (workers s w) + match cond_mtx_ s with Some Submitter => 4 | _ => 0 end)%nat ->
    (rank (pool_at w p (elem_list_ s) m s) < rank s)%nat) as Hmove.
  { intros w p m Hw Hm Hlt. unfold rank. cbn. pose proof (weights_upd (elem_list_ s) w p (workers s) Hw). lia. }
  assert (forall w e q m, (w < nworkers)%nat -> elem_list_ s = e :: q -> (m = cond_mtx_ s \/ m = None) ->
    (rank (pool_at w (WRun e) q m s) < rank s)%nat) as Htake.
  { intros w e q m Hw Hq Hm. unfold rank. cbn. rewrite Hq. cbn. pose proof (weights_bound q (upd w (WRun e) (workers s))).
    assert (match m with Some Submitter => 4 | _ => 0 end <= match cond_mtx_ s with Some Submitter => 4 | _ => 0 end)%nat
      by (destruct Hm as [-> | ->]; [done|lia]). lia. }
  destruct Hs as [s s' Hs|s s' Hn].
  - destruct Hs as [s w e q Hw Hpc Hq|s w Hw Hpc Hq|s w Hw Hpc Hm|s w Hw Hpc Hq|s w Hw Hpc Hq|s w e q Hw Hpc Hq|s w Hw Hpc Hq
                 |s w e u Hw Hpc]; [by apply Htake; auto| | | | |by apply Htake; auto| |].
    + rewrite <- Hq. apply Hmove; [done|done|]. rewrite Hpc. cbn. lia.
    + apply Hmove; [done|done|]. rewrite Hm. destruct Hpc as [-> | ->]; cbn; lia.
    + rewrite <- Hq. apply Hmove; [done|done|]. rewrite Hpc. cbn. lia.
    + apply Hmove; [done|done|]. rewrite Hpc. cbn. destruct (elem_list_ s); [done|lia].
    + rewrite <- Hq at 1. apply Hmove; [done|done|]. rewrite Hpc, Hq. cbn. lia.
    + assert (rank (pool_at w WIdle (elem_list_ s) (cond_mtx_ s) (Do u e s)) = rank (pool_at w WIdle (elem_list_ s) (cond_mtx_ s) s)) as ->
        by (by destruct u). apply Hmove; [done|done|]. rewrite Hpc. cbn. lia.
  - destruct Hn as [s w Hm Hw Hpc|s Hm Hno].
    + apply Hmove; [done|done|]. rewrite Hm, Hpc. cbn. lia.
    + unfold rank. cbn. rewrite Hm. lia.
Qed.

Lemma sleeper_dec (f : nat -> wpc) n : {exists w, (w < n)%nat /\ f w = WSleep} + {forall w, (w < n)%nat -> f w <> WSleep}.
Proof.
  induction n as [|n [H|H]]; [right; lia|left; destruct H as (w & ? & ?); exists w; split; [lia|done]|].
  destruct (f n) eqn:E; try (right; intros w Hw; destruct (decide (w = n)) as [->|]; [congruence|apply H; lia]).
  left. exists n. split; [lia|done].
Qed.

Lemma in_hands_elem f e : e ∈ in_hands f <-> exists w, (w < nworkers)%nat /\ f w = WRun e.
Proof.
  unfold in_hands. rewrite list_elem_of_In, in_concat. setoid_rewrite <- list_elem_of_In. split.
  - intros (l & (w & -> & Hw)%list_elem_of_fmap & He). apply elem_of_seq in Hw. exists w. split; [lia|].
    destruct (f w); cbn in He; try (by apply not_elem_of_nil in He). apply list_elem_of_singleton in He. by subst.
  - intros (w & Hw & E). exists (holds (f w)). split; [|rewrite E; by left]. apply list_elem_of_fmap. exists w.
    split; [done|]. apply elem_of_seq. lia.
Qed.

(** Nobody waits for an unprompted wake-up: while a closure is queued or with a
    thread, a thread or the submission under way can go on. *)
Lemma serve_enabled s : pool_ok s -> (0 < nworkers)%nat -> elem_list_ s ++ in_hands (workers s) <> [] -> exists s', serve_step s s'.
Proof.
  intros Hok Hpos Hne.
  assert (forall w x, (w < nworkers)%nat -> workers s w = WRun x -> exists s', serve_step s s') as Hrun.
  { intros w x Hw Hpc. eexists. by eapply v_worker, (w_do s w x false). }
  destruct (in_hands (workers s)) as [|x l] eqn:Eh.
  2:{ destruct (proj1 (in_hands_elem (workers s) x)) as (w & Hw & Hpc); [rewrite Eh; by left|]. by eapply Hrun. }
  rewrite app_nil_r in Hne. destruct (elem_list_ s) as [|e q] eqn:Hq; [done|]. destruct (cond_mtx_ s) as [[|w]|] eqn:Hm.
  - destruct (sleeper_dec (workers s) nworkers) as [(w & Hw & Hpc)|Hno]; eexists; apply v_notify; [by eapply n_one|by apply n_none].
  - pose proof (po_owner _ Hok w Hm) as Hw. pose proof (proj2 (po_lock _ Hok w Hw) Hm) as Ho.
    destruct (workers s w) eqn:Hpc; try done; eexists; apply v_worker; [by apply (w_found s w); [..|rewrite Hq]|by eapply w_take].
  - destruct (po_awake _ Hok) as (w & Hw & Hns); [by rewrite Hq|by rewrite Hm|done|].
    pose proof (po_lock _ Hok w Hw) as Hl. rewrite Hm in Hl.
    destruct (workers s w) as [| | | | | |x] eqn:Hpc; try done; try (by apply (Hrun w x)).
    + eexists. by eapply v_worker, w_pop.
    + eexists. apply v_worker, (w_lock s w); [done|by left|done].
    + by pose proof (proj1 Hl eq_refl).
    + eexists. apply v_worker, (w_lock s w); [done|by right|done].
    + by pose proof (proj1 Hl eq_refl).
Qed.

Lemma serve_submitted s s' : serve_step s s' -> submitted s' = submitted s.
Proof. intros [? ? []|? ? []]; try done. by destruct unique. Qed.

(** From [s] on, without new submissions and without unprompted wake-ups, every
    run ends, and ends with all closures run or dropped. *)
Inductive served (s : pool) : Prop :=
| served_rest : elem_list_ s = [] -> in_hands (workers s) = [] -> submitted s ≡ₚ ran s ++ dropped s ->
    (forall s', serve_step s s' -> served s') -> served s
| served_goes : (exists s', serve_step s s') -> (forall s', serve_step s s' -> served s') -> served s.

(** C19: No submitted closure is lost, doubled or forgotten.  In every interleaving of
    submissions and threads, unprompted wake-ups included:
    (1) each closure that was submitted is queued, with a thread, run or dropped,
    in exactly one of these places, so that none runs twice;
    (2) from there on, if there are threads, however they go on, no wake-up
    unprompted by a notification and no further submission is needed: as long as
    a closure is queued or with a thread some step is possible, only finitely
    many are, and then all closures that were submitted have been run, or dropped
    because nobody waits for their result. *)
Theorem pool_serves s :
  star pool_step ThreadPool_new s ->
  submitted s ≡ₚ elem_list_ s ++ in_hands (workers s) ++ ran s ++ dropped s /\
  NoDup (ran s) /\ (forall e, e ∈ ran s -> e ∉ dropped s /\ e ∉ elem_list_ s) /\
  ((0 < nworkers)%nat -> served s).
Proof.
  intros Hs. pose proof (pool_reached s Hs) as Hok. pose proof (po_nodup _ Hok) as Hn. rewrite (po_elems _ Hok) in Hn.
  apply NoDup_app in Hn as (Hn1 & Hd1 & Hn). apply NoDup_app in Hn as (Hn2 & Hd2 & Hn). apply NoDup_app in Hn as (Hn3 & Hd3 & Hn).
  split; [apply Hok|]. split; [done|]. split; [set_solver|]. intros Hpos. clear -Hok Hpos.
  induction s as [s IH] using (induction_ltof1 _ rank).
  assert (forall s', serve_step s s' -> served s') as Hnext.
  { intros s' Hst. apply IH; [by apply serve_lowers|by eapply serve_ok]. }
  destruct (elem_list_ s ++ in_hands (workers s)) as [|x l] eqn:E.
  - apply app_nil in E as [E1 E2]. apply served_rest; [done|done| |done]. rewrite (po_elems _ Hok). by rewrite E1, E2.
  - apply served_goes; [|done]. apply serve_enabled; [done|done|by rewrite E].
Qed.
End ThreadPool.

(** One thread finds nothing and goes to sleep; a closure is submitted and the
    thread notified. *)
Definition demo_pool : pool :=
  mkPool [4%nat] None (upd 0 WNotified (upd 0 WSleep (upd 0 WTest (upd 0 WLocking (fun _ => WIdle))))) [4%nat] [] [].
Lemma demo_pool_reached : star (pool_step 1) ThreadPool_new demo_pool.
Proof.
  eapply star_step; [apply p_serve, v_worker, (w_nothing 1 _ 0); [lia|done|done]|].
  eapply star_step; [apply p_serve, v_worker, (w_lock 1 _ 0); [lia|by left|done]|].
  eapply star_step; [apply p_serve, v_worker, (w_wait 1 _ 0); [lia|done|done]|].
  eapply star_step; [apply (p_push 1 _ 4); [done|apply not_elem_of_nil]|].
  eapply star_step; [apply p_serve, v_notify, (n_one 1 _ 0); [done|lia|done]|]. apply star_refl.
Qed.

Lemma pool_serves_witness : served 1 demo_pool.
Proof. exact (proj2 (proj2 (proj2 (pool_serves 1 demo_pool demo_pool_reached))) ltac:(lia)). Defined.
