(* ===== verification/Await.v ===== *)
(** * Waiting for a function that runs in the thread pool

    [co_await(type)] of [libgo/coroutine.h]: [__async_wait] gives a closure and a
    channel to the thread pool ([ThreadPool.v]) and reads from the channel
    ([Channel.v]).  The pool's thread runs the function and writes its result to
    the channel.  A plain thread cannot wait in a block object: it tries until
    it gets the signal, sleeping in between.  The capacity is 1 for a value and
    0 for [void]. *)
From S2P Require Import Prelude SyncBlock Channel ThreadPool.

Section Await.
Context {R : Type}.
Variable capacity : Z.
Variable result : R.

(** Where the closure is: not yet run; run, trying to write; writing; done.
    Where the coroutine is: about to read; in [>>]; with the result. *)
Inductive thread_pc : Type := TPool | TTry | TWrite | TDone.
Inductive await_pc : Type := ANew | ARead | ADone.

(** Task 0 of the channel is the coroutine, task 1 the pool's thread. *)
Record await : Type := mkAwait { chan : csys (T := R); th : thread_pc; co : await_pc }.
Definition await_start : await := mkAwait (chan_start capacity) TPool ANew.

Inductive await_step : await -> await -> Prop :=
| aw_run s : th s = TPool -> await_step s (mkAwait (chan s) TTry (co s))
| aw_sleep s o : th s = TTry -> TryBlockWait (write_block_ (ch (chan s))) = (false, o) -> await_step s s
| aw_try s o : th s = TTry -> TryBlockWait (write_block_ (ch (chan s))) = (true, o) ->
    await_step s (mkAwait (go 1 (WGo result) (set_write o (ch (chan s))) (chan s)) TWrite (co s))
| aw_push s v : th s = TWrite -> at_ (chan s) 1 = WGo v ->
    await_step s (mkAwait (push_done 1 v (chan s)) TWrite (co s))
| aw_signal s r o : th s = TWrite -> at_ (chan s) 1 = WSignal -> Wakeup_locked (read_block_ (ch (chan s))) = (r, o) ->
    await_step s (mkAwait (push_signalled 1 r o (chan s)) TDone (co s))
| aw_read s r o : co s = ANew -> Wakeup_locked (write_block_ (ch (chan s))) = (r, o) ->
    await_step s (mkAwait (read_signalled 0 KPlain r o (chan s)) (th s) ARead)
| aw_read_now s o : co s = ARead -> at_ (chan s) 0 = RWait KPlain -> wait_enter (read_block_ (ch (chan s))) = (true, o) ->
    await_step s (mkAwait (go 0 RGo (set_read o (ch (chan s))) (chan s)) (th s) ARead)
| aw_read_wait s o : co s = ARead -> at_ (chan s) 0 = RWait KPlain -> wait_enter (read_block_ (ch (chan s))) = (false, o) ->
    await_step s (mkAwait (go 0 (RYield KPlain) (set_read o (ch (chan s))) (chan s)) (th s) ARead)
| aw_add s b o : co s = ARead -> at_ (chan s) 0 = RYield KPlain -> add_wait 0 (read_block_ (ch (chan s))) = (b, o) ->
    await_step s (mkAwait (go 0 (if b then RQueue KPlain else RGo) (set_read o (ch (chan s))) (chan s)) (th s) ARead)
| aw_pop s v c : co s = ARead -> at_ (chan s) 0 = RGo -> queue_pop (ch (chan s)) = Ret (v, c) ->
    await_step s (mkAwait (pop_done 0 v c (chan s)) (th s) ADone).

(** ** The invariant *)

Definition thread_fits (s : await) : Prop :=
  match th s with
  | TPool | TTry => at_ (chan s) 1 = CIdle /\ pushed (chan s) = []
  | TWrite => at_ (chan s) 1 = WGo result /\ pushed (chan s) = [] \/ at_ (chan s) 1 = WSignal /\ pushed (chan s) = [result]
  | TDone => at_ (chan s) 1 = CIdle /\ pushed (chan s) = [result]
  end.
Definition coroutine_fits (s : await) : Prop :=
  match co s with
  | ANew => at_ (chan s) 0 = CIdle /\ popped (chan s) = []
  | ARead => at_ (chan s) 0 ∈ [RWait KPlain; RYield KPlain; RQueue KPlain; RGo] /\ popped (chan s) = []
  | ADone => at_ (chan s) 0 = CIdle /\ popped (chan s) = [result]
  end.
Record await_ok (s : await) : Prop := {
  aw_chan : star (chan_step 2) (chan_start capacity) (chan s);
  aw_lost : lost_write (chan s) = 0 /\ lost_read (chan s) = 0;
  aw_thread : thread_fits s;
  aw_coroutine : coroutine_fits s }.

Hypothesis capacity_pos : 0 <= capacity.
Hypothesis capacity_bound : capacity + Z.of_nat 2 <= default_max.

Lemma two_ok s : await_ok s -> chan_ok 2 capacity (chan s).
Proof. intros H. apply chan_reachable_ok; [done|done|apply H]. Qed.

(** What a signal does to the two: no thread is in a wait queue, and the
    coroutine can only be in the readers'. *)
Lemma signal_write s r o : await_ok s -> co s = ANew -> Wakeup_locked (write_block_ (ch (chan s))) = (r, o) -> r = WakeKept.
Proof.
  intros H Hco Hw. pose proof (two_ok s H) as Hok. destruct H as [_ _ Ht Ha].
  unfold coroutine_fits in Ha. rewrite Hco in Ha. destruct Ha as [Ha _].
  edestruct (wakeup_cases (T := R) 2) as [(-> & _)|(u & q & -> & _ & _ & Hu)]; [exact (k_write_block _ _ _ Hok)| |exact Hw|done|].
  - eapply (write_room (T := R) 2 capacity capacity_bound (chan s) 0); [exact Hok|lia|by rewrite Ha].
  - exfalso. destruct u as [|[|u]]; [by rewrite Ha in Hu| |by rewrite (k_range _ _ _ Hok (S (S u)) ltac:(lia)) in Hu].
    unfold thread_fits in Ht. destruct (th s); try destruct Ht as [Ht|Ht]; destruct Ht as [Ht _]; by rewrite Ht in Hu.
Qed.
Lemma signal_read s r o : await_ok s -> at_ (chan s) 1 = WSignal -> Wakeup_locked (read_block_ (ch (chan s))) = (r, o) ->
  r = WakeKept \/ r = WakeTask 0 /\ at_ (chan s) 0 = RQueue KPlain.
Proof.
  intros H Ht Hw. pose proof (two_ok s H) as Hok. destruct H as [_ _ _ Ha].
  edestruct (wakeup_cases (T := R) 2) as [(-> & _)|(u & q & -> & _ & _ & Hu)]; [exact (k_read_block _ _ _ Hok)| |exact Hw|by left|].
  - by eapply (read_room (T := R) 2 capacity).
  - right. destruct u as [|[|u]]; [|by rewrite Ht in Hu|by rewrite (k_range _ _ _ Hok (S (S u)) ltac:(lia)) in Hu].
    split; [done|]. unfold coroutine_fits in Ha. destruct (co s); destruct Ha as [Ha _]; try (by rewrite Ha in Hu).
    rewrite !elem_of_cons in Ha. destruct Ha as [Ha|[Ha|[Ha|[Ha|Ha]]]]; try (by rewrite Ha in Hu). by apply not_elem_of_nil in Ha.
Qed.

Lemma await_chan s s' : await_ok s -> await_step s s' -> chan s' = chan s \/ chan_step 2 (chan s) (chan s').
Proof.
  intros [_ _ Ht Ha] Hs. unfold thread_fits, coroutine_fits in *. destruct Hs; cbn; try (by left); right; rewrite ?H in *.
  - apply c_write_now; [lia|by destruct Ht|done].
  - by apply c_push.
  - by apply c_push_signal.
  - apply c_read_signal; [lia|by destruct Ha|done].
  - by eapply c_read_now.
  - by eapply c_read_wait.
  - destruct b; [by apply c_read_add|by eapply c_read_granted].
  - by apply c_pop.
Qed.

(** The places of the two after a step of one of them. *)
Lemma upd_ne {A} t u (p : A) f : t <> u -> upd t p f u = f u.
Proof. intros H. unfold upd. by case_decide. Qed.

Lemma fifo_of s c : await_ok s -> chan_step 2 (chan s) c -> popped c ++ queue_ (ch c) = pushed c.
Proof. intros H Hs. by eapply (chan_step_fifo 2 capacity); [|apply two_ok]. Qed.

Lemma await_step_ok s s' : await_step s s' -> await_ok s -> await_ok s'.
Proof.
  intros Hs H. pose proof (await_chan s s' H Hs) as Hc. constructor.
  - destruct Hc as [->|Hc]; [apply H|]. eapply star_trans; [apply H|by apply star_one].
  - pose proof (aw_lost _ H) as Hlo. destruct Hs; cbn; try done.
    + destruct (signal_read s r o H H1 H2) as [->|[-> Hq]]; cbn; rewrite ?Hq; cbn; lia.
    + rewrite (signal_write s r o H H0 H1). cbn. lia.
  - destruct H as [Hch Hlo Ht Ha]. assert (await_ok s) as H by by constructor. unfold thread_fits in *. destruct Hs; cbn; try done; rewrite ?H0 in Ht; try done.
    + left. by rewrite upd_same; destruct Ht.
    + rewrite H1 in Ht. destruct Ht as [[[= ->] Hp]|[? _]]; [|done]. right. rewrite upd_same, Hp. done.
    + rewrite H1 in Ht. destruct Ht as [[? _]|[_ Hp]]; [done|]. split; [|done].
      destruct (signal_read s r o H H1 H2) as [->|[-> _]]; cbn; [apply upd_same|]. rewrite upd_ne by done. apply upd_same.
    + by rewrite (signal_write s r o H H0 H1).
  - destruct H as [Hch Hlo Ht Ha]. assert (await_ok s) as H by by constructor. unfold coroutine_fits in *. destruct Hs; cbn; try done; rewrite ?H0 in Ha; try done.
    + destruct (signal_read s r o H H1 H2) as [->|[-> Hq]]; cbn; [done|].
      destruct (co s); [by rewrite (proj1 Ha) in Hq| |by rewrite (proj1 Ha) in Hq].
      rewrite upd_same. unfold upd at 1. rewrite decide_False, Hq by done. cbn. split; [clear; set_solver|apply Ha].
    + rewrite (signal_write s r o H H0 H1). cbn. rewrite upd_same. split; [clear; set_solver|apply Ha].
    + rewrite upd_same. split; [clear; set_solver|apply Ha].
    + rewrite upd_same. split; [clear; set_solver|apply Ha].
    + rewrite upd_same. split; [destruct b; clear; set_solver|apply Ha].
    + rewrite upd_same. split; [done|]. pose proof (fifo_of s _ H (c_pop 2 _ _ _ _ H1 H2)) as Hf. cbn in Hf.
      rewrite (proj2 Ha) in Hf |- *. cbn in Hf |- *.
      unfold thread_fits in Ht. destruct (th s); try destruct Ht as [Ht|Ht]; destruct Ht as [_ Ht]; rewrite Ht in Hf; try done; by injection Hf as -> _.
Qed.

Lemma await_reached s : star await_step await_start s -> await_ok s.
Proof.
  intros Hs. eapply star_invariant; [|exact Hs|]; [intros ??; apply await_step_ok|]. constructor; [apply star_refl|done..].
Qed.

(** ** The call ends *)

(** How much there is still to do. *)
Definition thread_rank (s : await) : nat :=
  match th s with TPool => 4 | TTry => 3 | TWrite => match at_ (chan s) 1 with WGo _ => 2 | _ => 1 end | TDone => 0 end.
Definition coroutine_rank (s : await) : nat :=
  match co s with
  | ANew => 5
  | ARead => match at_ (chan s) 0 with RWait _ => 4 | RYield _ => 3 | RQueue _ => 2 | _ => 1 end
  | ADone => 0
  end.
Definition rank (s : await) : nat := (thread_rank s + coroutine_rank s)%nat.

(** Every step but the sleep of the thread brings the call nearer to its end. *)
Lemma rank_step s s' : await_ok s -> await_step s s' -> s' = s \/ (rank s' < rank s)%nat.
Proof.
  intros H Hs. pose proof H as [_ _ Ht Ha]. unfold thread_fits, coroutine_fits in Ht, Ha. unfold rank, thread_rank, coroutine_rank.
  destruct Hs; try (by left); right; cbn [th co chan go push_done push_signalled read_signalled pop_done at_]; rewrite ?H0 in *.
  - lia.
  - rewrite upd_same, (upd_ne 1 0) by done. lia.
  - rewrite H1 in *. rewrite upd_same, (upd_ne 1 0) by done. lia.
  - rewrite H1. destruct (signal_read s r o H H1 H2) as [->|[-> Hq]]; cbn [hand_over].
    + rewrite (upd_ne 1 0) by done. lia.
    + rewrite upd_same, (upd_ne 1 0), Hq by done. cbn. destruct (co s); lia.
  - rewrite (signal_write s r o H H0 H1). cbn [hand_over]. rewrite upd_same, (upd_ne 0 1) by done. lia.
  - rewrite H1, upd_same, (upd_ne 0 1) by done. lia.
  - rewrite H1, upd_same, (upd_ne 0 1) by done. lia.
  - rewrite H1, upd_same, (upd_ne 0 1) by done. destruct b; lia.
  - rewrite H1, (upd_ne 0 1) by done. lia.
Qed.

(** The counts of the channel for the two. *)
Lemma two_counts s : await_ok s ->
  sz (queue_ (ch (chan s))) = wakeup_ (read_block_ (ch (chan s))) + (takes (at_ (chan s) 1) + takes (at_ (chan s) 0)) /\
  wakeup_ (write_block_ (ch (chan s))) + (puts (at_ (chan s) 1) + puts (at_ (chan s) 0)) + sz (queue_ (ch (chan s))) =
    capacity + (pending (at_ (chan s) 1) + pending (at_ (chan s) 0)) /\
  popped (chan s) ++ queue_ (ch (chan s)) = pushed (chan s).
Proof.
  intros H0. pose proof (aw_lost _ H0) as [Hl1 Hl2]. apply two_ok in H0 as H. pose proof (k_read _ _ _ H) as H1. pose proof (k_write _ _ _ H) as H2. unfold count in *. cbn [tsum] in *.
  split_and!; [lia|lia|apply H].
Qed.

(** Until the coroutine has the result, one of the two has such a step. *)
Lemma read_goes_on s : await_ok s -> th s = TDone -> co s <> ADone -> exists s', await_step s s' /\ (rank s' < rank s)%nat.
Proof.
  intros H Hth Hco. pose proof (rank_step s) as Hr. destruct (two_counts s H) as (C1 & C2 & C3). pose proof (two_ok s H) as Hok.
  assert (forall s', await_step s s' -> co s' <> co s \/ at_ (chan s') 0 <> at_ (chan s) 0 ->
    exists s', await_step s s' /\ (rank s' < rank s)%nat) as Hgo.
  { intros s' Hs Hne. exists s'. split; [done|]. destruct (Hr s' H Hs) as [->|Hlt]; [by destruct Hne|done]. }
  pose proof H as [_ _ Ht Ha]. unfold thread_fits, coroutine_fits in Ht, Ha. rewrite Hth in Ht. destruct Ht as [Ht Hpu]. destruct (co s) eqn:Eco; [| |done].
  - destruct (Wakeup_locked (write_block_ (ch (chan s)))) as [r o] eqn:E. eapply Hgo; [by apply (aw_read s r o)|]. left. done.
  - destruct Ha as [Ha Hpo]. rewrite !elem_of_cons in Ha. destruct Ha as [Ha|[Ha|[Ha|[Ha|Ha]]]]; [..|by apply not_elem_of_nil in Ha].
    + destruct (wait_enter (read_block_ (ch (chan s)))) as [[] o] eqn:E;
        (eapply Hgo; [first [by apply (aw_read_now s o)|by apply (aw_read_wait s o)]|]); right; cbn; by rewrite Ha.
    + destruct (add_wait 0 (read_block_ (ch (chan s)))) as [b o] eqn:E. eapply Hgo; [by apply (aw_add s b o)|]. right. cbn. rewrite Ha. by destruct b.
    + exfalso. rewrite Ht, Ha, Hpu, Hpo in *. cbn in C1, C3.
      pose proof (queued_no_signal (T := R) 2 capacity capacity_pos capacity_bound _ in_read _ 0 (k_read_block _ _ _ Hok) ltac:(by rewrite Ha)) as Hz.
      rewrite C3, Hz in C1. cbn in C1. lia.
    + rewrite Hpo, Hpu in C3. cbn in C3. eapply Hgo; [eapply (aw_pop s result _ Eco Ha); unfold queue_pop; by rewrite C3|]. by left.
Qed.

Lemma await_goes_on s : await_ok s -> co s <> ADone -> exists s', await_step s s' /\ (rank s' < rank s)%nat.
Proof.
  intros H Hco. pose proof (rank_step s) as Hr. destruct (two_counts s H) as (C1 & C2 & C3).
  assert (forall s', await_step s s' -> s' <> s -> exists s', await_step s s' /\ (rank s' < rank s)%nat) as Hgo.
  { intros s' Hs Hne. exists s'. split; [done|]. by destruct (Hr s' H Hs). }
  destruct (th s) eqn:Eth; [| | |by apply read_goes_on].
  - eapply Hgo; [by apply aw_run|]. intros E. apply (f_equal th) in E. cbn in E. congruence.
  - destruct (TryBlockWait (write_block_ (ch (chan s)))) as [[] o] eqn:E.
    { eapply Hgo; [by eapply aw_try|]. intros E'. apply (f_equal th) in E'. cbn in E'. congruence. }
    assert (co s = ANew) as Hnew.
    { pose proof H as [_ _ Ht Ha]. unfold thread_fits, coroutine_fits in Ht, Ha. rewrite Eth in Ht. destruct Ht as [Ht Hpu].
      unfold TryBlockWait in E. destruct (wakeup_ (write_block_ (ch (chan s))) =? 0) eqn:Ez; [|done]. apply Z.eqb_eq in Ez.
      rewrite Hpu, Ht in *. destruct (app_eq_nil _ _ C3) as [_ Hq]. rewrite Hq, Ez in C2. cbn in C2. destruct (co s); [done| |done].
      destruct Ha as [Ha _]. rewrite !elem_of_cons in Ha. destruct Ha as [Ha|[Ha|[Ha|[Ha|Ha]]]]; try (rewrite Ha in C2; cbn in C2; lia).
      by apply not_elem_of_nil in Ha. }
    destruct (Wakeup_locked (write_block_ (ch (chan s)))) as [r o'] eqn:Ew. eapply Hgo; [by apply (aw_read s r o')|].
    intros E'. apply (f_equal co) in E'. cbn in E'. congruence.
  - pose proof H as [_ _ Ht _]. unfold thread_fits in Ht. rewrite Eth in Ht. destruct Ht as [[Ht Hp]|[Ht Hp]].
    + eapply Hgo; [by apply (aw_push s result)|]. intros E'. apply (f_equal (fun x => length (pushed (chan x)))) in E'. cbn in E'.
      rewrite Hp in E'. done.
    + destruct (Wakeup_locked (read_block_ (ch (chan s)))) as [r o'] eqn:Ew. eapply Hgo; [by apply (aw_signal s r o')|].
      intros E'. apply (f_equal th) in E'. cbn in E'. congruence.
Qed.

(** C20: [co_await] returns the function's result.  In every interleaving of the
    coroutine and of the pool's thread, when the call is over the coroutine has
    read the result of the function and nothing else; at most one value is ever
    written; until it is over, one of the two can make a step that brings it
    nearer to its end; and every step does so but the thread's sleep, which
    changes nothing.  So the call ends, also for [void], where the channel has no
    room and the thread must wait for the coroutine. *)
Theorem await_returns s :
  star await_step await_start s ->
  (co s = ADone -> popped (chan s) = [result]) /\ (length (pushed (chan s)) <= 1)%nat /\
  (co s <> ADone -> exists s', await_step s s' /\ (rank s' < rank s)%nat) /\
  (forall s', await_step s s' -> s' = s \/ (rank s' < rank s)%nat).
Proof.
  intros Hs. pose proof (await_reached s Hs) as H. split_and!.
  - intros E. pose proof (aw_coroutine _ H) as Ha. unfold coroutine_fits in Ha. rewrite E in Ha. apply Ha.
  - pose proof (aw_thread _ H) as Ht. unfold thread_fits in Ht. destruct (th s); try destruct Ht as [Ht|Ht]; destruct Ht as [_ ->]; cbn; lia.
  - by apply await_goes_on.
  - intros s'. by apply rank_step.
Qed.
End Await.

(** ** Example: [co_await(void)], the thread tries before the coroutine reads *)
Lemma void_capacity : 0 <= 0 /\ 0 + Z.of_nat 2 <= default_max.
Proof. unfold default_max. lia. Qed.

Definition demo_await : await (R := unit) := mkAwait (chan_start 0) TTry ANew.
Lemma demo_await_reached : star (await_step tt) (await_start 0) demo_await.
Proof. apply star_one. by apply (aw_run tt (await_start 0)). Qed.

Lemma await_returns_witness : exists s', await_step tt demo_await s' /\ (rank s' < rank demo_await)%nat.
Proof.
  apply (await_returns 0 tt (proj1 void_capacity) (proj2 void_capacity) demo_await demo_await_reached). discriminate.
Defined.
