(* ===== verification/Timer.v ===== *)
(** * Timers and sleeping coroutines

    [libgo/timer.cpp], [timer.h] and [sleep_wait.cpp].  [CoTimerMgr] keeps one
    multimap of deadlines per clock.  A time point is its count of nanoseconds;
    a timer is known by the order of its creation and keeps [active_] and the
    map its entry is in.  The clock readings of a call are its arguments. *)
From S2P Require Import Prelude StdString StdMap.

Inductive token : Type := tk_none | tk_system | tk_steady.
#[global] Instance token_eq_dec : EqDecision token.
Proof. solve_decision. Defined.

Record CoTimer : Type := mkTimer { active_ : bool; token_state_ : token }.
Definition CoTimer_new (k : token) : CoTimer := mkTimer true k.

(** [operator()], [Cancel] and [BlockCancel] of a timer; [busy] says that
    another thread holds [fn_lock_], on which only [BlockCancel] waits.  The
    result of [operator()] is whether the callback runs. *)
Definition CoTimer_call (busy : bool) (t : CoTimer) : bool * CoTimer :=
  if busy then (false, t)
  else if active_ t then (true, mkTimer false (token_state_ t)) else (false, t).
Definition CoTimer_Cancel (busy : bool) (t : CoTimer) : bool * CoTimer :=
  if busy then (false, t)
  else if active_ t then (true, mkTimer false (token_state_ t)) else (false, t).
Definition CoTimer_BlockCancel (t : CoTimer) : bool * CoTimer :=
  if active_ t then (true, mkTimer false (token_state_ t)) else (false, t).

Definition LLONG_MAX : Z := 2 ^ 63 - 1.

(** [time_point_cast<milliseconds>]. *)
Definition millis (tp : Z) : Z := Z.quot tp 1000000.

Record CoTimerMgr : Type := mkMgr {
  system_deadlines_ : list (Z * nat);
  steady_deadlines_ : list (Z * nat);
  system_next_trigger_time_ : Z;
  steady_next_trigger_time_ : Z;
  timers_ : list CoTimer }.

Definition CoTimerMgr_new : CoTimerMgr := mkMgr [] [] LLONG_MAX LLONG_MAX [].

Definition both_empty (m : CoTimerMgr) : bool :=
  match system_deadlines_ m, steady_deadlines_ m with [], [] => true | _, _ => false end.

Definition ExpireAt_system (tp : Z) (m : CoTimerMgr) : nat * CoTimerMgr :=
  let id := length (timers_ m) in
  (id, mkMgr (multi_insert tp id (system_deadlines_ m)) (steady_deadlines_ m)
         (if both_empty m then millis tp else system_next_trigger_time_ m)
         (steady_next_trigger_time_ m) (timers_ m ++ [CoTimer_new tk_system])).

Definition ExpireAt_steady (tp : Z) (m : CoTimerMgr) : nat * CoTimerMgr :=
  let id := length (timers_ m) in
  (id, mkMgr (system_deadlines_ m) (multi_insert tp id (steady_deadlines_ m))
         (system_next_trigger_time_ m)
         (if both_empty m then millis tp else steady_next_trigger_time_ m)
         (timers_ m ++ [CoTimer_new tk_steady])).

(** [ExpireAt] of a duration counts from the steady clock. *)
Definition ExpireAt_duration (steady_now d : Z) (m : CoTimerMgr) : nat * CoTimerMgr :=
  ExpireAt_steady (steady_now + d) m.

(** Erasing the entry an iterator points to. *)
Definition erase_entry (id : nat) (l : list (Z * nat)) : list (Z * nat) := filter (fun e => snd e <> id) l.

Definition set_token (k : token) (t : CoTimer) : CoTimer := mkTimer (active_ t) k.

(** [__Cancel]. *)
Definition cancel_entry (id : nat) (m : CoTimerMgr) : CoTimerMgr :=
  match timers_ m !! id with
  | None => m
  | Some t =>
      let ts := <[id := set_token tk_none t]> (timers_ m) in
      match token_state_ t with
      | tk_system => mkMgr (erase_entry id (system_deadlines_ m)) (steady_deadlines_ m)
                       (system_next_trigger_time_ m) (steady_next_trigger_time_ m) ts
      | tk_steady => mkMgr (system_deadlines_ m) (erase_entry id (steady_deadlines_ m))
                       (system_next_trigger_time_ m) (steady_next_trigger_time_ m) ts
      | tk_none => m
      end
  end.

Definition set_timer (id : nat) (t : CoTimer) (m : CoTimerMgr) : CoTimerMgr :=
  mkMgr (system_deadlines_ m) (steady_deadlines_ m) (system_next_trigger_time_ m) (steady_next_trigger_time_ m)
    (<[id := t]> (timers_ m)).

Definition Cancel (busy : bool) (id : nat) (m : CoTimerMgr) : bool * CoTimerMgr :=
  match timers_ m !! id with
  | None => (false, m)
  | Some t => let '(ok, t') := CoTimer_Cancel busy t in
              if ok then (true, cancel_entry id (set_timer id t' m)) else (false, m)
  end.
Definition BlockCancel (id : nat) (m : CoTimerMgr) : bool * CoTimerMgr :=
  match timers_ m !! id with
  | None => (false, m)
  | Some t => let '(ok, t') := CoTimer_BlockCancel t in
              if ok then (true, cancel_entry id (set_timer id t' m)) else (false, m)
  end.

(** One of the two loops of [GetExpired]: the entries taken, those left, and
    what remains of [n]. *)
Fixpoint take_expired (now : Z) (n : nat) (l : list (Z * nat)) : list (Z * nat) * list (Z * nat) * nat :=
  match l, n with
  | [], _ => ([], [], n)
  | _, O => ([], l, O)
  | (d, id) :: l', S n' =>
      if now <? d then ([], l, n)
      else let '(taken, rest, n'') := take_expired now n' l' in ((d, id) :: taken, rest, n'')
  end.
Definition next_trigger (rest : list (Z * nat)) : Z :=
  match rest with [] => LLONG_MAX | (d, _) :: _ => millis d end.

Definition clear_tokens (ids : list nat) (ts : list CoTimer) : list CoTimer :=
  foldr (fun id l => alter (set_token tk_none) id l) ts ids.

Definition GetNextTriggerTime (sys_now sdy_now : Z) (m : CoTimerMgr) : Z :=
  Z.min (Z.max (system_next_trigger_time_ m - millis sys_now) 0)
        (Z.max (steady_next_trigger_time_ m - millis sdy_now) 0).

(** The readings of the two clocks in [GetExpired] and then in
    [GetNextTriggerTime]. *)
Record clocks : Type := mkClocks { c_sys : Z; c_sdy : Z; c_sys2 : Z; c_sdy2 : Z }.

(** [GetExpired]; without the lock it only reads the next trigger time. *)
Definition GetExpired (locked : bool) (n : nat) (c : clocks) (m : CoTimerMgr) : list nat * Z * CoTimerMgr :=
  if locked then ([], GetNextTriggerTime (c_sys2 c) (c_sdy2 c) m, m)
  else
    let '(ts, rest, n1) := take_expired (c_sys c) n (system_deadlines_ m) in
    let '(ts', rest', _) := take_expired (c_sdy c) n1 (steady_deadlines_ m) in
    let ids := map snd ts ++ map snd ts' in
    let m' := mkMgr rest rest' (next_trigger rest) (next_trigger rest') (clear_tokens ids (timers_ m)) in
    (ids, GetNextTriggerTime (c_sys2 c) (c_sdy2 c) m', m').

Definition Size (m : CoTimerMgr) : Z := sz (system_deadlines_ m) + sz (steady_deadlines_ m).

(** ** The invariant: both maps in order, every entry once, and a timer's token
    state naming the map its entry is in *)
Definition has (id : nat) (l : list (Z * nat)) : Prop := id ∈ map snd l.
Record mgr_ok (m : CoTimerMgr) : Prop := {
  m_sys : multi_sorted (system_deadlines_ m);
  m_sdy : multi_sorted (steady_deadlines_ m);
  m_nodup : NoDup (map snd (system_deadlines_ m) ++ map snd (steady_deadlines_ m));
  m_token : forall id, has id (system_deadlines_ m) <-> exists t, timers_ m !! id = Some t /\ token_state_ t = tk_system;
  m_token' : forall id, has id (steady_deadlines_ m) <-> exists t, timers_ m !! id = Some t /\ token_state_ t = tk_steady }.

(** ** Lemmas *)

Lemma take_expired_spec now n l taken rest n' :
  take_expired now n l = (taken, rest, n') ->
  l = taken ++ rest /\ n = (length taken + n')%nat /\ Forall (fun e => fst e <= now) taken /\
  ((0 < n')%nat -> match rest with [] => True | (d, _) :: _ => now < d end).
Proof.
  revert n taken rest n'. induction l as [|[d id] l IH]; intros n taken rest n' H.
  - destruct n; simpl in H; simplify_eq; by repeat split.
  - destruct n as [|n]; simpl in H; [simplify_eq; repeat split; auto; lia|].
    destruct (now <? d) eqn:E; zbool; [simplify_eq; by repeat split|].
    destruct (take_expired now n l) as [[ta re] n1] eqn:Et. simplify_eq.
    destruct (IH _ _ _ _ Et) as (-> & -> & Hf & Hr). repeat split; auto.
Qed.

Lemma multi_sorted_app {V} (a b : list (Z * V)) : multi_sorted (a ++ b) -> multi_sorted b.
Proof. induction a as [|[k v] a IH]; simpl; [done|]. intros [_ H]. by apply IH. Qed.

Lemma multi_sorted_first (d : Z) (id : nat) l x : multi_sorted ((d, id) :: l) -> x ∈ (d, id) :: l -> d <= fst x.
Proof.
  simpl. intros [H _] [->|Hx]%elem_of_cons; [simpl; lia|]. rewrite Forall_forall in H. specialize (H x Hx). simpl in H. zbool. lia.
Qed.

Lemma lookup_clear_tokens ids ts id :
  clear_tokens ids ts !! id = if decide (id ∈ ids) then set_token tk_none <$> ts !! id else ts !! id.
Proof.
  induction ids as [|i ids IH]; [by rewrite decide_False by set_solver|]. simpl.
  destruct (decide (i = id)) as [->|Hne].
  - rewrite list_lookup_alter_eq, IH. rewrite (decide_True (P := id ∈ id :: ids)) by set_solver.
    case_decide; [|done]. by destruct (ts !! id) as [[]|].
  - rewrite list_lookup_alter_ne, IH by done. repeat case_decide; set_solver.
Qed.

Lemma has_insert id tp i l : has id (multi_insert tp i l) <-> id = i \/ has id l.
Proof.
  unfold has. rewrite (multi_insert_perm (V := nat) tp i l). simpl. by rewrite elem_of_cons.
Qed.

Lemma has_app id a b : has id (a ++ b) <-> has id a \/ has id b.
Proof. unfold has. by rewrite map_app, elem_of_app. Qed.

Lemma erase_entry_sorted id l : multi_sorted l -> multi_sorted (erase_entry id l).
Proof.
  induction l as [|[k v] l IH]; [done|]. simpl. intros [Hf Hs]. unfold erase_entry. rewrite filter_cons.
  case_decide; [|by apply IH]. split; [|by apply IH].
  apply Forall_forall. intros x [_ Hx]%list_elem_of_filter. rewrite Forall_forall in Hf. by apply Hf.
Qed.

Lemma has_erase id i l : has id (erase_entry i l) <-> has id l /\ id <> i.
Proof.
  unfold has, erase_entry. rewrite !list_elem_of_fmap. setoid_rewrite list_elem_of_filter. naive_solver.
Qed.

Lemma erase_entry_sublist id l : map snd (erase_entry id l) `sublist_of` map snd l.
Proof. apply fmap_sublist, sublist_filter. Qed.

(** ** Every operation keeps the invariant *)

Lemma fresh_not_has m : mgr_ok m ->
  ~ has (length (timers_ m)) (system_deadlines_ m) /\ ~ has (length (timers_ m)) (steady_deadlines_ m).
Proof.
  intros H. split; intros Hh; [apply (m_token _ H) in Hh|apply (m_token' _ H) in Hh]; destruct Hh as (t & Ht & _);
    apply lookup_lt_Some in Ht; lia.
Qed.

Lemma snoc_token (ts : list CoTimer) k id k' :
  (exists t, (ts ++ [CoTimer_new k]) !! id = Some t /\ token_state_ t = k') <->
  (exists t, ts !! id = Some t /\ token_state_ t = k') \/ (id = length ts /\ k' = k).
Proof.
  split.
  - intros (t & Ht & Hk). apply lookup_app_Some in Ht as [Ht|[Hl Ht]]; [left; eauto|right].
    apply list_lookup_singleton_Some in Ht as [Hi <-]. split; [lia|by symmetry].
  - intros [(t & Ht & Hk)|[-> ->]]; [exists t; split; [by apply lookup_app_l_Some|done]|].
    exists (CoTimer_new k). by rewrite lookup_app_r, Nat.sub_diag by lia.
Qed.

Lemma expire_ok m tp : mgr_ok m -> mgr_ok (snd (ExpireAt_system tp m)) /\ mgr_ok (snd (ExpireAt_steady tp m)).
Proof.
  intros H. destruct (fresh_not_has _ H) as [F1 F2]. pose proof (m_nodup _ H) as Hn. split; split; simpl.
  all: try (apply multi_insert_sorted); try apply H.
  all: try (intros id; rewrite ?has_insert, snoc_token; first [rewrite <- (m_token _ H)|rewrite <- (m_token' _ H)]; naive_solver).
  - rewrite (multi_insert_perm (V := nat)). simpl. apply NoDup_cons. split; [|done]. unfold has in *. set_solver.
  - rewrite (multi_insert_perm (V := nat)). simpl. rewrite <- Permutation_middle. apply NoDup_cons. split; [|done]. unfold has in *. set_solver.
Qed.

Lemma insert_token (ts : list CoTimer) i t0 t' id k :
  ts !! i = Some t0 -> id <> i ->
  (exists t, <[i := t']> ts !! id = Some t /\ token_state_ t = k) <-> (exists t, ts !! id = Some t /\ token_state_ t = k).
Proof. intros Hi Hne. by rewrite list_lookup_insert_ne by done. Qed.

Lemma set_timer_ok m id t t' :
  mgr_ok m -> timers_ m !! id = Some t -> token_state_ t' = token_state_ t -> mgr_ok (set_timer id t' m).
Proof.
  intros [] Ht Hk. assert (Hl : (id < length (timers_ m))%nat) by (by eapply lookup_lt_Some).
  split; simpl; auto; intros i; [rewrite m_token0|rewrite m_token'0].
  all: destruct (decide (i = id)) as [->|Hne]; [|by rewrite insert_token].
  all: rewrite list_lookup_insert_eq by done; naive_solver congruence.
Qed.

Lemma cancel_entry_ok m id : mgr_ok m -> mgr_ok (cancel_entry id m).
Proof.
  intros H. unfold cancel_entry. destruct (timers_ m !! id) as [t|] eqn:Ht; [|done].
  assert (Hl : (id < length (timers_ m))%nat) by (by eapply lookup_lt_Some).
  pose proof (m_token _ H) as T1. pose proof (m_token' _ H) as T2.
  assert (Hgone : forall k, (exists t', <[id := set_token tk_none t]> (timers_ m) !! id = Some t' /\ token_state_ t' = k) <-> k = tk_none).
  { intros k. rewrite list_lookup_insert_eq by done. split; [intros (t' & [= <-] & <-); done|intros ->; eauto]. }
  destruct (token_state_ t) eqn:Hk; [done| |]; split; simpl; try apply erase_entry_sorted; try apply H.
  all: try (eapply sublist_NoDup; [apply (m_nodup _ H)|apply sublist_app; [apply erase_entry_sublist || done|apply erase_entry_sublist || done]]).
  all: intros i; rewrite ?has_erase; destruct (decide (i = id)) as [->|Hne]; [rewrite Hgone|rewrite insert_token by done].
  all: first [rewrite T1|rewrite T2]; naive_solver congruence.
Qed.

Lemma cancel_ok busy id m : mgr_ok m -> mgr_ok (snd (Cancel busy id m)) /\ mgr_ok (snd (BlockCancel id m)).
Proof.
  intros H. unfold Cancel, BlockCancel, CoTimer_Cancel, CoTimer_BlockCancel.
  destruct (timers_ m !! id) as [t|] eqn:Ht; [|done].
  split; repeat case_match; simplify_eq; try done; apply cancel_entry_ok; by eapply set_timer_ok.
Qed.

(** What [GetExpired] takes from one map. *)
Definition taken_of (now : Z) (l taken rest : list (Z * nat)) : Prop :=
  l = taken ++ rest /\ Forall (fun e => fst e <= now) taken.

Lemma get_expired_inv n c m ids ms m' :
  GetExpired false n c m = (ids, ms, m') ->
  exists ts ts', taken_of (c_sys c) (system_deadlines_ m) ts (system_deadlines_ m') /\
    taken_of (c_sdy c) (steady_deadlines_ m) ts' (steady_deadlines_ m') /\
    ids = map snd ts ++ map snd ts' /\ (length ids <= n)%nat /\
    timers_ m' = clear_tokens ids (timers_ m) /\
    system_next_trigger_time_ m' = next_trigger (system_deadlines_ m') /\
    steady_next_trigger_time_ m' = next_trigger (steady_deadlines_ m') /\
    ms = GetNextTriggerTime (c_sys2 c) (c_sdy2 c) m' /\
    ((length ids < n)%nat ->
       match system_deadlines_ m' with [] => True | (d, _) :: _ => c_sys c < d end /\
       match steady_deadlines_ m' with [] => True | (d, _) :: _ => c_sdy c < d end).
Proof.
  unfold GetExpired. intros H.
  destruct (take_expired (c_sys c) n (system_deadlines_ m)) as [[ts rest] n1] eqn:E1.
  destruct (take_expired (c_sdy c) n1 (steady_deadlines_ m)) as [[ts' rest'] n2] eqn:E2.
  simplify_eq. apply take_expired_spec in E1 as (H1 & H2 & H3 & H4). apply take_expired_spec in E2 as (H5 & H6 & H7 & H8).
  exists ts, ts'. simpl. rewrite length_app, !length_map.
  split_and!; try done; [lia|]. intros Hlt. split; [apply H4|apply H8]; lia.
Qed.

Lemma taken_nodup (a b a' b' : list nat) : NoDup ((a ++ b) ++ a' ++ b') ->
  NoDup (b ++ b') /\ (forall x, x ∈ a ++ a' -> x ∉ b /\ x ∉ b').
Proof.
  intros H. split.
  - eapply sublist_NoDup; [done|]. apply sublist_app; [by apply sublist_inserts_l|by apply sublist_inserts_l].
  - intros x Hx. apply NoDup_app in H as (H1 & H2 & H3). apply NoDup_app in H1 as (_ & H1 & _). apply NoDup_app in H3 as (_ & H3 & _).
    set_solver.
Qed.

Lemma clear_token_iff ids ts id k : k <> tk_none ->
  (exists t, clear_tokens ids ts !! id = Some t /\ token_state_ t = k) <->
  (exists t, ts !! id = Some t /\ token_state_ t = k) /\ id ∉ ids.
Proof.
  intros Hk. rewrite lookup_clear_tokens. case_decide; [|naive_solver].
  split; [|naive_solver]. intros (t & Ht & Hs). destruct (ts !! id); by simplify_eq/=.
Qed.

Lemma get_expired_ok n c m : mgr_ok m -> mgr_ok (snd (GetExpired false n c m)).
Proof.
  intros H. destruct (GetExpired false n c m) as [[ids ms] m'] eqn:E. simpl.
  destruct (get_expired_inv _ _ _ _ _ _ E) as (ts & ts' & [H1 _] & [H2 _] & Hids & _ & Ht & _ & _ & _).
  pose proof (m_nodup _ H) as Hn. rewrite H1, H2, !map_app in Hn. apply taken_nodup in Hn as [Hn Hd].
  rewrite <- Hids in Hd. pose proof (m_sys _ H) as S1. rewrite H1 in S1. pose proof (m_sdy _ H) as S2. rewrite H2 in S2.
  pose proof (m_token _ H) as T1. rewrite H1 in T1. pose proof (m_token' _ H) as T2. rewrite H2 in T2.
  split; [by eapply multi_sorted_app|by eapply multi_sorted_app|done| |]; intros id; rewrite Ht, clear_token_iff by done.
  - rewrite <- T1, has_app. unfold has in *. split; [|set_solver]. intros Hi. split; [by right|]. intros Hin. by apply Hd in Hin as [? _].
  - rewrite <- T2, has_app. unfold has in *. split; [|set_solver]. intros Hi. split; [by right|]. intros Hin. by apply Hd in Hin as [_ ?].
Qed.

(** The managers a program can reach. *)
Inductive mgr_step : CoTimerMgr -> CoTimerMgr -> Prop :=
| ms_system tp m : mgr_step m (snd (ExpireAt_system tp m))
| ms_steady tp m : mgr_step m (snd (ExpireAt_steady tp m))
| ms_cancel busy id m : mgr_step m (snd (Cancel busy id m))
| ms_block_cancel id m : mgr_step m (snd (BlockCancel id m))
| ms_expired n c m : mgr_step m (snd (GetExpired false n c m))
| ms_call busy id m t t' ran : timers_ m !! id = Some t -> CoTimer_call busy t = (ran, t') -> mgr_step m (set_timer id t' m).

Lemma mgr_step_ok m m' : mgr_step m m' -> mgr_ok m -> mgr_ok m'.
Proof.
  intros Hs H. destruct Hs as [| | | | |busy id m t t' ran Ht Hc];
    try (by apply expire_ok); try (by apply (cancel_ok false)); try (by apply cancel_ok); try (by apply get_expired_ok).
  eapply set_timer_ok; [done..|]. unfold CoTimer_call in Hc. repeat case_match; by simplify_eq.
Qed.

Lemma mgr_new_ok : mgr_ok CoTimerMgr_new.
Proof. split; simpl; try done; [apply NoDup_nil_2| |]; intros id; unfold has; simpl; rewrite elem_of_nil; naive_solver. Qed.

Lemma mgr_reachable m : star mgr_step CoTimerMgr_new m -> mgr_ok m.
Proof. intros Hs. eapply star_invariant; [|done|apply mgr_new_ok]. intros; by eapply mgr_step_ok. Qed.


(** Waiting the time [GetExpired] returns passes the earliest deadline left by
    less than a millisecond. *)
Lemma wait_not_late l d id now next ms :
  multi_sorted l -> (d, id) ∈ l -> Forall (fun e => 0 <= fst e) l -> 0 <= now ->
  next = next_trigger l -> ms <= Z.max (next - millis now) 0 ->
  now + ms * 1000000 < Z.max d now + 1000000.
Proof.
  intros Hs Hin Hpos Hnow -> Hms. destruct l as [|[d0 i0] l]; [set_solver|].
  pose proof (multi_sorted_first _ _ _ _ Hs Hin) as Hle. apply Forall_cons in Hpos as [Hd0 _]. simpl in *.
  unfold millis in *. rewrite !Z.quot_div_nonneg in Hms by lia.
  pose proof (Z.mul_div_le d0 1000000 ltac:(lia)). pose proof (Z.mul_succ_div_gt now 1000000 ltac:(lia)). lia.
Qed.

Definition deadlines_pos (m : CoTimerMgr) : Prop :=
  Forall (fun e => 0 <= fst e) (system_deadlines_ m) /\ Forall (fun e => 0 <= fst e) (steady_deadlines_ m).

Lemma left_future (d now : Z) (id : nat) l : multi_sorted l ->
  match l with [] => True | (d, _) :: _ => now < d end -> (d, id) ∈ l -> now < d.
Proof.
  destruct l as [|[d0 i0] l]; [set_solver|]. intros Hs Hd Hin. pose proof (multi_sorted_first _ _ _ _ Hs Hin) as Hle.
  simpl in *. lia.
Qed.

(** [GetExpired] delivers the due timers.  For every manager a program can
    build, it takes at most [n] entries from the front of each map, all of them
    due; the entries left keep their order and, when fewer than [n] were taken,
    are all in the future; a timer is delivered once; and sleeping the returned
    milliseconds passes no remaining deadline by a millisecond or more. *)
Theorem timers_expire m n c ids ms m' :
  star mgr_step CoTimerMgr_new m -> deadlines_pos m -> 0 <= c_sys2 c -> 0 <= c_sdy2 c ->
  GetExpired false n c m = (ids, ms, m') ->
  (exists ts ts', taken_of (c_sys c) (system_deadlines_ m) ts (system_deadlines_ m') /\
     taken_of (c_sdy c) (steady_deadlines_ m) ts' (steady_deadlines_ m') /\ ids = map snd ts ++ map snd ts') /\
  (length ids <= n)%nat /\ NoDup ids /\ mgr_ok m' /\
  (forall id, id ∈ ids -> ~ has id (system_deadlines_ m') /\ ~ has id (steady_deadlines_ m')) /\
  ((length ids < n)%nat -> forall d id,
     ((d, id) ∈ system_deadlines_ m' -> c_sys c < d) /\ ((d, id) ∈ steady_deadlines_ m' -> c_sdy c < d)) /\
  (forall d id,
     ((d, id) ∈ system_deadlines_ m' -> c_sys2 c + ms * 1000000 < Z.max d (c_sys2 c) + 1000000) /\
     ((d, id) ∈ steady_deadlines_ m' -> c_sdy2 c + ms * 1000000 < Z.max d (c_sdy2 c) + 1000000)).
Proof.
  intros Hs [P1 P2] Hc1 Hc2 E. pose proof (mgr_reachable _ Hs) as H. pose proof (get_expired_ok n c m H) as H'. rewrite E in H'. simpl in H'.
  destruct (get_expired_inv _ _ _ _ _ _ E) as (ts & ts' & T1 & T2 & Hids & Hn & _ & N1 & N2 & Hms & Hf).
  pose proof (m_nodup _ H) as Hnd. destruct T1 as [H1 F1], T2 as [H2 F2]. rewrite H1, H2, !map_app in Hnd.
  rewrite H1 in P1. rewrite H2 in P2. apply Forall_app in P1 as [_ P1], P2 as [_ P2].
  split_and!; [exists ts, ts'; split_and!; done|done| |done| | |].
  - rewrite Hids. eapply sublist_NoDup; [exact Hnd|]. apply sublist_app; by apply sublist_inserts_r.
  - intros id Hid. rewrite Hids in Hid. apply taken_nodup in Hnd as [_ Hd]. unfold has. by apply Hd.
  - intros Hlt d id. destruct (Hf Hlt) as [L1 L2]. split; apply left_future; try done; apply H'.
  - intros d id. unfold GetNextTriggerTime in Hms. rewrite N1, N2 in Hms.
    split; intros Hin; (eapply wait_not_late; [|exact Hin|done|done|reflexivity|lia]); apply H'.
Qed.

(** ** A timer runs at most once, and a cancelled timer never *)

Inductive timer_op : Type := OpCall (busy : bool) | OpCancel (busy : bool) | OpBlockCancel.
Definition do_op (op : timer_op) (t : CoTimer) : bool * CoTimer :=
  match op with
  | OpCall busy => CoTimer_call busy t
  | OpCancel busy => CoTimer_Cancel busy t
  | OpBlockCancel => CoTimer_BlockCancel t
  end.
Fixpoint do_ops (ops : list timer_op) (t : CoTimer) : list bool * CoTimer :=
  match ops with
  | [] => ([], t)
  | op :: ops' => let '(ok, t') := do_op op t in let '(oks, t'') := do_ops ops' t' in (ok :: oks, t'')
  end.

Lemma dead_ops ops t : active_ t = false -> fst (do_ops ops t) = replicate (length ops) false.
Proof.
  revert t. induction ops as [|op ops IH]; intros t Ht; [done|]. simpl.
  assert (Hop : do_op op t = (false, t)) by (destruct op as [[]|[]|]; simpl; unfold CoTimer_call, CoTimer_Cancel, CoTimer_BlockCancel; by rewrite ?Ht).
  rewrite Hop. specialize (IH t Ht). destruct (do_ops ops t). simpl in *. by rewrite IH.
Qed.

(** Of all calls and cancellations of a timer, in any order and with any
    contention for its lock, at most one succeeds: the callback runs at most
    once, it never runs after a cancellation that returned true, and a
    cancellation after the run returns false. *)
Theorem timer_once ops k i :
  fst (do_ops ops (CoTimer_new k)) !! i = Some true ->
  forall j, j <> i -> fst (do_ops ops (CoTimer_new k)) !! j <> Some true.
Proof.
  assert (H : forall ops t i j, active_ t = true -> fst (do_ops ops t) !! i = Some true -> j <> i -> fst (do_ops ops t) !! j <> Some true).
  { clear. induction ops as [|op ops IH]; intros t i j Ha Hi Hj; [done|]. simpl in *.
    destruct (do_op op t) as [ok t'] eqn:E. destruct (do_ops ops t') as [oks t''] eqn:E'. simpl in *.
    assert (Hrest : fst (do_ops ops t') = oks) by (by rewrite E').
    destruct ok.
    - assert (Hd : active_ t' = false).
      { destruct op as [[]|[]|]; simpl in E; unfold CoTimer_call, CoTimer_Cancel, CoTimer_BlockCancel in E;
          rewrite ?Ha in E; by simplify_eq. }
      pose proof (dead_ops ops t' Hd) as Hr. rewrite Hrest in Hr. clear Hrest E'. subst oks.
      destruct i as [|i]; [destruct j as [|j]; [done|]|].
      + simpl. intros Hl. by apply lookup_replicate in Hl as [? _].
      + simpl in Hi. by apply lookup_replicate in Hi as [? _].
    - assert (Ht : active_ t' = true).
      { destruct op as [[]|[]|]; simpl in E; unfold CoTimer_call, CoTimer_Cancel, CoTimer_BlockCancel in E;
          rewrite ?Ha in E; by simplify_eq. }
      destruct i as [|i]; [done|]. destruct j as [|j]; [done|]. simpl in *. rewrite <- Hrest in *. eapply IH; [done|done|lia]. }
  intros Hi j Hj. by eapply H.
Qed.

(** ** Examples *)

Definition demo_mgr : CoTimerMgr := snd (ExpireAt_steady 9000000 (snd (ExpireAt_system 3000000 CoTimerMgr_new))).
Definition demo_now : clocks := mkClocks 4000000 4000000 4000000 4000000.
Lemma timers_expire_witness :
  let '(ids, ms, m') := GetExpired false 128 demo_now demo_mgr in
  ids = [0%nat] /\ ms = 5 /\ NoDup ids /\ mgr_ok m'.
Proof.
  destruct (timers_expire demo_mgr 128 demo_now [0%nat] 5 (mkMgr [] [(9000000, 1%nat)] LLONG_MAX 9
    [mkTimer true tk_none; mkTimer true tk_steady])) as (_ & _ & Hn & Hok & _).
  - eapply star_step; [apply ms_system|]. eapply star_step; [apply ms_steady|constructor].
  - split; repeat constructor; simpl; lia.
  - simpl. lia.
  - simpl. lia.
  - reflexivity.
  - split_and!; [reflexivity|reflexivity|exact Hn|exact Hok].
Defined.

Lemma timer_once_witness :
  fst (do_ops [OpCall true; OpCancel false; OpCall false] (CoTimer_new tk_steady)) !! 2%nat <> Some true.
Proof. apply (timer_once _ _ 1%nat); [reflexivity|lia]. Defined.
