(* ===== verification/SleepWait.v ===== *)
(** * Sleeping coroutines

    [libgo/sleep_wait.cpp]: a coroutine that sleeps is put in [wait_tasks_] and
    a timer is set whose callback makes it runnable again.  A timer's closure is
    the task it wakes; [woken] lists the tasks given to [AddTaskRunnable]. *)
From S2P Require Import Prelude StdString StdMap Timer.

Record SleepWait : Type := mkSleep {
  wait_tasks_ : list nat; timer_mgr_ : CoTimerMgr; fns : list nat; woken : list nat }.
Definition SleepWait_new : SleepWait := mkSleep [] CoTimerMgr_new [] [].

(** [SchedulerSwitch], once the task has yielded in [CoSwitch]. *)
Definition SchedulerSwitch (tk : nat) (sleep_ms steady_now : Z) (s : SleepWait) : SleepWait :=
  mkSleep (wait_tasks_ s ++ [tk]) (snd (ExpireAt_duration steady_now (sleep_ms * 1000000) (timer_mgr_ s)))
    (fns s ++ [tk]) (woken s).

(** [Wakeup] asserts that the task was asleep. *)
Definition Wakeup (tk : nat) (s : SleepWait) : outcome SleepWait :=
  match queue_erase tk (wait_tasks_ s) with
  | None => Undef
  | Some q => Ret (mkSleep q (timer_mgr_ s) (fns s) (woken s ++ [tk]))
  end.

(** Running one expired timer. *)
Definition run_timer (id : nat) (s : SleepWait) : outcome SleepWait :=
  match timers_ (timer_mgr_ s) !! id, fns s !! id with
  | Some t, Some tk =>
      let '(ran, t') := CoTimer_call false t in
      let s1 := mkSleep (wait_tasks_ s) (set_timer id t' (timer_mgr_ s)) (fns s) (woken s) in
      if ran then Wakeup tk s1 else Ret s1
  | _, _ => Undef
  end.
Fixpoint run_timers (ids : list nat) (s : SleepWait) : outcome SleepWait :=
  match ids with
  | [] => Ret s
  | id :: ids' => s' ← run_timer id s; run_timers ids' s'
  end.

(** [WaitLoop]: rounds of at most 128 timers until none is due; each round
    reads the clocks, or finds the manager's lock taken by another thread, which ends the loop.  The
    result is the count of timers run and the time to
    the next one. *)
Fixpoint WaitLoop (cs : list (bool * clocks)) (c : Z) (s : SleepWait) : outcome (Z * Z * SleepWait) :=
  match cs with
  | [] => Fuel
  | (locked, k) :: cs' =>
      let '(ids, next_ms, m) := GetExpired locked 128 k (timer_mgr_ s) in
      let s1 := mkSleep (wait_tasks_ s) m (fns s) (woken s) in
      match ids with
      | [] => Ret (c, next_ms, s1)
      | _ :: _ => s2 ← run_timers ids s1; WaitLoop cs' (u32 (c + sz ids)) s2
      end
  end.

(** ** The invariant: the tasks asleep are those of the pending timers *)

Definition task_of (f : list nat) (id : nat) : nat := default O (f !! id).
Definition live_id (s : SleepWait) (id : nat) : Prop :=
  exists t tk, timers_ (timer_mgr_ s) !! id = Some t /\ active_ t = true /\ fns s !! id = Some tk.
Definition pending_ids (s : SleepWait) : list nat := map snd (steady_deadlines_ (timer_mgr_ s)).

(** [ids] are the timers taken from the manager and not run yet. *)
Record sleep_ok (ids : list nat) (s : SleepWait) : Prop := {
  so_mgr : mgr_ok (timer_mgr_ s);
  so_sys : system_deadlines_ (timer_mgr_ s) = [];
  so_len : length (fns s) = length (timers_ (timer_mgr_ s));
  so_ids : NoDup (ids ++ pending_ids s);
  so_live : forall id, id ∈ ids ++ pending_ids s -> live_id s id;
  so_nodup : NoDup (wait_tasks_ s);
  so_tasks : wait_tasks_ s ≡ₚ map (task_of (fns s)) (ids ++ pending_ids s) }.

Lemma run_timer_ok id ids s :
  sleep_ok (id :: ids) s ->
  exists s', run_timer id s = Ret s' /\ sleep_ok ids s' /\ woken s' = woken s ++ [task_of (fns s) id] /\
    steady_deadlines_ (timer_mgr_ s') = steady_deadlines_ (timer_mgr_ s) /\ fns s' = fns s.
Proof.
  intros [Hm Hsys Hl Hi Hlive Hn Ht]. destruct (Hlive id ltac:(set_solver)) as (t & tk & Et & Ea & Ef).
  assert (Hof : task_of (fns s) id = tk) by (unfold task_of; by rewrite Ef).
  simpl in Ht, Hi. rewrite Hof in Ht. apply NoDup_cons in Hi as [Hni Hi].
  destruct (queue_erase_perm tk (wait_tasks_ s)) as (q & Eq & Hq); [rewrite Ht; set_solver|].
  unfold run_timer. rewrite Et, Ef. unfold CoTimer_call. rewrite Ea. unfold Wakeup. simpl. rewrite Eq.
  eexists. split; [done|]. simpl. rewrite Hof. split_and!; try done.
  rewrite Hq in Ht, Hn. apply NoDup_cons in Hn as [_ Hn]. apply (Permutation_cons_inv (a := tk)) in Ht.
  split; simpl; try done.
  - by eapply set_timer_ok.
  - by rewrite length_insert.
  - intros i Hin. destruct (Hlive i ltac:(set_solver)) as (t1 & tk1 & ? & ? & ?). exists t1, tk1. simpl.
    rewrite list_lookup_insert_ne; [done|]. intros ->. done.
Qed.

Lemma run_timers_ok ids s :
  sleep_ok ids s ->
  exists s', run_timers ids s = Ret s' /\ sleep_ok [] s' /\ woken s' = woken s ++ map (task_of (fns s)) ids /\
    steady_deadlines_ (timer_mgr_ s') = steady_deadlines_ (timer_mgr_ s) /\ fns s' = fns s.
Proof.
  revert s. induction ids as [|id ids IH]; intros s H; simpl.
  - exists s. by rewrite app_nil_r.
  - destruct (run_timer_ok _ _ _ H) as (s1 & -> & H1 & Hw & Hd & Hf). cbn [mbind outcome_bind].
    destruct (IH s1 H1) as (s2 & E2 & H2 & Hw2 & Hd2 & Hf2). exists s2.
    rewrite Hw2, Hw, Hf, Hd2, Hf2, Hf, <- app_assoc. done.
Qed.

Lemma clear_tokens_live ids ts id t :
  ts !! id = Some t -> exists t', clear_tokens ids ts !! id = Some t' /\ active_ t' = active_ t.
Proof. intros Ht. rewrite lookup_clear_tokens, Ht. case_decide; by eexists. Qed.

Lemma clear_tokens_length ids ts : length (clear_tokens ids ts) = length ts.
Proof. induction ids as [|i ids IH]; simpl; [done|]. by rewrite length_alter. Qed.

(** One round of the loop takes due entries off the front of the map. *)
Lemma get_expired_sleep n k s ids ms m :
  sleep_ok [] s -> GetExpired false n k (timer_mgr_ s) = (ids, ms, m) ->
  sleep_ok ids (mkSleep (wait_tasks_ s) m (fns s) (woken s)) /\
  (exists ts, ids = map snd ts /\ taken_of (c_sdy k) (steady_deadlines_ (timer_mgr_ s)) ts (steady_deadlines_ m)) /\
  ((length ids < n)%nat -> forall d id, (d, id) ∈ steady_deadlines_ m -> c_sdy k < d).
Proof.
  intros [Hm Hsys Hl Hi Hlive Hn Ht] E. pose proof (get_expired_ok n k _ Hm) as Hok. rewrite E in Hok. simpl in Hok.
  destruct (get_expired_inv _ _ _ _ _ _ E) as (ts & ts' & [H1 F1] & [H2 F2] & Hids & _ & Hts & _ & _ & _ & Hf).
  rewrite Hsys in H1. symmetry in H1. apply app_eq_nil in H1 as [-> H1]. simpl in Hids.
  unfold pending_ids in *. simpl in *. rewrite H2, map_app in Hi, Ht, Hlive. rewrite Hids. split_and!.
  - split; simpl; rewrite ?Hids; try done; [by rewrite Hts, clear_tokens_length|].
    intros id Hid. destruct (Hlive id Hid) as (t & tk & Et & Ea & Ef).
    destruct (clear_tokens_live ids _ _ _ Et) as (t' & Et' & Ea'). exists t', tk. simpl. rewrite Hts, Ea'. done.
  - exists ts'. by repeat split.
  - intros Hlt d id. rewrite <- Hids in Hlt. destruct (Hf Hlt) as [_ L]. apply left_future; [apply Hok|done].
Qed.

(** A round that finds the lock taken changes nothing. *)
Lemma get_expired_locked n k s : GetExpired true n k (timer_mgr_ s) = ([], GetNextTriggerTime (c_sys2 k) (c_sdy2 k) (timer_mgr_ s), timer_mgr_ s).
Proof. done. Qed.
Lemma sleep_id s : mkSleep (wait_tasks_ s) (timer_mgr_ s) (fns s) (woken s) = s.
Proof. by destruct s. Qed.

(** No round found the lock taken. *)
Definition lock_free (cs : list (bool * clocks)) : Prop := Forall (fun r => fst r = false) cs.
(** What a run of the loop woke, from the entries pending before and after. *)
Definition woke (free : Prop) (lo hi : Z) (s s' : SleepWait) : Prop :=
  exists taken, steady_deadlines_ (timer_mgr_ s) = taken ++ steady_deadlines_ (timer_mgr_ s') /\
    woken s' = woken s ++ map (fun e => task_of (fns s) (snd e)) taken /\
    Forall (fun e => fst e <= hi) taken /\
    (free -> forall d id, (d, id) ∈ steady_deadlines_ (timer_mgr_ s') -> lo < d).

Lemma wait_loop_spec lo hi cs c s :
  sleep_ok [] s -> (length (steady_deadlines_ (timer_mgr_ s)) < length cs)%nat ->
  Forall (fun r => lo <= c_sdy (snd r) <= hi) cs ->
  exists c' ms s', WaitLoop cs c s = Ret (c', ms, s') /\ sleep_ok [] s' /\ woke (lock_free cs) lo hi s s'.
Proof.
  revert c s. induction cs as [|[locked k] cs IH]; intros c s H Hl Hk; [simpl in Hl; lia|].
  apply Forall_cons in Hk as [Hk1 Hk]. cbn [WaitLoop]. destruct locked.
  { rewrite get_expired_locked, sleep_id. eexists _, _, s. split_and!; [done..|]. exists []. rewrite app_nil_r. split_and!; try done.
    by intros [? _]%Forall_cons. }
  destruct (GetExpired false 128 k (timer_mgr_ s)) as [[ids ms] m] eqn:E.
  destruct (get_expired_sleep _ _ _ _ _ _ H E) as (H1 & (ts & Hids & Ht & Hf) & Hleft).
  destruct ids as [|id ids].
  - exists c, ms, (mkSleep (wait_tasks_ s) m (fns s) (woken s)). split_and!; [done|done|].
    destruct ts; [|done]. exists []. simpl. rewrite app_nil_r. split_and!; try done.
    intros _ d i Hin. specialize (Hleft ltac:(simpl; lia) _ _ Hin). simpl in Hk1. lia.
  - destruct (run_timers_ok _ _ H1) as (s2 & E2 & H2 & Hw2 & Hd2 & Hf2). rewrite E2. cbn [mbind outcome_bind].
    rewrite Hids in Hw2. simpl in Hw2, Hd2, Hf2.
    destruct (IH (u32 (c + sz (id :: ids))) s2 H2) as (c' & ms' & s' & E' & H' & (ta & A1 & A2 & A3 & A4)); [|done|].
    { rewrite Hd2. rewrite Ht, length_app in Hl. apply (f_equal length) in Hids. rewrite length_map in Hids. simpl in *. lia. }
    exists c', ms', s'. split_and!; [done|done|]. exists (ts ++ ta). split_and!.
    + rewrite Ht, <- app_assoc. f_equal. by rewrite <- A1.
    + rewrite A2, Hw2, Hf2, map_app, map_map, <- app_assoc. done.
    + apply Forall_app. split; [|done]. eapply Forall_impl; [exact Hf|]. simpl in *. intros e He. lia.
    + intros [_ Hfree]%Forall_cons. by apply A4.
Qed.

Lemma switch_ok tk ms now s :
  sleep_ok [] s -> tk ∉ wait_tasks_ s -> sleep_ok [] (SchedulerSwitch tk ms now s).
Proof.
  intros [Hm Hsys Hl Hi Hlive Hn Ht] Htk. pose proof (expire_ok _ (now + ms * 1000000) Hm) as [_ Hok].
  destruct (fresh_not_has _ Hm) as [_ Hfresh]. unfold has in Hfresh.
  assert (Hold : forall id, id ∈ pending_ids s -> task_of (fns s ++ [tk]) id = task_of (fns s) id).
  { intros id Hid. destruct (Hlive id Hid) as (t & x & _ & _ & Ef). unfold task_of. by rewrite (lookup_app_l_Some _ _ _ _ Ef), Ef. }
  assert (Hp : map snd (multi_insert (now + ms * 1000000) (length (timers_ (timer_mgr_ s))) (steady_deadlines_ (timer_mgr_ s)))
      ≡ₚ length (timers_ (timer_mgr_ s)) :: pending_ids s) by (by rewrite (multi_insert_perm (V := nat))).
  split; simpl; try done.
  - rewrite !length_app. simpl. lia.
  - unfold pending_ids. simpl. rewrite Hp. by apply NoDup_cons.
  - unfold pending_ids. simpl. intros id. rewrite Hp, elem_of_cons. intros [->|Hid].
    + exists (CoTimer_new tk_steady), tk. simpl. rewrite <- Hl at 2. by rewrite !lookup_app_r, !Nat.sub_diag by lia.
    + destruct (Hlive id Hid) as (t & x & Et & Ea & Ef). exists t, x. simpl.
      by rewrite (lookup_app_l_Some _ _ _ _ Et), (lookup_app_l_Some _ _ _ _ Ef).
  - by apply nodup_snoc.
  - unfold pending_ids. simpl. rewrite Hp. simpl. rewrite Ht. simpl.
    assert (Hsame : map (task_of (fns s ++ [tk])) (pending_ids s) = map (task_of (fns s)) (pending_ids s)).
    { apply list_fmap_ext. intros i x Hx. apply Hold. by eapply list_elem_of_lookup_2. }
    assert (Hnew : task_of (fns s ++ [tk]) (length (timers_ (timer_mgr_ s))) = tk).
    { unfold task_of. by rewrite <- Hl, lookup_app_r, Nat.sub_diag by lia. }
    rewrite Hsame, Hnew. symmetry. apply Permutation_cons_append.
Qed.

Lemma sleep_new_ok : sleep_ok [] SleepWait_new.
Proof. split; simpl; try done; [apply mgr_new_ok|apply NoDup_nil_2|intros id Hid; set_solver|apply NoDup_nil_2]. Qed.

(** The states of sleeping coroutines: a task that is awake goes to sleep, or
    the loop runs. *)
Inductive sleep_step : SleepWait -> SleepWait -> Prop :=
| sl_switch tk ms now s : tk ∉ wait_tasks_ s -> sleep_step s (SchedulerSwitch tk ms now s)
| sl_loop cs c s r : WaitLoop cs c s = Ret r -> sleep_step s (snd r).

Lemma wait_loop_keeps cs c s r : sleep_ok [] s -> WaitLoop cs c s = Ret r -> sleep_ok [] (snd r).
Proof.
  revert c s. induction cs as [|[locked k] cs IH]; intros c s H Hr; [done|]. cbn [WaitLoop] in Hr.
  destruct locked; [rewrite get_expired_locked, sleep_id in Hr; by injection Hr as <-|].
  destruct (GetExpired false 128 k (timer_mgr_ s)) as [[ids ms] m] eqn:E.
  destruct (get_expired_sleep _ _ _ _ _ _ H E) as (H1 & _ & _). destruct ids as [|id ids]; [by simplify_eq|].
  destruct (run_timers_ok _ _ H1) as (s2 & E2 & H2 & _). rewrite E2 in Hr. cbn [mbind outcome_bind] in Hr. by eapply IH.
Qed.

(** Sleepers wake, and not early.  In every state reached by tasks going to
    sleep and by earlier runs of the loop, [WaitLoop] ends once the clock was
    read more often than timers are pending; it wakes, in the order of their
    deadlines, only tasks whose deadline has come, it leaves asleep only tasks
    whose deadline was not reached by the earliest reading (unless it found the
    manager's lock taken, which ends it early), and the assertion
    in [Wakeup] holds. *)
Theorem sleepers_wake lo hi cs c s :
  star sleep_step SleepWait_new s ->
  (length (steady_deadlines_ (timer_mgr_ s)) < length cs)%nat ->
  Forall (fun r => lo <= c_sdy (snd r) <= hi) cs ->
  exists c' ms s', WaitLoop cs c s = Ret (c', ms, s') /\ woke (lock_free cs) lo hi s s' /\
    wait_tasks_ s' ≡ₚ map (fun e => task_of (fns s') (snd e)) (steady_deadlines_ (timer_mgr_ s')).
Proof.
  intros Hs Hl Hk. assert (H : sleep_ok [] s).
  { eapply star_invariant; [|exact Hs|apply sleep_new_ok]. intros a b [] Ha; [by apply switch_ok|by eapply wait_loop_keeps]. }
  destruct (wait_loop_spec lo hi cs c s H Hl Hk) as (c' & ms & s' & E & H' & Hw).
  exists c', ms, s'. split_and!; [done|done|]. rewrite (so_tasks _ _ H'). unfold pending_ids. simpl. by rewrite map_map.
Qed.

(** Task 3 sleeps 5 ms and task 4 sleeps 50 ms; at 10 ms the first is due. *)
Definition demo_sleep : SleepWait := SchedulerSwitch 4 50 0 (SchedulerSwitch 3 5 0 SleepWait_new).
Definition demo_clocks : list (bool * clocks) := replicate 3 (false, mkClocks 0 10000000 0 10000000).
Lemma sleepers_wake_witness :
  exists c' ms s', WaitLoop demo_clocks 0 demo_sleep = Ret (c', ms, s') /\ woke (lock_free demo_clocks) 10000000 10000000 demo_sleep s'.
Proof.
  destruct (sleepers_wake 10000000 10000000 demo_clocks 0 demo_sleep) as (c' & ms & s' & H1 & H2 & _).
  - eapply star_step; [apply (sl_switch 3 5 0); apply not_elem_of_nil|].
    eapply star_step; [apply (sl_switch 4 50 0); simpl; by rewrite list_elem_of_singleton|apply star_refl].
  - vm_compute. lia.
  - repeat constructor; simpl; lia.
  - exists c', ms, s'. split; [exact H1|exact H2].
Defined.
Lemma demo_sleep_woken : exists c ms s, WaitLoop demo_clocks 0 demo_sleep = Ret (c, ms, s) /\ woken s = [3%nat] /\ ms = 40.
Proof. do 3 eexists. split; [vm_compute; reflexivity|]. split; reflexivity. Qed.
