(* ===== verification/Scheduler.v ===== *)
(** * Processers and the scheduler

    [libgo/processer.cpp], the dispatching and running parts of
    [scheduler.cpp] and [Task::Task_CB] of [task.cpp].  The run queue of a
    processer is the list that [TSQueue] implements.  What a coroutine does
    between being resumed and yielding is an input: the tasks it made runnable
    on the same processer and how it yielded. *)
From S2P Require Import Prelude.

(** ** Ending a coroutine *)

Inductive eCoExHandle : Type := immedaitely_throw | delay_rethrow | debugger_only.

(** [Task_CB]: the exception that leaves the coroutine's function is thrown
    through, kept for the processer, or only logged; the result is what is
    kept in [eptr_] of the task that is done. *)
Definition Task_CB (handle : eCoExHandle) (uncaught : option exn) : outcome (option exn) :=
  match uncaught, handle with
  | None, _ => Ret None
  | Some e, immedaitely_throw => Throw e
  | Some e, delay_rethrow => Ret (Some e)
  | Some _, debugger_only => Ret None
  end.

(** ** [Processer::Run] *)

Definition ec_swapcontext_failed : Z := 5.

(** [state_] when control returns to the processer; for [sys_block], whether
    [AddWaitTask] queued the task; for [done], the exception kept. *)
Inductive yield_kind : Type :=
| YRunnable | YIo | YSleep | YBlock (queued : bool) | YDone (eptr : option exn) | YFailed.

Record activation : Type := mkAct { added : list nat; how : yield_kind }.

(** The run queue, the tasks handed to the waiters, the tasks done, the order
    in which tasks were resumed. *)
Record proc_run : Type := mkRun {
  r_queue : list nat; r_away : list nat; r_done : list nat; r_ran : list nat }.

Definition start_run (q : list nat) : proc_run := mkRun q [] [] [].

(** The loop; [None] when the inputs end before it does. *)
Fixpoint Run_loop (acts : list activation) (c : Z) (r : proc_run) : option (proc_run * option exn) :=
  if sz (r_queue r) <=? c then Some (r, None)
  else
    match r_queue r with
    | [] => Some (r, None)
    | tk :: q =>
        match acts with
        | [] => None
        | a :: acts' =>
            let q1 := q ++ added a in
            let ran := r_ran r ++ [tk] in
            match how a with
            | YRunnable | YBlock false => Run_loop acts' (c + 1) (mkRun (q1 ++ [tk]) (r_away r) (r_done r) ran)
            | YIo | YSleep | YBlock true => Run_loop acts' (c + 1) (mkRun q1 (r_away r ++ [tk]) (r_done r) ran)
            | YDone None => Run_loop acts' (c + 1) (mkRun q1 (r_away r) (r_done r ++ [tk]) ran)
            | YDone (Some e) => Some (mkRun q1 (r_away r) (r_done r ++ [tk]) ran, Some e)
            | YFailed => Some (mkRun q1 (r_away r) (r_done r) ran, Some (ExnSystem ec_swapcontext_failed))
            end
        end
    end.
Definition Processer_Run (acts : list activation) (q : list nat) : option (proc_run * option exn) :=
  Run_loop acts 0 (start_run q).

(** [StealHalf]: the victim's queue and the thief's; the count, and the queues
    after. *)
Definition StealHalf (victim thief : list nat) : Z * list nat * list nat :=
  let k := ((length victim + 1) / 2)%nat in
  let keep := (length victim - k)%nat in
  (Z.of_nat k, take keep victim, thief ++ drop keep victim).

(** ** The scheduler *)

Record Scheduler : Type := mkSched {
  run_proc_list_ : list (list nat);
  dispatch_robin_index_ : Z;
  task_count_ : Z;
  proc_ : nat -> option nat;
  enable_work_steal : bool }.

Definition Scheduler_new (steal : bool) : Scheduler := mkSched [] 0 0 (fun _ => None) steal.

Definition set_procs (l : list (list nat)) (s : Scheduler) : Scheduler :=
  mkSched l (dispatch_robin_index_ s) (task_count_ s) (proc_ s) (enable_work_steal s).
Definition set_robin (n : Z) (s : Scheduler) : Scheduler :=
  mkSched (run_proc_list_ s) n (task_count_ s) (proc_ s) (enable_work_steal s).
Definition set_count (n : Z) (s : Scheduler) : Scheduler :=
  mkSched (run_proc_list_ s) (dispatch_robin_index_ s) n (proc_ s) (enable_work_steal s).

(** [GetProcesser]: new processers up to the index. *)
Definition GetProcesser (index : nat) (s : Scheduler) : Scheduler :=
  set_procs (run_proc_list_ s ++ replicate (S index - length (run_proc_list_ s)) []) s.

Definition proc_push (index tk : nat) (s : Scheduler) : Scheduler :=
  set_procs (alter (fun q => q ++ [tk]) index (run_proc_list_ s)) s.

Definition egod_default : Z := -4.
Definition egod_random : Z := -3.
Definition egod_robin : Z := -2.
Definition egod_local_thread : Z := -1.

(** [AddTaskRunnable]; [local] is the processer of the calling thread, [rnd]
    the value of [rand()]. *)
Definition AddTaskRunnable (tk : nat) (dispatch : Z) (local : option nat) (rnd : Z) (s : Scheduler) : Scheduler :=
  match proc_ s tk with
  | Some p => proc_push p tk s
  | None =>
      let dispatch :=
        if dispatch <=? egod_default then (if enable_work_steal s then egod_local_thread else egod_robin) else dispatch in
      let n := Z.max (sz (run_proc_list_ s)) 1 in
      let at_ i s := proc_push i tk (GetProcesser i s) in
      if dispatch =? egod_random then at_ (Z.to_nat (rnd mod n)) s
      else if dispatch =? egod_robin then
        at_ (Z.to_nat (dispatch_robin_index_ s mod n)) (set_robin (u32 (dispatch_robin_index_ s + 1)) s)
      else if dispatch =? egod_local_thread then
        match local with Some p => proc_push p tk s | None => at_ O s end
      else at_ (Z.to_nat dispatch) s
  end.

(** [CreateTask]. *)
Definition CreateTask (tk : nat) (dispatch : Z) (local : option nat) (rnd : Z) (s : Scheduler) : Scheduler :=
  AddTaskRunnable tk dispatch local rnd (set_count (u32 (task_count_ s + 1)) s).

(** The processer to steal from. *)
Definition choose_victim (thread_count rnd thread_id : Z) : Z :=
  let r := rnd mod thread_count in
  if r =? thread_id then (if 0 <? thread_id then thread_id - 1 else thread_id + 1) else r.

(** One [Run] of the calling thread's processer within [DoRunnable]; the task
    count is lowered also when an exception leaves it. *)
Definition run_proc (me : nat) (acts : list activation) (s : Scheduler) : option (Z * Z * option exn * Scheduler) :=
  q ← run_proc_list_ s !! me;
  '(r, e) ← Processer_Run acts q;
  let s1 := set_procs (<[me := r_queue r]> (run_proc_list_ s)) s in
  Some (sz (r_ran r), sz (r_done r), e, set_count (u32 (task_count_ s - sz (r_done r))) s1).

(** [DoRunnable]: run, and when there was nothing to run steal and run once
    more; the result is the exception thrown or the number of tasks run. *)
Definition DoRunnable (me : nat) (allow_steal : bool) (rnd : Z) (acts acts' : list activation) (s : Scheduler) :
    option ((Z + exn) * Scheduler) :=
  '(do_count, done_count, e, s1) ← run_proc me acts s;
  match e with
  | Some e => Some (inr e, s1)
  | None =>
      if (do_count =? 0) && (done_count =? 0) && allow_steal && (1 <? sz (run_proc_list_ s1)) then
        let v := Z.to_nat (choose_victim (sz (run_proc_list_ s1)) rnd (Z.of_nat me)) in
        vq ← run_proc_list_ s1 !! v;
        tq ← run_proc_list_ s1 !! me;
        let '(k, vq', tq') := StealHalf vq tq in
        let s2 := set_procs (<[me := tq']> (<[v := vq']> (run_proc_list_ s1))) s1 in
        if k =? 0 then Some (inl do_count, s2)
        else '(do2, _, e2, s3) ← run_proc me acts' s2;
             Some (match e2 with Some e => inr e | None => inl do2 end, s3)
      else Some (inl do_count, s1)
  end.

(** How long [Scheduler::Run] waits for events, and its idle sleep. *)
Definition Run_next_ms (timer_next sleep_next : Z) : Z := Z.min timer_next sleep_next.
Definition Run_wait_ms (max_sleep run tm sl next_ms : Z) : Z :=
  if (run =? 0) && (tm =? 0) && (sl =? 0) then i32 (Z.min next_ms max_sleep) else 0.
Definition Run_idle_sleep (max_sleep sleep_ms next_ms : Z) : Z :=
  Z.min (Z.min ((sleep_ms + 1) mod 256) max_sleep) next_ms mod 256.

(** ** [Run] loses no task *)

Definition tasks_of (r : proc_run) : list nat := r_queue r ++ r_away r ++ r_done r.

Lemma run_loop_conserves acts c r r' e :
  Run_loop acts c r = Some (r', e) -> Forall (fun a => how a <> YFailed) acts ->
  exists used, used `prefix_of` acts /\ tasks_of r ++ concat (map added used) ≡ₚ tasks_of r' /\
    length (r_ran r') = (length (r_ran r) + length used)%nat.
Proof.
  revert c r. induction acts as [|a acts IH]; intros c [q aw dn ra] H Hf; unfold tasks_of in *; simpl in *.
  { exists []. destruct (sz q <=? c); [|destruct q]; simplify_eq; simpl; split_and!; try done; try lia; by rewrite app_nil_r. }
  apply Forall_cons in Hf as [Ha Hf]. destruct (sz q <=? c).
  { simplify_eq. exists []. simpl. split_and!; [apply prefix_nil|by rewrite app_nil_r|lia]. }
  destruct q as [|tk q].
  { simplify_eq. exists []. simpl. split_and!; [apply prefix_nil|by rewrite app_nil_r|lia]. }
  assert (Hgo : forall r1, tasks_of r1 ≡ₚ ((tk :: q) ++ aw ++ dn) ++ added a -> r_ran r1 = ra ++ [tk] ->
    (Run_loop acts (c + 1) r1 = Some (r', e) \/ (r1 = r' /\ True)) ->
    exists used, used `prefix_of` a :: acts /\ ((tk :: q) ++ aw ++ dn) ++ concat (map added used) ≡ₚ r_queue r' ++ r_away r' ++ r_done r' /\
      length (r_ran r') = (length ra + length used)%nat).
  { intros r1 Hp Hr [Hl|[-> _]].
    - destruct (IH _ _ Hl Hf) as (used & Hu & Hc & Hn). exists (a :: used). split_and!.
      + by apply prefix_cons.
      + simpl. rewrite <- Hc, Hp. simpl. rewrite <- !app_assoc. done.
      + rewrite Hn, Hr, length_app. simpl. lia.
    - exists [a]. split_and!; [by apply prefix_cons, prefix_nil| |rewrite Hr, length_app; simpl; lia].
      simpl. rewrite app_nil_r. by rewrite <- Hp. }
  unfold tasks_of in Hgo.
  destruct (how a) as [| | |[]|[x|]|]; simplify_eq; try done;
    eapply Hgo; try (by left); try (right; split; [reflexivity|done]); try done; simpl; solve_Permutation.
Qed.

(** ** A round is fair

    When no task makes another one runnable and none ends with an exception,
    the loop resumes a prefix of the queue. *)
Definition plain (a : activation) : Prop :=
  added a = [] /\ match how a with YFailed | YDone (Some _) => False | _ => True end.

Lemma run_loop_round acts c r q0 k :
  Forall plain acts -> (length q0 - k <= length acts)%nat -> c = Z.of_nat k -> r_ran r = take k q0 -> (k <= length q0)%nat ->
  (exists back, r_queue r = drop k q0 ++ back /\ (length back <= k)%nat) ->
  exists r', Run_loop acts c r = Some (r', None) /\
    exists k', r_ran r' = take k' q0 /\ (k <= k' <= length q0)%nat /\ (length q0 <= 2 * k')%nat /\ Z.of_nat k' >= sz (r_queue r').
Proof.
  intros Hf Hl -> Hr Hk (back & Hq & Hb). revert r k back Hl Hr Hk Hq Hb.
  induction acts as [|a acts IH]; intros r k back Hl Hr Hk Hq Hb.
  - simpl in *. rewrite Hq, length_app, length_drop. rewrite (proj2 (Z.leb_le _ _)) by lia.
    exists r. split; [done|]. exists k. split_and!; try lia; try done. rewrite Hq, length_app, length_drop. lia.
  - apply Forall_cons in Hf as [[Ha1 Ha2] Hf]. cbn [Run_loop].
    destruct (sz (r_queue r) <=? Z.of_nat k) eqn:E; zbool.
    { exists r. split; [done|]. exists k. rewrite Hq, length_app, length_drop in E.
      split_and!; try done; try lia. rewrite Hq, length_app, length_drop. lia. }
    rewrite Hq, length_app, length_drop in E. assert (Hlt : (k < length q0)%nat) by lia.
    destruct (lookup_lt_is_Some_2 q0 k Hlt) as [tk Htk]. rewrite (drop_S _ _ _ Htk) in Hq. rewrite Hq. simpl.
    rewrite Ha1, app_nil_r. replace (Z.of_nat k + 1) with (Z.of_nat (S k)) by lia.
    assert (Hran : r_ran r ++ [tk] = take (S k) q0) by (rewrite Hr; symmetry; by apply take_S_r).
    destruct (how a) as [| | |[]|[x|]|]; try done.
    all: match goal with |- exists r', Run_loop _ _ (mkRun ?Q ?A ?D ?R) = _ /\ _ =>
      first
        [ destruct (IH Hf (mkRun Q A D R) (S k) back) as (r' & E1 & k' & E2 & E3 & E4 & E5);
            [simpl in *; lia|exact Hran|lia|simpl; done|lia|]
        | destruct (IH Hf (mkRun Q A D R) (S k) (back ++ [tk])) as (r' & E1 & k' & E2 & E3 & E4 & E5);
            [simpl in *; lia|exact Hran|lia|simpl; by rewrite <- app_assoc|rewrite length_app; simpl; lia|] ] end;
      exists r'; split; [exact E1|]; exists k'; split_and!; try done; lia.
Qed.

Lemma run_loop_yields acts c r q0 k :
  Forall (fun a => added a = [] /\ how a = YRunnable) acts -> (length q0 - k <= length acts)%nat -> c = Z.of_nat k ->
  (k <= length q0)%nat -> r_queue r = drop k q0 ++ take k q0 -> r_ran r = take k q0 ->
  Run_loop acts c r = Some (mkRun q0 (r_away r) (r_done r) q0, None).
Proof.
  intros Hf Hl -> Hk Hq Hr. revert r k Hl Hk Hq Hr. induction acts as [|a acts IH]; intros [q aw dn ra] k Hl Hk Hq Hr; simpl in Hq, Hr.
  - simpl in Hl. assert (k = length q0) as -> by lia. simpl. rewrite Hq, Hr, drop_all, firstn_all. simpl.
    by replace (sz q0 <=? sz q0) with true by lia.
  - apply Forall_cons in Hf as [[Ha1 Ha2] Hf]. cbn [Run_loop]. simpl.
    assert (Hlen : length q = length q0) by (rewrite Hq, length_app, length_drop, length_take; lia).
    destruct (sz q <=? Z.of_nat k) eqn:E; zbool.
    { assert (k = length q0) as -> by lia. by rewrite Hq, Hr, drop_all, firstn_all. }
    assert (Hlt : (k < length q0)%nat) by lia.
    destruct (lookup_lt_is_Some_2 q0 k Hlt) as [tk Htk]. rewrite (drop_S _ _ _ Htk) in Hq. subst q. simpl.
    rewrite Ha1, Ha2, app_nil_r. replace (Z.of_nat k + 1) with (Z.of_nat (S k)) by lia.
    rewrite (IH Hf _ (S k)); simpl in *; try done; try lia.
    + rewrite <- app_assoc. f_equal. symmetry. by apply take_S_r.
    + rewrite Hr. symmetry. by apply take_S_r.
Qed.

(** C39: a run of a processer is fair and loses no task.  Whatever the tasks do
    (except a failing context switch), every task that was queued or was made
    runnable is afterwards queued, with a waiter or done, and in one place.
    When no task adds another and none ends in an exception, the loop ends
    after at most one resumption per queued task, and resumes a prefix of the
    queue that is at least half of it; and when all tasks just yield, each is
    resumed exactly once and the queue is as before. *)
Theorem run_fair q acts :
  (forall r e, Processer_Run acts q = Some (r, e) -> Forall (fun a => how a <> YFailed) acts ->
     exists used, used `prefix_of` acts /\ q ++ concat (map added used) ≡ₚ tasks_of r) /\
  (Forall plain acts -> (length q <= length acts)%nat ->
     exists r k, Processer_Run acts q = Some (r, None) /\ r_ran r = take k q /\ (length q <= 2 * k)%nat) /\
  (Forall (fun a => added a = [] /\ how a = YRunnable) acts -> (length q <= length acts)%nat ->
     Processer_Run acts q = Some (mkRun q [] [] q, None)).
Proof.
  split_and!.
  - intros r e Hr Hf. destruct (run_loop_conserves _ _ _ _ _ Hr Hf) as (used & Hu & Hp & _).
    exists used. split; [done|]. rewrite <- Hp. unfold tasks_of. simpl. by rewrite app_nil_r.
  - intros Hf Hl. destruct (run_loop_round acts 0 (start_run q) q 0 Hf) as (r & E & k & Hk & _ & H2 & _);
      [lia|done|done|lia|exists []; split; [simpl; by rewrite app_nil_r|simpl; lia]|].
    exists r, k. by split_and!.
  - intros Hf Hl. unfold Processer_Run. rewrite (run_loop_yields acts 0 (start_run q) q 0); try done; try lia.
    simpl. by rewrite app_nil_r.
Qed.

(** ** Dispatching *)

Definition all_tasks (s : Scheduler) : list nat := concat (run_proc_list_ s).

Lemma concat_alter_push i tk (l : list (list nat)) :
  (i < length l)%nat -> concat (alter (fun q => q ++ [tk]) i l) ≡ₚ tk :: concat l.
Proof.
  revert i. induction l as [|q l IH]; intros [|i] Hi; simpl in *; try lia.
  - solve_Permutation.
  - trans (q ++ tk :: concat l); [apply Permutation_app_head, IH; lia|solve_Permutation].
Qed.

Lemma concat_replicate_nil n : concat (replicate n (@nil nat)) = [].
Proof. by induction n. Qed.

Lemma get_processer_spec i s :
  all_tasks (GetProcesser i s) = all_tasks s /\ (i < length (run_proc_list_ (GetProcesser i s)))%nat.
Proof.
  unfold all_tasks, GetProcesser. simpl. rewrite concat_app, concat_replicate_nil, app_nil_r, length_app, length_replicate.
  split; [done|]. lia.
Qed.

Lemma push_spec i tk s : (i < length (run_proc_list_ s))%nat -> all_tasks (proc_push i tk s) ≡ₚ tk :: all_tasks s.
Proof. apply concat_alter_push. Qed.

Lemma get_push_spec i tk s : all_tasks (proc_push i tk (GetProcesser i s)) ≡ₚ tk :: all_tasks s.
Proof. destruct (get_processer_spec i s) as [H1 H2]. by rewrite push_spec, H1. Qed.

(** The processers a task or a thread points to exist. *)
Definition procs_valid (tk : nat) (local : option nat) (s : Scheduler) : Prop :=
  (forall p, proc_ s tk = Some p -> (p < length (run_proc_list_ s))%nat) /\
  (forall p, local = Some p -> (p < length (run_proc_list_ s))%nat).

Lemma add_runnable_spec tk dispatch local rnd s :
  procs_valid tk local s -> all_tasks (AddTaskRunnable tk dispatch local rnd s) ≡ₚ tk :: all_tasks s.
Proof.
  intros [H1 H2]. unfold AddTaskRunnable. destruct (proc_ s tk) as [p|] eqn:Ep; [by apply push_spec, H1|].
  repeat case_match; subst; try (by apply push_spec, H2); rewrite get_push_spec; done.
Qed.

(** [m] new tasks dispatched in turn. *)
Fixpoint robin (tk : nat) (m : nat) (s : Scheduler) : Scheduler :=
  match m with
  | O => s
  | S m' => robin (S tk) m' (AddTaskRunnable tk egod_robin None 0 s)
  end.

(** The tasks of [tk, tk + 1, ...] that fall to processer [i]. *)
Fixpoint share (tk m : nat) (r n : Z) (i : nat) : list nat :=
  match m with
  | O => []
  | S m' => (if Z.of_nat i =? r mod n then [tk] else []) ++ share (S tk) m' (r + 1) n i
  end.

Lemma robin_step tk s i q :
  proc_ s tk = None -> 0 <= dispatch_robin_index_ s -> dispatch_robin_index_ s + 1 < 2 ^ 32 -> run_proc_list_ s !! i = Some q ->
  let s' := AddTaskRunnable tk egod_robin None 0 s in
  length (run_proc_list_ s') = length (run_proc_list_ s) /\
  dispatch_robin_index_ s' = dispatch_robin_index_ s + 1 /\ proc_ s' = proc_ s /\
  run_proc_list_ s' !! i = Some (q ++ if Z.of_nat i =? dispatch_robin_index_ s mod sz (run_proc_list_ s) then [tk] else []).
Proof.
  intros Hp Hr Hb Hi s'. unfold s', AddTaskRunnable. rewrite Hp. simpl.
  assert (Hn : (0 < length (run_proc_list_ s))%nat) by (apply lookup_lt_Some in Hi; lia).
  rewrite Z.max_l by lia. pose proof (Z.mod_pos_bound (dispatch_robin_index_ s) (sz (run_proc_list_ s)) ltac:(lia)) as Hm.
  set (d := dispatch_robin_index_ s mod sz (run_proc_list_ s)) in *. clearbody d.
  assert (Hext : (S (Z.to_nat d) - length (run_proc_list_ s))%nat = O) by lia.
  rewrite Hext. simpl. rewrite app_nil_r. split_and!; [apply length_alter|apply u32_small; lia|done|].
  destruct (decide (Z.to_nat d = i)) as [<-|Hne].
  - rewrite list_lookup_alter_eq, Hi. simpl. by rewrite Z2Nat.id, Z.eqb_refl by lia.
  - rewrite list_lookup_alter_ne, Hi by done. rewrite (proj2 (Z.eqb_neq (Z.of_nat i) d)) by lia. by rewrite app_nil_r.
Qed.

Lemma robin_share tk m s i q :
  (forall t, (tk <= t)%nat -> proc_ s t = None) -> 0 <= dispatch_robin_index_ s -> dispatch_robin_index_ s + Z.of_nat m < 2 ^ 32 ->
  run_proc_list_ s !! i = Some q ->
  run_proc_list_ (robin tk m s) !! i = Some (q ++ share tk m (dispatch_robin_index_ s) (sz (run_proc_list_ s)) i).
Proof.
  revert tk s q. induction m as [|m IH]; intros tk s q Hp Hr Hb Hi; simpl; [by rewrite app_nil_r|].
  destruct (robin_step tk s i q (Hp tk ltac:(lia)) Hr ltac:(lia) Hi) as (Hl & Hd & Hpr & Hq).
  rewrite (IH (S tk) _ _ ltac:(rewrite Hpr; intros; apply Hp; lia) ltac:(lia) ltac:(lia) Hq).
  by rewrite Hl, Hd, <- app_assoc.
Qed.

(** Every task made runnable is queued exactly once: [AddTaskRunnable]
    appends it to one run queue, for every dispatch mode and wherever it ran
    before, and touches no other task; and in turn dispatch, consecutive new
    tasks go to consecutive processers, so each processer gets those whose
    number falls to it and in order. *)
Theorem task_dispatch tk dispatch local rnd s :
  procs_valid tk local s ->
  all_tasks (AddTaskRunnable tk dispatch local rnd s) ≡ₚ tk :: all_tasks s /\
  (forall m i q, (forall t, (tk <= t)%nat -> proc_ s t = None) -> 0 <= dispatch_robin_index_ s ->
     dispatch_robin_index_ s + Z.of_nat m < 2 ^ 32 -> run_proc_list_ s !! i = Some q ->
     run_proc_list_ (robin tk m s) !! i = Some (q ++ share tk m (dispatch_robin_index_ s) (sz (run_proc_list_ s)) i)).
Proof. intros H. split; [by apply add_runnable_spec|]. intros. by apply robin_share. Qed.

(** ** Stealing *)

(** Work stealing moves the back half of another processer's queue.  The
    victim is another existing processer; the stolen tasks are the last half
    (rounded up) of its queue, appended to the thief's queue in order; no task
    is lost or doubled. *)
Theorem steal_half thread_count rnd thread_id victim thief :
  1 < thread_count -> 0 <= rnd -> 0 <= thread_id < thread_count ->
  (0 <= choose_victim thread_count rnd thread_id < thread_count /\ choose_victim thread_count rnd thread_id <> thread_id) /\
  exists stolen keep, victim = keep ++ stolen /\ length stolen = ((length victim + 1) / 2)%nat /\
    StealHalf victim thief = (sz stolen, keep, thief ++ stolen).
Proof.
  intros Hn Hr Ht. split.
  - unfold choose_victim. pose proof (Z.mod_pos_bound rnd thread_count ltac:(lia)) as Hm.
    destruct (rnd mod thread_count =? thread_id) eqn:E; zbool; [|lia]. destruct (0 <? thread_id) eqn:E2; zbool; lia.
  - set (k := ((length victim + 1) / 2)%nat). assert (Hk : (k <= length victim)%nat).
    { unfold k. destruct victim as [|x v]; [done|]. apply Nat.Div0.div_le_upper_bound. simpl. lia. }
    exists (drop (length victim - k) victim), (take (length victim - k) victim). split_and!.
    + by rewrite take_drop.
    + rewrite length_drop. lia.
    + unfold StealHalf. fold k. rewrite length_drop. by replace (length victim - (length victim - k))%nat with k by lia.
Qed.

(** A context switch that fails releases the task without counting it as done,
    so the task count stays too high and [RunUntilNoTask] does not end. *)
Lemma swap_failure_leaks tk q acts s me :
  run_proc_list_ s !! me = Some (tk :: q) -> 0 <= task_count_ s < 2 ^ 32 ->
  exists s', run_proc me (mkAct [] YFailed :: acts) s = Some (1, 0, Some (ExnSystem ec_swapcontext_failed), s') /\
    task_count_ s' = task_count_ s /\ run_proc_list_ s' !! me = Some q.
Proof.
  intros Hq Hc. unfold run_proc. rewrite Hq. eexists. split; [simpl; rewrite app_nil_r; reflexivity|].
  simpl. rewrite Z.sub_0_r, u32_small by done. split; [done|]. apply list_lookup_insert_eq. by eapply lookup_lt_Some.
Qed.

(** The wait of [Run] respects the next timer, the next sleeper and the
    configured limit, and is zero when there was work. *)
Lemma run_wait_bounded max_sleep run tm sl tn sn :
  0 <= max_sleep < 256 -> 0 <= tn -> 0 <= sn ->
  let w := Run_wait_ms max_sleep run tm sl (Run_next_ms tn sn) in
  0 <= w <= max_sleep /\ w <= tn /\ w <= sn /\ (run <> 0 \/ tm <> 0 \/ sl <> 0 -> w = 0).
Proof.
  intros Hm Ht Hs w. unfold w, Run_wait_ms, Run_next_ms. rewrite i32_small by lia.
  destruct (run =? 0) eqn:E1, (tm =? 0) eqn:E2, (sl =? 0) eqn:E3; zbool; simpl; lia.
Qed.

(** ** Examples *)

Definition demo_acts : list activation := [mkAct [] YRunnable; mkAct [9%nat] YSleep; mkAct [] (YDone None)].
Lemma run_fair_witness :
  exists used, used `prefix_of` demo_acts /\ [1; 2; 3]%nat ++ concat (map added used) ≡ₚ [1; 9; 2; 3]%nat.
Proof.
  exact (proj1 (run_fair [1; 2; 3]%nat demo_acts) (mkRun [1; 9]%nat [2%nat] [3%nat] [1; 2; 3]%nat) None eq_refl
    ltac:(repeat constructor; discriminate)).
Defined.

Definition demo_sched : Scheduler := set_procs [[1%nat]; [2%nat]] (Scheduler_new false).
Lemma task_dispatch_witness :
  all_tasks (AddTaskRunnable 5 egod_default None 0 demo_sched) ≡ₚ [5; 1; 2]%nat.
Proof.
  refine (proj1 (task_dispatch 5 egod_default None 0 demo_sched _)). split; [discriminate|discriminate].
Defined.

Lemma steal_half_witness :
  choose_victim 2 1 1 <> 1 /\ StealHalf [1; 2; 3]%nat [] = (2, [1%nat], [2; 3]%nat).
Proof.
  destruct (steal_half 2 1 1 [1; 2; 3]%nat []) as [[_ H] _]; [lia|lia|lia|]. split; [exact H|reflexivity].
Defined.
