(* ===== verification/TaskInfo.v ===== *)
(** * Tasks as objects, their statistics, and the errors of libgo

    [libgo/task.cpp] without [Task_CB] (see [Scheduler.v]), [SourceLocation] of
    [util.h] and [libgo/error.cpp].  Task objects live at addresses; with
    [enable_coro_stat] their addresses are also in [s_stat_set].  A file name is
    the address of a C string, 0 for null, and [text] is what is stored there. *)
From S2P Require Import Prelude StdString StdMap.

(** ** [error.cpp] *)

Inductive eCoErrorCode : Type :=
| ec_ok | ec_mutex_double_unlock | ec_block_object_locked | ec_block_object_waiting | ec_yield_failed
| ec_swapcontext_failed | ec_makecontext_failed | ec_iocpinit_failed | ec_protect_stack_failed | ec_std_thread_link_error.
Definition co_code (e : eCoErrorCode) : Z :=
  match e with
  | ec_ok => 0 | ec_mutex_double_unlock => 1 | ec_block_object_locked => 2 | ec_block_object_waiting => 3
  | ec_yield_failed => 4 | ec_swapcontext_failed => 5 | ec_makecontext_failed => 6 | ec_iocpinit_failed => 7
  | ec_protect_stack_failed => 8 | ec_std_thread_link_error => 9
  end.

(** [co_error_category::message]. *)
Definition co_message (v : Z) : bytes :=
  if v =? 0 then lit "ok"
  else if v =? 1 then lit "co_mutex double unlock"
  else if v =? 2 then lit "block object locked when destructor"
  else if v =? 3 then lit "block object was waiting when destructor"
  else if v =? 4 then lit "yield failed"
  else if v =? 5 then lit "swapcontext failed"
  else if v =? 6 then lit "makecontext failed"
  else if v =? 7 then lit "iocp init failed"
  else if v =? 8 then lit "protect stack failed"
  else if v =? 9 then 
    lit "std thread link error." ++ [LF] ++
    lit "if static-link use flags: '-Wl,--whole-archive -lpthread -Wl,--no-whole-archive -static' on link step;" ++ [LF] ++
    lit "if dynamic-link use flags: '-pthread' on compile step and link step;" ++ [LF]
  else [].

(** [ThrowError]; nothing is thrown while another exception is on its way. *)
Definition ThrowError (uncaught : bool) (code : eCoErrorCode) : outcome unit :=
  if uncaught then Ret tt else Throw (ExnSystem (co_code code)).

(** Every code has its own message, and unknown codes have none. *)
Lemma messages_tell_apart a b : co_message (co_code a) = co_message (co_code b) -> a = b.
Proof. destruct a, b; (reflexivity || (intros H; discriminate H)). Qed.
Lemma unknown_code_no_message v : v < 0 \/ 9 < v -> co_message v = [].
Proof. intros H. unfold co_message. by rewrite !(proj2 (Z.eqb_neq v _)) by lia. Qed.

(** ** [SourceLocation] *)

Record SourceLocation : Type := mkLoc { file_ : Z; lineno_ : Z }.
#[global] Instance location_eq_dec : EqDecision SourceLocation.
Proof. solve_decision. Defined.

Definition location_less (a b : SourceLocation) : bool :=
  if file_ a =? file_ b then lineno_ a <? lineno_ b else file_ a <? file_ b.
#[export] Instance location_order : StdLess SourceLocation.
Proof.
  refine {| less := location_less |}; unfold location_less.
  - intros a. by rewrite Z.eqb_refl, Z.ltb_irrefl.
  - intros a b c. destruct (file_ a =? file_ b) eqn:E1, (file_ b =? file_ c) eqn:E2, (file_ a =? file_ c) eqn:E3;
      intros; zbool; try lia; apply Z.ltb_lt; lia.
  - intros [f l] [f' l']. cbn. rewrite (Z.eqb_sym f' f). destruct (f =? f') eqn:E; intros; zbool; f_equal; lia.
Defined.

Section Tasks.
Variable text : Z -> bytes.

Definition location_string (l : SourceLocation) : bytes :=
  lit "{file:" ++ (if file_ l =? 0 then [] else text (file_ l)) ++ lit ", line:" ++ dec (lineno_ l) ++ lit "}".

(** ** Task objects *)

Inductive TaskState : Type := ts_init | ts_runnable | ts_io_block | ts_sys_block | ts_sleep | ts_done | ts_fatal.
#[local] Instance task_state_eq_dec : EqDecision TaskState.
Proof. solve_decision. Defined.
Definition state_index (s : TaskState) : nat :=
  match s with ts_init => 0 | ts_runnable => 1 | ts_io_block => 2 | ts_sys_block => 3 | ts_sleep => 4 | ts_done => 5 | ts_fatal => 6 end.
Definition GetTaskStateName (state : Z) : bytes :=
  if state =? 0 then lit "init" else if state =? 1 then lit "runnable" else if state =? 2 then lit "io_block"
  else if state =? 3 then lit "sys_block" else if state =? 4 then lit "sleep" else if state =? 5 then lit "done"
  else if state =? 6 then lit "fatal" else lit "unkown".

Record Task : Type := mkTask { id_ : Z; state_ : TaskState; location_ : SourceLocation; debug_info_ : bytes }.
Definition set_state (s : TaskState) (t : Task) : Task := mkTask (id_ t) s (location_ t) (debug_info_ t).

Definition SetDebugInfo (info : bytes) (t : Task) : Task :=
  mkTask (id_ t) (state_ t) (location_ t) (info ++ lit "(" ++ dec (id_ t) ++ lit ")").
Definition DebugInfo (t : Task) : bytes * Task :=
  let info := match debug_info_ t with
              | [] => dec (id_ t) ++ (if file_ (location_ t) =? 0 then [] else lit " :" ++ location_string (location_ t))
              | s => s
              end in
  (info, mkTask (id_ t) (state_ t) (location_ t) info).

Record task_world : Type := mkTasks {
  s_id : Z; s_task_count : Z; s_stat_set : list (nat * unit); objects : gmap nat Task }.
Definition task_world_new : task_world := mkTasks 0 0 [] ∅.

(** The constructor with [InitLocation], and the destructor; [stat] is
    [enable_coro_stat] at that moment. *)
Definition Task_new (stat : bool) (addr : nat) (file lineno : Z) (w : task_world) : task_world :=
  let id := u64 (s_id w + 1) in
  mkTasks id (u64 (s_task_count w + 1)) (if stat then map_put addr tt (s_stat_set w) else s_stat_set w)
    (<[addr := mkTask id ts_init (mkLoc file lineno) []]> (objects w)).
Definition Task_delete (stat : bool) (addr : nat) (w : task_world) : task_world :=
  mkTasks (s_id w) (u64 (s_task_count w - 1)) (if stat then map_erase addr (s_stat_set w) else s_stat_set w)
    (delete addr (objects w)).

(** [++result[key]]. *)
Definition bump (l : SourceLocation) (m : list (SourceLocation * Z)) : list (SourceLocation * Z) :=
  map_put l (u32 (default 0 (map_find l m) + 1)) m.

(** The loops over [s_stat_set]; reading a task that is gone is undefined. *)
Fixpoint stat_loop (set : list (nat * unit)) (objs : gmap nat Task) (result : list (SourceLocation * Z)) :
    outcome (list (SourceLocation * Z)) :=
  match set with
  | [] => Ret result
  | (a, _) :: set' =>
      match objs !! a with
      | None => Undef
      | Some t => stat_loop set' objs (bump (location_ t) result)
      end
  end.
Definition GetStatInfo (stat : bool) (w : task_world) : outcome (list (SourceLocation * Z)) :=
  if stat then stat_loop (s_stat_set w) (objects w) [] else Ret [].

Fixpoint state_loop (set : list (nat * unit)) (objs : gmap nat Task) (result : list (list (SourceLocation * Z))) :
    outcome (list (list (SourceLocation * Z))) :=
  match set with
  | [] => Ret result
  | (a, _) :: set' =>
      match objs !! a with
      | None => Undef
      | Some t => state_loop set' objs (alter (bump (location_ t)) (state_index (state_ t)) result)
      end
  end.
Definition GetStateInfo (stat : bool) (w : task_world) : outcome (list (list (SourceLocation * Z))) :=
  if stat then state_loop (s_stat_set w) (objects w) (replicate 7 []) else Ret (replicate 7 []).

(** ** The statistics are right *)

(** Tasks come and go with the statistics on. *)
Inductive task_step : task_world -> task_world -> Prop :=
| t_new w addr file lineno : objects w !! addr = None -> s_id w + 1 < 2 ^ 64 ->
    task_step w (Task_new true addr file lineno w)
| t_delete w addr t : objects w !! addr = Some t -> task_step w (Task_delete true addr w)
| t_state w addr t st : objects w !! addr = Some t ->
    task_step w (mkTasks (s_id w) (s_task_count w) (s_stat_set w) (<[addr := set_state st t]> (objects w)))
| t_debug w addr t info : objects w !! addr = Some t ->
    task_step w (mkTasks (s_id w) (s_task_count w) (s_stat_set w) (<[addr := SetDebugInfo info t]> (objects w))).

Record tasks_ok (w : task_world) : Prop := {
  to_sorted : map_sorted (s_stat_set w);
  to_set : (s_stat_set w).*1 ≡ₚ (map_to_list (objects w)).*1;
  to_count : s_task_count w = u64 (Z.of_nat (size (objects w)));
  to_pos : 0 <= s_id w;
  to_ids a t : objects w !! a = Some t -> id_ t <= s_id w;
  to_unique a b t u : objects w !! a = Some t -> objects w !! b = Some u -> id_ t = id_ u -> a = b }.

Lemma keys_insert (m : gmap nat Task) a t u : m !! a = Some t -> (map_to_list (<[a := u]> m)).*1 ≡ₚ (map_to_list m).*1.
Proof.
  intros Ha. rewrite <- (insert_delete_id m a t Ha) at 2. rewrite <- (insert_delete_eq m a u).
  rewrite !map_to_list_insert by apply lookup_delete_eq. done.
Qed.

Lemma task_update_ok w a t u :
  tasks_ok w -> objects w !! a = Some t -> id_ u = id_ t ->
  tasks_ok (mkTasks (s_id w) (s_task_count w) (s_stat_set w) (<[a := u]> (objects w))).
Proof.
  intros [Hs Hset Hc Hp Hi Hu] Ha Hid. constructor; cbn; try done.
  - rewrite (keys_insert _ _ _ _ Ha). done.
  - rewrite map_size_insert, Ha. done.
  - intros b v. rewrite lookup_insert_Some. intros [[<- <-]|[_ Hb]]; [rewrite Hid|]; by eapply Hi.
  - intros b c v x. rewrite !lookup_insert_Some. intros [[<- <-]|[_ Hb]] [[<- <-]|[_ Hx]] He; try done; eapply Hu; try done; congruence.
Qed.

Lemma u64_step a b : u64 (u64 a + b) = u64 (a + b).
Proof. unfold u64. apply Z.add_mod_idemp_l. lia. Qed.

Lemma set_absent w a : tasks_ok w -> objects w !! a = None -> map_find a (s_stat_set w) = None.
Proof.
  intros Hok Ha. destruct (map_find a (s_stat_set w)) as [v|] eqn:E; [|done]. apply map_find_key in E.
  rewrite (to_set _ Hok) in E. apply list_elem_of_fmap in E as ([b t] & -> & Hb). apply elem_of_map_to_list in Hb. cbn in Ha. congruence.
Qed.
Lemma set_present w a t : tasks_ok w -> objects w !! a = Some t -> map_find a (s_stat_set w) = Some tt.
Proof.
  intros Hok Ha. assert (a ∈ (s_stat_set w).*1) as Hin.
  { rewrite (to_set _ Hok). apply list_elem_of_fmap. exists (a, t). split; [done|]. by apply elem_of_map_to_list. }
  apply list_elem_of_fmap in Hin as ([b []] & -> & Hb). by apply map_elem_find; [apply Hok|].
Qed.

Lemma task_step_ok w w' : task_step w w' -> tasks_ok w -> tasks_ok w'.
Proof.
  intros Hs Hok. destruct Hs as [w a f l Ha Hid|w a t Ha|w a t st Ha|w a t info Ha];
    [| |by eapply task_update_ok|by eapply task_update_ok]; pose proof Hok as [Hsd Hset Hc Hp Hi Hu].
  - assert (u64 (s_id w + 1) = s_id w + 1) as Hn by (unfold u64; apply Z.mod_small; lia).
    constructor; cbn; rewrite ?Hn; try lia.
    + by apply map_put_sorted.
    + rewrite map_to_list_insert by done. rewrite (map_put_perm a tt _ (set_absent _ _ Hok Ha)), !fmap_cons, Hset. done.
    + rewrite map_size_insert, Ha, Hc, u64_step. f_equal. lia.
    + intros b v. rewrite lookup_insert_Some. intros [[<- <-]|[_ Hb]]; cbn; [lia|]. specialize (Hi _ _ Hb). lia.
    + intros b c v x. rewrite !lookup_insert_Some. intros [[<- <-]|[_ Hb]] [[<- <-]|[_ Hx]] He; cbn in *; try done.
      * specialize (Hi _ _ Hx). lia.
      * specialize (Hi _ _ Hb). lia.
      * by eapply Hu.
  - constructor; cbn; try done.
    + by apply map_erase_sorted.
    + pose proof (map_erase_perm a tt _ (set_present _ _ _ Hok Ha)) as Hp1. apply (fmap_Permutation fst) in Hp1.
      rewrite fmap_cons in Hp1. rewrite Hset, <- (map_to_list_delete _ _ _ Ha), fmap_cons in Hp1. cbn in Hp1.
      by apply Permutation_cons_inv in Hp1.
    + rewrite map_size_delete, Ha, Hc, <- (Z.add_opp_r (u64 _)), u64_step. f_equal.
      assert (size (objects w) <> O) by (apply map_size_non_empty_iff; intros E; rewrite E, lookup_empty in Ha; done). lia.
    + intros b v. rewrite lookup_delete_Some. intros [_ Hb]. by eapply Hi.
    + intros b c v x. rewrite !lookup_delete_Some. intros [_ Hb] [_ Hx]. by eapply Hu.
Qed.

Lemma bump_find l l' m : map_sorted m ->
  default 0 (map_find l' (bump l m)) = if decide (l = l') then u32 (default 0 (map_find l m) + 1) else default 0 (map_find l' m).
Proof. intros Hm. unfold bump. case_decide as E; [subst; by rewrite map_find_put_eq|by rewrite map_find_put_ne]. Qed.

(** The tasks among [addrs] that satisfy [P]. *)
Definition tally (P : Task -> bool) (objs : gmap nat Task) (addrs : list nat) : Z :=
  sz (List.filter (fun a => match objs !! a with Some t => P t | None => false end) addrs).
#[local] Instance tally_proper P objs : Proper (Permutation ==> eq) (tally P objs).
Proof.
  unfold tally. intros l l' Hp. f_equal. induction Hp as [|x l l' _ IH|x y l|l l1 l2 _ IH1 _ IH2]; cbn; try congruence.
  - destruct (objs !! x) as [t|]; [destruct (P t)|]; cbn; congruence.
  - repeat (case_match; cbn); congruence.
Qed.
Definition at_location (l : SourceLocation) (t : Task) : bool := bool_decide (location_ t = l).
Definition in_state (i : nat) (l : SourceLocation) (t : Task) : bool :=
  bool_decide (state_index (state_ t) = i) && at_location l t.

Lemma u32_step a b : u32 (u32 a + b) = u32 (a + b).
Proof. unfold u32. apply Z.add_mod_idemp_l. lia. Qed.

Lemma stat_loop_spec objs set : forall r base, Forall (fun a => is_Some (objs !! a)) set.*1 -> map_sorted r ->
  (forall l, default 0 (map_find l r) = u32 (base l)) ->
  exists r', stat_loop set objs r = Ret r' /\
    forall l, default 0 (map_find l r') = u32 (base l + tally (at_location l) objs set.*1).
Proof.
  induction set as [|[a []] set IH]; intros r base Hs Hr Hb; cbn [stat_loop].
  - exists r. split; [done|]. intros l. rewrite Hb. f_equal. symmetry. apply Z.add_0_r.
  - rewrite fmap_cons in Hs |- *. apply Forall_cons in Hs as [[t Ht] Hs]. cbn [fst] in *. rewrite Ht.
    destruct (IH (bump (location_ t) r) (fun l => base l + if at_location l t then 1 else 0) Hs) as (r' & Hr' & Hc);
      [by apply map_put_sorted| |].
    { intros l. rewrite bump_find by done. unfold at_location. destruct (decide (location_ t = l)) as [<-|Hne].
      - rewrite bool_decide_eq_true_2, Hb, u32_step by done. done.
      - rewrite bool_decide_eq_false_2, Hb, Z.add_0_r by done. done. }
    exists r'. split; [done|]. intros l. rewrite Hc. f_equal. unfold tally. cbn [List.filter]. rewrite Ht.
    destruct (at_location l t); cbn [length]; lia.
Qed.

Lemma state_loop_spec objs set : forall r base, Forall (fun a => is_Some (objs !! a)) set.*1 -> length r = 7%nat ->
  (forall i m, r !! i = Some m -> map_sorted m /\ forall l, default 0 (map_find l m) = u32 (base i l)) ->
  exists r', state_loop set objs r = Ret r' /\ length r' = 7%nat /\
    forall i m, r' !! i = Some m -> forall l, default 0 (map_find l m) = u32 (base i l + tally (in_state i l) objs set.*1).
Proof.
  induction set as [|[a []] set IH]; intros r base Hs Hl Hb; cbn [state_loop].
  - exists r. split; [done|]. split; [done|]. intros i m Hm l. rewrite (proj2 (Hb i m Hm)). f_equal. symmetry. apply Z.add_0_r.
  - rewrite fmap_cons in Hs |- *. apply Forall_cons in Hs as [[t Ht] Hs]. cbn [fst] in *. rewrite Ht.
    destruct (IH (alter (bump (location_ t)) (state_index (state_ t)) r) (fun i l => base i l + if in_state i l t then 1 else 0) Hs)
      as (r' & Hr' & Hl' & Hc); [by rewrite length_alter| |].
    { intros i m. unfold in_state, at_location. destruct (decide (state_index (state_ t) = i)) as [Hi|Hi].
      - rewrite Hi, list_lookup_alter_eq. destruct (r !! i) as [m0|] eqn:E; [|done]. intros [= <-].
        destruct (Hb i m0 E) as [Hm0 Hf]. split; [by apply map_put_sorted|]. intros l.
        rewrite bool_decide_eq_true_2 by done. rewrite bump_find by done.
        destruct (decide (location_ t = l)) as [<-|Hne]; cbn [andb].
        + rewrite bool_decide_eq_true_2, Hf, u32_step by done. done.
        + rewrite bool_decide_eq_false_2, Hf, Z.add_0_r by done. done.
      - rewrite list_lookup_alter_ne by done. intros E. destruct (Hb i m E) as [Hm0 Hf]. split; [done|]. intros l.
        rewrite bool_decide_eq_false_2 by done. cbn [andb]. by rewrite Hf, Z.add_0_r. }
    exists r'. split; [done|]. split; [done|]. intros i m Hm l. rewrite (Hc i m Hm). f_equal. unfold tally. cbn [List.filter]. rewrite Ht.
    destruct (in_state i l t); cbn [length]; lia.
Qed.

(** The statistics count the tasks that exist.  In every history of task
    objects with the statistics on, no id is given twice, [GetTaskCount] is the
    number of tasks that exist, [GetStatInfo] shows for every source location
    how many of them were started there, and [GetStateInfo] how many of those
    are in each state; no task that is gone is looked at. *)
Theorem task_statistics w :
  star task_step task_world_new w ->
  let live := (map_to_list (objects w)).*1 in
  (forall a b t u, objects w !! a = Some t -> objects w !! b = Some u -> id_ t = id_ u -> a = b) /\
  s_task_count w = u64 (sz live) /\
  (exists m, GetStatInfo true w = Ret m /\ forall l, default 0 (map_find l m) = u32 (tally (at_location l) (objects w) live)) /\
  (exists ms, GetStateInfo true w = Ret ms /\ forall i m, ms !! i = Some m ->
     forall l, default 0 (map_find l m) = u32 (tally (in_state i l) (objects w) live)).
Proof.
  intros Hs live. assert (tasks_ok w) as Hok.
  { eapply star_invariant; [|exact Hs|]; [intros ??; apply task_step_ok|]. constructor; cbn; try done. }
  assert (forall P, tally P (objects w) (s_stat_set w).*1 = tally P (objects w) live) as Htally.
  { intros P. by rewrite (to_set _ Hok). }
  assert (Forall (fun a => is_Some (objects w !! a)) (s_stat_set w).*1) as Hall.
  { apply Forall_forall. intros a Ha. rewrite (to_set _ Hok) in Ha. apply list_elem_of_fmap in Ha as ([b t] & -> & Hb).
    apply elem_of_map_to_list in Hb. by exists t. }
  split; [apply Hok|]. split; [|split].
  - rewrite (to_count _ Hok). unfold live. rewrite length_fmap. by rewrite length_map_to_list.
  - destruct (stat_loop_spec (objects w) (s_stat_set w) [] (fun _ => 0) Hall) as (m & Hm & Hc); [done|done|].
    exists m. split; [done|]. intros l. by rewrite Hc, Htally, Z.add_0_l.
  - destruct (state_loop_spec (objects w) (s_stat_set w) (replicate 7 []) (fun _ _ => 0) Hall) as (ms & Hms & _ & Hc); [done| |].
    { intros i m Hm. apply lookup_replicate in Hm as [-> _]. done. }
    exists ms. split; [done|]. intros i m Hm l. by rewrite (Hc i m Hm), Htally, Z.add_0_l.
Qed.

(** Switching the statistics off while tasks exist leaves the addresses of tasks
    that end in the set; switched on again, [GetStatInfo] reads them. *)
Lemma stat_toggle_dangling w addr file lineno :
  objects w !! addr = None -> s_stat_set w = [] ->
  GetStatInfo true (Task_delete false addr (Task_new true addr file lineno w)) = Undef.
Proof. intros Ha Hs. unfold GetStatInfo, Task_delete, Task_new. cbn. rewrite Hs. cbn. by rewrite lookup_delete_eq. Qed.
End Tasks.

Definition demo_tasks : task_world :=
  Task_delete true 100 (Task_new true 200 64 30 (Task_new true 100 64 12 task_world_new)).
Lemma task_statistics_witness : exists m, GetStatInfo true demo_tasks = Ret m /\ s_task_count demo_tasks = 1.
Proof.
  destruct (task_statistics demo_tasks) as (_ & Hc & (m & Hm & _) & _).
  - eapply star_step; [apply (t_new _ 100 64 12); [reflexivity|vm_compute; reflexivity]|].
    eapply star_step; [apply (t_new _ 200 64 30); [reflexivity|vm_compute; reflexivity]|].
    apply star_one. eapply (t_delete _ 100). reflexivity.
  - exists m. split; [exact Hm|]. rewrite Hc. vm_compute. reflexivity.
Defined.
