(* ===== verification/Context.v ===== *)
(** * Contexts: stacks with guard pages, and switching

    [StackAllocator] of [libgo/context.h] and [Context] of
    [libgo/ctx_ucontext/context.h], the implementation the build selects.

    Memory is the blocks that are allocated and the pages that may not be
    accessed.  The addresses [malloc] gives and the results of [getcontext] and
    [mprotect] are inputs; [mprotect] refuses an address that is not on a page
    boundary, and the null page, which is not mapped. *)
From S2P Require Import Prelude TaskInfo.

(** ** [StackAllocator] *)

Record mem : Type := mkMem { allocs : gmap Z Z; prot : gset Z }.
Definition mem_new : mem := mkMem ∅ ∅.

(** The [n] pages from page [first] on. *)
Fixpoint page_set (first : Z) (n : nat) : gset Z :=
  match n with O => ∅ | S n' => {[first]} ∪ page_set (first + 1) n' end.

Section Stacks.
(** [getpagesize()]. *)
Variable getpagesize : Z.

(** The pages of a range: those that contain any of its bytes. *)
Definition pages_of (addr len : Z) : gset Z :=
  page_set (addr / getpagesize) (Z.to_nat ((addr + len + getpagesize - 1) / getpagesize - addr / getpagesize)).

(** [mprotect] with [PROT_NONE] or [PROT_READ|PROT_WRITE]; [ok] is whether the
    system has the resources. *)
Definition mprotect (ok : bool) (addr len : Z) (none : bool) (m : mem) : bool * mem :=
  if (addr =? 0) || negb (addr mod getpagesize =? 0) || negb ok then (false, m)
  else (true, mkMem (allocs m) (if none then prot m ∪ pages_of addr len else prot m ∖ pages_of addr len)).

(** [protect_page_addr]. *)
Definition protect_page_addr (top : Z) : Z :=
  if Z.land top 0xfff =? 0 then top else u64 (Z.ldiff top 0xfff + 0x1000).

(** [getpagesize() * page] is a 32-bit product. *)
Definition protect_stack (uncaught ok : bool) (top stack_size page : Z) (m : mem) : outcome (bool * mem) :=
  if page =? 0 then Ret (false, m) else
  _ ← (if stack_size <=? u32 (getpagesize * u32 (page + 1)) then ThrowError uncaught ec_protect_stack_failed else Ret tt);
  Ret (mprotect ok (protect_page_addr top) (u32 (getpagesize * page)) true m).
Definition unprotect_stack (ok : bool) (top page : Z) (m : mem) : mem :=
  if page =? 0 then m else snd (mprotect ok (protect_page_addr top) (u32 (getpagesize * page)) false m).

(** ** [Context] *)

Record Context : Type := mkContext { stack_ : Z; stack_size_ : Z; protect_page_ : Z }.

(** The constructor.  [addr] is what [malloc] returns, 0 for null; the memory is
    returned also when the constructor throws. *)
Definition Context_new (uncaught getcontext_ok ok : bool) (addr stack_size protect_stack_page : Z) (m : mem) :
    mem * outcome Context :=
  let size := u32 stack_size in
  if negb getcontext_ok then (m, _ ← ThrowError uncaught ec_makecontext_failed; Ret (mkContext 0 size 0)) else
  let m := if addr =? 0 then m else mkMem (<[addr := size]> (allocs m)) (prot m) in
  if protect_stack_page =? 0 then (m, Ret (mkContext addr size 0)) else
  match protect_stack uncaught ok addr size protect_stack_page m with
  | Ret (true, m') => (m', Ret (mkContext addr size protect_stack_page))
  | Ret (false, m') => (m', Ret (mkContext addr size 0))
  | Throw e => (m, Throw e)
  | Undef => (m, Undef)
  | Fuel => (m, Fuel)
  end.

(** The destructor; [ok] is for the [mprotect] of [unprotect_stack]. *)
Definition Context_destroy (ok : bool) (c : Context) (m : mem) : mem :=
  if stack_ c =? 0 then m else
  let m := if protect_page_ c =? 0 then m else unprotect_stack ok (stack_ c) (protect_page_ c) m in
  mkMem (delete (stack_ c) (allocs m)) (prot m).

(** ** Contexts in a program

    Contexts are made and destroyed, and the rest of the program allocates and
    frees; [malloc] returns null or a block apart from the others, within the
    address space.  The option [protect_stack_page] may change at any time but
    stays in the range where its product with the page size fits.  Making a
    guard may fail; taking it away, a call for pages already mapped, does not. *)
Definition apart (addr size : Z) (m : mem) : Prop :=
  0 < addr /\ 0 <= size /\ addr + size < 2 ^ 64 /\ allocs m !! addr = None /\
  forall a s, allocs m !! a = Some s -> addr + size <= a \/ a + s <= addr.

Inductive stack_step : list Context * mem -> list Context * mem -> Prop :=
| k_new live m gok ok addr size page m' c :
    addr = 0 \/ apart addr (u32 size) m -> 0 <= page -> getpagesize * (page + 1) < 2 ^ 32 ->
    Context_new false gok ok addr size page m = (m', Ret c) -> stack_step (live, m) (c :: live, m')
| k_throw live m gok ok addr size page m' e :
    addr = 0 \/ apart addr (u32 size) m -> 0 <= page -> getpagesize * (page + 1) < 2 ^ 32 ->
    Context_new false gok ok addr size page m = (m', Throw e) -> stack_step (live, m) (live, m')
| k_delete live live' m c : live ≡ₚ c :: live' -> stack_step (live, m) (live', Context_destroy true c m)
| k_alloc live m addr size : apart addr size m -> stack_step (live, m) (live, mkMem (<[addr := size]> (allocs m)) (prot m))
| k_free live m addr : Forall (fun c => stack_ c <> addr) live -> stack_step (live, m) (live, mkMem (delete addr (allocs m)) (prot m)).

(** The guard of a context: its first byte, and its bytes. *)
Definition guard_start (c : Context) : Z := protect_page_addr (stack_ c).
Definition guard_end (c : Context) : Z := guard_start c + getpagesize * protect_page_ c.
Definition guarded (c : Context) : Prop := stack_ c <> 0 /\ protect_page_ c <> 0.

Record stacks_ok (s : list Context * mem) : Prop := {
  so_range a sz' : allocs s.2 !! a = Some sz' -> 0 < a /\ 0 <= sz' /\ a + sz' < 2 ^ 64;
  so_apart a b sa sb : allocs s.2 !! a = Some sa -> allocs s.2 !! b = Some sb -> a <> b -> a + sa <= b \/ b + sb <= a;
  so_blocks c : c ∈ s.1 -> stack_ c <> 0 -> allocs s.2 !! stack_ c = Some (stack_size_ c);
  so_distinct : NoDup (filter (fun a => a <> 0) (stack_ <$> s.1));
  so_guard c : c ∈ s.1 -> 0 <= protect_page_ c /\ getpagesize * (protect_page_ c + 1) < 2 ^ 32 /\
    (protect_page_ c <> 0 -> stack_ c <> 0 /\ getpagesize * (protect_page_ c + 1) < stack_size_ c);
  so_prot pg : pg ∈ prot s.2 <-> exists c, c ∈ s.1 /\ guarded c /\ guard_start c <= getpagesize * pg < guard_end c }.
End Stacks.

(** ** Pages of 4096 bytes *)

Lemma page_set_spec n : forall first pg, pg ∈ page_set first n <-> first <= pg < first + Z.of_nat n.
Proof.
  induction n as [|n IH]; intros first pg; cbn [page_set]; [set_solver by lia|].
  rewrite elem_of_union, elem_of_singleton, IH. lia.
Qed.

Lemma land_page a : Z.land a 0xfff = a mod 4096.
Proof. change 0xfff with (Z.ones 12). rewrite Z.land_ones by lia. done. Qed.
Lemma ldiff_page a : Z.ldiff a 0xfff = a / 4096 * 4096.
Proof. change 0xfff with (Z.ones 12). rewrite Z.ldiff_ones_r, Z.shiftl_mul_pow2, Z.shiftr_div_pow2 by lia. done. Qed.

(** The guard begins at the first page boundary of the block. *)
Lemma align_spec top : 0 < top -> top + 4096 < 2 ^ 64 ->
  protect_page_addr top mod 4096 = 0 /\ top <= protect_page_addr top < top + 4096.
Proof.
  intros H0 H1. unfold protect_page_addr. rewrite land_page, ldiff_page. pose proof (Z.div_mod top 4096 ltac:(lia)).
  pose proof (Z.mod_pos_bound top 4096 ltac:(lia)). destruct (top mod 4096 =? 0) eqn:E; zbool; [lia|].
  rewrite u64_small by lia. split; [|lia]. replace (_ + _) with ((top / 4096 + 1) * 4096) by lia. apply Z.mod_mul. lia.
Qed.

Lemma pages_of_spec addr page pg : addr mod 4096 = 0 -> 0 <= page ->
  pg ∈ pages_of 4096 addr (4096 * page) <-> addr <= 4096 * pg < addr + 4096 * page.
Proof.
  intros Ha Hp. unfold pages_of. rewrite page_set_spec. pose proof (Z.div_mod addr 4096 ltac:(lia)).
  replace ((addr + 4096 * page + 4096 - 1) / 4096) with (addr / 4096 + page); [lia|].
  apply (Z.div_unique _ _ _ 4095); lia.
Qed.

(** A guard that was set is inside of its block, with room behind it. *)
Lemma guard_inside c : 0 < stack_ c -> 0 <= protect_page_ c -> 4096 * (protect_page_ c + 1) < stack_size_ c ->
  stack_ c + stack_size_ c < 2 ^ 64 ->
  guard_start c mod 4096 = 0 /\ stack_ c <= guard_start c < stack_ c + 4096 /\ guard_end 4096 c < stack_ c + stack_size_ c.
Proof.
  intros H0 Hp Hs He. destruct (align_spec (stack_ c)) as (A1 & A2); [done|lia|]. unfold guard_end, guard_start. lia.
Qed.

(** What the constructor leaves behind. *)
Inductive made (addr size page : Z) (m : mem) : mem -> Context -> Prop :=
| made_null : addr = 0 -> made addr size page m m (mkContext 0 size 0)
| made_plain : addr <> 0 -> made addr size page m (mkMem (<[addr := size]> (allocs m)) (prot m)) (mkContext addr size 0)
| made_guarded : addr <> 0 -> page <> 0 -> 4096 * (page + 1) < size ->
    made addr size page m
      (mkMem (<[addr := size]> (allocs m)) (prot m ∪ pages_of 4096 (protect_page_addr addr) (4096 * page))) (mkContext addr size page).

Lemma Context_new_made gok ok addr size page m m' c : 0 <= page -> 4096 * (page + 1) < 2 ^ 32 ->
  Context_new 4096 false gok ok addr size page m = (m', Ret c) -> made addr (u32 size) page m m' c.
Proof.
  intros Hp Hb. unfold Context_new. destruct gok; cbn [negb]; [|done].
  assert (forall m0 c0, (m0, Ret c0) = (m', Ret c) -> m0 = (if addr =? 0 then m else mkMem (<[addr := u32 size]> (allocs m)) (prot m)) ->
    c0 = mkContext addr (u32 size) 0 -> made addr (u32 size) page m m' c) as Hplain.
  { intros m0 c0 [= <- <-] -> ->. destruct (addr =? 0) eqn:E; zbool; [subst; by apply made_null|by apply made_plain]. }
  destruct (page =? 0) eqn:E0; [intros H; by eapply Hplain|]. zbool. unfold protect_stack. rewrite (proj2 (Z.eqb_neq page 0)) by done.
  rewrite (u32_small (page + 1)), (u32_small (4096 * (page + 1))), (u32_small (4096 * page)) by lia.
  destruct (_ <=? _) eqn:Es; cbn [mbind outcome_bind ThrowError]; [done|]. zbool. unfold mprotect.
  destruct (_ || negb ok) eqn:Em; intros H; [by eapply Hplain|]. apply orb_false_iff in Em as [Em _]. apply orb_false_iff in Em as [Em _]. zbool.
  destruct (addr =? 0) eqn:Ea; zbool.
  - subst addr. by destruct Em.
  - injection H as <- <-. cbn. by apply made_guarded.
Qed.

Lemma Context_new_throws gok ok addr size page m m' e :
  Context_new 4096 false gok ok addr size page m = (m', Throw e) ->
  m' = m \/ addr <> 0 /\ m' = mkMem (<[addr := u32 size]> (allocs m)) (prot m).
Proof.
  unfold Context_new. destruct gok; cbn [negb]; [|intros [= <- _]; by left].
  destruct (page =? 0); [done|]. destruct (protect_stack _ _ _ _ _ _ _) as [[[] ?]|?| |]; try done.
  intros [= <- _]. destruct (addr =? 0) eqn:E; zbool; [by left|by right].
Qed.

(** ** The invariant holds *)

Definition bump_alloc (a sz' : Z) (m : mem) : mem := mkMem (<[a := sz']> (allocs m)) (prot m).

(** A block more, which belongs to no context. *)
Lemma alloc_ok live m addr size : stacks_ok 4096 (live, m) -> apart addr size m -> stacks_ok 4096 (live, bump_alloc addr size m).
Proof.
  intros [H1 H2 H3 H4 H5 H6] (A1 & A2 & A3 & A4 & A5). constructor; cbn in *; try done.
  - intros a s. rewrite lookup_insert_Some. intros [[<- <-]|[_ Ha]]; [done|by apply H1].
  - intros a b sa sb. rewrite !lookup_insert_Some. intros [[<- <-]|[_ Ha]] [[<- <-]|[_ Hb]] Hne; [done| | |by eapply H2].
    + destruct (A5 _ _ Hb); lia.
    + destruct (A5 _ _ Ha); lia.
  - intros c Hc Hz. rewrite lookup_insert_ne; [by apply H3|]. intros E. specialize (H3 c Hc Hz). congruence.
Qed.

(** The first byte of a guard page of a context is in the context's block. *)
Lemma guard_in_block live m c x : stacks_ok 4096 (live, m) -> c ∈ live -> guarded c -> guard_start c <= x < guard_end 4096 c ->
  allocs m !! stack_ c = Some (stack_size_ c) /\ stack_ c <= x < stack_ c + stack_size_ c.
Proof.
  intros H Hc [Hz Hp] Hx. pose proof (so_blocks _ _ H c Hc Hz) as Hb. cbn in Hb. destruct (so_range _ _ H _ _ Hb) as (R1 & R2 & R3).
  destruct (so_guard _ _ H c Hc) as (G1 & G2 & G3). destruct (G3 Hp) as [_ G4].
  destruct (guard_inside c) as (_ & I1 & I2); [done..|]. split; [done|lia].
Qed.

Lemma cons_ok live m m' c addr size page : stacks_ok 4096 (live, m) -> addr = 0 \/ apart addr size m ->
  0 <= page -> 4096 * (page + 1) < 2 ^ 32 -> made addr size page m m' c -> stacks_ok 4096 (c :: live, m').
Proof.
  intros H Ha Hp Hb Hm.
  assert (forall c0, stack_ c0 = addr -> stack_size_ c0 = size -> addr <> 0 ->
    (forall x, x ∈ c0 :: live -> stack_ x <> 0 -> allocs (bump_alloc addr size m) !! stack_ x = Some (stack_size_ x)) /\
    NoDup (filter (fun a => a <> 0) (stack_ <$> c0 :: live))) as Hcons.
  { intros c0 E1 E2 Hz. destruct Ha as [?|Ha]; [done|]. pose proof (alloc_ok live m addr size H Ha) as H'. split.
    - intros x Hx Hxz. apply elem_of_cons in Hx as [->|Hx]; [|by apply (so_blocks _ _ H' x)]. cbn. rewrite E1, E2. apply lookup_insert_eq.
    - rewrite fmap_cons, filter_cons_True by (by rewrite E1). constructor; [|apply H]. intros Hin.
      apply list_elem_of_filter in Hin as [_ Hin]. apply list_elem_of_fmap in Hin as (x & Ex & Hx). rewrite E1 in Ex. symmetry in Ex.
      pose proof (so_blocks _ _ H x Hx ltac:(lia)) as Hb'. cbn in Hb'. rewrite Ex in Hb'.
      destruct Ha as (_ & _ & _ & Ha & _). congruence. }
  destruct Hm as [E|Hz|Hz Hpz Hs].
  - destruct H as [H1 H2 H3 H4 H5 H6]. constructor; cbn in *; try done.
    + intros x. rewrite elem_of_cons. intros [->|Hx]; [done|by apply H3].
    + intros x. rewrite elem_of_cons. intros [->|Hx]; [cbn; lia|by apply H5].
    + intros pg. rewrite H6. split; intros (x & Hx & Hg & Hr); exists x; rewrite elem_of_cons in *; [naive_solver|].
      destruct Hx as [->|Hx]; [by destruct Hg|done].
  - destruct (Hcons (mkContext addr size 0) eq_refl eq_refl Hz) as [C1 C2]. destruct Ha as [?|Ha]; [done|].
    destruct (alloc_ok live m addr size H Ha) as [H1 H2 _ _ H5 H6]. constructor; try done.
    + intros x. cbn [fst]. rewrite elem_of_cons. intros [->|Hx]; [cbn; lia|by apply H5].
    + intros pg. etransitivity; [apply (H6 pg)|]. cbn [fst].
      split; intros (x & Hx & Hg & Hr); exists x; rewrite elem_of_cons in *; [naive_solver|].
      destruct Hx as [->|Hx]; [by destruct Hg|done].
  - destruct (Hcons (mkContext addr size page) eq_refl eq_refl Hz) as [C1 C2]. destruct Ha as [?|Ha]; [done|].
    pose proof (alloc_ok live m addr size H Ha) as [H1 H2 _ _ H5 H6]. destruct Ha as (A1 & A2 & A3 & _).
    constructor; try done.
    + intros x. cbn [fst]. rewrite elem_of_cons. intros [->|Hx]; [cbn; split_and!; [done|done|by split]|by apply H5].
    + intros pg. cbn [snd prot fst]. rewrite elem_of_union. destruct (align_spec addr) as (B1 & _); [lia|lia|].
      rewrite (pages_of_spec _ page pg B1 Hp). pose proof (H6 pg) as H6'. cbn in H6'. rewrite H6'.
      setoid_rewrite elem_of_cons. split.
      * intros [(x & Hx & Hg & Hr)|Hr]; [by exists x; auto|]. exists (mkContext addr size page). unfold guard_end, guard_start. cbn.
        split; [by left|]. by split.
      * intros (x & [->|Hx] & Hg & Hr); [by right|left; by exists x].
Qed.

(** Removing a context: its guard goes, and no other. *)
Lemma context_delete_ok live live' m c : stacks_ok 4096 (live, m) -> live ≡ₚ c :: live' -> stacks_ok 4096 (live', Context_destroy 4096 true c m).
Proof.
  intros H Hl. pose proof H as [H1 H2 H3 H4 H5 H6]. cbn in *.
  assert (c ∈ live) as Hc by (rewrite Hl; left). assert (forall x, x ∈ live' -> x ∈ live) as Hsub by (intros x Hx; rewrite Hl; by right).
  assert (NoDup (filter (fun a => a <> 0) (stack_ <$> c :: live'))) as Hd.
  { by rewrite <- Hl. }
  unfold Context_destroy. destruct (stack_ c =? 0) eqn:Ez; zbool.
  { rewrite fmap_cons, filter_cons_False in Hd by (intros Hn; by apply Hn). constructor; cbn; try done; [by intros x Hx; apply H3, Hsub|by intros x Hx; apply H5, Hsub|].
    intros pg. rewrite H6. setoid_rewrite Hl. setoid_rewrite elem_of_cons. split; [|naive_solver].
    intros (x & [->|Hx] & Hg & Hr); [by destruct Hg|by exists x]. }
  assert (forall x, x ∈ live' -> stack_ x <> 0 -> stack_ x <> stack_ c) as Hne.
  { intros x Hx Hxz E. rewrite fmap_cons, filter_cons_True in Hd by done. apply NoDup_cons in Hd as [Hd _].
    apply Hd, list_elem_of_filter. split; [done|]. rewrite <- E. by apply list_elem_of_fmap_2. }
  assert (forall pr, (forall pg, pg ∈ pr <-> pg ∈ prot m /\ ~ (guarded c /\ guard_start c <= 4096 * pg < guard_end 4096 c)) ->
    stacks_ok 4096 (live', mkMem (delete (stack_ c) (allocs m)) pr)) as Hdel.
  { intros pr Hpr. constructor; cbn.
    - intros a s. rewrite lookup_delete_Some. intros [_ Ha]. by apply H1.
    - intros a b sa sb. rewrite !lookup_delete_Some. intros [_ Ha] [_ Hb]. by apply H2.
    - intros x Hx Hxz. rewrite lookup_delete_ne by (apply not_eq_sym, Hne; done). by apply H3; [apply Hsub|].
    - rewrite fmap_cons, filter_cons_True in Hd by done. by apply NoDup_cons in Hd as [_ Hd].
    - intros x Hx. by apply H5, Hsub.
    - intros pg. rewrite Hpr, H6. setoid_rewrite Hl. setoid_rewrite elem_of_cons. split.
      + intros [(x & [->|Hx] & Hg & Hr) Hn]; [by destruct Hn|by exists x].
      + intros (x & Hx & Hg & Hr). split; [exists x; by auto|]. intros [Hgc Hrc].
        destruct (guard_in_block live m x (4096 * pg) H (Hsub x Hx) Hg Hr) as [B1 R1].
        destruct (guard_in_block live m c (4096 * pg) H Hc Hgc Hrc) as [B2 R2].
        destruct (H2 _ _ _ _ B1 B2 (Hne x Hx (proj1 Hg))); lia. }
  destruct (protect_page_ c =? 0) eqn:Ep; zbool.
  { apply Hdel. intros pg. split; [|naive_solver]. intros Hpg. split; [done|]. by intros [[_ ?] _]. }
  destruct (H5 c Hc) as (G1 & G2 & G3). destruct (G3 Ep) as [_ G4]. destruct (H1 _ _ (H3 c Hc Ez)) as (R1 & R2 & R3).
  destruct (guard_inside c R1 G1 G4 R3) as (I1 & I2 & I3).
  unfold unprotect_stack, mprotect. rewrite (proj2 (Z.eqb_neq (protect_page_ c) 0)), u32_small by lia. fold (guard_start c).
  rewrite (proj2 (Z.eqb_neq (guard_start c) 0)), I1 by lia. cbn [Z.eqb negb orb snd allocs prot].
  apply Hdel. intros pg. rewrite elem_of_difference, (pages_of_spec _ _ _ I1 G1). fold (guard_end 4096 c). unfold guarded. naive_solver.
Qed.

Lemma free_ok live m addr : stacks_ok 4096 (live, m) -> Forall (fun c => stack_ c <> addr) live ->
  stacks_ok 4096 (live, mkMem (delete addr (allocs m)) (prot m)).
Proof.
  intros [H1 H2 H3 H4 H5 H6] Hf. rewrite Forall_forall in Hf. constructor; cbn in *; try done.
  - intros a s. rewrite lookup_delete_Some. intros [_ Ha]. by apply H1.
  - intros a b sa sb. rewrite !lookup_delete_Some. intros [_ Ha] [_ Hb]. by apply H2.
  - intros c Hc Hz. rewrite lookup_delete_ne by (apply not_eq_sym, Hf; done). by apply H3.
Qed.

Lemma stack_step_ok s s' : stack_step 4096 s s' -> stacks_ok 4096 s -> stacks_ok 4096 s'.
Proof.
  intros Hs H. destruct Hs as [live m gok ok addr size page m' c Ha Hp Hb E|live m gok ok addr size page m' e Ha Hp Hb E
                              |live live' m c Hl|live m addr size Ha|live m addr Hf].
  - eapply cons_ok; [exact H|exact Ha|exact Hp|exact Hb|]. by eapply Context_new_made.
  - destruct (Context_new_throws _ _ _ _ _ _ _ _ E) as [->|[Hz ->]]; [done|]. destruct Ha as [?|Ha]; [done|]. by apply alloc_ok.
  - by eapply context_delete_ok.
  - by apply alloc_ok.
  - by apply free_ok.
Qed.

Lemma stacks_new_ok : stacks_ok 4096 ([], mem_new).
Proof.
  constructor; cbn; try done; try constructor; try (by intros ? Hc; apply not_elem_of_nil in Hc); try set_solver.
Qed.

(** C26: Guard pages are safe, for pages of 4096 bytes.  However contexts are made, fail to be made and are
    destroyed, and whatever the rest of the program allocates and frees:
    (1) the pages that cannot be accessed are exactly the guards of the contexts
    that live;
    (2) the guard of a context is page-aligned, lies inside of its own stack,
    begins within a page of the stack's low end, and leaves room above;
    (3) so every byte of any other block, and every byte that is free for
    [malloc], can be accessed. *)
Theorem guard_pages live m : star (stack_step 4096) ([], mem_new) (live, m) ->
  (forall pg, pg ∈ prot m <-> exists c, c ∈ live /\ guarded c /\ guard_start c <= 4096 * pg < guard_end 4096 c) /\
  (forall c, c ∈ live -> guarded c ->
     allocs m !! stack_ c = Some (stack_size_ c) /\ guard_start c mod 4096 = 0 /\
     stack_ c <= guard_start c < stack_ c + 4096 /\ guard_end 4096 c < stack_ c + stack_size_ c) /\
  (forall x, (x / 4096) ∈ prot m -> exists c, c ∈ live /\ guarded c /\ stack_ c <= x < stack_ c + stack_size_ c).
Proof.
  intros Hr. assert (stacks_ok 4096 (live, m)) as H.
  { eapply star_invariant; [|exact Hr|apply stacks_new_ok]. intros a b. apply stack_step_ok. }
  assert (forall c, c ∈ live -> guarded c -> allocs m !! stack_ c = Some (stack_size_ c) /\ guard_start c mod 4096 = 0 /\
     stack_ c <= guard_start c < stack_ c + 4096 /\ guard_end 4096 c < stack_ c + stack_size_ c) as H2.
  { intros c Hc [Hz Hp]. pose proof (so_blocks _ _ H c Hc Hz) as Hb. split; [done|].
    destruct (so_range _ _ H _ _ Hb) as (R1 & R2 & R3). destruct (so_guard _ _ H c Hc) as (G1 & _ & G3).
    apply guard_inside; [done|done|by apply G3|done]. }
  split; [apply (so_prot _ _ H)|split; [done|]]. intros x Hx. apply (so_prot _ _ H) in Hx as (c & Hc & Hg & Hr').
  exists c. split; [done|split; [done|]]. destruct (H2 c Hc Hg) as (_ & M & I1 & I2).
  pose proof (Z.div_mod x 4096 ltac:(lia)). pose proof (Z.mod_pos_bound x 4096 ltac:(lia)).
  assert (guard_end 4096 c mod 4096 = 0) as Me.
  { unfold guard_end. rewrite Z.mul_comm, Z.mod_add by lia. done. }
  pose proof (Z.div_mod (guard_end 4096 c) 4096 ltac:(lia)). lia.
Qed.

(** A stack of 1 MiB that is not on a page boundary, with one guard page. *)
Definition demo_context : Context := mkContext 5000 1048576 1.
Lemma guard_pages_witness : exists m, star (stack_step 4096) ([], mem_new) ([demo_context], m) /\ 2 ∈ prot m /\ 1 ∉ prot m.
Proof.
  eexists. assert (star (stack_step 4096) ([], mem_new) ([demo_context],
    mkMem (<[5000 := 1048576]> ∅) (∅ ∪ pages_of 4096 (protect_page_addr 5000) (u32 (4096 * 1))))) as Hr.
  { eapply star_step; [|apply star_refl]. apply (k_new _ [] mem_new true true 5000 1048576 1); [|lia|lia|reflexivity].
    right. split; [lia|split; [vm_compute; discriminate|split; [vm_compute; reflexivity|split; [reflexivity|]]]]. intros a s Ha. done. }
  split; [exact Hr|]. destruct (guard_pages _ _ Hr) as (H1 & _ & H3). split.
  - apply H1. exists demo_context. split; [left|]. split; [by split|]. vm_compute. split; [discriminate|reflexivity].
  - intros Hin. apply H1 in Hin as (c & Hc & _ & Hr'). apply list_elem_of_singleton in Hc as ->. vm_compute in Hr'. by destruct Hr' as [Hr' _].
Defined.

(** ** Behaviour that was not intended *)

(** A stack that is too small for its guard is never freed: the exception leaves
    the constructor, so that no destructor runs. *)
Lemma stack_leaks ok addr size page m : addr <> 0 -> 0 < page -> 4096 * (page + 1) < 2 ^ 32 -> 0 <= size <= 4096 * (page + 1) ->
  exists m', Context_new 4096 false true ok addr size page m = (m', Throw (ExnSystem (co_code ec_protect_stack_failed))) /\
    allocs m' !! addr = Some size.
Proof.
  intros Ha Hp Hb Hs. unfold Context_new, protect_stack. cbn [negb]. rewrite !(proj2 (Z.eqb_neq _ _)) by lia.
  rewrite (u32_small (page + 1)), (u32_small (4096 * (page + 1))), (u32_small size) by lia.
  rewrite (proj2 (Z.leb_le _ _)) by lia. cbn. eexists. split; [reflexivity|]. apply lookup_insert_eq.
Qed.

(** [malloc]'s failure goes unnoticed: the context has no stack. *)
Lemma null_stack_unnoticed ok size page m : 0 <= page -> 4096 * (page + 1) < u32 size ->
  Context_new 4096 false true ok 0 size page m = (m, Ret (mkContext 0 (u32 size) 0)).
Proof.
  intros Hp Hs. pose proof (u32_range size). unfold Context_new, protect_stack, mprotect. cbn [negb Z.eqb].
  destruct (page =? 0) eqn:E; [done|]. rewrite (u32_small (page + 1)), (u32_small (4096 * (page + 1))) by lia.
  rewrite (proj2 (Z.leb_gt _ _)) by lia. done.
Qed.

(** A size from 2^32 on is cut to 32 bits. *)
Lemma stack_size_truncated ok addr m : addr <> 0 ->
  exists m', Context_new 4096 false true ok addr (2 ^ 32) 0 m = (m', Ret (mkContext addr 0 0)) /\ allocs m' !! addr = Some 0.
Proof.
  intros Ha. unfold Context_new. cbn [negb]. rewrite (proj2 (Z.eqb_neq addr 0)) by done. eexists. split; [reflexivity|]. apply lookup_insert_eq.
Qed.

(** With 2^20 - 1 pages the product wraps to 0: any stack passes the test, and
    nearly 4 GiB from its start on are protected. *)
Lemma guard_size_wraps addr m : addr <> 0 -> addr mod 4096 = 0 ->
  exists m', Context_new 4096 false true true addr 8192 (2 ^ 20 - 1) m = (m', Ret (mkContext addr 8192 (2 ^ 20 - 1))) /\
    addr / 4096 + 1000000 ∈ prot m'.
Proof.
  intros Ha Hm. unfold Context_new, protect_stack, mprotect. cbn [negb]. rewrite (proj2 (Z.eqb_neq addr 0)) by done.
  change (u32 8192 <=? u32 (4096 * u32 (2 ^ 20 - 1 + 1))) with false.
  change (2 ^ 20 - 1 =? 0) with false. cbn [mbind outcome_bind]. unfold protect_page_addr. rewrite land_page, Hm. cbn [Z.eqb].
  rewrite (proj2 (Z.eqb_neq addr 0)), Hm by done. cbn [Z.eqb negb orb]. eexists. split; [reflexivity|]. cbn [prot].
  apply elem_of_union_r. change (u32 (4096 * (2 ^ 20 - 1))) with (4096 * 1048575). apply pages_of_spec; [done|lia|].
  pose proof (Z.div_mod addr 4096 ltac:(lia)). lia.
Qed.

(** On a system with larger pages the rounding to 4096 bytes misses the page
    boundaries, and a stack there has no guard. *)
Lemma large_pages_unguarded addr size page ok m : protect_page_addr addr mod 65536 <> 0 -> 65536 * (page + 1) < 2 ^ 32 ->
  0 <= page -> 65536 * (page + 1) < size -> protect_stack 65536 false ok addr size page m = Ret (false, m).
Proof.
  intros Ha Hb Hp Hs. unfold protect_stack, mprotect. destruct (page =? 0); [done|].
  rewrite (u32_small (page + 1)), (u32_small (65536 * (page + 1))) by lia. rewrite (proj2 (Z.leb_gt _ _)) by lia. cbn.
  rewrite (proj2 (Z.eqb_neq (protect_page_addr addr mod 65536) 0)) by done. cbn. by rewrite orb_true_r.
Qed.

(** ** Switching

    What a thread executes is a point of its own scheduler loop or of a task; a
    point counts how far that one has come.  [tls_context] is the thread-local
    context, [ctx_] the context of each task that is not running. *)
Inductive exec : Type := OSched (th : nat) | OTask (t : nat).
#[global] Instance exec_eq_dec : EqDecision exec.
Proof. solve_decision. Defined.
Abbreviation point := (exec * nat)%type.

Record machine : Type := mkMachine { tls_context : gmap nat point; ctx_ : gmap nat point; cpu : gmap nat point }.

(** [makecontext] with [ucontext_func]. *)
Definition make_ctx (t : nat) (s : machine) : machine := mkMachine (tls_context s) (<[t := (OTask t, 0%nat)]> (ctx_ s)) (cpu s).
(** [swapcontext] saves where the thread is and goes on where the other context
    left; [ok] is whether it succeeds.  [None]: the other context was never set. *)
Definition SwapIn (ok : bool) (th t : nat) (s : machine) : option (bool * machine) :=
  if negb ok then Some (false, s) else
  here ← cpu s !! th; there ← ctx_ s !! t;
  Some (true, mkMachine (<[th := here]> (tls_context s)) (ctx_ s) (<[th := there]> (cpu s))).
Definition SwapOut (ok : bool) (th t : nat) (s : machine) : option (bool * machine) :=
  if negb ok then Some (false, s) else
  here ← cpu s !! th; there ← tls_context s !! th;
  Some (true, mkMachine (tls_context s) (<[t := here]> (ctx_ s)) (<[th := there]> (cpu s))).

Definition running (t : nat) (s : machine) : Prop := exists th n, cpu s !! th = Some (OTask t, n).

(** [last] is how far the loop of each thread and each task have come.  A thread
    switches to a task that was made and that no thread runs, which is for the
    scheduler to provide ([popped_not_running] below); the task that runs on a
    thread switches back there, whichever thread it ran on before. *)
Inductive machine_step : machine * (exec -> nat) -> machine * (exec -> nat) -> Prop :=
| m_thread s last th : cpu s !! th = None ->
    machine_step (s, last) (mkMachine (tls_context s) (ctx_ s) (<[th := (OSched th, last (OSched th))]> (cpu s)), last)
| m_make s last t : ctx_ s !! t = None -> ~ running t s -> last (OTask t) = 0%nat -> machine_step (s, last) (make_ctx t s, last)
| m_work s last th e n : cpu s !! th = Some (e, n) ->
    machine_step (s, last) (mkMachine (tls_context s) (ctx_ s) (<[th := (e, S n)]> (cpu s)),
                            fun x => if decide (x = e) then S n else last x)
| m_in s last ok th t n b s' : cpu s !! th = Some (OSched th, n) -> is_Some (ctx_ s !! t) -> ~ running t s ->
    SwapIn ok th t s = Some (b, s') -> machine_step (s, last) (s', last)
| m_out s last ok th t n b s' : cpu s !! th = Some (OTask t, n) -> SwapOut ok th t s = Some (b, s') ->
    machine_step (s, last) (s', last).

Record machine_ok (sl : machine * (exec -> nat)) : Prop := {
  mo_cpu th e n : cpu sl.1 !! th = Some (e, n) -> n = sl.2 e /\
    (e = OSched th \/ exists t, e = OTask t /\ tls_context sl.1 !! th = Some (OSched th, sl.2 (OSched th)));
  mo_once th th' t n n' : cpu sl.1 !! th = Some (OTask t, n) -> cpu sl.1 !! th' = Some (OTask t, n') -> th = th';
  mo_ctx t p : ctx_ sl.1 !! t = Some p -> ~ running t sl.1 -> p = (OTask t, sl.2 (OTask t)) }.

(** A thread that works moves its own point only. *)
Lemma work_ok s last th e n : machine_ok (s, last) -> cpu s !! th = Some (e, n) ->
  machine_ok (mkMachine (tls_context s) (ctx_ s) (<[th := (e, S n)]> (cpu s)), fun x => if decide (x = e) then S n else last x).
Proof.
  intros [H1 H2 H3] Hth. cbn in *.
  destruct (H1 _ _ _ Hth) as [Hn He]. assert (forall th' e', th' <> th -> forall n', cpu s !! th' = Some (e', n') -> e' <> e) as Hne.
  { intros th' e' Hd n' Hc ->. destruct (H1 _ _ _ Hc) as [_ [He'|(t & -> & _)]]; [|by apply Hd; eapply H2].
    subst e. destruct He as [[= He]|(t & [=] & _)]. congruence. }
  constructor; cbn.
  + intros th' e' n'. rewrite lookup_insert_Some. intros [[<- [= <- <-]]|[Hd Hc]].
    * rewrite decide_True by done. split; [done|]. destruct He as [->|(t & -> & Ht)]; [by left|right].
      exists t. split; [done|]. by rewrite decide_False.
    * rewrite decide_False by (eapply Hne; [apply not_eq_sym|]; done). destruct (H1 _ _ _ Hc) as [-> [->|(t & -> & Ht)]]; [by auto|].
      split; [done|right]. exists t. split; [done|]. rewrite decide_False; [done|]. intros <-.
      destruct He as [[= He]|(t' & [=] & _)]. by subst.
  + assert (forall a u m, <[th := (e, S n)]> (cpu s) !! a = Some (OTask u, m) -> exists m0, cpu s !! a = Some (OTask u, m0)) as Hold.
    { intros a u m. rewrite lookup_insert_Some. intros [[<- [= -> _]]|[_ Ha]]; by eexists. }
    intros a b t m m' Ha Hb. apply Hold in Ha as [? Ha]. apply Hold in Hb as [? Hb]. by eapply H2.
  + intros t p Hp Hr. assert (~ running t s) as Hr0.
    { intros (a & m & Ha). apply Hr. destruct (decide (a = th)) as [->|Hd].
      - rewrite Hth in Ha. injection Ha as -> ->. exists th, (S m). cbn. by rewrite lookup_insert_eq.
      - exists a, m. cbn. by rewrite lookup_insert_ne. }
    rewrite decide_False; [by apply H3|]. intros <-. apply Hr0. by exists th, n.
Qed.

Lemma machine_step_ok sl sl' : machine_step sl sl' -> machine_ok sl -> machine_ok sl'.
Proof.
  intros Hs [H1 H2 H3]. destruct Hs as [s last th Hth|s last t Ht Hr Hl|s last th e n Hth|s last ok th t n b s' Hth [p Hp] Hr E|s last ok th t n b s' Hth E];
    cbn in *.
  - constructor; cbn.
    + intros th' e n. rewrite lookup_insert_Some. intros [[<- [= <- <-]]|[_ Hc]]; [by auto|by apply H1].
    + intros a b t n n'. rewrite !lookup_insert_Some. intros [[<- [=]]|[_ Ha]] [[<- [=]]|[_ Hb]]. by eapply H2.
    + intros t p Hp Hr. apply H3; [done|]. intros (a & n & Ha). apply Hr. exists a, n. cbn. rewrite lookup_insert_ne; [exact Ha|intros ->; cbn in Ha; congruence].
  - constructor; cbn; [done|done|]. intros t' p. rewrite lookup_insert_Some. intros [[<- <-]|[_ Hp]] Hr'; [by rewrite Hl|by apply H3].
  - by apply work_ok.
  - unfold SwapIn in E. destruct ok; cbn in E; [|by injection E as <- <-]. rewrite Hth, Hp in E. cbn in E. injection E as <- <-.
    pose proof (H3 _ _ Hp Hr) as ->. destruct (H1 _ _ _ Hth) as [-> _]. constructor; cbn.
    + intros th' e n'. rewrite lookup_insert_Some. intros [[<- [= <- <-]]|[Hd Hc]].
      * split; [done|right]. exists t. by rewrite lookup_insert_eq.
      * rewrite lookup_insert_ne by done. by apply H1.
    + intros a b u m m'. rewrite !lookup_insert_Some. intros [[Ea Pa]|[Ha Ca]] [[Eb Pb]|[Hb Cb]]; [congruence| | |by eapply H2].
      * injection Pa as <- _. destruct Hr. by exists b, m'.
      * injection Pb as <- _. destruct Hr. by exists a, m.
    + intros u p Hu Hru. apply H3; [done|]. intros (a & m & Ha). apply Hru. exists a, m. cbn. rewrite lookup_insert_ne; [exact Ha|intros ->; cbn in Ha; congruence].
  - unfold SwapOut in E. destruct ok; cbn in E; [|by injection E as <- <-]. rewrite Hth in E. cbn in E.
    destruct (H1 _ _ _ Hth) as [-> [[=]|(t' & [= <-] & Ht)]]. rewrite Ht in E. cbn in E. injection E as <- <-. constructor; cbn.
    + intros th' e n'. rewrite lookup_insert_Some. intros [[<- [= <- <-]]|[Hd Hc]]; [by auto|by apply H1].
    + intros a b u m m'. rewrite !lookup_insert_Some. intros [[<- [=]]|[Ha Ca]] [[<- [=]]|[Hb Cb]]. by eapply H2.
    + intros u p. rewrite lookup_insert_Some. intros [[<- <-]|[Hd Hu]] Hru; [done|]. apply H3; [done|].
      intros (a & m & Ha). apply Hru. exists a, m. cbn. rewrite lookup_insert_ne; [exact Ha|intros ->; cbn in Ha; congruence].
Qed.

Definition machine_new : machine * (exec -> nat) := (mkMachine ∅ ∅ ∅, fun _ => 0%nat).
Lemma machine_reachable_ok sl : star machine_step machine_new sl -> machine_ok sl.
Proof.
  intros Hr. eapply star_invariant; [|exact Hr|by constructor]. intros a b. apply machine_step_ok.
Qed.

(** ** Switching under the scheduler

    Which task a thread switches to is decided by the queues.  A task that is
    created is put into a run queue ([ready] holds the tasks of all of them; work
    that is stolen stays in it); [Processer::Run] pops a task, switches to it, and
    when it comes back puts it into the queue again, gives it to a block object,
    the sleepers or the I/O wait list ([parked]), or releases it.  A parked task is
    made runnable at any time.  [in_hand] is the task a thread has popped, and how
    far the turn of the loop is. *)
Inductive turn : Type := Popped | Entered | Left.
Record dispatch : Type := mkDispatch {
  mach : machine; came : exec -> nat; ready : list nat; in_hand : gmap nat (nat * turn); parked : list nat }.
Definition dispatch_new : dispatch := mkDispatch (mkMachine ∅ ∅ ∅) (fun _ => 0%nat) [] ∅ [].

Inductive dispatch_step : dispatch -> dispatch -> Prop :=
| d_thread m last q h pk th : cpu m !! th = None ->
    dispatch_step (mkDispatch m last q h pk)
      (mkDispatch (mkMachine (tls_context m) (ctx_ m) (<[th := (OSched th, last (OSched th))]> (cpu m))) last q h pk)
| d_create m last q h pk t : ctx_ m !! t = None ->
    dispatch_step (mkDispatch m last q h pk) (mkDispatch (make_ctx t m) last (q ++ [t]) h pk)
| d_work m last q h pk th e n : cpu m !! th = Some (e, n) ->
    dispatch_step (mkDispatch m last q h pk)
      (mkDispatch (mkMachine (tls_context m) (ctx_ m) (<[th := (e, S n)]> (cpu m)))
                  (fun x => if decide (x = e) then S n else last x) q h pk)
| d_pop m last q q' h pk th t n : cpu m !! th = Some (OSched th, n) -> h !! th = None -> q ≡ₚ t :: q' ->
    dispatch_step (mkDispatch m last q h pk) (mkDispatch m last q' (<[th := (t, Popped)]> h) pk)
| d_in m last q h pk th t m' : h !! th = Some (t, Popped) -> SwapIn true th t m = Some (true, m') ->
    dispatch_step (mkDispatch m last q h pk) (mkDispatch m' last q (<[th := (t, Entered)]> h) pk)
| d_in_fails m last q h pk th t m' : h !! th = Some (t, Popped) -> SwapIn false th t m = Some (false, m') ->
    dispatch_step (mkDispatch m last q h pk) (mkDispatch m' last q (delete th h) pk)
| d_out m last q h pk th t m' : h !! th = Some (t, Entered) -> SwapOut true th t m = Some (true, m') ->
    dispatch_step (mkDispatch m last q h pk) (mkDispatch m' last q (<[th := (t, Left)]> h) pk)
| d_out_fails m last q h pk th t m' : h !! th = Some (t, Entered) -> SwapOut false th t m = Some (false, m') ->
    dispatch_step (mkDispatch m last q h pk) (mkDispatch m' last q h pk)
| d_again m last q h pk th t : h !! th = Some (t, Left) ->
    dispatch_step (mkDispatch m last q h pk) (mkDispatch m last (q ++ [t]) (delete th h) pk)
| d_park m last q h pk th t : h !! th = Some (t, Left) ->
    dispatch_step (mkDispatch m last q h pk) (mkDispatch m last q (delete th h) (t :: pk))
| d_done m last q h pk th t : h !! th = Some (t, Left) ->
    dispatch_step (mkDispatch m last q h pk) (mkDispatch m last q (delete th h) pk)
| d_wake m last q h pk pk' t : pk ≡ₚ t :: pk' ->
    dispatch_step (mkDispatch m last q h pk) (mkDispatch m last (q ++ [t]) h pk').

(** A task is in one place only: queued, parked or in one hand; it runs exactly
    when the thread that has it has switched to it. *)
Record dispatch_ok (d : dispatch) : Prop := {
  do_machine : machine_ok (mach d, came d);
  do_once : NoDup (ready d ++ parked d);
  do_hand th t u : in_hand d !! th = Some (t, u) -> t ∉ ready d ++ parked d;
  do_one th th' t u u' : in_hand d !! th = Some (t, u) -> in_hand d !! th' = Some (t, u') -> th = th';
  do_runs th t : (exists n, cpu (mach d) !! th = Some (OTask t, n)) <-> in_hand d !! th = Some (t, Entered);
  do_loop th t u : in_hand d !! th = Some (t, u) -> is_Some (cpu (mach d) !! th);
  do_made t : t ∈ ready d ++ parked d \/ (exists th u, in_hand d !! th = Some (t, u)) -> is_Some (ctx_ (mach d) !! t);
  do_fresh t : ctx_ (mach d) !! t = None -> came d (OTask t) = 0%nat }.

(** What the queues guarantee: a task that was popped runs nowhere. *)
Lemma popped_not_running d th t : dispatch_ok d -> in_hand d !! th = Some (t, Popped) -> ~ running t (mach d).
Proof.
  intros Hok Hh (th' & n & Hc). assert (in_hand d !! th' = Some (t, Entered)) as He by (apply (do_runs _ Hok); by exists n).
  pose proof (do_one _ Hok _ _ _ _ _ Hh He) as ->. congruence.
Qed.
Lemma new_not_running d t : dispatch_ok d -> ctx_ (mach d) !! t = None -> ~ running t (mach d).
Proof.
  intros Hok Hn (th & n & Hc). destruct (do_made _ Hok t) as [x Hx]; [|congruence]. right. exists th, Entered.
  apply (do_runs _ Hok). by exists n.
Qed.
Lemma hand_loop d th t u : dispatch_ok d -> in_hand d !! th = Some (t, u) -> u <> Entered ->
  exists n, cpu (mach d) !! th = Some (OSched th, n).
Proof.
  intros Hok Hh Hu. destruct (do_loop _ Hok _ _ _ Hh) as [[e n] Hc]. exists n.
  destruct (mo_cpu _ (do_machine _ Hok) _ _ _ Hc) as [_ [->|(t' & -> & _)]]; [done|].
  assert (in_hand d !! th = Some (t', Entered)) by (apply (do_runs _ Hok); by exists n). congruence.
Qed.

Lemma dispatch_new_ok : dispatch_ok dispatch_new.
Proof.
  constructor; cbn.
  - by constructor.
  - constructor.
  - done.
  - done.
  - intros th t. split; [intros [n H]|intros H]; done.
  - done.
  - intros t [H|(th & u & H)]; [by apply not_elem_of_nil in H|done].
  - done.
Qed.

(** The steps of the queues: the task [t] of thread [th] or of the parked ones
    moves; the machine stays. *)
Lemma queue_move_ok m last q h pk q' h' pk' :
  dispatch_ok (mkDispatch m last q h pk) -> NoDup (q' ++ pk') ->
  (forall th t u, h' !! th = Some (t, u) -> t ∉ q' ++ pk' /\ is_Some (cpu m !! th) /\
     ((exists u', h !! th = Some (t, u')) \/ t ∈ q ++ pk /\ h !! th = None)) ->
  (forall th t, h' !! th = Some (t, Entered) <-> h !! th = Some (t, Entered)) ->
  (forall t, t ∈ q' ++ pk' -> t ∈ q ++ pk \/ exists th u, h !! th = Some (t, u)) ->
  (forall th th' t u u', h' !! th = Some (t, u) -> h' !! th' = Some (t, u') -> th = th') ->
  dispatch_ok (mkDispatch m last q' h' pk').
Proof.
  intros [D1 D2 D3 D4 D5 D6 D7 D8] Hn Hh He Hq H1. cbn in *. constructor; cbn; try done.
  - intros th t u Ht. by apply (Hh th t u).
  - intros th t. by rewrite He.
  - intros th t u Ht. by apply (Hh th t u).
  - intros t [Ht|(th & u & Ht)]; apply D7; [by apply Hq|]. destruct (Hh _ _ _ Ht) as (_ & _ & [[u' ?]|[? _]]); [right; by exists th, u'|by left].
Qed.
Lemma dispatch_queue_ok m last q h pk d' :
  dispatch_ok (mkDispatch m last q h pk) ->
  (exists th t n q', cpu m !! th = Some (OSched th, n) /\ h !! th = None /\ q ≡ₚ t :: q' /\
     d' = mkDispatch m last q' (<[th := (t, Popped)]> h) pk) \/
  (exists th t u, h !! th = Some (t, u) /\ u <> Entered /\
     (d' = mkDispatch m last q (delete th h) pk \/ d' = mkDispatch m last (q ++ [t]) (delete th h) pk \/
      d' = mkDispatch m last q (delete th h) (t :: pk))) \/
  (exists t pk', pk ≡ₚ t :: pk' /\ d' = mkDispatch m last (q ++ [t]) h pk') ->
  dispatch_ok d'.
Proof.
  intros Hok Hd. pose proof Hok as [D1 D2 D3 D4 D5 D6 D7 D8]. cbn in *.
  destruct Hd as [(th & t & n & q' & Hc & Hn & Hq & ->)|[(th & t & u & Hh & Hu & Hd)|(t & pk' & Hp & ->)]].
  - rewrite Hq in D2. apply NoDup_cons in D2 as [Hni D2].
    apply (queue_move_ok _ _ _ _ _ _ _ _ Hok); [done| | | |].
    + intros th' t' u. rewrite lookup_insert_Some. intros [[<- [= <- <-]]|[Hne Ht]].
      * split_and!; [done|by eexists|]. right. split; [|done]. rewrite Hq. by left.
      * split_and!; [|by eapply D6|left; by exists u]. intros Hin. apply (D3 _ _ _ Ht). rewrite Hq. by right.
    + intros th' t'. rewrite lookup_insert_Some. split; [intros [[_ [=]]|[_ ?]]; done|]. intros Ht. right. split; [congruence|done].
    + intros t' Ht. left. rewrite Hq. by right.
    + intros th1 th2 t' u u'. rewrite !lookup_insert_Some. intros [[<- [= <- <-]]|[N1 H1]] [[<- E]|[N2 H2]]; try done; [| |by eapply D4].
      * destruct (D3 _ _ _ H2). rewrite Hq. by left.
      * injection E as <- <-. destruct (D3 _ _ _ H1). rewrite Hq. by left.
  - assert (forall q' pk', q' ++ pk' ≡ₚ t :: (q ++ pk) \/ q' ++ pk' ≡ₚ q ++ pk -> dispatch_ok (mkDispatch m last q' (delete th h) pk')) as Hrel.
    { intros q' pk' Hq. pose proof (D3 _ _ _ Hh) as Hni.
      apply (queue_move_ok _ _ _ _ _ _ _ _ Hok).
      - destruct Hq as [-> | ->]; [by constructor|done].
      - intros th' t' u'. rewrite lookup_delete_Some. intros [Hne Ht]. split_and!; [|by eapply D6|left; by exists u'].
        destruct Hq as [-> | ->]; [|by eapply D3]. apply not_elem_of_cons. split; [|by eapply D3]. intros ->. by destruct (Hne (D4 _ _ _ _ _ Hh Ht)).
      - intros th' t'. rewrite lookup_delete_Some. split; [by intros [_ ?]|]. intros Ht. split; [congruence|done].
      - intros t' Ht. destruct Hq as [Hq|Hq]; rewrite Hq in Ht; [|by left]. apply elem_of_cons in Ht as [->|Ht]; [right; by exists th, u|by left].
      - intros th1 th2 t' u1 u2. rewrite !lookup_delete_Some. intros [_ H1] [_ H2]. by eapply D4. }
    destruct Hd as [->|[->| ->]]; apply Hrel; [by right| |]; left; solve_Permutation.
  - assert ((q ++ [t]) ++ pk' ≡ₚ q ++ pk) as E by (rewrite Hp; solve_Permutation).
    apply (queue_move_ok _ _ _ _ _ _ _ _ Hok); [by rewrite E| |done| |done].
    + intros th' t' u Ht. split_and!; [rewrite E; by eapply D3|by eapply D6|left; by exists u].
    + intros t'. rewrite E. by left.
Qed.

(** The steps of the machine keep the queues. *)
Lemma dispatch_switch_ok m last q h pk th t u m' : dispatch_ok (mkDispatch m last q h pk) ->
  (exists u0, h !! th = Some (t, u0)) -> machine_ok (m', last) -> ctx_ m' = ctx_ m \/ (exists p, ctx_ m' = <[t := p]> (ctx_ m)) ->
  (forall x, x <> th -> cpu m' !! x = cpu m !! x) ->
  (u = Entered /\ (exists n, cpu m' !! th = Some (OTask t, n)) \/ u = Left /\ (exists n, cpu m' !! th = Some (OSched th, n))) ->
  dispatch_ok (mkDispatch m' last q (<[th := (t, u)]> h) pk).
Proof.
  intros Hok [u0 Hh] Hm Hc Hother Hu. pose proof Hok as [D1 D2 D3 D4 D5 D6 D7 D8]. cbn in *.
  assert (forall x y v, <[th := (t, u)]> h !! x = Some (y, v) -> exists v', h !! x = Some (y, v')) as Hold.
  { intros x y v. rewrite lookup_insert_Some. intros [[<- [= <- <-]]|[_ Hx]]; by eexists. }
  assert (forall x, is_Some (ctx_ m !! x) -> is_Some (ctx_ m' !! x)) as Hmade.
  { intros x Hx. destruct Hc as [->|[p ->]]; [done|]. destruct (decide (x = t)) as [->|]; [rewrite lookup_insert_eq; by eexists|by rewrite lookup_insert_ne]. }
  constructor; cbn; [done|done|..].
  - intros x y v Hx. destruct (Hold _ _ _ Hx) as [v' Hx']. by eapply D3.
  - intros x x' y v v' Hx Hx'. apply Hold in Hx as [? Hx]. apply Hold in Hx' as [? Hx']. by eapply D4.
  - intros x y. destruct (decide (x = th)) as [->|Hne]; [|rewrite lookup_insert_ne, Hother by done; apply D5].
    rewrite lookup_insert_eq. destruct Hu as [[-> [n Hn]]|[-> [n Hn]]]; rewrite Hn.
    + split; [by intros [? [= -> _]]|]. intros [= <-]. by exists n.
    + split; [intros [? [=]]|done].
  - intros x y v Hx. destruct (decide (x = th)) as [->|Hne]; [destruct Hu as [[_ [n ->]]|[_ [n ->]]]; by eexists|].
    rewrite Hother by done. apply Hold in Hx as [? Hx]. by eapply D6.
  - intros y Hy. apply Hmade, D7. destruct Hy as [Hy|(x & v & Hx)]; [by left|right]. apply Hold in Hx as [? Hx]. by eexists _, _.
  - intros y Hy. apply D8. destruct (ctx_ m !! y) eqn:E; [|done]. destruct (Hmade y) as [? Hs]; [by eexists|congruence].
Qed.

Lemma dispatch_step_ok d d' : dispatch_step d d' -> dispatch_ok d -> dispatch_ok d'.
Proof.
  intros Hs Hok. pose proof Hok as [D1 D2 D3 D4 D5 D6 D7 D8].
  destruct Hs as [m last q h pk th Hth|m last q h pk t Ht|m last q h pk th e n Hth|m last q q' h pk th t n Hth Hh Hq|m last q h pk th t m' Hh E
    |m last q h pk th t m' Hh E|m last q h pk th t m' Hh E|m last q h pk th t m' Hh E|m last q h pk th t Hh|m last q h pk th t Hh
    |m last q h pk th t Hh|m last q h pk pk' t Hp]; cbn in *.
  - assert (h !! th = None) as Hno by (destruct (h !! th) as [[x u]|] eqn:E; [destruct (D6 _ _ _ E); congruence|done]).
    constructor; cbn; try done; [by apply (machine_step_ok _ _ (m_thread m last th Hth))|..].
    + intros x y. rewrite <- D5. destruct (decide (x = th)) as [->|]; [|by rewrite lookup_insert_ne]. rewrite lookup_insert_eq, Hth.
      split; by intros [? [=]].
    + intros x y u Hx. rewrite lookup_insert_is_Some. destruct (decide (th = x)); [by left|right]. split; [done|by eapply D6].
  - pose proof (new_not_running _ _ Hok Ht) as Hr. cbn in Hr.
    assert (t ∉ q ++ pk) as Hni by (intros Hin; destruct (D7 t (or_introl Hin)); congruence).
    assert ((q ++ [t]) ++ pk ≡ₚ t :: (q ++ pk)) as E by solve_Permutation.
    constructor; cbn; try done.
    + apply (machine_step_ok _ _ (m_make m last t Ht Hr (D8 _ Ht))). done.
    + rewrite E. by constructor.
    + intros th x u Hx. rewrite E. apply not_elem_of_cons. split; [|by eapply D3]. intros ->.
      destruct (D7 t) as [? ?]; [right; by eexists _, _|congruence].
    + intros x Hx. rewrite lookup_insert_is_Some. destruct (decide (t = x)); [by left|right]. split; [done|]. apply D7.
      rewrite E in Hx. destruct Hx as [Hx|Hx]; [apply elem_of_cons in Hx as [?|Hx]; [congruence|by left]|by right].
    + intros x. rewrite lookup_insert_None. intros [? _]. by apply D8.
  - constructor; cbn; try done; [by apply (work_ok m last th e n D1)|..].
    + intros x y. rewrite <- D5. destruct (decide (x = th)) as [->|]; [|by rewrite lookup_insert_ne]. rewrite lookup_insert_eq, Hth.
      split; intros [? [= -> _]]; by eexists.
    + intros x y u Hx. rewrite lookup_insert_is_Some. destruct (decide (th = x)); [by left|right]. split; [done|by eapply D6].
    + intros x Hx. rewrite decide_False; [by apply D8|]. intros <-. destruct (D7 x); [|congruence]. right. exists th, Entered. apply D5. by exists n.
  - apply (dispatch_queue_ok _ _ _ _ _ _ Hok). left. by exists th, t, n, q'.
  - destruct (hand_loop _ _ _ _ Hok Hh ltac:(done)) as [n Hn]. cbn in Hn. destruct (D7 t) as [p Hp]; [right; by exists th, Popped|].
    pose proof (popped_not_running _ _ _ Hok Hh) as Hr.
    eapply (dispatch_switch_ok m last); [done|by eexists| | | |]; [apply (machine_step_ok _ _ (m_in m last true th t n true m' Hn (ex_intro _ p Hp) Hr E) D1)|..];
      unfold SwapIn in E; cbn in E; rewrite Hn, Hp in E; cbn in E; injection E as <-; cbn; [by left|intros; by rewrite lookup_insert_ne|].
    left. split; [done|]. rewrite lookup_insert_eq. pose proof (mo_ctx _ D1 _ _ Hp Hr) as ->. by eexists.
  - unfold SwapIn in E. cbn in E. injection E as <-. apply (dispatch_queue_ok _ _ _ _ _ _ Hok). right. left. exists th, t, Popped. by auto.
  - destruct (proj2 (D5 th t) Hh) as [n Hn].
    eapply (dispatch_switch_ok m last); [done|by eexists| | | |]; [apply (machine_step_ok _ _ (m_out m last true th t n true m' Hn E) D1)|..];
      destruct (mo_cpu _ D1 _ _ _ Hn) as [_ [[=]|(t' & _ & Ht)]]; cbn in Ht;
      unfold SwapOut in E; cbn in E; rewrite Hn, Ht in E; cbn in E; injection E as <-; cbn; [right; by eexists|intros; by rewrite lookup_insert_ne|].
    right. split; [done|]. rewrite lookup_insert_eq. by eexists.
  - unfold SwapOut in E. cbn in E. by injection E as <-.
  - apply (dispatch_queue_ok _ _ _ _ _ _ Hok). right. left. exists th, t, Left. by auto.
  - apply (dispatch_queue_ok _ _ _ _ _ _ Hok). right. left. exists th, t, Left. by auto.
  - apply (dispatch_queue_ok _ _ _ _ _ _ Hok). right. left. exists th, t, Left. by auto.
  - apply (dispatch_queue_ok _ _ _ _ _ _ Hok). right. right. by exists t, pk'.
Qed.

(** C25: Switching resumes where it left.  In every interleaving of threads, with tasks
    created, queued, stolen, parked and woken in any order, and with switches that
    fail:
    (1) no task runs on two threads;
    (2) a task that a thread has popped goes on exactly where it has come to, on
    whichever thread it ran before;
    (3) a task that switches out brings its thread back to the thread's own loop,
    where it called [SwapIn], also if the task ran on other threads before; and
    the task is kept where it is. *)
Theorem switch_resumes d : star dispatch_step dispatch_new d ->
  (forall t th th' n n', cpu (mach d) !! th = Some (OTask t, n) -> cpu (mach d) !! th' = Some (OTask t, n') -> th = th') /\
  (forall t th, in_hand d !! th = Some (t, Popped) ->
     exists s', SwapIn true th t (mach d) = Some (true, s') /\ cpu s' !! th = Some (OTask t, came d (OTask t)) /\
       tls_context s' !! th = Some (OSched th, came d (OSched th))) /\
  (forall t th n, cpu (mach d) !! th = Some (OTask t, n) ->
     exists s', SwapOut true th t (mach d) = Some (true, s') /\ cpu s' !! th = Some (OSched th, came d (OSched th)) /\
       ctx_ s' !! t = Some (OTask t, came d (OTask t))).
Proof.
  intros Hr. assert (dispatch_ok d) as Hok.
  { eapply star_invariant; [|exact Hr|apply dispatch_new_ok]. intros a b. apply dispatch_step_ok. }
  pose proof (do_machine _ Hok) as [H1 H2 H3]. cbn in *. split_and!.
  - intros t th th' n n'. apply H2.
  - intros t th Hh. destruct (hand_loop _ _ _ _ Hok Hh) as [n Hth]; [done|].
    destruct (do_made _ Hok t) as [p Hp]; [right; by exists th, Popped|]. unfold SwapIn. cbn [negb]. rewrite Hth, Hp. cbn.
    rewrite (H3 _ _ Hp (popped_not_running _ _ _ Hok Hh)).
    destruct (H1 _ _ _ Hth) as [-> _]. eexists. split; [reflexivity|]. cbn. by rewrite !lookup_insert_eq.
  - intros t th n Hth. destruct (H1 _ _ _ Hth) as [-> [[=]|(t' & [= <-] & Ht)]]. unfold SwapOut. cbn [negb]. rewrite Hth. cbn. rewrite Ht. cbn.
    eexists. split; [reflexivity|]. cbn. by rewrite !lookup_insert_eq.
Qed.

(** Task 7 starts on thread 1, is put back, popped by thread 2, and runs there. *)
Lemma switch_resumes_witness : exists d,
  star dispatch_step dispatch_new d /\ cpu (mach d) !! 2%nat = Some (OTask 7, 1%nat) /\
  exists s', SwapOut true 2 7 (mach d) = Some (true, s') /\ cpu s' !! 2%nat = Some (OSched 2, 0%nat).
Proof.
  assert (exists d, star dispatch_step dispatch_new d /\ cpu (mach d) !! 2%nat = Some (OTask 7, 1%nat) /\ came d (OSched 2) = 0%nat)
    as (d & Hr & Hc & Hl).
  { eexists. split.
    - eapply star_step; [apply (d_thread _ _ _ _ _ 1); reflexivity|]. eapply star_step; [apply (d_thread _ _ _ _ _ 2); reflexivity|].
      eapply star_step; [apply (d_create _ _ _ _ _ 7); reflexivity|].
      eapply star_step; [eapply (d_pop _ _ _ [] _ _ 1 7); reflexivity|]. eapply star_step; [eapply (d_in _ _ _ _ _ 1 7); reflexivity|].
      eapply star_step; [eapply (d_work _ _ _ _ _ 1); reflexivity|]. eapply star_step; [eapply (d_out _ _ _ _ _ 1 7); reflexivity|].
      eapply star_step; [eapply (d_again _ _ _ _ _ 1 7); reflexivity|].
      eapply star_step; [eapply (d_pop _ _ _ [] _ _ 2 7); reflexivity|]. eapply star_step; [eapply (d_in _ _ _ _ _ 2 7); reflexivity|].
      apply star_refl.
    - split; reflexivity. }
  exists d. split; [exact Hr|split; [exact Hc|]].
  destruct (switch_resumes d Hr) as (_ & _ & H). destruct (H 7%nat 2%nat 1%nat Hc) as (s' & E & H' & _).
  exists s'. split; [exact E|]. rewrite H', Hl. reflexivity.
Defined.

(** Why a task must not be queued before it has switched out: a thread that takes
    it up while it still runs goes on at the point of its last switch. *)
Lemma early_resume_rewinds s th th' t here n m : th <> th' ->
  cpu s !! th = Some (OTask t, n) -> ctx_ s !! t = Some (OTask t, m) -> cpu s !! th' = Some here ->
  exists s', SwapIn true th' t s = Some (true, s') /\ cpu s' !! th' = Some (OTask t, m) /\ cpu s' !! th = Some (OTask t, n).
Proof.
  intros Hd Hth Hc Hth'. unfold SwapIn. cbn [negb]. rewrite Hth', Hc. cbn. eexists. split; [reflexivity|]. cbn.
  by rewrite lookup_insert_eq, lookup_insert_ne.
Qed.
