(* ===== verification/FiberContext.v ===== *)
(** * Contexts on Windows fibers

    [Context] and [ContextScopedGuard] of [libgo/ctx_win_fiber/context.h], the
    implementation for the Windows port.  A fiber keeps its own place:
    [SwitchToFiber] saves the running one in itself.  The theorem is that fibers
    behave as the contexts of [Context.v]. *)
From S2P Require Import Prelude TaskInfo Context.

#[global] Instance exec_countable : Countable exec.
Proof.
  refine (inj_countable' (fun e => match e with OSched th => inl th | OTask t => inr t end)
    (fun x => match x with inl th => OSched th | inr t => OTask t end) _). by intros [].
Defined.

(** A fiber is named by what it runs: the loop of a thread, or a task.
    [native] is the thread-local pointer of [GetTlsContext], [fibers] the places
    where fibers stopped, [current] the fiber of each thread and its place. *)
Record fiber_machine : Type := mkFibers { native : gmap nat exec; fibers : gmap exec nat; current : gmap nat point }.

(** [SwitchToFiber]; [None] for a fiber that is not there. *)
Definition SwitchToFiber (th : nat) (target : exec) (s : fiber_machine) : option fiber_machine :=
  '(here, n) ← current s !! th; m ← fibers s !! target;
  Some (mkFibers (native s) (<[here := n]> (fibers s)) (<[th := (target, m)]> (current s))).

(** [ContextScopedGuard] and its destructor, for a thread in its own loop. *)
Definition guard_new (th n : nat) (s : fiber_machine) : fiber_machine :=
  mkFibers (<[th := OSched th]> (native s)) (<[OSched th := n]> (fibers s)) (current s).
Definition guard_delete (th : nat) (s : fiber_machine) : fiber_machine :=
  mkFibers (delete th (native s)) (delete (OSched th) (fibers s)) (current s).

(** The constructor of [Context]; [ok] is whether [CreateFiberEx] succeeds. *)
Definition fiber_new (uncaught ok : bool) (t : nat) (s : fiber_machine) : outcome fiber_machine :=
  if negb ok then _ ← ThrowError uncaught ec_makecontext_failed; Ret s
  else Ret (mkFibers (native s) (<[OTask t := 0%nat]> (fibers s)) (current s)).
Definition fiber_delete (t : nat) (s : fiber_machine) : fiber_machine :=
  mkFibers (native s) (delete (OTask t) (fibers s)) (current s).

Definition fiber_SwapIn (th t : nat) (s : fiber_machine) : option fiber_machine := SwitchToFiber th (OTask t) s.
Definition fiber_SwapOut (th : nat) (s : fiber_machine) : option fiber_machine := x ← native s !! th; SwitchToFiber th x s.

(** [native_] of a task that is running stays valid: its fiber is deleted only
    when it does not run.  [Processer::Run] holds a guard while it switches to
    tasks. *)
Definition on_cpu (t : nat) (s : fiber_machine) : Prop := exists th n, current s !! th = Some (OTask t, n).

Inductive fiber_step : fiber_machine * (exec -> nat) -> fiber_machine * (exec -> nat) -> Prop :=
| f_thread s last th : current s !! th = None ->
    fiber_step (s, last) (mkFibers (native s) (fibers s) (<[th := (OSched th, last (OSched th))]> (current s)), last)
| f_guard s last th n : current s !! th = Some (OSched th, n) -> fiber_step (s, last) (guard_new th n s, last)
| f_unguard s last th n : current s !! th = Some (OSched th, n) -> fiber_step (s, last) (guard_delete th s, last)
| f_make s last t s' : fibers s !! OTask t = None -> ~ on_cpu t s -> last (OTask t) = 0%nat ->
    fiber_new false true t s = Ret s' -> fiber_step (s, last) (s', last)
| f_delete s last t : ~ on_cpu t s -> fiber_step (s, last) (fiber_delete t s, last)
| f_work s last th e n : current s !! th = Some (e, n) ->
    fiber_step (s, last) (mkFibers (native s) (fibers s) (<[th := (e, S n)]> (current s)),
                          fun x => if decide (x = e) then S n else last x)
| f_in s last th t n s' : current s !! th = Some (OSched th, n) -> is_Some (native s !! th) -> ~ on_cpu t s ->
    fiber_SwapIn th t s = Some s' -> fiber_step (s, last) (s', last)
| f_out s last th t n s' : current s !! th = Some (OTask t, n) -> fiber_SwapOut th s = Some s' ->
    fiber_step (s, last) (s', last).

(** ** Simulation *)

Record simulates (f : fiber_machine) (s : machine) : Prop := {
  r_cpu : cpu s = current f;
  r_ctx t n : fibers f !! OTask t = Some n -> ctx_ s !! t = Some (OTask t, n);
  r_native th x : native f !! th = Some x -> x = OSched th;
  r_tls th t n : current f !! th = Some (OTask t, n) -> native f !! th = Some (OSched th) /\
    exists m, fibers f !! OSched th = Some m /\ tls_context s !! th = Some (OSched th, m) }.

Lemma on_cpu_running t f s : simulates f s -> ~ on_cpu t f -> ~ running t s.
Proof. intros [E _ _ _] H (th & n & Hc). apply H. exists th, n. by rewrite <- E. Qed.

(** The steps that touch a thread in its own loop keep what is known of threads
    that run tasks. *)
Lemma sim_elsewhere f s th n : simulates f s -> current f !! th = Some (OSched th, n) ->
  simulates (guard_new th n f) s /\ simulates (guard_delete th f) s.
Proof.
  intros [H1 H2 H3 H4] Hth. split; (constructor; cbn; [done| | |]).
  - intros t m. rewrite lookup_insert_ne by done. apply H2.
  - intros th' x. rewrite lookup_insert_Some. intros [[<- <-]|[_ Hx]]; [done|by apply H3].
  - intros th' t m Hc. assert (th <> th') as Hne by (intros ->; congruence). rewrite !lookup_insert_ne by congruence. by apply (H4 th' t m).
  - intros t m. rewrite lookup_delete_ne by done. apply H2.
  - intros th' x. rewrite lookup_delete_Some. intros [_ Hx]. by apply H3.
  - intros th' t m Hc. assert (th <> th') as Hne by (intros ->; congruence). rewrite !lookup_delete_ne by congruence. by apply (H4 th' t m).
Qed.

Lemma sim_in f s th t n f' : simulates f s -> current f !! th = Some (OSched th, n) -> is_Some (native f !! th) ->
  fiber_SwapIn th t f = Some f' -> exists s', SwapIn true th t s = Some (true, s') /\ is_Some (ctx_ s !! t) /\ simulates f' s'.
Proof.
  intros [H1 H2 H3 H4] Hth [x Hx] E. unfold fiber_SwapIn, SwitchToFiber in E. rewrite Hth in E. cbn in E.
  destruct (fibers f !! OTask t) as [m|] eqn:Em; [|done]. cbn in E. injection E as <-.
  unfold SwapIn. cbn [negb]. rewrite H1, Hth, (H2 _ _ Em). cbn. eexists. split; [reflexivity|]. split; [by eexists|].
  constructor; cbn; [by rewrite ?H1| |done|].
  - intros t' m'. rewrite lookup_insert_ne by done. apply H2.
  - intros th' t' m'. rewrite lookup_insert_Some. intros [[<- [= <- <-]]|[Hne Hc]].
    + pose proof (H3 _ _ Hx) as ->. split; [done|]. exists n. by rewrite !lookup_insert_eq.
    + rewrite !lookup_insert_ne by congruence. by apply (H4 th' t' m').
Qed.

Lemma sim_out f s th t n f' : simulates f s -> current f !! th = Some (OTask t, n) ->
  fiber_SwapOut th f = Some f' -> exists s', SwapOut true th t s = Some (true, s') /\ simulates f' s'.
Proof.
  intros [H1 H2 H3 H4] Hth E. destruct (H4 _ _ _ Hth) as (Hn & m & Hm & Ht).
  unfold fiber_SwapOut, SwitchToFiber in E. rewrite Hn, Hth in E. cbn in E. rewrite Hm in E. cbn in E. injection E as <-.
  unfold SwapOut. cbn [negb]. rewrite H1, Hth, Ht. cbn. eexists. split; [reflexivity|].
  constructor; cbn; [by rewrite ?H1| |done|].
  - intros t' m'. rewrite !lookup_insert_Some. intros [[[= <-] <-]|[Hne Hf]]; [by left|right]. split; [congruence|by apply H2].
  - intros th' t' m'. rewrite lookup_insert_Some. intros [[_ [=]]|[Hne Hc]]. rewrite lookup_insert_ne by done. by apply (H4 th' t' m').
Qed.

Lemma sim_make f s t last : simulates f s -> machine_ok (s, last) -> ~ on_cpu t f -> last (OTask t) = 0%nat ->
  exists s', star machine_step (s, last) (s', last) /\ simulates (mkFibers (native f) (<[OTask t := 0%nat]> (fibers f)) (current f)) s'.
Proof.
  intros Hs Hok Hn Hl. pose proof (on_cpu_running _ _ _ Hs Hn) as Hr.
  assert (exists s', star machine_step (s, last) (s', last) /\ cpu s' = cpu s /\ tls_context s' = tls_context s /\
    ctx_ s' = <[t := (OTask t, 0%nat)]> (ctx_ s)) as (s' & Hst & E1 & E2 & E3).
  { destruct (ctx_ s !! t) as [p|] eqn:Et.
    - exists s. split; [apply star_refl|]. split; [done|]. split; [done|]. rewrite insert_id; [done|].
      rewrite Et, (mo_ctx _ Hok t p Et Hr). cbn. by rewrite Hl.
    - exists (make_ctx t s). split; [|done]. eapply star_step; [|apply star_refl]. by apply m_make. }
  exists s'. split; [done|]. destruct Hs as [H1 H2 H3 H4]. constructor; cbn; [congruence| |done|].
  - intros t' m. rewrite E3, !lookup_insert_Some. intros [[[= <-] <-]|[Hne Hf]]; [by left|right]. split; [congruence|by apply H2].
  - intros th t' m Hc. rewrite E2, lookup_insert_ne by done. by apply (H4 th t' m).
Qed.

Lemma fiber_step_sim f last f' last' s : fiber_step (f, last) (f', last') -> simulates f s -> machine_ok (s, last) ->
  exists s', star machine_step (s, last) (s', last') /\ simulates f' s'.
Proof.
  intros Hst Hs Hok. pose proof Hs as [H1 H2 H3 H4].
  inversion Hst as [? ? th Hth|? ? th n Hth|? ? th n Hth|? ? t s' Hf Hn Hl Hmk|? ? t Hn|? ? th e n Hth|? ? th t n s' Hth Hg Hn Hin|? ? th t n s' Hth Hout];
    subst.
  - eexists. split; [eapply star_step; [apply (m_thread _ _ th); by rewrite H1|apply star_refl]|].
    constructor; cbn; [by rewrite ?H1|done|done|]. intros th' t m. rewrite lookup_insert_Some.
    intros [[_ [=]]|[_ Hc]]. by apply (H4 th' t m).
  - exists s. split; [apply star_refl|]. by eapply sim_elsewhere.
  - exists s. split; [apply star_refl|]. by eapply sim_elsewhere.
  - injection Hmk as <-. by apply sim_make.
  - exists s. split; [apply star_refl|]. constructor; cbn; [done| |done|].
    + intros t' m. rewrite lookup_delete_Some. intros [_ Hf]. by apply H2.
    + intros th t' m Hc. rewrite lookup_delete_ne by done. by apply (H4 th t' m).
  - eexists. split; [eapply star_step; [apply (m_work _ _ th e n); by rewrite H1|apply star_refl]|].
    constructor; cbn; [by rewrite ?H1|done|done|]. intros th' t m. rewrite lookup_insert_Some.
    intros [[<- [= -> _]]|[_ Hc]]; [by apply (H4 th t n)|by apply (H4 th' t m)].
  - destruct (sim_in _ _ _ _ _ _ Hs Hth Hg Hin) as (s1 & E & Hc & Hs1). exists s1. split; [|done].
    eapply star_step; [|apply star_refl]. eapply (m_in _ _ true th t n); [by rewrite H1|done|by eapply on_cpu_running|exact E].
  - destruct (sim_out _ _ _ _ _ _ Hs Hth Hout) as (s1 & E & Hs1). exists s1. split; [|done].
    eapply star_step; [|apply star_refl]. eapply (m_out _ _ true th t n); [by rewrite H1|exact E].
Qed.

Definition fibers_new : fiber_machine * (exec -> nat) := (mkFibers ∅ ∅ ∅, fun _ => 0%nat).

(** Every run of fibers is a run of contexts. *)
Lemma fiber_run_sim fl : star fiber_step fibers_new fl -> exists s, star machine_step machine_new (s, snd fl) /\ simulates (fst fl) s.
Proof.
  intros Hr. eapply (star_invariant fiber_step (fun fl => exists s, star machine_step machine_new (s, snd fl) /\ simulates (fst fl) s));
    [|exact Hr|].
  - intros [f last] [f' last'] Hst (s & Hs & Hsim). cbn in *.
    destruct (fiber_step_sim _ _ _ _ _ Hst Hsim (machine_reachable_ok _ Hs)) as (s' & Hs' & Hsim').
    exists s'. split; [by eapply star_trans|done].
  - exists (fst machine_new). split; [apply star_refl|]. by constructor.
Qed.

(** Fibers behave as contexts.  Every run of fibers, guards included, is matched
    step by step by a run of [Context.v], so that: a task that is switched in goes
    on where it has come to; a running task's thread always has a guard, so that
    switching out finds a fiber, and leads back to the loop of the thread that
    runs the task, where that has come to. *)
Theorem fibers_refine f last : star fiber_step fibers_new (f, last) ->
  (exists s, star machine_step machine_new (s, last) /\ simulates f s) /\
  (forall t th n, current f !! th = Some (OSched th, n) -> is_Some (fibers f !! OTask t) -> ~ on_cpu t f ->
     exists f', fiber_SwapIn th t f = Some f' /\ current f' !! th = Some (OTask t, last (OTask t))) /\
  (forall t th n, current f !! th = Some (OTask t, n) ->
     exists f', fiber_SwapOut th f = Some f' /\ current f' !! th = Some (OSched th, last (OSched th)) /\
       fibers f' !! OTask t = Some (last (OTask t))).
Proof.
  intros Hr. destruct (fiber_run_sim _ Hr) as (s & Hs & Hsim). cbn in *. pose proof (machine_reachable_ok _ Hs) as [M1 M2 M3]. cbn in *.
  split; [by exists s|]. split.
  - intros t th n Hth [m Hm] Hn. unfold fiber_SwapIn, SwitchToFiber. rewrite Hth, Hm. cbn. eexists. split; [reflexivity|]. cbn.
    rewrite lookup_insert_eq. pose proof (M3 t _ (r_ctx _ _ Hsim _ _ Hm) (on_cpu_running _ _ _ Hsim Hn)) as E. by injection E as ->.
  - intros t th n Hth. destruct (r_tls _ _ Hsim _ _ _ Hth) as (Hn & m & Hm & Ht).
    pose proof Hth as Hc. rewrite <- (r_cpu _ _ Hsim) in Hc. destruct (M1 _ _ _ Hc) as [-> [[=]|(t' & [= <-] & Ht')]].
    rewrite Ht in Ht'. injection Ht' as ->. unfold fiber_SwapOut, SwitchToFiber. rewrite Hn, Hth. cbn. rewrite Hm. cbn.
    eexists. split; [reflexivity|]. cbn. by rewrite !lookup_insert_eq.
Qed.

(** Task 7 runs on thread 1 and is switched out. *)
Lemma fibers_refine_witness : exists f last, star fiber_step fibers_new (f, last) /\
  exists f', fiber_SwapOut 1 f = Some f' /\ current f' !! 1%nat = Some (OSched 1, 0%nat).
Proof.
  assert (exists f last, star fiber_step fibers_new (f, last) /\ current f !! 1%nat = Some (OTask 7, 0%nat) /\ last (OSched 1) = 0%nat)
    as (f & last & Hr & Hc & Hl).
  { eexists _, _. split.
    - eapply star_step; [apply (f_thread _ _ 1); reflexivity|]. eapply star_step; [apply (f_guard _ _ 1 0); reflexivity|].
      eapply star_step; [apply (f_make _ _ 7); [reflexivity| |reflexivity|reflexivity]|].
      { intros (th & n & H). cbn in H. rewrite lookup_insert_Some, lookup_empty in H. naive_solver. }
      eapply star_step; [eapply (f_in _ _ 1 7); [reflexivity|by eexists| |reflexivity]|].
      { intros (th & n & H). cbn in H. rewrite lookup_insert_Some, lookup_empty in H. naive_solver. }
      apply star_refl.
    - split; reflexivity. }
  exists f, last. split; [exact Hr|]. destruct (fibers_refine f last Hr) as (_ & _ & H).
  destruct (H 7%nat 1%nat 0%nat Hc) as (f' & E & E' & _). exists f'. split; [exact E|]. rewrite E', Hl. reflexivity.
Defined.

(** Without a guard there is nothing to switch back to: the thread-local pointer
    is null. *)
Lemma unguarded_stuck th s : native s !! th = None -> fiber_SwapOut th s = None.
Proof. intros H. unfold fiber_SwapOut. by rewrite H. Qed.
