(* ===== verification/IoWait.v ===== *)
(** * Waiting for I/O

    [libgo/linux/io_wait.{h,cpp}] and [IoSentry] of [fd_context.{h,cpp}].  A
    coroutine that polls makes a sentry and yields; the processer then puts the
    sentry in [wait_io_sentries_] while epoll, a timer or a [close] may trigger
    it at the same time.  The two sides synchronise without a lock: one pushes
    and then looks at the state, the other changes the state and then erases.
    Each of these accesses is atomic, and the step relation interleaves them.
    Sentries are shared objects and live in a store; [wait_io_sentries_] is the
    list that [TSQueue] implements. *)
From S2P Require Import Prelude StdString StdMap.

(** ** Events *)

Definition POLLIN : Z := 1.
Definition POLLOUT : Z := 4.
Definition POLLERR : Z := 8.
Definition POLLHUP : Z := 16.
Definition POLLNVAL : Z := 32.
Definition EPOLLIN : Z := 1.
Definition EPOLLOUT : Z := 4.
Definition EPOLLERR : Z := 8.
Definition EPOLLHUP : Z := 16.

(** [e & m] as a condition. *)
Definition has (e m : Z) : bool := negb (Z.land e m =? 0).

(** [short]. *)
Definition i16 (z : Z) : Z := (z + 2 ^ 15) mod 2 ^ 16 - 2 ^ 15.

Definition PollEvent2Epoll (events : Z) : Z :=
  let e := 0 in
  let e := if has events POLLIN then Z.lor e EPOLLIN else e in
  let e := if has events POLLOUT then Z.lor e EPOLLOUT else e in
  let e := if has events POLLHUP then Z.lor e EPOLLHUP else e in
  if has events POLLERR then Z.lor e EPOLLERR else e.

Definition EpollEvent2Poll (events : Z) : Z :=
  let e := 0 in
  let e := if has events EPOLLIN then Z.lor e POLLIN else e in
  let e := if has events EPOLLOUT then Z.lor e POLLOUT else e in
  let e := if has events EPOLLHUP then Z.lor e POLLHUP else e in
  if has events EPOLLERR then Z.lor e POLLERR else e.

(** ** Sentries *)

Record pollfd : Type := mkPollfd { fd : Z; events : Z; revents : Z }.
Definition set_revents (r : Z) (p : pollfd) : pollfd := mkPollfd (fd p) (events p) r.

Inductive task_io_state : Type := pending | triggered.
#[global] Instance task_io_state_eq_dec : EqDecision task_io_state.
Proof. solve_decision. Defined.

Record IoSentry : Type := mkSentry {
  io_state_ : task_io_state; watch_fds_ : list pollfd; timer_ : option nat; task_ptr_ : nat }.

Definition IoSentry_new (tk : nat) (fds : list pollfd) : IoSentry :=
  mkSentry pending (map (set_revents 0) fds) None tk.

(** The compare-and-swap from [pending] to [triggered]. *)
Definition switch_state_to_triggered (s : IoSentry) : bool * IoSentry :=
  match io_state_ s with
  | pending => (true, mkSentry triggered (watch_fds_ s) (timer_ s) (task_ptr_ s))
  | triggered => (false, s)
  end.

Definition with_watch (l : list pollfd) (s : IoSentry) : IoSentry :=
  mkSentry (io_state_ s) l (timer_ s) (task_ptr_ s).
Definition with_io_timer (m : option nat) (s : IoSentry) : IoSentry :=
  mkSentry (io_state_ s) (watch_fds_ s) m (task_ptr_ s).

(** ** [IoWait]

    The store of sentries, the waiting sentries, and the tasks given to
    [AddTaskRunnable]. *)
Record IoWait : Type := mkIoWait {
  sentries : gmap nat IoSentry; wait_io_sentries_ : list nat; io_runnable : list nat }.
Definition IoWait_new : IoWait := mkIoWait ∅ [] [].

(** B of [IOBlockTriggered]. *)
Definition trigger_cas (n : nat) (w : IoWait) : bool * IoWait :=
  match sentries w !! n with
  | None => (false, w)
  | Some s =>
      let '(ok, s') := switch_state_to_triggered s in
      (ok, mkIoWait (<[n := s']> (sentries w)) (wait_io_sentries_ w) (io_runnable w))
  end.

(** [__IOBlockTriggered], A: erase the sentry and make its task runnable; the
    result says whether it was still waiting. *)
Definition trigger_erase (n : nat) (w : IoWait) : bool * IoWait :=
  match sentries w !! n with
  | None => (false, w)
  | Some s =>
      match queue_erase n (wait_io_sentries_ w) with
      | None => (false, w)
      | Some q => (true, mkIoWait (sentries w) q (io_runnable w ++ [task_ptr_ s]))
      end
  end.

Definition IOBlockTriggered (n : nat) (w : IoWait) : IoWait :=
  let '(ok, w) := trigger_cas n w in
  if ok then snd (trigger_erase n w) else w.

(** A and B of [SchedulerSwitch]. *)
Definition switch_push (n : nat) (w : IoWait) : IoWait :=
  mkIoWait (sentries w) (wait_io_sentries_ w ++ [n]) (io_runnable w).
Definition is_triggered (n : nat) (w : IoWait) : bool :=
  match sentries w !! n with
  | Some s => bool_decide (io_state_ s = triggered)
  | None => false
  end.
Definition SchedulerSwitch (n : nat) (w : IoWait) : IoWait :=
  let w := switch_push n w in
  if is_triggered n w then snd (trigger_erase n w) else w.

(** ** The interleavings

    A task polls with one sentry at a time.  Where the task of a sentry is, how far the processer is with
    [SchedulerSwitch], and how far the party that won the compare-and-swap is
    with the erasure. *)
Inductive task_at : Type := InPoll | Blocked | MadeRunnable | Resumed.
Inductive sched_at : Type := BeforeSwitch | SwPush | SwCheck | SwErase | SwDone.
Inductive waker_at : Type := NoWaker | WkErase | WkDone.
#[global] Instance task_at_eq_dec : EqDecision task_at.
Proof. solve_decision. Defined.
#[global] Instance sched_at_eq_dec : EqDecision sched_at.
Proof. solve_decision. Defined.
#[global] Instance waker_at_eq_dec : EqDecision waker_at.
Proof. solve_decision. Defined.

Record place : Type := mkPlace { tat : task_at; sat : sched_at; wat : waker_at }.
Record iosys : Type := mkIoSys { iow : IoWait; places : gmap nat place; woken : list nat }.
Definition io_start : iosys := mkIoSys IoWait_new ∅ [].

(** An erasure by either side; when it succeeds the task is runnable. *)
Definition erased (n : nat) (p : place) (ok : bool) (w : IoWait) (s : iosys) : iosys :=
  if ok then mkIoSys w (<[n := mkPlace MadeRunnable (sat p) (wat p)]> (places s)) (woken s ++ [n])
  else mkIoSys w (<[n := p]> (places s)) (woken s).

Inductive io_step : iosys -> iosys -> Prop :=
| io_create s n tk fds :
    sentries (iow s) !! n = None -> places s !! n = None ->
    (forall m p e, places s !! m = Some p -> sentries (iow s) !! m = Some e -> task_ptr_ e = tk -> tat p = Resumed) ->
    io_step s (mkIoSys (mkIoWait (<[n := IoSentry_new tk fds]> (sentries (iow s)))
                          (wait_io_sentries_ (iow s)) (io_runnable (iow s)))
                 (<[n := mkPlace InPoll BeforeSwitch NoWaker]> (places s)) (woken s))
| io_yield s n p :
    places s !! n = Some p -> tat p = InPoll -> sat p = BeforeSwitch ->
    io_step s (mkIoSys (iow s) (<[n := mkPlace Blocked SwPush (wat p)]> (places s)) (woken s))
| io_push s n p :
    places s !! n = Some p -> sat p = SwPush ->
    io_step s (mkIoSys (switch_push n (iow s)) (<[n := mkPlace (tat p) SwCheck (wat p)]> (places s)) (woken s))
| io_check s n p :
    places s !! n = Some p -> sat p = SwCheck ->
    io_step s (mkIoSys (iow s)
                 (<[n := mkPlace (tat p) (if is_triggered n (iow s) then SwErase else SwDone) (wat p)]> (places s))
                 (woken s))
| io_switch_erase s n p ok w :
    places s !! n = Some p -> sat p = SwErase -> trigger_erase n (iow s) = (ok, w) ->
    io_step s (erased n (mkPlace (tat p) SwDone (wat p)) ok w s)
| io_trigger s n p w :
    places s !! n = Some p -> trigger_cas n (iow s) = (true, w) ->
    io_step s (mkIoSys w (<[n := mkPlace (tat p) (sat p) WkErase]> (places s)) (woken s))
| io_trigger_late s n p w :
    places s !! n = Some p -> trigger_cas n (iow s) = (false, w) ->
    io_step s (mkIoSys w (places s) (woken s))
| io_trigger_erase s n p ok w :
    places s !! n = Some p -> wat p = WkErase -> trigger_erase n (iow s) = (ok, w) ->
    io_step s (erased n (mkPlace (tat p) (sat p) WkDone) ok w s)
| io_resume s n p e l1 l2 :
    places s !! n = Some p -> tat p = MadeRunnable -> sentries (iow s) !! n = Some e ->
    io_runnable (iow s) = l1 ++ task_ptr_ e :: l2 ->
    io_step s (mkIoSys (mkIoWait (sentries (iow s)) (wait_io_sentries_ (iow s)) (l1 ++ l2))
                 (<[n := mkPlace Resumed (sat p) (wat p)]> (places s)) (woken s)).

(** ** The invariant *)

Definition runs_again (p : place) : Prop := tat p = MadeRunnable \/ tat p = Resumed.

(** What is known of one sentry: its state, and whether it waits and was
    woken. *)
Definition place_ok (p : place) (st : task_io_state) (inq inw : Prop) : Prop :=
  (st = pending <-> wat p = NoWaker) /\
  (inw <-> runs_again p) /\
  (inq <-> tat p = Blocked /\ sat p <> SwPush) /\
  (tat p = InPoll <-> sat p = BeforeSwitch) /\
  (sat p = SwPush -> tat p = Blocked) /\
  (sat p = SwErase -> st = triggered) /\
  (sat p = SwDone -> tat p = Blocked -> wat p <> WkDone) /\
  (runs_again p -> st = triggered).

#[global] Instance place_ok_proper p st : Proper (iff ==> iff ==> iff) (place_ok p st).
Proof. intros a a' Ha b b' Hb. unfold place_ok. by rewrite Ha, Hb. Qed.

Record io_ok (s : iosys) : Prop := {
  ok_dom n : is_Some (sentries (iow s) !! n) <-> is_Some (places s !! n);
  ok_queue : NoDup (wait_io_sentries_ (iow s));
  ok_woken : NoDup (woken s);
  ok_place n p e : places s !! n = Some p -> sentries (iow s) !! n = Some e ->
    place_ok p (io_state_ e) (n ∈ wait_io_sentries_ (iow s)) (n ∈ woken s);
  ok_known n : n ∈ wait_io_sentries_ (iow s) \/ n ∈ woken s -> is_Some (places s !! n);
  ok_run n p e : places s !! n = Some p -> sentries (iow s) !! n = Some e -> tat p = MadeRunnable ->
    task_ptr_ e ∈ io_runnable (iow s);
  ok_task n m p q e f : places s !! n = Some p -> places s !! m = Some q ->
    sentries (iow s) !! n = Some e -> sentries (iow s) !! m = Some f ->
    tat p <> Resumed -> tat q <> Resumed -> task_ptr_ e = task_ptr_ f -> n = m }.

(** A step that concerns one sentry. *)
Lemma update_ok s n p p' e e' w' wk' :
  io_ok s -> places s !! n = Some p -> sentries (iow s) !! n = Some e ->
  sentries w' = <[n := e']> (sentries (iow s)) -> task_ptr_ e' = task_ptr_ e ->
  NoDup (wait_io_sentries_ w') -> NoDup wk' ->
  (forall m, m <> n -> m ∈ wait_io_sentries_ w' <-> m ∈ wait_io_sentries_ (iow s)) ->
  (forall m, m <> n -> m ∈ wk' <-> m ∈ woken s) ->
  place_ok p' (io_state_ e') (n ∈ wait_io_sentries_ w') (n ∈ wk') ->
  (forall m q f, m <> n -> places s !! m = Some q -> sentries (iow s) !! m = Some f -> tat q = MadeRunnable ->
     task_ptr_ f ∈ io_runnable w') ->
  (tat p' = MadeRunnable -> task_ptr_ e ∈ io_runnable w') -> (tat p = Resumed -> tat p' = Resumed) ->
  io_ok (mkIoSys w' (<[n := p']> (places s)) wk').
Proof.
  intros [Hd Hq Hw Hp Hk Hr Ht] Hn He Hs Hte Hq' Hw' Hqm Hwm Hok Hrm Hrn Hres.
  constructor; cbn [iow places woken]; rewrite ?Hs; try done.
  - intros m. rewrite !lookup_insert_is_Some, Hd. naive_solver.
  - intros m q f Hm Hf. destruct (decide (m = n)) as [->|Hne]; simplify_map_eq; [done|].
    rewrite Hqm, Hwm by done. by eapply Hp.
  - intros m Hm. apply lookup_insert_is_Some. destruct (decide (n = m)) as [|Hne]; [by left|right].
    split; [done|]. rewrite Hqm, Hwm in Hm by done. by apply Hk.
  - intros m q f Hm Hf Hmr. destruct (decide (m = n)) as [->|Hne]; simplify_map_eq; [|by eapply Hrm].
    rewrite Hte. by apply Hrn.
  - intros a b q r f g Ha Hb Hf Hg Hqa Hrb Heq.
    destruct (decide (a = n)) as [->|], (decide (b = n)) as [->|]; simplify_map_eq; try done;
      eapply Ht; try done; try congruence; naive_solver.
Qed.

Lemma create_ok s n tk fds :
  io_ok s -> sentries (iow s) !! n = None -> places s !! n = None ->
  (forall m p e, places s !! m = Some p -> sentries (iow s) !! m = Some e -> task_ptr_ e = tk -> tat p = Resumed) ->
  io_ok (mkIoSys (mkIoWait (<[n := IoSentry_new tk fds]> (sentries (iow s)))
                    (wait_io_sentries_ (iow s)) (io_runnable (iow s)))
           (<[n := mkPlace InPoll BeforeSwitch NoWaker]> (places s)) (woken s)).
Proof.
  intros [Hd Hq Hw Hp Hk Hr Ht] Hs Hn Hfresh. constructor; cbn; try done.
  - intros m. rewrite !lookup_insert_is_Some, Hd. naive_solver.
  - intros m q f Hm Hf. destruct (decide (m = n)) as [->|Hne]; simplify_map_eq; [|by eapply Hp].
    assert (n ∉ wait_io_sentries_ (iow s) /\ n ∉ woken s) as [? ?].
    { split; intros Hin; destruct (Hk n) as [? ?]; [by left|congruence|by right|congruence]. }
    unfold place_ok, runs_again. simpl. naive_solver.
  - intros m Hm. apply lookup_insert_is_Some. destruct (decide (n = m)); [by left|right]. split; [done|by apply Hk].
  - intros m q f Hm Hf Hmr. destruct (decide (m = n)) as [->|Hne]; simplify_map_eq; by eapply Hr.
  - intros a b q r f g Ha Hb Hf Hg Hqa Hrb Heq.
    destruct (decide (a = n)) as [->|], (decide (b = n)) as [->|]; simplify_map_eq; try done.
    + exfalso. apply Hrb. by eapply Hfresh.
    + exfalso. apply Hqa. by eapply Hfresh.
    + by eapply Ht.
Qed.

(** Erasing by either side, which then is past its erasure. *)
Lemma erase_ok s n p p' e ok w :
  io_ok s -> places s !! n = Some p -> sentries (iow s) !! n = Some e -> io_state_ e = triggered ->
  tat p' = tat p -> (sat p' = sat p /\ wat p = WkErase /\ wat p' = WkDone \/ sat p = SwErase /\ sat p' = SwDone /\ wat p' = wat p) ->
  trigger_erase n (iow s) = (ok, w) -> io_ok (erased n p' ok w s).
Proof.
  intros Hok Hn He Htr Htat Hpc. pose proof (ok_place _ Hok _ _ _ Hn He) as (H1 & H2 & H3 & H4 & H5 & H6 & H7 & H8).
  unfold trigger_erase. rewrite He.
  destruct (queue_erase n _) as [q|] eqn:Eq; intros [= <- <-]; unfold erased.
  - destruct (queue_erase_some _ _ _ Eq (ok_queue _ Hok)) as (Hnd & Hin & Hq).
    pose proof (proj1 H3 Hin) as [Hb Hns].
    assert (n ∉ woken s) as Hnw by (rewrite H2; unfold runs_again; rewrite Hb; naive_solver).
    eapply update_ok; cbn [sentries wait_io_sentries_ io_runnable]; try done.
    + by rewrite insert_id.
    + apply nodup_snoc; [apply (ok_woken _ Hok)|done].
    + intros m Hm. rewrite Hq. naive_solver.
    + intros m Hm. set_solver.
    + unfold place_ok, runs_again in *. cbn [tat sat wat]. rewrite Htr in *.
      assert (wat p <> NoWaker) by naive_solver. split_and!.
      * split; [done|]. destruct Hpc as [(_ & _ & ->)|(_ & _ & ->)]; done.
      * split; [by left|]. intros _. set_solver.
      * rewrite Hq. naive_solver.
      * split; [done|]. destruct Hpc as [(-> & _)|(_ & -> & _)]; [|done]. intros E. apply H4 in E. congruence.
      * destruct Hpc as [(-> & _)|(_ & -> & _)]; [|done]. intros E. apply Hns in E. done.
      * done.
      * done.
      * done.
    + intros m r f Hm Hr Hf Hmr. apply elem_of_app. left. by eapply (ok_run _ Hok).
    + intros _. set_solver.
    + intros E. congruence.
  - apply queue_erase_none in Eq.
    assert (tat p <> Blocked \/ sat p = SwPush) as Hnb.
    { destruct (decide (sat p = SwPush)); [by right|left]. intros E. apply Eq. rewrite H3. done. }
    eapply update_ok; try done.
    + by rewrite insert_id.
    + apply (ok_queue _ Hok).
    + apply (ok_woken _ Hok).
    + unfold place_ok, runs_again in *. rewrite Htr, Htat in *.
      assert (wat p <> NoWaker) by naive_solver. split_and!; try done.
      * split; [done|]. destruct Hpc as [(_ & _ & ->)|(_ & _ & ->)]; done.
      * split; [done|]. intros [Hb Hs]. destruct Hpc as [(E & _)|(E & _)]; destruct Hnb; congruence.
      * destruct Hpc as [(-> & _)|(E & -> & _)]; [done|]. rewrite H4, E. done.
      * destruct Hpc as [(-> & _)|(E & -> & _)]; done.
      * intros Hs Hb. destruct Hpc as [(E & _)|(E & _)]; destruct Hnb; congruence.
    + intros. by eapply (ok_run _ Hok).
    + rewrite Htat. intros. by eapply (ok_run _ Hok).
    + congruence.
Qed.

Lemma place_known s n p : io_ok s -> places s !! n = Some p -> exists e, sentries (iow s) !! n = Some e.
Proof. intros Hok Hn. apply (ok_dom _ Hok). by rewrite Hn. Qed.

(** The steps that only change where the parties are. *)
Lemma move_ok s n p p' e :
  io_ok s -> places s !! n = Some p -> sentries (iow s) !! n = Some e ->
  (tat p' = MadeRunnable -> tat p = MadeRunnable) -> (tat p = Resumed -> tat p' = Resumed) ->
  place_ok p' (io_state_ e) (n ∈ wait_io_sentries_ (iow s)) (n ∈ woken s) ->
  io_ok (mkIoSys (iow s) (<[n := p']> (places s)) (woken s)).
Proof.
  intros Hok Hn He Hmr Hres Hp. eapply update_ok; try done.
  - by rewrite insert_id.
  - apply (ok_queue _ Hok).
  - apply (ok_woken _ Hok).
  - intros. by eapply (ok_run _ Hok).
  - intros H. by eapply (ok_run _ Hok); [..|apply Hmr].
Qed.

Lemma push_ok s n p e :
  io_ok s -> places s !! n = Some p -> sentries (iow s) !! n = Some e -> sat p = SwPush ->
  io_ok (mkIoSys (switch_push n (iow s)) (<[n := mkPlace (tat p) SwCheck (wat p)]> (places s)) (woken s)).
Proof.
  intros Hok Hn He Hs. pose proof (ok_place _ Hok _ _ _ Hn He) as (H1 & H2 & H3 & H4 & H5 & H6 & H7 & H8).
  specialize (H5 Hs). assert (n ∉ wait_io_sentries_ (iow s)) as Hnq by (rewrite H3; naive_solver).
  eapply (update_ok s n p _ e e); cbn [switch_push sentries wait_io_sentries_ io_runnable]; try done.
  - by rewrite insert_id.
  - apply nodup_snoc; [apply (ok_queue _ Hok)|done].
  - apply (ok_woken _ Hok).
  - intros m Hm. set_solver.
  - unfold place_ok, runs_again in *. cbn [tat sat wat]. rewrite H5 in *. split_and!; try done.
    split; [done|]. intros _. set_solver.
  - intros. by eapply (ok_run _ Hok).
  - cbn [tat]. rewrite H5. done.
Qed.

Lemma cas_ok s n p w :
  io_ok s -> places s !! n = Some p -> trigger_cas n (iow s) = (true, w) ->
  io_ok (mkIoSys w (<[n := mkPlace (tat p) (sat p) WkErase]> (places s)) (woken s)).
Proof.
  intros Hok Hn. destruct (place_known _ _ _ Hok Hn) as [e He].
  pose proof (ok_place _ Hok _ _ _ Hn He) as (H1 & H2 & H3 & H4 & H5 & H6 & H7 & H8).
  unfold trigger_cas, switch_state_to_triggered. rewrite He. destruct (io_state_ e) eqn:Es; [|done].
  intros [= <-]. eapply (update_ok s n p _ e); try done.
  - apply (ok_queue _ Hok).
  - apply (ok_woken _ Hok).
  - intros. by eapply (ok_run _ Hok).
  - cbn [tat]. intros. by eapply (ok_run _ Hok).
Qed.

Lemma cas_late s n p w : io_ok s -> places s !! n = Some p -> trigger_cas n (iow s) = (false, w) -> w = iow s.
Proof.
  intros Hok Hn. destruct (place_known _ _ _ Hok Hn) as [e He].
  unfold trigger_cas, switch_state_to_triggered. rewrite He. destruct (io_state_ e); [done|].
  intros [= <-]. rewrite insert_id by done. by destruct (iow s).
Qed.

Lemma resume_ok s n p e l1 l2 :
  io_ok s -> places s !! n = Some p -> tat p = MadeRunnable -> sentries (iow s) !! n = Some e ->
  io_runnable (iow s) = l1 ++ task_ptr_ e :: l2 ->
  io_ok (mkIoSys (mkIoWait (sentries (iow s)) (wait_io_sentries_ (iow s)) (l1 ++ l2))
           (<[n := mkPlace Resumed (sat p) (wat p)]> (places s)) (woken s)).
Proof.
  intros Hok Hn Hmr He Hl. pose proof (ok_place _ Hok _ _ _ Hn He) as (H1 & H2 & H3 & H4 & H5 & H6 & H7 & H8).
  eapply (update_ok s n p _ e e); cbn [sentries wait_io_sentries_ io_runnable]; try done.
  - by rewrite insert_id.
  - apply (ok_queue _ Hok).
  - apply (ok_woken _ Hok).
  - unfold place_ok, runs_again in *. cbn [tat sat wat]. rewrite Hmr in *. split_and!; try done; naive_solver.
  - intros m q f Hm Hq Hf Hqr. pose proof (ok_run _ Hok _ _ _ Hq Hf Hqr) as Hin. rewrite Hl in Hin.
    apply elem_of_app in Hin as [Hin|[Heq|Hin]%elem_of_cons]; [set_solver| |set_solver].
    exfalso. apply Hm. eapply (ok_task _ Hok m n); try done; congruence.
Qed.

Lemma io_step_ok s s' : io_step s s' -> io_ok s -> io_ok s'.
Proof.
  intros [s0 n tk fds Hs Hp Hf|s0 n p Hn Ht Hs|s0 n p Hn Hs|s0 n p Hn Hs|s0 n p ok w Hn Hs He|s0 n p w Hn Hc
         |s0 n p w Hn Hc|s0 n p ok w Hn Hw He|s0 n p e l1 l2 Hn Ht He Hl] Hok;
    try (destruct (place_known _ _ _ Hok Hn) as [e' He']);
    try (pose proof (ok_place _ Hok _ _ _ Hn He') as (H1 & H2 & H3 & H4 & H5 & H6 & H7 & H8)).
  - by apply create_ok.
  - eapply move_ok; try done; cbn [tat]; [congruence|].
    unfold place_ok, runs_again in *. cbn [tat sat wat]. rewrite Ht, Hs in *. split_and!; try done; naive_solver.
  - by eapply push_ok.
  - eapply move_ok; try done. unfold is_triggered. rewrite He'. unfold place_ok, runs_again in *. cbn [tat sat wat].
    rewrite Hs in *. rewrite H3, H4. case_bool_decide as Hst; split_and!; try done;
      try (split; [intros [? _]|intros [? _]]; done); try (split; done).
    intros _ _. destruct (io_state_ e'); [|done]. rewrite (proj1 H1 eq_refl). done.
  - eapply erase_ok; try done; [by apply H6|]. right. done.
  - by eapply cas_ok.
  - rewrite (cas_late _ _ _ _ Hok Hn Hc). by destruct s0.
  - eapply erase_ok; try done; [|by left].
    destruct (io_state_ e') eqn:Es; [|done]. rewrite (proj1 H1 eq_refl) in Hw. done.
  - by apply (resume_ok s0 n p e).
Qed.

Lemma io_reachable_ok s : star io_step io_start s -> io_ok s.
Proof.
  intros H. eapply star_invariant; [|exact H|]; [intros ??; apply io_step_ok|].
  constructor; cbn [io_start iow places woken IoWait_new sentries wait_io_sentries_].
  - intros n. by rewrite !lookup_empty.
  - constructor.
  - constructor.
  - intros n p e Hp. by rewrite lookup_empty in Hp.
  - intros n [Hn|Hn]; by apply not_elem_of_nil in Hn.
  - intros n p e Hp. by rewrite lookup_empty in Hp.
  - intros n m p q e f Hp. by rewrite lookup_empty in Hp.
Qed.

(** ** Wake-ups *)

(** The step of an erasure when the sentry waits. *)
Lemma erase_wakes s n e :
  io_ok s -> sentries (iow s) !! n = Some e -> n ∈ wait_io_sentries_ (iow s) ->
  exists w, trigger_erase n (iow s) = (true, w).
Proof.
  intros Hok He Hin. unfold trigger_erase. rewrite He.
  destruct (queue_erase_perm _ _ Hin) as (q & -> & _). by eexists.
Qed.

Lemma woken_at n p w s : places (erased n p true w s) !! n = Some (mkPlace MadeRunnable (sat p) (wat p)).
Proof. simpl. by simplify_map_eq. Qed.

(** The processer's side finishes the switch of a triggered sentry. *)
Lemma switch_wakes s n p e :
  io_ok s -> places s !! n = Some p -> sentries (iow s) !! n = Some e -> io_state_ e = triggered ->
  tat p = Blocked -> sat p <> SwDone ->
  exists s' p', star io_step s s' /\ places s' !! n = Some p' /\ tat p' = MadeRunnable.
Proof.
  intros Hok Hn He Htr Hb Hsd.
  assert (forall s p, io_ok s -> places s !! n = Some p -> sentries (iow s) !! n = Some e -> tat p = Blocked ->
    sat p = SwErase -> exists s' p', star io_step s s' /\ places s' !! n = Some p' /\ tat p' = MadeRunnable) as Herase.
  { clear s p Hok Hn He Hb Hsd. intros s p Hok Hn He Hb Hs.
    pose proof (ok_place _ Hok _ _ _ Hn He) as (_ & _ & H3 & _).
    destruct (erase_wakes s n e Hok He) as [w Hw]; [rewrite H3, Hs; done|].
    eexists _, _. split; [eapply star_step; [by eapply io_switch_erase|constructor]|].
    split; [apply woken_at|done]. }
  assert (forall s p, io_ok s -> places s !! n = Some p -> sentries (iow s) !! n = Some e -> tat p = Blocked ->
    sat p = SwCheck -> exists s' p', star io_step s s' /\ places s' !! n = Some p' /\ tat p' = MadeRunnable) as Hcheck.
  { clear s p Hok Hn He Hb Hsd. intros s p Hok Hn He Hb Hs.
    pose proof (io_check s n p Hn Hs) as Hstep. unfold is_triggered in Hstep. rewrite He, Htr in Hstep. cbn in Hstep.
    edestruct Herase as (s' & p' & Hst & Hp' & Hm); [by eapply io_step_ok| |done| | |].
    { cbn. by simplify_map_eq. } { done. } { done. }
    exists s', p'. split; [by eapply star_step|done]. }
  pose proof (ok_place _ Hok _ _ _ Hn He) as (_ & _ & _ & H4 & _).
  destruct (sat p) eqn:Es; [| | |by eapply Herase|done].
  - rewrite (proj2 H4 eq_refl) in Hb. done.
  - pose proof (io_push s n p Hn Es) as Hstep.
    edestruct Hcheck as (s' & p' & Hst & Hp' & Hm); [by eapply io_step_ok| |done| | |].
    { cbn. by simplify_map_eq. } { done. } { done. }
    exists s', p'. split; [by eapply star_step|done].
  - by eapply Hcheck.
Qed.

(** C14: A coroutine that waits for I/O is woken exactly once.  In every
    interleaving of polls, of the processers' switches and of triggers by
    epoll, timers and closes: a task becomes runnable only because its sentry
    was triggered, and at most once per poll; when the switch is over and no
    trigger is on its way, a blocked task's sentry is untriggered and in the
    wait list, where the next trigger finds it; and a blocked task whose
    sentry is triggered becomes runnable in finitely many steps of the
    processer or of the trigger, at whatever point they meet. *)
Theorem io_wakeup_once s n p e :
  star io_step io_start s -> places s !! n = Some p -> sentries (iow s) !! n = Some e ->
  NoDup (woken s) /\ (n ∈ woken s -> io_state_ e = triggered) /\
  (tat p = MadeRunnable -> task_ptr_ e ∈ io_runnable (iow s)) /\
  (tat p = Blocked -> sat p = SwDone -> wat p <> WkErase ->
     io_state_ e = pending /\ n ∈ wait_io_sentries_ (iow s)) /\
  (tat p = Blocked -> io_state_ e = triggered ->
     exists s' p', star io_step s s' /\ places s' !! n = Some p' /\ tat p' = MadeRunnable).
Proof.
  intros Hreach Hn He. pose proof (io_reachable_ok s Hreach) as Hok.
  pose proof (ok_place _ Hok _ _ _ Hn He) as (H1 & H2 & H3 & H4 & H5 & H6 & H7 & H8).
  split; [apply (ok_woken _ Hok)|]. split; [naive_solver|]. split; [by eapply (ok_run _ Hok)|]. split.
  - intros Hb Hs Hw. split; [|rewrite H3, Hs; done]. apply H1.
    specialize (H7 Hs Hb). by destruct (wat p).
  - intros Hb Htr. destruct (decide (sat p = SwDone)) as [Hs|Hs]; [|by eapply switch_wakes].
    assert (wat p = WkErase) as Hw.
    { specialize (H7 Hs Hb). destruct (wat p) eqn:Ew; try done. rewrite (proj2 H1 eq_refl) in Htr. done. }
    destruct (erase_wakes s n e Hok He) as [w Hwk]; [rewrite H3, Hs; done|].
    eexists _, _. split; [eapply star_step; [by eapply io_trigger_erase|constructor]|].
    split; [apply woken_at|done].
Qed.

(** A trigger that comes before the processer has pushed the sentry. *)
Definition demo_early : iosys :=
  mkIoSys (mkIoWait {[1%nat := mkSentry triggered [] None 7]} [1%nat] [])
    {[1%nat := mkPlace Blocked SwCheck WkDone]} [].

Lemma demo_early_reached : star io_step io_start demo_early.
Proof.
  eapply star_step; [apply (io_create _ 1 7 []); vm_compute; done|].
  eapply star_step; [eapply (io_yield _ 1); vm_compute; reflexivity|].
  eapply star_step; [eapply (io_trigger _ 1); vm_compute; reflexivity|].
  eapply star_step; [eapply (io_trigger_erase _ 1); vm_compute; reflexivity|].
  eapply star_step; [eapply (io_push _ 1); vm_compute; reflexivity|]. apply star_refl.
Qed.

Lemma io_wakeup_once_witness :
  exists s' p', star io_step demo_early s' /\ places s' !! 1%nat = Some p' /\ tat p' = MadeRunnable.
Proof.
  apply (io_wakeup_once demo_early 1 (mkPlace Blocked SwCheck WkDone) (mkSentry triggered [] None 7));
    [apply demo_early_reached|reflexivity..].
Defined.
