(* ===== verification/FdContext.v ===== *)
(** * Contexts of file descriptors

    [libgo/linux/fd_context.{h,cpp}] and the parts of [io_wait.cpp] that talk to
    epoll.  A [FileDescriptorCtx] keeps, for one descriptor, the tasks that wait
    for it and the events epoll is asked for; [FdManager] keeps the contexts by
    descriptor and [dup] lets two descriptors share one.  The operating system
    is the parameter [Kernel], a set of operations on a world state; [KernelLaws]
    is what its manual says about the ones the theorems rely on.  [None] as the
    result of an operation means that the process has ended, by [exit] or by a
    failed assertion.  Every method runs under the lock of its object. *)
From S2P Require Import Prelude StdString StdMap SnowFlake IoWait.

Definition O_NONBLOCK : Z := 2048.
Definition ENOENT : Z := 2.
Definition EPERM : Z := 1.

Inductive epoll_mod : Type := EPOLL_CTL_ADD | EPOLL_CTL_MOD | EPOLL_CTL_DEL.

(** System calls; an [option Z] that reports an error is [Some errno]. *)
Class Kernel (W : Type) := {
  sys_fstat : Z -> W -> option bool;
  sys_getfl : Z -> W -> Z;
  sys_setfl : Z -> Z -> W -> Z * W;
  sys_close : Z -> W -> Z * W;
  sys_epoll_create : Z -> W -> option Z * W;
  sys_epoll_ctl : Z -> epoll_mod -> Z -> Z -> W -> option Z * W;
  sys_getpid : W -> Z
}.

Section FdContext.
Context {W : Type} `{K : Kernel W}.

(** ** The epoll descriptor of a thread: [IoWait::GetEpollFd] and friends

    The world with the thread-local [epoll_fd] and [owner_pid] of the calling
    thread. *)
Record env : Type := mkEnv { world : W; tls_epoll_fd : Z; tls_owner_pid : Z; epoll_event_size_ : Z }.
Definition set_world (w : W) (e : env) : env := mkEnv w (tls_epoll_fd e) (tls_owner_pid e) (epoll_event_size_ e).

(** [option_size] is the scheduler's [epoll_event_size]. *)
Definition CreateEpoll (option_size : Z) (e : env) : option env :=
  let pid := sys_getpid (world e) in
  if tls_owner_pid e =? pid then Some e else
  let w := if 0 <=? tls_epoll_fd e then snd (sys_close (tls_epoll_fd e) (world e)) else world e in
  match sys_epoll_create option_size w with
  | (Some epfd, w) => Some (mkEnv w epfd pid option_size)
  | (None, _) => None
  end.
Definition GetEpollFd_io (option_size : Z) (e : env) : option (Z * env) :=
  e ← CreateEpoll option_size e; Some (tls_epoll_fd e, e).
Definition IsEpollCreated (e : env) : bool :=
  negb (tls_epoll_fd e =? -1) && (tls_owner_pid e =? sys_getpid (world e)).

Definition reactor_ctl (epollfd : Z) (mod_ : epoll_mod) (fd poll_events : Z) (is_socket : bool) (e : env) :
    option Z * env :=
  if is_socket then
    let '(r, w) := sys_epoll_ctl epollfd mod_ fd (PollEvent2Epoll poll_events) (world e) in (r, set_world w e)
  else (Some EPERM, e).

(** ** [FileDescriptorCtx] *)

Definition TaskWSet : Type := list (nat * nat).
Definition TriggerSet : Type := list (nat * unit).

Record FileDescriptorCtx : Type := mkCtx {
  is_initialize_ : bool; is_socket_ : bool; sys_nonblock_ : bool; user_nonblock_ : bool; closed_ : bool;
  fd_ : Z; pending_events_ : Z; recv_o_ : timeval; send_o_ : timeval;
  i_tasks_ : TaskWSet; o_tasks_ : TaskWSet; io_tasks_ : TaskWSet;
  epoll_fd_ : Z; owner_pid_ : Z }.

Definition set_user_nonblock (b : bool) (c : FileDescriptorCtx) : FileDescriptorCtx :=
  mkCtx (is_initialize_ c) (is_socket_ c) (sys_nonblock_ c) b (closed_ c) (fd_ c) (pending_events_ c)
    (recv_o_ c) (send_o_ c) (i_tasks_ c) (o_tasks_ c) (io_tasks_ c) (epoll_fd_ c) (owner_pid_ c).
Definition set_sys_nonblock (b : bool) (c : FileDescriptorCtx) : FileDescriptorCtx :=
  mkCtx (is_initialize_ c) (is_socket_ c) b (user_nonblock_ c) (closed_ c) (fd_ c) (pending_events_ c)
    (recv_o_ c) (send_o_ c) (i_tasks_ c) (o_tasks_ c) (io_tasks_ c) (epoll_fd_ c) (owner_pid_ c).
Definition set_pending_events (events : Z) (c : FileDescriptorCtx) : FileDescriptorCtx :=
  mkCtx (is_initialize_ c) (is_socket_ c) (sys_nonblock_ c) (user_nonblock_ c) (closed_ c) (fd_ c) events
    (recv_o_ c) (send_o_ c) (i_tasks_ c) (o_tasks_ c) (io_tasks_ c) (epoll_fd_ c) (owner_pid_ c).
Definition set_tasks (i o io : TaskWSet) (c : FileDescriptorCtx) : FileDescriptorCtx :=
  mkCtx (is_initialize_ c) (is_socket_ c) (sys_nonblock_ c) (user_nonblock_ c) (closed_ c) (fd_ c)
    (pending_events_ c) (recv_o_ c) (send_o_ c) i o io (epoll_fd_ c) (owner_pid_ c).
Definition set_epoll (epfd pid : Z) (c : FileDescriptorCtx) : FileDescriptorCtx :=
  mkCtx (is_initialize_ c) (is_socket_ c) (sys_nonblock_ c) (user_nonblock_ c) (closed_ c) (fd_ c)
    (pending_events_ c) (recv_o_ c) (send_o_ c) (i_tasks_ c) (o_tasks_ c) (io_tasks_ c) epfd pid.

Inductive timeo_type : Type := SO_RCVTIMEO | SO_SNDTIMEO.
Definition set_time_o (type : timeo_type) (tv : timeval) (c : FileDescriptorCtx) : FileDescriptorCtx :=
  mkCtx (is_initialize_ c) (is_socket_ c) (sys_nonblock_ c) (user_nonblock_ c) (closed_ c) (fd_ c)
    (pending_events_ c) (if type is SO_RCVTIMEO then tv else recv_o_ c)
    (if type is SO_RCVTIMEO then send_o_ c else tv)
    (i_tasks_ c) (o_tasks_ c) (io_tasks_ c) (epoll_fd_ c) (owner_pid_ c).
Definition get_time_o (type : timeo_type) (c : FileDescriptorCtx) : timeval :=
  if type is SO_RCVTIMEO then recv_o_ c else send_o_ c.

(** A new object before its constructor's body. *)
Definition ctx_blank (fd : Z) : FileDescriptorCtx :=
  mkCtx false false false false false fd 0 (mkTv 0 0) (mkTv 0 0) [] [] [] (-1) (-1).

Definition re_initialize (c : FileDescriptorCtx) (w : W) : bool * FileDescriptorCtx * W :=
  if is_initialize_ c then (true, c, w) else
  let '(init, sock) := match sys_fstat (fd_ c) w with None => (false, false) | Some s => (true, s) end in
  let w := if sock then
             let flags := sys_getfl (fd_ c) w in
             if has flags O_NONBLOCK then w else snd (sys_setfl (fd_ c) (Z.lor flags O_NONBLOCK) w)
           else w in
  (init, mkCtx init sock sock false false (fd_ c) 0 (mkTv 0 0) (mkTv 0 0)
           (i_tasks_ c) (o_tasks_ c) (io_tasks_ c) (epoll_fd_ c) (owner_pid_ c), w).

Definition FileDescriptorCtx_new (fd : Z) (w : W) : FileDescriptorCtx * W :=
  let '(_, c, w) := re_initialize (ctx_blank fd) w in (c, w).

(** [~FileDescriptorCtx]: whether its assertions hold. *)
Definition destructor_ok (c : FileDescriptorCtx) : bool :=
  bool_decide (i_tasks_ c = []) && bool_decide (o_tasks_ c = []) && bool_decide (io_tasks_ c = []) &&
  (pending_events_ c =? 0) && closed_ c.

Definition GetEpollFd (size : Z) (c : FileDescriptorCtx) (e : env) : option (Z * FileDescriptorCtx * env) :=
  let pid := sys_getpid (world e) in
  if (epoll_fd_ c =? -1) || negb (owner_pid_ c =? pid) then
    '(epfd, e) ← GetEpollFd_io size e;
    Some (epfd, set_epoll epfd (sys_getpid (world e)) c, e)
  else Some (epoll_fd_ c, c, e).

Definition IN_OUT : Z := Z.lor POLLIN POLLOUT.

(** [ChooseSet]: which of the three sets. *)
Inductive which : Type := SetI | SetO | SetIO.
Definition ChooseSet (events : Z) : which :=
  let events := Z.land events IN_OUT in
  if events =? POLLIN then SetI else if events =? POLLOUT then SetO else SetIO.
Definition get_set (s : which) (c : FileDescriptorCtx) : TaskWSet :=
  match s with SetI => i_tasks_ c | SetO => o_tasks_ c | SetIO => io_tasks_ c end.
Definition put_set (s : which) (l : TaskWSet) (c : FileDescriptorCtx) : FileDescriptorCtx :=
  match s with
  | SetI => set_tasks l (o_tasks_ c) (io_tasks_ c) c
  | SetO => set_tasks (i_tasks_ c) l (io_tasks_ c) c
  | SetIO => set_tasks (i_tasks_ c) (o_tasks_ c) l c
  end.

(** [add_into_reactor] of sentry [n] of task [tk]. *)
Definition add_into_reactor (size poll_events : Z) (n tk : nat) (c : FileDescriptorCtx) (e : env) :
    option (bool * FileDescriptorCtx * env) :=
  if closed_ c then Some (false, c, e) else
  let s := ChooseSet poll_events in
  let poll_events := Z.land poll_events IN_OUT in
  let store c := put_set s (map_put tk n (get_set s c)) c in
  if has poll_events (Z.lnot (pending_events_ c)) then
    let events := Z.lor (pending_events_ c) poll_events in
    '(epfd, c, e) ← GetEpollFd size c e;
    if pending_events_ c =? 0 then
      match reactor_ctl epfd EPOLL_CTL_ADD (fd_ c) events (is_socket_ c) e with
      | (Some _, e) => Some (false, c, e)
      | (None, e) => Some (true, store (set_pending_events events c), e)
      end
    else
      match reactor_ctl epfd EPOLL_CTL_MOD (fd_ c) events (is_socket_ c) e with
      | (Some err, e) => if err =? ENOENT then None else Some (false, c, e)
      | (None, e) => Some (true, store (set_pending_events events c), e)
      end
  else Some (true, store c, e).

(** [del_events]: an error of [epoll_ctl] is only reported. *)
Definition del_events (size poll_events : Z) (c : FileDescriptorCtx) (e : env) : option (FileDescriptorCtx * env) :=
  let new_pending_event := Z.land (pending_events_ c) (Z.lnot poll_events) in
  if new_pending_event =? pending_events_ c then Some (c, e) else
  '(epfd, c, e) ← GetEpollFd size c e;
  let '(_, e) := if new_pending_event =? 0
                 then reactor_ctl epfd EPOLL_CTL_DEL (fd_ c) 0 (is_socket_ c) e
                 else reactor_ctl epfd EPOLL_CTL_MOD (fd_ c) new_pending_event (is_socket_ c) e in
  Some (set_pending_events new_pending_event c, e).

Definition is_nil {A} (l : list A) : bool := match l with [] => true | _ :: _ => false end.

Definition del_from_reactor (size poll_events : Z) (tk : nat) (c : FileDescriptorCtx) (e : env) :
    option (FileDescriptorCtx * env) :=
  if closed_ c then Some (c, e) else
  if pending_events_ c =? 0 then Some (c, e) else
  let s := ChooseSet poll_events in
  match map_find tk (get_set s c) with
  | None => Some (c, e)
  | Some _ =>
      let l := map_erase tk (get_set s c) in
      let c := put_set s l c in
      if negb (is_nil l) then Some (c, e) else
      let del_event :=
        match s with
        | SetI => if is_nil (io_tasks_ c) then POLLIN else 0
        | SetO => if is_nil (io_tasks_ c) then POLLOUT else 0
        | SetIO => Z.lor (if is_nil (i_tasks_ c) then POLLIN else 0) (if is_nil (o_tasks_ c) then POLLOUT else 0)
        end in
      if del_event =? 0 then Some (c, e) else del_events size del_event c e
  end.

(** [clear_expired_sentry]: entries whose sentry is gone. *)
Definition clear_expired_sentry (ss : gmap nat IoSentry) (c : FileDescriptorCtx) : FileDescriptorCtx :=
  let live := List.filter (fun '(_, n) => bool_decide (is_Some (ss !! n))) in
  set_tasks (live (i_tasks_ c)) (live (o_tasks_ c)) (live (io_tasks_ c)) c.

(** ** Triggers *)

Definition trigger_revents (fd events : Z) (p : pollfd) : pollfd :=
  if IoWait.fd p =? fd then
    if negb (has events IN_OUT) then set_revents (Z.land events (Z.lnot IN_OUT)) p
    else if negb (has events POLLIN) then set_revents (Z.land events (Z.lnot POLLIN)) p
    else if negb (has events POLLOUT) then set_revents (Z.land events (Z.lnot POLLOUT)) p
    else set_revents events p
  else p.

(** [trigger_task_list]; a weak pointer to a sentry that is gone is skipped.
    The caller clears the set. *)
Fixpoint trigger_task_list (fd events : Z) (tasks : TaskWSet) (ss : gmap nat IoSentry) (output : TriggerSet) :
    gmap nat IoSentry * TriggerSet :=
  match tasks with
  | [] => (ss, output)
  | (_, n) :: tasks' =>
      match ss !! n with
      | None => trigger_task_list fd events tasks' ss output
      | Some s =>
          trigger_task_list fd events tasks'
            (<[n := with_watch (map (trigger_revents fd events) (watch_fds_ s)) s]> ss) (map_insert n tt output)
      end
  end.

Definition reactor_trigger (size poll_events : Z) (c : FileDescriptorCtx) (ss : gmap nat IoSentry)
    (output : TriggerSet) (e : env) : option (FileDescriptorCtx * gmap nat IoSentry * TriggerSet * env) :=
  if closed_ c then Some (c, ss, output, e) else
  let run := trigger_task_list (fd_ c) poll_events in
  if has poll_events (Z.lnot IN_OUT) then
    let '(ss, output) := run (i_tasks_ c) ss output in
    let '(ss, output) := run (o_tasks_ c) ss output in
    let '(ss, output) := run (io_tasks_ c) ss output in
    '(c, e) ← del_events size IN_OUT (set_tasks [] [] [] c) e;
    Some (c, ss, output, e)
  else
    let '(c, ss, output) :=
      if has poll_events POLLIN then
        let '(ss, output) := run (i_tasks_ c) ss output in
        let '(ss, output) := run (io_tasks_ c) ss output in
        (set_tasks [] (o_tasks_ c) [] c, ss, output)
      else (c, ss, output) in
    let '(c, ss, output) :=
      if has poll_events POLLOUT then
        let '(ss, output) := run (o_tasks_ c) ss output in
        let '(ss, output) := run (io_tasks_ c) ss output in
        (set_tasks (i_tasks_ c) [] [] c, ss, output)
      else (c, ss, output) in
    '(c, e) ← del_events size poll_events c e;
    Some (c, ss, output, e).

(** The loop of [close] over one set. *)
Definition invalid_revents (fd : Z) (p : pollfd) : pollfd :=
  if IoWait.fd p =? fd then set_revents POLLNVAL p else p.
Fixpoint close_tasks (fd : Z) (tasks : TaskWSet) (w : IoWait) : IoWait :=
  match tasks with
  | [] => w
  | (_, n) :: tasks' =>
      match sentries w !! n with
      | None => close_tasks fd tasks' w
      | Some s =>
          let ss := <[n := with_watch (map (invalid_revents fd) (watch_fds_ s)) s]> (sentries w) in
          close_tasks fd tasks' (IOBlockTriggered n (mkIoWait ss (wait_io_sentries_ w) (io_runnable w)))
      end
  end.

Definition ctx_close (call_syscall : bool) (c : FileDescriptorCtx) (iw : IoWait) (w : W) :
    Z * FileDescriptorCtx * IoWait * W :=
  if closed_ c then (0, c, iw, w) else
  let '(ret, w) := if call_syscall then sys_close (fd_ c) w else (0, w) in
  let iw := close_tasks (fd_ c) (i_tasks_ c) iw in
  let iw := close_tasks (fd_ c) (o_tasks_ c) iw in
  let iw := close_tasks (fd_ c) (io_tasks_ c) iw in
  (ret, mkCtx (is_initialize_ c) (is_socket_ c) (sys_nonblock_ c) (user_nonblock_ c) true (fd_ c) 0
          (recv_o_ c) (send_o_ c) [] [] [] (epoll_fd_ c) (owner_pid_ c), iw, w).

(** ** [FdManager]

    The contexts are shared objects: [heap] holds them by address, and a
    descriptor's pair is the address of its context or null.  [get_pair] grows
    the deque in a section of its own after it has looked at its size. *)
Record fds : Type := mkFds {
  fd_env : env; fd_iow : IoWait; heap : gmap nat FileDescriptorCtx; next_ctx : nat;
  fd_deque_ : list (option nat); big_fds_ : gmap Z (option nat) }.

(** [std::deque::resize]. *)
Definition resize {A} (n : nat) (x : A) (l : list A) : list A := take n l ++ replicate (n - length l) x.

Definition is_big (fd : Z) : bool := (8000000 <=? fd) || (fd <? 0).
Definition get_pair (fd : Z) (g : fds) : fds :=
  if is_big fd then
    mkFds (fd_env g) (fd_iow g) (heap g) (next_ctx g) (fd_deque_ g)
      (match big_fds_ g !! fd with Some _ => big_fds_ g | None => <[fd := None]> (big_fds_ g) end)
  else if sz (fd_deque_ g) <=? fd then
    mkFds (fd_env g) (fd_iow g) (heap g) (next_ctx g) (resize (Z.to_nat (fd + 1)) None (fd_deque_ g)) (big_fds_ g)
  else g.

(** Reading and writing the pointer of the pair that [get_pair] returned. *)
Definition pair_ptr (fd : Z) (g : fds) : option nat :=
  if is_big fd then mjoin (big_fds_ g !! fd) else mjoin (fd_deque_ g !! Z.to_nat fd).
Definition set_ptr (fd : Z) (p : option nat) (g : fds) : fds :=
  if is_big fd then
    mkFds (fd_env g) (fd_iow g) (heap g) (next_ctx g) (fd_deque_ g) (<[fd := p]> (big_fds_ g))
  else mkFds (fd_env g) (fd_iow g) (heap g) (next_ctx g) (<[Z.to_nat fd := p]> (fd_deque_ g)) (big_fds_ g).

Definition set_ctx (p : nat) (c : FileDescriptorCtx) (e : env) (iw : IoWait) (g : fds) : fds :=
  mkFds e iw (<[p := c]> (heap g)) (next_ctx g) (fd_deque_ g) (big_fds_ g).
Definition new_ctx (c : FileDescriptorCtx) (g : fds) : nat * fds :=
  (next_ctx g, mkFds (fd_env g) (fd_iow g) (<[next_ctx g := c]> (heap g)) (S (next_ctx g)) (fd_deque_ g) (big_fds_ g)).
Definition with_world (w : W) (g : fds) : fds :=
  mkFds (set_world w (fd_env g)) (fd_iow g) (heap g) (next_ctx g) (fd_deque_ g) (big_fds_ g).

(** [get]: the address of the context, made when there is none. *)
Definition get (fd : Z) (g : fds) : option (nat * fds) :=
  let '(p, g) :=
    match pair_ptr fd g with
    | Some p => (p, g)
    | None =>
        let '(c, w) := FileDescriptorCtx_new fd (world (fd_env g)) in
        let '(p, g) := new_ctx c (with_world w g) in (p, set_ptr fd (Some p) g)
    end in
  c ← heap g !! p;
  let '(_, c, w) := re_initialize c (world (fd_env g)) in
  Some (p, set_ctx p c (set_world w (fd_env g)) (fd_iow g) g).

Definition get_fd_ctx (fd : Z) (g : fds) : option (option nat * fds) :=
  if fd <? 0 then Some (None, g) else
  '(p, g) ← get fd (get_pair fd g);
  c ← heap g !! p;
  Some (if is_initialize_ c then Some p else None, g).

(** [FdManager::close]. *)
Definition mgr_close (fd : Z) (call_syscall : bool) (g : fds) : option (Z * fds) :=
  if fd <? 0 then Some (0, g) else
  let g := get_pair fd g in
  match pair_ptr fd g with
  | None =>
      if call_syscall then
        let '(r, w) := sys_close fd (world (fd_env g)) in Some (r, with_world w g)
      else Some (0, g)
  | Some p =>
      c ← heap g !! p;
      let '(ret, c, iw, w) := ctx_close call_syscall c (fd_iow g) (world (fd_env g)) in
      Some (ret, set_ptr fd None (set_ctx p c (set_world w (fd_env g)) iw g))
  end.

(** [FdManager::dup]. *)
Definition mgr_dup (src dst : Z) (g : fds) : option (bool * fds) :=
  '(p, g) ← get src (get_pair src g);
  c ← heap g !! p;
  if negb (is_initialize_ c) then Some (false, g) else
  let g := get_pair dst g in
  match pair_ptr dst g with
  | Some _ => Some (false, g)
  | None => Some (true, set_ptr dst (Some p) g)
  end.

(** [~IoSentry]: the task leaves the sets of every descriptor it watched. *)
Fixpoint sentry_leave (size : Z) (watch : list pollfd) (tk : nat) (g : fds) : option fds :=
  match watch with
  | [] => Some g
  | pfd :: watch' =>
      '(o, g) ← get_fd_ctx (IoWait.fd pfd) g;
      g ← match o with
          | None => Some g
          | Some p =>
              c ← heap g !! p;
              '(c, e) ← del_from_reactor size (events pfd) tk c (fd_env g);
              Some (set_ctx p c e (fd_iow g) g)
          end;
      sentry_leave size watch' tk g
  end.
Definition IoSentry_destroy (size : Z) (n : nat) (g : fds) : option fds :=
  match sentries (fd_iow g) !! n with
  | None => Some g
  | Some s =>
      g ← sentry_leave size (watch_fds_ s) (task_ptr_ s) g;
      Some (mkFds (fd_env g) (mkIoWait (delete n (sentries (fd_iow g))) (wait_io_sentries_ (fd_iow g))
                                (io_runnable (fd_iow g))) (heap g) (next_ctx g) (fd_deque_ g) (big_fds_ g))
  end.

(** ** [IoWait::WaitLoop]

    The results of [epoll_wait] in order: interrupted, another error, or the
    descriptors that are ready with their events. *)
Inductive epoll_result : Type := EpIntr | EpError | EpReady (evs : list (Z * Z)).

Fixpoint collect_triggers (size : Z) (evs : list (Z * Z)) (g : fds) (triggers : TriggerSet) :
    option (fds * TriggerSet) :=
  match evs with
  | [] => Some (g, triggers)
  | (fd, ev) :: evs' =>
      '(o, g) ← get_fd_ctx fd g;
      match o with
      | None => collect_triggers size evs' g triggers
      | Some p =>
          c ← heap g !! p;
          '(c, ss, triggers, e) ←
            reactor_trigger size (EpollEvent2Poll ev) c (sentries (fd_iow g)) triggers (fd_env g);
          let iw := mkIoWait ss (wait_io_sentries_ (fd_iow g)) (io_runnable (fd_iow g)) in
          collect_triggers size evs' (set_ctx p c e iw g) triggers
      end
  end.

Definition fire (triggers : TriggerSet) (iw : IoWait) : IoWait :=
  fold_left (fun iw '(n, _) => IOBlockTriggered n iw) triggers iw.

(** [Some None] is a call that is still blocked in [epoll_wait]. *)
Fixpoint WaitLoop (size : Z) (results : list epoll_result) (g : fds) : option (option Z * fds) :=
  if negb (IsEpollCreated (fd_env g)) then Some (Some (-1), g) else
  match results with
  | [] => Some (None, g)
  | EpIntr :: results' => WaitLoop size results' g
  | EpError :: _ => Some (Some 0, g)
  | EpReady evs :: _ =>
      '(g, triggers) ← collect_triggers size evs g [];
      Some (Some (sz evs), mkFds (fd_env g) (fire triggers (fd_iow g)) (heap g) (next_ctx g) (fd_deque_ g) (big_fds_ g))
  end.

(** ** What the manual says about epoll and close

    [registered w ep fd] is what the epoll set [ep] watches the file that [fd]
    refers to now for, under the number [fd].  What [close] does to it is left
    open: an entry stays in the set while duplicates of the descriptor are open. *)
Class KernelLaws : Type := {
  registered : W -> Z -> Z -> option Z;
  ctl_pid ep m fd ev w : sys_getpid (snd (sys_epoll_ctl ep m fd ev w)) = sys_getpid w;
  ctl_other ep m fd ev w ep' fd' : (ep', fd') <> (ep, fd) ->
    registered (snd (sys_epoll_ctl ep m fd ev w)) ep' fd' = registered w ep' fd';
  ctl_add ep fd ev w r w' : registered w ep fd = None -> sys_epoll_ctl ep EPOLL_CTL_ADD fd ev w = (r, w') ->
    registered w' ep fd = match r with None => Some ev | Some _ => None end;
  ctl_mod ep fd ev w old : registered w ep fd = Some old ->
    exists w', sys_epoll_ctl ep EPOLL_CTL_MOD fd ev w = (None, w') /\ registered w' ep fd = Some ev;
  ctl_del ep fd w ev old : registered w ep fd = Some old ->
    exists w', sys_epoll_ctl ep EPOLL_CTL_DEL fd ev w = (None, w') /\ registered w' ep fd = None;
  create_pid n w : sys_getpid (snd (sys_epoll_create n w)) = sys_getpid w;
  create_fd n w ep w' : sys_epoll_create n w = (Some ep, w') ->
    0 <= ep /\ forall ep' fd, registered w' ep' fd = registered w ep' fd;
  close_pid fd w : sys_getpid (snd (sys_close fd w)) = sys_getpid w
}.
Context {L : KernelLaws}.

(** ** Event masks *)

Definition in_out_mask (x : Z) : Prop := x = 0 \/ x = POLLIN \/ x = POLLOUT \/ x = IN_OUT.

Lemma in_out_land e : in_out_mask (Z.land e IN_OUT).
Proof.
  assert (Z.land e IN_OUT = Z.land (e mod 8) IN_OUT) as ->.
  { change 8 with (2 ^ 3). rewrite <- Z.land_ones, <- Z.land_assoc by lia. done. }
  pose proof (Z.mod_pos_bound e 8 ltac:(lia)) as Hb. set (r := e mod 8) in *.
  assert (r = 0 \/ r = 1 \/ r = 2 \/ r = 3 \/ r = 4 \/ r = 5 \/ r = 6 \/ r = 7) as Hc by lia.
  unfold in_out_mask. destruct Hc as [->|[->|[->|[->|[->|[->|[->| ->]]]]]]]; vm_compute; tauto.
Qed.

(** Case analysis on masks. *)
Ltac mask_cases :=
  repeat match goal with
  | H : in_out_mask ?x |- _ => destruct H as [H|[H|[H|H]]]; rewrite ?H in *
  end.

(** ** The invariant of one context *)

Definition env_ok (e : env) : Prop :=
  (tls_owner_pid e = sys_getpid (world e) /\ 0 <= tls_epoll_fd e) \/
  (tls_owner_pid e <> sys_getpid (world e) /\ tls_epoll_fd e = -1).

(** What epoll watches is what the context recorded, as long as it is open. *)
Record reg_ok (c : FileDescriptorCtx) (e : env) : Prop := {
  r_env : env_ok e;
  r_fd : (epoll_fd_ c = -1 /\ pending_events_ c = 0) \/ (0 <= epoll_fd_ c /\ owner_pid_ c = sys_getpid (world e));
  r_reg ep : closed_ c = false -> registered (world e) ep (fd_ c) =
    if decide (ep = epoll_fd_ c /\ pending_events_ c <> 0) then Some (PollEvent2Epoll (pending_events_ c)) else None;
  r_mask : in_out_mask (pending_events_ c);
  r_sock : is_socket_ c = true \/ pending_events_ c = 0;
  r_open : pending_events_ c <> 0 -> closed_ c = false }.

Lemma GetEpollFd_io_ok size e epfd e' :
  env_ok e -> GetEpollFd_io size e = Some (epfd, e') ->
  0 <= epfd /\ env_ok e' /\ sys_getpid (world e') = sys_getpid (world e) /\
  forall ep fd, registered (world e') ep fd = registered (world e) ep fd.
Proof.
  intros He. unfold GetEpollFd_io, CreateEpoll.
  destruct (tls_owner_pid e =? sys_getpid (world e)) eqn:E; zbool.
  - intros [= <- <-]. destruct He as [[_ ?]|[? _]]; [|done]. split_and!; try done. by left.
  - destruct He as [[? _]|[_ He]]; [done|]. rewrite He. change (0 <=? -1) with false. cbv iota zeta.
    pose proof (create_pid size (world e)) as Hpid.
    destruct (sys_epoll_create size (world e)) as [[ep|] w] eqn:Ec; [|done]. intros [= <- <-]. simpl in *.
    destruct (create_fd _ _ _ _ Ec) as [Hep Hreg]. split_and!; try done. left. done.
Qed.

Lemma GetEpollFd_ok size c e epfd c' e' :
  reg_ok c e -> GetEpollFd size c e = Some (epfd, c', e') ->
  reg_ok c' e' /\ 0 <= epfd /\ c' = set_epoll epfd (sys_getpid (world e')) c /\
  sys_getpid (world e') = sys_getpid (world e).
Proof.
  intros Hok. pose proof Hok as [He Hf Hr Hm Hs Hcl]. unfold GetEpollFd.
  destruct ((epoll_fd_ c =? -1) || negb (owner_pid_ c =? sys_getpid (world e))) eqn:Eb.
  - destruct (GetEpollFd_io size e) as [[ep e1]|] eqn:Eg; [|done]. simpl. intros [= <- <- <-].
    destruct (GetEpollFd_io_ok _ _ _ _ He Eg) as (Hep & He1 & Hpid & Hreg). split_and!; try done.
    assert (pending_events_ c = 0) as Hp.
    { destruct Hf as [[_ ?]|[? Ho]]; [done|]. apply orb_true_iff in Eb as [Eb|Eb]; zbool; [lia|].
      rewrite Ho, Z.eqb_refl in Eb. done. }
    constructor; cbn; try done; [by right|]. intros ep' Ho. rewrite Hreg, Hr, Hp by done.
    by rewrite !decide_False by naive_solver.
  - apply orb_false_iff in Eb as [E1 E2]. zbool. apply negb_false_iff, Z.eqb_eq in E2.
    intros [= <- <- <-]. destruct Hf as [[? _]|[? Ho]]; [done|]. split_and!; try done.
    rewrite <- E2. by destruct c.
Qed.

(** With events pending the epoll descriptor is there. *)
Lemma GetEpollFd_pending size c e :
  reg_ok c e -> pending_events_ c <> 0 -> GetEpollFd size c e = Some (epoll_fd_ c, c, e).
Proof.
  intros [He Hf Hr Hm Hs _] Hp. destruct Hf as [[_ ?]|[? Ho]]; [done|]. unfold GetEpollFd.
  rewrite Ho, Z.eqb_refl. assert (epoll_fd_ c =? -1 = false) as -> by (apply Z.eqb_neq; lia). done.
Qed.

(** A change of the registration together with [pending_events_]. *)
Lemma reg_update c e w' p :
  reg_ok c e -> closed_ c = false -> sys_getpid w' = sys_getpid (world e) -> in_out_mask p -> 0 <= epoll_fd_ c ->
  (is_socket_ c = true \/ p = 0) -> owner_pid_ c = sys_getpid (world e) ->
  registered w' (epoll_fd_ c) (fd_ c) = (if decide (p = 0) then None else Some (PollEvent2Epoll p)) ->
  (forall ep, ep <> epoll_fd_ c -> registered w' ep (fd_ c) = registered (world e) ep (fd_ c)) ->
  reg_ok (set_pending_events p c) (set_world w' e).
Proof.
  intros [He Hf Hr Hm Hs _] Hop Hpid Hp Hep Hsock Hown Hreg Hoth. constructor; cbn; try done.
  - unfold env_ok in *. cbn. by rewrite Hpid.
  - right. by rewrite Hpid.
  - intros ep _. destruct (decide (ep = epoll_fd_ c)) as [->|Hne].
    + rewrite Hreg. repeat case_decide; naive_solver.
    + rewrite Hoth, Hr by done. rewrite !decide_False by naive_solver. done.
Qed.

Lemma del_events_ok size ev c e :
  reg_ok c e -> exists c' e', del_events size ev c e = Some (c', e') /\ reg_ok c' e' /\
    c' = set_pending_events (Z.land (pending_events_ c) (Z.lnot ev)) c.
Proof.
  intros Hok. unfold del_events. set (p := Z.land (pending_events_ c) (Z.lnot ev)).
  assert (in_out_mask p) as Hp.
  { unfold p. destruct (r_mask _ _ Hok) as [E|[E|[E|E]]]; rewrite E.
    - by left.
    - replace (Z.land POLLIN (Z.lnot ev)) with (Z.land (Z.land POLLIN (Z.lnot ev)) IN_OUT); [apply in_out_land|].
      rewrite (Z.land_comm POLLIN), <- Z.land_assoc. done.
    - replace (Z.land POLLOUT (Z.lnot ev)) with (Z.land (Z.land POLLOUT (Z.lnot ev)) IN_OUT); [apply in_out_land|].
      rewrite (Z.land_comm POLLOUT), <- Z.land_assoc. done.
    - rewrite Z.land_comm. apply in_out_land. }
  destruct (p =? pending_events_ c) eqn:E; zbool.
  { exists c, e. split; [done|]. split; [done|]. rewrite E. by destruct c. }
  assert (pending_events_ c <> 0) as Hnz.
  { intros E0. apply E. unfold p. rewrite E0. apply Z.land_0_l. }
  rewrite GetEpollFd_pending by done. simpl.
  destruct (r_sock _ _ Hok) as [Hs|]; [|done].
  destruct (r_fd _ _ Hok) as [[_ ?]|[Hep Hown]]; [done|].
  pose proof (r_open _ _ Hok Hnz) as Hop. pose proof (r_reg _ _ Hok (epoll_fd_ c) Hop) as Hr. rewrite decide_True in Hr by done.
  unfold reactor_ctl. rewrite Hs. destruct (p =? 0) eqn:E0; zbool.
  - destruct (ctl_del _ _ _ (PollEvent2Epoll 0) _ Hr) as (w' & Hc & Hw'). rewrite Hc. simpl.
    eexists _, _. split; [reflexivity|]. split; [|done].
    pose proof (ctl_pid (epoll_fd_ c) EPOLL_CTL_DEL (fd_ c) (PollEvent2Epoll 0) (world e)) as Hpid. rewrite Hc in Hpid.
    apply reg_update; try done; [by right|rewrite decide_True by done; done|].
    intros ep Hne. pose proof (ctl_other (epoll_fd_ c) EPOLL_CTL_DEL (fd_ c) (PollEvent2Epoll 0) (world e) ep (fd_ c)) as Ho.
    rewrite Hc in Ho. apply Ho. congruence.
  - destruct (ctl_mod _ _ (PollEvent2Epoll p) _ _ Hr) as (w' & Hc & Hw'). rewrite Hc. simpl.
    eexists _, _. split; [reflexivity|]. split; [|done].
    pose proof (ctl_pid (epoll_fd_ c) EPOLL_CTL_MOD (fd_ c) (PollEvent2Epoll p) (world e)) as Hpid. rewrite Hc in Hpid.
    apply reg_update; try done; [by left|rewrite decide_False by done; done|].
    intros ep Hne. pose proof (ctl_other (epoll_fd_ c) EPOLL_CTL_MOD (fd_ c) (PollEvent2Epoll p) (world e) ep (fd_ c)) as Ho.
    rewrite Hc in Ho. apply Ho. congruence.
Qed.

(** ** Waiting tasks are watched for

    [asks] records, for a task in [io_tasks_], which of the two events it asked
    for (both, or none). *)
Definition covered (c : FileDescriptorCtx) (asks : gmap nat Z) : Prop :=
  (i_tasks_ c <> [] -> has (pending_events_ c) POLLIN = true) /\
  (o_tasks_ c <> [] -> has (pending_events_ c) POLLOUT = true) /\
  (forall tk n, (tk, n) ∈ io_tasks_ c -> exists ev, asks !! tk = Some ev /\ Z.land ev (pending_events_ c) = ev).

Record ctx_ok (c : FileDescriptorCtx) (e : env) (asks : gmap nat Z) : Prop := {
  c_reg : reg_ok c e;
  c_cov : covered c asks;
  c_closed : closed_ c = true -> i_tasks_ c = [] /\ o_tasks_ c = [] /\ io_tasks_ c = [] /\ pending_events_ c = 0 }.

Definition asked (poll_events : Z) (tk : nat) (asks : gmap nat Z) : gmap nat Z :=
  match ChooseSet poll_events with SetIO => <[tk := Z.land poll_events IN_OUT]> asks | _ => asks end.

(** Storing a sentry whose events are watched. *)
Lemma store_ok ev tk n c e asks :
  ctx_ok c e asks -> closed_ c = false -> Z.land (Z.land ev IN_OUT) (pending_events_ c) = Z.land ev IN_OUT ->
  ctx_ok (put_set (ChooseSet ev) (map_put tk n (get_set (ChooseSet ev) c)) c) e (asked ev tk asks).
Proof.
  intros [Hr (Hi & Ho & Hio) Hcl] Hopen Hsub. unfold asked, ChooseSet in *.
  destruct (Z.land ev IN_OUT =? POLLIN) eqn:E1; [|destruct (Z.land ev IN_OUT =? POLLOUT) eqn:E2]; zbool;
    (constructor; [|split_and!|]; cbn; try done; [by destruct Hr; constructor|..]); try (intros; congruence).
  - intros _. rewrite E1 in Hsub. unfold has. rewrite Z.land_comm, Hsub. done.
  - intros _. rewrite E2 in Hsub. unfold has. rewrite Z.land_comm, Hsub. done.
  - intros tk' n' Hin. apply elem_of_map_put in Hin as [[-> ->]|Hin]; [exists (Z.land ev IN_OUT); by simplify_map_eq|].
    destruct (decide (tk' = tk)) as [->|Hne]; [exists (Z.land ev IN_OUT); by simplify_map_eq|].
    rewrite lookup_insert_ne by done. by eapply Hio.
Qed.

Lemma land_sub_lor x p e : Z.land x p = x -> Z.land x (Z.lor p e) = x.
Proof.
  intros H. apply Z.bits_inj'. intros k Hk. rewrite Z.land_spec, Z.lor_spec.
  assert (Z.testbit (Z.land x p) k = Z.testbit x k) as Hb by by rewrite H. rewrite Z.land_spec in Hb.
  by destruct (Z.testbit x k), (Z.testbit p k), (Z.testbit e k).
Qed.

(** More events watched keep everything covered. *)
Lemma covered_more c asks ev p' :
  covered c asks -> in_out_mask (pending_events_ c) -> in_out_mask ev -> p' = Z.lor (pending_events_ c) ev ->
  covered (set_pending_events p' c) asks.
Proof.
  intros (Hi & Ho & Hio) Hm He ->. split_and!; cbn.
  - intros H. specialize (Hi H). mask_cases; done.
  - intros H. specialize (Ho H). mask_cases; done.
  - intros tk n Hin. destruct (Hio _ _ Hin) as (x & Hx & Hl). exists x. split; [done|]. by apply land_sub_lor.
Qed.

Lemma mask_lor a b : in_out_mask a -> in_out_mask b -> in_out_mask (Z.lor a b).
Proof. intros Ha Hb. mask_cases; vm_compute; tauto. Qed.

Lemma mask_covered ev p :
  in_out_mask ev -> in_out_mask p -> has ev (Z.lnot p) = false -> Z.land ev p = ev.
Proof. intros He Hp. mask_cases; vm_compute; congruence. Qed.

Lemma mask_lor_covers a b : in_out_mask a -> in_out_mask b -> Z.land b (Z.lor a b) = b.
Proof. intros Ha Hb. mask_cases; reflexivity. Qed.

Lemma mask_lor_nonzero a b : in_out_mask a -> in_out_mask b -> has b (Z.lnot a) = true -> Z.lor a b <> 0.
Proof. intros Ha Hb. mask_cases; vm_compute; congruence. Qed.

(** The calls of [epoll_ctl] in [add_into_reactor]. *)
Lemma ctl_grow c e epfd ev r e' :
  reg_ok c e -> closed_ c = false -> 0 <= epoll_fd_ c -> owner_pid_ c = sys_getpid (world e) -> epfd = epoll_fd_ c ->
  in_out_mask ev -> has ev (Z.lnot (pending_events_ c)) = true ->
  reactor_ctl epfd (if pending_events_ c =? 0 then EPOLL_CTL_ADD else EPOLL_CTL_MOD) (fd_ c)
    (Z.lor (pending_events_ c) ev) (is_socket_ c) e = (r, e') ->
  match r with
  | None => reg_ok (set_pending_events (Z.lor (pending_events_ c) ev) c) e'
  | Some _ => pending_events_ c = 0 /\ reg_ok c e'
  end.
Proof.
  intros Hok Hop Hep Hown -> Hev Hgrow. unfold reactor_ctl. pose proof (r_reg _ _ Hok (epoll_fd_ c) Hop) as Hr.
  pose proof (mask_lor _ _ (r_mask _ _ Hok) Hev) as Hmask.
  pose proof (mask_lor_nonzero _ _ (r_mask _ _ Hok) Hev Hgrow) as Hnz.
  destruct (is_socket_ c) eqn:Hs.
  2:{ intros [= <- <-]. destruct (r_sock _ _ Hok) as [|Hp]; [congruence|done]. }
  set (m := if _ =? 0 then _ else _). set (x := PollEvent2Epoll _).
  pose proof (ctl_pid (epoll_fd_ c) m (fd_ c) x (world e)) as Hpid.
  pose proof (ctl_other (epoll_fd_ c) m (fd_ c) x (world e)) as Hoth.
  destruct (sys_epoll_ctl (epoll_fd_ c) m (fd_ c) x (world e)) as [r0 w'] eqn:Ec. intros [= <- <-]. simpl in Hpid, Hoth.
  destruct (pending_events_ c =? 0) eqn:E0; zbool; unfold m in *.
  - rewrite decide_False in Hr by naive_solver. pose proof (ctl_add _ _ _ _ _ _ Hr Ec) as Hw.
    destruct r0.
    + split; [done|]. replace c with (set_pending_events 0 c) by (destruct c; simpl in *; by subst).
      apply reg_update; try done; [by left|by right|]. intros ep Hne. apply Hoth. congruence.
    + apply reg_update; try done; [by left|by rewrite decide_False|]. intros ep Hne. apply Hoth. congruence.
  - rewrite decide_True in Hr by done. destruct (ctl_mod _ _ x _ _ Hr) as (w2 & Hc & Hw2).
    rewrite Hc in Ec. injection Ec as <- <-.
    apply reg_update; try done; [by left|by rewrite decide_False|]. intros ep Hne. apply Hoth. congruence.
Qed.

Lemma set_epoll_ok c e asks epfd pid : ctx_ok c e asks -> forall e', reg_ok (set_epoll epfd pid c) e' ->
  ctx_ok (set_epoll epfd pid c) e' asks.
Proof. intros [_ Hc Hcl] e' Hr. by constructor. Qed.

Lemma add_ok size ev n tk c e asks ok c' e' :
  ctx_ok c e asks -> add_into_reactor size ev n tk c e = Some (ok, c', e') ->
  ctx_ok c' e' (if ok then asked ev tk asks else asks).
Proof.
  intros Hok. unfold add_into_reactor. destruct (closed_ c) eqn:Hcl; [by intros [= <- <- <-]|].
  pose proof (in_out_land ev) as Hev. destruct (has _ (Z.lnot (pending_events_ c))) eqn:Hgrow.
  2:{ intros [= <- <- <-]. apply store_ok; [done..|].
      apply mask_covered; [done|apply (r_mask _ _ (c_reg _ _ _ Hok))|done]. }
  destruct (GetEpollFd size c e) as [[[epfd c1] e1]|] eqn:Eg; [|done]. simpl.
  destruct (GetEpollFd_ok _ _ _ _ _ _ (c_reg _ _ _ Hok) Eg) as (Hreg & Hep & Hc1 & Hpid).
  pose proof (set_epoll_ok _ _ _ epfd (sys_getpid (world e1)) Hok e1) as Hok1. rewrite <- Hc1 in Hok1.
  specialize (Hok1 Hreg). assert (pending_events_ c1 = pending_events_ c /\ closed_ c1 = false) as [Hp1 Hcl1]
    by by subst c1.
  assert (forall e2, reg_ok (set_pending_events (Z.lor (pending_events_ c) (Z.land ev IN_OUT)) c1) e2 ->
    ctx_ok (put_set (ChooseSet ev) (map_put tk n (get_set (ChooseSet ev)
      (set_pending_events (Z.lor (pending_events_ c) (Z.land ev IN_OUT)) c1)))
      (set_pending_events (Z.lor (pending_events_ c) (Z.land ev IN_OUT)) c1)) e2 (asked ev tk asks)) as Hstore.
  { intros e2 He2. apply store_ok; [|done|cbn; apply mask_lor_covers; [apply (r_mask _ _ (c_reg _ _ _ Hok))|done]].
    constructor; [done| |by cbn; rewrite Hcl1].
    apply (covered_more _ _ (Z.land ev IN_OUT)); [apply Hok1|apply (r_mask _ _ Hreg)|done|by rewrite Hp1]. }
  pose proof (fun r e2 => ctl_grow c1 e1 epfd (Z.land ev IN_OUT) r e2 Hreg Hcl1) as Hctl.
  rewrite Hp1 in Hctl |- *.
  destruct (pending_events_ c =? 0) eqn:E0; destruct (reactor_ctl _ _ _ _ _ e1) as [r e2] eqn:Ec;
    specialize (Hctl r e2 ltac:(by subst c1) ltac:(by subst c1) ltac:(by subst c1) Hev Hgrow eq_refl);
    destruct r as [err|].
  - intros [= <- <- <-]. destruct Hctl as [_ Hr2]. constructor; [done|apply Hok1|apply Hok1].
  - intros [= <- <- <-]. by apply Hstore.
  - zbool. destruct Hctl as [? _]. lia.
  - intros [= <- <- <-]. by apply Hstore.
Qed.

(** The assertion in [add_into_reactor] does not fail: the process ends there
    only when no epoll descriptor can be made. *)
Lemma add_returns size ev n tk c e asks :
  ctx_ok c e asks -> GetEpollFd size c e <> None -> add_into_reactor size ev n tk c e <> None.
Proof.
  intros Hok Hg. unfold add_into_reactor. destruct (closed_ c) eqn:Hcl; [done|].
  pose proof (in_out_land ev) as Hev. destruct (has _ (Z.lnot (pending_events_ c))) eqn:Hgrow; [|done].
  destruct (GetEpollFd size c e) as [[[epfd c1] e1]|] eqn:Eg; [|done]. simpl.
  destruct (GetEpollFd_ok _ _ _ _ _ _ (c_reg _ _ _ Hok) Eg) as (Hreg & Hep & Hc1 & Hpid).
  assert (pending_events_ c1 = pending_events_ c) as Hp1 by by subst c1.
  pose proof (fun r e2 => ctl_grow c1 e1 epfd (Z.land ev IN_OUT) r e2 Hreg ltac:(by subst c1)) as Hctl. rewrite Hp1 in Hctl |- *.
  destruct (pending_events_ c =? 0) eqn:E0; destruct (reactor_ctl _ _ _ _ _ e1) as [[err|] e2] eqn:Ec; try done.
  specialize (Hctl (Some err) e2 ltac:(by subst c1) ltac:(by subst c1) ltac:(by subst c1) Hev Hgrow eq_refl).
  zbool. destruct Hctl. lia.
Qed.

(** Fewer events watched: only those nobody left waits for. *)
Lemma covered_less c asks ev :
  covered c asks -> in_out_mask (pending_events_ c) -> in_out_mask ev ->
  (has ev POLLIN = true -> i_tasks_ c = [] /\ io_tasks_ c = []) ->
  (has ev POLLOUT = true -> o_tasks_ c = [] /\ io_tasks_ c = []) ->
  covered (set_pending_events (Z.land (pending_events_ c) (Z.lnot ev)) c) asks.
Proof.
  intros (Hi & Ho & Hio) Hm He Hin Hout. unfold covered. cbn.
  destruct He as [->|[->|[->| ->]]].
  - rewrite Z.lnot_0, Z.land_m1_r. done.
  - destruct (Hin eq_refl) as [Ei Eio]. rewrite Ei, Eio. split_and!; [done| |set_solver].
    intros H. specialize (Ho H). mask_cases; done.
  - destruct (Hout eq_refl) as [Eo Eio]. rewrite Eo, Eio. split_and!; [|done|set_solver].
    intros H. specialize (Hi H). mask_cases; done.
  - destruct (Hin eq_refl) as [-> ->], (Hout eq_refl) as [-> _]. split_and!; [done..|set_solver].
Qed.

Lemma del_events_ctx_ok size ev c e asks c' e' :
  ctx_ok c e asks -> in_out_mask ev ->
  (has ev POLLIN = true -> i_tasks_ c = [] /\ io_tasks_ c = []) ->
  (has ev POLLOUT = true -> o_tasks_ c = [] /\ io_tasks_ c = []) ->
  del_events size ev c e = Some (c', e') -> ctx_ok c' e' asks.
Proof.
  intros Hok Hev Hin Hout Hd. destruct (del_events_ok size ev c e (c_reg _ _ _ Hok)) as (c1 & e1 & Hd1 & Hr & Hc1).
  rewrite Hd in Hd1. injection Hd1 as <- <-. constructor; [done| |].
  - rewrite Hc1. apply covered_less; [apply Hok|apply (r_mask _ _ (c_reg _ _ _ Hok))|done..].
  - rewrite Hc1. cbn. intros Hcl. destruct (c_closed _ _ _ Hok Hcl) as (-> & -> & -> & ->). by rewrite Z.land_0_l.
Qed.

(** Sets that only lose members. *)
Lemma shrink_ok c e asks i o io :
  ctx_ok c e asks -> (i <> [] -> i_tasks_ c <> []) -> (o <> [] -> o_tasks_ c <> []) ->
  (forall x, x ∈ io -> x ∈ io_tasks_ c) -> (closed_ c = true -> i = [] /\ o = [] /\ io = []) ->
  ctx_ok (set_tasks i o io c) e asks.
Proof.
  intros [Hr (Hi & Ho & Hio) Hcl] H1 H2 H3 H4. constructor.
  - by destruct Hr; constructor.
  - split_and!; cbn; [by intros ?%H1%Hi|by intros ?%H2%Ho|]. intros tk n Hin. eapply Hio, H3, Hin.
  - cbn. intros Hc. destruct (Hcl Hc) as (_ & _ & _ & Hp), (H4 Hc) as (? & ? & ?). done.
Qed.

Lemma is_nil_true {A} (l : list A) : is_nil l = true <-> l = [].
Proof. by destruct l. Qed.

Lemma erase_nonempty (tk : nat) (l : TaskWSet) : map_erase tk l <> [] -> l <> [].
Proof. by destruct l. Qed.

Ltac masks := split_and!; [vm_compute; tauto|intros Hm; first [done | by vm_compute in Hm]..].

Lemma del_ok size ev tk c e asks :
  ctx_ok c e asks -> exists c' e', del_from_reactor size ev tk c e = Some (c', e') /\ ctx_ok c' e' asks.
Proof.
  intros Hok. unfold del_from_reactor. destruct (closed_ c) eqn:Hcl; [by eexists _, _|].
  destruct (pending_events_ c =? 0); [by eexists _, _|].
  destruct (map_find tk (get_set (ChooseSet ev) c)); [|by eexists _, _].
  set (l := map_erase tk _). set (c1 := put_set _ l c).
  assert (ctx_ok c1 e asks) as Hok1.
  { unfold c1, l. destruct (ChooseSet ev); cbn [put_set get_set]; apply shrink_ok; try done;
      try (apply erase_nonempty); try (rewrite Hcl; done). intros [x y] Hin. by eapply elem_of_map_erase. }
  destruct (is_nil l) eqn:El; cbn [negb]; [|by eexists _, _]. apply is_nil_true in El.
  set (d := match ChooseSet ev with SetI => _ | SetO => _ | SetIO => _ end).
  destruct (d =? 0); [by eexists _, _|].
  destruct (del_events_ok size d c1 e (c_reg _ _ _ Hok1)) as (c2 & e2 & Hd & _ & _).
  rewrite Hd. eexists _, _. split; [done|].
  assert (in_out_mask d /\ (has d POLLIN = true -> i_tasks_ c1 = [] /\ io_tasks_ c1 = []) /\
          (has d POLLOUT = true -> o_tasks_ c1 = [] /\ io_tasks_ c1 = [])) as (Hm & Hin & Hout);
    [|by eapply del_events_ctx_ok].
  unfold d, c1. rewrite El. destruct (ChooseSet ev); cbn.
  - destruct (is_nil (io_tasks_ c)) eqn:E; [apply is_nil_true in E; rewrite E|]; masks.
  - destruct (is_nil (io_tasks_ c)) eqn:E; [apply is_nil_true in E; rewrite E|]; masks.
  - destruct (is_nil (i_tasks_ c)) eqn:E; [apply is_nil_true in E; rewrite E|];
      (destruct (is_nil (o_tasks_ c)) eqn:E'; [apply is_nil_true in E'; rewrite E'|]); masks.
Qed.

(** Masks without other bits. *)
Lemma no_error_mask ev : has ev (Z.lnot IN_OUT) = false -> in_out_mask ev.
Proof.
  unfold has. intros H%negb_false_iff%Z.eqb_eq.
  assert (ev = Z.land ev IN_OUT) as ->; [|apply in_out_land].
  apply Z.bits_inj'. intros k Hk. rewrite Z.land_spec.
  assert (Z.testbit (Z.land ev (Z.lnot IN_OUT)) k = false) as Hb by (rewrite H; apply Z.bits_0).
  rewrite Z.land_spec, Z.lnot_spec in Hb by done.
  by destruct (Z.testbit ev k), (Z.testbit IN_OUT k).
Qed.

(** ** Events reach the tasks that wait for them *)

(** What a sentry that was told about [ev] shows for the descriptor. *)
Definition report (fd ev : Z) (s : IoSentry) : IoSentry :=
  with_watch (map (fun p => if IoWait.fd p =? fd then set_revents ev p else p) (watch_fds_ s)) s.

Lemma land_not_absent ev m : has ev m = false -> Z.land ev (Z.lnot m) = ev.
Proof.
  unfold has. intros H%negb_false_iff%Z.eqb_eq. apply Z.bits_inj'. intros k Hk.
  assert (Z.testbit (Z.land ev m) k = false) as Hb by (rewrite H; apply Z.bits_0).
  rewrite Z.land_spec in Hb. rewrite Z.land_spec, Z.lnot_spec by done.
  by destruct (Z.testbit ev k), (Z.testbit m k).
Qed.

(** The masks in [trigger_task_list] remove only bits that are not there: a
    task is shown all events of its descriptor, not only those it asked for. *)
Lemma trigger_revents_unmasked fd ev p :
  trigger_revents fd ev p = if IoWait.fd p =? fd then set_revents ev p else p.
Proof.
  unfold trigger_revents. destruct (IoWait.fd p =? fd); [|done].
  destruct (has ev IN_OUT) eqn:E1; cbn [negb]; [|by rewrite land_not_absent].
  destruct (has ev POLLIN) eqn:E2; cbn [negb]; [|by rewrite land_not_absent].
  destruct (has ev POLLOUT) eqn:E3; cbn [negb]; [done|by rewrite land_not_absent].
Qed.

Lemma report_twice fd ev s : report fd ev (report fd ev s) = report fd ev s.
Proof.
  unfold report, with_watch. cbn. f_equal. rewrite List.map_map. apply List.map_ext. intros p.
  destruct (IoWait.fd p =? fd) eqn:E; cbn [set_revents IoWait.fd]; by rewrite E.
Qed.

Lemma trigger_list_spec fd ev tasks ss out ss' out' :
  trigger_task_list fd ev tasks ss out = (ss', out') ->
  (forall n, ss' !! n = (if decide (n ∈ tasks.*2) then report fd ev else id) <$> ss !! n) /\
  (forall n, n ∈ out'.*1 <-> n ∈ out.*1 \/ n ∈ tasks.*2 /\ is_Some (ss !! n)).
Proof.
  revert ss out. induction tasks as [|[tk n0] tasks IH]; intros ss out; cbn [trigger_task_list].
  - intros [= <- <-]. split; intros n; [|set_solver]. rewrite decide_False by set_solver. by destruct (ss !! n).
  - rewrite fmap_cons. cbn [snd]. destruct (ss !! n0) as [s|] eqn:Es; intros H; apply IH in H as [H1 H2]; split; intros n.
    + assert (with_watch (map (trigger_revents fd ev) (watch_fds_ s)) s = report fd ev s) as Hrep.
      { unfold report. f_equal. apply List.map_ext. intros p. apply trigger_revents_unmasked. }
      rewrite H1, Hrep. destruct (decide (n = n0)) as [->|Hne].
      * rewrite lookup_insert_eq, Es, (decide_True (P := n0 ∈ n0 :: _)) by set_solver. cbn.
        case_decide; [by rewrite report_twice|done].
      * rewrite lookup_insert_ne by done. repeat case_decide; set_solver.
    + rewrite H2, map_insert_key, elem_of_cons, lookup_insert_is_Some. destruct (decide (n = n0)) as [->|Hne].
      * rewrite Es. naive_solver.
      * naive_solver.
    + rewrite H1. destruct (decide (n = n0)) as [->|Hne]; [by rewrite Es|]. repeat case_decide; set_solver.
    + rewrite H2, elem_of_cons. destruct (decide (n = n0)) as [->|Hne]; [|naive_solver].
      rewrite Es. split; [naive_solver|]. intros [?|[_ [? [=]]]]. naive_solver.
Qed.

(** Two lists one after the other. *)
Lemma trigger_list_app fd ev t1 t2 ss out :
  trigger_task_list fd ev (t1 ++ t2) ss out =
  let '(ss1, out1) := trigger_task_list fd ev t1 ss out in trigger_task_list fd ev t2 ss1 out1.
Proof.
  revert ss out. induction t1 as [|[tk n] t1 IH]; intros ss out; cbn [app trigger_task_list]; [done|].
  destruct (ss !! n); apply IH.
Qed.

(** Which waiters an event concerns: all of them when it is an error or a
    hang-up, otherwise those that wait for reading or for writing; and the
    context without them. *)
Definition is_error (ev : Z) : bool := has ev (Z.lnot IN_OUT).
Definition concerned (ev : Z) (c : FileDescriptorCtx) : TaskWSet :=
  if is_error ev then i_tasks_ c ++ o_tasks_ c ++ io_tasks_ c
  else if has ev POLLIN then i_tasks_ c ++ io_tasks_ c ++ (if has ev POLLOUT then o_tasks_ c else [])
  else if has ev POLLOUT then o_tasks_ c ++ io_tasks_ c else [].
Definition without (ev : Z) (c : FileDescriptorCtx) : FileDescriptorCtx :=
  set_tasks (if is_error ev || has ev POLLIN then [] else i_tasks_ c)
    (if is_error ev || has ev POLLOUT then [] else o_tasks_ c)
    (if is_error ev || has ev POLLIN || has ev POLLOUT then [] else io_tasks_ c) c.

Lemma reactor_trigger_eq size ev c ss out e :
  closed_ c = false ->
  reactor_trigger size ev c ss out e =
  let '(ss', out') := trigger_task_list (fd_ c) ev (concerned ev c) ss out in
  '(c', e') ← del_events size (if is_error ev then IN_OUT else ev) (without ev c) e; Some (c', ss', out', e').
Proof.
  intros Hcl. unfold reactor_trigger, concerned, without, is_error. rewrite Hcl.
  destruct (has ev (Z.lnot IN_OUT)); cbn [orb].
  { rewrite trigger_list_app. destruct (trigger_task_list _ _ (i_tasks_ c) _ _) as [ss1 out1].
    rewrite trigger_list_app. destruct (trigger_task_list _ _ (o_tasks_ c) _ _) as [ss2 out2].
    by destruct (trigger_task_list _ _ (io_tasks_ c) _ _) as [ss3 out3]. }
  destruct (has ev POLLIN), (has ev POLLOUT); cbn [orb]; rewrite ?trigger_list_app.
  - destruct (trigger_task_list _ _ (i_tasks_ c) _ _) as [ss1 out1]. rewrite trigger_list_app.
    destruct (trigger_task_list _ _ (io_tasks_ c) _ _) as [ss2 out2]. cbn.
    by destruct (trigger_task_list _ _ (o_tasks_ c) _ _) as [ss3 out3].
  - destruct (trigger_task_list _ _ (i_tasks_ c) _ _) as [ss1 out1]. rewrite app_nil_r.
    by destruct (trigger_task_list _ _ (io_tasks_ c) _ _) as [ss2 out2].
  - destruct (trigger_task_list _ _ (o_tasks_ c) _ _) as [ss1 out1].
    by destruct (trigger_task_list _ _ (io_tasks_ c) _ _) as [ss2 out2].
  - by destruct c.
Qed.

Lemma without_ok ev c e asks : ctx_ok c e asks -> ctx_ok (without ev c) e asks.
Proof.
  intros Hok. apply shrink_ok; [done|by destruct (_ || _)..| |].
  - intros x. destruct (_ || _); set_solver.
  - intros Hcl. destruct (c_closed _ _ _ Hok Hcl) as (-> & -> & -> & _). by repeat destruct (_ || _).
Qed.

Lemma trigger_ok size ev c ss out e asks :
  ctx_ok c e asks -> exists c' ss' out' e',
    reactor_trigger size ev c ss out e = Some (c', ss', out', e') /\ ctx_ok c' e' asks /\
    (closed_ c = false -> trigger_task_list (fd_ c) ev (concerned ev c) ss out = (ss', out') /\
       c' = set_pending_events (Z.land (pending_events_ c) (Z.lnot (if is_error ev then IN_OUT else ev))) (without ev c)).
Proof.
  intros Hok. destruct (closed_ c) eqn:Hcl.
  { exists c, ss, out, e. unfold reactor_trigger. by rewrite Hcl. }
  rewrite reactor_trigger_eq by done. destruct (trigger_task_list _ _ _ ss out) as [ss' out'].
  pose proof (without_ok ev c e asks Hok) as Hw. set (d := if is_error ev then IN_OUT else ev).
  destruct (del_events_ok size d _ e (c_reg _ _ _ Hw)) as (c' & e' & Hd & _ & Hc'). rewrite Hd.
  exists c', ss', out', e'. split; [done|]. split; [|done].
  assert (in_out_mask d) as Hm.
  { unfold d. destruct (is_error ev) eqn:Ee; [by right; right; right|by apply no_error_mask]. }
  eapply del_events_ctx_ok; [exact Hw|done| | |exact Hd]; unfold without, d; cbn; destruct (is_error ev); cbn [orb]; try done.
  - by intros ->.
  - intros ->. by destruct (has ev POLLIN).
Qed.

(** [close_tasks] concerns sentries only, so that of the context only the sets
    and [pending_events_] change.  With [call_syscall] false, [w] is what [dup2]
    has made of the world. *)
Lemma close_ok b c e iw w asks ret c' iw' w' :
  ctx_ok c e asks -> sys_getpid w = sys_getpid (world e) -> (closed_ c = true \/ b = true -> w = world e) ->
  ctx_close b c iw w = (ret, c', iw', w') ->
  ctx_ok c' (set_world w' e) asks /\ closed_ c' = true /\ destructor_ok c' = true.
Proof.
  intros Hok Hw Hsame. unfold ctx_close. destruct (closed_ c) eqn:Hcl.
  - intros [= <- <- <- <-]. rewrite Hsame by auto. destruct (c_closed _ _ _ Hok Hcl) as (Hi & Ho & Hio & Hp).
    split; [by destruct e|]. split; [done|]. unfold destructor_ok. by rewrite Hi, Ho, Hio, Hp, Hcl.
  - assert (sys_getpid (snd (if b then sys_close (fd_ c) w else (0, w))) = sys_getpid (world e)) as Hpid.
    { destruct b; [|done]. rewrite close_pid. done. }
    destruct (if b then sys_close (fd_ c) w else (0, w)) as [r w1]. intros [= <- <- <- <-]. simpl in *.
    split; [|done]. destruct Hok as [[He Hf Hr Hm Hs Hop] Hc _]. constructor; [constructor| |]; cbn; try done.
    + unfold env_ok in *. cbn. by rewrite Hpid.
    + rewrite Hpid. destruct Hf as [[? ?]|?]; [by left|by right].
    + by left.
    + by right.
    + split_and!; cbn; [done..|]. intros tk n Hin. by apply not_elem_of_nil in Hin.
Qed.

(** ** Runs of a context *)

Record watched : Type := mkWatched { w_ctx : FileDescriptorCtx; w_env : env; w_asks : gmap nat Z }.

(** The operations on a context, and what the rest of the program does to the
    world: it leaves the process alone and, while the context is open, the
    registrations of this descriptor.  [cs_dup2] is the call of [dup2] or [dup3]
    that makes the descriptor refer to another file, with whatever registrations,
    followed by [close(false)] of the context; no other operation on the context comes
    between the two, which the code leaves to its user ([dup2_race_aborts]). *)
Inductive ctx_step : watched -> watched -> Prop :=
| cs_add s size ev n tk ok c e :
    add_into_reactor size ev n tk (w_ctx s) (w_env s) = Some (ok, c, e) ->
    ctx_step s (mkWatched c e (if ok then asked ev tk (w_asks s) else w_asks s))
| cs_del s size ev tk c e :
    del_from_reactor size ev tk (w_ctx s) (w_env s) = Some (c, e) -> ctx_step s (mkWatched c e (w_asks s))
| cs_trigger s size ev ss out c ss' out' e :
    reactor_trigger size ev (w_ctx s) ss out (w_env s) = Some (c, ss', out', e) ->
    ctx_step s (mkWatched c e (w_asks s))
| cs_close s iw ret c iw' w :
    ctx_close true (w_ctx s) iw (world (w_env s)) = (ret, c, iw', w) ->
    ctx_step s (mkWatched c (set_world w (w_env s)) (w_asks s))
| cs_dup2 s w1 iw ret c iw' w :
    closed_ (w_ctx s) = false -> sys_getpid w1 = sys_getpid (world (w_env s)) ->
    ctx_close false (w_ctx s) iw w1 = (ret, c, iw', w) ->
    ctx_step s (mkWatched c (set_world w (w_env s)) (w_asks s))
| cs_nonblock s b : ctx_step s (mkWatched (set_user_nonblock b (w_ctx s)) (w_env s) (w_asks s))
| cs_time_o s type tv : ctx_step s (mkWatched (set_time_o type tv (w_ctx s)) (w_env s) (w_asks s))
| cs_other s e :
    env_ok e -> sys_getpid (world e) = sys_getpid (world (w_env s)) ->
    (closed_ (w_ctx s) = false -> forall ep,
       registered (world e) ep (fd_ (w_ctx s)) = registered (world (w_env s)) ep (fd_ (w_ctx s))) ->
    ctx_step s (mkWatched (w_ctx s) e (w_asks s)).

(** A context that was just made for a descriptor no epoll set watches. *)
Definition ctx_fresh (fd : Z) (s : watched) : Prop :=
  exists w, FileDescriptorCtx_new fd w = (w_ctx s, world (w_env s)) /\ env_ok (w_env s) /\
    (forall ep, registered (world (w_env s)) ep fd = None).

Definition watched_ok (s : watched) : Prop := ctx_ok (w_ctx s) (w_env s) (w_asks s).

Lemma ctx_step_ok s s' : ctx_step s s' -> watched_ok s -> watched_ok s'.
Proof.
  intros Hstep Hok. unfold watched_ok in *.
  destruct Hstep as [s size ev n tk ok c e H|s size ev tk c e H|s size ev ss out c ss' out' e H
    |s iw ret c iw' w H|s w1 iw ret c iw' w Hop Hpid H|s b|s type tv|s e He Hpid Hreg]; cbn [w_ctx w_env w_asks].
  - by eapply add_ok.
  - destruct (del_ok size ev tk _ _ _ Hok) as (c1 & e1 & H1 & Hok1). rewrite H in H1. by injection H1 as <- <-.
  - destruct (trigger_ok size ev _ ss out _ _ Hok) as (c1 & ss1 & out1 & e1 & H1 & Hok1 & _).
    rewrite H in H1. by injection H1 as <- <- <- <-.
  - by apply (close_ok true _ (w_env s) _ _ (w_asks s)) in H as (? & _).
  - apply (close_ok false _ (w_env s) _ _ (w_asks s)) in H as (? & _); try done. intros [?|?]; congruence.
  - destruct Hok as [Hr Hc Hcl]. constructor; [by destruct Hr; constructor|done|done].
  - destruct Hok as [Hr Hc Hcl]. constructor; [by destruct Hr; constructor|done|done].
  - destruct Hok as [Hr Hc Hcl]. constructor; [|done|done]. destruct Hr as [? Hf Hr ? ? ?].
    constructor; try done; [by rewrite Hpid|]. intros ep Ho. rewrite Hreg by done. by apply Hr.
Qed.

Lemma ctx_fresh_ok fd s : ctx_fresh fd s -> watched_ok s.
Proof.
  intros (w & Hn & He & Hreg). unfold FileDescriptorCtx_new in Hn.
  destruct (re_initialize (ctx_blank fd) w) as [[b c] w1] eqn:E. injection Hn as Hc Hw.
  unfold re_initialize in E. cbn in E. destruct (sys_fstat fd w) as [sock|]; injection E as <- <- E.
  all: unfold watched_ok; rewrite <- Hc; constructor; [constructor|split_and!|]; cbn; try done.
  all: try (by left); try (by right); try (intros; by apply not_elem_of_nil in H).
  all: try (intros ep _; rewrite Hreg, decide_False by naive_solver; done).
Qed.


(** C17: Events are delivered.  When epoll reports [ev] for a descriptor, every task
    that waits for it there, and whose sentry is still alive, is put in the set to trigger with [ev] as
    its result and leaves the waiters; an error or hang-up concerns all
    waiters; no other sentry or waiter is touched, and those left are still watched for. *)
Theorem events_delivered size ev c ss out e asks :
  ctx_ok c e asks -> closed_ c = false ->
  exists c' ss' out' e', reactor_trigger size ev c ss out e = Some (c', ss', out', e') /\
    (forall n, n ∈ out'.*1 <-> n ∈ out.*1 \/ n ∈ (concerned ev c).*2 /\ is_Some (ss !! n)) /\
    (forall n, ss' !! n = (if decide (n ∈ (concerned ev c).*2) then report (fd_ c) ev else id) <$> ss !! n) /\
    i_tasks_ c' = i_tasks_ (without ev c) /\ o_tasks_ c' = o_tasks_ (without ev c) /\
    io_tasks_ c' = io_tasks_ (without ev c) /\ covered c' asks.
Proof.
  intros Hok Hcl. destruct (trigger_ok size ev c ss out e asks Hok) as (c' & ss' & out' & e' & Ht & Hok' & Hrest).
  destruct (Hrest Hcl) as [Hl Hc']. apply trigger_list_spec in Hl as [H1 H2].
  exists c', ss', out', e'. split_and!; try done; rewrite Hc'; try done. rewrite <- Hc'. apply Hok'.
Qed.

(** ** Behaviour that was not intended *)

(** A task that polls without asking for reading or writing is stored, but
    epoll is not told: it is not woken for errors or hang-ups either. *)
Lemma no_events_unwatched size ev n tk c e asks :
  ctx_ok c e asks -> closed_ c = false -> Z.land ev IN_OUT = 0 -> pending_events_ c = 0 ->
  exists c', add_into_reactor size ev n tk c e = Some (true, c', e) /\ (tk, n) ∈ io_tasks_ c' /\
    forall ep, registered (world e) ep (fd_ c') = None.
Proof.
  intros Hok Hcl Hev Hp. unfold add_into_reactor. rewrite Hcl, Hev. change (has 0 _) with false. cbv iota.
  eexists. split; [reflexivity|]. unfold ChooseSet. rewrite Hev. cbn. split.
  - apply map_find_elem, map_find_put_eq.
  - intros ep. rewrite (r_reg _ _ (c_reg _ _ _ Hok)), Hp by done. by rewrite decide_False by naive_solver.
Qed.

(** Descriptors made by [dup] share the context of the original.  Closing one of
    them makes the system close the original. *)
Lemma dup_closes_source fd g p c :
  0 <= fd -> pair_ptr fd (get_pair fd g) = Some p -> heap g !! p = Some c -> closed_ c = false ->
  exists g', mgr_close fd true g = Some (fst (sys_close (fd_ c) (world (fd_env g))), g') /\
    world (fd_env g') = snd (sys_close (fd_ c) (world (fd_env g))).
Proof.
  intros Hfd Hp Hc Hcl. assert (heap (get_pair fd g) = heap g /\ fd_env (get_pair fd g) = fd_env g) as [Hh He].
  { unfold get_pair. by repeat case_match. }
  unfold mgr_close. rewrite (proj2 (Z.ltb_ge _ _)) by done. rewrite Hp, Hh, He, Hc. cbn.
  unfold ctx_close. rewrite Hcl. destruct (sys_close (fd_ c) (world (fd_env g))) as [r w].
  eexists. split; [reflexivity|]. unfold set_ptr. by destruct (is_big fd).
Qed.

(** Both of two threads found the deque too short; the one that resizes last
    cuts off what the other has added. *)
Lemma resize_race_loses (a b : nat) (d : list (option nat)) (p : nat) :
  (length d <= a < b)%nat ->
  resize (b + 1) None d !! b = Some None /\
  (<[b := Some p]> (resize (b + 1) None d)) !! b = Some (Some p) /\
  resize (a + 1) None (<[b := Some p]> (resize (b + 1) None d)) !! b = None.
Proof.
  intros H. assert (length (resize (b + 1) None d) = b + 1)%nat as Hl.
  { unfold resize. rewrite length_app, length_take, length_replicate. lia. }
  split; [|split].
  - unfold resize. rewrite lookup_app_r by (rewrite length_take; lia). apply lookup_replicate. split; [done|].
    rewrite length_take. lia.
  - apply list_lookup_insert_eq. lia.
  - apply lookup_ge_None. unfold resize at 1. rewrite length_app, length_take, length_replicate, length_insert, Hl. lia.
Qed.
End FdContext.

(** ** A small kernel

    Open descriptors with whether they are sockets and their flags, and the
    epoll sets. *)
Module DemoKernel.
Record toy : Type := mkToy { toy_open : gmap Z (bool * Z); toy_reg : gmap (Z * Z) Z; toy_next : nat }.
Definition toy_ctl (ep : Z) (m : epoll_mod) (fd ev : Z) (w : toy) : option Z * toy :=
  match m, toy_reg w !! (ep, fd) with
  | EPOLL_CTL_ADD, Some _ => (Some 17, w)
  | EPOLL_CTL_ADD, None => (None, mkToy (toy_open w) (<[(ep, fd) := ev]> (toy_reg w)) (toy_next w))
  | _, None => (Some ENOENT, w)
  | EPOLL_CTL_MOD, Some _ => (None, mkToy (toy_open w) (<[(ep, fd) := ev]> (toy_reg w)) (toy_next w))
  | EPOLL_CTL_DEL, Some _ => (None, mkToy (toy_open w) (delete (ep, fd) (toy_reg w)) (toy_next w))
  end.

#[export] Instance toy_kernel : Kernel toy := {|
  sys_fstat fd w := fst <$> toy_open w !! fd;
  sys_getfl fd w := match toy_open w !! fd with Some (_, f) => f | None => -1 end;
  sys_setfl fd f w := match toy_open w !! fd with
                      | Some (b, _) => (0, mkToy (<[fd := (b, f)]> (toy_open w)) (toy_reg w) (toy_next w))
                      | None => (-1, w)
                      end;
  sys_close fd w := (if decide (is_Some (toy_open w !! fd)) then 0 else -1,
                     mkToy (delete fd (toy_open w)) (filter (fun '((_, f), _) => f <> fd) (toy_reg w)) (toy_next w));
  sys_epoll_create _ w := (Some (Z.of_nat (toy_next w)), mkToy (toy_open w) (toy_reg w) (S (toy_next w)));
  sys_epoll_ctl := toy_ctl;
  sys_getpid _ := 1 |}.

#[export] Instance toy_laws : KernelLaws (W := toy).
Proof.
  refine {| registered w ep fd := toy_reg w !! (ep, fd) |}; cbn; try done.
  - intros ep m fd ev w ep' fd' Hne. unfold toy_ctl. destruct m, (toy_reg w !! (ep, fd)); cbn; try done;
      by rewrite ?lookup_insert_ne, ?lookup_delete_ne.
  - intros ep fd ev w r w' Hn. unfold toy_ctl. rewrite Hn. intros [= <- <-]. cbn. apply lookup_insert_eq.
  - intros ep fd ev w old Ho. unfold toy_ctl. rewrite Ho. eexists. split; [done|]. cbn. apply lookup_insert_eq.
  - intros ep fd w ev old Ho. unfold toy_ctl. rewrite Ho. eexists. split; [done|]. cbn. apply lookup_delete_eq.
  - intros n w ep w' [= <- <-]. split; [lia|]. done.
Defined.

Definition world0 : toy := mkToy {[5 := (true, 2)]} ∅ 3.
Definition env0 : env (W := toy) := mkEnv world0 (-1) (-1) 1024.
Definition fds0 : fds (W := toy) := mkFds env0 IoWait_new ∅ 0 [] ∅.
End DemoKernel.
Import DemoKernel.

(** The socket 5 in a process with one task that waits for reading. *)
Definition demo_ctx : FileDescriptorCtx := fst (FileDescriptorCtx_new 5 world0).
Definition demo_env : env (W := toy) := mkEnv (snd (FileDescriptorCtx_new 5 world0)) (-1) (-1) 1024.
Definition demo_fresh : watched (W := toy) := mkWatched demo_ctx demo_env ∅.
Definition demo_waiting : watched (W := toy) :=
  match add_into_reactor 1024 POLLIN 1 7 demo_ctx demo_env with
  | Some (_, c, e) => mkWatched c e ∅
  | None => demo_fresh
  end.

Lemma demo_ctx_fresh : ctx_fresh 5 demo_fresh.
Proof.
  exists world0. split; [vm_compute; reflexivity|]. split; [|intros ep; reflexivity].
  right. vm_compute. done.
Qed.

Lemma demo_waiting_reached : star ctx_step demo_fresh demo_waiting.
Proof.
  eapply star_step; [|apply star_refl]. refine (cs_add demo_fresh 1024 POLLIN 1 7 true _ _ _). vm_compute. reflexivity.
Qed.


Lemma events_delivered_witness :
  exists c' ss' out' e',
    reactor_trigger 1024 POLLIN (w_ctx demo_waiting) {[1%nat := IoSentry_new 7 [mkPollfd 5 POLLIN 0]]} []
      (w_env demo_waiting) = Some (c', ss', out', e') /\
    1%nat ∈ out'.*1 /\ ss' !! 1%nat = Some (mkSentry pending [mkPollfd 5 POLLIN POLLIN] None 7) /\ i_tasks_ c' = [].
Proof.
  destruct (events_delivered 1024 POLLIN (w_ctx demo_waiting) {[1%nat := IoSentry_new 7 [mkPollfd 5 POLLIN 0]]} []
    (w_env demo_waiting) ∅) as (c' & ss' & out' & e' & H & H1 & H2 & H3 & _).
  - refine (ctx_step_ok demo_fresh _ _ _); [|apply (ctx_fresh_ok 5), demo_ctx_fresh].
    refine (cs_add demo_fresh 1024 POLLIN 1 7 true _ _ _). vm_compute. reflexivity.
  - vm_compute. reflexivity.
  - exists c', ss', out', e'. split; [exact H|]. split; [|split].
    + apply H1. right. split; [vm_compute; left|by eexists].
    + rewrite H2. vm_compute. reflexivity.
    + rewrite H3. vm_compute. reflexivity.
Defined.

(** After [dup2] has put another file under the number, and before [close(false)],
    the context still records the old events: a task that starts to wait for more
    makes [epoll_ctl] report [ENOENT], and the assertion ends the process. *)
Lemma dup2_race_aborts :
  add_into_reactor 1024 POLLOUT 2 8 (w_ctx demo_waiting)
    (set_world (mkToy (toy_open (world (w_env demo_waiting))) ∅ 4) (w_env demo_waiting)) = None.
Proof. vm_compute. reflexivity. Qed.

(** Closing the copy of a descriptor closes the original and leaves the copy
    open; the original is then unusable, and closing it does nothing. *)
Definition demo_dup_world : toy := mkToy {[5 := (true, 2); 6 := (true, 2)]} ∅ 3.
Lemma dup_close_demo :
  exists g1 g2 r g3,
    mgr_dup 5 6 (mkFds (mkEnv demo_dup_world (-1) (-1) 1024) IoWait_new ∅ 0 [] ∅) = Some (true, g1) /\
    mgr_close 6 true g1 = Some (0, g2) /\
    is_Some (toy_open (world (fd_env g2)) !! 6) /\ toy_open (world (fd_env g2)) !! 5 = None /\
    mgr_close 5 true g2 = Some (r, g3) /\ is_Some (toy_open (world (fd_env g3)) !! 6).
Proof.
  eexists _, _, _, _. split; [vm_compute; reflexivity|]. split; [vm_compute; reflexivity|].
  split; [by eexists|]. split; [reflexivity|]. split; [vm_compute; reflexivity|]. by eexists.
Qed.
