(* ===== verification/GlibcHook.v ===== *)
(** * The interposed system calls

    [libgo/linux/linux_glibc_hook.cpp]: the blocking calls of libc as coroutines
    see them.  [Some tk] is a call of coroutine [tk], [None] one of a plain
    thread, which goes to the system.  Results of blocking calls, of the clock
    and of nested polls are inputs in the order in which they are read; calls
    that change descriptors are operations of [Kernel] and [KernelCalls]. *)
From S2P Require Import Prelude StdString StdMap SnowFlake IoWait FdContext.

Definition EBADF : Z := 9.
Definition EAGAIN : Z := 11.
Definition ETIMEDOUT : Z := 110.
Definition EINPROGRESS : Z := 115.

(** ** [read_write_mode]

    The result of a system call: its value and [errno]. *)
Definition sysret : Type := (Z * Z)%type.
Definition would_block (r : sysret) : bool := (fst r =? -1) && (snd r =? EAGAIN).

(** What a nested [poll] did: interrupted, failed, timed out, or events. *)
Inductive poll_end : Type := PollIntr | PollError (err : Z) | PollTimeout | PollEvents.

(** A call of [poll] with one entry: descriptor, events, time-out. *)
Definition poll_req : Type := (Z * Z * Z)%type.

(** The [eintr] loop: how many calls it makes, the first result that is not an
    interruption and the results left; [None] while it waits. *)
Fixpoint poll_retry (polls : list poll_end) : nat * option (poll_end * list poll_end) :=
  match polls with
  | [] => (1%nat, None)
  | PollIntr :: polls' => let '(k, r) := poll_retry polls' in (S k, r)
  | r :: polls' => (1%nat, Some (r, polls'))
  end.

Definition timeout_of (tv : timeval) : Z := i32 (tv_sec tv * 1000 + Z.quot (tv_usec tv) 1000).

(** The part from [eintr] on, with [again] for [goto retry]. *)
Definition wait_events (req : poll_req) (polls : list poll_end)
    (again : list poll_end -> option sysret * list poll_req) : option sysret * list poll_req :=
  let '(k, r) := poll_retry polls in
  match r with
  | None => (None, replicate k req)
  | Some (PollError err, _) => (Some (-1, err), replicate k req)
  | Some (PollTimeout, _) => (Some (-1, EAGAIN), replicate k req)
  | Some (_, polls') => let '(res, used) := again polls' in (res, replicate k req ++ used)
  end.

(** The loop from [retry] on.  [fns] are the results of the calls, [expired]
    the milliseconds since [start] at each reading; the output also lists the
    calls of [poll].  [None] is a task that still waits. *)
Fixpoint rw_loop (fd event timeout_ms : Z) (fns : list sysret) (expired : list Z) (polls : list poll_end) :
    option sysret * list poll_req :=
  match fns with
  | [] => (None, [])
  | r :: fns' =>
      if would_block r then
        if timeout_ms =? 0 then wait_events (fd, event, -1) polls (rw_loop fd event timeout_ms fns' expired)
        else match expired with
             | [] => (None, [])
             | x :: expired' =>
                 if timeout_ms <? i32 x then (Some (-1, EAGAIN), [])
                 else wait_events (fd, event, i32 (timeout_ms - i32 x)) polls (rw_loop fd event timeout_ms fns' expired')
             end
      else (Some r, [])
  end.

(** ** More system calls

    [fcntl_f] with and without its argument (an [int] or an address), except for
    [F_GETFL] and [F_SETFL], which [Kernel] has. *)
Inductive fcntl_cmd : Type :=
| F_DUPFD | F_DUPFD_CLOEXEC
| F_SETFD | F_SETOWN | F_SETSIG | F_SETLEASE | F_NOTIFY | F_SETPIPE_SZ
| F_SETFL
| F_GETLK | F_SETLK | F_SETLKW
| F_GETOWN_EX | F_SETOWN_EX
| F_GETFL
| F_GETFD | F_GETOWN | F_GETSIG | F_GETLEASE | F_GETPIPE_SZ
| F_OTHER (cmd : Z).

Class KernelCalls (W : Type) := {
  sys_fcntl : Z -> fcntl_cmd -> option Z -> W -> Z * W;
  sys_ioctl : Z -> Z -> Z -> W -> Z * W;
  sys_setsockopt : Z -> Z -> Z -> Z -> W -> Z * W;
  sys_dup : Z -> W -> Z * W;
  sys_dup2 : Z -> Z -> W -> Z * W;
  sys_dup3 : Z -> Z -> Z -> W -> Z * W
}.

Section Hooks.
Context {W : Type} `{K : Kernel W} `{KC : !KernelCalls W}.

(** [get_fd_ctx] followed by the test [!fd_ctx || fd_ctx->closed()]. *)
Definition open_ctx (fd : Z) (g : fds (W := W)) : option (option (nat * FileDescriptorCtx) * fds (W := W)) :=
  '(o, g) ← get_fd_ctx fd g;
  Some (p ← o; c ← heap g !! p; if closed_ c then None else Some (p, c), g).

Definition read_write_mode (tk : option nat) (fd event : Z) (timeout_so : timeo_type) (fns : list sysret)
    (expired : list Z) (polls : list poll_end) (g : fds (W := W)) : option (option sysret * list poll_req * fds (W := W)) :=
  match tk with
  | None => Some (head fns, [], g)
  | Some _ =>
      '(o, g) ← open_ctx fd g;
      match o with
      | None => Some (Some (-1, EBADF), [], g)
      | Some (_, c) =>
          if negb (is_socket_ c) then Some (head fns, [], g)
          else if user_nonblock_ c then Some (head fns, [], g)
          else let '(r, used) := rw_loop fd event (timeout_of (get_time_o timeout_so c)) fns expired polls in
               Some (r, used, g)
      end
  end.

(** The calls that are wrapped this way, with the event and option they use. *)
Inductive rw_call : Type :=
| c_accept | c_read | c_readv | c_recv | c_recvfrom | c_recvmsg
| c_write | c_writev | c_send | c_sendto | c_sendmsg.
Definition call_event (f : rw_call) : Z :=
  match f with
  | c_accept | c_read | c_readv | c_recv | c_recvfrom | c_recvmsg => POLLIN
  | c_write | c_writev | c_send | c_sendto | c_sendmsg => POLLOUT
  end.
Definition call_timeo (f : rw_call) : timeo_type :=
  match f with
  | c_accept | c_read | c_readv | c_recv | c_recvfrom | c_recvmsg => SO_RCVTIMEO
  | c_write | c_writev | c_send | c_sendto | c_sendmsg => SO_SNDTIMEO
  end.
Definition hooked (f : rw_call) (tk : option nat) (fd : Z) := read_write_mode tk fd (call_event f) (call_timeo f).

(** ** [connect]

    [poll_res] is the result of the nested [poll], [revents] what it left in
    [pfd]; [so_error] the result of [getsockopt] with the option's value. *)
Definition connect (tk : option nat) (fd : Z) (connect_f : sysret) (poll_res revents : Z)
    (getsockopt_res : sysret) (so_error : Z) (g : fds (W := W)) : option (sysret * fds (W := W)) :=
  match tk with
  | None => Some (connect_f, g)
  | Some _ =>
      '(o, g) ← open_ctx fd g;
      match o with
      | None => Some ((-1, EBADF), g)
      | Some (_, c) =>
          if user_nonblock_ c then Some (connect_f, g)
          else if fst connect_f =? 0 then Some ((0, snd connect_f), g)
          else if negb (fst connect_f =? -1) || negb (snd connect_f =? EINPROGRESS) then Some (connect_f, g)
          else if (poll_res <=? 0) || negb (revents =? POLLOUT) then Some ((-1, ETIMEDOUT), g)
          else if fst getsockopt_res =? -1 then Some (getsockopt_res, g)
          else if so_error =? 0 then Some ((0, snd getsockopt_res), g)
          else Some ((-1, so_error), g)
      end
  end.

(** ** [poll]

    Up to the yield.  [polled] is the result of the non-blocking [poll_f] with
    what it wrote; [n] is the address of the new sentry and [timer] the timer
    set for a positive time-out. *)
Inductive poll_start : Type :=
| PollReturns (ret : Z) (fds_ : list pollfd)
| PollSleeps (ms : Z) (fds_ : list pollfd)
| PollWaits (fds_ : list pollfd).

(** The loop that registers the sentry; [watch] are its entries so far. *)
Fixpoint poll_register (size : Z) (n tk : nat) (todo : list pollfd) (g : fds (W := W)) :
    option (list pollfd * bool * fds (W := W)) :=
  match todo with
  | [] => Some ([], false, g)
  | pfd :: todo' =>
      if IoWait.fd pfd <? 0 then
        '(rest, added, g) ← poll_register size n tk todo' g; Some (pfd :: rest, added, g)
      else
        '(o, g) ← open_ctx (IoWait.fd pfd) g;
        '(ok, g) ← match o with
                   | None => Some (false, g)
                   | Some (p, c) =>
                       '(ok, c, e) ← add_into_reactor size (events pfd) n tk c (fd_env g);
                       Some (ok, set_ctx p c e (fd_iow g) g)
                   end;
        '(rest, added, g) ← poll_register size n tk todo' g;
        Some (if (ok : bool) then pfd :: rest else set_revents POLLNVAL pfd :: rest, ok || added, g)
  end.

Definition set_sentry (n : nat) (s : IoSentry) (g : fds (W := W)) : fds (W := W) :=
  mkFds (fd_env g) (mkIoWait (<[n := s]> (sentries (fd_iow g))) (wait_io_sentries_ (fd_iow g))
                      (io_runnable (fd_iow g))) (heap g) (next_ctx g) (fd_deque_ g) (big_fds_ g).

Definition poll_begin (size : Z) (tk : option nat) (pfds : list pollfd) (timeout : Z) (polled : Z * list pollfd)
    (n timer : nat) (g : fds (W := W)) : option (poll_start * fds (W := W)) :=
  match tk with
  | None => Some (PollReturns (fst polled) (snd polled), g)
  | Some t =>
      if timeout =? 0 then Some (PollReturns (fst polled) (snd polled), g)
      else if forallb (fun p => IoWait.fd p <? 0) pfds then Some (PollSleeps timeout pfds, g)
      else if negb (fst polled =? 0) then Some (PollReturns (fst polled) (snd polled), g)
      else
        let pfds := snd polled in
        let s := IoSentry_new t pfds in
        '(watch, added, g) ← poll_register size n t (watch_fds_ s) (set_sentry n s g);
        let cleared := map (set_revents 0) pfds in
        let s := with_watch watch s in
        if negb added then Some (PollReturns (sz pfds) cleared, g)
        else
          let s := if 0 <? timeout then with_io_timer (Some timer) s else s in
          Some (PollWaits cleared, set_sentry n s g)
  end.

(** After the task was resumed: the timer to cancel is let go, the entries are
    copied and counted.  [None] is a sentry that is gone, which cannot be while
    the call holds it. *)
Definition poll_finish (n : nat) (pfds : list pollfd) (g : fds (W := W)) :
    option (Z * list pollfd * option nat * fds (W := W)) :=
  s ← sentries (fd_iow g) !! n;
  let out := zip_with (fun p q => set_revents (revents q) p) pfds (watch_fds_ s) in
  Some (sz (List.filter (fun p => negb (revents p =? 0)) out), out, timer_ s, set_sentry n (with_io_timer None s) g).

(** ** [select]

    The three sets as predicates; [None] is a null pointer.  The conversion to
    [pollfd] and back. *)
Definition fd_set : Type := list Z.
Definition FD_SETSIZE : Z := 1024.

(** [pfd_map[fd] &= event]: a new entry starts at zero. *)
Definition map_and (fd event : Z) (m : list (Z * Z)) : list (Z * Z) :=
  map_put fd (Z.land (default 0 (map_find fd m)) event) m.
Fixpoint add_set (nfds : nat) (fd : Z) (s : fd_set) (event : Z) (m : list (Z * Z)) : list (Z * Z) :=
  match nfds with
  | O => m
  | S k => add_set k (fd + 1) s event (if bool_decide (fd ∈ s) then map_and fd event m else m)
  end.
Definition add_opt (nfds : Z) (s : option fd_set) (event : Z) (m : list (Z * Z)) : list (Z * Z) :=
  match s with None => m | Some l => add_set (Z.to_nat nfds) 0 l event m end.
Definition select_pollfds (nfds : Z) (r w x : option fd_set) : list pollfd :=
  map (fun '(fd, ev) => mkPollfd fd ev 0) (add_opt nfds x 0 (add_opt nfds w POLLOUT (add_opt nfds r POLLIN []))).

(** The sets written back, and the count. *)
Definition select_result (pfds : list pollfd) (r w x : option fd_set) : Z * option fd_set * option fd_set * option fd_set :=
  let pick (s : option fd_set) mask :=
    (fun _ : fd_set => map IoWait.fd (List.filter (fun p => has (events p) mask) pfds)) <$> s in
  let r' := pick r POLLIN in let w' := pick w POLLOUT in let x' := pick x (Z.lnot IN_OUT) in
  (sz (default [] r') + sz (default [] w') + sz (default [] x'), r', w', x').

Definition select_timeout (timeout : option timeval) : Z :=
  match timeout with None => -1 | Some tv => i32 (tv_sec tv * 1000 + Z.quot (tv_usec tv) 1000) end.

Inductive select_start : Type :=
| SelReturns (n : Z) (r w x : option fd_set)
| SelSleeps (ms : Z)
| SelPolls (pfds : list pollfd) (timeout_ms : Z).

(** Up to the nested [poll]; [direct] is the result of [select_f] with the sets
    it leaves, blocking in a thread and for a zero time-out, not blocking
    otherwise. *)
Definition select_begin (tk : option nat) (nfds : Z) (r w x : option fd_set) (timeout : option timeval)
    (direct : Z * option fd_set * option fd_set * option fd_set) : select_start :=
  let '(dn, dr, dw, dx) := direct in
  let timeout_ms := select_timeout timeout in
  match tk with
  | None => SelReturns dn dr dw dx
  | Some _ =>
      if timeout_ms =? 0 then SelReturns dn dr dw dx
      else if nfds =? 0 then SelSleeps timeout_ms
      else
        let nfds := Z.min nfds FD_SETSIZE in
        if negb (dn =? 0) then
          SelReturns dn (if r is Some _ then dr else None) (if w is Some _ then dw else None)
            (if x is Some _ then dx else None)
        else SelPolls (select_pollfds nfds r w x) timeout_ms
  end.
Definition select_finish (n : Z) (pfds : list pollfd) (r w x : option fd_set) :
    Z * option fd_set * option fd_set * option fd_set :=
  if n <=? 0 then (let clear := fmap (fun _ : fd_set => [] : fd_set) in (n, clear r, clear w, clear x)) else select_result pfds r w x.

(** ** Sleeping: the milliseconds given to [SleepSwitch] *)
Definition sleep_ms (seconds : Z) : Z := i32 (u32 (seconds * 1000)).
Definition usleep_ms (usec : Z) : Z := i32 (usec / 1000).
Definition nanosleep_ms (tv_sec tv_nsec : Z) : Z := i32 (tv_sec * 1000 + Z.quot tv_nsec 1000000).
Inductive slept : Type := Yields | Sleeps (ms : Z).
Definition SleepSwitch (timeout_ms : Z) : slept := if timeout_ms <=? 0 then Yields else Sleeps timeout_ms.

(** ** Calls that change descriptors *)

Definition put_ctx (p : nat) (c : FileDescriptorCtx) (g : fds (W := W)) : fds (W := W) :=
  set_ctx p c (fd_env g) (fd_iow g) g.
Definition call (f : W -> Z * W) (g : fds (W := W)) : option (Z * fds (W := W)) :=
  let '(r, w) := f (world (fd_env g)) in Some (r, with_world w g).

Definition close (fd : Z) (g : fds (W := W)) : option (Z * fds (W := W)) := mgr_close fd true g.

(** What [dup], [dup2], [dup3] and [F_DUPFD] do after the system's call; a
    failure of [FdManager::dup] is only reported. *)
Definition record_dup (oldfd newfd : Z) (g : fds (W := W)) : option (fds (W := W)) :=
  '(_, g) ← mgr_dup oldfd newfd g; Some g.

Definition fcntl (fd : Z) (cmd : fcntl_cmd) (arg : Z) (g : fds (W := W)) : option (Z * fds (W := W)) :=
  match cmd with
  | F_DUPFD | F_DUPFD_CLOEXEC =>
      '(newfd, g) ← call (sys_fcntl fd cmd (Some arg)) g;
      if newfd <? 0 then Some (newfd, g)
      else g ← record_dup fd newfd g; Some (newfd, g)
  | F_SETFD | F_SETOWN | F_SETSIG | F_SETLEASE | F_NOTIFY | F_SETPIPE_SZ => call (sys_fcntl fd cmd (Some arg)) g
  | F_SETFL =>
      '(o, g) ← open_ctx fd g;
      match o with
      | None => call (sys_setfl fd arg) g
      | Some (p, c) =>
          if negb (is_socket_ c) then call (sys_setfl fd arg) g
          else
            let g := put_ctx p (set_user_nonblock (has arg O_NONBLOCK) c) g in
            let flags := if sys_nonblock_ c then Z.lor arg O_NONBLOCK else Z.land arg (Z.lnot O_NONBLOCK) in
            call (sys_setfl fd flags) g
      end
  | F_GETLK | F_SETLK | F_SETLKW => call (sys_fcntl fd cmd (Some arg)) g
  | F_GETOWN_EX | F_SETOWN_EX => call (sys_fcntl fd cmd (Some arg)) g
  | F_GETFL =>
      let flags := sys_getfl fd (world (fd_env g)) in
      '(o, g) ← open_ctx fd g;
      match o with
      | None => Some (flags, g)
      | Some (p, c) =>
          if negb (is_socket_ c) then Some (flags, g)
          else if user_nonblock_ c then Some (Z.lor flags O_NONBLOCK, g)
          else Some (Z.land flags (Z.lnot O_NONBLOCK), g)
      end
  | F_GETFD | F_GETOWN | F_GETSIG | F_GETLEASE | F_GETPIPE_SZ | F_OTHER _ => call (sys_fcntl fd cmd None) g
  end.

(** [value] is the [int] at address [arg], which [FIONBIO] reads. *)
Definition FIONBIO : Z := 21537.
Definition ioctl (fd request arg value : Z) (g : fds (W := W)) : option (Z * fds (W := W)) :=
  if FIONBIO =? request then
    '(o, g) ← open_ctx fd g;
    match o with
    | None => call (sys_ioctl fd request arg) g
    | Some (p, c) =>
        if negb (is_socket_ c) then call (sys_ioctl fd request arg) g
        else Some (0, put_ctx p (set_user_nonblock (negb (value =? 0)) c) g)
    end
  else call (sys_ioctl fd request arg) g.

(** [tv] is the [timeval] at address [optval], which the two time-outs read. *)
Definition SOL_SOCKET : Z := 1.
Definition timeo_of (optname : Z) : option timeo_type :=
  if optname =? 20 then Some SO_RCVTIMEO else if optname =? 21 then Some SO_SNDTIMEO else None.
Definition setsockopt (sockfd level optname optval : Z) (tv : timeval) (g : fds (W := W)) :
    option (Z * fds (W := W)) :=
  g ← match timeo_of optname with
      | Some type =>
          if level =? SOL_SOCKET then
            '(o, g) ← get_fd_ctx sockfd g;
            match o with
            | None => Some g
            | Some p => c ← heap g !! p; Some (put_ctx p (set_time_o type tv c) g)
            end
          else Some g
      | None => Some g
      end;
  call (sys_setsockopt sockfd level optname optval) g.

Definition dup (oldfd : Z) (g : fds (W := W)) : option (Z * fds (W := W)) :=
  '(newfd, g) ← call (sys_dup oldfd) g;
  if newfd <? 0 then Some (newfd, g)
  else g ← record_dup oldfd newfd g; Some (newfd, g).

(** [dup2] and [dup3] after their guard. *)
Definition dup_onto (oldfd newfd : Z) (f : W -> Z * W) (g : fds (W := W)) : option (Z * fds (W := W)) :=
  if (newfd <? 0) || (oldfd <? 0) || (oldfd =? newfd) then call f g
  else
    '(ret, g) ← call f g;
    if ret <? 0 then Some (ret, g)
    else
      '(_, g) ← mgr_close newfd false g;
      g ← record_dup oldfd newfd g;
      Some (ret, g).
Definition dup2 (oldfd newfd : Z) := dup_onto oldfd newfd (sys_dup2 oldfd newfd).
Definition dup3 (oldfd newfd flags : Z) := dup_onto oldfd newfd (sys_dup3 oldfd newfd flags).

(** ** Blocking calls *)

Definition eagain_cause (t : Z) (expired : list Z) (polls : list poll_end) : Prop :=
  (t <> 0 /\ exists x, x ∈ expired /\ t < i32 x) \/ PollTimeout ∈ polls \/ PollError EAGAIN ∈ polls.

Lemma poll_retry_in polls : forall k r polls',
  poll_retry polls = (k, Some (r, polls')) -> r ∈ polls /\ r <> PollIntr /\ forall x, x ∈ polls' -> x ∈ polls.
Proof.
  induction polls as [|q polls IH]; [done|]. intros k r polls'. destruct q; cbn; try (intros [= <- <- <-]; set_solver).
  destruct (poll_retry polls) as [k' o]. intros [= <- ->]. destruct (IH _ _ _ eq_refl) as (? & ? & ?). set_solver.
Qed.
Lemma poll_retry_pos polls : exists k, fst (poll_retry polls) = S k.
Proof. induction polls as [|[] polls IH]; cbn; try (by eexists). destruct (poll_retry polls) as [k o]. by exists k. Qed.

Lemma rw_would_block fd ev t fns : forall expired polls v used,
  rw_loop fd ev t fns expired polls = (Some v, used) -> would_block v = true -> eagain_cause t expired polls.
Proof.
  unfold eagain_cause. induction fns as [|r fns IH]; intros expired polls v used; cbn [rw_loop]; [done|].
  destruct (would_block r) eqn:Er; [|intros [= <- <-]; congruence].
  assert (forall pt e', (forall x, x ∈ e' -> x ∈ expired) ->
    wait_events pt polls (rw_loop fd ev t fns e') = (Some v, used) -> would_block v = true -> eagain_cause t expired polls) as Hwait.
  { intros pt e' He. unfold wait_events. destruct (poll_retry polls) as [k [[q polls']|]] eqn:Ep; [|done].
    apply poll_retry_in in Ep as (Hq & Hni & Hsub). unfold eagain_cause.
    destruct q as [|err| |]; [done| | |].
    - intros [= <- <-] Hv. unfold would_block in Hv. cbn in Hv. apply Z.eqb_eq in Hv as ->. auto.
    - auto.
    - destruct (rw_loop fd ev t fns e' polls') as [res us] eqn:El. intros [= -> <-] Hv.
      destruct (IH _ _ _ _ El Hv) as [[Ht (x & Hx & Hlt)]|[?|?]]; naive_solver. }
  destruct (t =? 0) eqn:Et; zbool; [by apply Hwait|]. destruct expired as [|x expired']; [done|].
  destruct (t <? i32 x) eqn:Ex; zbool.
  - intros _ _. left. split; [done|]. exists x. set_solver.
  - apply Hwait. set_solver.
Qed.

(** The calls of [poll]: for [xs] the readings of the clock before each wait and
    [ks] the numbers of interruptions in each. *)
Definition polls_made (fd ev t : Z) (xs : list Z) (ks : list nat) : list poll_req :=
  concat (zip_with (fun x k => replicate (S k) (fd, ev, if t =? 0 then -1 else t - x)) xs ks).

Lemma polls_none fd ev t (expired : list Z) :
  exists xs ks, length xs = length ks /\ [] = polls_made fd ev t xs ks /\
    (t <> 0 -> xs `prefix_of` expired /\ Forall (fun x => x <= t) xs).
Proof. exists [], []. split; [done|]. split; [done|]. intros _. split; [apply prefix_nil|constructor]. Qed.

Lemma rw_polls fd ev t fns : forall expired polls v used,
  rw_loop fd ev t fns expired polls = (v, used) -> 0 <= t < 2 ^ 31 -> Forall (fun x => 0 <= x < 2 ^ 31) expired ->
  exists xs ks, length xs = length ks /\ used = polls_made fd ev t xs ks /\
    (t <> 0 -> xs `prefix_of` expired /\ Forall (fun x => x <= t) xs).
Proof.
  induction fns as [|r fns IH]; intros expired polls v used; cbn [rw_loop]; intros Hl Ht He.
  { injection Hl as <- <-. apply polls_none. }
  destruct (would_block r); [|injection Hl as <- <-; apply polls_none].
  assert (forall x e', Forall (fun x => 0 <= x < 2 ^ 31) e' -> (t <> 0 -> expired = x :: e' /\ x <= t) ->
    wait_events (fd, ev, if t =? 0 then -1 else t - x) polls (rw_loop fd ev t fns e') = (v, used) ->
    exists xs ks, length xs = length ks /\ used = polls_made fd ev t xs ks /\
      (t <> 0 -> xs `prefix_of` expired /\ Forall (fun x => x <= t) xs)) as Hwait.
  { intros x e' He' Hx. unfold wait_events. destruct (poll_retry_pos polls) as [k Hk]. destruct (poll_retry polls) as [k' o]. cbn in Hk. subst k'.
    assert (forall us xs ks, length xs = length ks -> us = polls_made fd ev t xs ks ->
      (t <> 0 -> xs `prefix_of` e' /\ Forall (fun x => x <= t) xs) ->
      exists xs ks, length xs = length ks /\ replicate (S k) (fd, ev, if t =? 0 then -1 else t - x) ++ us = polls_made fd ev t xs ks /\
        (t <> 0 -> xs `prefix_of` expired /\ Forall (fun x => x <= t) xs)) as Hcons.
    { intros us xs ks H1 -> H3. exists (x :: xs), (k :: ks). split; [cbn; lia|]. split; [done|]. intros Hnz.
      destruct (Hx Hnz) as [-> Hle]. destruct (H3 Hnz). split; [by apply prefix_cons|by constructor]. }
    destruct o as [[q polls']|]; [destruct q|]; try (intros [= <- <-]; rewrite <- (app_nil_r (replicate _ _)); apply (Hcons [] [] []); try done;
      intros _; split; [apply prefix_nil|constructor]).
    all: destruct (rw_loop fd ev t fns e' polls') as [res us] eqn:El; intros [= <- <-];
      destruct (IH _ _ _ _ El Ht He') as (xs & ks & H1 & H2 & H3); by apply (Hcons us xs ks). }
  destruct (t =? 0) eqn:Et; zbool; [by apply (Hwait 0 expired)|].
  destruct expired as [|x expired']; [injection Hl as <- <-; apply polls_none|].
  apply Forall_cons in He as [Hx He]. rewrite (i32_small x) in Hl by lia. destruct (t <? x) eqn:Ex; zbool.
  { injection Hl as <- <-. apply polls_none. }
  rewrite i32_small in Hl by lia. by apply (Hwait x expired').
Qed.

(** What the polls of [k] rounds return when each ends with events, after some
    interruptions. *)
Definition event_rounds (intrs : list nat) : list poll_end :=
  concat (map (fun k => replicate k PollIntr ++ [PollEvents]) intrs).

Lemma poll_retry_round k polls : poll_retry (replicate k PollIntr ++ PollEvents :: polls) = (S k, Some (PollEvents, polls)).
Proof. induction k as [|k IH]; [done|]. cbn in *. by rewrite IH. Qed.

Lemma rw_progress fd ev t bs v rest : forall expired intrs more,
  Forall (fun r => would_block r = true) bs -> would_block v = false -> length intrs = length bs ->
  (t = 0 \/ (length bs <= length expired)%nat /\ Forall (fun x => i32 x <= t) (take (length bs) expired)) ->
  fst (rw_loop fd ev t (bs ++ v :: rest) expired (event_rounds intrs ++ more)) = Some v.
Proof.
  induction bs as [|b bs IH]; intros expired intrs more Hb Hv Hl Ht; cbn [app rw_loop]; [by rewrite Hv|].
  apply Forall_cons in Hb as [Hb Hbs]. rewrite Hb. destruct intrs as [|k intrs]; [done|].
  unfold event_rounds, wait_events. cbn [map concat]. rewrite <- !app_assoc. cbn [app]. rewrite poll_retry_round.
  fold (event_rounds intrs). simpl in Hl.
  destruct (t =? 0) eqn:Et; zbool.
  - specialize (IH expired intrs more Hbs Hv ltac:(lia) ltac:(by left)).
    by destruct (rw_loop fd ev t (bs ++ v :: rest) expired (event_rounds intrs ++ more)).
  - destruct Ht as [?|[Hle Hf]]; [done|]. destruct expired as [|x expired]; [simpl in Hle; lia|].
    simpl in Hle, Hf. apply Forall_cons in Hf as [Hx Hf]. rewrite (proj2 (Z.ltb_ge _ _)) by done.
    specialize (IH expired intrs more Hbs Hv ltac:(lia) ltac:(right; split; [lia|done])).
    by destruct (rw_loop fd ev t (bs ++ v :: rest) expired (event_rounds intrs ++ more)).
Qed.


(** ** Known descriptors *)

Record known (fd : Z) (p : nat) (c : FileDescriptorCtx) (g : fds (W := W)) : Prop := {
  k_fd : 0 <= fd;
  k_ptr : pair_ptr fd g = Some p;
  k_ctx : heap g !! p = Some c;
  k_init : is_initialize_ c = true;
  k_open : closed_ c = false }.

Lemma set_world_id (e : env (W := W)) : set_world (world e) e = e.
Proof. by destruct e. Qed.
Lemma set_ctx_id p c (g : fds (W := W)) : heap g !! p = Some c -> set_ctx p c (fd_env g) (fd_iow g) g = g.
Proof. intros H. unfold set_ctx. rewrite insert_id by done. by destruct g. Qed.

Lemma get_pair_id fd p g : 0 <= fd -> pair_ptr fd g = Some p -> get_pair (W := W) fd g = g.
Proof.
  unfold pair_ptr, get_pair. intros Hfd. destruct (is_big fd) eqn:Eb.
  - destruct (big_fds_ g !! fd) eqn:E; [|done]. by destruct g.
  - destruct (fd_deque_ g !! Z.to_nat fd) eqn:E; [|done]. apply lookup_lt_Some in E. intros _.
    by rewrite (proj2 (Z.leb_gt _ _)) by lia.
Qed.

Lemma known_get fd p c g : known fd p c g -> get_fd_ctx fd g = Some (Some p, g).
Proof.
  intros [Hfd Hp Hc Hi _]. unfold get_fd_ctx, get. rewrite (proj2 (Z.ltb_ge _ _)) by done.
  rewrite (get_pair_id _ _ _ Hfd Hp), Hp, Hc. cbn [mbind option_bind]. unfold re_initialize. rewrite Hi.
  cbn [mbind option_bind]. rewrite set_world_id, set_ctx_id, Hc by done. cbn. by rewrite Hi.
Qed.

Lemma known_open fd p c g : known fd p c g -> open_ctx fd g = Some (Some (p, c), g).
Proof.
  intros Hk. unfold open_ctx. rewrite (known_get _ _ _ _ Hk). cbn. rewrite (k_ctx _ _ _ _ Hk). cbn.
  by rewrite (k_open _ _ _ _ Hk).
Qed.

(** Changing the context, the rest of the world and the waiting tasks. *)
Lemma known_update fd p c g c' e iw :
  known fd p c g -> is_initialize_ c' = true -> closed_ c' = false -> known fd p c' (set_ctx p c' e iw g).
Proof. intros [Hfd Hp Hc Hi Hcl] Hi' Hcl'. constructor; try done. cbn. apply lookup_insert_eq. Qed.

Lemma known_world fd p c g w : known fd p c g -> known fd p c (with_world w g).
Proof. by intros []. Qed.

(** ** Non-blocking mode

    Library and system share one flag of the open file: the system's is always
    set, and the user's is kept in the context. *)
Class HookLaws : Type := {
  setfl_sets fd fl w w' : sys_setfl fd fl w = (0, w') -> has (sys_getfl fd w') O_NONBLOCK = has fl O_NONBLOCK;
  setfl_fails fd fl w r w' : sys_setfl fd fl w = (r, w') -> r <> 0 -> sys_getfl fd w' = sys_getfl fd w }.
Context {HL : HookLaws}.

Inductive mode_op : Type := SetFl (flags : Z) | IoctlNbio (arg value : Z) | GetFl.

Definition mode_call (fd : Z) (op : mode_op) : fds (W := W) -> option (Z * fds (W := W)) :=
  match op with
  | SetFl flags => fcntl fd F_SETFL flags
  | IoctlNbio arg value => ioctl fd FIONBIO arg value
  | GetFl => fcntl fd F_GETFL 0
  end.
Fixpoint mode_calls (fd : Z) (ops : list mode_op) (g : fds (W := W)) : option (list Z * fds (W := W)) :=
  match ops with
  | [] => Some ([], g)
  | op :: ops' => '(r, g) ← mode_call fd op g; '(rs, g) ← mode_calls fd ops' g; Some (r :: rs, g)
  end.

(** The specification: a flag that is set and read. *)
Definition mode_next (op : mode_op) (b : bool) : bool :=
  match op with SetFl flags => has flags O_NONBLOCK | IoctlNbio _ value => negb (value =? 0) | GetFl => b end.
Fixpoint mode_agrees (ops : list mode_op) (rs : list Z) (b : bool) : Prop :=
  match ops, rs with
  | [], [] => True
  | op :: ops', r :: rs' =>
      (op = GetFl -> has r O_NONBLOCK = b) /\ mode_agrees ops' rs' (mode_next op b)
  | _, _ => False
  end.

Record hidden (fd : Z) (p : nat) (b : bool) (g : fds (W := W)) : Prop := {
  h_ctx : exists c, known fd p c g /\ is_socket_ c = true /\ sys_nonblock_ c = true /\ user_nonblock_ c = b;
  h_sys : has (sys_getfl fd (world (fd_env g))) O_NONBLOCK = true }.

Lemma has_lor a m : m <> 0 -> has (Z.lor a m) m = true.
Proof.
  intros Hm. unfold has. assert (Z.land (Z.lor a m) m = m) as ->.
  { apply Z.bits_inj'. intros k Hk. rewrite Z.land_spec, Z.lor_spec. by destruct (Z.testbit a k), (Z.testbit m k). }
  by rewrite (proj2 (Z.eqb_neq _ _)).
Qed.
Lemma has_land_not a m : has (Z.land a (Z.lnot m)) m = false.
Proof. unfold has. by rewrite <- Z.land_assoc, (Z.land_comm (Z.lnot m)), Z.land_lnot_diag, Z.land_0_r. Qed.

Lemma mode_step fd p b op g :
  hidden fd p b g -> exists r g', mode_call fd op g = Some (r, g') /\ hidden fd p (mode_next op b) g' /\
    (op = GetFl -> has r O_NONBLOCK = b).
Proof.
  intros [(c & Hk & Hs & Hn & Hb) Hsys]. pose proof (known_open _ _ _ _ Hk) as Ho. destruct op as [flags|arg value|]; cbn.
  - rewrite Ho. cbn. rewrite Hs, Hn. cbn. unfold call. cbn. set (fl := Z.lor flags O_NONBLOCK).
    destruct (sys_setfl fd fl (world (fd_env g))) as [r w'] eqn:E. cbn. eexists _, _. split; [reflexivity|]. split; [|done].
    constructor.
    + eexists. split; [|split_and!]; [by eapply known_world, known_update; [exact Hk|apply Hk..]|done..].
    + cbn. destruct (decide (r = 0)) as [->|Hr].
      * rewrite (setfl_sets _ _ _ _ E). by apply has_lor.
      * by rewrite (setfl_fails _ _ _ _ _ E).
  - unfold ioctl. cbn. rewrite Ho. cbn. rewrite Hs. cbn. eexists _, _. split; [reflexivity|]. split; [|done].
    constructor; [|done]. eexists. split; [|split_and!]; [by eapply known_update; [exact Hk|apply Hk..]|done..].
  - rewrite Ho. cbn. rewrite Hs, Hb. cbn. destruct b; eexists _, _; (split; [reflexivity|]).
    all: split; [constructor; [by exists c|done]|intros _].
    + by apply has_lor.
    + apply has_land_not.
Qed.

Lemma mode_calls_ok fd p ops : forall b g, hidden fd p b g ->
  exists rs g', mode_calls fd ops g = Some (rs, g') /\ mode_agrees ops rs b /\
    hidden fd p (fold_left (fun b op => mode_next op b) ops b) g'.
Proof.
  induction ops as [|op ops IH]; intros b g Hh; cbn.
  - by exists [], g.
  - destruct (mode_step fd p b op g Hh) as (r & g1 & E1 & H1 & Hr). rewrite E1. cbn.
    destruct (IH _ _ H1) as (rs & g2 & E2 & H2 & H3). rewrite E2. cbn. by exists (r :: rs), g2.
Qed.

(** The first use of a socket. *)
Definition first_use (fd : Z) (g : fds (W := W)) : Prop :=
  0 <= fd /\ pair_ptr fd g = None /\ sys_fstat fd (world (fd_env g)) = Some true /\
  let w := world (fd_env g) in let fl := sys_getfl fd w in
  has fl O_NONBLOCK = true \/ fst (sys_setfl fd (Z.lor fl O_NONBLOCK) w) = 0.

(** Descriptors of one manager: [get_pair] keeps every pointer and makes room. *)
Definition has_room (fd : Z) (g : fds (W := W)) : Prop :=
  is_big fd = true \/ (Z.to_nat fd < length (fd_deque_ g))%nat.

Lemma get_pair_ptr fd g fd' : 0 <= fd' -> pair_ptr fd' (get_pair (W := W) fd g) = pair_ptr fd' g.
Proof.
  intros Hfd. unfold get_pair, pair_ptr. destruct (is_big fd) eqn:Eb; cbn.
  - destruct (is_big fd'); [|done]. destruct (big_fds_ g !! fd) eqn:E; [done|].
    destruct (decide (fd = fd')) as [<-|]; [by rewrite lookup_insert_eq, E|by rewrite lookup_insert_ne].
  - destruct (sz (fd_deque_ g) <=? fd) eqn:El; [|done]. zbool. cbn. destruct (is_big fd'); [done|]. unfold resize.
    rewrite take_ge by lia. destruct (decide (Z.to_nat fd' < length (fd_deque_ g))%nat).
    + by rewrite lookup_app_l.
    + rewrite lookup_app_r, (lookup_ge_None_2 (fd_deque_ g)) by lia.
      destruct (replicate _ None !! _) as [o|] eqn:E; [|done]. by apply lookup_replicate in E as [-> _].
Qed.

Lemma get_pair_room fd g : 0 <= fd -> has_room fd (get_pair (W := W) fd g).
Proof.
  intros Hfd. unfold has_room, get_pair. destruct (is_big fd); [by left|right].
  destruct (sz (fd_deque_ g) <=? fd) eqn:El; zbool; cbn; [|lia]. unfold resize.
  rewrite length_app, length_take, length_replicate. lia.
Qed.

Lemma set_ptr_eq fd p g : has_room fd g -> pair_ptr fd (set_ptr (W := W) fd p g) = p.
Proof.
  unfold has_room, pair_ptr, set_ptr. intros H. destruct (is_big fd); cbn; [by rewrite lookup_insert_eq|].
  rewrite list_lookup_insert_eq; [done|]. by destruct H.
Qed.

Lemma set_ptr_ne fd fd' p g : 0 <= fd -> 0 <= fd' -> fd <> fd' -> pair_ptr fd' (set_ptr (W := W) fd p g) = pair_ptr fd' g.
Proof.
  intros H1 H2 Hne. unfold pair_ptr, set_ptr.
  destruct (is_big fd) eqn:E1, (is_big fd') eqn:E2; cbn; rewrite ?E2; try done.
  - by rewrite lookup_insert_ne.
  - by rewrite list_lookup_insert_ne by lia.
Qed.

Lemma get_pair_frame fd g :
  heap (get_pair (W := W) fd g) = heap g /\ fd_env (get_pair fd g) = fd_env g /\ fd_iow (get_pair fd g) = fd_iow g.
Proof. unfold get_pair. by repeat case_match. Qed.

Lemma first_use_hidden fd g :
  first_use fd g -> exists p g', open_ctx fd g = Some (Some (p, mkCtx true true true false false fd 0 (mkTv 0 0) (mkTv 0 0) [] [] [] (-1) (-1)), g') /\
    hidden fd p false g'.
Proof.
  intros (Hfd & Hp & Hst & Hfl). destruct (get_pair_frame fd g) as (Hh & He & Hi).
  unfold open_ctx, get_fd_ctx, get. rewrite (proj2 (Z.ltb_ge _ _)) by done.
  rewrite get_pair_ptr, Hp, He by done. unfold FileDescriptorCtx_new, re_initialize, ctx_blank. cbn [is_initialize_ fd_].
  rewrite Hst. set (w := world (fd_env g)) in *. set (w' := if has (sys_getfl fd w) O_NONBLOCK then w else _).
  assert (has (sys_getfl fd w') O_NONBLOCK = true) as Hsys.
  { unfold w'. destruct (has (sys_getfl fd w) O_NONBLOCK) eqn:E; [done|]. destruct Hfl as [?|Hz]; [congruence|].
    destruct (sys_setfl fd _ w) as [r w1] eqn:Es. cbn in *. subst r. rewrite (setfl_sets _ _ _ _ Es). by apply has_lor. }
  unfold new_ctx, with_world. cbn [heap fd_env next_ctx world set_world].
  set (g1 := mkFds _ _ _ _ _ _). set (n := next_ctx (get_pair fd g)) in *.
  assert (has_room fd g1) as Hroom by apply (get_pair_room fd g Hfd).
  assert (heap (set_ptr fd (Some n) g1) !! n = Some (mkCtx true true true false false fd 0 (mkTv 0 0) (mkTv 0 0) [] [] [] (-1) (-1))) as Hc.
  { unfold set_ptr. destruct (is_big fd); cbn; apply lookup_insert_eq. }
  assert (world (fd_env (set_ptr fd (Some n) g1)) = w') as Hw by (unfold set_ptr; by destruct (is_big fd)).
  cbn [mbind option_bind]. rewrite Hc. cbn [mbind option_bind is_initialize_].
  rewrite set_world_id, set_ctx_id, Hc by done. cbn [mbind option_bind is_initialize_ closed_].
  rewrite Hc. cbn. eexists _, _. split; [reflexivity|].
  constructor; [|by rewrite Hw]. eexists. split; [|split_and!]; [constructor|..]; [done| |exact Hc|done..].
  by apply set_ptr_eq.
Qed.

(** C18: The user's view of non-blocking mode.  Libgo puts every socket in
    non-blocking mode and hides it: from the first use of a socket on, whatever
    sequence of [fcntl(F_SETFL)], [ioctl(FIONBIO)] and [fcntl(F_GETFL)] a program
    makes, each [F_GETFL] shows exactly the mode the program has set last
    (blocking at first), the hooks follow that mode, and the system's flag stays
    set so that no call of a coroutine blocks the thread. *)
Theorem nonblock_hidden fd ops g :
  first_use fd g ->
  exists p c g1 rs g2, open_ctx fd g = Some (Some (p, c), g1) /\ mode_calls fd ops g1 = Some (rs, g2) /\
    mode_agrees ops rs false /\
    hidden fd p (fold_left (fun b op => mode_next op b) ops false) g2.
Proof.
  intros Hf. destruct (first_use_hidden fd g Hf) as (p & g1 & E1 & H1).
  destruct (mode_calls_ok fd p ops false g1 H1) as (rs & g2 & E2 & H2 & H3).
  by eexists _, _, _, _, _.
Qed.

(** ** [dup2] *)

Lemma mgr_dup_known old new p c g :
  known old p c g -> 0 <= new -> pair_ptr new g = None ->
  exists g', mgr_dup old new g = Some (true, g') /\ pair_ptr new g' = Some p /\
    (forall fd, 0 <= fd -> fd <> new -> pair_ptr fd g' = pair_ptr fd g) /\
    heap g' = heap g /\ fd_env g' = fd_env g /\ fd_iow g' = fd_iow g.
Proof.
  intros [Hfd Hp Hc Hi Hcl] Hn Hnone. unfold mgr_dup, get. rewrite (get_pair_id _ _ _ Hfd Hp), Hp, Hc.
  cbn [mbind option_bind]. unfold re_initialize. rewrite Hi. cbn [mbind option_bind].
  rewrite set_world_id, set_ctx_id, Hc by done. cbn [mbind option_bind]. rewrite Hi. cbn [negb].
  rewrite get_pair_ptr, Hnone by done. destruct (get_pair_frame new g) as (Hh & He & Hw).
  eexists. split; [reflexivity|]. split; [by apply set_ptr_eq, get_pair_room|]. split.
  - intros fd H0 Hne. rewrite set_ptr_ne by done. by apply get_pair_ptr.
  - unfold set_ptr. destruct (is_big new); cbn; by split_and!.
Qed.

(** [dup2] makes the new descriptor share the context of the old one.  What the
    new one was before is closed without a second [close] of the system: its
    waiters are told and its context satisfies the assertions of the
    destructor. *)
Theorem dup2_shares old new p c ret w' g :
  known old p c g -> 0 <= new -> old <> new -> pair_ptr new g <> Some p ->
  (forall q, pair_ptr new g = Some q -> is_Some (heap g !! q)) ->
  sys_dup2 old new (world (fd_env g)) = (ret, w') -> 0 <= ret ->
  exists g', dup2 old new g = Some (ret, g') /\ known old p c g' /\ known new p c g' /\ world (fd_env g') = w' /\
    (forall q cq, pair_ptr new g = Some q -> heap g !! q = Some cq -> closed_ cq = false ->
       exists cq', heap g' !! q = Some cq' /\ destructor_ok cq' = true /\
         fd_iow g' = close_tasks (fd_ cq) (io_tasks_ cq) (close_tasks (fd_ cq) (o_tasks_ cq)
                       (close_tasks (fd_ cq) (i_tasks_ cq) (fd_iow g)))).
Proof.
  intros Hk Hn Hne Hdiff Hheap Hsys Hret. pose proof (k_fd _ _ _ _ Hk) as Hfd. unfold dup2, dup_onto, call.
  rewrite (proj2 (Z.ltb_ge new 0)), (proj2 (Z.ltb_ge old 0)), (proj2 (Z.eqb_neq old new)) by done. cbn [orb].
  rewrite Hsys. cbn [mbind option_bind]. rewrite (proj2 (Z.ltb_ge ret 0)) by done.
  assert (exists r g1, mgr_close new false (with_world w' g) = Some (r, g1) /\ known old p c g1 /\ pair_ptr new g1 = None /\
    world (fd_env g1) = w' /\
    (forall q cq, pair_ptr new g = Some q -> heap g !! q = Some cq -> closed_ cq = false ->
       exists cq', heap g1 !! q = Some cq' /\ destructor_ok cq' = true /\
         fd_iow g1 = close_tasks (fd_ cq) (io_tasks_ cq) (close_tasks (fd_ cq) (o_tasks_ cq)
                       (close_tasks (fd_ cq) (i_tasks_ cq) (fd_iow g))))) as (r & g1 & -> & Hk1 & Hp1 & Hw1 & Hq1).
  { unfold mgr_close. rewrite (proj2 (Z.ltb_ge new 0)) by done. rewrite get_pair_ptr by done.
    destruct (get_pair_frame new (with_world w' g)) as (Hh & He & Hi).
    assert (forall fd, 0 <= fd -> pair_ptr fd (get_pair new (with_world w' g)) = pair_ptr fd g) as Hptr
      by (intros; by rewrite get_pair_ptr).
    change (pair_ptr new (with_world w' g)) with (pair_ptr new g).
    destruct (pair_ptr new g) as [q|] eqn:Eq.
    - destruct (Hheap q eq_refl) as [cq Hcq]. assert (q <> p) as Hqp by congruence.
      rewrite Hh. change (heap (with_world w' g)) with (heap g). rewrite Hcq. cbn [mbind option_bind].
      rewrite Hi, He. cbn [world fd_env with_world set_world].
      destruct (ctx_close false cq (fd_iow (with_world w' g)) w') as [[[r c2] iw2] w2] eqn:Ecl.
      eexists _, _. split; [reflexivity|]. split_and!.
      + destruct Hk as [_ Hpo Hc Hin Hop]. constructor; [done| | |done|done].
        * rewrite set_ptr_ne by done. change (pair_ptr old (set_ctx q c2 _ iw2 ?x)) with (pair_ptr old x). by rewrite Hptr.
        * unfold set_ptr. destruct (is_big new); cbn; by rewrite lookup_insert_ne, Hh.
      + apply set_ptr_eq. destruct (get_pair_room new (with_world w' g) Hn); [by left|by right].
      + unfold set_ptr. unfold ctx_close in Ecl. destruct (closed_ cq); injection Ecl as <- <- <- <-; by destruct (is_big new).
      + intros q' cq' [= <-] Hcq' Hopen. rewrite Hcq in Hcq'. injection Hcq' as <-. unfold ctx_close in Ecl.
        rewrite Hopen in Ecl. injection Ecl as <- <- <- <-. eexists. split; [|split].
        * unfold set_ptr. destruct (is_big new); cbn; apply lookup_insert_eq.
        * done.
        * unfold set_ptr. by destruct (is_big new).
    - eexists _, _. split; [reflexivity|]. split_and!; [|by rewrite Hptr|by rewrite He|done].
      destruct Hk as [_ Hpo Hc Hin Hop]. constructor; try done; [by rewrite Hptr|by rewrite Hh]. }
  cbn [mbind option_bind]. destruct (mgr_dup_known old new p c g1 Hk1 Hn Hp1) as (g2 & Hd & Hpn & Hoth & Hh & He & Hi).
  unfold record_dup. rewrite Hd. cbn. exists g2. split; [done|].
  destruct Hk1 as [_ Hpo Hc Hin Hop]. split_and!.
  - constructor; try done; [by rewrite Hoth|by rewrite Hh].
  - constructor; try done. by rewrite Hh.
  - by rewrite He.
  - intros q cq H1 H2 H3. rewrite Hh, Hi. by apply Hq1.
Qed.
End Hooks.

(** ** Behaviour that was not intended *)

(** In [select], [pfd_map[fd] &= event] leaves 0 for every descriptor, so that
    the nested [poll] asks for no event; and as the result is taken from the
    events asked for, whatever [poll] reports, the sets come back empty and the
    count is 0. *)
Definition all_zero (m : list (Z * Z)) : Prop := forall k v, (k, v) ∈ m -> v = 0.
Lemma map_and_zero fd event m : all_zero m -> all_zero (map_and fd event m).
Proof.
  intros Hm k v Hin. apply elem_of_map_put in Hin as [[_ ->]|Hin]; [|by eapply Hm].
  destruct (map_find fd m) as [u|] eqn:E; cbn; [|apply Z.land_0_l].
  apply map_find_elem in E. rewrite (Hm _ _ E). apply Z.land_0_l.
Qed.
Lemma add_set_zero nfds s event : forall fd m, all_zero m -> all_zero (add_set nfds fd s event m).
Proof.
  induction nfds as [|k IH]; intros fd m Hm; cbn; [done|]. apply IH. case_bool_decide; [by apply map_and_zero|done].
Qed.
Lemma select_events_lost nfds r w x : Forall (fun p => events p = 0) (select_pollfds nfds r w x).
Proof.
  apply Forall_forall. intros p Hp. unfold select_pollfds in Hp. apply list_elem_of_In, in_map_iff in Hp as ([k v] & <- & Hp).
  apply list_elem_of_In in Hp. cbn.
  assert (forall s event m, all_zero m -> all_zero (add_opt nfds s event m)) as H.
  { intros [l|] event m Hm; [by apply add_set_zero|done]. }
  eapply H, Hp. apply H, H. intros k' v' Hin. by apply not_elem_of_nil in Hin.
Qed.

Lemma select_reports_nothing n pfds r w x :
  Forall (fun p => events p = 0) pfds -> 0 < n ->
  let clear := fmap (fun _ : fd_set => [] : fd_set) in select_finish n pfds r w x = (0, clear r, clear w, clear x).
Proof.
  intros Hp Hn clear. unfold select_finish. rewrite (proj2 (Z.leb_gt n 0)) by done. unfold select_result.
  assert (forall mask, List.filter (fun p => has (events p) mask) pfds = []) as Hf.
  { intros mask. induction Hp as [|p ps E _ IH]; [done|]. cbn. by rewrite E. }
  rewrite !Hf. by destruct r, w, x.
Qed.

(** A time-out below a millisecond counts as none: the call waits without end. *)
Lemma short_timeout_endless usec : 0 <= usec < 1000 -> timeout_of (mkTv 0 usec) = 0.
Proof. intros H. unfold timeout_of. cbn. rewrite Z.quot_small by lia. done. Qed.

(** A connection that was refused shows [POLLOUT] together with [POLLERR] and
    [POLLHUP], which is reported as a time-out, not as [so_error]. *)
Lemma connect_refused_times_out {W} `{Kernel W} tk fd g p c g' e so_error :
  open_ctx fd g = Some (Some (p, c), g') -> user_nonblock_ c = false ->
  connect (W := W) (Some tk) fd (-1, EINPROGRESS) 1 (Z.lor POLLOUT (Z.lor POLLERR POLLHUP)) e so_error g =
    Some ((-1, ETIMEDOUT), g').
Proof. intros Ho Hu. unfold connect. rewrite Ho. cbn. by rewrite Hu. Qed.

(** A long [sleep] wraps around and only yields. *)
Lemma sleep_wraps : SleepSwitch (sleep_ms 2147484) = Yields /\ SleepSwitch (sleep_ms 2147483) = Sleeps 2147483000.
Proof. done. Qed.

(** What the sleeping calls ask for otherwise. *)
Lemma sleep_exact seconds : 0 < seconds <= 2147483 -> SleepSwitch (sleep_ms seconds) = Sleeps (seconds * 1000).
Proof.
  intros H. unfold SleepSwitch, sleep_ms. rewrite u32_small, i32_small by lia. by rewrite (proj2 (Z.leb_gt _ _)) by lia.
Qed.

(** A command that the hook does not know is passed on without its argument. *)
Lemma fcntl_drops_argument {W} `{Kernel W} `{!KernelCalls W} fd cmd arg g :
  fcntl (W := W) fd (F_OTHER cmd) arg g = call (sys_fcntl fd (F_OTHER cmd) None) g.
Proof. done. Qed.

(** A socket that was made non-blocking when it was created counts as
    blocking. *)
Lemma created_nonblock_lost {W} `{Kernel W} `{!KernelCalls W} `{!HookLaws} fd g :
  first_use (W := W) fd g -> has (sys_getfl fd (world (fd_env g))) O_NONBLOCK = true ->
  exists p c g1 r g2, open_ctx fd g = Some (Some (p, c), g1) /\ fcntl fd F_GETFL 0 g1 = Some (r, g2) /\
    has r O_NONBLOCK = false.
Proof.
  intros Hf _. destruct (first_use_hidden fd g Hf) as (p & g1 & E1 & H1).
  destruct (mode_step fd p false GetFl g1 H1) as (r & g2 & E2 & _ & Hr). eexists _, _, _, _, _.
  split; [exact E1|]. split; [exact E2|]. by apply Hr.
Qed.
