(* ===== verification/HookInit.v ===== *)
(** * Installing the glibc hooks

    The table of system functions of [libgo/linux/linux_glibc_hook.cpp],
    [coroutine_hook_init], which fills it, the entry of every hook, and the
    [__usleep] used where the C library has none.  Where a function is found is a
    parameter: [dlsym(RTLD_NEXT, ...)], or the symbol itself when linked
    statically; 0 is a null pointer. *)
From S2P Require Import Prelude.

Inductive sys_fn : Type :=
| f_connect | f_read | f_readv | f_recv | f_recvfrom | f_recvmsg | f_write | f_writev | f_send | f_sendto | f_sendmsg
| f_accept | f_poll | f_select | f_sleep | f_usleep | f_nanosleep | f_close | f_fcntl | f_ioctl | f_getsockopt
| f_setsockopt | f_dup | f_dup2 | f_dup3.
#[global] Instance sys_fn_eq_dec : EqDecision sys_fn.
Proof. solve_decision. Defined.

Record hook_table : Type := mkTable { real : sys_fn -> Z; coroutine_hook_inited : bool }.
Definition table_new : hook_table := mkTable (fun _ => 0) false.

(** The functions the test after the assignments looks at. *)
Definition checked : list sys_fn :=
  [f_connect; f_read; f_write; f_readv; f_writev; f_send; f_sendto; f_sendmsg; f_accept; f_poll; f_select; f_sleep;
   f_usleep; f_nanosleep; f_close; f_fcntl; f_setsockopt; f_getsockopt; f_dup; f_dup2; f_dup3].

Section Init.
Variable find : sys_fn -> Z.

(** [None] is [exit(1)]. *)
Definition coroutine_hook_init (t : hook_table) : option hook_table :=
  if coroutine_hook_inited t then Some t
  else if existsb (fun f => find f =? 0) checked then None
  else Some (mkTable find true).

(** How every hook begins, [if (!f) coroutine_hook_init();], up to its call of the
    system's function, at the address that is given.  [connect] has no such line:
    its first statement makes the scheduler, whose constructor calls
    [coroutine_hook_init]. *)
Definition hook_entry (f : sys_fn) (t : hook_table) : option (Z * hook_table) :=
  t ← (if real t f =? 0 then coroutine_hook_init t else Some t); Some (real t f, t).

(** Any sequence of hooked calls. *)
Fixpoint hook_entries (fs : list sys_fn) (t : hook_table) : option (list Z * hook_table) :=
  match fs with
  | [] => Some ([], t)
  | f :: fs' => '(a, t) ← hook_entry f t; '(l, t) ← hook_entries fs' t; Some (a :: l, t)
  end.

Definition table_ok (t : hook_table) : Prop :=
  t = table_new \/ t = mkTable find true /\ Forall (fun f => find f <> 0) checked.

Lemma init_ok t : table_ok t -> Forall (fun f => find f <> 0) checked -> coroutine_hook_init t = Some (mkTable find true).
Proof.
  intros [->|[-> _]] H; [|done]. unfold coroutine_hook_init, table_new. cbn [coroutine_hook_inited].
  destruct (existsb _ checked) eqn:E; [|done]. apply existsb_exists in E as (f & Hf & E). zbool.
  rewrite Forall_forall in H. by destruct (H f (proj2 (list_elem_of_In _ _) Hf)).
Qed.

(** When the library has every function the hooks need, each hooked call goes to
    the system's function, however early it is made and in whatever order. *)
Lemma hooks_reach_system fs t : (forall f, find f <> 0) -> table_ok t ->
  exists t', hook_entries fs t = Some (map find fs, t') /\ table_ok t'.
Proof.
  intros Hf. assert (Forall (fun f => find f <> 0) checked) as Hc by by apply Forall_forall.
  revert t. induction fs as [|f fs IH]; intros t Ht; [by eexists|].
  assert (hook_entry f t = Some (find f, mkTable find true)) as He.
  { unfold hook_entry. destruct Ht as [->|[-> _]]; cbn [real table_new]; [|by rewrite (proj2 (Z.eqb_neq _ _))].
    change (real table_new f) with 0. cbn [Z.eqb]. by rewrite init_ok; [|left|]. }
  cbn [hook_entries]. rewrite He. cbn. destruct (IH (mkTable find true)) as (t' & -> & Ht'); [by right|]. by eexists.
Qed.

(** A function that is missing stops the program if the test looks at it. *)
Lemma missing_exits f : f ∈ checked -> find f = 0 -> coroutine_hook_init table_new = None.
Proof.
  intros Hf E. unfold coroutine_hook_init. cbn [coroutine_hook_inited table_new].
  replace (existsb _ checked) with true; [done|]. symmetry. apply existsb_exists. exists f.
  split; [by apply list_elem_of_In|]. by rewrite E.
Qed.
End Init.

(** The test looks at all but four: without [recv], say, the hooks are installed
    and the first [recv] calls a null pointer. *)
Lemma unchecked f : f ∉ checked <-> f ∈ [f_recv; f_recvfrom; f_recvmsg; f_ioctl].
Proof. destruct f; split; intros H; (done || (by vm_compute in H; set_solver) || set_solver). Qed.
Lemma missing_recv_called find : find f_recv = 0 -> Forall (fun f => find f <> 0) checked ->
  hook_entry find f_recv table_new = Some (0, mkTable find true).
Proof.
  intros Hr Hc. unfold hook_entry. change (real table_new f_recv) with 0. cbn [Z.eqb].
  rewrite init_ok; [|by left|done]. cbn. by rewrite Hr.
Qed.

(** ** [__usleep]

    [usec] is a 32-bit unsigned number, and so is the product. *)
Definition usleep_req (usec : Z) : Z * Z := (usec / 1000000, u32 (usec * 1000)).
(** What [nanosleep] accepts. *)
Definition timespec_valid (req : Z * Z) : bool := (0 <=? req.1) && (0 <=? req.2) && (req.2 <=? 999999999).

(** Below a second the request is the time asked for. *)
Lemma usleep_short usec : 0 <= usec < 1000000 ->
  timespec_valid (usleep_req usec) = true /\ (usleep_req usec).1 * 1000000000 + (usleep_req usec).2 = usec * 1000.
Proof.
  intros H. unfold timespec_valid, usleep_req. cbn [fst snd]. rewrite (Z.div_small usec) by lia.
  rewrite u32_small by lia. split; [|lia]. rewrite !andb_true_iff, !Z.leb_le. lia.
Qed.
(** From a second on the nanoseconds still hold the whole time, and [nanosleep]
    refuses them. *)
Lemma usleep_long_refused usec : 1000000 <= usec < 4294967 -> timespec_valid (usleep_req usec) = false.
Proof.
  intros H. unfold timespec_valid, usleep_req. cbn [fst snd]. rewrite u32_small by lia.
  rewrite (proj2 (Z.leb_gt (usec * 1000) _)) by lia. apply andb_false_r.
Qed.
