(* ===== verification/PollFacts.v ===== *)
(** * The life of a poll

    Hook, descriptor context, waiting list and event loop together: a coroutine
    that polls a socket goes through [poll_begin] of [GlibcHook], the switch of
    [IoWait], one of the three ways to be woken (epoll's event loop, the timer,
    a [close]) and [poll_finish]. *)
From S2P Require Import Prelude StdString StdMap SnowFlake IoWait FdContext GlibcHook.

(** ** [IOBlockTriggered] *)

Definition same_but_state (s s' : IoSentry) : Prop :=
  watch_fds_ s' = watch_fds_ s /\ timer_ s' = timer_ s /\ task_ptr_ s' = task_ptr_ s.

Lemma trigger_keeps m iw n s :
  sentries iw !! n = Some s -> exists s', sentries (IOBlockTriggered m iw) !! n = Some s' /\ same_but_state s s' /\
    (m <> n -> s' = s).
Proof.
  intros Hn. unfold IOBlockTriggered, trigger_cas, trigger_erase, switch_state_to_triggered.
  destruct (sentries iw !! m) as [t|] eqn:Em; [|by exists s]. destruct (io_state_ t); cbn.
  - rewrite lookup_insert_eq. destruct (queue_erase m (wait_io_sentries_ iw)); cbn.
    all: destruct (decide (m = n)) as [->|Hne]; [rewrite lookup_insert_eq|rewrite lookup_insert_ne by done; by exists s].
    all: rewrite Hn in Em; injection Em as ->; eexists; split; [reflexivity|]; by split.
  - rewrite insert_id by done. by exists s.
Qed.

Lemma trigger_waits m iw n :
  n ∈ wait_io_sentries_ iw -> m <> n -> n ∈ wait_io_sentries_ (IOBlockTriggered m iw).
Proof.
  intros Hn Hne. unfold IOBlockTriggered, trigger_cas, trigger_erase, switch_state_to_triggered.
  destruct (sentries iw !! m) as [t|] eqn:Em; [|done]. destruct (io_state_ t); cbn; [|done].
  rewrite lookup_insert_eq. destruct (queue_erase m (wait_io_sentries_ iw)) as [q|] eqn:Eq; cbn; [|done].
  destruct (queue_erase_perm m (wait_io_sentries_ iw)) as (q' & Eq' & Hq').
  { destruct (decide (m ∈ wait_io_sentries_ iw)) as [|Hni]; [done|]. apply queue_erase_none in Hni. congruence. }
  rewrite Eq in Eq'. injection Eq' as <-. rewrite Hq' in Hn. set_solver.
Qed.

Lemma trigger_runnable m iw t : t ∈ io_runnable iw -> t ∈ io_runnable (IOBlockTriggered m iw).
Proof.
  intros Ht. unfold IOBlockTriggered, trigger_cas, trigger_erase, switch_state_to_triggered.
  destruct (sentries iw !! m) as [s|] eqn:Em; [|done]. destruct (io_state_ s); cbn; [|done].
  rewrite lookup_insert_eq. destruct (queue_erase m (wait_io_sentries_ iw)) as [q|]; cbn; set_solver.
Qed.

(** A sentry that waits is woken. *)
Lemma trigger_wakes n iw s :
  sentries iw !! n = Some s -> io_state_ s = pending -> n ∈ wait_io_sentries_ iw ->
  task_ptr_ s ∈ io_runnable (IOBlockTriggered n iw).
Proof.
  intros Hn Hp Hw. unfold IOBlockTriggered, trigger_cas, trigger_erase, switch_state_to_triggered.
  rewrite Hn, Hp. cbn. rewrite lookup_insert_eq. destruct (queue_erase_perm _ _ Hw) as (q & -> & _). cbn. set_solver.
Qed.

Lemma fire_keeps triggers : forall iw n s t,
  sentries iw !! n = Some s ->
  (exists s', sentries (fire triggers iw) !! n = Some s' /\ same_but_state s s') /\
  (t ∈ io_runnable iw -> t ∈ io_runnable (fire triggers iw)).
Proof.
  induction triggers as [|[m []] triggers IH]; intros iw n s t Hn; [by split; [exists s|]|].
  unfold fire. cbn [fold_left]. fold (fire triggers (IOBlockTriggered m iw)).
  destruct (trigger_keeps m iw n s Hn) as (s1 & H1 & (E1 & E2 & E3) & _).
  destruct (IH _ _ _ t H1) as [(s2 & H2 & (F1 & F2 & F3)) Hr]. split.
  - exists s2. split; [done|]. unfold same_but_state. split_and!; congruence.
  - intros Ht. by apply Hr, trigger_runnable.
Qed.

Lemma fire_wakes triggers : forall iw n s,
  n ∈ triggers.*1 -> sentries iw !! n = Some s -> io_state_ s = pending -> n ∈ wait_io_sentries_ iw ->
  task_ptr_ s ∈ io_runnable (fire triggers iw).
Proof.
  induction triggers as [|[m []] triggers IH]; intros iw n s Hin Hn Hp Hw; [by apply not_elem_of_nil in Hin|].
  unfold fire. cbn [fold_left]. fold (fire triggers (IOBlockTriggered m iw)).
  destruct (trigger_keeps m iw n s Hn) as (s1 & H1 & (_ & _ & E) & Hne). destruct (decide (m = n)) as [->|Hmn].
  - apply (fire_keeps triggers _ n s1 _ H1). by apply trigger_wakes.
  - rewrite (Hne Hmn) in H1. eapply IH; [|done..|by apply trigger_waits].
    rewrite fmap_cons in Hin. cbn in Hin. apply elem_of_cons in Hin as [?|?]; [congruence|done].
Qed.

Section Poll.
Context {W : Type} `{K : Kernel W} `{KC : !KernelCalls W} {L : KernelLaws}.

Definition with_iow (iw : IoWait) (g : fds (W := W)) : fds (W := W) :=
  mkFds (fd_env g) iw (heap g) (next_ctx g) (fd_deque_ g) (big_fds_ g).

(** Sentry [n] of task [t] waits, with the entries [ws]. *)
Definition parked (n t : nat) (timer : option nat) (ws : list pollfd) (iw : IoWait) : Prop :=
  sentries iw !! n = Some (mkSentry pending ws timer t) /\ n ∈ wait_io_sentries_ iw.

(** Task [t] is in a poll of the entries [ws], among them descriptor [fd] for
    [ev], with sentry [n] and has yielded. *)
Record waiting (fd ev : Z) (n t p : nat) (timer : option nat) (ws : list pollfd) (c : FileDescriptorCtx)
    (asks : gmap nat Z) (g : fds (W := W)) : Prop := {
  wt_known : known fd p c g;
  wt_fd : fd_ c = fd;
  wt_ok : ctx_ok c (fd_env g) asks;
  wt_set : (t, n) ∈ get_set (ChooseSet ev) c;
  wt_parked : parked n t timer ws (fd_iow g);
  wt_epoll : IsEpollCreated (fd_env g) = true }.

(** ** From the call to the switch *)

Lemma put_get_set s l c : get_set s (put_set s l c) = l.
Proof. by destruct s. Qed.
Lemma put_set_frame s l c :
  fd_ (put_set s l c) = fd_ c /\ is_initialize_ (put_set s l c) = is_initialize_ c /\ closed_ (put_set s l c) = closed_ c.
Proof. by destruct s. Qed.

(** What [add_into_reactor] leaves as it is when the thread has its epoll. *)
Lemma add_frame size ev n tk c e c' e' :
  add_into_reactor size ev n tk c e = Some (true, c', e') -> IsEpollCreated e = true ->
  IsEpollCreated e' = true /\ fd_ c' = fd_ c /\ is_initialize_ c' = is_initialize_ c /\ closed_ c' = closed_ c /\
  (tk, n) ∈ get_set (ChooseSet ev) c'.
Proof.
  unfold add_into_reactor. destruct (closed_ c) eqn:Hcl; [done|]. intros Ha He.
  assert (forall c1, (tk, n) ∈ get_set (ChooseSet ev) (put_set (ChooseSet ev) (map_put tk n (get_set (ChooseSet ev) c1)) c1)) as Hin.
  { intros c1. rewrite put_get_set. apply map_find_elem, map_find_put_eq. }
  destruct (has _ (Z.lnot (pending_events_ c))).
  2:{ injection Ha as <- <-. destruct (put_set_frame (ChooseSet ev) (map_put tk n (get_set (ChooseSet ev) c)) c) as (-> & -> & ->).
      by split_and!. }
  assert (GetEpollFd size c e = Some (epoll_fd_ c, c, e) \/
    exists ep pid, GetEpollFd size c e = Some (ep, set_epoll ep pid c, e)) as Hg.
  { unfold GetEpollFd, GetEpollFd_io, CreateEpoll. unfold IsEpollCreated in He. apply andb_true_iff in He as [_ He].
    rewrite He. destruct (_ || _); [right; by eexists _, _|by left]. }
  assert (forall ep m f pe b e1, IsEpollCreated e1 = true -> IsEpollCreated (snd (reactor_ctl ep m f pe b e1)) = true) as Hctl.
  { intros ep m f pe b e1 H1. unfold reactor_ctl. destruct b; [|done].
    pose proof (ctl_pid ep m f (PollEvent2Epoll pe) (world e1)) as Hpid.
    destruct (sys_epoll_ctl ep m f (PollEvent2Epoll pe) (world e1)) as [r w]. cbn in *.
    unfold IsEpollCreated in *. cbn. by rewrite Hpid. }
  assert (exists ep c1, GetEpollFd size c e = Some (ep, c1, e) /\ fd_ c1 = fd_ c /\ is_initialize_ c1 = is_initialize_ c /\
    closed_ c1 = false) as (ep & c1 & Hg1 & F1 & F2 & F3).
  { destruct Hg as [Hg|(ep & pid & Hg)]; eexists _, _; (split; [exact Hg|done]). }
  rewrite Hg1 in Ha. cbn in Ha. set (m := if pending_events_ c1 =? 0 then EPOLL_CTL_ADD else EPOLL_CTL_MOD).
  specialize (Hctl ep m (fd_ c1) (Z.lor (pending_events_ c) (Z.land ev IN_OUT)) (is_socket_ c1) e He). unfold m in Hctl.
  set (ps := Z.lor _ _) in *.
  destruct (pending_events_ c1 =? 0); destruct (reactor_ctl ep _ (fd_ c1) ps (is_socket_ c1) e) as [[err|] e2]; cbn in Hctl;
    try (destruct (err =? ENOENT)); try done; injection Ha as <- <-.
  all: destruct (put_set_frame (ChooseSet ev) (map_put tk n (get_set (ChooseSet ev) (set_pending_events ps c1))) (set_pending_events ps c1))
    as (-> & -> & ->); by split_and!.
Qed.

Lemma known_sentry fd p c n s (g : fds (W := W)) : known fd p c g -> known fd p c (set_sentry n s g).
Proof. by intros []. Qed.

Lemma poll_waits size fd ev r0 n t timer timeout p c asks c' e' (g : fds (W := W)) :
  known fd p c g -> fd_ c = fd -> ctx_ok c (fd_env g) asks -> IsEpollCreated (fd_env g) = true -> timeout <> 0 ->
  add_into_reactor size ev n t c (fd_env g) = Some (true, c', e') ->
  exists g1,
    poll_begin size (Some t) [mkPollfd fd ev r0] timeout (0, [mkPollfd fd ev 0]) n timer g =
      Some (PollWaits [mkPollfd fd ev 0], g1) /\
    waiting fd ev n t p (if 0 <? timeout then Some timer else None) [mkPollfd fd ev 0] c' (asked ev t asks)
      (with_iow (SchedulerSwitch n (fd_iow g1)) g1).
Proof.
  intros Hk Hfd Hok Hep Ht Ha. destruct (add_frame _ _ _ _ _ _ _ _ Ha Hep) as (Hep' & F1 & F2 & F3 & Hin).
  unfold poll_begin. rewrite (proj2 (Z.eqb_neq _ _)) by done. cbn [forallb IoWait.fd].
  rewrite (proj2 (Z.ltb_ge fd 0)) by apply Hk. cbn [andb fst snd negb IoSentry_new watch_fds_ map poll_register].
  change (negb (0 =? 0)) with false. cbv iota. cbn [set_revents IoWait.fd]. rewrite (proj2 (Z.ltb_ge fd 0)) by apply Hk.
  rewrite (known_open _ _ _ _ (known_sentry _ _ _ _ _ _ Hk)). cbn [mbind option_bind fd_env set_sentry events].
  change (events (set_revents 0 _)) with ev. rewrite Ha. cbn. eexists. split; [reflexivity|].
  unfold SchedulerSwitch, is_triggered, with_iow. cbn. rewrite !lookup_insert_eq.
  set (s := if 0 <? timeout then with_io_timer _ _ else _). assert (s = mkSentry pending [mkPollfd fd ev 0] (if 0 <? timeout then Some timer else None) t) as ->.
  { unfold s, set_revents. by destruct (0 <? timeout). }
  cbn. constructor; cbn; try done.
  - constructor; cbn; [apply Hk|apply Hk|apply lookup_insert_eq| |]; rewrite ?F2, ?F3; apply Hk.
  - by rewrite F1.
  - by eapply (add_ok _ _ _ _ _ _ _ true).
  - split; cbn; [rewrite insert_insert_eq; apply lookup_insert_eq|set_solver].
Qed.

(** ** The three ways to be woken *)

(** An event concerns a waiter when it is an error or one it asked for. *)
Definition reaches (pe ev : Z) : bool := is_error pe || has pe (Z.land ev IN_OUT).

Lemma reaches_concerned pe ev x c : reaches pe ev = true -> x ∈ get_set (ChooseSet ev) c -> x ∈ concerned pe c.
Proof.
  unfold reaches, concerned, ChooseSet. intros Hr Hx. destruct (is_error pe) eqn:Ee; cbn in Hr.
  { destruct (Z.land ev IN_OUT =? POLLIN), (Z.land ev IN_OUT =? POLLOUT); cbn in Hx; set_solver. }
  destruct (in_out_land ev) as [E|[E|[E|E]]]; rewrite E in *; cbn in Hx, Hr.
  - unfold has in Hr. by rewrite Z.land_0_r in Hr.
  - rewrite Hr. set_solver.
  - rewrite Hr. destruct (has pe POLLIN); set_solver.
  - assert (has pe POLLIN = true \/ has pe POLLOUT = true) as [->| ->].
    { destruct (no_error_mask pe Ee) as [->|[->|[->| ->]]]; vm_compute in Hr |- *; tauto. }
    + destruct (has pe POLLOUT); set_solver.
    + destruct (has pe POLLIN); set_solver.
Qed.

(** Writing [r] into the entries of descriptor [fd]. *)
Definition mark (fd r : Z) (ws : list pollfd) : list pollfd :=
  map (fun q => if IoWait.fd q =? fd then set_revents r q else q) ws.
Definition cleared (ws : list pollfd) : list pollfd := map (set_revents 0) ws.
(** The number of entries with an answer. *)
Definition answers (ws : list pollfd) : Z := sz (List.filter (fun q => negb (revents q =? 0)) ws).

Lemma mark_twice fd r ws : mark fd r (mark fd r ws) = mark fd r ws.
Proof.
  unfold mark. rewrite List.map_map. apply List.map_ext. intros q. destruct (IoWait.fd q =? fd) eqn:E; cbn; by rewrite E.
Qed.
Lemma cleared_mark fd r ws : cleared (mark fd r ws) = cleared ws.
Proof. unfold cleared, mark. rewrite List.map_map. apply List.map_ext. intros q. by destruct (_ =? _). Qed.

Lemma zip_cleared ws : zip_with (fun p q => set_revents (revents q) p) (cleared ws) ws = ws.
Proof. induction ws as [|[f e r] ws IH]; [done|]. cbn. f_equal. apply IH. Qed.

(** What the call returns once the sentry is woken: its entries, counted. *)
Lemma finish_spec n t timer ws (g : fds (W := W)) s :
  sentries (fd_iow g) !! n = Some s -> same_but_state (mkSentry pending ws timer t) s ->
  exists g', poll_finish n (cleared ws) g = Some (answers ws, ws, timer, g').
Proof.
  intros Hn (E1 & E2 & E3). unfold poll_finish. rewrite Hn. cbn. rewrite E1, E2. cbn.
  rewrite zip_cleared. by eexists.
Qed.

Lemma event_wakes size fd ev n t p timer ws c asks (g : fds (W := W)) epev :
  waiting fd ev n t p timer ws c asks g -> reaches (EpollEvent2Poll epev) ev = true ->
  let ws' := mark fd (EpollEvent2Poll epev) ws in
  exists g1 g2, WaitLoop size [EpReady [(fd, epev)]] g = Some (Some 1, g1) /\ t ∈ io_runnable (fd_iow g1) /\
    poll_finish n (cleared ws) g1 = Some (answers ws', ws', timer, g2).
Proof.
  intros [Hk Hfd Hok Hset [Hs Hq] Hep] Hr ws'. set (pe := EpollEvent2Poll epev) in *. cbn [WaitLoop]. rewrite Hep. cbn [negb].
  cbn [collect_triggers]. rewrite (known_get _ _ _ _ Hk). cbn [mbind option_bind]. rewrite (k_ctx _ _ _ _ Hk).
  cbn [mbind option_bind]. fold pe.
  destruct (trigger_ok size pe c (sentries (fd_iow g)) [] (fd_env g) asks Hok) as (c' & ss & out & e' & -> & _ & Hrest).
  destruct (Hrest (k_open _ _ _ _ Hk)) as [Hl _]. apply trigger_list_spec in Hl as [Hss Hout]. cbn.
  assert (n ∈ (concerned pe c).*2) as Hn.
  { apply list_elem_of_fmap. exists (t, n). split; [done|]. by eapply reaches_concerned. }
  assert (ss !! n = Some (mkSentry pending ws' timer t)) as Hssn.
  { rewrite Hss, decide_True, Hs by done. cbn. unfold report, with_watch. cbn. by rewrite Hfd. }
  set (iw := mkIoWait ss _ _).
  destruct (fire_keeps out iw n _ t Hssn) as [(s' & Hs' & Hsame) _].
  assert (t ∈ io_runnable (fire out iw)) as Hrun.
  { apply (fire_wakes out iw n _ (proj2 (Hout n) (or_intror (conj Hn (ex_intro _ _ Hs)))) Hssn eq_refl Hq). }
  eexists. destruct (finish_spec n t timer ws' (mkFds e' (fire out iw) (<[p:=c']> (heap g)) (next_ctx g) (fd_deque_ g) (big_fds_ g))
    s' Hs' Hsame) as [g2 Hg2]. unfold ws' in Hg2. rewrite cleared_mark in Hg2.
  exists g2. split; [reflexivity|]. split; [exact Hrun|exact Hg2].
Qed.

Lemma timer_wakes n t timer ws (g : fds (W := W)) : parked n t timer ws (fd_iow g) ->
  let g1 := with_iow (IOBlockTriggered n (fd_iow g)) g in
  t ∈ io_runnable (fd_iow g1) /\
  exists g2, poll_finish n (cleared ws) g1 = Some (answers ws, ws, timer, g2).
Proof.
  intros [Hs Hq]. split; [by apply (trigger_wakes n _ _ Hs)|].
  destruct (trigger_keeps n _ _ _ Hs) as (s' & Hs' & Hsame & _). by apply (finish_spec n t timer ws _ s').
Qed.

(** A sentry that was reached while its descriptor [fd] is closed. *)
Definition told (fd : Z) (n t : nat) (timer : option nat) (ws : list pollfd) (iw : IoWait) : Prop :=
  exists s, sentries iw !! n = Some s /\ same_but_state (mkSentry pending (mark fd POLLNVAL ws) timer t) s /\
    t ∈ io_runnable iw.

Lemma close_tasks_told fd n t timer ws tasks : forall iw,
  (told fd n t timer ws iw -> told fd n t timer ws (close_tasks fd tasks iw)) /\
  (parked n t timer ws iw ->
     if decide (n ∈ tasks.*2) then told fd n t timer ws (close_tasks fd tasks iw)
     else parked n t timer ws (close_tasks fd tasks iw)).
Proof.
  induction tasks as [|[tk m] tasks IH]; intros iw; [by split; [|case_decide; [set_solver|]]|].
  cbn [close_tasks]. rewrite fmap_cons. cbn [snd]. destruct (sentries iw !! m) as [s|] eqn:Em.
  2:{ split; [apply IH|]. intros Hu. assert (n <> m) as Hne by (intros ->; by destruct Hu; congruence).
      apply (proj2 (IH iw)) in Hu. repeat case_decide; set_solver. }
  set (iw1 := mkIoWait _ _ _). split.
  - intros (s0 & Hs0 & (E1 & E2 & E3) & Hr). apply (proj1 (IH _)).
    assert (exists s1, sentries iw1 !! n = Some s1 /\ same_but_state (mkSentry pending (mark fd POLLNVAL ws) timer t) s1)
      as (s1 & Hs1 & (F1 & F2 & F3)).
    { unfold iw1. cbn. destruct (decide (m = n)) as [->|Hne]; [|exists s0; by rewrite lookup_insert_ne].
      rewrite Hs0 in Em. injection Em as <-. eexists. rewrite lookup_insert_eq. split; [reflexivity|].
      unfold same_but_state in *. cbn in *. rewrite E1. split; [apply mark_twice|done]. }
    destruct (trigger_keeps m iw1 n s1 Hs1) as (s2 & Hs2 & (G1 & G2 & G3) & _).
    exists s2. split; [done|]. split; [unfold same_but_state; split_and!; congruence|]. by apply trigger_runnable.
  - intros [Hs Hq]. destruct (decide (m = n)) as [->|Hne].
    + rewrite decide_True by set_solver. apply (proj1 (IH _)). rewrite Hs in Em. injection Em as <-.
      assert (sentries iw1 !! n = Some (mkSentry pending (mark fd POLLNVAL ws) timer t)) as H1.
      { unfold iw1. cbn. by rewrite lookup_insert_eq. }
      destruct (trigger_keeps n iw1 n _ H1) as (s2 & Hs2 & Hsame & _). exists s2. split; [done|]. split; [done|].
      by apply (trigger_wakes n iw1 _ H1).
    + assert (parked n t timer ws (IOBlockTriggered m iw1)) as Hu.
      { assert (sentries iw1 !! n = Some (mkSentry pending ws timer t)) as H1
          by (unfold iw1; cbn; by rewrite lookup_insert_ne).
        destruct (trigger_keeps m iw1 n _ H1) as (s2 & Hs2 & _ & Heq). rewrite (Heq Hne) in Hs2.
        split; [done|]. by apply trigger_waits. }
      apply (proj2 (IH _)) in Hu. repeat case_decide; set_solver.
Qed.

Lemma close_wakes fd ev n t p timer ws c asks (g : fds (W := W)) :
  waiting fd ev n t p timer ws c asks g ->
  let ws' := mark fd POLLNVAL ws in
  exists ret g1 g2, close fd g = Some (ret, g1) /\ t ∈ io_runnable (fd_iow g1) /\
    poll_finish n (cleared ws) g1 = Some (answers ws', ws', timer, g2).
Proof.
  intros [Hk Hfd Hok Hset Hp Hep] ws'. unfold close, mgr_close. rewrite (proj2 (Z.ltb_ge fd 0)) by apply Hk.
  rewrite (get_pair_id _ p) by apply Hk. rewrite (k_ptr _ _ _ _ Hk), (k_ctx _ _ _ _ Hk). cbn [mbind option_bind].
  unfold ctx_close. rewrite (k_open _ _ _ _ Hk). destruct (sys_close (fd_ c) (world (fd_env g))) as [ret w]. rewrite Hfd.
  set (iw1 := close_tasks fd (i_tasks_ c) (fd_iow g)). set (iw2 := close_tasks fd (o_tasks_ c) iw1).
  set (iw3 := close_tasks fd (io_tasks_ c) iw2).
  assert (told fd n t timer ws iw3) as (s & Hs3 & Hsame & Hr).
  { assert (forall tasks iw, told fd n t timer ws iw -> told fd n t timer ws (close_tasks fd tasks iw)) as Hkeep
      by (intros; by apply close_tasks_told).
    assert (forall tasks iw, parked n t timer ws iw -> told fd n t timer ws (close_tasks fd tasks iw) \/
      n ∉ tasks.*2 /\ parked n t timer ws (close_tasks fd tasks iw)) as Hstep.
    { intros tasks iw Hu. apply (proj2 (close_tasks_told fd n t timer ws tasks iw)) in Hu. case_decide; auto. }
    assert (n ∈ (i_tasks_ c).*2 \/ n ∈ (o_tasks_ c).*2 \/ n ∈ (io_tasks_ c).*2) as Hin.
    { assert (n ∈ (get_set (ChooseSet ev) c).*2) as H by (apply list_elem_of_fmap; by exists (t, n)).
      destruct (ChooseSet ev); auto. }
    destruct (Hstep (i_tasks_ c) (fd_iow g)) as [H1|[N1 H1]]; [done|by apply Hkeep, Hkeep|].
    destruct (Hstep (o_tasks_ c) _ H1) as [H2|[N2 H2]]; [by apply Hkeep|].
    destruct (Hstep (io_tasks_ c) _ H2) as [H3|[N3 H3]]; [done|]. tauto. }
  set (g1 := set_ptr fd None _). assert (fd_iow g1 = iw3) as Hiw by (unfold g1, set_ptr; by destruct (is_big fd)).
  rewrite <- Hiw in Hs3, Hr. destruct (finish_spec n t timer ws' g1 s Hs3 Hsame) as [g2 Hg2].
  unfold ws' in Hg2. rewrite cleared_mark in Hg2. by exists ret, g1, g2.
Qed.

(** A coroutine that polls a socket comes back with the right answer.  When
    nothing is ready at once, the call stores its sentry with the descriptor and
    yields.  From then on: when epoll reports the events it asked for, or an
    error, its task is made runnable and the call returns 1 with those events;
    when its timer expires first, the task is made runnable and the call returns
    0; when another coroutine closes the descriptor, the task is made runnable
    and the call returns 1 with [POLLNVAL].  The timer given back is the one that
    was set, and one was set exactly when the time-out is positive. *)
Theorem poll_outcomes size fd ev r0 n t timer timeout p c asks c' e' (g : fds (W := W)) :
  known fd p c g -> fd_ c = fd -> ctx_ok c (fd_env g) asks -> IsEpollCreated (fd_env g) = true -> timeout <> 0 ->
  add_into_reactor size ev n t c (fd_env g) = Some (true, c', e') ->
  let tm := if 0 <? timeout then Some timer else None in
  exists g1,
    poll_begin size (Some t) [mkPollfd fd ev r0] timeout (0, [mkPollfd fd ev 0]) n timer g =
      Some (PollWaits [mkPollfd fd ev 0], g1) /\
    let g2 := with_iow (SchedulerSwitch n (fd_iow g1)) g1 in
    (forall epev, reaches (EpollEvent2Poll epev) ev = true -> EpollEvent2Poll epev <> 0 ->
       exists g3 g4, WaitLoop size [EpReady [(fd, epev)]] g2 = Some (Some 1, g3) /\ t ∈ io_runnable (fd_iow g3) /\
         poll_finish n [mkPollfd fd ev 0] g3 = Some (1, [mkPollfd fd ev (EpollEvent2Poll epev)], tm, g4)) /\
    (let g3 := with_iow (IOBlockTriggered n (fd_iow g2)) g2 in
       t ∈ io_runnable (fd_iow g3) /\
       exists g4, poll_finish n [mkPollfd fd ev 0] g3 = Some (0, [mkPollfd fd ev 0], tm, g4)) /\
    (exists ret g3 g4, close fd g2 = Some (ret, g3) /\ t ∈ io_runnable (fd_iow g3) /\
       poll_finish n [mkPollfd fd ev 0] g3 = Some (1, [mkPollfd fd ev POLLNVAL], tm, g4)).
Proof.
  intros Hk Hfd Hok Hep Ht Ha tm.
  destruct (poll_waits size fd ev r0 n t timer timeout p c asks c' e' g Hk Hfd Hok Hep Ht Ha) as (g1 & Hb & Hw).
  assert (forall r, r <> 0 -> mark fd r [mkPollfd fd ev 0] = [mkPollfd fd ev r] /\ answers [mkPollfd fd ev r] = 1) as Hm.
  { intros r Hr. unfold mark, answers. cbn. rewrite Z.eqb_refl, (proj2 (Z.eqb_neq _ _) Hr). done. }
  exists g1. split; [exact Hb|]. split; [|split].
  - intros epev Hr Hnz. destruct (event_wakes size _ _ _ _ _ _ _ _ _ _ epev Hw Hr) as (g3 & g4 & H1 & H2 & H3).
    destruct (Hm _ Hnz) as [E1 E2]. rewrite E1, E2 in H3. by exists g3, g4.
  - apply (timer_wakes n t tm [mkPollfd fd ev 0]). apply Hw.
  - destruct (close_wakes _ _ _ _ _ _ _ _ _ _ Hw) as (ret & g3 & g4 & H1 & H2 & H3).
    destruct (Hm POLLNVAL) as [E1 E2]; [done|]. rewrite E1, E2 in H3. by exists ret, g3, g4.
Qed.

(** ** Behaviour that was not intended *)

(** Polling a descriptor that epoll does not take, such as a file: the call
    returns at once with the number of entries and shows no event for them. *)
Lemma poll_file_silent size fd ev n t timer timeout p c (g : fds (W := W)) c' e' :
  known fd p c g -> timeout <> 0 -> add_into_reactor size ev n t c (fd_env g) = Some (false, c', e') ->
  exists g', poll_begin size (Some t) [mkPollfd fd ev 0] timeout (0, [mkPollfd fd ev 0]) n timer g =
    Some (PollReturns 1 [mkPollfd fd ev 0], g').
Proof.
  intros Hk Ht Ha. unfold poll_begin. rewrite (proj2 (Z.eqb_neq _ _)) by done. cbn [forallb IoWait.fd].
  rewrite (proj2 (Z.ltb_ge fd 0)) by apply Hk. cbn [andb fst snd negb IoSentry_new watch_fds_ map poll_register].
  change (negb (0 =? 0)) with false. cbv iota. cbn [set_revents IoWait.fd]. rewrite (proj2 (Z.ltb_ge fd 0)) by apply Hk.
  rewrite (known_open _ _ _ _ (known_sentry _ _ _ _ _ _ Hk)). cbn [mbind option_bind fd_env set_sentry events].
  change (events (set_revents 0 _)) with ev. rewrite Ha. cbn. by eexists.
Qed.

(** With only negative descriptors and no time-out the call ought to wait
    without end; it yields once and returns 0. *)
Lemma poll_negative_returns size t pfds polled n timer (g : fds (W := W)) :
  forallb (fun p => IoWait.fd p <? 0) pfds = true ->
  poll_begin size (Some t) pfds (-1) polled n timer g = Some (PollSleeps (-1) pfds, g) /\ SleepSwitch (-1) = Yields.
Proof. intros H. unfold poll_begin. cbn. by rewrite H. Qed.
End Poll.

(** ** Examples with a small kernel *)
Import DemoKernel.

(** [dup2] and the like on the small kernel. *)
Definition toy_copy (old new : Z) (w : toy) : Z * toy :=
  match toy_open w !! old with
  | Some x => (new, mkToy (<[new := x]> (toy_open w)) (filter (fun '((_, f), _) => f <> new) (toy_reg w)) (toy_next w))
  | None => (-1, w)
  end.
#[export] Instance toy_calls : KernelCalls toy := {|
  sys_fcntl fd cmd arg w := match cmd, arg with F_DUPFD, Some a => toy_copy fd a w | _, _ => (0, w) end;
  sys_ioctl _ _ _ w := (0, w);
  sys_setsockopt _ _ _ _ w := (0, w);
  sys_dup fd w := toy_copy fd 6 w;
  sys_dup2 := toy_copy;
  sys_dup3 old new _ := toy_copy old new |}.
#[export] Instance toy_hook_laws : HookLaws (W := toy).
Proof.
  constructor.
  - intros fd fl w w'. cbn. destruct (toy_open w !! fd) as [[b f]|]; [|done]. intros [= <-]. cbn. by rewrite lookup_insert_eq.
  - intros fd fl w r w'. cbn. destruct (toy_open w !! fd) as [[b f]|] eqn:E; intros [= <- <-] Hr; [by destruct Hr|by rewrite E].
Defined.

(** The socket 5, known to the manager, in a thread that has its epoll. *)
Definition demo_poll : fds (W := toy) :=
  match get_fd_ctx 5 (mkFds (mkEnv world0 2 1 1024) IoWait_new ∅ 0 [] ∅) with
  | Some (_, g) => g
  | None => fds0
  end.
Definition demo_poll_ctx : FileDescriptorCtx := mkCtx true true true false false 5 0 (mkTv 0 0) (mkTv 0 0) [] [] [] (-1) (-1).

Lemma demo_poll_known : known 5 0 demo_poll_ctx demo_poll.
Proof. by constructor. Qed.

Lemma demo_poll_ok : ctx_ok demo_poll_ctx (fd_env demo_poll) ∅.
Proof.
  constructor; [constructor|split_and!|]; try done.
  - by left.
  - by left.
  - intros ep. rewrite decide_False by naive_solver. vm_compute. done.
  - by left.
  - by left.
  - intros tk n H. by apply not_elem_of_nil in H.
Qed.


Lemma nonblock_hidden_witness :
  exists p c g1 rs g2,
    open_ctx 5 fds0 = Some (Some (p, c), g1) /\
    mode_calls 5 [GetFl; SetFl 2050; GetFl; IoctlNbio 100 0; GetFl] g1 = Some (rs, g2) /\
    mode_agrees [GetFl; SetFl 2050; GetFl; IoctlNbio 100 0; GetFl] rs false /\ hidden 5 p false g2.
Proof.
  apply (nonblock_hidden 5 [GetFl; SetFl 2050; GetFl; IoctlNbio 100 0; GetFl] fds0).
  split; [lia|]. split; [reflexivity|]. split; [reflexivity|]. right. reflexivity.
Defined.

Lemma poll_outcomes_witness :
  exists g1, poll_begin 1024 (Some 7%nat) [mkPollfd 5 POLLIN 0] 100 (0, [mkPollfd 5 POLLIN 0]) 1 3 demo_poll =
    Some (PollWaits [mkPollfd 5 POLLIN 0], g1) /\
    exists g3 g4, WaitLoop 1024 [EpReady [(5, EPOLLIN)]] (with_iow (SchedulerSwitch 1 (fd_iow g1)) g1) = Some (Some 1, g3) /\
      7%nat ∈ io_runnable (fd_iow g3) /\
      poll_finish 1 [mkPollfd 5 POLLIN 0] g3 = Some (1, [mkPollfd 5 POLLIN POLLIN], Some 3%nat, g4).
Proof.
  destruct (poll_outcomes 1024 5 POLLIN 0 1 7 3 100 0 demo_poll_ctx ∅
    (fst (default (demo_poll_ctx, fd_env demo_poll) ((fun '(_, c, e) => (c, e)) <$>
       add_into_reactor 1024 POLLIN 1 7 demo_poll_ctx (fd_env demo_poll))))
    (snd (default (demo_poll_ctx, fd_env demo_poll) ((fun '(_, c, e) => (c, e)) <$>
       add_into_reactor 1024 POLLIN 1 7 demo_poll_ctx (fd_env demo_poll)))) demo_poll demo_poll_known eq_refl demo_poll_ok)
    as (g1 & H1 & H2 & _); [reflexivity|lia|vm_compute; reflexivity|].
  exists g1. split; [exact H1|]. apply (H2 EPOLLIN); [reflexivity|vm_compute; lia].
Defined.

Lemma dup2_shares_witness :
  exists g', dup2 5 6 demo_poll = Some (6, g') /\ known 5 0 demo_poll_ctx g' /\ known 6 0 demo_poll_ctx g'.
Proof.
  destruct (dup2_shares 5 6 0 demo_poll_ctx 6 (snd (sys_dup2 5 6 (world (fd_env demo_poll)))) demo_poll demo_poll_known)
    as (g' & H1 & H2 & H3 & _); [lia|lia|vm_compute; discriminate|intros q Hq; vm_compute in Hq; discriminate|vm_compute; reflexivity|lia|].
  exists g'. split; [exact H1|]. split; [exact H2|exact H3].
Defined.

(** A poll through a copy of a descriptor: the event of the socket wakes the
    task, but it is recorded for the original's number, so that the call
    returns 0 as if it had timed out. *)
Lemma dup_poll_silent :
  exists g1 g2 g3 g4,
    dup2 5 6 demo_poll = Some (6, g1) /\
    poll_begin 1024 (Some 7%nat) [mkPollfd 6 POLLIN 0] (-1) (0, [mkPollfd 6 POLLIN 0]) 1 3 g1 =
      Some (PollWaits [mkPollfd 6 POLLIN 0], g2) /\
    WaitLoop 1024 [EpReady [(5, EPOLLIN)]] (with_iow (SchedulerSwitch 1 (fd_iow g2)) g2) = Some (Some 1, g3) /\
    io_runnable (fd_iow g3) = [7%nat] /\
    poll_finish 1 [mkPollfd 6 POLLIN 0] g3 = Some (0, [mkPollfd 6 POLLIN 0], None, g4).
Proof. eexists _, _, _, _. repeat (split; [vm_compute; reflexivity|]). vm_compute. reflexivity. Qed.

(** Repeating a [dup2] closes the shared context, so that both descriptors fail
    with [EBADF] afterwards. *)
Lemma dup2_again_breaks :
  exists g1 g2 g3,
    dup2 5 6 demo_poll = Some (6, g1) /\ dup2 5 6 g1 = Some (6, g2) /\
    hooked c_read (Some 7%nat) 5 [(12, 0)] [] [] g2 = Some (Some (-1, EBADF), [], g3) /\
    is_Some (toy_open (world (fd_env g2)) !! 5).
Proof. eexists _, _, _. repeat (split; [vm_compute; reflexivity|]). by eexists. Qed.
