(* ===== verification/PollMany.v ===== *)
(** * A poll of several descriptors

    The whole of [poll] in [linux_glibc_hook.cpp] for any list of entries: the
    loop that registers the sentry with every descriptor's context, the batch of
    events that [epoll_wait] returns, the timer, and a close of one of them. *)
From S2P Require Import Prelude StdString StdMap SnowFlake IoWait FdContext GlibcHook PollFacts.

Section PollMany.
Context {W : Type} `{K : Kernel W} `{KC : !KernelCalls W} {L : KernelLaws}.

(** ** What one descriptor's operations leave alone *)

(** From [e] to [e'] only the registrations of [fd] changed. *)
Definition elsewhere (fd : Z) (e e' : env (W := W)) : Prop :=
  exists w, e' = set_world w e /\ sys_getpid w = sys_getpid (world e) /\
    forall ep fd', fd' <> fd -> registered w ep fd' = registered (world e) ep fd'.

Lemma elsewhere_refl fd e : elsewhere fd e e.
Proof. exists (world e). by rewrite set_world_id. Qed.

Lemma elsewhere_created fd e e' : elsewhere fd e e' -> IsEpollCreated e' = IsEpollCreated e.
Proof. intros (w & -> & Hp & _). unfold IsEpollCreated. cbn. by rewrite Hp. Qed.

Lemma elsewhere_ok fd e e' c asks : elsewhere fd e e' -> fd_ c <> fd -> ctx_ok c e asks -> ctx_ok c e' asks.
Proof.
  intros (w & -> & Hp & Hr) Hne [[He Hf Hreg Hm Hs Hop] Hc Hcl]. constructor; [|done|done]. constructor; cbn; try done.
  - unfold env_ok in *. cbn. by rewrite Hp.
  - by rewrite Hp.
  - intros ep Ho. rewrite Hr by done. by apply Hreg.
Qed.

Lemma ctl_elsewhere ep m fd pe b e : elsewhere fd e (snd (reactor_ctl ep m fd pe b e)).
Proof.
  unfold reactor_ctl. destruct b; [|apply elsewhere_refl].
  pose proof (ctl_pid ep m fd (PollEvent2Epoll pe) (world e)) as Hp.
  pose proof (ctl_other ep m fd (PollEvent2Epoll pe) (world e)) as Ho.
  destruct (sys_epoll_ctl _ _ _ _ _) as [r w]. cbn in *. exists w. split; [done|]. split; [done|].
  intros ep' fd' Hne. apply Ho. congruence.
Qed.

(** The kernel takes the descriptor into an epoll set. *)
Definition accepts (fd : Z) : Prop :=
  forall ep ev w, registered w ep fd = None -> fst (sys_epoll_ctl ep EPOLL_CTL_ADD fd ev w) = None.

(** What registering sentry [n] of task [t] leaves of a context. *)
Definition grows (t n : nat) (c c' : FileDescriptorCtx) : Prop :=
  fd_ c' = fd_ c /\ is_socket_ c' = is_socket_ c /\ is_initialize_ c' = is_initialize_ c /\ closed_ c' = closed_ c /\
  forall s, (t, n) ∈ get_set s c -> (t, n) ∈ get_set s c'.

Lemma store_grows t n s c c1 : grows t n c c1 -> grows t n c (put_set s (map_put t n (get_set s c1)) c1).
Proof.
  intros (F1 & F2 & F3 & F4 & F5). unfold grows. destruct (put_set_frame s (map_put t n (get_set s c1)) c1) as (-> & -> & ->).
  split_and!; try done; [by destruct s|]. intros s' Hs. apply F5 in Hs.
  assert ((t, n) ∈ map_put t n (get_set s c1)) as Hin by apply map_find_elem, map_find_put_eq. by destruct s, s'.
Qed.

Lemma get_epoll_created size c (e : env (W := W)) : IsEpollCreated e = true ->
  exists ep c1, GetEpollFd size c e = Some (ep, c1, e) /\ pending_events_ c1 = pending_events_ c /\ forall t n, grows t n c c1.
Proof.
  intros He. unfold IsEpollCreated in He. apply andb_true_iff in He as [_ He].
  unfold GetEpollFd, GetEpollFd_io, CreateEpoll. rewrite He. destruct (_ || _); eexists _, _; (split; [reflexivity|]); (split; [done|]);
    intros t n; split_and!; try done; by intros [].
Qed.

(** [add_into_reactor] in a thread that has its epoll: it returns, concerns only
    its descriptor, and refuses only what epoll does not take. *)
Lemma add_total size ev n tk c e asks : ctx_ok c e asks -> IsEpollCreated e = true ->
  exists ok c' e', add_into_reactor size ev n tk c e = Some (ok, c', e') /\ elsewhere (fd_ c) e e' /\ grows tk n c c' /\
    (closed_ c = false -> is_socket_ c = true -> accepts (fd_ c) -> ok = true).
Proof.
  intros Hok He. destruct (get_epoll_created size c e He) as (ep & c1 & Hg & F3 & Hgr).
  destruct (Hgr tk n) as (F1 & F2 & _ & F4 & _). pose proof (store_grows tk n (ChooseSet ev) c) as Hst.
  destruct (add_into_reactor size ev n tk c e) as [[[ok c'] e']|] eqn:Ea.
  2:{ exfalso. eapply add_returns; [exact Hok| |exact Ea]. by rewrite Hg. }
  exists ok, c', e'. split; [done|]. revert Ea. unfold add_into_reactor. destruct (closed_ c) eqn:Hcl.
  { intros [= <- <- <-]. split; [apply elsewhere_refl|]. by split_and!. }
  destruct (has _ _).
  2:{ intros [= <- <- <-]. split; [apply elsewhere_refl|]. split; [|done]. apply Hst. by split_and!. }
  destruct (GetEpollFd_ok _ _ _ _ _ _ (c_reg _ _ _ Hok) Hg) as (Hreg & _).
  rewrite Hg. cbn [mbind option_bind]. rewrite F1, F3. set (ps := Z.lor _ _). specialize (Hst (set_pending_events ps c1) (Hgr tk n)).
  destruct (pending_events_ c =? 0) eqn:E0.
  - pose proof (ctl_elsewhere ep EPOLL_CTL_ADD (fd_ c) ps (is_socket_ c1) e) as Hel.
    destruct (reactor_ctl ep EPOLL_CTL_ADD (fd_ c) ps (is_socket_ c1) e) as [[err|] e2] eqn:Ec; intros [= <- <- <-].
    2:{ by split. }
    split; [done|]. split; [apply Hgr|]. intros _ Hs Hacc. exfalso. zbool. rewrite F2, Hs in Ec. unfold reactor_ctl in Ec.
    pose proof (r_reg _ _ Hreg ep ltac:(by rewrite F4)) as Hr. rewrite decide_False, F1 in Hr by (rewrite F3; naive_solver).
    specialize (Hacc ep (PollEvent2Epoll ps) _ Hr). destruct (sys_epoll_ctl _ _ _ _ _) as [r w]. cbn in Hacc. subst r. done.
  - pose proof (ctl_elsewhere ep EPOLL_CTL_MOD (fd_ c) ps (is_socket_ c1) e) as Hel.
    destruct (reactor_ctl ep EPOLL_CTL_MOD (fd_ c) ps (is_socket_ c1) e) as [[err|] e2] eqn:Ec; cbn in Hel.
    2:{ intros [= <- <- <-]. by split. }
    destruct (err =? ENOENT); [done|]. intros [= <- <- <-]. split; [done|]. split; [apply Hgr|]. intros _ Hs Hacc. exfalso.
    zbool. pose proof (r_reg _ _ Hreg (epoll_fd_ c1) ltac:(by rewrite F4)) as Hr. rewrite decide_True, F1 in Hr by (rewrite F3; naive_solver).
    assert (ep = epoll_fd_ c1) as Hep.
    { pose proof (GetEpollFd_pending size c e (c_reg _ _ _ Hok) ltac:(lia)) as Hg'. rewrite Hg in Hg'. by injection Hg' as -> ->. }
    unfold reactor_ctl in Ec. rewrite F2, Hs, Hep in Ec. destruct (ctl_mod _ _ (PollEvent2Epoll ps) _ _ Hr) as (w' & Hc & _).
    rewrite Hc in Ec. done.
Qed.

Lemma trigger_elsewhere size pe c ss out e asks c' ss' out' e' :
  ctx_ok c e asks -> reactor_trigger size pe c ss out e = Some (c', ss', out', e') -> elsewhere (fd_ c) e e'.
Proof.
  intros Hok. destruct (closed_ c) eqn:Hcl.
  { unfold reactor_trigger. rewrite Hcl. intros [= <- <- <- <-]. apply elsewhere_refl. }
  rewrite reactor_trigger_eq by done. destruct (trigger_task_list _ _ _ ss out) as [ss1 out1].
  pose proof (c_reg _ _ _ (without_ok pe c e asks Hok)) as Hreg. unfold del_events. set (p := Z.land _ _).
  destruct (p =? _) eqn:E; zbool.
  { intros [= <- <- <- <-]. apply elsewhere_refl. }
  rewrite GetEpollFd_pending; [|done|].
  2:{ intros E0. apply E. unfold p. rewrite E0. apply Z.land_0_l. }
  cbn [mbind option_bind]. change (fd_ (without pe c)) with (fd_ c).
  pose proof (fun m pe' => ctl_elsewhere (epoll_fd_ (without pe c)) m (fd_ c) pe' (is_socket_ (without pe c)) e) as Hel.
  destruct (p =? 0); [specialize (Hel EPOLL_CTL_DEL 0)|specialize (Hel EPOLL_CTL_MOD p)];
    destruct (reactor_ctl _ _ _ _ _ e) as [r e2]; intros [= <- <- <- <-]; exact Hel.
Qed.

(** ** Contexts of several descriptors *)

(** The manager has an open context of [fd] of which [P] holds. *)
Definition holds (fd : Z) (P : FileDescriptorCtx -> Prop) (g : fds (W := W)) : Prop :=
  exists p c asks, known fd p c g /\ fd_ c = fd /\ ctx_ok c (fd_env g) asks /\ P c.

Lemma known_same fd p c p' c' (g : fds (W := W)) : known fd p c g -> known fd p' c' g -> p = p' /\ c = c'.
Proof. intros [_ H1 H2 _ _] [_ H3 H4 _ _]. split; congruence. Qed.

(** A change of one descriptor's context leaves the others as they are. *)
Lemma holds_frame fd P p c c' fd0 e iw (g : fds (W := W)) :
  holds fd P g -> known fd0 p c g -> fd_ c = fd0 -> fd <> fd0 -> elsewhere fd0 (fd_env g) e -> holds fd P (set_ctx p c' e iw g).
Proof.
  intros (p1 & c1 & asks & [K1 K2 K3 K4 K5] & Hfd & Hok & HP) Hk Hc Hne He. exists p1, c1, asks. split; [|split_and!; try done].
  - constructor; try done. cbn. rewrite lookup_insert_ne; [done|]. intros ->. rewrite (k_ctx _ _ _ _ Hk) in K3. congruence.
  - cbn. eapply elsewhere_ok; [done| |done]. by rewrite Hfd.
Qed.

(** ** The loop that registers *)

Definition in_set (t n : nat) (ev : Z) (c : FileDescriptorCtx) : Prop := (t, n) ∈ get_set (ChooseSet ev) c.

(** What stays true of a context while sentry [n] of task [t] is registered. *)
Definition stable (t n : nat) (P : FileDescriptorCtx -> Prop) : Prop := forall c c', grows t n c c' -> P c -> P c'.
Lemma in_set_stable t n ev : stable t n (in_set t n ev).
Proof. intros c c' (_ & _ & _ & _ & H). apply H. Qed.
Lemma socket_stable t n : stable t n (fun c => is_socket_ c = true).
Proof. intros c c' (_ & -> & _). done. Qed.

Definition watched_by (t n : nat) (q : pollfd) (g : fds (W := W)) : Prop := holds (IoWait.fd q) (in_set t n (events q)) g.

(** What became of an entry: skipped, watched, or refused. *)
Inductive entered (t n : nat) (g g' : fds (W := W)) (q : pollfd) : pollfd -> Prop :=
| en_negative : IoWait.fd q < 0 -> entered t n g g' q q
| en_watched : 0 <= IoWait.fd q -> watched_by t n q g' -> entered t n g g' q q
| en_refused : 0 <= IoWait.fd q -> ~ (accepts (IoWait.fd q) /\ holds (IoWait.fd q) (fun c => is_socket_ c = true) g) ->
    entered t n g g' q (set_revents POLLNVAL q).

(** An entry that waits for events. *)
Definition is_watched (q : pollfd) : bool := (0 <=? IoWait.fd q) && (revents q =? 0).

Lemma entered_mono t n g0 g g' g1 q q' :
  (forall fd, holds fd (fun c => is_socket_ c = true) g0 -> holds fd (fun c => is_socket_ c = true) g) ->
  (forall fd ev, holds fd (in_set t n ev) g' -> holds fd (in_set t n ev) g1) ->
  entered t n g g' q q' -> entered t n g0 g1 q q'.
Proof.
  intros H0 H1 [Hq|Hq Hw|Hq Hr]; [by apply en_negative|by apply en_watched; [|apply H1]|]. apply en_refused; [done|].
  intros [Ha Hh]. apply Hr. split; [done|]. by apply H0.
Qed.

(** The first turn of the loop for a descriptor with a context. *)
Lemma register_one size n t q (g : fds (W := W)) :
  0 <= IoWait.fd q -> holds (IoWait.fd q) (fun _ => True) g -> IsEpollCreated (fd_env g) = true ->
  exists (ok : bool) g1,
    (forall rest, poll_register size n t (q :: rest) g =
       '(rest, added, g) ← poll_register size n t rest g1;
       Some (if ok then q :: rest else set_revents POLLNVAL q :: rest, ok || added, g)) /\
    fd_iow g1 = fd_iow g /\ IsEpollCreated (fd_env g1) = true /\
    (forall fd P, stable t n P -> holds fd P g -> holds fd P g1) /\
    (if ok then watched_by t n q g1
     else ~ (accepts (IoWait.fd q) /\ holds (IoWait.fd q) (fun c => is_socket_ c = true) g)).
Proof.
  intros Hq (p & c & asks & Hk & Hfd & Hok & _) He.
  destruct (add_total size (events q) n t c (fd_env g) asks Hok He) as (ok & c' & e' & Ha & Hel & Hgr & Hacc).
  pose proof Hgr as (F1 & _ & F2 & F3 & _). pose proof (add_ok _ _ _ _ _ _ _ _ _ _ Hok Ha) as Hok'.
  assert (known (IoWait.fd q) p c' (set_ctx p c' e' (fd_iow g) g)) as Hk'.
  { apply (known_update _ _ _ _ _ _ _ Hk); [rewrite F2|rewrite F3]; apply Hk. }
  exists ok, (set_ctx p c' e' (fd_iow g) g). split_and!.
  - intros rest. cbn [poll_register]. rewrite (proj2 (Z.ltb_ge _ 0)), (known_open _ _ _ _ Hk) by done.
    cbn [mbind option_bind]. rewrite Ha. by destruct ok.
  - done.
  - cbn. by rewrite (elsewhere_created _ _ _ Hel).
  - intros fd P HP Hh. destruct (decide (fd = IoWait.fd q)) as [->|Hne].
    + destruct Hh as (p2 & c2 & ? & Hk2 & _ & _ & Hc2). destruct (known_same _ _ _ _ _ _ Hk Hk2) as [<- <-].
      eexists p, c', _. split; [done|]. split; [congruence|]. split; [exact Hok'|]. by apply (HP c).
    + eapply holds_frame; [done|done|done|done|]. by rewrite <- Hfd.
  - destruct ok.
    + exists p, c', (asked (events q) t asks). split_and!; [done|congruence|exact Hok'|]. by apply (add_frame _ _ _ _ _ _ _ _ Ha He).
    + intros [Hac (p2 & c2 & ? & Hk2 & _ & _ & Hs)].
      destruct (known_same _ _ _ _ _ _ Hk Hk2) as [_ <-]. rewrite Hfd in Hacc. specialize (Hacc (k_open _ _ _ _ Hk) Hs Hac). done.
Qed.

Lemma poll_register_spec size n t todo : forall g : fds (W := W),
  Forall (fun q => revents q = 0 /\ (IoWait.fd q < 0 \/ holds (IoWait.fd q) (fun _ => True) g)) todo ->
  IsEpollCreated (fd_env g) = true ->
  exists ws g', poll_register size n t todo g = Some (ws, existsb is_watched ws, g') /\
    Forall2 (entered t n g g') todo ws /\ fd_iow g' = fd_iow g /\ IsEpollCreated (fd_env g') = true /\
    (forall fd P, stable t n P -> holds fd P g -> holds fd P g').
Proof.
  induction todo as [|q todo IH]; intros g Hall He.
  { exists [], g. by split_and!. }
  apply Forall_cons in Hall as [[Hr Hq] Hall]. destruct (decide (0 <= IoWait.fd q)) as [Hpos|Hneg].
  2:{ destruct (IH g Hall He) as (ws & g' & E & H1 & H2 & H3 & H4). exists (q :: ws), g'. split_and!; try done.
      - cbn [poll_register]. rewrite (proj2 (Z.ltb_lt _ 0)) by lia. rewrite E. cbn.
        replace (is_watched q) with false; [done|]. unfold is_watched. by rewrite (proj2 (Z.leb_gt 0 _)) by lia.
      - constructor; [apply en_negative; lia|done]. }
  destruct Hq as [|Hq]; [lia|]. destruct (register_one size n t q g Hpos Hq He) as (ok & g1 & Hreg & I1 & I2 & I3 & I4).
  destruct (IH g1) as (ws & g' & E & H1 & H2 & H3 & H4); [|done|].
  { eapply Forall_impl; [exact Hall|]. intros q' [? [?|Hh]]; [by auto|]. split; [done|right]. by apply I3. }
  exists (if ok then q :: ws else set_revents POLLNVAL q :: ws), g'. split_and!; [| |congruence|done|by intros; apply H4, I3].
  - rewrite Hreg, E. cbn. destruct ok; cbn [existsb orb].
    + replace (is_watched q) with true; [done|]. unfold is_watched. by rewrite Hr, (proj2 (Z.leb_le 0 _)).
    + replace (is_watched (set_revents POLLNVAL q)) with false; [done|]. unfold is_watched. cbn. by rewrite andb_false_r.
  - assert (Forall2 (entered t n g g') todo ws) as Hrest.
    { eapply Forall2_impl; [exact H1|]. intros x y. apply entered_mono; [|done]. intros fd. apply I3, socket_stable. }
    destruct ok; (constructor; [|done]); [|by apply en_refused]. apply en_watched; [done|]. apply H4; [apply in_set_stable|done].
Qed.

(** ** A batch of events *)

Definition marks (evs : list (Z * Z)) (ws : list pollfd) : list pollfd :=
  fold_left (fun ws '(fd, ev) => mark fd (EpollEvent2Poll ev) ws) evs ws.

(** An event for a descriptor the manager knows; if it is one of the poll's, it
    reaches an entry. *)
Definition fits (t n : nat) (ws : list pollfd) (g : fds (W := W)) (x : Z * Z) : Prop :=
  holds (fst x) (fun c => fst x ∈ IoWait.fd <$> ws ->
    exists ev, in_set t n ev c /\ reaches (EpollEvent2Poll (snd x)) ev = true) g.

Lemma fds_mark fd r ws : IoWait.fd <$> mark fd r ws = IoWait.fd <$> ws.
Proof. unfold mark. rewrite <- list_fmap_compose. apply list_fmap_ext. intros _ q _. cbn. by destruct (_ =? _). Qed.
Lemma mark_absent fd r ws : fd ∉ IoWait.fd <$> ws -> mark fd r ws = ws.
Proof.
  unfold mark. induction ws as [|q ws IH]; [done|]. rewrite fmap_cons. intros [Hne Hni]%not_elem_of_cons. cbn. rewrite IH by done.
  by rewrite (proj2 (Z.eqb_neq _ _)) by done.
Qed.

Lemma fits_mark t n ws g x fd r : fits t n ws g x -> fits t n (mark fd r ws) g x.
Proof.
  unfold fits. by rewrite fds_mark.
Qed.

(** One event of the batch. *)
Lemma collect_one size n t fd ev (g : fds (W := W)) s trig :
  sentries (fd_iow g) !! n = Some s -> fits t n (watch_fds_ s) g (fd, ev) ->
  exists g1 trig1,
    (forall evs, collect_triggers size ((fd, ev) :: evs) g trig = collect_triggers size evs g1 trig1) /\
    sentries (fd_iow g1) !! n = Some (with_watch (mark fd (EpollEvent2Poll ev) (watch_fds_ s)) s) /\
    wait_io_sentries_ (fd_iow g1) = wait_io_sentries_ (fd_iow g) /\
    (n ∈ trig.*1 \/ fd ∈ IoWait.fd <$> watch_fds_ s -> n ∈ trig1.*1) /\
    (forall fd' P, fd' <> fd -> holds fd' P g -> holds fd' P g1).
Proof.
  intros Hs (p & c & asks & Hk & Hfd & Hok & HP). cbn in Hk, Hfd, HP. set (pe := EpollEvent2Poll ev) in *.
  destruct (trigger_ok size pe c (sentries (fd_iow g)) trig (fd_env g) asks Hok) as (c' & ss & out & e' & Ht & _ & Hrest).
  destruct (Hrest (k_open _ _ _ _ Hk)) as [Hl _]. apply trigger_list_spec in Hl as [Hss Hout].
  exists (set_ctx p c' e' (mkIoWait ss (wait_io_sentries_ (fd_iow g)) (io_runnable (fd_iow g))) g), out.
  assert (fd ∈ IoWait.fd <$> watch_fds_ s -> n ∈ (concerned pe c).*2) as Hin.
  { intros Hq. destruct (HP Hq) as (ev' & Hset & Hr).
    apply list_elem_of_fmap. exists (t, n). split; [done|]. by eapply reaches_concerned. }
  split_and!.
  - intros evs. cbn [collect_triggers]. rewrite (known_get _ _ _ _ Hk). cbn [mbind option_bind].
    rewrite (k_ctx _ _ _ _ Hk). cbn [mbind option_bind]. fold pe. by rewrite Ht.
  - cbn. rewrite Hss, Hs. cbn. f_equal. case_decide as Hd; [unfold report; by rewrite Hfd|].
    rewrite mark_absent; [by destruct s|]. intros H. by apply Hd, Hin.
  - done.
  - intros H. apply Hout. destruct H as [H|H]; [by left|right]. split; [by apply Hin|by eexists].
  - intros fd' P Hne Hh. eapply holds_frame; [done|done|done|congruence|]. rewrite <- Hfd. by eapply trigger_elsewhere.
Qed.

Lemma collect_spec size n t evs : forall (g : fds (W := W)) s trig,
  sentries (fd_iow g) !! n = Some s -> NoDup evs.*1 -> Forall (fits t n (watch_fds_ s) g) evs ->
  exists g' trig', collect_triggers size evs g trig = Some (g', trig') /\
    sentries (fd_iow g') !! n = Some (with_watch (marks evs (watch_fds_ s)) s) /\
    wait_io_sentries_ (fd_iow g') = wait_io_sentries_ (fd_iow g) /\
    (n ∈ trig.*1 \/ Exists (fun x => fst x ∈ IoWait.fd <$> watch_fds_ s) evs -> n ∈ trig'.*1).
Proof.
  induction evs as [|[fd ev] evs IH]; intros g s trig Hs Hnd Hall.
  { exists g, trig. split_and!; try done; [cbn; rewrite Hs; by destruct s|]. intros [?|He]; [done|]. by apply Exists_nil in He. }
  apply Forall_cons in Hall as [Hx Hall]. rewrite fmap_cons in Hnd. apply NoDup_cons in Hnd as [Hni Hnd].
  destruct (collect_one size n t fd ev g s trig Hs Hx) as (g1 & trig1 & E & S1 & Q1 & T1 & F1).
  destruct (IH g1 _ trig1 S1 Hnd) as (g' & trig' & E' & S' & Q' & T').
  { cbn [watch_fds_ with_watch]. eapply Forall_impl; [apply Forall_and; split; [exact Hall|apply Forall_forall; intros x Hx'; exact Hx']|].
    intros [fd' ev'] [Hf Hin]. apply fits_mark. refine (F1 fd' _ _ Hf). intros ->. apply Hni. apply list_elem_of_fmap. by exists (fd, ev'). }
  exists g', trig'. split_and!.
  - by rewrite E.
  - by rewrite S'.
  - congruence.
  - cbn [watch_fds_ with_watch] in T'. rewrite fds_mark in T'. intros H. apply T'. rewrite Exists_cons in H. cbn in H. tauto.
Qed.

Lemma cleared_marks evs : forall ws, cleared (marks evs ws) = cleared ws.
Proof. induction evs as [|[fd ev] evs IH]; intros ws; [done|]. cbn. fold (marks evs (mark fd (EpollEvent2Poll ev) ws)). by rewrite IH, cleared_mark. Qed.

Lemma batch_wakes size n t timer ws evs (g : fds (W := W)) :
  parked n t timer ws (fd_iow g) -> IsEpollCreated (fd_env g) = true -> NoDup evs.*1 -> Forall (fits t n ws g) evs ->
  exists g1 g2, WaitLoop size [EpReady evs] g = Some (Some (sz evs), g1) /\
    (Exists (fun x => fst x ∈ IoWait.fd <$> ws) evs -> t ∈ io_runnable (fd_iow g1)) /\
    poll_finish n (cleared ws) g1 = Some (answers (marks evs ws), marks evs ws, timer, g2).
Proof.
  intros [Hs Hq] Hep Hnd Hall. destruct (collect_spec size n t evs g _ [] Hs Hnd Hall) as (g' & trig & E & S' & Q' & T').
  cbn [WaitLoop]. rewrite Hep, E. cbn in S' |- *.
  destruct (fire_keeps trig (fd_iow g') n _ t S') as [(s' & Hs' & Hsame) _].
  set (g1 := mkFds _ _ _ _ _ _). exists g1. destruct (finish_spec n t timer (marks evs ws) g1 s' Hs' Hsame) as [g2 Hg2].
  rewrite cleared_marks in Hg2. exists g2. split; [done|]. split; [|done]. intros Hex.
  apply (fire_wakes trig (fd_iow g') n _ (T' (or_intror Hex)) S' eq_refl). by rewrite Q'.
Qed.

(** ** The whole call *)

Lemma holds_sentry fd P m s (g : fds (W := W)) : holds fd P (set_sentry m s g) <-> holds fd P g.
Proof. split; intros (p & c & asks & [] & H); exists p, c, asks; (split; [by constructor|exact H]). Qed.
Lemma holds_iow fd P iw (g : fds (W := W)) : holds fd P (with_iow iw g) <-> holds fd P g.
Proof. split; intros (p & c & asks & [] & H); exists p, c, asks; (split; [by constructor|exact H]). Qed.

Lemma entered_cleared t n g g' qs ws : Forall2 (entered t n g g') qs ws -> cleared ws = cleared qs.
Proof. unfold cleared. induction 1 as [|q q' qs ws Hq HF IH]; [done|]. cbn. rewrite IH. f_equal. by destruct Hq. Qed.

(** From the call to the switch. *)
Lemma polls_wait size pfds n t timer timeout (g : fds (W := W)) :
  Forall (fun q => IoWait.fd q < 0 \/ holds (IoWait.fd q) (fun _ => True) g) pfds ->
  Exists (fun q => 0 <= IoWait.fd q) pfds -> IsEpollCreated (fd_env g) = true -> timeout <> 0 ->
  exists ws r g1,
    poll_begin size (Some t) pfds timeout (0, cleared pfds) n timer g = Some (r, g1) /\
    let g2 := with_iow (SchedulerSwitch n (fd_iow g1)) g1 in
    Forall2 (entered t n g g2) (cleared pfds) ws /\
    if existsb is_watched ws
    then r = PollWaits (cleared pfds) /\ parked n t (if 0 <? timeout then Some timer else None) ws (fd_iow g2) /\
         IsEpollCreated (fd_env g2) = true
    else r = PollReturns (sz pfds) (cleared pfds).
Proof.
  intros Hall Hne He Ht. unfold poll_begin. rewrite (proj2 (Z.eqb_neq _ _)) by done.
  assert (forallb (fun p => IoWait.fd p <? 0) pfds = false) as ->.
  { apply not_true_iff_false. rewrite forallb_forall. intros Hf. apply Exists_exists in Hne as (q & Hq & Hp).
    apply list_elem_of_In, Hf in Hq. zbool. lia. }
  cbn [fst snd negb]. change (negb (0 =? 0)) with false. cbv iota zeta.
  assert (cleared (cleared pfds) = cleared pfds) as Hcc.
  { unfold cleared. rewrite List.map_map. by apply List.map_ext. }
  cbn [IoSentry_new watch_fds_].
  destruct (poll_register_spec size n t (cleared pfds) (set_sentry n (IoSentry_new t (cleared pfds)) g)) as (ws & g' & E & H1 & H2 & H3 & _).
  { apply Forall_forall. intros q (q0 & -> & Hq)%list_elem_of_fmap. split; [done|]. rewrite Forall_forall in Hall.
    destruct (Hall _ Hq) as [?|Hh]; [by left|right]. by apply holds_sentry. }
  { done. }
  fold (cleared (cleared pfds)). rewrite Hcc, E. cbn [mbind option_bind].
  exists ws. destruct (existsb is_watched ws); cbn [negb].
  - eexists _, _. split; [reflexivity|]. split; [|split; [done|]].
    + eapply Forall2_impl; [exact H1|]. intros q q'. apply entered_mono; intros fd; intros; [by apply holds_sentry|].
      by apply holds_iow, holds_sentry.
    + destruct (0 <? timeout); unfold SchedulerSwitch, switch_push, is_triggered; cbn; rewrite lookup_insert_eq; cbn;
        (split; [|done]); (split; cbn; [apply lookup_insert_eq|set_solver]).
  - eexists _, _. split; [reflexivity|]. split; [|f_equal; unfold cleared; by rewrite length_map].
    eapply Forall2_impl; [exact H1|]. intros q q'. apply entered_mono; intros fd; intros; [by apply holds_sentry|].
    by apply holds_iow.
Qed.

Lemma entry_watched t n g g' qs ws q :
  Forall2 (entered t n g g') qs ws -> q ∈ ws -> is_watched q = true -> watched_by t n q g'.
Proof.
  intros HF Hq. induction HF as [|x y qs ws Hx HF IH]; [by apply not_elem_of_nil in Hq|].
  apply elem_of_cons in Hq as [->|Hq]; [|by apply IH]. unfold is_watched. destruct Hx as [Hx|Hx Hw|Hx Hr]; cbn.
  - rewrite (proj2 (Z.leb_gt 0 _)) by lia. done.
  - done.
  - by rewrite andb_false_r.
Qed.

(** An event that epoll may report while the poll waits: of a descriptor that the
    manager knows, and if it is one of the poll's, the event is an error or one
    that an accepted entry asked for. *)
Definition expected (ws : list pollfd) (g : fds (W := W)) (x : Z * Z) : Prop :=
  holds (fst x) (fun _ => True) g /\
  (fst x ∈ IoWait.fd <$> ws -> exists q, q ∈ ws /\ IoWait.fd q = fst x /\ is_watched q = true /\
     reaches (EpollEvent2Poll (snd x)) (events q) = true).

Lemma expected_fits t n g g' qs ws x : Forall2 (entered t n g g') qs ws -> expected ws g' x -> fits t n ws g' x.
Proof.
  intros HF [(p & c & asks & Hk & Hfd & Hok & _) Hx]. exists p, c, asks. split_and!; try done. intros Hin0.
  destruct (Hx Hin0) as (q & Hq & E & Hw & Hr). exists (events q). split; [|done]. destruct (entry_watched _ _ _ _ _ _ _ HF Hq Hw) as (p2 & c2 & ? & Hk2 & _ & _ & Hin).
  rewrite E in Hk2. by destruct (known_same _ _ _ _ _ _ Hk Hk2) as [_ <-].
Qed.

(** C13: A coroutine that polls any list of entries, with nothing ready at once.
    (1) The call goes through all entries: a negative descriptor is skipped, any
    other is watched, or marked with [POLLNVAL], and that only if it is no socket
    or epoll does not take it.
    (2) When none is watched the call returns the number of entries.
    (3) Otherwise the task yields.  When epoll reports a batch of events, the call
    returns with exactly these in the entries of their descriptors, and counts
    the entries that have an answer; the task is made runnable if the batch has
    an event of one of its descriptors.
    (4) When the timer expires first the entries are as they were entered, and
    (5) when one of the descriptors is closed its entries show [POLLNVAL]. *)
Theorem poll_many size pfds n t timer timeout (g : fds (W := W)) :
  Forall (fun q => IoWait.fd q < 0 \/ holds (IoWait.fd q) (fun _ => True) g) pfds ->
  Exists (fun q => 0 <= IoWait.fd q) pfds -> IsEpollCreated (fd_env g) = true -> timeout <> 0 ->
  let tm := if 0 <? timeout then Some timer else None in
  exists ws r g1,
    poll_begin size (Some t) pfds timeout (0, cleared pfds) n timer g = Some (r, g1) /\
    let g2 := with_iow (SchedulerSwitch n (fd_iow g1)) g1 in
    Forall2 (entered t n g g2) (cleared pfds) ws /\
    if negb (existsb is_watched ws) then r = PollReturns (sz pfds) (cleared pfds) else
    r = PollWaits (cleared pfds) /\
    (forall evs, NoDup evs.*1 -> Forall (expected ws g2) evs ->
       exists g3 g4, WaitLoop size [EpReady evs] g2 = Some (Some (sz evs), g3) /\
         (Exists (fun x => fst x ∈ IoWait.fd <$> ws) evs -> t ∈ io_runnable (fd_iow g3)) /\
         poll_finish n (cleared pfds) g3 = Some (answers (marks evs ws), marks evs ws, tm, g4)) /\
    (let g3 := with_iow (IOBlockTriggered n (fd_iow g2)) g2 in
       t ∈ io_runnable (fd_iow g3) /\ exists g4, poll_finish n (cleared pfds) g3 = Some (answers ws, ws, tm, g4)) /\
    (forall q, q ∈ ws -> is_watched q = true ->
       let ws' := mark (IoWait.fd q) POLLNVAL ws in
       exists ret g3 g4, close (IoWait.fd q) g2 = Some (ret, g3) /\ t ∈ io_runnable (fd_iow g3) /\
         poll_finish n (cleared pfds) g3 = Some (answers ws', ws', tm, g4)).
Proof.
  intros Hall Hne He Ht tm. destruct (polls_wait size pfds n t timer timeout g Hall Hne He Ht) as (ws & r & g1 & Hb & HF & Hr).
  fold tm in Hr. exists ws, r, g1. split; [exact Hb|]. cbv zeta. set (g2 := with_iow _ g1) in *. split; [exact HF|].
  destruct (existsb is_watched ws); cbn [negb]; [|exact Hr]. destruct Hr as (-> & Hp & Hep). split; [done|].
  assert (cleared pfds = cleared ws) as Hc.
  { rewrite (entered_cleared _ _ _ _ _ _ HF). unfold cleared. rewrite List.map_map. by apply List.map_ext. }
  rewrite Hc. split_and!.
  - intros evs Hd Hx. apply batch_wakes; [done..|]. eapply Forall_impl; [exact Hx|]. intros x. by apply (expected_fits _ _ g _ (cleared pfds)).
  - by apply (timer_wakes n t tm ws g2).
  - by apply (timer_wakes n t tm ws g2).
  - intros q Hq Hw. destruct (entry_watched _ _ _ _ _ _ _ HF Hq Hw) as (p & c & asks & Hk & Hfd & Hok & Hin).
    eapply close_wakes. by constructor.
Qed.
End PollMany.

(** ** An example: two sockets and a negative descriptor *)
Import DemoKernel.

Definition demo_world : toy := mkToy {[5 := (true, 2); 6 := (true, 2)]} ∅ 3.
Definition demo_many : fds (W := toy) :=
  match get_fd_ctx 5 (mkFds (mkEnv demo_world 2 1 1024) IoWait_new ∅ 0 [] ∅) with
  | Some (_, g) => match get_fd_ctx 6 g with Some (_, g) => g | None => g end
  | None => fds0
  end.
Definition demo_entries : list pollfd := [mkPollfd 5 POLLIN 0; mkPollfd (-1) POLLIN 0; mkPollfd 6 (Z.lor POLLIN POLLOUT) 0].

Lemma demo_holds fd P : fd = 5 \/ fd = 6 ->
  P (mkCtx true true true false false fd 0 (mkTv 0 0) (mkTv 0 0) [] [] [] (-1) (-1)) -> holds fd P demo_many.
Proof.
  intros [->| ->] HP; (eexists _, _, ∅; split; [constructor; [lia|vm_compute; reflexivity|vm_compute; reflexivity|done|done]|]);
    (split; [done|]; split; [|exact HP]); (constructor; [constructor|split_and!|]); try done; try (by left);
    try (intros tk n Hin; by apply not_elem_of_nil in Hin);
    intros ep; rewrite decide_False by naive_solver; vm_compute; done.
Qed.
Lemma toy_accepts fd : accepts fd.
Proof. intros ep ev w Hn. cbn in Hn |- *. unfold toy_ctl. by rewrite Hn. Qed.

Lemma demo_entered t n g' q q' : IoWait.fd q = 5 \/ IoWait.fd q = 6 ->
  entered t n demo_many g' q q' -> q' = q /\ holds (IoWait.fd q) (fun _ => True) g'.
Proof.
  intros Hq [Hn|Hn (p & c & asks & H1 & H2 & H3 & _)|Hn Hr]; [lia| |].
  - split; [done|]. exists p, c, asks. by split_and!.
  - destruct Hr. split; [apply toy_accepts|]. by apply demo_holds.
Qed.

Lemma expected_check ws (g : fds (W := toy)) x q : holds (fst x) (fun _ => True) g ->
  q ∈ ws -> IoWait.fd q = fst x -> is_watched q = true -> reaches (EpollEvent2Poll (snd x)) (events q) = true -> expected ws g x.
Proof. intros Hh Hq Hf Hw Hr. split; [done|]. intros _. by exists q. Qed.

(** Both sockets become ready in one batch; the call returns 2. *)
Lemma poll_many_witness : exists g1 g3 g4,
  poll_begin 1024 (Some 7%nat) demo_entries 100 (0, cleared demo_entries) 1 3 demo_many = Some (PollWaits demo_entries, g1) /\
  WaitLoop 1024 [EpReady [(6, EPOLLOUT); (5, EPOLLIN)]] (with_iow (SchedulerSwitch 1 (fd_iow g1)) g1) = Some (Some 2, g3) /\
  7%nat ∈ io_runnable (fd_iow g3) /\
  poll_finish 1 demo_entries g3 =
    Some (2, [mkPollfd 5 POLLIN POLLIN; mkPollfd (-1) POLLIN 0; mkPollfd 6 (Z.lor POLLIN POLLOUT) POLLOUT], Some 3%nat, g4).
Proof.
  destruct (poll_many 1024 demo_entries 1 7 3 100 demo_many) as (ws & r & g1 & Hb & HF & Hr); [| |done|lia|].
  { apply Forall_cons; split; [right; apply demo_holds; auto|]. apply Forall_cons; split; [left; cbn; lia|].
    apply Forall_cons; split; [right; apply demo_holds; auto|]. apply Forall_nil. done. }
  { left. cbn. lia. }
  cbn [cleared demo_entries map] in HF. apply Forall2_cons_inv_l in HF as (q1 & ws1 & H1 & HF & ->).
  apply Forall2_cons_inv_l in HF as (q2 & ws2 & H2 & HF & ->). apply Forall2_cons_inv_l in HF as (q3 & ws3 & H3 & HF & ->).
  apply Forall2_nil_inv_l in HF as ->. apply demo_entered in H1 as [-> H1]; [|by left]. apply demo_entered in H3 as [-> H3]; [|by right].
  assert (q2 = set_revents 0 (mkPollfd (-1) POLLIN 0)) as -> by (destruct H2 as [H2|H2 _|H2 _]; [done|done|cbn in H2; lia]).
  cbn in Hr. destruct Hr as (-> & Hev & _). destruct (Hev [(6, EPOLLOUT); (5, EPOLLIN)]) as (g3 & g4 & E1 & E2 & E3).
  { apply (bool_decide_unpack _). vm_compute. done. }
  { apply Forall_cons; split; [eapply expected_check; [exact H3|do 2 right; left|reflexivity..]|].
    apply Forall_cons; split; [eapply expected_check; [exact H1|left|reflexivity..]|]. by apply Forall_nil. }
  exists g1, g3, g4. split; [exact Hb|]. split; [exact E1|]. split; [|exact E3]. apply E2. left. cbn. set_solver.
Defined.
