(* ===== verification/ConnHooks.v ===== *)
(** * A connection served through the hooked calls

    [NatsuApp::handle] with its [read], [write] and [close] going where they really
    go: to the hooks of [linux_glibc_hook.cpp], which make the coroutine wait, and
    to the table of descriptor contexts.  [NatsuApp.v] takes the results of these
    calls as inputs; here the inputs are the results of the system's calls, of
    which a hooked call makes several. *)
From S2P Require Import Prelude StdString StdMap NatsuBase HttpRequest HttpParser HttpParserFacts HttpResponse HttpRouter NatsuApp.
From S2P Require Import IoWait FdContext GlibcHook PollFacts.

Definition EINTR : Z := 4.

(** What the system does for one hooked call: the results of its attempts with the
    bytes that came, the clock, and how the polls in between end. *)
Record script : Type := mkScript { attempts : list (sysret * bytes); clock : list Z; waits : list poll_end }.
Definition results (sc : script) : list sysret := map fst (attempts sc).

(** The bytes of the attempt that did not have to wait. *)
Definition received (sc : script) : bytes :=
  match List.find (fun a => negb (would_block a.1)) (attempts sc) with Some a => a.2 | None => [] end.

(** The tests of [handle] after [read]. *)
Definition classify (sc : script) (r : sysret) : read_result :=
  if fst r =? -1 then if (EAGAIN =? snd r) || (EINTR =? snd r) then RdRetry else RdError
  else if fst r =? 0 then RdEof
  else RdData (take (Z.to_nat (fst r)) (received sc)).

Section Conn.
Context {W : Type} `{K : Kernel W}.
Context {pcre : Type} (pcre_exec : pcre -> bytes -> Z -> option exec_result).
Context (std_sort : list MatchResult -> list MatchResult) (inject_ : option Inject) (router : HttpRouter pcre).
Variables (tk : nat) (fd : Z).
Implicit Types g : fds (W := W).

Definition app_read (sc : script) g : option (option read_result * fds (W := W)) :=
  '(r, _, g) ← hooked c_read (Some tk) fd (results sc) (clock sc) (waits sc) g; Some (option_map (classify sc) r, g).

(** The loop around [write]: the trace, whether the loop ended, and the scripts
    left. *)
Fixpoint write_hooked (buf : bytes) (pos : nat) (scs : list script) g :
    option (list io * bool * list script * fds (W := W)) :=
  if (pos <? length buf)%nat then
    match scs with
    | [] => Some ([], false, [], g)
    | sc :: scs' =>
        '(r, _, g) ← hooked c_write (Some tk) fd (results sc) (clock sc) (waits sc) g;
        match r with
        | None => Some ([], false, scs', g)
        | Some r =>
            if fst r =? -1 then Some ([IoWrite (drop pos buf)], true, scs', g)
            else '(t, fin, rest, g) ← write_hooked buf (pos + Z.to_nat (fst r)) scs' g;
                 Some (IoWrite (drop pos buf) :: t, fin, rest, g)
        end
    end
  else Some ([], true, scs, g).

(** [NatsuApp::handle]. *)
Fixpoint handle_hooked (reads writes : list script) g (p : HttpParser) : option (list io * outcome status * fds (W := W)) :=
  match reads with
  | [] => Some ([IoRead], Ret NatsuApp.Blocked, g)
  | sc :: reads' =>
      '(r, g) ← app_read sc g;
      match r with
      | None => Some ([IoRead], Ret NatsuApp.Blocked, g)
      | Some RdRetry => '(t, o, g) ← handle_hooked reads' writes g p; Some (IoRead :: t, o, g)
      | Some RdError | Some RdEof => '(_, g) ← close fd g; Some ([IoRead; IoClose], Ret Returned, g)
      | Some (RdData d) =>
          match parse d p with
          | Throw e => Some ([IoRead], Throw e, g)
          | Undef => Some ([IoRead], Undef, g)
          | Fuel => Some ([IoRead], Fuel, g)
          | Ret (failure, p') =>
              '(_, g) ← close fd g; '(t, o, g) ← handle_hooked reads' writes g p'; Some (IoRead :: IoClose :: t, o, g)
          | Ret (indeterminate, p') => '(t, o, g) ← handle_hooked reads' writes g p'; Some (IoRead :: t, o, g)
          | Ret (success, p') =>
              match req_ p' with
              | None => Some ([IoRead], Undef, g)
              | Some req =>
                  match make_response pcre_exec std_sort inject_ router (req, HttpResponse_new) with
                  | Throw e => Some ([IoRead], Throw e, g)
                  | Undef => Some ([IoRead], Undef, g)
                  | Fuel => Some ([IoRead], Fuel, g)
                  | Ret (req', resp) =>
                      '(w, fin, writes', g) ← write_hooked (fst (str resp)) 0 writes g;
                      match fin with
                      | true =>
                          '(_, g) ← close fd g;
                          '(t, o, g) ← handle_hooked reads' writes' g (set_req (Some req') p');
                          Some (IoRead :: w ++ IoClose :: t, o, g)
                      | false => Some (IoRead :: w, Ret NatsuApp.Blocked, g)
                      end
                  end
              end
          end
      end
  end.

(** ** Calls on the connection's descriptor *)

(** The attempts before the last would have blocked, each wait ended with events,
    and no time-out passed. *)
Inductive comes (so : timeo_type) (c : FileDescriptorCtx) (v : sysret) (data : bytes) : script -> Prop :=
| comes_intro blocked rest intrs more clk :
    Forall (fun a => would_block a.1 = true) blocked -> length intrs = length blocked ->
    (timeout_of (get_time_o so c) = 0 \/
     (length blocked <= length clk)%nat /\ Forall (fun x => i32 x <= timeout_of (get_time_o so c)) (take (length blocked) clk)) ->
    comes so c v data (mkScript (blocked ++ (v, data) :: rest) clk (event_rounds intrs ++ more)).

Lemma hooked_comes f c p g v data sc : known fd p c g -> is_socket_ c = true -> user_nonblock_ c = false ->
  comes (call_timeo f) c v data sc -> would_block v = false ->
  exists used, hooked f (Some tk) fd (results sc) (clock sc) (waits sc) g = Some (Some v, used, g).
Proof.
  intros Hk Hs Hu Hc Hv. destruct Hc as [blocked rest intrs more clk Hb Hl Ht]. unfold hooked, read_write_mode, results. cbn.
  rewrite (known_open _ _ _ _ Hk). cbn. rewrite Hs, Hu. cbn [negb]. rewrite map_app. cbn [map fst].
  pose proof (rw_progress fd (call_event f) (timeout_of (get_time_o (call_timeo f) c)) (map fst blocked) v (map fst rest) clk intrs more) as H.
  rewrite !length_map in H. destruct (rw_loop _ _ _ _ _ _) as [r used]. cbn in H. eexists. rewrite H; [done| |done|done|done].
  by apply Forall_map.
Qed.

Lemma received_comes so c v data sc : comes so c v data sc -> would_block v = false -> received sc = data.
Proof.
  intros [blocked rest intrs more clk Hb _ _] Hv. unfold received. cbn.
  induction Hb as [|[r d] blocked Hr _ IH]; cbn; [by rewrite Hv|]. cbn in Hr. by rewrite Hr.
Qed.

(** A script that brings [d], and one that takes [n] bytes. *)
Definition brings (c : FileDescriptorCtx) (d : bytes) (sc : script) : Prop :=
  exists e, comes SO_RCVTIMEO c (sz d, e) d sc.
Definition accepts (c : FileDescriptorCtx) (n : nat) (sc : script) : Prop :=
  exists e data, comes SO_SNDTIMEO c (Z.of_nat n, e) data sc.

Lemma would_block_count n e : would_block (Z.of_nat n, e) = false.
Proof. unfold would_block. cbn. by rewrite (proj2 (Z.eqb_neq _ _)) by lia. Qed.

Section Open.
Variables (p : nat) (c : FileDescriptorCtx) (g : fds (W := W)).
Hypotheses (Hk : known fd p c g) (Hs : is_socket_ c = true) (Hu : user_nonblock_ c = false).

Lemma app_read_brings d sc : d <> [] -> brings c d sc -> app_read sc g = Some (Some (RdData d), g).
Proof.
  intros Hd [e Hc]. unfold app_read. pose proof (would_block_count (length d) e) as Hw.
  destruct (hooked_comes c_read c p g _ _ _ Hk Hs Hu Hc Hw) as [used ->]. cbn. unfold classify. cbn [fst].
  rewrite !(proj2 (Z.eqb_neq (sz d) _)) by (destruct d; [done|cbn; lia]).
  rewrite (received_comes _ _ _ _ _ Hc Hw), Nat2Z.id, firstn_all. done.
Qed.

Lemma write_hooked_accepts buf ns scs : Forall2 (accepts c) ns scs -> forall pos, (pos + sum_list ns = length buf)%nat ->
  exists rest, write_hooked buf pos scs g = Some (fst (write_loop buf pos (map Some ns)), true, rest, g).
Proof.
  induction 1 as [|n sc ns scs [e [data Hc]] _ IH]; intros pos Hp; cbn [write_hooked write_loop map]; simpl in Hp.
  - rewrite (proj2 (Nat.ltb_ge _ _)) by lia. by eexists.
  - destruct (pos <? length buf)%nat; [|by eexists]. pose proof (would_block_count n e) as Hw.
    destruct (hooked_comes c_write c p g _ _ _ Hk Hs Hu Hc Hw) as [used ->]. cbn [mbind option_bind fst].
    rewrite (proj2 (Z.eqb_neq _ _)), Nat2Z.id by lia. destruct (IH (pos + n)%nat) as [rest ->]; [lia|]. cbn.
    eexists. by destruct (write_loop _ _ _).
Qed.
End Open.

(** ** After [close] *)

(** The descriptor is closed: its pair is empty and the system does not know it. *)
Record gone (g : fds (W := W)) : Prop := {
  gn_fd : 0 <= fd;
  gn_ptr : pair_ptr fd g = None;
  gn_room : has_room fd g;
  gn_sys : sys_fstat fd (world (fd_env g)) = None }.

Lemma ptr_room p g : 0 <= fd -> pair_ptr fd g = Some p -> has_room fd g.
Proof. intros Hfd Hp. rewrite <- (get_pair_id fd p g Hfd Hp). by apply get_pair_room. Qed.

Lemma close_known p c g : known fd p c g -> fd_ c = fd ->
  sys_fstat fd (snd (sys_close fd (world (fd_env g)))) = None -> exists r g', close fd g = Some (r, g') /\ gone g'.
Proof.
  intros [Hfd Hp Hc Hi Ho] Hn Hs. unfold close, mgr_close. rewrite (proj2 (Z.ltb_ge _ _)) by done.
  rewrite (get_pair_id _ _ _ Hfd Hp), Hp, Hc. cbn [mbind option_bind]. unfold ctx_close. rewrite Ho, Hn.
  destruct (sys_close fd (world (fd_env g))) as [r w]. eexists _, _. split; [reflexivity|].
  pose proof (ptr_room p g Hfd Hp) as Hr. constructor; [done|by apply set_ptr_eq| |].
  - unfold has_room, set_ptr in *. destruct (is_big fd); [by left|]. cbn. by rewrite length_insert.
  - unfold set_ptr. by destruct (is_big fd).
Qed.

(** A read of a descriptor that is gone fails at once, and it can be closed again. *)
Lemma open_gone g : gone g -> exists g1 r g2, open_ctx fd g = Some (None, g1) /\ close fd g1 = Some (r, g2).
Proof.
  intros [Hfd Hp Hr Hsys]. destruct (get_pair_frame fd g) as (_ & He & _).
  unfold open_ctx, get_fd_ctx, get. rewrite (proj2 (Z.ltb_ge _ _)) by done.
  rewrite get_pair_ptr, Hp, He by done. unfold FileDescriptorCtx_new, re_initialize, ctx_blank. cbn [is_initialize_ fd_].
  rewrite Hsys. unfold new_ctx, with_world. cbn [heap fd_env next_ctx world set_world].
  set (g1 := mkFds _ _ _ _ _ _). set (n := next_ctx (get_pair fd g)) in *. set (c0 := mkCtx _ _ _ _ _ _ _ _ _ _ _ _ _ _) in *.
  assert (has_room fd g1) as Hroom by apply (get_pair_room fd g Hfd).
  assert (heap (set_ptr fd (Some n) g1) !! n = Some c0) as Hc.
  { unfold set_ptr. destruct (is_big fd); cbn; apply lookup_insert_eq. }
  assert (world (fd_env (set_ptr fd (Some n) g1)) = world (fd_env g)) as Hw by (unfold set_ptr; by destruct (is_big fd)).
  cbn [mbind option_bind]. rewrite Hc. cbn [mbind option_bind is_initialize_ c0 fd_ i_tasks_ o_tasks_ io_tasks_ epoll_fd_ owner_pid_].
  rewrite Hw, Hsys. fold c0. rewrite <- Hw, set_world_id, set_ctx_id by done. cbn [mbind option_bind]. rewrite Hc. cbn [mbind option_bind is_initialize_ c0].
  unfold close, mgr_close. rewrite (proj2 (Z.ltb_ge _ _)) by done.
  pose proof (set_ptr_eq fd (Some n) g1 Hroom) as Hp1.
  eexists _. rewrite (get_pair_id fd n _ Hfd Hp1), Hp1, Hc. cbn [mbind option_bind].
  destruct (ctx_close _ _ _ _) as [[[r c'] iw'] w']. by eexists _, _.
Qed.
Lemma read_gone sc g : gone g ->
  exists g1, app_read sc g = Some (Some RdError, g1) /\ exists r g2, close fd g1 = Some (r, g2).
Proof.
  intros H. destruct (open_gone g H) as (g1 & r & g2 & Ho & Hc). exists g1. split; [|by eexists _, _].
  unfold app_read, hooked, read_write_mode. by rewrite Ho.
Qed.

(** ** A request is served *)

Section Served.
Variables (p : nat) (c : FileDescriptorCtx) (g : fds (W := W)).
Hypotheses (Hk : known fd p c g) (Hs : is_socket_ c = true) (Hu : user_nonblock_ c = false).
Hypotheses (Hfd : fd_ c = fd) (Hgone : sys_fstat fd (snd (sys_close fd (world (fd_env g)))) = None).

(** The end of a connection: close, a read of the closed descriptor, close. *)
Lemma conn_end sc reads writes ps : exists g', 
  ('(_, g) ← close fd g; '(t, o, g) ← handle_hooked (sc :: reads) writes g ps; Some (IoClose :: t, o, g)) =
  Some ([IoClose; IoRead; IoClose], Ret Returned, g').
Proof.
  destruct (close_known p c g Hk Hfd Hgone) as (r & g1 & -> & Hg1). cbn [mbind option_bind handle_hooked].
  destruct (read_gone sc g1 Hg1) as (g2 & -> & r2 & g3 & Hc). cbn [mbind option_bind]. rewrite Hc. by eexists.
Qed.

Lemma hooked_serves m path hs body pieces scs a ps s' resp ns wscs sc reads :
  path_ok path -> Forall header_ok hs -> announced (header_map hs []) body -> lines_short m path hs ->
  sz (head_text m path hs ++ body) < 2 ^ 64 ->
  parse a reset = Ret (indeterminate, ps) -> pieces <> [] -> Forall (fun d => d <> []) pieces ->
  Forall2 (brings c) pieces scs -> a ++ concat pieces = head_text m path hs ++ body ->
  make_response pcre_exec std_sort inject_ router
    (mkRequest (Some m) path (header_map hs []) body, HttpResponse_new) = Ret (s', resp) ->
  sum_list ns = length (fst (str resp)) -> Forall2 (accepts c) ns wscs ->
  exists g', handle_hooked (scs ++ sc :: reads) wscs g ps =
    Some (replicate (length pieces) IoRead ++ fst (write_loop (fst (str resp)) 0 (map Some ns)) ++ [IoClose; IoRead; IoClose],
          Ret Returned, g').
Proof.
  intros Hp Hhs Ha Hl Hsz Hpa Hne Hall Hb E Hm Hn Hw. revert a ps Hpa Hne Hall E.
  induction Hb as [|d sc1 pieces scs Hd1 Hb IH]; intros a ps Hpa Hne Hall E; [done|]. clear Hne.
  apply Forall_cons in Hall as [Hd Hall]. cbn [concat] in E. rewrite app_assoc in E. cbn [app length replicate handle_hooked].
  rewrite (app_read_brings p c g Hk Hs Hu d sc1 Hd Hd1). cbn [mbind option_bind].
  assert (parse d ps = parse (a ++ d) reset) as Hres.
  { apply parse_resumes; [done|]. rewrite <- E, length_app in Hsz. lia. }
  rewrite Hres. destruct pieces as [|d' pieces].
  - inversion Hb; subst. cbn [concat] in E. rewrite app_nil_r in E. cbn [app replicate].
    assert (parse (a ++ d) reset = Ret (success, mkParser fn_body_with_length (sz body)
      (Some (mkRequest (Some m) path (header_map hs []) body)) [])) as ->.
    { rewrite E. rewrite <- (app_nil_r body) at 1. by apply parse_request. }
    cbn [req_]. rewrite Hm.
    destruct (write_hooked_accepts p c g Hk Hs Hu (fst (str resp)) ns wscs Hw 0) as [rest ->]; [done|]. cbn [mbind option_bind].
    destruct (conn_end sc reads rest (set_req (Some s') (mkParser fn_body_with_length (sz body)
      (Some (mkRequest (Some m) path (header_map hs []) body)) []))) as [g' He].
    cbn [mbind option_bind] in He. destruct (close fd g) as [[? g1]|]; [|done]. cbn [mbind option_bind] in *.
    destruct (handle_hooked (sc :: reads) rest g1 _) as [[[t o] g2]|]; [|done]. injection He as -> -> ->. by eexists.
  - destruct (request_partial m path hs body (a ++ d) (concat (d' :: pieces))) as [p' Hp'];
      [done..| |done|].
    { apply Forall_cons in Hall as [Hd' _]. simpl. by destruct d'. }
    rewrite Hp'. destruct (IH _ _ Hp' ltac:(done) Hall E) as [g' ->]. by eexists.
Qed.
End Served.

(** ** The calls behave as [NatsuApp.v] takes them *)

Lemma write_refines buf scs : forall pos g t fin rest g', write_hooked buf pos scs g = Some (t, fin, rest, g') ->
  exists ns, write_loop buf pos ns = (t, fin).
Proof.
  induction scs as [|sc scs IH]; intros pos g t fin rest g' H; cbn [write_hooked] in H.
  - exists []. cbn [write_loop]. destruct (pos <? length buf)%nat; by injection H as <- <- <- <-.
  - destruct (pos <? length buf)%nat eqn:E; [|exists []; cbn [write_loop]; rewrite E; by injection H as <- <- <- <-].
    destruct (hooked c_write _ _ _ _ _ g) as [[[[r|] used] g1]|]; [| |done]; cbn in H.
    + destruct (fst r =? -1); [exists [None]; cbn [write_loop]; rewrite E; by injection H as <- <- <- <-|].
      destruct (write_hooked _ _ scs g1) as [[[[t1 f1] r1] g2]|] eqn:Ew; [|done]. injection H as <- <- <- <-.
      destruct (IH _ _ _ _ _ _ Ew) as [ns Hns]. exists (Some (Z.to_nat (fst r)) :: ns). cbn [write_loop]. by rewrite E, Hns.
    + exists []. cbn [write_loop]. rewrite E. by injection H as <- <- <- <-.
Qed.

(** Every run over the hooked calls is a run of [handle_conn] on the results the
    hooks return: what is proved of it holds of the connection. *)
Lemma hooked_refines reads : forall writes g ps t o g', handle_hooked reads writes g ps = Some (t, o, g') ->
  exists rs ws, handle_conn pcre_exec std_sort inject_ router rs ws ps = (t, o).
Proof.
  induction reads as [|sc reads IH]; intros writes g ps t o g' H; cbn [handle_hooked] in H.
  { exists [], []. by injection H as <- <- <-. }
  destruct (app_read sc g) as [[[r|] g1]|]; [|exists [], []; by injection H as <- <- <-|done]. cbn [mbind option_bind] in H.
  destruct r as [| | |d].
  - destruct (handle_hooked reads writes g1 ps) as [[[t1 o1] g2]|] eqn:E; [|done]. injection H as <- <- <-.
    destruct (IH _ _ _ _ _ _ E) as (rs & ws & Hr). exists (RdRetry :: rs), ws. cbn. by rewrite Hr.
  - destruct (close fd g1) as [[? ?]|]; [|done]. exists [RdError], []. by injection H as <- <- <-.
  - destruct (close fd g1) as [[? ?]|]; [|done]. exists [RdEof], []. by injection H as <- <- <-.
  - destruct (parse d ps) as [[[] p']|e| |] eqn:Ep;
      try (exists [RdData d], []; cbn; rewrite Ep; by injection H as <- <- <-).
    + destruct (req_ p') as [req|] eqn:Er; [|exists [RdData d], []; cbn; rewrite Ep, Er; by injection H as <- <- <-].
      destruct (make_response _ _ _ _ _) as [[req' resp]|e| |] eqn:Em;
        try (exists [RdData d], []; cbn; rewrite Ep, Er, Em; by injection H as <- <- <-).
      destruct (write_hooked _ _ writes g1) as [[[[w fin] writes'] g2]|] eqn:Ew; [|done]. cbn [mbind option_bind] in H.
      destruct (write_refines _ _ _ _ _ _ _ _ Ew) as [ns Hns]. destruct fin.
      * destruct (close fd g2) as [[? g3]|]; [|done]. cbn [mbind option_bind] in H.
        destruct (handle_hooked reads writes' g3 _) as [[[t1 o1] g4]|] eqn:E; [|done]. injection H as <- <- <-.
        destruct (IH _ _ _ _ _ _ E) as (rs & ws & Hr). exists (RdData d :: rs), (ns :: ws). cbn [handle_conn hd tl].
        by rewrite Ep, Er, Em, Hns, Hr.
      * exists [RdData d], [ns]. cbn [handle_conn hd tl]. rewrite Ep, Er, Em, Hns. by injection H as <- <- <-.
    + destruct (close fd g1) as [[? g2]|]; [|done]. cbn [mbind option_bind] in H.
      destruct (handle_hooked reads writes g2 p') as [[[t1 o1] g3]|] eqn:E; [|done]. injection H as <- <- <-.
      destruct (IH _ _ _ _ _ _ E) as (rs & ws & Hr). exists (RdData d :: rs), ws. cbn. by rewrite Ep, Hr.
    + destruct (handle_hooked reads writes g1 p') as [[[t1 o1] g3]|] eqn:E; [|done]. injection H as <- <- <-.
      destruct (IH _ _ _ _ _ _ E) as (rs & ws & Hr). exists (RdData d :: rs), ws. cbn. by rewrite Ep, Hr.
Qed.

(** C35: A connection is served over the hooked calls.  A request whose text arrives on
    a socket in any pieces, each after any number of waits and interruptions, is
    read to its end; the whole text of the response is written, in whatever pieces
    the system takes it and whatever waits that needs; the descriptor is closed,
    the read that the loop makes after that fails because the hooks know that the
    descriptor is gone, and the coroutine ends. *)
Theorem connection_served p c g m path hs body pieces scs s' resp ns wscs sc reads :
  known fd p c g -> is_socket_ c = true -> user_nonblock_ c = false -> fd_ c = fd ->
  sys_fstat fd (snd (sys_close fd (world (fd_env g)))) = None ->
  path_ok path -> Forall header_ok hs -> announced (header_map hs []) body -> lines_short m path hs ->
  sz (head_text m path hs ++ body) < 2 ^ 64 ->
  concat pieces = head_text m path hs ++ body -> Forall (fun d => d <> []) pieces -> Forall2 (brings c) pieces scs ->
  make_response pcre_exec std_sort inject_ router
    (mkRequest (Some m) path (header_map hs []) body, HttpResponse_new) = Ret (s', resp) ->
  sum_list ns = length (fst (str resp)) -> Forall2 (accepts c) ns wscs ->
  (exists g', handle_hooked (scs ++ sc :: reads) wscs g reset =
    Some (replicate (length pieces) IoRead ++ fst (write_loop (fst (str resp)) 0 (map Some ns)) ++ [IoClose; IoRead; IoClose],
          Ret Returned, g')) /\
  sent (fst (str resp)) 0 (map Some ns) = fst (str resp).
Proof.
  intros Hk Hs Hu Hfd Hg Hp Hhs Ha Hl Hsz E Hall Hb Hm Hn Hw. split; [|by apply (sent_complete _ _ 0)].
  eapply (hooked_serves p c g Hk Hs Hu Hfd Hg m path hs body pieces scs []); try done.
  intros ->. simpl in E. symmetry in E. apply app_nil in E as [E _]. unfold head_text in E. by destruct m.
Qed.
End Conn.

(** ** On concrete inputs *)

Import DemoKernel.

Definition demo_read1 : script :=
  mkScript [((-1, EAGAIN), []); ((-1, EAGAIN), []); ((6, 0), lit "GET /a")] [] [PollIntr; PollEvents; PollEvents].
Definition demo_read2 : script := mkScript [((sz demo_get - 6, 0), drop 6 demo_get)] [] [].
Definition demo_write1 : script := mkScript [((5, 0), [])] [] [].
Definition demo_write2 : script := mkScript [((-1, EAGAIN), []); ((35, 0), [])] [] [PollEvents].

Lemma connection_served_witness :
  exists g', handle_hooked lit_exec isort None demo_router 7 5 [demo_read1; demo_read2; mkScript [] [] []]
      [demo_write1; demo_write2] demo_poll reset =
    Some ([IoRead; IoRead; IoWrite (fst (str demo_resp)); IoWrite (drop 5 (fst (str demo_resp))); IoClose; IoRead; IoClose],
          Ret Returned, g').
Proof.
  apply (connection_served lit_exec isort None demo_router 7 5 0 demo_poll_ctx demo_poll GET (lit "/a/b/c") [] []
    [lit "GET /a"; drop 6 demo_get] [demo_read1; demo_read2] (mkRequest (Some GET) (lit "/a/b/c") [] []) demo_resp [5; 35]%nat
    [demo_write1; demo_write2]).
  all: try (vm_compute; reflexivity).
  - exact demo_poll_known.
  - split; [discriminate|]. cbn. unfold CR. set_solver.
  - constructor.
  - repeat split.
  - by split.
  - by repeat constructor.
  - constructor; [|constructor; [|constructor]].
    + exists 0. apply (comes_intro _ _ (6, 0) (lit "GET /a") [((-1, EAGAIN), []); ((-1, EAGAIN), [])] [] [1; 0]%nat []);
        [by repeat constructor|reflexivity|by left].
    + exists 0. apply (comes_intro _ _ (_, 0) (drop 6 demo_get) [] [] [] []); [constructor|reflexivity|by left].
  - constructor; [|constructor; [|constructor]].
    + exists 0, []. apply (comes_intro _ _ (5, 0) [] [] [] [] []); [constructor|reflexivity|by left].
    + exists 0, []. apply (comes_intro _ _ (35, 0) [] [((-1, EAGAIN), [])] [] [0%nat] []); [by repeat constructor|reflexivity|by left].
Defined.
