(* ===== verification/WinHook.v ===== *)
(** * The Windows port: hooked Winsock calls

    [libgo/windows/win_vc_hook.cpp].  A call of a coroutine on a blocking socket
    puts the socket in non-blocking mode, tries, waits with the hooked [select]
    (which sleeps as a coroutine between non-blocking selects), tries again and
    puts the mode back.  Which mode the program wants is kept in the socket's
    [SO_GROUP_PRIORITY] option, which the hooked [ioctlsocket] sets.  The hooks
    are installed in Winsock itself, so that the calls of [ioctlsocket] and
    [select] in the hooks are the hooked ones. *)
From S2P Require Import Prelude.

Definition FIONBIO : Z := -2147195266.
Definition SOCKET_ERROR : Z := -1.
Definition WSAEWOULDBLOCK : Z := 10035.
Definition WSAEINPROGRESS : Z := 10036.
Definition WSAENOTSOCK : Z := 10038.

Definition fd_set : Type := list Z.
Definition FD_SETSIZE : nat := 64.
(** The macro adds a socket once, while there is room. *)
Definition FD_SET (fd : Z) (s : fd_set) : fd_set :=
  if bool_decide (fd ∈ s) then s else if (length s <? FD_SETSIZE)%nat then s ++ [fd] else s.
Definition FD_ISSET (fd : Z) (s : fd_set) : bool := bool_decide (fd ∈ s).

(** The three sets of a [select]; [None] is a null pointer. *)
Record sets : Type := mkSets { readfds : option fd_set; writefds : option fd_set; exceptfds : option fd_set }.
Definition FD_ZERO (s : option fd_set) : option fd_set := (fun _ => []) <$> s.

(** Winsock: the results are returned, [WSAGetLastError] is a part of the
    state. *)
Class WinSock (W : Type) : Type := {
  sys_ioctlsocket : Z -> Z -> Z -> W -> Z * W;
  sys_set_priority : Z -> Z -> W -> Z * W;
  sys_get_priority : Z -> W -> Z * Z * W;
  sys_get_error : Z -> W -> Z * W;
  sys_get_timeo : bool -> Z -> W -> Z * W;
  sys_select : sets -> W -> Z * sets * W;
  WSAGetLastError : W -> Z;
  WSASetLastError : Z -> W -> W }.

Section WinHook.
Context {W : Type} `{WS : WinSock W}.

Definition hook_ioctlsocket (s cmd arg : Z) (w : W) : Z * W :=
  let '(ret, w) := sys_ioctlsocket s cmd arg w in
  let err := WSAGetLastError w in
  let w := if (ret =? 0) && (cmd =? FIONBIO) then snd (sys_set_priority s (i32 arg) w) else w in
  (ret, WSASetLastError err w).

(** [hook_WSAIoctl] passes the call on. *)
Definition hook_WSAIoctl (call : W -> Z * W) (w : W) : Z * W := call w.

Definition SetNonblocking (s : Z) (is_nonblocking : bool) (w : W) : bool * W :=
  let '(ret, w) := hook_ioctlsocket s FIONBIO (if is_nonblocking then 1 else 0) w in (ret =? 0, w).

Definition IsNonblocking (s : Z) (w : W) : bool * W :=
  let '(ret, v, w) := sys_get_priority s w in
  if negb (ret =? 0) && (WSAENOTSOCK =? WSAGetLastError w) then (true, w)
  else (negb ((if ret =? 0 then v else 0) =? 0), w).

(** ** [select] *)

Definition written (asked got : option fd_set) : option fd_set := match asked with None => None | Some _ => got end.
Definition safe_select (f : sets) (w : W) : Z * sets * W :=
  let '(ret, g, w) := sys_select f w in
  if ret <=? 0 then (ret, f, w)
  else (ret, mkSets (written (readfds f) (readfds g)) (written (writefds f) (writefds g)) (written (exceptfds f) (exceptfds g)), w).

(** The sockets of [exceptfds] that have an error. *)
Fixpoint check_errors (fds : fd_set) (e_result : fd_set) (w : W) : fd_set * W :=
  match fds with
  | [] => (e_result, w)
  | fd :: fds' =>
      let '(err, w) := sys_get_error fd w in
      check_errors fds' (if err =? 0 then e_result else FD_SET fd e_result) w
  end.

(** A round of the loop: the clock when the condition is evaluated, and what the
    rest of the program does while the coroutine sleeps.  The result lists the
    sleeps; [None] when the rounds end before the loop does. *)
Definition round : Type := (Z * (W -> W))%type.
Fixpoint select_loop (timeout_ms start_time delta_time : Z) (f : sets) (rounds : list round) (w : W) :
    option (Z * sets * list Z * W) :=
  match rounds with
  | [] => None
  | (now, others) :: rounds' =>
      if (timeout_ms =? -1) || (u64 (now - start_time) <? u64 timeout_ms) then
        let '(ret, g, w) := safe_select f w in
        if 0 <? ret then Some (ret, g, [], w) else
        let '(e_result, w) := check_errors (default [] (exceptfds g)) [] w in
        match e_result with
        | _ :: _ => Some (sz e_result, mkSets (FD_ZERO (readfds g)) (FD_ZERO (writefds g)) (Some e_result), [], w)
        | [] =>
            '(r, g, slept, w) ← select_loop timeout_ms start_time
               (if delta_time <? 16 then delta_time * 4 else delta_time) g rounds' (others w);
            Some (r, g, delta_time :: slept, w)
        end
      else Some (0, mkSets (FD_ZERO (readfds f)) (FD_ZERO (writefds f)) (FD_ZERO (exceptfds f)), [], w)
  end.

(** [direct] is the system's [select] with the caller's time-out. *)
Definition timeval_ms (timeout : option (Z * Z)) : Z :=
  match timeout with None => -1 | Some (sec, usec) => i32 (i32 (sec * 1000) + Z.quot usec 1000) end.
Definition hook_select (coroutine : bool) (direct : sets -> W -> Z * sets * W) (f : sets) (timeout : option (Z * Z))
    (start_time : Z) (rounds : list round) (w : W) : option (Z * sets * list Z * W) :=
  let timeout_ms := timeval_ms timeout in
  if negb coroutine || (timeout_ms =? 0) then let '(ret, g, w) := direct f w in Some (ret, g, [], w)
  else
    let '(ret, g, w) := safe_select f w in
    if negb (ret =? 0) then Some (ret, g, [], w) else select_loop timeout_ms start_time 1 g rounds w.

(** ** Calls on sockets

    [fn] is the system's call with its arguments; it gets the state at the
    moment of the call, since it is called twice. *)
Definition would_block (err : Z) : bool := (err =? WSAEWOULDBLOCK) || (err =? WSAEINPROGRESS).

Definition connect_mode_hook (coroutine : bool) (fn : W -> Z * W) (direct : sets -> W -> Z * sets * W) (s start_time : Z)
    (rounds : list round) (w : W) : option (Z * W) :=
  let '(is_nonblocking, w) := IsNonblocking s w in
  if negb coroutine || is_nonblocking then Some (fn w) else
  let '(ok, w) := SetNonblocking s true w in
  if negb ok then Some (fn w) else
  let '(ret, w) := fn w in
  if ret =? 0 then Some (0, w) else
  if negb (would_block (WSAGetLastError w)) then Some (ret, w) else
  '(_, g, _, w) ← hook_select coroutine direct (mkSets None (Some (FD_SET s [])) (Some (FD_SET s []))) None start_time rounds w;
  if negb (FD_ISSET s (default [] (exceptfds g))) && FD_ISSET s (default [] (writefds g))
  then let '(_, w) := SetNonblocking s false w in Some (0, w)
  else
    let '(err, w) := sys_get_error s w in
    let '(_, w) := SetNonblocking s false w in
    if negb (err =? 0) then Some (SOCKET_ERROR, WSASetLastError err w) else Some (0, w).

Definition e_nonblocking_op : Z := 1.
Definition e_no_timeout : Z := 2.
Definition flag (flags f : Z) : bool := negb (Z.land flags f =? 0).

(** [read_mode_hook] and [write_mode_hook] differ in the time-out they read and
    in the set they wait with; the second call and the waits before it. *)
Definition wait_retry (fn : W -> Z * W) (direct : sets -> W -> Z * sets * W) (f : sets) (rcv : bool) (flags s start_time : Z)
    (rounds : list round) (w : W) : option (Z * W) :=
  let '(timeout, w) := if flag flags e_no_timeout then (0, w) else sys_get_timeo rcv s w in
  let tm := (Z.quot timeout 1000, Z.rem timeout 1000 * 1000) in
  '(_, _, _, w) ← hook_select true direct f (if timeout =? 0 then None else Some tm) start_time rounds w;
  let '(ret, w) := fn w in
  let err := WSAGetLastError w in
  let '(_, w) := SetNonblocking s false w in
  Some (ret, WSASetLastError err w).

Definition mode_hook (coroutine : bool) (fn : W -> Z * W) (direct : sets -> W -> Z * sets * W) (f : sets) (rcv : bool)
    (flags s start_time : Z) (rounds : list round) (w : W) : option (Z * W) :=
  let '(is_nonblocking, w) := IsNonblocking s w in
  if negb coroutine || is_nonblocking || flag flags e_nonblocking_op then Some (fn w) else
  let '(ok, w) := SetNonblocking s true w in
  if negb ok then Some (fn w) else
  let '(ret, w) := fn w in
  if negb (ret =? -1) then let '(_, w) := SetNonblocking s false w in Some (ret, w) else
  let err := WSAGetLastError w in
  if negb (would_block err) then
    let '(_, w) := SetNonblocking s false w in Some (ret, WSASetLastError err w)
  else wait_retry fn direct f rcv flags s start_time rounds w.

Definition read_mode_hook (coroutine : bool) (fn : W -> Z * W) (direct : sets -> W -> Z * sets * W) (flags s start_time : Z)
    (rounds : list round) (w : W) : option (Z * W) :=
  mode_hook coroutine fn direct (mkSets (Some (FD_SET s [])) None None) true flags s start_time rounds w.
Definition write_mode_hook (coroutine : bool) (fn : W -> Z * W) (direct : sets -> W -> Z * sets * W) (flags s start_time : Z)
    (rounds : list round) (w : W) : option (Z * W) :=
  mode_hook coroutine fn direct (mkSets None (Some (FD_SET s [])) None) false flags s start_time rounds w.

(** The hooked functions.  [fn] is the system's function with the arguments of the
    call; [overlapped] is whether it was given an [OVERLAPPED]. *)
Section Calls.
Variables (coroutine : bool) (fn : W -> Z * W) (direct : sets -> W -> Z * sets * W) (s start_time : Z)
  (rounds : list round) (w : W).

Definition hook_connect : option (Z * W) := connect_mode_hook coroutine fn direct s start_time rounds w.
Definition hook_WSAConnect : option (Z * W) := connect_mode_hook coroutine fn direct s start_time rounds w.
Definition hook_accept : option (Z * W) := read_mode_hook coroutine fn direct e_no_timeout s start_time rounds w.
Definition hook_WSAAccept : option (Z * W) := read_mode_hook coroutine fn direct e_no_timeout s start_time rounds w.
Definition hook_recv : option (Z * W) := read_mode_hook coroutine fn direct 0 s start_time rounds w.
Definition hook_recvfrom : option (Z * W) := read_mode_hook coroutine fn direct 0 s start_time rounds w.
Definition hook_WSARecv (overlapped : bool) : option (Z * W) :=
  read_mode_hook coroutine fn direct (if overlapped then e_nonblocking_op else 0) s start_time rounds w.
Definition hook_WSARecvFrom (overlapped : bool) : option (Z * W) :=
  read_mode_hook coroutine fn direct (if overlapped then e_nonblocking_op else 0) s start_time rounds w.
Definition hook_WSARecvMsg (overlapped : bool) : option (Z * W) :=
  read_mode_hook coroutine fn direct (if overlapped then e_nonblocking_op else 0) s start_time rounds w.
Definition hook_send : option (Z * W) := write_mode_hook coroutine fn direct 0 s start_time rounds w.
Definition hook_sendto : option (Z * W) := write_mode_hook coroutine fn direct 0 s start_time rounds w.
Definition hook_WSASend (overlapped : bool) : option (Z * W) :=
  write_mode_hook coroutine fn direct (if overlapped then e_nonblocking_op else 0) s start_time rounds w.
Definition hook_WSASendTo (overlapped : bool) : option (Z * W) :=
  write_mode_hook coroutine fn direct (if overlapped then e_nonblocking_op else 0) s start_time rounds w.
Definition hook_WSASendMsg (overlapped : bool) : option (Z * W) :=
  write_mode_hook coroutine fn direct (if overlapped then e_nonblocking_op else 0) s start_time rounds w.
End Calls.

Inductive win_call : Type :=
| w_connect | w_WSAConnect
| w_accept | w_WSAAccept
| w_recv | w_recvfrom | w_WSARecv | w_WSARecvFrom | w_WSARecvMsg
| w_send | w_sendto | w_WSASend | w_WSASendTo | w_WSASendMsg.

Definition hook_call (c : win_call) (overlapped coroutine : bool) (fn : W -> Z * W) (direct : sets -> W -> Z * sets * W)
    (s start_time : Z) (rounds : list round) (w : W) : option (Z * W) :=
  match c with
  | w_connect => hook_connect coroutine fn direct s start_time rounds w
  | w_WSAConnect => hook_WSAConnect coroutine fn direct s start_time rounds w
  | w_accept => hook_accept coroutine fn direct s start_time rounds w
  | w_WSAAccept => hook_WSAAccept coroutine fn direct s start_time rounds w
  | w_recv => hook_recv coroutine fn direct s start_time rounds w
  | w_recvfrom => hook_recvfrom coroutine fn direct s start_time rounds w
  | w_WSARecv => hook_WSARecv coroutine fn direct s start_time rounds w overlapped
  | w_WSARecvFrom => hook_WSARecvFrom coroutine fn direct s start_time rounds w overlapped
  | w_WSARecvMsg => hook_WSARecvMsg coroutine fn direct s start_time rounds w overlapped
  | w_send => hook_send coroutine fn direct s start_time rounds w
  | w_sendto => hook_sendto coroutine fn direct s start_time rounds w
  | w_WSASend => hook_WSASend coroutine fn direct s start_time rounds w overlapped
  | w_WSASendTo => hook_WSASendTo coroutine fn direct s start_time rounds w overlapped
  | w_WSASendMsg => hook_WSASendMsg coroutine fn direct s start_time rounds w overlapped
  end.
End WinHook.

(** ** Installing the hooks

    [attach] is whether [XHookAttach] succeeds for a function; [WSARecvMsg] is
    missing before Windows 8.  [None] is the exit of the program. *)
Inductive hooked_function : Type := h_ioctlsocket | h_select | h_call (c : win_call).
Definition hook_list (has_recvmsg : bool) : list hooked_function :=
  [h_ioctlsocket; h_select; h_call w_connect; h_call w_WSAConnect; h_call w_accept; h_call w_WSAAccept;
   h_call w_recv; h_call w_recvfrom; h_call w_WSARecv; h_call w_WSARecvFrom] ++
  (if has_recvmsg then [h_call w_WSARecvMsg] else []) ++
  [h_call w_send; h_call w_sendto; h_call w_WSASend; h_call w_WSASendTo; h_call w_WSASendMsg].
Definition coroutine_hook_init (attach : hooked_function -> bool) (has_recvmsg : bool) : option (list hooked_function) :=
  if forallb attach (hook_list has_recvmsg) then Some (hook_list has_recvmsg) else None.

(** ** What the documentation of Winsock says

    [is_sock], [mode] (whether the system treats the socket as non-blocking) and
    [mark] (the value of [SO_GROUP_PRIORITY]) are what the hooks depend on. *)
Class WinLaws (W : Type) `{WS : WinSock W} : Type := {
  is_sock : Z -> W -> bool;
  mode : Z -> W -> bool;
  mark : Z -> W -> Z;
  wl_ioctl s v w : is_sock s w = true -> exists w', sys_ioctlsocket s FIONBIO v w = (0, w') /\
    is_sock s w' = true /\ mode s w' = negb (v =? 0) /\ mark s w' = mark s w;
  wl_set s v w : is_sock s w = true -> exists w', sys_set_priority s v w = (0, w') /\
    is_sock s w' = true /\ mode s w' = mode s w /\ mark s w' = v;
  wl_get s w : is_sock s w = true -> exists w', sys_get_priority s w = (0, mark s w, w') /\
    is_sock s w' = true /\ mode s w' = mode s w /\ mark s w' = mark s w;
  wl_last e w : WSAGetLastError (WSASetLastError e w) = e;
  wl_last_sock s e w : is_sock s (WSASetLastError e w) = is_sock s w /\ mode s (WSASetLastError e w) = mode s w /\
    mark s (WSASetLastError e w) = mark s w;
  wl_error s fd w : is_sock s (snd (sys_get_error fd w)) = is_sock s w;
  wl_timeo s r fd w : is_sock s (snd (sys_get_timeo r fd w)) = is_sock s w;
  wl_select s f w : is_sock s (snd (sys_select f w)) = is_sock s w }.

Section Facts.
Context {W : Type} `{WS : WinSock W} `{WL : !WinLaws W}.
Implicit Types (w : W) (fn : W -> Z * W).

(** A socket whose user has not asked for non-blocking mode, in the state the
    system and the hooks expect. *)
Definition blocking (s : Z) (w : W) : Prop := is_sock s w = true /\ mode s w = false /\ mark s w = 0.

Lemma set_nonblocking s b w : is_sock s w = true -> exists w', SetNonblocking s b w = (true, w') /\
  is_sock s w' = true /\ mode s w' = b /\ mark s w' = (if b then 1 else 0).
Proof.
  intros Hs. unfold SetNonblocking, hook_ioctlsocket. destruct (wl_ioctl s (if b then 1 else 0) w Hs) as (w1 & -> & H1 & H2 & H3).
  cbn [Z.eqb andb]. rewrite Z.eqb_refl. destruct (wl_set s (i32 (if b then 1 else 0)) w1 H1) as (w2 & -> & K1 & K2 & K3).
  cbn [snd]. eexists. split; [reflexivity|]. destruct (wl_last_sock s (WSAGetLastError w1) w2) as (-> & -> & ->).
  rewrite K1, K2, K3, H2. by destruct b.
Qed.

Lemma is_nonblocking s w : is_sock s w = true -> exists w', IsNonblocking s w = (negb (mark s w =? 0), w') /\
  is_sock s w' = true /\ mode s w' = mode s w /\ mark s w' = mark s w.
Proof. intros Hs. unfold IsNonblocking. destruct (wl_get s w Hs) as (w' & -> & H). by eexists. Qed.

(** ** Waiting *)

Lemma safe_select_sock s f w : is_sock s (snd (safe_select f w)) = is_sock s w.
Proof. unfold safe_select. pose proof (wl_select s f w) as H. destruct (sys_select f w) as [[ret g] w1]. cbn in H. by destruct (ret <=? 0). Qed.
Lemma check_errors_sock s fds : forall e w, is_sock s (snd (check_errors fds e w)) = is_sock s w.
Proof.
  induction fds as [|fd fds IH]; intros e w; [done|]. cbn [check_errors]. pose proof (wl_error s fd w) as H.
  destruct (sys_get_error fd w) as [err w1]. by rewrite IH.
Qed.

(** Others leave the descriptor open while the coroutine sleeps. *)
Definition keeps_open (s : Z) (rounds : list round) : Prop :=
  Forall (fun r => forall w : W, is_sock s w = true -> is_sock s (snd r w) = true) rounds.

(** What ends a wait with the sets [f]: a [select] with exactly these sets has
    just reported something, or the clock has passed the time-out. *)
Definition wait_over (f : sets) (timeout_ms start : Z) (rounds : list (round (W := W))) (w : W) : Prop :=
  (exists w0 r g, sys_select f w0 = (r, g, w) /\ r <> 0) \/
  (timeout_ms <> -1 /\ exists now others, (now, others) ∈ rounds /\ u64 timeout_ms <= u64 (now - start)).

Lemma safe_select_spec f w : exists r g g' w', safe_select f w = (r, g, w') /\ sys_select f w = (r, g', w') /\ (r <= 0 -> g = f).
Proof.
  unfold safe_select. destruct (sys_select f w) as [[r g'] w']. destruct (r <=? 0) eqn:E; zbool;
    eexists _, _, _, _; (split; [reflexivity|]; split; [reflexivity|]); [done|lia].
Qed.

Lemma select_loop_over s t0 start f : exceptfds f = None -> forall rounds d w r g sl w', keeps_open s rounds -> is_sock s w = true ->
  select_loop t0 start d f rounds w = Some (r, g, sl, w') -> is_sock s w' = true /\ wait_over f t0 start rounds w'.
Proof.
  intros He rounds. induction rounds as [|[now others] rounds IH]; intros d w r g sl w' Hk Hs Hl; [done|].
  apply Forall_cons in Hk as [Hk1 Hk]. cbn [select_loop snd] in Hl, Hk1. destruct (_ || _) eqn:Et.
  2:{ injection Hl as <- <- <- <-. split; [done|]. right. apply orb_false_iff in Et as [E1 E2]. zbool. split; [done|].
      exists now, others. split; [by left|lia]. }
  pose proof (safe_select_sock s f w) as H1. destruct (safe_select_spec f w) as (ret & g1 & g' & w1 & E & Es & Hg). rewrite E in Hl, H1.
  cbn in H1. destruct (0 <? ret) eqn:Er; zbool.
  { injection Hl as <- <- <- <-. split; [congruence|]. left. exists w, ret, g'. split; [done|lia]. }
  rewrite (Hg ltac:(lia)), He in Hl. cbn [default check_errors] in Hl.
  destruct (select_loop _ _ _ f rounds (others w1)) as [[[[r1 g2] sl1] w3]|] eqn:El; [|done]. injection Hl as <- <- <- <-.
  assert (is_sock s w1 = true) as Hs1 by congruence. destruct (IH _ _ _ _ _ _ Hk (Hk1 w1 Hs1) El) as [Ho [Hw|(Ht & n & o & Hin & Hle)]]; (split; [done|]); [by left|right].
  split; [done|]. exists n, o. split; [by right|done].
Qed.

(** The loop ends, at the latest when the clock has passed the time-out; the
    sleeps are of 1, 4 and then 16 milliseconds. *)
Lemma select_loop_ends t0 start now others : forall rounds d f w,
  0 <= t0 < 2 ^ 31 -> t0 <= now - start < 2 ^ 64 -> (now, others) ∈ rounds -> d = 1 \/ d = 4 \/ d = 16 ->
  exists r g sl w', select_loop t0 start d f rounds w = Some (r, g, sl, w') /\ Forall (fun x => x = 1 \/ x = 4 \/ x = 16) sl.
Proof.
  intros rounds. induction rounds as [|[n o] rounds IH]; intros d f w Ht Hn Hin Hd; [by apply not_elem_of_nil in Hin|].
  cbn [select_loop]. destruct ((t0 =? -1) || (u64 (n - start) <? u64 t0)) eqn:E.
  2:{ eexists _, _, _, _. split; [reflexivity|constructor]. }
  apply elem_of_cons in Hin as [[= <- <-]|Hin].
  { exfalso. rewrite (proj2 (Z.eqb_neq t0 (-1))) in E by lia. rewrite !u64_small in E by lia. cbn in E. lia. }
  destruct (safe_select f w) as [[ret g1] w1]. destruct (0 <? ret); [eexists _, _, _, _; split; [reflexivity|constructor]|].
  destruct (check_errors _ _ w1) as [er w2]. destruct er; [|eexists _, _, _, _; split; [reflexivity|constructor]].
  destruct (IH (if d <? 16 then d * 4 else d) g1 (o w2) Ht Hn Hin) as (r & g & sl & w' & -> & Hsl).
  { destruct Hd as [->|[->| ->]]; cbn; auto. }
  eexists _, _, _, _. split; [reflexivity|]. by constructor.
Qed.

(** The time-out of the socket is the one the wait uses. *)
Lemma timeval_exact t : 0 < t < 2 ^ 31 -> timeval_ms (Some (Z.quot t 1000, Z.rem t 1000 * 1000)) = t.
Proof.
  intros Ht. unfold timeval_ms. rewrite Z.quot_mul by lia. pose proof (Z.quot_rem' t 1000).
  pose proof (Z.rem_bound_pos t 1000 ltac:(lia) ltac:(lia)).
  rewrite (i32_small (Z.quot t 1000 * 1000)) by lia. rewrite i32_small; lia.
Qed.

(** ** Calls *)

(** A call that other calls go through to: it leaves the socket open. *)
Definition well_behaved (s : Z) fn : Prop := forall w, is_sock s w = true -> is_sock s (snd (fn w)) = true.

(** The time-out of the wait in milliseconds, -1 for none. *)
Definition wait_ms (rcv : bool) (flags s : Z) (w : W) : Z :=
  if flag flags e_no_timeout || (fst (sys_get_timeo rcv s w) =? 0) then -1 else fst (sys_get_timeo rcv s w).

Lemma wait_retry_eq fn direct f rcv flags s start rounds w : is_sock s w = true -> 0 <= fst (sys_get_timeo rcv s w) < 2 ^ 31 ->
  exists w1, is_sock s w1 = true /\
    wait_retry fn direct f rcv flags s start rounds w =
    ('(_, _, _, w4) ← (let '(ret, g, w2) := safe_select f w1 in
                       if negb (ret =? 0) then Some (ret, g, [], w2) else select_loop (wait_ms rcv flags s w) start 1 g rounds w2);
     let '(ret, w5) := fn w4 in Some (ret, WSASetLastError (WSAGetLastError w5) (snd (SetNonblocking s false w5)))).
Proof.
  intros Hs Ht. unfold wait_retry, wait_ms. pose proof (wl_timeo s rcv s w) as Ho. rewrite Hs in Ho.
  assert (forall k : Z * sets * list Z * W -> option (Z * W), k = (fun '(_, _, _, w4) => let '(ret, w5) := fn w4 in
    let err := WSAGetLastError w5 in let '(_, w6) := SetNonblocking s false w5 in Some (ret, WSASetLastError err w6)) ->
    forall x, k x = (let '(_, _, _, w4) := x in let '(ret, w5) := fn w4 in
      Some (ret, WSASetLastError (WSAGetLastError w5) (snd (SetNonblocking s false w5))))) as Hk.
  { intros k -> [[[? ?] ?] w4]. destruct (fn w4) as [? w5]. by destruct (SetNonblocking s false w5). }
  destruct (flag flags e_no_timeout); cbn [orb].
  - exists w. split; [done|]. cbn [Z.eqb]. unfold hook_select. cbn [timeval_ms negb orb]. change (-1 =? 0) with false. cbv iota.
    destruct (safe_select f w) as [[r g] w2]. destruct (negb (r =? 0)); cbn; [by apply (Hk _ eq_refl (r, g, [], w2))|].
    destruct (select_loop _ _ _ _ _ w2) as [x|]; [|done]. cbn. by rewrite (Hk _ eq_refl).
  - destruct (sys_get_timeo rcv s w) as [t w1]. cbn [fst snd] in *. exists w1. split; [done|].
    destruct (t =? 0) eqn:Et; zbool; unfold hook_select.
    + cbn [timeval_ms negb orb]. change (-1 =? 0) with false. cbv iota.
      destruct (safe_select f w1) as [[r g] w2]. destruct (negb (r =? 0)); cbn; [by apply (Hk _ eq_refl (r, g, [], w2))|].
      destruct (select_loop _ _ _ _ _ w2) as [x|]; [|done]. cbn. by rewrite (Hk _ eq_refl).
    + rewrite timeval_exact, (proj2 (Z.eqb_neq t 0)) by lia. cbn [negb orb].
      destruct (safe_select f w1) as [[r g] w2]. destruct (negb (r =? 0)); cbn; [by apply (Hk _ eq_refl (r, g, [], w2))|].
      destruct (select_loop _ _ _ _ _ w2) as [x|]; [|done]. cbn. by rewrite (Hk _ eq_refl).
Qed.

Lemma wait_retry_spec fn direct f rcv flags s start rounds w ret w' :
  is_sock s w = true -> keeps_open s rounds -> well_behaved s fn -> exceptfds f = None -> 0 <= fst (sys_get_timeo rcv s w) < 2 ^ 31 ->
  wait_retry fn direct f rcv flags s start rounds w = Some (ret, w') ->
  blocking s w' /\ exists w4, is_sock s w4 = true /\ wait_over f (wait_ms rcv flags s w) start rounds w4 /\
    ret = fst (fn w4) /\ WSAGetLastError w' = WSAGetLastError (snd (fn w4)).
Proof.
  intros Hs Hk Hf He Ht Hr. destruct (wait_retry_eq fn direct f rcv flags s start rounds w Hs Ht) as (w1 & Hs1 & E). rewrite E in Hr.
  pose proof (safe_select_sock s f w1) as Hss. destruct (safe_select_spec f w1) as (r & g & g' & w2 & Esel & Esys & Hg). rewrite Esel in Hr, Hss.
  cbn in Hss. assert (exists w4, is_sock s w4 = true /\ wait_over f (wait_ms rcv flags s w) start rounds w4 /\
    (let '(ret, w5) := fn w4 in Some (ret, WSASetLastError (WSAGetLastError w5) (snd (SetNonblocking s false w5)))) = Some (ret, w'))
    as (w4 & Ho & Hw & Hret).
  { destruct (negb (r =? 0)) eqn:Er; cbn in Hr.
    - exists w2. split; [congruence|]. split; [|done]. left. exists w1, r, g'. split; [done|]. intros ->. done.
    - destruct (select_loop _ _ _ g rounds w2) as [[[[r1 g1] sl] w4]|] eqn:El; [|done]. cbn in Hr. exists w4.
      apply negb_false_iff in Er. zbool. subst r. rewrite (Hg ltac:(lia)) in El.
      assert (is_sock s w2 = true) as Hs2 by congruence. by destruct (select_loop_over s _ _ f He _ _ _ _ _ _ _ Hk Hs2 El). }
  pose proof (Hf w4 Ho) as Ho5. destruct (fn w4) as [ret2 w5] eqn:Ef. cbn in Ho5.
  destruct (set_nonblocking s false w5 Ho5) as (w6 & E6 & A1 & A2 & A3). rewrite E6 in Hret. cbn in Hret. injection Hret as <- <-.
  destruct (wl_last_sock s (WSAGetLastError w5) w6) as (K1 & K2 & K3). split; [split_and!; congruence|].
  exists w4. rewrite Ef. split; [done|]. split; [done|]. split; [done|]. apply wl_last.
Qed.

Lemma wait_retry_ends fn direct f rcv flags s start rounds w now others :
  is_sock s w = true -> 0 <= fst (sys_get_timeo rcv s w) < 2 ^ 31 -> wait_ms rcv flags s w <> -1 ->
  wait_ms rcv flags s w <= now - start < 2 ^ 64 -> (now, others) ∈ rounds ->
  wait_retry fn direct f rcv flags s start rounds w <> None.
Proof.
  intros Hs Ht Hm Hn Hin. destruct (wait_retry_eq fn direct f rcv flags s start rounds w Hs Ht) as (w1 & _ & ->).
  assert (0 <= wait_ms rcv flags s w < 2 ^ 31) as Hr by (unfold wait_ms in *; destruct (_ || _); lia).
  destruct (safe_select f w1) as [[r g] w2]. destruct (negb (r =? 0)); cbn; [by destruct (fn w2)|].
  destruct (select_loop_ends (wait_ms rcv flags s w) start now others rounds 1 g w2) as (r1 & g1 & sl & w6 & -> & _); try done; [by left|].
  cbn. by destruct (fn w6).
Qed.

Definition not_connect (c : win_call) : Prop := match c with w_connect | w_WSAConnect => False | _ => True end.

(** The flags a call passes on. *)
Definition call_flags (c : win_call) (overlapped : bool) : Z :=
  match c with
  | w_accept | w_WSAAccept => e_no_timeout
  | w_WSARecv | w_WSARecvFrom | w_WSARecvMsg | w_WSASend | w_WSASendTo | w_WSASendMsg =>
      if overlapped then e_nonblocking_op else 0
  | _ => 0
  end.

Lemma call_flags_blocking c : flag (call_flags c false) e_nonblocking_op = false.
Proof. by destruct c. Qed.

(** [hook_call] for the calls that read and write. *)
Definition call_sets (c : win_call) (s : Z) : sets * bool :=
  match c with
  | w_send | w_sendto | w_WSASend | w_WSASendTo | w_WSASendMsg => (mkSets None (Some (FD_SET s [])) None, false)
  | _ => (mkSets (Some (FD_SET s [])) None None, true)
  end.
Lemma hook_call_mode c o co fn direct s start rounds w : not_connect c ->
  hook_call c o co fn direct s start rounds w =
  mode_hook co fn direct (fst (call_sets c s)) (snd (call_sets c s)) (call_flags c o) s start rounds w.
Proof. by destruct c. Qed.

(** The state in which the hook calls the system for the first time. *)
Definition entered (s : Z) (w : W) : W := snd (SetNonblocking s true (snd (IsNonblocking s w))).

(** The first try, when the call is a coroutine's on a blocking socket. *)
Lemma first_try fn direct f rcv flags s start rounds w :
  blocking s w -> flag flags e_nonblocking_op = false ->
  is_sock s (entered s w) = true /\ mode s (entered s w) = true /\
    mode_hook true fn direct f rcv flags s start rounds w =
    (let '(ret, w2) := fn (entered s w) in
     if negb (ret =? -1) then Some (ret, snd (SetNonblocking s false w2))
     else if negb (would_block (WSAGetLastError w2))
     then Some (ret, WSASetLastError (WSAGetLastError w2) (snd (SetNonblocking s false w2)))
     else wait_retry fn direct f rcv flags s start rounds w2).
Proof.
  intros (Hs & Hm & Hk) Hfl. destruct (is_nonblocking s w Hs) as (w0 & E0 & A1 & A2 & A3).
  destruct (set_nonblocking s true w0 A1) as (w1 & E1 & B1 & B2 & B3). unfold entered. rewrite E0. cbn [snd]. rewrite E1. split_and!; try done.
  unfold mode_hook. rewrite E0, Hk, Hfl. cbn [Z.eqb negb orb]. rewrite E1. cbn [negb]. cbn [snd]. destruct (fn w1) as [ret w2].
  destruct (SetNonblocking s false w2). done.
Qed.

(** C31: Hooked calls on blocking sockets behave as blocking calls.  A read, write
    or accept of a coroutine on a blocking socket, whatever other coroutines do
    meanwhile but closing it, first calls the system in non-blocking mode.
    (1) When that call does not report that it would block, its result, and its
    error code if it failed, is returned at once.
    (2) Otherwise the hook waits, until a [select] on exactly this socket, for
    reading or for writing as the call needs, reports something, or until the
    socket's time-out has passed, which an accept has not; and what is returned,
    with its error code, is the result of a second call of the system in the state
    the wait ended in.
    (3) In each case the socket is back in blocking mode for the system and for the
    hooks.
    (4) With a time-out the call returns at the latest with the first look at the
    clock after the time-out has passed. *)
Theorem win_blocking_call c fn direct s start rounds w :
  not_connect c -> blocking s w -> well_behaved s fn -> keeps_open s rounds ->
  let w1 := entered s w in
  mode s w1 = true /\
    let '(ret, w2) := fn w1 in
    let call := hook_call c false true fn direct s start rounds w in
    let timeout_ms := wait_ms (snd (call_sets c s)) (call_flags c false) s w2 in
    if (ret =? -1) && would_block (WSAGetLastError w2) then
      0 <= fst (sys_get_timeo (snd (call_sets c s)) s w2) < 2 ^ 31 ->
      (forall ret' w', call = Some (ret', w') -> blocking s w' /\ exists w4, is_sock s w4 = true /\
         wait_over (fst (call_sets c s)) timeout_ms start rounds w4 /\
         ret' = fst (fn w4) /\ WSAGetLastError w' = WSAGetLastError (snd (fn w4))) /\
      (forall now others, timeout_ms <> -1 -> timeout_ms <= now - start < 2 ^ 64 -> (now, others) ∈ rounds -> call <> None)
    else exists w', call = Some (ret, w') /\ blocking s w' /\ (ret = -1 -> WSAGetLastError w' = WSAGetLastError w2).
Proof.
  intros Hc Hb Hf Hk w1. rewrite hook_call_mode by done.
  destruct (first_try fn direct (fst (call_sets c s)) (snd (call_sets c s)) _ s start rounds w Hb (call_flags_blocking c)) as (Hs1 & Hm1 & ->).
  split; [done|]. fold w1 in Hs1, Hm1 |- *. pose proof (Hf w1 Hs1) as Hs2. destruct (fn w1) as [ret w2] eqn:Ef. cbn in Hs2.
  destruct (set_nonblocking s false w2 Hs2) as (w3 & E3 & A1 & A2 & A3). rewrite E3. cbn [snd fst].
  destruct (ret =? -1) eqn:E1; cbn [andb negb].
  2:{ eexists. split; [reflexivity|]. split; [done|]. intros ->. done. }
  zbool. destruct (would_block (WSAGetLastError w2)) eqn:E2; cbn [negb].
  - intros Ht. split; [intros ret' w' Hr|intros now others Hm Hn Hin].
    + eapply wait_retry_spec; [done|done|done| |exact Ht|exact Hr]. by destruct c.
    + by eapply wait_retry_ends.
  - eexists. split; [by rewrite E1|]. destruct (wl_last_sock s (WSAGetLastError w2) w3) as (K1 & K2 & K3).
    split; [split_and!; congruence|]. intros _. apply wl_last.
Qed.

(** ** Behaviour that was not intended *)

(** [connect] forgets to put the mode back when it does not have to wait: after a
    connection that is made at once, or refused at once, the socket is
    non-blocking for the system and for the hooks. *)
Lemma connect_stays_nonblocking fn direct s start rounds w :
  blocking s w -> (forall w, is_sock s w = true ->
    mode s (snd (fn w)) = mode s w /\ mark s (snd (fn w)) = mark s w /\
    (fst (fn w) = 0 \/ would_block (WSAGetLastError (snd (fn w))) = false)) ->
  exists ret w', hook_call w_connect false true fn direct s start rounds w = Some (ret, w') /\ mode s w' = true /\ mark s w' = 1.
Proof.
  intros (Hs & Hm & Hk) Hf. cbn [hook_call]. unfold hook_connect, connect_mode_hook.
  destruct (is_nonblocking s w Hs) as (w0 & -> & A1 & A2 & A3). rewrite Hk. cbn [Z.eqb negb orb].
  destruct (set_nonblocking s true w0 A1) as (w1 & -> & B1 & B2 & B3). cbn [negb].
  destruct (Hf w1 B1) as (C1 & C2 & C3). destruct (fn w1) as [ret w2]. cbn in C1, C2, C3.
  destruct (ret =? 0) eqn:E; [eexists _, _; split; [reflexivity|]; split; congruence|].
  destruct C3 as [->| ->]; [done|]. eexists _, _. split; [reflexivity|]. split; congruence.
Qed.

(** While a coroutine waits in a call, the socket counts as non-blocking for the
    others: their calls do not wait. *)
Lemma second_caller_not_blocked c fn direct s start rounds w w1 b :
  not_connect c -> blocking s w -> SetNonblocking s true w = (b, w1) ->
  exists w2, hook_call c false true fn direct s start rounds w1 = Some (fn w2).
Proof.
  intros Hc (Hs & _ & _) E. destruct (set_nonblocking s true w Hs) as (w1' & E' & H1 & H2 & H3).
  rewrite E' in E. injection E as _ <-. rewrite hook_call_mode by done. unfold mode_hook.
  destruct (is_nonblocking s w1' H1) as (w2 & -> & _). rewrite H3. cbn. by eexists.
Qed.

(** An error of [select] in the loop is taken for no event: without a time-out the
    loop goes on for as long as the error does. *)
Lemma select_error_spins start f w rounds :
  exceptfds f = None -> (forall w, fst (fst (sys_select f w)) = -1) ->
  forall d, select_loop (-1) start d f rounds w = None.
Proof.
  intros He Hs. revert w. induction rounds as [|[now others] rounds IH]; intros w d; [done|]. cbn [select_loop].
  change (-1 =? -1) with true. cbn [orb]. unfold safe_select. specialize (Hs w) as Hw. destruct (sys_select f w) as [[ret g] w1]. cbn in Hw. subst ret.
  cbn. rewrite He. cbn. by rewrite IH.
Qed.
End Facts.

(** ** A small Winsock

    One socket, with its mode, its [SO_GROUP_PRIORITY], its pending error, its
    receive time-out and whether data is ready; [getsockopt(SO_ERROR)] clears the
    error. *)
Record toy_sock : Type := mkToy {
  t_mode : bool; t_mark : Z; t_err : Z; t_timeo : Z; t_ready : bool; t_last : Z }.
Definition toy_set_err (e : Z) (w : toy_sock) : toy_sock :=
  mkToy (t_mode w) (t_mark w) e (t_timeo w) (t_ready w) (t_last w).
Definition toy_last (e : Z) (w : toy_sock) : toy_sock :=
  mkToy (t_mode w) (t_mark w) (t_err w) (t_timeo w) (t_ready w) e.
#[global] Instance toy_winsock : WinSock toy_sock := {
  sys_ioctlsocket _ cmd v w :=
    (0, if cmd =? FIONBIO then mkToy (negb (v =? 0)) (t_mark w) (t_err w) (t_timeo w) (t_ready w) (t_last w) else w);
  sys_set_priority _ v w := (0, mkToy (t_mode w) v (t_err w) (t_timeo w) (t_ready w) (t_last w));
  sys_get_priority _ w := (0, t_mark w, w);
  sys_get_error _ w := (t_err w, toy_set_err 0 w);
  sys_get_timeo _ _ w := (t_timeo w, w);
  sys_select f w := (if t_ready w then 1 else 0, f, w);
  WSAGetLastError := t_last;
  WSASetLastError := toy_last }.
#[global] Instance toy_winlaws : WinLaws toy_sock.
Proof.
  refine (Build_WinLaws toy_sock _ (fun _ _ => true) (fun _ => t_mode) (fun _ => t_mark) _ _ _ _ _ _ _ _);
    intros; try done; eexists; (split; [reflexivity|]); done.
Defined.

(** A receive: data when there is some, otherwise the call would block. *)
Definition toy_recv (w : toy_sock) : Z * toy_sock := if t_ready w then (5, w) else (-1, toy_last WSAEWOULDBLOCK w).
Definition toy_direct (f : sets) (w : toy_sock) : Z * sets * toy_sock := sys_select f w.
Definition toy_arrive (w : toy_sock) : toy_sock := mkToy (t_mode w) (t_mark w) (t_err w) (t_timeo w) true (t_last w).
Definition demo_win_rounds : list (round (W := toy_sock)) := [(100, fun w => w); (101, toy_arrive); (105, fun w => w); (200, fun w => w)].
Definition demo_sock : toy_sock := mkToy false 0 0 50 false 0.

Lemma win_blocking_call_witness :
  exists w', hook_call w_recv false true toy_recv toy_direct 3 100 demo_win_rounds demo_sock = Some (5, w') /\ blocking 3 w'.
Proof.
  destruct (win_blocking_call w_recv toy_recv toy_direct 3 100 demo_win_rounds demo_sock) as [_ H].
  - exact I.
  - split_and!; reflexivity.
  - intros w _. reflexivity.
  - unfold keeps_open, demo_win_rounds. repeat constructor.
  - destruct H as [H _]; [vm_compute; split; [discriminate|reflexivity]|].
    eexists. split; [reflexivity|]. exact (proj1 (H _ _ eq_refl)).
Defined.

(** A connection that fails while the coroutine waits is reported as made: the
    hooked [select] has read, and so cleared, the error that [connect] looks for. *)
Definition toy_connect (w : toy_sock) : Z * toy_sock := (SOCKET_ERROR, toy_last WSAEWOULDBLOCK w).
Lemma connect_failure_hidden :
  exists w', hook_call w_connect false true toy_connect toy_direct 3 100 [(100, toy_set_err 10061); (101, fun w => w)] demo_sock =
    Some (0, w').
Proof. eexists. vm_compute. reflexivity. Qed.
