(* ===== verification/SchedulerRun.v ===== *)
(** * One pass of the scheduler

    [Scheduler::Run] and [DoTimer] of [libgo/scheduler.cpp]: a thread runs its
    coroutines, calls the timers that are due, wakes the sleepers that are due,
    looks for I/O events and sleeps when there was nothing to do.  The machine
    joins the states of [Scheduler.v], [Timer.v], [SleepWait.v] and
    [FdContext.v]; tasks that a sleeper's timer or an event makes runnable are
    given to [AddTaskRunnable]. *)
From S2P Require Import Prelude StdString StdMap Timer SleepWait Scheduler IoWait FdContext.

(** ** [DoTimer]

    What a callback does is a function of the timer on the manager and on the
    rest of the program's state. *)
Section DoTimer.
Context {X : Type}.
Variable cb : nat -> CoTimerMgr -> X -> CoTimerMgr * X.

(** The calls of one round; [fired] lists the callbacks that ran. *)
Fixpoint call_timers (ids : list nat) (m : CoTimerMgr) (x : X) (fired : list nat) : CoTimerMgr * X * list nat :=
  match ids with
  | [] => (m, x, fired)
  | id :: ids' =>
      match timers_ m !! id with
      | None => call_timers ids' m x fired
      | Some t =>
          let '(ran, t') := CoTimer_call false t in
          let m1 := set_timer id t' m in
          if ran then let '(m2, x2) := cb id m1 x in call_timers ids' m2 x2 (fired ++ [id])
          else call_timers ids' m1 x fired
      end
  end.

(** [limit] is [timer_handle_every_cycle]; each round reads the clocks, or finds
    the manager's lock taken. *)
Fixpoint DoTimer (limit : Z) (rounds : list (bool * clocks)) (c next_ms : Z) (m : CoTimerMgr) (x : X)
    (fired : list nat) : outcome (Z * Z * CoTimerMgr * X * list nat) :=
  if (limit =? 0) || (c <? limit) then
    match rounds with
    | [] => Fuel
    | (locked, k) :: rounds' =>
        let '(timers, next_ms, m) := GetExpired locked 128 k m in
        match timers with
        | [] => Ret (c, next_ms, m, x, fired)
        | _ :: _ =>
            let '(m, x, fired) := call_timers timers m x fired in
            DoTimer limit rounds' (u32 (c + sz timers)) next_ms m x fired
        end
    end
  else Ret (c, next_ms, m, x, fired).

(** ** Callbacks run once *)

Definition spent (id : nat) (m : CoTimerMgr) : Prop := exists t, timers_ m !! id = Some t /\ active_ t = false.

Lemma spent_step m m' id : mgr_step m m' -> spent id m -> spent id m'.
Proof.
  intros Hs (t & Ht & Ha).
  assert (forall i b k, timers_ m !! i = Some (mkTimer b k) -> spent id (cancel_entry i (set_timer i (mkTimer false k) m))) as Hcancel.
  { intros i b k Hi. assert (exists t, timers_ (set_timer i (mkTimer false k) m) !! id = Some t /\ active_ t = false) as (u & Hu & Hau).
    { cbn. destruct (decide (i = id)) as [->|Hne]; [|exists t; by rewrite list_lookup_insert_ne].
      eexists. rewrite list_lookup_insert_eq by (by eapply lookup_lt_Some). done. }
    unfold cancel_entry. destruct (timers_ (set_timer i _ m) !! i) as [v|] eqn:Ev; [|by exists u].
    assert (spent id (mkMgr [] [] 0 0 (<[i := set_token tk_none v]> (timers_ (set_timer i (mkTimer false k) m))))) as (w & Hw).
    { unfold spent. cbn [timers_]. destruct (decide (i = id)) as [->|Hne]; [|exists u; by rewrite list_lookup_insert_ne].
      exists (set_token tk_none v). rewrite list_lookup_insert_eq by (by eapply lookup_lt_Some). split; [done|]. cbn.
      rewrite Hu in Ev. by injection Ev as <-. }
    destruct (token_state_ v); [by exists u|by exists w..]. }
  destruct Hs as [tp m|tp m|busy i m|i m|n c m|busy i m u u' ran Hu Hc].
  - exists t. split; [|done]. cbn. by apply lookup_app_l_Some.
  - exists t. split; [|done]. cbn. by apply lookup_app_l_Some.
  - unfold Cancel, CoTimer_Cancel. destruct (timers_ m !! i) as [[b k]|] eqn:Ei; [|by exists t].
    destruct busy; [by exists t|]. destruct b; cbn; [by eapply Hcancel|by exists t].
  - unfold BlockCancel, CoTimer_BlockCancel. destruct (timers_ m !! i) as [[b k]|] eqn:Ei; [|by exists t].
    destruct b; cbn; [by eapply Hcancel|by exists t].
  - destruct (GetExpired false n c m) as [[ids ms] m'] eqn:E. cbn.
    destruct (get_expired_inv _ _ _ _ _ _ E) as (ts & ts' & _ & _ & _ & _ & Hts & _).
    destruct (clear_tokens_live ids _ _ _ Ht) as (t' & Ht' & Ha'). exists t'. rewrite Hts. by rewrite Ha'.
  - exists (if decide (i = id) then u' else t). cbn. destruct (decide (i = id)) as [->|Hne].
    + rewrite list_lookup_insert_eq by (by eapply lookup_lt_Some). split; [done|]. unfold CoTimer_call in Hc.
      rewrite Ht in Hu. injection Hu as <-. rewrite Ha in Hc. destruct busy; by injection Hc as <- <-.
    + by rewrite list_lookup_insert_ne.
Qed.

Lemma spent_star m m' id : star mgr_step m m' -> spent id m -> spent id m'.
Proof. induction 1 as [|a b c H _ IH]; [done|]. intros Hs. by eapply IH, spent_step. Qed.

(** Callbacks use the manager through its operations. *)
Hypothesis cb_steps : forall id m x, star mgr_step m (fst (cb id m x)).

Definition once (m : CoTimerMgr) (fired : list nat) : Prop := NoDup fired /\ Forall (fun id => spent id m) fired.

Lemma once_star m m' fired : star mgr_step m m' -> once m fired -> once m' fired.
Proof. intros Hs [Hn Hf]. split; [done|]. eapply Forall_impl; [exact Hf|]. intros id. by apply spent_star. Qed.

Lemma call_timers_once ids : forall m x fired m' x' fired',
  call_timers ids m x fired = (m', x', fired') -> once m fired -> star mgr_step m m' /\ once m' fired'.
Proof.
  induction ids as [|id ids IH]; intros m x fired m' x' fired'; cbn [call_timers].
  { intros [= <- <- <-] Ho. split; [apply star_refl|done]. }
  destruct (timers_ m !! id) as [t|] eqn:Et; [|apply IH]. destruct (CoTimer_call false t) as [r t'] eqn:Ec.
  assert (mgr_step m (set_timer id t' m)) as Hstep by (by eapply ms_call). intros Hc Ho. destruct r.
  - pose proof (cb_steps id (set_timer id t' m) x) as Hcb. destruct (cb id (set_timer id t' m) x) as [m2 x2]. cbn in Hcb.
    assert (star mgr_step m m2) as Hm2 by (by eapply star_step). destruct (IH _ _ _ _ _ _ Hc) as [Hs Ho'].
    + destruct Ho as [Hn Hf]. unfold CoTimer_call in Ec. destruct t as [[] k]; [|done]. injection Ec as <-. split.
      * apply nodup_snoc; [done|]. intros Hin. rewrite Forall_forall in Hf. destruct (Hf _ Hin) as (u & Hu & Ha).
        rewrite Et in Hu. by injection Hu as <-.
      * apply Forall_app. split; [eapply Forall_impl; [exact Hf|]; intros i; by apply spent_star|].
        apply Forall_singleton. eapply spent_star; [exact Hcb|]. eexists. cbn.
        rewrite list_lookup_insert_eq by (by eapply lookup_lt_Some). done.
    + split; [by eapply star_trans|done].
  - destruct (IH _ _ _ _ _ _ Hc) as [Hs Ho']; [by eapply once_star; [apply star_one|]|]. split; [by eapply star_step|done].
Qed.

Definition none_due (lo_sys lo_sdy : Z) (m : CoTimerMgr) : Prop :=
  (forall d id, (d, id) ∈ system_deadlines_ m -> lo_sys < d) /\ (forall d id, (d, id) ∈ steady_deadlines_ m -> lo_sdy < d).

Lemma DoTimer_spec limit lo_sys lo_sdy rounds : forall c next m x fired c' next' m' x' fired',
  DoTimer limit rounds c next m x fired = Ret (c', next', m', x', fired') ->
  mgr_ok m -> once m fired -> Forall (fun r => lo_sys <= c_sys (snd r) /\ lo_sdy <= c_sdy (snd r)) rounds ->
  star mgr_step m m' /\ once m' fired' /\ (limit = 0 \/ c' < limit -> lock_free rounds -> none_due lo_sys lo_sdy m').
Proof.
  induction rounds as [|[locked k] rounds IH]; intros c next m x fired c' next' m' x' fired'; cbn [DoTimer].
  { destruct ((limit =? 0) || (c <? limit)) eqn:El; [done|]. intros [= <- <- <- <- <-] Hm Ho _.
    split; [apply star_refl|]. split; [done|]. intros Hlim. exfalso. lia. }
  destruct ((limit =? 0) || (c <? limit)) eqn:El.
  2:{ intros [= <- <- <- <- <-] Hm Ho _. split; [apply star_refl|]. split; [done|]. intros Hlim. exfalso. lia. }
  intros Hd Hm Ho Hr. apply Forall_cons in Hr as [(Hsys & Hsdy) Hr]. cbn in Hsys, Hsdy. destruct locked.
  { cbn in Hd. injection Hd as <- <- <- <- <-. split; [apply star_refl|]. split; [done|]. by intros _ [? _]%Forall_cons. }
  destruct (GetExpired false 128 k m) as [[ids ms] m1] eqn:E.
  assert (mgr_step m m1) as Hstep by (pose proof (ms_expired 128 k m) as H; by rewrite E in H).
  pose proof (mgr_step_ok _ _ Hstep Hm) as Hm1. destruct ids as [|id ids].
  - injection Hd as <- <- <- <- <-. split; [by apply star_one|]. split; [by eapply once_star; [apply star_one|]|]. intros _ _.
    destruct (get_expired_inv _ _ _ _ _ _ E) as (ts & ts' & _ & _ & _ & _ & _ & _ & _ & _ & Hf).
    destruct (Hf ltac:(cbn; lia)) as [L1 L2]. split; intros d i Hin.
    + pose proof (left_future _ _ _ _ (m_sys _ Hm1) L1 Hin). lia.
    + pose proof (left_future _ _ _ _ (m_sdy _ Hm1) L2 Hin). lia.
  - destruct (call_timers (id :: ids) m1 x fired) as [[m2 x2] fired2] eqn:Ec.
    destruct (call_timers_once _ _ _ _ _ _ _ Ec) as [Hs2 Ho2]; [by eapply once_star; [apply star_one|]|].
    assert (mgr_ok m2) as Hm2 by (eapply star_invariant; [|exact Hs2|exact Hm1]; intros ??; apply mgr_step_ok).
    destruct (IH _ _ _ _ _ _ _ _ _ _ Hd Hm2 Ho2 Hr) as (Hs3 & Ho3 & Hn). split; [|split; [done|]].
    + eapply star_step; [exact Hstep|]. by eapply star_trans.
    + intros Hlim [_ Hfree]%Forall_cons. by apply Hn.
Qed.

(** The loop ends: with callbacks that add no timer, once the clocks were read
    more often than timers are pending. *)
Lemma call_timers_passive ids : (forall id m x, timers_ (fst (cb id m x)) = timers_ m /\ Size (fst (cb id m x)) = Size m) ->
  forall m x fired, Size (fst (fst (call_timers ids m x fired))) = Size m.
Proof.
  intros Hcb. induction ids as [|id ids IH]; intros m x fired; cbn [call_timers]; [done|].
  destruct (timers_ m !! id) as [t|]; [|apply IH]. destruct (CoTimer_call false t) as [r t'].
  destruct r; [|by rewrite IH]. destruct (Hcb id (set_timer id t' m) x) as [_ Hs].
  destruct (cb id (set_timer id t' m) x) as [m2 x2]. cbn in Hs. by rewrite IH, Hs.
Qed.

Lemma DoTimer_ends limit rounds :
  (forall id m x, timers_ (fst (cb id m x)) = timers_ m /\ Size (fst (cb id m x)) = Size m) ->
  forall c next m x fired, Size m < Z.of_nat (length rounds) -> returns (DoTimer limit rounds c next m x fired).
Proof.
  intros Hcb. induction rounds as [|[locked k] rounds IH]; intros c next m x fired Hl; cbn [DoTimer].
  { unfold Size in Hl. cbn in Hl. lia. }
  destruct ((limit =? 0) || (c <? limit)); [|by eexists].
  destruct (GetExpired locked 128 k m) as [[ids ms] m1] eqn:E. destruct ids as [|id ids]; [by eexists|].
  pose proof (call_timers_passive (id :: ids) Hcb m1 x fired) as Hs.
  destruct (call_timers (id :: ids) m1 x fired) as [[m2 x2] fired2]. cbn in Hs. apply IH. rewrite Hs.
  destruct locked; [by injection E|]. destruct (get_expired_inv _ _ _ _ _ _ E) as (ts & ts' & [T1 _] & [T2 _] & Hids & _).
  unfold Size in *. rewrite T1, T2, !length_app in Hl. apply (f_equal length) in Hids.
  rewrite length_app, !length_map in Hids. cbn in Hids, Hl. lia.
Qed.

End DoTimer.

(** ** [Scheduler::Run] *)

Definition erf_do_coroutines : Z := 1.
Definition erf_do_timer : Z := 2.
Definition erf_do_sleeper : Z := 4.
Definition erf_do_eventloop : Z := 8.
Definition erf_idle_cpu : Z := 16.
Definition erf_all : Z := 2147483647.

Record CoroutineOptions : Type := mkOptions {
  max_sleep_ms : Z; timer_handle_every_cycle : Z; epoll_event_size : Z }.
Definition default_options : CoroutineOptions := mkOptions 20 0 10240.

Record ThreadLocalInfo : Type := mkInfo { thread_id : Z; sleep_ms : Z; proc : option nat }.
Definition ThreadLocalInfo_new : ThreadLocalInfo := mkInfo (-1) 0 None.

Section Run.
Context {W : Type} `{K : Kernel W}.

Record machine : Type := mkMachine {
  m_sched : Scheduler; m_timers : CoTimerMgr; m_sleep : SleepWait; m_fds : fds (W := W);
  m_info : ThreadLocalInfo; m_thread_id_ : Z }.
Definition rest : Type := (Scheduler * SleepWait * fds (W := W))%type.

(** What a pass meets: the value of [rand], what the coroutines do (see
    [Scheduler.v]) and what they did to timers, sleepers and descriptors, the
    callbacks of the timers, the clocks, and the results of [epoll_wait]. *)
Record pass : Type := mkPass {
  p_rand : Z; p_acts : list activation; p_acts' : list activation;
  p_effects : CoTimerMgr * SleepWait * fds (W := W) -> CoTimerMgr * SleepWait * fds (W := W);
  p_cb : nat -> CoTimerMgr -> rest -> CoTimerMgr * rest;
  p_rounds : list (bool * clocks); p_clocks : list (bool * clocks); p_epoll : list epoll_result }.

(** The calls of [AddTaskRunnable] for the tasks that were woken. *)
Definition make_runnable (me : nat) (tasks : list nat) (s : Scheduler) : Scheduler :=
  fold_left (fun s tk => AddTaskRunnable tk egod_default (Some me) 0 s) tasks s.

(** The first pass of a thread gives it a number and a processer. *)
Definition thread_init (m : machine) : nat * machine :=
  if thread_id (m_info m) <? 0 then
    let id := i32 (m_thread_id_ m) in
    (Z.to_nat id,
     mkMachine (GetProcesser (Z.to_nat id) (m_sched m)) (m_timers m) (m_sleep m) (m_fds m)
       (mkInfo id (sleep_ms (m_info m)) (Some (Z.to_nat id))) (u32 (m_thread_id_ m + 1)))
  else (default O (proc (m_info m)), m).

Definition flag (flags f : Z) : bool := has flags f.

(** The parts of a pass; the counts and the times to the next timer and sleeper
    are [max_sleep_ms] and 0 when the flag is not set. *)
Definition pass_coroutines (flags : Z) (me : nat) (i : pass) (s : Scheduler)
    (r : CoTimerMgr * SleepWait * fds (W := W)) : outcome (Z * Scheduler * (CoTimerMgr * SleepWait * fds (W := W))) :=
  if flag flags erf_do_coroutines then
    match DoRunnable me (enable_work_steal s) (p_rand i) (p_acts i) (p_acts' i) s with
    | None => Fuel
    | Some (inr e, _) => Throw e
    | Some (inl n, s') => Ret (n, s', p_effects i r)
    end
  else Ret (0, s, r).

Definition pass_timers (o : CoroutineOptions) (flags : Z) (i : pass) (t : CoTimerMgr) (x : rest) :
    outcome (Z * Z * CoTimerMgr * rest) :=
  if flag flags erf_do_timer then
    '(tm, next, t, x, _) ← DoTimer (p_cb i) (timer_handle_every_cycle o) (p_rounds i) 0 (max_sleep_ms o) t x [];
    Ret (tm, next, t, x)
  else Ret (0, max_sleep_ms o, t, x).

Definition pass_sleepers (o : CoroutineOptions) (flags : Z) (me : nat) (i : pass) (x : rest) :
    outcome (Z * Z * rest) :=
  let '(s, sl, g) := x in
  if flag flags erf_do_sleeper then
    '(n, next, sl') ← SleepWait.WaitLoop (p_clocks i) 0 sl;
    Ret (n, next, (make_runnable me (drop (length (SleepWait.woken sl)) (SleepWait.woken sl')) s, sl', g))
  else Ret (0, max_sleep_ms o, x).

Definition pass_events (o : CoroutineOptions) (flags : Z) (me : nat) (i : pass) (x : rest) : outcome (Z * rest) :=
  let '(s, sl, g) := x in
  if flag flags erf_do_eventloop then
    match FdContext.WaitLoop (epoll_event_size o) (p_epoll i) g with
    | Some (Some n, g') =>
        Ret (n, (make_runnable me (drop (length (io_runnable (fd_iow g))) (io_runnable (fd_iow g'))) s, sl, g'))
    | Some (None, _) => Fuel
    | None => Undef
    end
  else Ret (-1, x).

(** The result: the number of tasks run, the time given to [epoll_wait] and the
    time slept when idle. *)
Definition Run (o : CoroutineOptions) (flags : Z) (i : pass) (m : machine) : outcome (Z * Z * Z * machine) :=
  let '(me, m) := thread_init m in
  '(run, s, (t, sl, g)) ← pass_coroutines flags me i (m_sched m) (m_timers m, m_sleep m, m_fds m);
  '(tm, timer_next, t, x) ← pass_timers o flags i t (s, sl, g);
  '(sc, sleep_next, x) ← pass_sleepers o flags me i x;
  let next_ms := Run_next_ms timer_next sleep_next in
  let wait := if flag flags erf_do_eventloop then Run_wait_ms (max_sleep_ms o) run tm sc next_ms else 0 in
  '(ep, x) ← pass_events o flags me i x;
  let idle := flag flags erf_idle_cpu && (run =? 0) && (ep <=? 0) && (tm =? 0) && (sc =? 0) in
  let slept := if idle && (ep =? -1) then Run_idle_sleep (max_sleep_ms o) (sleep_ms (m_info m)) next_ms else 0 in
  let info := if idle then
                if ep =? -1 then mkInfo (thread_id (m_info m)) slept (proc (m_info m)) else m_info m
              else if flag flags erf_idle_cpu then mkInfo (thread_id (m_info m)) 1 (proc (m_info m)) else m_info m in
  let '(s, sl, g) := x in
  Ret (run, wait, slept, mkMachine s t sl g info (m_thread_id_ m)).

(** ** Woken tasks are queued *)

Definition sched_valid (me : nat) (s : Scheduler) : Prop :=
  (me < length (run_proc_list_ s))%nat /\
  forall tk p, proc_ s tk = Some p -> (p < length (run_proc_list_ s))%nat.

Lemma add_runnable_valid me tk s :
  sched_valid me s -> sched_valid me (AddTaskRunnable tk egod_default (Some me) 0 s).
Proof.
  intros [H1 H2].
  assert (forall i s1, sched_valid me s1 -> sched_valid me (proc_push i tk s1)) as Hpush.
  { intros i s1 [A B]. split; cbn; rewrite length_alter; auto. }
  assert (forall i s1, sched_valid me s1 -> sched_valid me (GetProcesser i s1)) as Hget.
  { intros i s1 [A B]. split; cbn; rewrite length_app; [lia|]. intros t p Hp. specialize (B t p Hp). lia. }
  unfold AddTaskRunnable. destruct (proc_ s tk); [by apply Hpush|]. cbn. destruct (enable_work_steal s); cbn.
  - by apply Hpush.
  - apply Hpush, Hget. done.
Qed.

Lemma make_runnable_spec me tasks : forall s, sched_valid me s ->
  all_tasks (make_runnable me tasks s) ≡ₚ all_tasks s ++ tasks /\ sched_valid me (make_runnable me tasks s).
Proof.
  unfold make_runnable. induction tasks as [|tk tasks IH]; intros s Hs; cbn; [by rewrite app_nil_r|].
  destruct (IH _ (add_runnable_valid me tk s Hs)) as [Hp Hv]. split; [|done]. rewrite Hp, add_runnable_spec; [solve_Permutation|].
  destruct Hs as [H1 H2]. split; [apply H2|]. by intros p [= <-].
Qed.

Lemma sleep_next_pos cs : forall c s r, SleepWait.WaitLoop cs c s = Ret r -> 0 <= snd (fst r).
Proof.
  induction cs as [|[locked k] cs IH]; intros c s r Hr; [done|]. cbn [SleepWait.WaitLoop] in Hr.
  destruct (GetExpired locked 128 k (timer_mgr_ s)) as [[ids ms] m] eqn:E. destruct ids as [|id ids].
  - injection Hr as <-. cbn. unfold GetExpired in E. repeat case_match; simplify_eq; unfold GetNextTriggerTime; lia.
  - destruct (run_timers _ _) as [s2| | |]; try done. cbn in Hr. by eapply IH.
Qed.

(** ** Whom the events wake *)

(** The tasks of the sentries [ns] that are blocked in the queue of waiting
    sentries and not triggered yet. *)
Definition awaited (iw : IoWait) (n : nat) : option nat :=
  s ← sentries iw !! n;
  if bool_decide (io_state_ s = IoWait.pending) && bool_decide (n ∈ wait_io_sentries_ iw) then Some (task_ptr_ s) else None.

Lemma trigger_awaited n iw : io_runnable (IOBlockTriggered n iw) = io_runnable iw ++ option_list (awaited iw n) /\
  forall m, m <> n -> awaited (IOBlockTriggered n iw) m = awaited iw m.
Proof.
  unfold IOBlockTriggered, trigger_cas, switch_state_to_triggered, awaited. destruct (sentries iw !! n) as [s|] eqn:En; cbn.
  2:{ split; [by rewrite app_nil_r|done]. }
  destruct (io_state_ s) eqn:Es; cbn.
  2:{ split; [by rewrite app_nil_r|]. intros m Hne. by rewrite lookup_insert_ne. }
  unfold trigger_erase. cbn. rewrite lookup_insert_eq. destruct (decide (n ∈ wait_io_sentries_ iw)) as [Hin|Hin].
  - destruct (queue_erase_perm n _ Hin) as (q & -> & Hp). cbn. split; [by rewrite !bool_decide_true|].
    intros m Hne. rewrite lookup_insert_ne by done. destruct (sentries iw !! m); [|done]. cbn.
    rewrite (bool_decide_ext (m ∈ q) (m ∈ wait_io_sentries_ iw)); [done|]. rewrite Hp. set_solver.
  - rewrite (proj2 (queue_erase_none n _) Hin), (bool_decide_false (n ∈ _)), andb_false_r by done. cbn. split; [by rewrite app_nil_r|].
    intros m Hne. by rewrite lookup_insert_ne.
Qed.

Lemma fire_awaited triggers : NoDup triggers.*1 -> forall iw,
  io_runnable (fire triggers iw) = io_runnable iw ++ omap (awaited iw) triggers.*1.
Proof.
  induction triggers as [|[n []] triggers IH]; intros Hn iw; [by rewrite app_nil_r|]. rewrite fmap_cons in Hn |- *. cbn [fst] in *.
  apply NoDup_cons in Hn as [Hin Hn]. destruct (trigger_awaited n iw) as [H1 H2].
  assert (forall l : list nat, n ∉ l -> omap (awaited (IOBlockTriggered n iw)) l = omap (awaited iw) l) as Hext.
  { induction l as [|m l IHl]; [done|]. intros [Hne Hl]%not_elem_of_cons. cbn. by rewrite H2, IHl by done. }
  change (fire ((n, tt) :: triggers) iw) with (fire triggers (IOBlockTriggered n iw)).
  rewrite IH, H1, <- app_assoc, Hext by done. f_equal. cbn. by destruct (awaited iw n).
Qed.

Lemma get_pair_iow fd (g : fds (W := W)) : fd_iow (get_pair fd g) = fd_iow g.
Proof. unfold get_pair. by repeat case_match. Qed.
Lemma get_fd_ctx_iow fd (g : fds (W := W)) o g' : get_fd_ctx fd g = Some (o, g') -> fd_iow g' = fd_iow g.
Proof.
  unfold get_fd_ctx. destruct (fd <? 0); [by intros [= _ <-]|]. destruct (get fd (get_pair fd g)) as [[p g1]|] eqn:Eg; [|done].
  cbn. destruct (heap g1 !! p); [|done]. intros [= _ <-]. unfold get in Eg. rewrite <- (get_pair_iow fd g).
  destruct (pair_ptr fd (get_pair fd g)) as [q|].
  - destruct (heap _ !! q); [|done]. cbn in Eg. destruct (re_initialize _ _) as [[? ?] ?]. by injection Eg as _ <-.
  - destruct (FileDescriptorCtx_new _ _) as [c w]. unfold new_ctx in Eg. cbn in Eg.
    destruct (heap _ !! _); [|done]. cbn in Eg. destruct (re_initialize _ _) as [[? ?] ?]. injection Eg as _ <-. cbn.
    unfold set_ptr. by destruct (is_big fd).
Qed.

(** Events only change what sentries show. *)
Definition same_waits (iw iw' : IoWait) : Prop :=
  io_runnable iw' = io_runnable iw /\ (forall n, awaited iw' n = awaited iw n) /\
  forall n, is_Some (sentries iw' !! n) <-> is_Some (sentries iw !! n).
Lemma same_waits_refl iw : same_waits iw iw.
Proof. by split_and!. Qed.

Lemma trigger_list_sorted fd ev tasks : forall ss out ss' out',
  trigger_task_list fd ev tasks ss out = (ss', out') -> map_sorted out -> map_sorted out'.
Proof.
  induction tasks as [|[tk n] tasks IH]; intros ss out ss' out'; cbn [trigger_task_list]; [by intros [= _ <-]|].
  destruct (ss !! n); [|apply IH]. intros H Hs. eapply IH; [exact H|]. by apply map_insert_sorted.
Qed.

Lemma report_waits (f : nat -> IoSentry -> IoSentry) ss ss' q r :
  (forall n, ss' !! n = f n <$> ss !! n) -> (forall n s, io_state_ (f n s) = io_state_ s /\ task_ptr_ (f n s) = task_ptr_ s) ->
  same_waits (mkIoWait ss q r) (mkIoWait ss' q r).
Proof.
  intros H Hf. split; [done|]. split; intros n; cbn.
  - unfold awaited. cbn. rewrite H. destruct (ss !! n) as [s|]; [|done]. cbn. by destruct (Hf n s) as [-> ->].
  - rewrite H. by destruct (ss !! n).
Qed.

(** One descriptor's events: the sentries of the waiters concerned join the set. *)
Lemma reactor_trigger_hits size ev c ss out (e : env (W := W)) c' ss' out' e' q r :
  reactor_trigger size ev c ss out e = Some (c', ss', out', e') ->
  same_waits (mkIoWait ss q r) (mkIoWait ss' q r) /\ (map_sorted out -> map_sorted out') /\
  forall n, n ∈ out'.*1 <-> n ∈ out.*1 \/ closed_ c = false /\ n ∈ (concerned ev c).*2 /\ is_Some (ss !! n).
Proof.
  destruct (closed_ c) eqn:Hcl.
  { unfold reactor_trigger. rewrite Hcl. intros [= <- <- <- <-]. split; [apply same_waits_refl|]. split; [done|]. naive_solver. }
  rewrite reactor_trigger_eq by done. destruct (trigger_task_list _ _ _ ss out) as [ss1 out1] eqn:Et.
  destruct (del_events _ _ _ _) as [[c1 e1]|]; [|done]. intros [= <- <- <- <-].
  destruct (trigger_list_spec _ _ _ _ _ _ _ Et) as [H1 H2]. split; [apply (report_waits _ _ _ _ _ H1); intros n s; by case_decide|].
  split; [by eapply trigger_list_sorted|]. intros n. rewrite H2. naive_solver.
Qed.

(** The events one call of [epoll_wait] reported, interruptions left out. *)
Fixpoint reported (results : list epoll_result) : list (Z * Z) :=
  match results with
  | EpIntr :: results' => reported results'
  | EpReady evs :: _ => evs
  | _ => []
  end.

(** Sentry [n] waits for one of the events [evs], in the context of its
    descriptor as the events before it have left it. *)
Definition hit (size : Z) (evs : list (Z * Z)) (g : fds (W := W)) (n : nat) : Prop :=
  is_Some (sentries (fd_iow g) !! n) /\
  exists evs1 fd ev evs2 g1 tr1 p g2 c,
    evs = evs1 ++ (fd, ev) :: evs2 /\ collect_triggers size evs1 g [] = Some (g1, tr1) /\
    get_fd_ctx fd g1 = Some (Some p, g2) /\ FdContext.heap g2 !! p = Some c /\ closed_ c = false /\
    n ∈ (concerned (EpollEvent2Poll ev) c).*2.

Lemma collect_app size evs1 evs2 : forall (g : fds (W := W)) tr,
  collect_triggers size (evs1 ++ evs2) g tr = '(g1, tr1) ← collect_triggers size evs1 g tr; collect_triggers size evs2 g1 tr1.
Proof.
  induction evs1 as [|[fd ev] evs1 IH]; intros g tr; [done|]. cbn [app collect_triggers].
  destruct (get_fd_ctx fd g) as [[o g1]|]; [|done]. cbn [mbind option_bind]. destruct o as [p|]; [|apply IH].
  destruct (FdContext.heap g1 !! p) as [c|]; [|done]. cbn [mbind option_bind].
  destruct (reactor_trigger _ _ _ _ _ _) as [[[[c' ss'] tr'] e']|]; [|done]. cbn [mbind option_bind]. apply IH.
Qed.

Lemma collect_hits size evs : forall (g : fds (W := W)) g' tr, collect_triggers size evs g [] = Some (g', tr) ->
  same_waits (fd_iow g) (fd_iow g') /\ map_sorted tr /\ forall n, n ∈ tr.*1 <-> hit size evs g n.
Proof.
  induction evs as [|[fd ev] evs IH] using rev_ind; intros g g' tr.
  { intros [= <- <-]. split; [apply same_waits_refl|]. split; [done|]. intros n. split; [set_solver|].
    intros (_ & evs1 & fd & ev & evs2 & ? & ? & ? & ? & ? & Habs & _). by destruct evs1. }
  rewrite collect_app. destruct (collect_triggers size evs g []) as [[g1 tr1]|] eqn:E1; [|done]. cbn [mbind option_bind].
  destruct (IH g g1 tr1 E1) as ((W1 & W2 & W3) & Hsort & Hiff). cbn [collect_triggers].
  destruct (get_fd_ctx fd g1) as [[o g2]|] eqn:Eg; [|done]. cbn [mbind option_bind]. pose proof (get_fd_ctx_iow _ _ _ _ Eg) as Hiow.
  assert (forall n, hit size evs g n -> hit size (evs ++ [(fd, ev)]) g n) as Hmore.
  { intros n (Hs & e1 & f & v & e2 & Hh). split; [done|]. destruct Hh as (h1 & t1 & p & h2 & c & -> & Hh).
    exists e1, f, v, (e2 ++ [(fd, ev)]), h1, t1, p, h2, c. split; [by rewrite <- app_assoc|done]. }
  assert (forall n, hit size (evs ++ [(fd, ev)]) g n -> hit size evs g n \/
    is_Some (sentries (fd_iow g) !! n) /\ exists p c, o = Some p /\ FdContext.heap g2 !! p = Some c /\ closed_ c = false /\
      n ∈ (concerned (EpollEvent2Poll ev) c).*2) as Hless.
  { intros n (Hs & e1 & f & v & e2 & h1 & t1 & p & h2 & c & Heq & Hc & Hf & Hh & Hcl & Hn).
    destruct e2 as [|x e2 _] using rev_ind.
    - apply app_inj_tail in Heq as [-> [= -> ->]]. rewrite E1 in Hc. injection Hc as <- <-. rewrite Eg in Hf. injection Hf as -> <-.
      right. split; [done|]. by exists p, c.
    - left. rewrite app_comm_cons, app_assoc in Heq. apply app_inj_tail in Heq as [-> _]. split; [done|]. by exists e1, f, v, e2, h1, t1, p, h2, c. }
  destruct o as [p|].
  2:{ intros [= <- <-]. split; [by rewrite Hiow|]. split; [done|]. intros n. rewrite Hiff. split; [apply Hmore|].
      intros [?|(_ & p & c & [=] & _)]%Hless. done. }
  destruct (FdContext.heap g2 !! p) as [c|] eqn:Ec; [|done]. cbn [mbind option_bind].
  destruct (reactor_trigger _ _ _ _ _ _) as [[[[c' ss'] tr'] e']|] eqn:Er; [|done]. intros [= <- <-].
  destruct (reactor_trigger_hits _ _ _ _ _ _ _ _ _ _ (wait_io_sentries_ (fd_iow g2)) (io_runnable (fd_iow g2)) Er) as ((V1 & V2 & V3) & Vs & Vn).
  cbn [fd_iow set_ctx]. rewrite Hiow in *. split_and!.
  - split; [done|]. split.
    + intros n. rewrite <- W2. etransitivity; [apply V2|]. by destruct (fd_iow g1).
    + intros n. rewrite <- W3. cbn in V3. apply V3.
  - by apply Vs.
  - intros n. rewrite Vn, Hiff. split.
    + intros [?|(Hcl & Hn & Hs)]; [by apply Hmore|]. split; [by apply W3|]. by exists evs, fd, ev, [], g1, tr1, p, g2, c.
    + intros [?|(Hs & p' & c0 & [= <-] & Hp & Hcl & Hn)]%Hless; [by left|]. right. rewrite Ec in Hp. injection Hp as <-.
      split; [done|]. split; [done|]. by apply W3.
Qed.

(** Whom [WaitLoop] makes runnable: the tasks of the sentries that wait for one of
    the reported events. *)
Lemma wait_loop_wakes size rs : forall (g : fds (W := W)) r g', FdContext.WaitLoop size rs g = Some (r, g') ->
  exists tr, NoDup tr /\ io_runnable (fd_iow g') = io_runnable (fd_iow g) ++ omap (awaited (fd_iow g)) tr /\
    forall n, n ∈ tr <-> hit size (if IsEpollCreated (fd_env g) then reported rs else []) g n.
Proof.
  assert (forall g : fds (W := W), exists tr : list nat, NoDup tr /\
    io_runnable (fd_iow g) = io_runnable (fd_iow g) ++ omap (awaited (fd_iow g)) tr /\ forall n, n ∈ tr <-> hit size [] g n) as Hnone.
  { intros g. exists []. split; [apply NoDup_nil_2|]. split; [by rewrite app_nil_r|]. intros n. split; [set_solver|].
    intros (_ & evs1 & fd & ev & evs2 & ? & ? & ? & ? & ? & Habs & _). by destruct evs1. }
  induction rs as [|x rs IH]; intros g r g'; cbn [FdContext.WaitLoop reported]; destruct (IsEpollCreated (fd_env g)) eqn:Ee; cbn [negb];
    try (intros [= <- <-]; apply Hnone).
  destruct x; [|intros [= <- <-]; apply Hnone|].
  { intros H. specialize (IH g r g' H). by rewrite Ee in IH. }
  destruct (collect_triggers size evs g []) as [[g1 tr]|] eqn:Ec; [|done]. intros [= <- <-]. cbn.
  destruct (collect_hits _ _ _ _ _ Ec) as ((W1 & W2 & _) & Hsort & Hiff). exists tr.*1. split; [by apply sorted_nodup|]. split; [|done].
  rewrite fire_awaited, W1 by by apply sorted_nodup. f_equal. clear Hsort Hiff Ec.
  induction tr.*1 as [|n l IHl]; [done|]. cbn. by rewrite W2, IHl.
Qed.

Lemma idle_bounded max_sleep ms tn sn : 0 <= max_sleep < 256 -> 0 <= tn -> 0 <= sn ->
  let w := Run_idle_sleep max_sleep ms (Run_next_ms tn sn) in 0 <= w <= max_sleep /\ w <= tn /\ w <= sn.
Proof.
  intros Hm Ht Hs w. unfold w, Run_idle_sleep, Run_next_ms. pose proof (Z.mod_pos_bound (ms + 1) 256 ltac:(lia)).
  rewrite (Z.mod_small (Z.min _ _) 256) by lia. lia.
Qed.

End Run.

(** ** Examples *)
Import DemoKernel.

(** Two timers, one due at time 10; the callback of the first cancels nothing. *)
Definition demo_cb (id : nat) (m : CoTimerMgr) (x : unit) : CoTimerMgr * unit := (m, x).
Definition demo_mgr : CoTimerMgr := snd (ExpireAt_steady 50 (snd (ExpireAt_steady 5 CoTimerMgr_new))).
Definition demo_rounds : list (bool * clocks) := replicate 3 (false, mkClocks 10 10 10 10).
Lemma demo_mgr_reached : star mgr_step CoTimerMgr_new demo_mgr.
Proof. eapply star_step; [apply (ms_steady 5)|]. apply star_one, (ms_steady 50). Qed.


(** A pass of a new thread with one sleeper that is due and no events. *)
Definition demo_pass : pass (W := toy) :=
  mkPass 0 [] [] (fun r => r) (fun _ m x => (m, x)) [(false, mkClocks 0 0 0 0)] demo_clocks [EpReady []].
Definition demo_machine : machine (W := toy) :=
  mkMachine (Scheduler_new true) CoTimerMgr_new demo_sleep (mkFds (mkEnv world0 2 1 1024) IoWait_new ∅ 0 [] ∅)
    ThreadLocalInfo_new 0.

