(* ===== verification/RunUntil.v ===== *)
(** * Running until no task is left

    [Scheduler::RunUntilNoTask] of [libgo/scheduler.cpp], the loop in which a
    natsu application spends its life, over the passes of [SchedulerRun.v]. *)
From S2P Require Import Prelude StdString StdMap Timer SleepWait Scheduler IoWait FdContext SchedulerRun.

Section RunUntil.
Context {W : Type} `{K : Kernel W}.

(** One pass per turn; [Fuel] when the inputs end before the loop does. *)
Fixpoint RunUntilNoTask (o : CoroutineOptions) (loop_task_count : Z) (passes : list (pass (W := W)))
    (m : machine (W := W)) : outcome (machine (W := W)) :=
  match passes with
  | [] => Fuel
  | i :: passes' =>
      '(_, _, _, m) ← Run o erf_all i m;
      if loop_task_count <? task_count_ (m_sched m) then RunUntilNoTask o loop_task_count passes' m else Ret m
  end.

(** ** Coroutines that yield and end

    A coroutine's program is the number of times it still yields before its
    function returns. *)
Definition next_act (b : nat -> nat) (tk : nat) : activation :=
  mkAct [] (match b tk with O => YDone None | S _ => YRunnable end).
Definition goes_on (b : nat -> nat) (tk : nat) : bool := (0 <? b tk)%nat.
Definition spend (ran : list nat) (b : nat -> nat) (tk : nat) : nat :=
  if decide (tk ∈ ran) then Nat.pred (b tk) else b tk.
Definition work (b : nat -> nat) (q : list nat) : nat := list_sum (map (fun tk => S (b tk)) q).

Lemma filter_snoc {A} (f : A -> bool) l x :
  List.filter f (l ++ [x]) = List.filter f l ++ (if f x then [x] else []).
Proof. by rewrite List.filter_app. Qed.

(** The state of the processer when the first [k] tasks of [q] were resumed. *)
Definition after (b : nat -> nat) (k : nat) (q : list nat) : list nat :=
  drop k q ++ List.filter (goes_on b) (take k q).
Definition round (b : nat -> nat) (k : nat) (q : list nat) : proc_run :=
  mkRun (after b k q) [] (List.filter (fun tk => negb (goes_on b tk)) (take k q)) (take k q).

Lemma program_loop b q0 n : forall k, (length q0 - k)%nat = n -> (k <= length q0)%nat ->
  exists k', (k <= k' <= length q0)%nat /\ (length q0 <= 2 * k')%nat /\
  Run_loop (map (next_act b) (drop k q0)) (Z.of_nat k) (round b k q0) = Some (round b k' q0, None).
Proof.
  unfold round, after.
  induction n as [|n IH]; intros k Hn Hk.
  all: pose proof (List.filter_length_le (goes_on b) (take k q0)) as Hf; rewrite length_take in Hf.
  - assert (k = length q0) as -> by lia. exists (length q0). split_and!; try lia. rewrite drop_all. cbn [map app Run_loop r_queue].
    rewrite (proj2 (Z.leb_le _ _)) by lia. done.
  - destruct (lookup_lt_is_Some_2 q0 k ltac:(lia)) as [tk Htk]. destruct (IH (S k) ltac:(lia) ltac:(lia)) as (k' & H1 & H2 & H3).
    destruct (sz (drop k q0 ++ List.filter (goes_on b) (take k q0)) <=? Z.of_nat k) eqn:E.
    + exists k. apply Z.leb_le in E as E'. rewrite length_app, length_drop in E'. split_and!; try lia.
      destruct (map (next_act b) (drop k q0)); cbn [Run_loop r_queue]; by rewrite E.
    + exists k'. split_and!; try lia. rewrite (drop_S _ _ _ Htk) in *. cbn [map Run_loop r_queue r_away r_done r_ran]. rewrite E. cbn [app].
      rewrite (take_S_r _ _ _ Htk), !filter_snoc in H3. cbn [next_act how added]. rewrite app_nil_r.
      replace (Z.of_nat k + 1) with (Z.of_nat (S k)) by lia. unfold goes_on in H3 at 2 4. destruct (b tk) as [|y] eqn:Eb; cbn in H3 |- *.
      * rewrite app_nil_r in H3. exact H3.
      * rewrite app_nil_r in H3. rewrite <- app_assoc. exact H3.
Qed.

Lemma program_round b q :
  exists k, (k <= length q <= 2 * k)%nat /\
  Processer_Run (map (next_act b) q) q = Some (round b k q, None).
Proof.
  destruct (program_loop b q (length q) 0 ltac:(lia) ltac:(lia)) as (k & H1 & H2 & H3). exists k. split; [lia|].
  unfold Processer_Run, start_run. unfold round at 1, after in H3. cbn in H3. by rewrite app_nil_r in H3.
Qed.

(** What is left to do after a round. *)
Lemma work_app b l1 l2 : work b (l1 ++ l2) = (work b l1 + work b l2)%nat.
Proof. unfold work. by rewrite map_app, list_sum_app. Qed.
Lemma work_cons b tk q : work b (tk :: q) = (S (b tk) + work b q)%nat.
Proof. done. Qed.
Lemma work_ext b b' q : (forall tk, tk ∈ q -> b tk = b' tk) -> work b q = work b' q.
Proof.
  intros H. unfold work. f_equal. apply map_ext_in. intros tk Hin. f_equal. by apply H, list_elem_of_In.
Qed.
Lemma work_went_on b b' l : (forall tk, tk ∈ l -> b' tk = Nat.pred (b tk)) ->
  (work b' (List.filter (goes_on b) l) + length l = work b l)%nat.
Proof.
  induction l as [|tk l IH]; intros H; [done|]. cbn [List.filter].
  assert (b' tk = Nat.pred (b tk)) as Ht by (apply H, list_elem_of_here).
  assert (work b' (List.filter (goes_on b) l) + length l = work b l)%nat as IHl by (apply IH; intros t Hin; by apply H, list_elem_of_further).
  rewrite work_cons. cbn [length]. unfold goes_on at 1. destruct (Nat.ltb_spec 0 (b tk)); [rewrite work_cons|]; lia.
Qed.

Lemma work_round b q k : NoDup q ->
  (work (spend (take k q) b) (after b k q) + length (take k q) = work b q)%nat.
Proof.
  intros Hq. unfold after. rewrite work_app, <- Nat.add_assoc, (work_went_on b).
  - rewrite <- (work_ext b); [rewrite Nat.add_comm, <- work_app; by rewrite take_drop|].
    intros tk Hin. unfold spend. rewrite decide_False; [done|]. intros Ht. rewrite <- (take_drop k q) in Hq.
    apply NoDup_app in Hq as (_ & Hd & _). by apply (Hd tk).
  - intros tk Hin. unfold spend. by rewrite decide_True.
Qed.

Lemma round_parts b k q : after b k q ++ r_done (round b k q) ≡ₚ q.
Proof.
  unfold after, round. cbn [r_done]. rewrite <- app_assoc. rewrite <- (take_drop k q) at 4.
  rewrite (Permutation_app_comm (take k q)). apply Permutation_app_head.
  induction (take k q) as [|tk l IH]; [done|]. cbn [List.filter]. destruct (goes_on b tk); cbn [negb].
  - cbn. by constructor.
  - rewrite <- Permutation_middle. by constructor.
Qed.

(** ** A pass without timers, sleepers and events *)

Definition unhurried (m : CoTimerMgr) : Prop := system_deadlines_ m = [] /\ steady_deadlines_ m = [].
Record quiet_pass (i : pass (W := W)) : Prop := {
  qp_effects : forall r, p_effects i r = r;
  qp_rounds : p_rounds i <> [];
  qp_clocks : p_clocks i <> [];
  qp_epoll : exists more, p_epoll i = EpReady [] :: more }.

(** One thread, whose processer has the queue [q] and every task there is. *)
Record alone (q : list nat) (m : machine (W := W)) : Prop := {
  al_queue : run_proc_list_ (m_sched m) = [q];
  al_count : task_count_ (m_sched m) = sz q;
  al_thread : thread_id (m_info m) < 0 /\ m_thread_id_ m = 0 \/ 0 <= thread_id (m_info m) /\ proc (m_info m) = Some O;
  al_timers : unhurried (m_timers m);
  al_sleep : unhurried (timer_mgr_ (m_sleep m)) }.

Lemma expired_none locked n k m : unhurried m ->
  exists next m', GetExpired locked n k m = ([], next, m') /\ unhurried m'.
Proof.
  intros [H1 H2]. unfold GetExpired. destruct locked; [by eexists _, _|]. rewrite H1, H2.
  destruct n; cbn; eexists _, _; (split; [reflexivity|done]).
Qed.

Lemma quiet_timers o i t x : quiet_pass i -> unhurried t -> 0 <= timer_handle_every_cycle o ->
  exists next t', pass_timers o erf_all i t x = Ret (0, next, t', x) /\ unhurried t'.
Proof.
  intros Hq Ht Ho. unfold pass_timers. change (flag erf_all erf_do_timer) with true. cbv iota.
  destruct (p_rounds i) as [|[locked k] rs] eqn:Er; [by destruct (qp_rounds i Hq)|]. cbn [DoTimer].
  replace ((_ =? 0) || (0 <? _)) with true by lia.
  destruct (expired_none locked 128 k t Ht) as (next & t' & -> & Hu). by eexists _, _.
Qed.

Lemma quiet_sleepers o me i s sl g : quiet_pass i -> unhurried (timer_mgr_ sl) ->
  exists next sl', pass_sleepers o erf_all me i (s, sl, g) = Ret (0, next, (s, sl', g)) /\ unhurried (timer_mgr_ sl').
Proof.
  intros Hq Hs. unfold pass_sleepers. change (flag erf_all erf_do_sleeper) with true. cbv iota.
  destruct (p_clocks i) as [|[locked k] ks] eqn:Ek; [by destruct (qp_clocks i Hq)|]. cbn [SleepWait.WaitLoop].
  destruct (expired_none locked 128 k (timer_mgr_ sl) Hs) as (next & t' & -> & Hu). cbn [mbind outcome_bind SleepWait.woken].
  rewrite drop_all. by eexists _, _.
Qed.

Lemma quiet_events o me i s sl g : quiet_pass i ->
  exists ep g', pass_events o erf_all me i (s, sl, g) = Ret (ep, (s, sl, g')).
Proof.
  intros Hq. destruct (qp_epoll i Hq) as [more He]. unfold pass_events.
  change (flag erf_all erf_do_eventloop) with true. cbv iota. rewrite He. cbn [FdContext.WaitLoop].
  destruct (IsEpollCreated (fd_env g)); cbn; rewrite drop_all; by eexists _, _.
Qed.

Lemma quiet_coroutines b k q (i : pass (W := W)) s : run_proc_list_ s = [q] -> task_count_ s = sz q -> sz q < 2 ^ 32 ->
  p_acts i = map (next_act b) q -> Processer_Run (p_acts i) q = Some (round b k q, None) ->
  exists run s', run_proc_list_ s' = [after b k q] /\ task_count_ s' = sz (after b k q) /\
    forall r, pass_coroutines erf_all 0 i s r = Ret (run, s', p_effects i r).
Proof.
  intros Hq Hc Hb Ha Hr. pose proof (Permutation_length (round_parts b k q)) as Hl. rewrite length_app in Hl.
  eexists _, (set_count _ (set_procs [after b k q] s)). split; [done|]. split; cycle 1.
  - intros r. unfold pass_coroutines. change (flag erf_all erf_do_coroutines) with true. cbv iota. unfold DoRunnable, run_proc.
    rewrite Hq. cbn [mbind option_bind lookup list_lookup]. rewrite Hr. cbn. rewrite andb_false_r. reflexivity.
  - cbn. rewrite Hc, u32_small; cbn in Hl; lia.
Qed.

Lemma quiet_run o b k q i m : alone q m -> quiet_pass i -> p_acts i = map (next_act b) q ->
  Processer_Run (p_acts i) q = Some (round b k q, None) -> 0 <= timer_handle_every_cycle o -> sz q < 2 ^ 32 ->
  exists run wait slept m', Run o erf_all i m = Ret (run, wait, slept, m') /\ alone (after b k q) m'.
Proof.
  intros [Hq Hc Ht Hm Hs] Hi Ha Hr Ho Hb.
  assert (exists m1, thread_init m = (O, m1) /\ m_sched m1 = m_sched m /\ m_timers m1 = m_timers m /\ m_sleep m1 = m_sleep m /\
    0 <= thread_id (m_info m1) /\ proc (m_info m1) = Some O) as (m1 & Hinit & E1 & E2 & E3 & E4 & E5).
  { unfold thread_init. destruct Ht as [[Hn Hz]|[Hn Hp]].
    - rewrite (proj2 (Z.ltb_lt _ _)), Hz by lia. eexists. split; [reflexivity|]. cbn. split_and!; try done.
      unfold GetProcesser. rewrite Hq. cbn. destruct (m_sched m); cbn in *; by subst.
    - rewrite (proj2 (Z.ltb_ge _ _)), Hp by lia. by exists m. }
  destruct (quiet_coroutines b k q i (m_sched m) Hq Hc Hb Ha Hr) as (run & s' & Hq' & Hc' & Hrun).
  destruct (quiet_timers o i (m_timers m) (s', m_sleep m, m_fds m1) Hi Hm Ho) as (tn & t' & Htm & Hm').
  destruct (quiet_sleepers o 0 i s' (m_sleep m) (m_fds m1) Hi Hs) as (sn & sl' & Hsl & Hs').
  destruct (quiet_events o 0 i s' sl' (m_fds m1) Hi) as (ep & g' & Hev).
  unfold Run. rewrite Hinit, E1, E2, E3, Hrun, (qp_effects i Hi). cbn [mbind outcome_bind]. rewrite Htm.
  cbn [mbind outcome_bind]. rewrite Hsl. cbn [mbind outcome_bind]. rewrite Hev. cbn [mbind outcome_bind].
  eexists _, _, _, _. split; [reflexivity|]. constructor; cbn; try done. right. repeat case_match; done.
Qed.

(** ** The loop ends *)

(** The passes follow the programs of the tasks in the queue. *)
Fixpoint obeys (b : nat -> nat) (q : list nat) (passes : list (pass (W := W))) : Prop :=
  match passes with
  | [] => True
  | i :: passes' =>
      quiet_pass i /\ p_acts i = map (next_act b) q /\
      forall r e, Processer_Run (p_acts i) q = Some (r, e) -> obeys (spend (r_ran r) b) (r_queue r) passes'
  end.

(** C22: The loop of the scheduler ends when the coroutines do, in a program of one
    thread whose coroutines only yield and return.  The coroutines of queue [q]
    each yield [b] times and then return; none of them sleeps, waits, sets a
    timer, starts another or throws, no timer or sleeper is pending and no
    event arrives.  Then [RunUntilNoTask] returns after at most as many passes
    as the coroutines have resumptions left (and one); at most
    [loop_task_count] tasks remain, all of them in the queue, and [task_count_]
    is their number. *)
Theorem run_until_done o b q passes loop_task_count m :
  alone q m -> NoDup q -> sz q < 2 ^ 32 -> 0 <= timer_handle_every_cycle o -> 0 <= loop_task_count ->
  obeys b q passes -> (work b q < length passes)%nat ->
  exists m' q', RunUntilNoTask o loop_task_count passes m = Ret m' /\ alone q' m' /\ sz q' <= loop_task_count /\
    q' ⊆ q /\ NoDup q'.
Proof.
  intros Hm Hn Hb Ho Hl. revert b q m Hm Hn Hb. induction passes as [|i passes IH]; intros b q m Hm Hn Hb Hob Hw; [cbn in Hw; lia|].
  destruct Hob as (Hi & Ha & Hob).
  destruct (program_round b q) as (k & Hk & Hr). rewrite <- Ha in Hr.
  destruct (quiet_run o b k q i m Hm Hi Ha Hr Ho Hb) as (run & wait & slept & m1 & Hrun & Hm1).
  pose proof (round_parts b k q) as Hp. pose proof (work_round b q k Hn) as Hwk. rewrite length_take in Hwk.
  assert (NoDup (after b k q) /\ after b k q ⊆ q) as [Hn1 Hsub].
  { rewrite <- Hp in Hn. apply NoDup_app in Hn as (Hn1 & _ & _). split; [done|].
    intros tk Hin. rewrite <- Hp. apply elem_of_app. by left. }
  apply Permutation_length in Hp. rewrite length_app in Hp.
  cbn [RunUntilNoTask]. rewrite Hrun. cbn [mbind outcome_bind]. rewrite (al_count _ _ Hm1).
  destruct (Z.ltb_spec loop_task_count (sz (after b k q))); [|by exists m1, (after b k q)].
  destruct (IH _ (after b k q) m1 Hm1 Hn1 ltac:(lia) (Hob _ _ Hr)) as (m' & q' & H1 & H2 & H3 & H4 & H5).
  - cbn in Hw |- *. lia.
  - exists m', q'. split_and!; try done. by trans (after b k q).
Qed.
End RunUntil.

(** ** Example: two coroutines, the first of which yields once *)
Import DemoKernel.

Definition demo_quiet (acts : list activation) : pass (W := toy) :=
  mkPass 0 acts [] (fun r => r) (fun _ m x => (m, x)) [(false, mkClocks 0 0 0 0)] [(false, mkClocks 0 0 0 0)] [EpReady []].
Definition demo_program (tk : nat) : nat := match tk with O => 1%nat | _ => O end.
Definition demo_passes : list (pass (W := toy)) :=
  map demo_quiet [[mkAct [] YRunnable; mkAct [] (YDone None)]; [mkAct [] (YDone None)]; []; []].
Definition demo_two : machine (W := toy) :=
  mkMachine (CreateTask 1 egod_default None 0 (CreateTask 0 egod_default None 0 (Scheduler_new true))) CoTimerMgr_new SleepWait_new
    (mkFds (mkEnv world0 2 1 1024) IoWait_new ∅ 0 [] ∅) ThreadLocalInfo_new 0.

Lemma run_until_done_witness :
  exists m', RunUntilNoTask default_options 0 demo_passes demo_two = Ret m' /\ task_count_ (m_sched m') = 0.
Proof.
  destruct (run_until_done default_options demo_program [0%nat; 1%nat] demo_passes 0 demo_two) as (m' & q' & H1 & H2 & H3 & _).
  - constructor; cbn; try done; try (by left).
  - repeat constructor; set_solver.
  - cbn. lia.
  - cbn. lia.
  - lia.
  - assert (forall acts, quiet_pass (demo_quiet acts)) as Hq by (intros acts; constructor; cbn; try done; by eexists).
    cbn [obeys demo_passes map]. split; [apply Hq|]. split; [reflexivity|]. intros r e Hr. vm_compute in Hr. injection Hr as <- <-.
    split; [apply Hq|]. split; [reflexivity|]. intros r e Hr. vm_compute in Hr. injection Hr as <- <-.
    split; [apply Hq|]. split; [reflexivity|]. intros r e Hr. vm_compute in Hr. injection Hr as <- <-.
    split; [apply Hq|]. split; [reflexivity|]. done.
  - cbn. lia.
  - exists m'. split; [exact H1|]. pose proof (al_count _ _ H2). lia.
Defined.
