(* ===== verification/Debugger.v ===== *)
(** * The debugger: object counters and the report

    [libgo/debugger.h] and [libgo/debugger.cpp], with [FileDescriptorCtx::GetDebugInfo]
    and [FdManager::GetDebugInfo] of [linux/fd_context.cpp].

    A class derived from [DebuggerBase] is a number; [Count] is run by any number
    of threads at once and is split where another thread can come in between: the
    index of the class, the unlocked look at the size of [object_counts_], the
    section under [object_counts_spinlock_], and the atomic addition through the
    reference it returned. *)
From stdpp Require Import sorting.
From S2P Require Import Prelude StdString StdMap Timer TaskInfo IoWait FdContext.

(** ** [real_typename] *)

(** [s.find_last_of(c)]. *)
Definition find_last_of (c : ascii) (s : bytes) : option nat :=
  (fun k => (length s - S k)%nat) <$> first_index (Ascii.eqb c) (rev s).

(** The part of [real_typename] after the demangled name is in [result]. *)
Definition real_typename (result : bytes) : outcome bytes :=
  let start := u64 (StdString.to_pos (find_first_of ["<"%char] result 0) + 1) in
  let end_ := StdString.to_pos (find_last_of ">"%char result) in
  substr result start (u64 (end_ - start)).

(** ** The counters *)

(** A constructor adds, the destructor subtracts, and the constructor of the
    static [object_creator_] only makes the counter exist. *)
Inductive count_use : Type := Inc | Dec | Touch.
Definition apply_use (u : count_use) (n : Z) : Z :=
  match u with Inc => u64 (n + 1) | Dec => u64 (n - 1) | Touch => n end.

Inductive count_pc : Type :=
| p_look (ty index : nat) (u : count_use)
| p_lock (ty index : nat) (u : count_use)
| p_ref (ty index : nat) (u : count_use).

Record CoDebugger : Type := mkDbg {
  s_debugger_drived_type_index_ : nat;
  s_index : gmap nat nat;
  object_counts_ : list (bytes * Z);
  counting : gmap nat count_pc;
  made : gmap nat Z }.
Definition dbg_new : CoDebugger := mkDbg 0 ∅ [] ∅ ∅.

Section Counters.
(** What [real_typename] gives for a class. *)
Variable type_name : nat -> bytes.

(** The static of each instance is initialised once. *)
Definition GetDebuggerDrivedIndex (ty : nat) (d : CoDebugger) : nat * CoDebugger :=
  match s_index d !! ty with
  | Some i => (i, d)
  | None =>
      let i := s_debugger_drived_type_index_ d in
      (i, mkDbg (S i) (<[ty := i]> (s_index d)) (object_counts_ d) (counting d) (made d))
  end.

Definition set_counts (l : list (bytes * Z)) (d : CoDebugger) : CoDebugger :=
  mkDbg (s_debugger_drived_type_index_ d) (s_index d) l (counting d) (made d).
Definition set_pc (th : nat) (p : option count_pc) (d : CoDebugger) : CoDebugger :=
  mkDbg (s_debugger_drived_type_index_ d) (s_index d) (object_counts_ d)
    (match p with Some p => <[th := p]> (counting d) | None => delete th (counting d) end) (made d).

(** The section of [Count] under the lock. *)
Definition Count_locked (ty index : nat) (l : list (bytes * Z)) : list (bytes * Z) :=
  if (index <? length l)%nat then l
  else alter (fun kv => (type_name ty, kv.2)) index (resize (index + 1) ([], 0) l).

(** The atomic addition; [made] follows the objects that exist. *)
Definition Count_apply (ty index : nat) (u : count_use) (d : CoDebugger) : CoDebugger :=
  mkDbg (s_debugger_drived_type_index_ d) (s_index d)
    (alter (fun kv => (kv.1, apply_use u kv.2)) index (object_counts_ d)) (counting d)
    (match u with
     | Inc => <[ty := default 0 (made d !! ty) + 1]> (made d)
     | Dec => <[ty := default 0 (made d !! ty) - 1]> (made d)
     | Touch => made d
     end).

(** One thread alone: [Count] and what is done to the counter. *)
Definition Count (ty : nat) (u : count_use) (d : CoDebugger) : CoDebugger :=
  let '(i, d1) := GetDebuggerDrivedIndex ty d in
  Count_apply ty i u (set_counts (Count_locked ty i (object_counts_ d1)) d1).

(** The [object_creator_]s of the classes [tys], built before [main]. *)
Definition register (tys : list nat) : CoDebugger := foldl (fun d ty => Count ty Touch d) dbg_new tys.

Inductive count_step (tys : list nat) : CoDebugger -> CoDebugger -> Prop :=
| c_index d th ty u : counting d !! th = None -> ty ∈ tys ->
    count_step tys d (let '(i, d') := GetDebuggerDrivedIndex ty d in set_pc th (Some (p_look ty i u)) d')
| c_look d th ty i u : counting d !! th = Some (p_look ty i u) ->
    count_step tys d (set_pc th (Some ((if (i <? length (object_counts_ d))%nat then p_ref else p_lock) ty i u)) d)
| c_lock d th ty i u : counting d !! th = Some (p_lock ty i u) ->
    count_step tys d (set_pc th (Some (p_ref ty i u)) (set_counts (Count_locked ty i (object_counts_ d)) d))
| c_apply d th ty i u : counting d !! th = Some (p_ref ty i u) ->
    count_step tys d (set_pc th None (Count_apply ty i u d)).

Definition GetDebuggerObjectCounts (d : CoDebugger) : list (bytes * Z) := object_counts_ d.

(** ** Registered classes are counted exactly *)

Definition exact_counts (tys : list nat) (d : CoDebugger) : list (bytes * Z) :=
  map (fun ty => (type_name ty, u64 (default 0 (made d !! ty)))) tys.

Definition pc_is (p : count_pc) (ty i : nat) : Prop :=
  match p with p_look ty' i' _ | p_lock ty' i' _ | p_ref ty' i' _ => ty' = ty /\ i' = i end.

Record registered (tys : list nat) (d : CoDebugger) : Prop := {
  r_index i ty : tys !! i = Some ty -> s_index d !! ty = Some i;
  r_counts : object_counts_ d = exact_counts tys d;
  r_pcs th p : counting d !! th = Some p -> exists ty i, tys !! i = Some ty /\ pc_is p ty i }.

Lemma register_snoc tys ty : register (tys ++ [ty]) = Count ty Touch (register tys).
Proof. unfold register. by rewrite foldl_snoc. Qed.

Lemma Count_new ty d : s_index d !! ty = None -> length (object_counts_ d) = s_debugger_drived_type_index_ d ->
  Count ty Touch d =
    mkDbg (S (s_debugger_drived_type_index_ d)) (<[ty := s_debugger_drived_type_index_ d]> (s_index d))
      (object_counts_ d ++ [(type_name ty, 0)]) (counting d) (made d).
Proof.
  intros Hn Hl. unfold Count, GetDebuggerDrivedIndex. rewrite Hn. cbn. unfold Count_apply, set_counts. cbn. f_equal.
  unfold Count_locked, resize. rewrite (proj2 (Nat.ltb_ge _ _)) by lia.
  rewrite take_ge by lia. replace (_ + 1 - _)%nat with 1%nat by lia. cbn.
  rewrite <- Hl, !alter_app_r_alt, Nat.sub_diag by done. done.
Qed.

Lemma register_spec tys : NoDup tys ->
  object_counts_ (register tys) = map (fun ty => (type_name ty, 0)) tys /\
  s_debugger_drived_type_index_ (register tys) = length tys /\
  (forall ty i, s_index (register tys) !! ty = Some i <-> tys !! i = Some ty) /\
  counting (register tys) = ∅ /\ made (register tys) = ∅.
Proof.
  induction tys as [|ty tys IH] using rev_ind; intros Hd; [by repeat split|].
  apply NoDup_app in Hd as (Hd & Hf & _). destruct (IH Hd) as (H1 & H2 & H3 & H4 & H5).
  assert (s_index (register tys) !! ty = None) as Hn.
  { apply eq_None_not_Some. intros [i Hi]. apply H3, list_elem_of_lookup_2, Hf in Hi. set_solver. }
  rewrite register_snoc, (Count_new _ _ Hn) by by rewrite H1, H2, length_map. cbn.
  rewrite H1, H2, H4, H5, map_app, length_app. repeat split; try done; [cbn; lia| |].
  - rewrite lookup_insert_Some, lookup_app_Some. intros [[<- <-]|[Hne Hi]]; [right|by left; apply H3].
    by rewrite Nat.sub_diag.
  - rewrite lookup_insert_Some, lookup_snoc_Some, H3. intros [[Hlt Hi]|[-> ->]]; [right; split; [|done]|by left].
    intros <-. apply list_elem_of_lookup_2, Hf in Hi. set_solver.
Qed.

Lemma register_registered tys : NoDup tys -> registered tys (register tys).
Proof.
  intros Hd. destruct (register_spec tys Hd) as (H1 & _ & H3 & H4 & H5). constructor.
  - intros i ty Hi. by apply H3.
  - rewrite H1. unfold exact_counts. by rewrite H5.
  - by rewrite H4.
Qed.

Lemma set_pc_registered tys th p d : registered tys d ->
  (forall q, p = Some q -> exists ty i, tys !! i = Some ty /\ pc_is q ty i) -> registered tys (set_pc th p d).
Proof.
  intros [H1 H2 H3] Hp. constructor; cbn; [done|done|]. intros th' q.
  destruct p as [p|]; [rewrite lookup_insert_Some|rewrite lookup_delete_Some]; naive_solver.
Qed.

Lemma count_once u n m : apply_use u (u64 n) = u64 m <-> u64 (match u with Inc => n + 1 | Dec => n - 1 | Touch => n end) = u64 m.
Proof. destruct u; cbn; rewrite ?u64_step, <- ?(Z.add_opp_r (u64 n)), ?u64_step; done. Qed.

Lemma alter_exact tys d ty i u : NoDup tys -> registered tys d -> tys !! i = Some ty -> registered tys (Count_apply ty i u d).
Proof.
  intros Hd [H1 H2 H3] Hi. constructor; cbn; [done| |done]. rewrite H2. unfold exact_counts. cbn.
  apply list_eq. intros j.
  destruct (decide (i = j)) as [<-|Hne].
  - rewrite list_lookup_alter_eq, !list_lookup_fmap, Hi. cbn. do 2 f_equal. apply count_once.
    destruct u; cbn; rewrite ?lookup_insert_eq; done.
  - rewrite list_lookup_alter_ne, !list_lookup_fmap by done. destruct (tys !! j) as [ty'|] eqn:Ej; [|done]. cbn.
    assert (ty <> ty') as Hn by (intros <-; apply Hne; by eapply NoDup_lookup).
    do 2 f_equal. destruct u; cbn; rewrite ?lookup_insert_ne by done; done.
Qed.

Lemma count_step_registered tys d d' : NoDup tys -> count_step tys d d' -> registered tys d -> registered tys d'.
Proof.
  intros Hd Hs Hr. pose proof Hr as [H1 H2 H3].
  destruct Hs as [d th ty u Hn Hin|d th ty i u Hp|d th ty i u Hp|d th ty i u Hp].
  - apply list_elem_of_lookup in Hin as [i Hi]. unfold GetDebuggerDrivedIndex. rewrite (H1 _ _ Hi).
    apply set_pc_registered; [done|]. intros q [= <-]. by exists ty, i.
  - destruct (H3 _ _ Hp) as (? & ? & Hi & -> & ->). apply set_pc_registered; [done|].
    intros q [= <-]. do 2 eexists. split; [exact Hi|]. by destruct (_ <? _)%nat.
  - destruct (H3 _ _ Hp) as (? & ? & Hi & -> & ->). apply set_pc_registered; [|intros q [= <-]; by do 2 eexists].
    unfold Count_locked. apply lookup_lt_Some in Hi.
    rewrite (proj2 (Nat.ltb_lt _ _)) by (rewrite H2; unfold exact_counts; by rewrite length_map). by destruct d.
  - destruct (H3 _ _ Hp) as (? & ? & Hi & -> & ->). apply set_pc_registered; [by apply alter_exact|done].
Qed.

(** The classes that were registered before the threads start are counted
    exactly, whatever the threads interleave: the report has one entry for each,
    with its name, and the number of its objects made and not destroyed (modulo
    2^64, the width of the counter). *)
Theorem object_counts_exact tys d :
  NoDup tys -> rtc (count_step tys) (register tys) d ->
  GetDebuggerObjectCounts d = map (fun ty => (type_name ty, u64 (default 0 (made d !! ty)))) tys.
Proof.
  intros Hd Hr. apply (r_counts tys d). pose proof (register_registered tys Hd) as H0.
  induction Hr as [d|d d1 d2 Hs _ IH]; [done|]. apply IH. by eapply count_step_registered.
Qed.

(** A name that was not written when the entry was made is never written. *)
Lemma name_kept tys d d' i nm n : count_step tys d d' -> object_counts_ d !! i = Some (nm, n) ->
  exists n', object_counts_ d' !! i = Some (nm, n').
Proof.
  intros Hs Hi. destruct Hs as [d th ty u Hn Hin|d th ty j u Hp|d th ty j u Hp|d th ty j u Hp]; cbn; try by eauto.
  - unfold GetDebuggerDrivedIndex. destruct (s_index d !! ty); cbn; eauto.
  - unfold Count_locked. destruct (j <? length (object_counts_ d))%nat eqn:E; [eauto|]. apply Nat.ltb_ge in E.
    pose proof (lookup_lt_Some _ _ _ Hi). rewrite list_lookup_alter_ne by lia. unfold resize.
    rewrite take_ge, lookup_app_l by lia. eauto.
  - destruct (decide (j = i)) as [->|Hne]; [rewrite list_lookup_alter_eq, Hi|rewrite list_lookup_alter_ne by done]; cbn; eauto.
Qed.
End Counters.

(** When two classes are first used at the same time the later one may make both
    entries: the first one's entry then has no name, and keeps none. *)
Lemma name_lost type_name : exists d d',
  rtc (count_step type_name [0; 1]%nat) dbg_new d /\ rtc (count_step type_name [0; 1]%nat) dbg_new d' /\
  counting d = ∅ /\ GetDebuggerObjectCounts d = [([], 1); (type_name 1%nat, 1)] /\
  counting d' = ∅ /\ GetDebuggerObjectCounts d' = [(type_name 0%nat, 1); (type_name 1%nat, 1)].
Proof.
  do 2 eexists. split; [|split].
  - eapply rtc_l; [apply (c_index _ _ _ 0 0 Inc); [done|set_solver]|].
    eapply rtc_l; [apply (c_index _ _ _ 1 1 Inc); [done|set_solver]|].
    eapply rtc_l; [by eapply (c_look _ _ _ 1)|]. eapply rtc_l; [by eapply (c_look _ _ _ 0)|].
    eapply rtc_l; [by eapply (c_lock _ _ _ 1)|]. eapply rtc_l; [by eapply (c_lock _ _ _ 0)|].
    eapply rtc_l; [by eapply (c_apply _ _ _ 1)|]. eapply rtc_l; [by eapply (c_apply _ _ _ 0)|]. apply rtc_refl.
  - eapply rtc_l; [apply (c_index _ _ _ 0 0 Inc); [done|set_solver]|].
    eapply rtc_l; [by eapply (c_look _ _ _ 0)|]. eapply rtc_l; [by eapply (c_lock _ _ _ 0)|].
    eapply rtc_l; [by eapply (c_apply _ _ _ 0)|].
    eapply rtc_l; [apply (c_index _ _ _ 1 1 Inc); [done|set_solver]|].
    eapply rtc_l; [by eapply (c_look _ _ _ 1)|]. eapply rtc_l; [by eapply (c_lock _ _ _ 1)|].
    eapply rtc_l; [by eapply (c_apply _ _ _ 1)|]. apply rtc_refl.
  - done.
Qed.

(** ** The names *)

Lemma find_last_of_end c s : find_last_of c (s ++ [c]) = Some (length s).
Proof. unfold find_last_of. rewrite rev_app_distr. cbn. rewrite Ascii.eqb_refl, length_app. cbn. f_equal. lia. Qed.

(** The name between the first [<] and the last [>] is the class's name, whatever
    template brackets it has itself. *)
Lemma real_typename_inside prefix name : "<"%char ∉ prefix -> sz (prefix ++ name) + 2 < 2 ^ 64 ->
  real_typename (prefix ++ ["<"%char] ++ name ++ [">"%char]) = Ret name.
Proof.
  intros Hp Hs. unfold real_typename.
  assert (find_first_of ["<"%char] (prefix ++ ["<"%char] ++ name ++ [">"%char]) 0 = Some (length prefix)) as ->.
  { unfold find_first_of. rewrite drop_0. cbn [app]. rewrite first_index_app; [done| |done].
    apply Forall_forall. intros c Hc. apply not_true_is_false. rewrite char_in_spec, list_elem_of_singleton. by intros ->. }
  replace (prefix ++ ["<"%char] ++ name ++ [">"%char]) with ((prefix ++ ["<"%char] ++ name) ++ [">"%char])
    by by rewrite <- !app_assoc.
  rewrite find_last_of_end. cbn [StdString.to_pos]. rewrite !length_app, !Nat2Z.inj_add in *. cbn [length] in *.
  rewrite (u64_small (_ + 1)), u64_small by lia. unfold substr. rewrite !length_app, !Nat2Z.inj_add. cbn [length].
  rewrite (proj2 (Z.ltb_ge _ _)) by lia. f_equal.
  replace (Z.to_nat (Z.of_nat (length prefix) + 1)) with (length (prefix ++ ["<"%char])) by (rewrite length_app; cbn; lia).
  replace (Z.to_nat (Z.min _ _)) with (length name) by lia.
  by rewrite app_assoc, <- app_assoc, drop_app_length, take_app_length.
Qed.

(** ** The report *)

Definition flag01 (b : bool) : bytes := dec (if b then 1 else 0).

(** [FileDescriptorCtx::GetDebugInfo]: what [sprintf] writes to [buf]. *)
Definition ctx_GetDebugInfo (c : FileDescriptorCtx) : bytes :=
  lit "fd[" ++ dec (fd_ c) ++ lit "] closed(" ++ flag01 (closed_ c) ++ lit ") is_socket(" ++ flag01 (is_socket_ c) ++
  lit ") user_nonblock(" ++ flag01 (user_nonblock_ c) ++ lit ") i_tasks(" ++ dec (i32 (sz (i_tasks_ c))) ++
  lit ") o_tasks(" ++ dec (i32 (sz (o_tasks_ c))) ++ lit ") io_tasks(" ++ dec (i32 (sz (io_tasks_ c))) ++ lit ")".

(** [std::map] is walked in the order of its keys. *)
Definition key_le {A} (x y : Z * A) : Prop := x.1 <= y.1.
#[local] Instance key_le_dec {A} (x y : Z * A) : Decision (key_le x y).
Proof. unfold key_le. apply _. Defined.
Definition in_key_order {A} (m : gmap Z A) : list (Z * A) := merge_sort key_le (map_to_list m).

Section Report.
Context {W : Type}.
Variable text : Z -> bytes.

(** The lines of one loop of [FdManager::GetDebugInfo]. *)
Fixpoint pair_lines (l : list (Z * option nat)) (objs : gmap nat FileDescriptorCtx) : outcome bytes :=
  match l with
  | [] => Ret []
  | (_, None) :: l' => pair_lines l' objs
  | (i, Some p) :: l' =>
      match objs !! p with
      | None => Undef
      | Some c =>
          rest ← pair_lines l' objs;
          Ret ([LF] ++ lit "  [" ++ dec i ++ lit "] -> " ++ ctx_GetDebugInfo c ++ rest)
      end
  end.
Definition mgr_GetDebugInfo (g : fds (W := W)) : outcome bytes :=
  small ← pair_lines (imap (fun i p => (Z.of_nat i, p)) (fd_deque_ g)) (heap g);
  big ← pair_lines (in_key_order (big_fds_ g)) (heap g);
  Ret (lit "---------------------------------" ++ [LF] ++ lit "File Descriptor Info(Small):" ++ small ++
       [LF] ++ lit "---------------------------------" ++
       [LF] ++ lit "---------------------------------" ++ [LF] ++ lit "File Descriptor Info(Big):" ++ big ++
       [LF] ++ lit "---------------------------------").

Fixpoint location_lines (m : list (SourceLocation * Z)) : bytes :=
  match m with
  | [] => []
  | (l, n) :: m' => [LF] ++ lit "    " ++ dec n ++ lit " " ++ location_string text l ++ location_lines m'
  end.
Fixpoint state_lines (state : Z) (vm : list (list (SourceLocation * Z))) : bytes :=
  match vm with
  | [] => []
  | m :: vm' => [LF] ++ lit "  " ++ GetTaskStateName state ++ lit " ->" ++ location_lines m ++ state_lines (state + 1) vm'
  end.
Fixpoint count_lines (objs : list (bytes * Z)) : bytes :=
  match objs with
  | [] => []
  | (nm, n) :: objs' => [LF] ++ lit "Count(" ++ nm ++ lit "): " ++ dec n ++ count_lines objs'
  end.

(** What the getters of [CoDebugger] read: the scheduler's counters, the address
    of the current task and how often it has yielded, and the components the
    report walks. *)
Record debug_view : Type := mkView {
  v_task_count : Z; v_current : option nat; v_yields : Z; v_thread_id : Z; v_pid : Z;
  v_timers : CoTimerMgr; v_sleepers : CoTimerMgr; v_stat : bool; v_tasks : task_world;
  v_fds : fds (W := W); v_counters : CoDebugger }.
Definition set_task (a : nat) (t : Task) (v : debug_view) : debug_view :=
  mkView (v_task_count v) (v_current v) (v_yields v) (v_thread_id v) (v_pid v) (v_timers v) (v_sleepers v) (v_stat v)
    (mkTasks (s_id (v_tasks v)) (s_task_count (v_tasks v)) (s_stat_set (v_tasks v)) (<[a := t]> (objects (v_tasks v))))
    (v_fds v) (v_counters v).

Definition current_task (v : debug_view) : option (nat * Task) :=
  a ← v_current v; t ← objects (v_tasks v) !! a; Some (a, t).
Definition GetCurrentTaskID (v : debug_view) : Z := match current_task v with Some (_, t) => id_ t | None => 0 end.
Definition GetCurrentTaskYieldCount (v : debug_view) : Z := match current_task v with Some _ => v_yields v | None => 0 end.
Definition SetCurrentTaskDebugInfo (info : bytes) (v : debug_view) : debug_view :=
  match current_task v with Some (a, t) => set_task a (SetDebugInfo info t) v | None => v end.
(** The C string; [DebugInfo] keeps the text it makes in the task. *)
Definition GetCurrentTaskDebugInfo (v : debug_view) : bytes * debug_view :=
  match current_task v with
  | Some (a, t) => let '(s, t') := DebugInfo text t in (cstr s, set_task a t' v)
  | None => ([], v)
  end.
Definition GetCurrentThreadID (v : debug_view) : Z := u32 (v_thread_id v).
Definition GetCurrentProcessID (v : debug_view) : Z := u32 (v_pid v).
Definition GetEpollWaitCount (v : debug_view) : Z := u32 (sz (wait_io_sentries_ (fd_iow (v_fds v)))).

Definition GetAllInfo (v : debug_view) : outcome (bytes * debug_view) :=
  let '(info, v) := GetCurrentTaskDebugInfo v in
  vm ← GetStateInfo (v_stat v) (v_tasks v);
  fd_info ← mgr_GetDebugInfo (v_fds v);
  Ret (lit "==============================================" ++ [LF] ++
       lit "TaskCount: " ++ dec (u32 (v_task_count v)) ++
       [LF] ++ lit "CurrentTaskID: " ++ dec (GetCurrentTaskID v) ++
       [LF] ++ lit "CurrentTaskInfo: " ++ info ++
       [LF] ++ lit "CurrentTaskYieldCount: " ++ dec (GetCurrentTaskYieldCount v) ++
       [LF] ++ lit "CurrentThreadID: " ++ dec (GetCurrentThreadID v) ++
       [LF] ++ lit "CurrentProcessID: " ++ dec (GetCurrentProcessID v) ++
       [LF] ++ lit "TimerCount: " ++ dec (u64 (Size (v_timers v))) ++
       [LF] ++ lit "SleepTimerCount: " ++ dec (u64 (Size (v_sleepers v))) ++
       [LF] ++ lit "--------------------------------------------" ++
       [LF] ++ lit "Task Map:" ++ state_lines 0 vm ++
       [LF] ++ lit "--------------------------------------------" ++
       [LF] ++ fd_info ++
       [LF] ++ lit "EpollWait:" ++ dec (GetEpollWaitCount v) ++
       [LF] ++ lit "--------------------------------------------" ++
       [LF] ++ lit "Object Counter:" ++ count_lines (GetDebuggerObjectCounts (v_counters v)) ++
       [LF] ++ lit "--------------------------------------------" ++
       [LF] ++ lit "==============================================", v).

(** A descriptor table whose entries point to living contexts is printed, one
    line for each descriptor in use. *)
Lemma pair_lines_defined l objs : Forall (fun x => forall p, x.2 = Some p -> is_Some (objs !! p)) l ->
  exists s, pair_lines l objs = Ret s.
Proof.
  induction 1 as [|[i [p|]] l Hx _ [s IH]]; cbn; [by eexists| |by eexists].
  destruct (Hx p eq_refl) as [c Hc]. cbn in *. rewrite Hc, IH. by eexists.
Qed.
End Report.

(** ** [buf] is long enough *)

Lemma dec_nat_short fuel : forall n acc k, 0 <= n < 10 ^ Z.of_nat (S k) -> (length (dec_nat fuel n acc) <= S k + length acc)%nat.
Proof.
  induction fuel as [|fuel IH]; intros n acc k Hn; cbn [dec_nat]; [lia|].
  destruct (n <? 10) eqn:E; [cbn; lia|]. zbool. destruct k as [|k]; [cbn in Hn; lia|].
  etransitivity; [apply (IH _ _ k)|cbn; lia]. rewrite (Nat2Z.inj_succ (S k)), Z.pow_succ_r in Hn by lia.
  split; [apply Z.div_pos; lia|apply Z.div_lt_upper_bound; lia].
Qed.
Lemma dec_int_short z : - 2 ^ 31 <= z < 2 ^ 31 -> (length (dec z) <= 11)%nat.
Proof.
  intros Hz. unfold dec. destruct (z <? 0) eqn:E; zbool; cbn [length];
    [apply le_n_S|]; (etransitivity; [apply (dec_nat_short _ _ _ 9)|]); cbn; lia.
Qed.

(** The 256 bytes of [buf] hold the text and its terminator for every context. *)
Lemma debug_info_fits c : - 2 ^ 31 <= fd_ c < 2 ^ 31 -> (length (ctx_GetDebugInfo c) < 256)%nat.
Proof.
  intros Hfd. unfold ctx_GetDebugInfo. rewrite !length_app.
  pose proof (dec_int_short _ Hfd). pose proof (dec_int_short _ (i32_range (sz (i_tasks_ c)))).
  pose proof (dec_int_short _ (i32_range (sz (o_tasks_ c)))). pose proof (dec_int_short _ (i32_range (sz (io_tasks_ c)))).
  assert (forall b, length (flag01 b) = 1%nat) as Hb by by intros []. rewrite !Hb. cbn [length lit]. cbn. lia.
Qed.

(** ** On concrete inputs *)

Definition toy_names (ty : nat) : bytes := if (ty =? 0)%nat then lit "co::Task" else lit "co::IoSentry".
Example names_of_classes :
  real_typename (lit "co::real_typename_helper<co::Task>") = Ret (lit "co::Task") /\
  real_typename (lit "co::real_typename_helper<std::map<int, std::vector<char>>>") = Ret (lit "std::map<int, std::vector<char>>").
Proof. by vm_compute. Qed.

Lemma object_counts_exact_witness :
  exists d, rtc (count_step toy_names [0; 1]%nat) (register toy_names [0; 1]%nat) d /\
    GetDebuggerObjectCounts d = [(lit "co::Task", 1); (lit "co::IoSentry", 0)].
Proof.
  assert (exists d, rtc (count_step toy_names [0; 1]%nat) (register toy_names [0; 1]%nat) d /\ made d = {[0%nat := 1]}) as (d & Hr & Hm).
  { eexists. split.
    - eapply rtc_l; [apply (c_index _ _ _ 7 0 Inc); [reflexivity|left]|].
      eapply rtc_l; [eapply (c_look _ _ _ 7); vm_compute; reflexivity|].
      eapply rtc_l; [eapply (c_apply _ _ _ 7); vm_compute; reflexivity|]. apply rtc_refl.
    - vm_compute. reflexivity. }
  exists d. split; [exact Hr|].
  rewrite (object_counts_exact toy_names [0; 1]%nat d); [|repeat constructor; set_solver|exact Hr].
  rewrite Hm. vm_compute. reflexivity.
Defined.

(** The report of a process with one coroutine that waits for descriptor 5. *)
Definition toy_view : debug_view (W := unit) :=
  mkView 1 (Some 0%nat) 3 0 77 CoTimerMgr_new CoTimerMgr_new true (Task_new true 0 0 0 task_world_new)
    (mkFds (mkEnv tt (-1) (-1) 1024) IoWait_new {[0%nat := ctx_blank 5]} 1 [None; None; None; None; None; Some 0%nat] ∅)
    (Count toy_names 0 Inc dbg_new).
Example toy_report : exists v,
  GetAllInfo (fun _ => lit "main.cpp") toy_view = Ret (
    lit "==============================================" ++ [LF] ++
    lit "TaskCount: 1" ++ [LF] ++ lit "CurrentTaskID: 1" ++ [LF] ++ lit "CurrentTaskInfo: 1" ++ [LF] ++
    lit "CurrentTaskYieldCount: 3" ++ [LF] ++ lit "CurrentThreadID: 0" ++ [LF] ++ lit "CurrentProcessID: 77" ++ [LF] ++
    lit "TimerCount: 0" ++ [LF] ++ lit "SleepTimerCount: 0" ++ [LF] ++
    lit "--------------------------------------------" ++ [LF] ++ lit "Task Map:" ++ [LF] ++
    lit "  init ->" ++ [LF] ++ lit "    1 {file:, line:0}" ++ [LF] ++ lit "  runnable ->" ++ [LF] ++ lit "  io_block ->" ++ [LF] ++
    lit "  sys_block ->" ++ [LF] ++ lit "  sleep ->" ++ [LF] ++ lit "  done ->" ++ [LF] ++ lit "  fatal ->" ++ [LF] ++
    lit "--------------------------------------------" ++ [LF] ++ lit "---------------------------------" ++ [LF] ++
    lit "File Descriptor Info(Small):" ++ [LF] ++
    lit "  [5] -> fd[5] closed(0) is_socket(0) user_nonblock(0) i_tasks(0) o_tasks(0) io_tasks(0)" ++ [LF] ++
    lit "---------------------------------" ++ [LF] ++ lit "---------------------------------" ++ [LF] ++
    lit "File Descriptor Info(Big):" ++ [LF] ++ lit "---------------------------------" ++ [LF] ++
    lit "EpollWait:0" ++ [LF] ++ lit "--------------------------------------------" ++ [LF] ++
    lit "Object Counter:" ++ [LF] ++ lit "Count(co::Task): 1" ++ [LF] ++
    lit "--------------------------------------------" ++ [LF] ++ lit "==============================================", v).
Proof. eexists. vm_compute. reflexivity. Qed.

(** The order of the second loop, and that it meets every descriptor once. *)
Lemma in_key_order_spec {A} (m : gmap Z A) :
  Sorted key_le (in_key_order m) /\ in_key_order m ≡ₚ map_to_list m.
Proof.
  split; [|apply merge_sort_Permutation]. apply Sorted_merge_sort. intros x y. unfold key_le. lia.
Qed.

(** [GetAllInfo] reports whenever the task statistics do and no descriptor points
    to a context that is gone. *)
Lemma report_defined {W} text (v : debug_view (W := W)) vm :
  GetStateInfo (v_stat v) (v_tasks (GetCurrentTaskDebugInfo text v).2) = Ret vm ->
  (forall p, Some p ∈ fd_deque_ (v_fds v) -> is_Some (heap (v_fds v) !! p)) ->
  (forall i p, big_fds_ (v_fds v) !! i = Some (Some p) -> is_Some (heap (v_fds v) !! p)) ->
  exists s v', GetAllInfo text v = Ret (s, v').
Proof.
  intros Hvm Hs Hb. unfold GetAllInfo.
  assert (v_stat (GetCurrentTaskDebugInfo text v).2 = v_stat v /\ v_fds (GetCurrentTaskDebugInfo text v).2 = v_fds v) as [Hst Hfd].
  { unfold GetCurrentTaskDebugInfo. destruct (current_task v) as [[a t]|]; [|done]. by destruct (DebugInfo text t). }
  destruct (GetCurrentTaskDebugInfo text v) as [info v']. cbn [snd] in *. rewrite Hst, Hvm, Hfd. cbn.
  unfold mgr_GetDebugInfo.
  destruct (pair_lines_defined (imap (fun i p => (Z.of_nat i, p)) (fd_deque_ (v_fds v))) (heap (v_fds v))) as [s1 ->].
  { apply Forall_forall. intros x Hx p Hp. apply Hs. apply list_elem_of_lookup in Hx as [i Hi].
    rewrite list_lookup_imap in Hi. destruct (fd_deque_ (v_fds v) !! i) as [q|] eqn:E; [|done]. injection Hi as <-.
    cbn in Hp. subst. by eapply list_elem_of_lookup_2. }
  cbn. destruct (pair_lines_defined (in_key_order (big_fds_ (v_fds v))) (heap (v_fds v))) as [s2 ->]; [|cbn; eauto].
  apply Forall_forall. intros [i q] Hx p Hp. cbn in Hp. subst. rewrite (proj2 (in_key_order_spec _)) in Hx.
  apply elem_of_map_to_list in Hx. by eapply Hb.
Qed.
